(* ===== verification/_CoqProject ===== *)
-Q . S2P
Prelude.v
Monad.v
StdMap.v
Bytes.v
Oid.v
Doubles.v
Bson.v
BsonBytes.v
BsonValidate.v
BsonCompare.v
Namespace.v
FieldRef.v
ElementPath.v
MatchExpr.v
MatchSpec.v
MatchParser.v
FilterSpec.v
Projection.v
ProjectionSpec.v
HostPort.v
ParseNumber.v
Zmq.v
ZmqNode.v
ZmqTrie.v
ZmqMtrie.v
ZmqMsg.v
ZmqYpipe.v
ZmqYqueue.v
ZmqPipe.v
ZmqPipeSpec.v
ZmqPipeTerm.v
ZmqArray.v
ZmqDist.v
ZmqFq.v
ZmqXsub.v
ZmqXpub.v
ZmqLb.v
ZmqNet.v
ZmqRefine.v
ZmqSockets.v
World.v
FilterOps.v
SendSock.v
Events.v
PubSub.v
PQueue.v
PubSubInv.v
Sample.v
EventSpec.v
Sharding.v
CodecSpec.v
SendSpec.v
Startup.v
PubSubPoll.v
PubSubSafe.v
PubSubDeliver.v
PollSpec.v
PollLive.v
EndToEnd.v
FilteredPoll.v
PubSubConc.v
Auth.v
Commands.v
Dispatch.v
PollResult.v
CommandSpec.v
DispatchSpec.v
Shell.v
ShellSpec.v
