(* ===== verification/Prelude.v ===== *)
(** * Publish/subscribe in mongod and mongos: a verification library

    The program adds publish/subscribe to the database server.  Clients publish
    documents on channels with a command; other clients subscribe to a channel
    prefix, optionally with a filter and a projection, and poll.  Processes send
    each other publications over ZeroMQ sockets: the members of a replica set to
    each other, a mongos to all config servers, the shards their database events to
    one config server.  Paths below are relative to src/src/mongo/.

    ** Parts of the program and the files that model them

    Values and text.  [Bytes]: StringData, splitting and joining
    (base/string_data-inl.h, util/stringutils.cpp), little-endian integers.
    [Doubles]: IEEE doubles as 64-bit patterns, their conversions and comparisons.
    [Oid]: object identifiers (bson/oid.cpp).  [Bson]: values, elements, accessors
    and builders (bson/); a document is the list of its elements.  [BsonBytes]: its
    bytes in both directions, with the checks the reader makes.  [BsonValidate]: the
    validator of bytes from outside, a loop with a stack of frames
    (bson/bson_validate.cpp).  [BsonCompare]: the order of values and documents
    (bson/bson-inl.h, db/jsobj.cpp).  [Namespace]: names of collections, error codes.
    [HostPort], [ParseNumber]: addresses and integer parsing.

    Filters and projections.  [FieldRef]: dotted paths as the code stores them, in
    a buffer with offsets (db/field_ref.cpp).  [ElementPath]: the cursor over the
    elements a path reaches, a state machine that owns a cursor for the part of the
    path below an array (db/matcher/path.cpp).  [MatchExpr]: expression trees and
    matching (db/matcher/expression_*.cpp).  [MatchParser]: the parser of queries
    and the matcher (expression_parser.cpp, matcher.cpp).  [Projection]:
    db/projection.cpp.  [FilterOps] makes matcher and projection instances of the
    interfaces [MatcherOps] and [ProjectionOps] of [World], through which the
    subscriptions use them.

    The process.  [Zmq]: a socket is a record of its endpoints, filters, what has
    arrived and what was sent, frame by frame, as zmq.hpp exposes it.  [World]: the
    static members of PubSub and PubSubSendSocket as one state; the subscription
    objects, which the table and the polls share, are in a heap, and the table maps
    identifiers to locations.  [System] holds what the process does not determine:
    which ZeroMQ calls fail, when a PUSH socket has no room, so that a send on it
    waits, which addresses are its own, what other threads do while a poll waits.
    A call that waits for ever is the outcome [Blocks].  [Monad]: computations on a state that return or throw,
    their weakest preconditions, and invariants.  [StdMap]: std::map as a sorted
    list, [PQueue]: std::priority_queue by its laws and a heap-ordered instance.
    [SendSock]: publish and the connections (db/pubsub_sendsock.cpp).  [PubSub]:
    subscribe, poll, unsubscribe, the proxy and the cleanup thread (db/pubsub.cpp).
    [Startup]: the background jobs of db/pubsub_d.cpp and db/pubsub_s.cpp.
    [Commands]: the four commands (db/commands/pubsub_commands.cpp).  [Events]: the
    writes of a collection that publish (db/catalog/collection.cpp,
    db/ops/update.cpp).  [Sharding]: how a shard learns of its config servers
    and forgets them (s/d_state.cpp).

    From a client to the commands.  [Auth]: what a command needs and what a session
    grants (db/auth/).  [Dispatch]: from the request to the reply
    (db/query/new_find.cpp, db/dbcommands.cpp, db/commands.cpp).  [Shell]: the
    objects of shell/pubsub.js, with the conversion of values between JavaScript and
    BSON (scripting/engine_v8.cpp).

    The ZeroMQ library (src/src/third_party/zeromq-4.0.4/src/).  [ZmqNode],
    [ZmqTrie], [ZmqMtrie]: the tries of subscriptions, whose nodes have a pointer or
    a table that grows and shrinks (trie.cpp, mtrie.cpp).  [ZmqMsg]: messages, whose
    buffers are shared and counted (msg.cpp).  [ZmqYpipe]: the queue
    between two threads, whose slots are numbered (ypipe.hpp).  [ZmqYqueue]: the same
    queue in linked chunks of memory (yqueue.hpp).  [ZmqPipe]: the two ends of a
    connection, with marks, commands and shutting down (pipe.cpp); [ZmqPipeTerm]: its
    end, with the calls either owner makes.  [ZmqArray], [ZmqDist], [ZmqFq], [ZmqLb]: arrays of pipes in groups by position, sending to the matching pipes,
    reading and writing in turn (array.hpp, dist.cpp, fq.cpp, lb.cpp).  [ZmqXsub],
    [ZmqXpub], and PUSH and PULL in [ZmqLb]: the sockets.  The sockets are written
    over the interface [PipeIO] with the laws [PipeLaws]; [ZmqNet] proves them of the
    pipes of [ZmqPipe].

    ** What is proved

    Delivery.  [PollSpec]: a poll releases what it took whatever happens around it,
    returns in time, not before it without a reason, ends with no other exceptions
    than those listed, hands out what its subscriptions held and what arrived while
    it waited, and without waiting exactly what they hold.  [EndToEnd]: so a
    document published in one process comes out of a poll in another.
    [FilteredPoll]: with real filters and projections, the result of a poll is
    determined by the queries and field lists of the subscriptions.  [PollLive]: a
    publication that arrives while a poll waits ends the wait.  [PubSubInv],
    [PubSubPoll], [PubSubSafe] and [PubSubDeliver] hold the invariant of the
    subscription table and the lemmas on the loops of poll.  [PubSubConc]: in all
    interleavings of the locked regions a subscription is checked out by one thread
    at a time.  [PollResult], [CommandSpec]: the commands, on every branch, and the
    document a poll answers with.

    Filters.  [FilterSpec] with [MatchSpec]: parsing ends within the depth limit of
    the code, an accepted filter decides every message without throwing, and it
    decides [sat], the meaning of the parsed tree given by quantifying over the
    elements a path reaches; a filter is the conjunction of its parts.
    [ElementPath] proves the cursor equal to a recursive definition of those
    elements, [FieldRef] that the buffers implement a list of parts.
    [ProjectionSpec]: a projection only leaves out; field lists do exactly what
    they say.

    Sending.  [SendSpec], [Startup], [Sharding]: publications are sent once to every
    destination, a failure is reported, processes connect where they should unless a
    call fails, and a shard queues events for the cluster it is in or one it was taken
    out of.  [EventSpec]: a write does to the
    collection what it does without publish/subscribe, and publishes when it should;
    on a shard it can wait for room on the socket for events.

    Formats.  [CodecSpec]: documents, identifiers, addresses and numbers survive
    their encodings.  [BsonValidate]: the validator accepts every well-formed
    document.

    Clients.  [DispatchSpec]: a request runs its command if and only if the session
    is granted what its argument names or is not subject to authorization, and the
    reply is the command's result or error.  [ShellSpec]: publish in the shell is a publication of the document it is
    given, and a round of forEach hands its subscription's messages to the callback.

    The library.  [ZmqTrie]: a trie is a list of prefixes.  [ZmqPipeSpec]: in every
    interleaving of the two ends frames arrive in order, messages on the way stay
    within the mark, and no end waits without a reason.  [ZmqPipeTerm]: a pipe that
    is asked to end does, in a bounded number of steps, whatever its owners do short of
    a hiccup, and then both ends and both queues are deleted.  [ZmqYqueue]: the chunks implement the
    numbered slots, use no freed memory and leak none.  [ZmqMsg]: messages with shared
    buffers behave like the frames of the other files, which are their bytes; a buffer
    is freed once, with the last message.  [ZmqSockets]: a publisher
    writes a message whole to the connections that want it and have room; a
    subscriber of many publishers gets what it wants of each, unmixed and fairly; a
    pushed message goes to one.  [ZmqRefine]: a subscriber of one publisher is the
    socket of [Zmq] that the process is modelled with, as long as it subscribes before
    the messages arrive, as the process does; [late_subscription_differs] is what
    happens otherwise.

    What fails.  Some theorems show that the code does not do what it means to:
    [publish_after_failure], [filter_strands], [prune_undefined],
    [config_undefined], [cleanup_closes_polled], [unsubscribe_lost],
    [insert_hangs], [reset_keeps_socket], [validate_hangs], [unsubscribe_aborts], [fq_terminated_mixes],
    [hiccup_strands], [shared_flag_leaks], [for_each_deaf].  Undefined behaviour of C++ is an outcome of the model, [UndefinedBehaviour], so that its
    absence is part of what the other theorems state.

    ** Bounds and fuel

    Loops that are not structural have fuel, and running out is the outcome
    [OutOfFuel], which the theorems that a call returns exclude.  A wait of poll lasts at least a
    millisecond, so its time limit bounds the turns.  The frames on a socket bound
    the receive loop, the elements of the queue the loops of the poll command, the
    length of a text or buffer its parsing.  The parser goes at most 100 levels
    deep, a limit of the code, so 102 calls are enough; the cursor's recursion is
    bounded by the depth of the document ([iter_depth], [iter_rounds]).  The validator
    takes fewer rounds than a well-formed document has bytes; on other input it may
    not end.  The loops of a subscriber are bounded by the frames it can read, those
    over pipes by the number of active ones.  The end of a pipe takes at most [work]
    steps, which counts the states the ends have to go through, the commands under
    way and the items in the queues.  The
    destructor of a queue takes a round for each chunk.  The counts of buffers do not
    wrap around as long as there are fewer than 2^31 messages.  Integers are mathematical with the wrap-around written out where the code can reach it;
    signed overflow is undefined behaviour.

    ** Hypotheses

    The regular expression engine, the callbacks for geometry, text and $where, the
    storage engine and [configServer.init] are arguments with laws ([MatchEnvLaws],
    [ParserLaws], [CollectionStore]), and so are allocators; [Sample], [MatchSpec] and [EventSpec] have
    instances of them.  The theorems on filters are about documents without time
    stamps, on which comparison can throw, and without numbers that do not convert
    to 64 bits ([tame]).

    ** Not modelled

    The network side of ZeroMQ: sessions, engines, the wire protocol and when
    connections come up.  The process
    is modelled with the sockets of [Zmq], which lose no message; what a full pipe
    drops is part of the library's model only.  The proxy hands a message straight to
    the subscriptions' sockets, without the socket in between.  Unsubscribing a socket,
    which the process never does, is part of the library's model only.  The conflating pipe, an option that
    is never set.  Logging; other commands than the four;
    the dispatch of mongos; logging in, roles and the documents of users, which are an
    argument.  JavaScript other than the scripts, and scripts that change a document
    of the server.  The query planner's view of filters (tags, equivalence,
    indexes).  Projections with match details from a query, which subscriptions do
    not have.  Views into the buffers of a path, which are values in [FieldRef].  The storage engine behind [CollectionStore], the loop of update
    around its event, and replication and versioned sharding beyond
    the members of the set and joining and leaving a cluster.  Data races on the flags of a subscription, which are bit
    fields without a lock: steps of threads are interleaved, not torn. *)

From stdpp Require Export base list strings numbers option sorting sets gmap.
From Stdlib Require Export ZArith Lia Ascii.

#[global] Set Default Goal Selector "!".
#[global] Open Scope Z_scope.

(** ** Outcomes of C++ code *)

(** The ways a modelled call can leave other than by returning. *)
Inductive exn : Type :=
  | UserException (code : Z) (msg : string)
  | MsgAssertionException (code : Z) (msg : string)
  | VerifyFailed (what : string)
  | StdOutOfRange
  | ZmqError (what : string)
  | Aborted (what : string)
  | UndefinedBehaviour (what : string)
  | Blocks (what : string)
  | OutOfFuel.

Inductive res (A : Type) : Type :=
  | Ok (a : A)
  | Throw (e : exn).
Arguments Ok {A} a.
Arguments Throw {A} e.

#[global] Instance res_ret : MRet res := fun A a => Ok a.
#[global] Instance res_bind : MBind res := fun A B f m =>
  match m with Ok a => f a | Throw e => Throw e end.
#[global] Instance res_fmap : FMap res := fun A B f m =>
  match m with Ok a => Ok (f a) | Throw e => Throw e end.

#[global] Instance exn_eq_dec : EqDecision exn.
Proof. solve_decision. Defined.
#[global] Instance res_eq_dec `{EqDecision A} : EqDecision (res A).
Proof. solve_decision. Defined.

Definition uassert (code : Z) (msg : string) (b : bool) : res unit :=
  if b then Ok () else Throw (UserException code msg).
Definition massert (code : Z) (msg : string) (b : bool) : res unit :=
  if b then Ok () else Throw (MsgAssertionException code msg).
Definition verify (what : string) (b : bool) : res unit :=
  if b then Ok () else Throw (VerifyFailed what).

Definition is_Ok {A} (r : res A) : bool :=
  match r with Ok _ => true | Throw _ => false end.

(** A passed assertion in a computation that returns. *)
Lemma massert_Ok {A} c m b (f : unit → res A) r : (massert c m b ≫= f) = Ok r → b = true ∧ f () = Ok r.
Proof. by destruct b. Qed.
Lemma uassert_Ok {A} c m b (f : unit → res A) r : (uassert c m b ≫= f) = Ok r → b = true ∧ f () = Ok r.
Proof. by destruct b. Qed.
Lemma bind_Ok_inv {A B} (m : res A) (f : A → res B) r : (m ≫= f) = Ok r → ∃ a, m = Ok a ∧ f a = Ok r.
Proof. destruct m; [eauto|done]. Qed.

(** String append computes on a constructor. *)
#[global] Arguments String.append : simpl nomatch.

(** Updating an element to itself changes nothing. *)
Lemma list_alter_same {A} (f : A → A) (l : list A) i x :
  l !! i = Some x → f x = x → alter f i l = l.
Proof.
  revert i. induction l as [|y l IH]; intros [|i] Hi Hx; simplify_eq/=; [by f_equal|].
  f_equal. by apply IH.
Qed.

(** An update that does not touch what [f] sees. *)
Lemma list_fmap_alter_inv {A B} (f : A → B) (g : A → A) (l : list A) i :
  (∀ x, f (g x) = f x) → f <$> alter g i l = f <$> l.
Proof.
  intros Hg. revert i. induction l as [|x l IH]; intros [|i]; [done|done| |].
  - simpl. by rewrite Hg.
  - simpl. f_equal. apply IH.
Qed.
