(* ===== verification/Monad.v ===== *)
(** * Stateful code that can throw

    C++ functions over the process state: a computation takes the state and
    returns an outcome and the state it leaves, also when it leaves by an
    exception.  [wp] is the weakest precondition with one postcondition for
    normal and one for exceptional exit; its rules are what the proofs about
    stateful operations use. *)

From S2P Require Import Prelude.

Definition M (S A : Type) : Type := S → res A * S.

#[global] Instance M_ret {S} : MRet (M S) := λ A a s, (Ok a, s).
#[global] Instance M_bind {S} : MBind (M S) := λ A B f m s,
  match m s with (Ok a, s') => f a s' | (Throw e, s') => (Throw e, s') end.

Section operations.
Context {S : Type}.

Definition getS : M S S := λ s, (Ok s, s).
Definition gets {A} (f : S → A) : M S A := λ s, (Ok (f s), s).
Definition modify (f : S → S) : M S unit := λ s, (Ok (), f s).
Definition throw {A} (e : exn) : M S A := λ s, (Throw e, s).
Definition lift {A} (r : res A) : M S A := λ s, (r, s).

(** [try { m } catch (zmq::error_t& e) { h(e.what()) }]: every other exception
    goes through. *)
Definition try_zmq {A} (m : M S A) (h : string → M S A) : M S A := λ s,
  match m s with
  | (Throw (ZmqError w), s') => h w s'
  | r => r
  end.

(** A range loop with loop-carried data. *)
Fixpoint foldM {A B} (f : B → A → M S B) (b : B) (l : list A) : M S B :=
  match l with
  | [] => mret b
  | a :: l => b' ← f b a; foldM f b' l
  end.

Fixpoint forM_ {A} (l : list A) (f : A → M S unit) : M S unit :=
  match l with
  | [] => mret ()
  | a :: l => _ ← f a; forM_ l f
  end.

Lemma forM_app {A} (l1 l2 : list A) f s :
  forM_ (l1 ++ l2) f s = (_ ← forM_ l1 f; forM_ l2 f) s.
Proof.
  revert s. induction l1 as [|a l1 IH]; intros s; [done|]. simpl. unfold mbind, M_bind.
  destruct (f a s) as [[]]; [apply IH|done].
Qed.

Lemma bind_Ok {A B} (m : M S A) (f : A → M S B) s a s' :
  m s = (Ok a, s') → (m ≫= f) s = f a s'.
Proof. unfold mbind, M_bind. by intros ->. Qed.

Lemma bind_Throw {A B} (m : M S A) (f : A → M S B) s e s' :
  m s = (Throw e, s') → (m ≫= f) s = (Throw e, s').
Proof. unfold mbind, M_bind. by intros ->. Qed.

(** Running the primitive steps. *)
Lemma run_ret {A B} (a : A) (f : A → M S B) s : (mret a ≫= f) s = f a s.
Proof. done. Qed.
Lemma run_gets {A B} (g : S → A) (f : A → M S B) s : (gets g ≫= f) s = f (g s) s.
Proof. done. Qed.
Lemma run_getS {B} (f : S → M S B) s : (getS ≫= f) s = f s s.
Proof. done. Qed.
Lemma run_modify {B} g (f : unit → M S B) s : (modify g ≫= f) s = f () (g s).
Proof. done. Qed.
Lemma run_lift_Ok {A B} (a : A) (f : A → M S B) s : (lift (Ok a) ≫= f) s = f a s.
Proof. done. Qed.
Lemma run_lift_Throw {A B} e (f : A → M S B) s : (lift (Throw e) ≫= f) s = (Throw e, s).
Proof. done. Qed.

Lemma run_uassert_true {B} c m (f : unit → M S B) s : (lift (uassert c m true) ≫= f) s = f () s.
Proof. done. Qed.
Lemma run_uassert_false {B} c m (f : unit → M S B) s :
  (lift (uassert c m false) ≫= f) s = (Throw (UserException c m), s).
Proof. done. Qed.

(** ** Weakest preconditions *)

Definition wp {A} (m : M S A) (Q : A → S → Prop) (E : exn → S → Prop) (s : S) : Prop :=
  match m s with (Ok a, s') => Q a s' | (Throw e, s') => E e s' end.

Implicit Types (s : S).

Lemma wp_ret {A} (a : A) (Q : A → S → Prop) E s : Q a s → wp (mret a) Q E s.
Proof. done. Qed.

Lemma wp_bind {A B} (m : M S A) (f : A → M S B) Q E s :
  wp m (λ a s', wp (f a) Q E s') E s → wp (m ≫= f) Q E s.
Proof. unfold wp, mbind, M_bind. by destruct (m s) as [[a|e] s']. Qed.

Lemma wp_gets {A} (f : S → A) (Q : A → S → Prop) E s : Q (f s) s → wp (gets f) Q E s.
Proof. done. Qed.

Lemma wp_getS (Q : S → S → Prop) E s : Q s s → wp getS Q E s.
Proof. done. Qed.

Lemma wp_modify f (Q : unit → S → Prop) E s : Q () (f s) → wp (modify f) Q E s.
Proof. done. Qed.

Lemma wp_throw {A} e (Q : A → S → Prop) (E : exn → S → Prop) s : E e s → wp (throw e) Q E s.
Proof. done. Qed.

Lemma wp_lift {A} (r : res A) (Q : A → S → Prop) (E : exn → S → Prop) s :
  (∀ a, r = Ok a → Q a s) → (∀ e, r = Throw e → E e s) → wp (lift r) Q E s.
Proof. unfold wp, lift. destruct r; auto. Qed.

Lemma wp_lift_Ok {A} (a : A) (Q : A → S → Prop) E s : Q a s → wp (lift (Ok a)) Q E s.
Proof. done. Qed.

Lemma wp_mono {A} (m : M S A) (Q Q' : A → S → Prop) (E E' : exn → S → Prop) s :
  (∀ a s', Q a s' → Q' a s') → (∀ e s', E e s' → E' e s') → wp m Q E s → wp m Q' E' s.
Proof. unfold wp. destruct (m s) as [[]]; auto. Qed.

Lemma wp_try_zmq {A} (m : M S A) h (Q : A → S → Prop) E s :
  wp m Q (λ e s', match e with ZmqError w => wp (h w) Q E s' | _ => E e s' end) s →
  wp (try_zmq m h) Q E s.
Proof. unfold wp, try_zmq. destruct (m s) as [[|[]]]; auto. Qed.

(** Loop rule: an invariant on the loop-carried data and the state. *)
Lemma wp_foldM {A B} (f : B → A → M S B) (I : B → S → Prop) E l b s :
  (∀ b a s, a ∈ l → I b s → wp (f b a) I E s) → I b s → wp (foldM f b l) I E s.
Proof.
  revert b s. induction l as [|a l IH]; intros b s Hf Hb; [done|]. simpl.
  apply wp_bind. eapply wp_mono; [| |apply Hf; [set_solver|done]]; [|done].
  intros b' s' Hb'. apply IH; [|done]. intros ????. apply Hf. set_solver.
Qed.

Lemma wp_forM {A} (f : A → M S unit) (I : S → Prop) E l s :
  (∀ a s, a ∈ l → I s → wp (f a) (λ _, I) E s) → I s → wp (forM_ l f) (λ _, I) E s.
Proof.
  revert s. induction l as [|a l IH]; intros s Hf Hs; [done|]. simpl.
  apply wp_bind. eapply wp_mono; [| |apply Hf; [set_solver|done]]; [|done].
  intros [] s' Hs'. apply IH; [|done]. intros ???. apply Hf. set_solver.
Qed.

Lemma wp_run {A} (m : M S A) s :
  wp m (λ a s', m s = (Ok a, s')) (λ e s', m s = (Throw e, s')) s.
Proof. unfold wp. by destruct (m s) as [[]]. Qed.

Lemma wp_conj {A} (m : M S A) (Q1 Q2 : A → S → Prop) (E1 E2 : exn → S → Prop) s :
  wp m Q1 E1 s → wp m Q2 E2 s →
  wp m (λ a s', Q1 a s' ∧ Q2 a s') (λ e s', E1 e s' ∧ E2 e s') s.
Proof. unfold wp. destruct (m s) as [[]]; auto. Qed.

(** A computation that cannot throw returns. *)
Lemma wp_total {A} (m : M S A) (Q : A → S → Prop) s :
  wp m Q (λ _ _, False) s → ∃ a s', m s = (Ok a, s') ∧ Q a s'.
Proof. unfold wp. destruct (m s) as [[a|] s']; [eauto|done]. Qed.

(** ** Invariants *)

(** [m] keeps [P], however it is left. *)
Definition preserves {A} (P : S → Prop) (m : M S A) : Prop :=
  ∀ s, P s → wp m (λ _, P) (λ _, P) s.

Lemma preserves_ret {A} P (a : A) : preserves P (mret a).
Proof. by intros s. Qed.
Lemma preserves_gets {A} P (f : S → A) : preserves P (gets f).
Proof. by intros s. Qed.
Lemma preserves_getS P : preserves P getS.
Proof. by intros s. Qed.
Lemma preserves_throw {A} P e : preserves P (throw (A:=A) e).
Proof. by intros s. Qed.
Lemma preserves_lift {A} P (r : res A) : preserves P (lift r).
Proof. intros s Hs. by apply wp_lift. Qed.
Lemma preserves_modify P f : (∀ s, P s → P (f s)) → preserves P (modify f).
Proof. intros Hf s Hs. by apply wp_modify, Hf. Qed.

Lemma preserves_bind {A B} P (m : M S A) (f : A → M S B) :
  preserves P m → (∀ a, preserves P (f a)) → preserves P (m ≫= f).
Proof.
  intros Hm Hf s Hs. apply wp_bind. eapply wp_mono; [| |by apply Hm]; [|done].
  intros a s' Hs'. by apply Hf.
Qed.

Lemma preserves_try_zmq {A} P (m : M S A) h :
  preserves P m → (∀ w, preserves P (h w)) → preserves P (try_zmq m h).
Proof.
  intros Hm Hh s Hs. apply wp_try_zmq. eapply wp_mono; [| |by apply Hm]; [done|].
  intros [] s' Hs'; try done. by apply Hh.
Qed.

Lemma preserves_foldM {A B} P (f : B → A → M S B) b l :
  (∀ b a, preserves P (f b a)) → preserves P (foldM f b l).
Proof. intros Hf s Hs. apply (wp_foldM f (λ _, P)); [|done]. intros ????. by apply Hf. Qed.

Lemma preserves_forM {A} P (f : A → M S unit) l :
  (∀ a, preserves P (f a)) → preserves P (forM_ l f).
Proof. intros Hf s Hs. apply wp_forM; [|done]. intros ???. by apply Hf. Qed.
End operations.

Arguments M_ret {S A} a s /.

(** Steps through straight-line code with the rules above. *)
Ltac wp_step :=
  lazymatch goal with
  | |- wp (_ ≫= _) _ _ _ => apply wp_bind
  | |- wp (mret _) _ _ _ => apply wp_ret
  | |- wp (gets _) _ _ _ => apply wp_gets
  | |- wp getS _ _ _ => apply wp_getS
  | |- wp (modify _) _ _ _ => apply wp_modify
  | |- wp (throw _) _ _ _ => apply wp_throw
  | |- wp (try_zmq _ _) _ _ _ => apply wp_try_zmq
  | |- wp (lift ?r) _ _ _ =>
      lazymatch eval hnf in r with Ok ?a => change r with (Ok a); apply wp_lift_Ok end
  end; cbv beta.
Ltac wp_steps := repeat wp_step.

(** Symbolic execution by rewriting. *)
Create HintDb run discriminated.
#[export] Hint Rewrite @run_ret @run_gets @run_getS @run_modify @run_lift_Ok @run_lift_Throw
  @run_uassert_true @run_uassert_false : run.
Ltac run := repeat (progress (autorewrite with run); cbv beta).

Create HintDb preserves discriminated.
#[export] Hint Resolve preserves_ret preserves_gets preserves_getS preserves_throw
  preserves_lift preserves_bind preserves_try_zmq preserves_foldM preserves_forM : preserves.

(** Reduces an invariant of composed code to the invariant of its primitive steps. *)
Ltac preserves_step :=
  lazymatch goal with
  | |- preserves _ (_ ≫= _) => apply preserves_bind
  | |- preserves _ (try_zmq _ _) => apply preserves_try_zmq
  | |- preserves _ (foldM _ _ _) => apply preserves_foldM
  | |- preserves _ (forM_ _ _) => apply preserves_forM
  | |- preserves _ (match ?x with _ => _ end) => destruct x
  | |- preserves _ (match ?x with _ => _ end _) => destruct x
  | |- ∀ _, _ => intros ?
  | |- preserves _ _ => solve [eauto with preserves nocore]
  end.
Ltac preserves_auto := repeat (preserves_step; cbv beta).
