(* ===== verification/StdMap.v ===== *)
(** * Ordered associative containers of the C++ standard library

    [std::map] and [std::set] as the code uses them: the elements are kept in
    the order of the key's [operator<], [insert] does not overwrite an existing
    key, [find] and [erase] go through the key order, and iteration visits the
    elements in increasing order.  A container is the list of its elements in
    iteration order; two keys are the same key when neither is less than the
    other, as the standard specifies. *)

From S2P Require Import Prelude.

(** ** Key types with an [operator<] *)

Class OpLt (K : Type) := oplt : K → K → bool.
Infix "<?k" := oplt (at level 70).

(** The strict total order the containers rely on. *)
Class OpLtLaws (K : Type) `{OpLt K} : Prop := {
  oplt_irrefl x : (x <?k x) = false;
  oplt_trans x y z : (x <?k y) = true → (y <?k z) = true → (x <?k z) = true;
  oplt_total x y : (x <?k y) = false → (y <?k x) = false → x = y
}.

Lemma oplt_asym `{OpLtLaws K} x y : (x <?k y) = true → (y <?k x) = false.
Proof.
  intros Hxy. destruct (y <?k x) eqn:Hyx; [|done].
  pose proof (oplt_trans _ _ _ Hxy Hyx). by rewrite oplt_irrefl in *.
Qed.

Lemma oplt_neq `{OpLtLaws K} x y : (x <?k y) = true → x ≠ y.
Proof. intros Hxy ->. by rewrite oplt_irrefl in Hxy. Qed.

(** ** Operations *)

Section std_map.
Context {K V : Type} `{OpLt K}.
Implicit Types (m : list (K * V)) (k : K) (v : V).

Fixpoint map_find k m : option V :=
  match m with
  | [] => None
  | (k', v') :: m' =>
      if k' <?k k then map_find k m'
      else if k <?k k' then None else Some v'
  end.

(** [m.insert(std::make_pair(k, v))]: a key that is present keeps its value. *)
Fixpoint map_insert k v m : list (K * V) :=
  match m with
  | [] => [(k, v)]
  | (k', v') :: m' =>
      if k' <?k k then (k', v') :: map_insert k v m'
      else if k <?k k' then (k, v) :: (k', v') :: m' else (k', v') :: m'
  end.

Fixpoint map_erase k m : list (K * V) :=
  match m with
  | [] => []
  | (k', v') :: m' =>
      if k' <?k k then (k', v') :: map_erase k m'
      else if k <?k k' then (k', v') :: m' else m'
  end.

(** [it->second = f(it->second)] through an iterator at [k]. *)
Fixpoint map_modify k (f : V → V) m : list (K * V) :=
  match m with
  | [] => []
  | (k', v') :: m' =>
      if k' <?k k then (k', v') :: map_modify k f m'
      else if k <?k k' then (k', v') :: m' else (k', f v') :: m'
  end.

(** The representation invariant of a container. *)
Definition map_sorted m : Prop := StronglySorted (λ p q, (p.1 <?k q.1) = true) m.

End std_map.

(** [std::set] holds the keys only. *)
Definition set_insert `{OpLt K} (k : K) (s : list K) : list K :=
  (map_insert k () ((λ x, (x, ())) <$> s)).*1.

Definition set_sorted `{OpLt K} (s : list K) : Prop :=
  StronglySorted (λ x y, (x <?k y) = true) s.

(** ** Laws *)

Section std_map_laws.
Context {K V : Type} `{OpLtLaws K}.
Implicit Types (m : list (K * V)) (k : K) (v : V).

Ltac key_cases :=
  repeat match goal with
  | |- context [if ?x <?k ?y then _ else _] =>
      destruct (x <?k y) eqn:?; simplify_eq/=
  | H : context [if ?x <?k ?y then _ else _] |- _ =>
      destruct (x <?k y) eqn:?; simplify_eq/=
  end.

Lemma map_sorted_nil : map_sorted (@nil (K * V)).
Proof. constructor. Qed.

Lemma map_sorted_cons_inv p m :
  map_sorted (p :: m) → map_sorted m ∧ Forall (λ q, (p.1 <?k q.1) = true) m.
Proof. by inversion 1. Qed.

Lemma map_insert_keys k v m q : q ∈ map_insert k v m → q = (k, v) ∨ q ∈ m.
Proof. induction m as [|[k' v'] m IH]; simpl; [|key_cases]; set_solver. Qed.

Lemma map_erase_subset k m q : q ∈ map_erase k m → q ∈ m.
Proof. induction m as [|[k' v'] m IH]; simpl; [|key_cases]; set_solver. Qed.

Lemma map_insert_sorted k v m : map_sorted m → map_sorted (map_insert k v m).
Proof.
  induction m as [|[k' v'] m IH]; intros Hs; simpl.
  { repeat constructor. }
  apply map_sorted_cons_inv in Hs as [Hm Hlt]. key_cases.
  - constructor; [by apply IH|]. apply Forall_forall. intros q Hq.
    apply map_insert_keys in Hq as [->|Hq]; [done|].
    by eapply Forall_forall in Hlt.
  - constructor; [by constructor|]. constructor; [done|].
    eapply Forall_impl; [done|]. simpl. intros q Hq. by eapply oplt_trans.
  - by constructor.
Qed.

Lemma map_erase_sorted k m : map_sorted m → map_sorted (map_erase k m).
Proof.
  induction m as [|[k' v'] m IH]; intros Hs; simpl; [constructor|].
  apply map_sorted_cons_inv in Hs as [Hm Hlt]. key_cases; [|by constructor|done].
  constructor; [by apply IH|]. apply Forall_forall. intros q Hq.
  apply map_erase_subset in Hq. by eapply Forall_forall in Hlt.
Qed.

Lemma map_find_lt_None k m :
  Forall (λ q, (k <?k q.1) = true) m → map_find k m = None.
Proof.
  destruct m as [|[k' v'] m]; [done|]. intros [Hk _]%Forall_cons. simpl in *.
  by rewrite (oplt_asym _ _ Hk), Hk.
Qed.

Lemma map_find_elem k v m : map_sorted m → map_find k m = Some v ↔ (k, v) ∈ m.
Proof.
  induction m as [|[k' v'] m IH]; intros Hs; simpl.
  { set_solver. }
  apply map_sorted_cons_inv in Hs as [Hm Hlt]. rewrite elem_of_cons.
  key_cases.
  - rewrite IH by done. split; [auto|]. intros [[= -> ->]|]; [|done].
    by rewrite oplt_irrefl in *.
  - split; [done|]. intros [[= -> ->]|Hin].
    { by rewrite oplt_irrefl in *. }
    eapply Forall_forall in Hlt; [|done]. simpl in Hlt.
    pose proof (oplt_asym _ _ Hlt). congruence.
  - assert (k' = k) as -> by by apply oplt_total. split.
    { intros [= ->]. auto. }
    intros [[= ->]|Hin]; [done|]. eapply Forall_forall in Hlt; [|done].
    simpl in Hlt. by rewrite oplt_irrefl in Hlt.
Qed.

Lemma map_find_insert_None k v m :
  map_find k m = None → map_find k (map_insert k v m) = Some v.
Proof.
  induction m as [|[k' v'] m IH]; simpl; intros Hf.
  { by rewrite oplt_irrefl. }
  destruct (k' <?k k) eqn:Hk'; simpl; [rewrite Hk'; auto|].
  destruct (k <?k k') eqn:Hk; simpl; [by rewrite oplt_irrefl|done].
Qed.

(** [insert] leaves the value of a key that is already there. *)
Lemma map_insert_Some k v v0 m :
  map_find k m = Some v0 → map_insert k v m = m.
Proof.
  induction m as [|[k' v'] m IH]; simpl; intros Hf; [done|]. key_cases; [|done].
  by rewrite IH.
Qed.

Lemma map_find_insert_ne k k0 v m :
  map_sorted m → k ≠ k0 → map_find k0 (map_insert k v m) = map_find k0 m.
Proof.
  induction m as [|[k' v'] m IH]; intros Hs Hne; simpl.
  { destruct (k <?k k0) eqn:?, (k0 <?k k) eqn:?; try done.
    by destruct Hne; apply oplt_total. }
  apply map_sorted_cons_inv in Hs as [Hm Hlt].
  destruct (k' <?k k) eqn:Hk'; simpl.
  { destruct (k' <?k k0) eqn:?; [by apply IH|done]. }
  destruct (k <?k k') eqn:Hk; simpl; [|done].
  destruct (k <?k k0) eqn:Hkk0; [done|].
  destruct (k0 <?k k) eqn:Hk0k.
  - pose proof (oplt_trans _ _ _ Hk0k Hk) as Hk0k'.
    by rewrite (oplt_asym _ _ Hk0k'), Hk0k'.
  - by destruct Hne; apply oplt_total.
Qed.

Lemma map_find_erase_eq k m : map_sorted m → map_find k (map_erase k m) = None.
Proof.
  induction m as [|[k' v'] m IH]; intros Hs; simpl; [done|].
  apply map_sorted_cons_inv in Hs as [Hm Hlt].
  destruct (k' <?k k) eqn:Hk'; simpl; [rewrite Hk'; auto|].
  destruct (k <?k k') eqn:Hk; simpl; [by rewrite Hk', Hk|].
  assert (k' = k) as -> by by apply oplt_total. by apply map_find_lt_None.
Qed.

Lemma map_find_erase_ne k k0 m :
  map_sorted m → k ≠ k0 → map_find k0 (map_erase k m) = map_find k0 m.
Proof.
  induction m as [|[k' v'] m IH]; intros Hs Hne; simpl; [done|].
  apply map_sorted_cons_inv in Hs as [Hm Hlt].
  destruct (k' <?k k) eqn:Hk'; simpl.
  { destruct (k' <?k k0) eqn:?; [by apply IH|done]. }
  destruct (k <?k k') eqn:Hk; simpl; [done|].
  assert (k' = k) as -> by by apply oplt_total.
  destruct (k <?k k0) eqn:Hkk0; [done|].
  destruct (k0 <?k k) eqn:Hk0k; [|by destruct Hne; apply oplt_total].
  apply map_find_lt_None. eapply Forall_impl; [done|]. simpl.
  intros q Hq. by eapply oplt_trans.
Qed.

Lemma map_erase_None k m : map_find k m = None → map_erase k m = m.
Proof.
  induction m as [|[k' v'] m IH]; simpl; intros Hf; [done|]. key_cases; [|done].
  by rewrite IH.
Qed.

(** A second [insert] of a key does nothing. *)
Lemma map_insert_again k v v' m : map_insert k v' (map_insert k v m) = map_insert k v m.
Proof.
  destruct (map_find k m) as [v0|] eqn:Hf.
  - rewrite (map_insert_Some k v v0 m Hf). by eapply map_insert_Some.
  - eapply map_insert_Some. by apply map_find_insert_None.
Qed.

Lemma map_insert_key k v m : k ∈ (map_insert k v m).*1.
Proof.
  induction m as [|[k' v'] m IH]; simpl; [set_solver|]. key_cases; [set_solver|set_solver|].
  rewrite (oplt_total k k') by done. set_solver.
Qed.

Lemma map_insert_keys_mono k v m x : x ∈ m.*1 → x ∈ (map_insert k v m).*1.
Proof. induction m as [|[k' v'] m IH]; simpl; [set_solver|]. key_cases; set_solver. Qed.

Lemma map_insert_perm k v m : map_find k m = None → map_insert k v m ≡ₚ (k, v) :: m.
Proof.
  induction m as [|[k' v'] m IH]; simpl; intros Hf; [done|]. key_cases; [|done].
  rewrite IH by done. apply Permutation_swap.
Qed.

Lemma map_erase_perm k v m : map_sorted m → map_find k m = Some v → m ≡ₚ (k, v) :: map_erase k m.
Proof.
  induction m as [|[k' v'] m IH]; intros Hs; simpl; [done|].
  apply map_sorted_cons_inv in Hs as [Hm Hlt]. intros Hf. key_cases.
  - rewrite (IH Hm Hf) at 1. apply Permutation_swap.
  - simplify_eq. by rewrite (oplt_total k k').
Qed.

Lemma map_modify_keys k f m : (map_modify k f m).*1 = m.*1.
Proof. induction m as [|[k' v'] m IH]; simpl; [done|]. key_cases; by f_equal. Qed.

Lemma map_sorted_fst m : map_sorted m ↔ set_sorted m.*1.
Proof.
  unfold map_sorted, set_sorted. induction m as [|p m IH]; simpl.
  { split; constructor. }
  split; inversion 1 as [|? ? Hs Hf]; subst; constructor;
    try (by apply IH); [by apply Forall_fmap|by apply Forall_fmap in Hf].
Qed.

Lemma map_modify_sorted k f m : map_sorted m → map_sorted (map_modify k f m).
Proof. by rewrite !map_sorted_fst, map_modify_keys. Qed.

Lemma map_find_modify_eq k f m : map_find k (map_modify k f m) = f <$> map_find k m.
Proof.
  induction m as [|[k' v'] m IH]; simpl; [done|].
  destruct (k' <?k k) eqn:Hk'; simpl; [by rewrite Hk'|].
  by destruct (k <?k k') eqn:Hk; simpl; rewrite Hk', Hk.
Qed.

Lemma map_find_modify_ne k k0 f m :
  k ≠ k0 → map_find k0 (map_modify k f m) = map_find k0 m.
Proof.
  intros Hne. induction m as [|[k' v'] m IH]; simpl; [done|].
  destruct (k' <?k k) eqn:Hk'; simpl; [by rewrite IH|].
  destruct (k <?k k') eqn:Hk; simpl; [done|].
  assert (k' = k) as -> by by apply oplt_total.
  destruct (k <?k k0) eqn:?, (k0 <?k k) eqn:?; try done.
  by destruct Hne; apply oplt_total.
Qed.

Lemma map_sorted_NoDup m : map_sorted m → NoDup m.*1.
Proof.
  rewrite map_sorted_fst. induction 1 as [|x l Hs IH Hf]; [constructor|].
  constructor; [|done]. intros Hin. eapply Forall_forall in Hf; [|done].
  by rewrite oplt_irrefl in Hf.
Qed.

End std_map_laws.

Section std_set_laws.
Context {K : Type} `{OpLtLaws K}.
Implicit Types (s : list K) (k : K).

Lemma set_insert_sorted k s : set_sorted s → set_sorted (set_insert k s).
Proof.
  intros Hs. unfold set_insert. apply map_sorted_fst, map_insert_sorted.
  rewrite map_sorted_fst. by rewrite <-list_fmap_compose, list_fmap_id.
Qed.

Lemma elem_of_set_insert k k0 s : k0 ∈ set_insert k s ↔ k0 = k ∨ k0 ∈ s.
Proof.
  unfold set_insert. induction s as [|x s IH]; simpl.
  { set_solver. }
  destruct (x <?k k) eqn:Hxk; simpl; [rewrite !elem_of_cons, IH; tauto|].
  destruct (k <?k x) eqn:Hkx; simpl; rewrite ?elem_of_cons.
  - rewrite <-list_fmap_compose, list_fmap_id. tauto.
  - rewrite <-list_fmap_compose, list_fmap_id.
    assert (x = k) as -> by by apply oplt_total. tauto.
Qed.

End std_set_laws.
