(* ===== verification/Bytes.v ===== *)
(** * Bytes, C strings and [StringData]

    Raw bytes, [std::string] and [StringData] are all Rocq strings, a character
    being one byte.  The file has the C library functions the code calls on them
    ([memcmp], [strcmp], little-endian loads and stores), the [StringData]
    methods of base/string_data-inl.h, the split and join of
    util/stringutils.cpp and the hexadecimal printing of util/hex.h, with the
    order, prefix and round-trip lemmas the components use. *)

From S2P Require Import Prelude StdMap.

(** ** Bytes *)

Definition byte_val (c : ascii) : Z := Z.of_N (N_of_ascii c).
Definition byte_of (z : Z) : ascii := ascii_of_N (Z.to_N (z mod 256)).
Definition NUL : ascii := "000"%char.

Fixpoint str_take (n : nat) (s : string) : string :=
  match n, s with
  | O, _ | _, EmptyString => EmptyString
  | S n, String c s => String c (str_take n s)
  end.

Fixpoint str_drop (n : nat) (s : string) : string :=
  match n, s with
  | O, _ => s
  | _, EmptyString => EmptyString
  | S n, String c s => str_drop n s
  end.

Definition str_at (s : string) (i : nat) : option ascii := String.get i s.

(** ** C library *)

(** [memcmp(a, b, n)]: only the sign of the result is specified. *)
Fixpoint memcmp (a b : string) (n : nat) : Z :=
  match n, a, b with
  | S n, String x a, String y b =>
      if byte_val x <? byte_val y then -1
      else if byte_val y <? byte_val x then 1
      else memcmp a b n
  | _, _, _ => 0
  end.

(** The C string that starts at the first byte: up to the first NUL. *)
Fixpoint c_string (s : string) : string :=
  match s with
  | EmptyString => EmptyString
  | String c s => if (c =? NUL)%char then EmptyString else String c (c_string s)
  end.

(** [strcmp], the end of a Rocq string being a NUL. *)
Fixpoint strcmp (a b : string) : Z :=
  match a, b with
  | EmptyString, EmptyString => 0
  | EmptyString, String y _ => if byte_val y =? 0 then 0 else -1
  | String x _, EmptyString => if byte_val x =? 0 then 0 else 1
  | String x a, String y b =>
      if byte_val x <? byte_val y then -1
      else if byte_val y <? byte_val x then 1
      else if byte_val x =? 0 then 0
      else strcmp a b
  end.

Definition isdigit (c : ascii) : bool := (48 <=? byte_val c) && (byte_val c <=? 57).

(** Little-endian store and load of an [n]-byte integer. *)
Fixpoint le_bytes (n : nat) (z : Z) : string :=
  match n with
  | O => EmptyString
  | S n => String (byte_of z) (le_bytes n (z / 256))
  end.

Fixpoint le_val (s : string) : Z :=
  match s with
  | EmptyString => 0
  | String c s => byte_val c + 256 * le_val s
  end.

(** The two's complement reading of the low [w] bits. *)
Definition to_signed (w : Z) (z : Z) : Z :=
  let m := z mod 2 ^ w in if m <? 2 ^ (w - 1) then m else m - 2 ^ w.
Definition to_unsigned (w : Z) (z : Z) : Z := z mod 2 ^ w.

Definition int32 (z : Z) : Prop := - 2 ^ 31 ≤ z < 2 ^ 31.
Definition int64 (z : Z) : Prop := - 2 ^ 63 ≤ z < 2 ^ 63.
Definition uint64 (z : Z) : Prop := 0 ≤ z < 2 ^ 64.

(** ** [StringData] and [std::string] *)

(** [StringData::compare] *)
Definition StringData_compare (a b : string) : Z :=
  let res := memcmp a b (String.length a `min` String.length b) in
  if negb (res =? 0) then (if 0 <? res then 1 else -1)
  else if (String.length a =? String.length b)%nat then 0
  else if (String.length b <? String.length a)%nat then 1 else -1.

Definition StringData_eqb (a b : string) : bool := StringData_compare a b =? 0.

(** [StringData::find(char, fromPos)]; [None] is [npos]. *)
Fixpoint str_index (c : ascii) (s : string) : option nat :=
  match s with
  | EmptyString => None
  | String x s => if (x =? c)%char then Some O else S <$> str_index c s
  end.

Definition StringData_find (s : string) (c : ascii) (fromPos : nat) : option nat :=
  if (String.length s <=? fromPos)%nat then None
  else (λ i, (fromPos + i)%nat) <$> str_index c (str_drop fromPos s).

(** [StringData::substr(pos, n)], [None] being the default [npos]. *)
Definition StringData_substr (s : string) (pos : nat) (n : option nat) : res string :=
  if (String.length s <? pos)%nat then Throw StdOutOfRange
  else
    let rest := (String.length s - pos)%nat in
    let n := match n with Some n => if (rest <? n)%nat then rest else n | None => rest end in
    Ok (str_take n (str_drop pos s)).

(** [StringData::startsWith]: [substr(0, prefix.size()) == prefix]. *)
Definition StringData_startsWith (s prefix : string) : bool :=
  match StringData_substr s 0 (Some (String.length prefix)) with
  | Ok p => StringData_eqb p prefix
  | Throw _ => false
  end.

(** [std::string::operator<] of the standard library. *)
#[global] Instance string_oplt : OpLt string := λ a b, StringData_compare a b <? 0.

(** ** util/stringutils.cpp *)

(** The loop of [splitStringDelim]: [beg] is the start of the piece, [pos] the
    next delimiter at or after it. *)
Fixpoint splitStringDelim_loop (fuel : nat) (str : string) (delim : ascii)
    (beg : nat) (pos : option nat) (acc : list string) : list string :=
  match fuel, pos with
  | S fuel, Some p =>
      let acc := acc ++ [str_take (p - beg) (str_drop beg str)] in
      let beg := S p in
      splitStringDelim_loop fuel str delim beg (StringData_find str delim beg) acc
  | _, _ => acc ++ [str_drop beg str]
  end.

Definition splitStringDelim (str : string) (delim : ascii) : list string :=
  if (str =? "")%string then []
  else splitStringDelim_loop (String.length str) str delim 0
         (StringData_find str delim 0) [].

Fixpoint joinStringDelim (strs : list string) (delim : ascii) : string :=
  match strs with
  | [] => ""
  | [s] => s
  | s :: rest => s +:+ String delim (joinStringDelim rest delim)
  end.

(** ** util/hex.h *)

Definition hexchar (z : Z) : ascii :=
  match String.get (Z.to_nat z) "0123456789abcdef" with Some c => c | None => NUL end.

Fixpoint toHexLower (s : string) : string :=
  match s with
  | EmptyString => EmptyString
  | String c s =>
      String (hexchar (Z.shiftr (Z.land (byte_val c) 240) 4))
        (String (hexchar (Z.land (byte_val c) 15)) (toHexLower s))
  end.

(** [fromHex(char)] *)
Definition fromHex_digit (c : ascii) : res Z :=
  let v := byte_val c in
  if (48 <=? v) && (v <=? 57) then Ok (v - 48)
  else if (97 <=? v) && (v <=? 102) then Ok (v - 97 + 10)
  else if (65 <=? v) && (v <=? 70) then Ok (v - 65 + 10)
  else Throw (VerifyFailed "fromHex").

(** [fromHex] of a [const char] pointer: the byte of two digits. *)
Definition fromHex (c0 c1 : ascii) : res ascii :=
  hi ← fromHex_digit c0; lo ← fromHex_digit c1;
  Ok (byte_of (Z.lor (Z.shiftl hi 4) lo)).

(** ** Laws of bytes and C library functions *)

Lemma byte_val_range c : 0 ≤ byte_val c < 256.
Proof.
  unfold byte_val. pose proof (N_ascii_bounded c). lia.
Qed.

Lemma byte_val_inj x y : byte_val x = byte_val y → x = y.
Proof.
  unfold byte_val. intros Heq. apply N2Z.inj in Heq.
  by rewrite <-(ascii_N_embedding x), <-(ascii_N_embedding y), Heq.
Qed.

Lemma byte_val_of z : byte_val (byte_of z) = z mod 256.
Proof.
  unfold byte_val, byte_of. pose proof (Z.mod_pos_bound z 256 ltac:(lia)).
  rewrite N_ascii_embedding by lia. lia.
Qed.

Lemma byte_of_val c : byte_of (byte_val c) = c.
Proof.
  apply byte_val_inj. rewrite byte_val_of. apply Z.mod_small, byte_val_range.
Qed.

Lemma byte_eqb_false x y : (x =? y)%char = false → x ≠ y.
Proof. intros Hf ->. by rewrite Ascii.eqb_refl in Hf. Qed.

Lemma str_take_length n s : (String.length (str_take n s) = n `min` String.length s)%nat.
Proof. revert s. induction n as [|n IH]; intros [|c s]; simpl; auto. Qed.

Lemma str_drop_length n s : (String.length (str_drop n s) = String.length s - n)%nat.
Proof. revert s. induction n as [|n IH]; intros [|c s]; simpl; auto. Qed.

Lemma str_app_length a b :
  (String.length (a +:+ b) = String.length a + String.length b)%nat.
Proof. induction a as [|c a IH]; [done|]. cbn. by rewrite <-IH. Qed.

Lemma str_app_nil_r s : s +:+ "" = s.
Proof. induction s as [|c s IH]; [done|]. cbn. by f_equal. Qed.

Lemma str_app_assoc a b c : (a +:+ b) +:+ c = a +:+ b +:+ c.
Proof. induction a as [|x a IH]; [done|]. cbn. by f_equal. Qed.

Lemma str_take_drop n s : str_take n s +:+ str_drop n s = s.
Proof. revert s. induction n as [|n IH]; intros [|c s]; cbn; try done. by f_equal. Qed.

Lemma str_take_app a b : str_take (String.length a) (a +:+ b) = a.
Proof. induction a as [|c a IH]; cbn; [by destruct b|]. by f_equal. Qed.

Lemma str_drop_app a b : str_drop (String.length a) (a +:+ b) = b.
Proof. induction a as [|c a IH]; cbn; [by destruct b|]. done. Qed.

Lemma str_drop_app_S a c b : str_drop (S (String.length a)) (a +:+ String c b) = b.
Proof. induction a as [|x a IH]; [by destruct b|]. apply IH. Qed.

Lemma str_take_ge n s : (String.length s ≤ n)%nat → str_take n s = s.
Proof.
  revert s. induction n as [|n IH]; intros [|c s]; simpl; intros ?; try done; [lia|].
  f_equal. apply IH. lia.
Qed.

Lemma str_take_app_ge n a b :
  (String.length a ≤ n)%nat → str_take n (a +:+ b) = a +:+ str_take (n - String.length a) b.
Proof.
  revert n. induction a as [|c a IH]; intros [|n]; cbn; intros ?; try done; [lia|].
  f_equal. apply IH. lia.
Qed.

Lemma str_drop_add m n s : str_drop (m + n) s = str_drop n (str_drop m s).
Proof.
  revert s. induction m as [|m IH]; intros s; [done|].
  destruct s as [|c s]; simpl; [by destruct n|apply IH].
Qed.

Lemma le_bytes_length n z : String.length (le_bytes n z) = n.
Proof. revert z. induction n as [|n IH]; intros z; simpl; auto. Qed.

Lemma le_val_bytes n z : le_val (le_bytes n z) = z mod 2 ^ (8 * Z.of_nat n).
Proof.
  revert z. induction n as [|n IH]; intros z; simpl.
  { by rewrite Z.mod_1_r. }
  rewrite IH, byte_val_of.
  replace (2 ^ (8 * Z.of_nat (S n))) with (256 * 2 ^ (8 * Z.of_nat n)).
  { rewrite Z.rem_mul_r by lia. lia. }
  replace (8 * Z.of_nat (S n)) with (8 + 8 * Z.of_nat n) by lia.
  rewrite Z.pow_add_r by lia. lia.
Qed.

Lemma le_val_range s : 0 ≤ le_val s < 2 ^ (8 * Z.of_nat (String.length s)).
Proof.
  induction s as [|c s IH]; simpl; [lia|]. pose proof (byte_val_range c).
  replace (8 * Z.of_nat (S (String.length s)))
    with (8 + 8 * Z.of_nat (String.length s)) by lia.
  rewrite Z.pow_add_r by lia. lia.
Qed.

Lemma le_val_inj a b : String.length a = String.length b → le_val a = le_val b → a = b.
Proof.
  revert b. induction a as [|x a IH]; intros [|y b]; simpl; intros Hl Hv; try done.
  pose proof (byte_val_range x). pose proof (byte_val_range y).
  assert (byte_val x = byte_val y) as Hxy by lia.
  apply byte_val_inj in Hxy as ->. f_equal. apply IH; lia.
Qed.

Lemma to_signed_id w z : 0 < w → - 2 ^ (w - 1) ≤ z < 2 ^ (w - 1) →
  to_signed w (z mod 2 ^ w) = z.
Proof.
  intros Hw Hz. unfold to_signed. rewrite Z.mod_mod by lia.
  assert (2 ^ w = 2 * 2 ^ (w - 1)) as Hp.
  { rewrite <-Z.pow_succ_r by lia. f_equal. lia. }
  destruct (Z.ltb_spec 0 (z + 1)).
  - rewrite Z.mod_small by lia. case_match eqn:E; [done|]. apply Z.ltb_ge in E. lia.
  - replace (z mod 2 ^ w) with (z + 2 ^ w).
    { case_match eqn:E; [|lia]. apply Z.ltb_lt in E. lia. }
    apply (Z.mod_unique _ _ (-1)); lia.
Qed.

Lemma c_string_no_nul s : NUL ∉ String.list_ascii_of_string s → c_string s = s.
Proof.
  induction s as [|c s IH]; simpl; [done|]. intros Hn.
  apply not_elem_of_cons in Hn as [Hc Hs].
  destruct (c =? NUL)%char eqn:E; [by apply Ascii.eqb_eq in E; subst|].
  f_equal. auto.
Qed.

Lemma c_string_app s t : NUL ∉ String.list_ascii_of_string s →
  c_string (s +:+ String NUL t) = s.
Proof.
  induction s as [|c s IH]; simpl; [done|]. intros Hn.
  apply not_elem_of_cons in Hn as [Hc Hs]. cbn.
  destruct (c =? NUL)%char eqn:E; [by apply Ascii.eqb_eq in E; subst|].
  f_equal. auto.
Qed.

Lemma memcmp_refl a n : memcmp a a n = 0.
Proof.
  revert n. induction a as [|x a IH]; intros [|n]; simpl; try done.
  by rewrite Z.ltb_irrefl.
Qed.

Lemma memcmp_opp a b n : memcmp b a n = - memcmp a b n.
Proof.
  revert a b. induction n as [|n IH]; intros [|x a] [|y b]; simpl; try done.
  destruct (Z.ltb_spec (byte_val x) (byte_val y)),
    (Z.ltb_spec (byte_val y) (byte_val x)); try lia. apply IH.
Qed.

Lemma memcmp_eq a b n :
  (n ≤ String.length a)%nat → (n ≤ String.length b)%nat →
  memcmp a b n = 0 ↔ str_take n a = str_take n b.
Proof.
  revert a b. induction n as [|n IH]; intros [|x a] [|y b]; simpl; intros Ha Hb;
    try done; try lia.
  destruct (Z.ltb_spec (byte_val x) (byte_val y)).
  { split; [done|]. intros [= -> _]. lia. }
  destruct (Z.ltb_spec (byte_val y) (byte_val x)).
  { split; [done|]. intros [= -> _]. lia. }
  rewrite IH by lia. assert (x = y) as -> by (apply byte_val_inj; lia).
  split; [by intros ->|by intros [= ->]].
Qed.

Lemma memcmp_trans a b c n :
  (n ≤ String.length a)%nat → (n ≤ String.length b)%nat → (n ≤ String.length c)%nat →
  memcmp a b n < 0 → memcmp b c n < 0 → memcmp a c n < 0.
Proof.
  revert a b c. induction n as [|n IH]; intros [|x a] [|y b] [|z c]; simpl;
    intros Ha Hb Hc; try lia.
  repeat match goal with
  | |- context [?x <? ?y] => destruct (Z.ltb_spec x y)
  end; try lia. apply IH; lia.
Qed.

Lemma memcmp_range a b n : -1 ≤ memcmp a b n ≤ 1.
Proof.
  revert a b. induction n as [|n IH]; intros [|x a] [|y b]; simpl; try lia.
  repeat case_match; try lia. apply IH.
Qed.

(** ** Laws of the string order *)

Lemma StringData_compare_eq a b : StringData_compare a b = 0 ↔ a = b.
Proof.
  unfold StringData_compare.
  destruct (Z.eqb_spec (memcmp a b (String.length a `min` String.length b)) 0)
    as [Hm|Hm]; simpl.
  - apply memcmp_eq in Hm; [|lia..].
    destruct (Nat.eqb_spec (String.length a) (String.length b)) as [Hl|Hl].
    + rewrite !str_take_ge in Hm by lia. by subst.
    + split; [by case_match|]. intros ->. lia.
  - split; [by case_match|]. intros ->. by rewrite memcmp_refl in Hm.
Qed.

Lemma StringData_eqb_eq a b : StringData_eqb a b = true ↔ a = b.
Proof. unfold StringData_eqb. by rewrite Z.eqb_eq, StringData_compare_eq. Qed.

(** The lexicographic order, byte by byte, that [StringData_compare] computes. *)
Fixpoint str_lt (a b : string) : bool :=
  match a, b with
  | _, EmptyString => false
  | EmptyString, String _ _ => true
  | String x a, String y b =>
      (byte_val x <? byte_val y) || ((byte_val x =? byte_val y) && str_lt a b)
  end.

Lemma StringData_compare_lt a b : (StringData_compare a b <? 0) = str_lt a b.
Proof.
  unfold StringData_compare. revert b.
  induction a as [|x a IH]; intros [|y b]; simpl; try done.
  destruct (Z.ltb_spec (byte_val x) (byte_val y)); simpl; [done|].
  destruct (Z.ltb_spec (byte_val y) (byte_val x)); simpl.
  { by destruct (Z.eqb_spec (byte_val x) (byte_val y)); [lia|]. }
  destruct (Z.eqb_spec (byte_val x) (byte_val y)); [|lia]. simpl.
  by rewrite <-IH.
Qed.

#[global] Instance string_oplt_laws : OpLtLaws string.
Proof.
  assert (∀ a b : string, (a <?k b) = str_lt a b) as Hlt.
  { intros a b. apply StringData_compare_lt. }
  split.
  - intros a. rewrite Hlt. induction a as [|x a IH]; simpl; [done|].
    by rewrite Z.ltb_irrefl, Z.eqb_refl, IH.
  - intros a b c. rewrite !Hlt. revert b c.
    induction a as [|x a IH]; intros [|y b] [|z c]; simpl; try done.
    rewrite !orb_true_iff, !andb_true_iff, !Z.ltb_lt, !Z.eqb_eq.
    intros [?|[? ?]] [?|[? ?]]; try (left; lia). right; split; [lia|]. eauto.
  - intros a b. rewrite !Hlt. revert b.
    induction a as [|x a IH]; intros [|y b]; simpl; try done.
    rewrite !orb_false_iff, !andb_false_iff, !Z.ltb_ge, !Z.eqb_neq.
    intros [? [?|?]] [? [?|?]]; try lia.
    assert (x = y) as -> by (apply byte_val_inj; lia). f_equal. auto.
Qed.

(** ** Prefixes *)

Definition is_prefix (p s : string) : Prop := ∃ t, s = p +:+ t.

Lemma is_prefix_nil s : is_prefix "" s.
Proof. by exists s. Qed.

Lemma is_prefix_nil_r p : is_prefix p "" → p = "".
Proof. intros [[] ?]; by destruct p. Qed.

Lemma is_prefix_cons c p d s : is_prefix (String c p) (String d s) ↔ c = d ∧ is_prefix p s.
Proof. split; [intros [t [= -> ->]]; split; [done|by exists t]|intros [-> [t ->]]; by exists t]. Qed.

Lemma StringData_startsWith_spec s p : StringData_startsWith s p = true ↔ is_prefix p s.
Proof.
  unfold StringData_startsWith, StringData_substr. simpl.
  rewrite StringData_eqb_eq.
  replace (String.length s - 0)%nat with (String.length s) by lia.
  replace (str_drop 0 s) with s by by destruct s.
  destruct (Nat.ltb_spec (String.length s) (String.length p)) as [Hl|Hl]; split.
  - rewrite str_take_ge by lia. intros ->. lia.
  - intros [t ->]. rewrite str_app_length in Hl. lia.
  - intros Hp. exists (str_drop (String.length p) s).
    by rewrite <-Hp at 1; rewrite str_take_drop.
  - intros [t ->]. apply str_take_app.
Qed.

(** ** Split and join *)

Lemma str_index_Some c s i :
  str_index c s = Some i →
  ∃ a b, s = a +:+ String c b ∧ String.length a = i ∧ c ∉ String.list_ascii_of_string a.
Proof.
  revert i. induction s as [|x s IH]; simpl; intros i; [done|].
  destruct (x =? c)%char eqn:E.
  - apply Ascii.eqb_eq in E as ->. intros [= <-]. exists "", s. set_solver.
  - apply byte_eqb_false in E. destruct (str_index c s) as [j|]; [|done].
    intros [= <-]. destruct (IH _ eq_refl) as (a & b & -> & <- & Ha).
    exists (String x a), b. split_and!; [done..|]. simpl. set_solver.
Qed.

Lemma str_index_None c s : str_index c s = None ↔ c ∉ String.list_ascii_of_string s.
Proof.
  induction s as [|x s IH]; simpl; [set_solver|].
  destruct (x =? c)%char eqn:E; [apply Ascii.eqb_eq in E as ->; set_solver|].
  apply byte_eqb_false in E. destruct (str_index c s); simpl; set_solver.
Qed.

(** The split by structural recursion on the pieces of the string. *)
Fixpoint split_ref (fuel : nat) (delim : ascii) (s : string) : list string :=
  match fuel, str_index delim s with
  | S fuel, Some i => str_take i s :: split_ref fuel delim (str_drop (S i) s)
  | _, _ => [s]
  end.

Lemma StringData_find_drop s c n :
  StringData_find s c n = (λ i, (n + i)%nat) <$> str_index c (str_drop n s).
Proof.
  unfold StringData_find.
  destruct (Nat.leb_spec (String.length s) n) as [Hl|Hl]; [|done].
  assert (str_drop n s = "") as ->; [|done].
  revert s Hl. induction n as [|n IH]; intros [|x s]; simpl; intros; try done; [lia|].
  apply IH. lia.
Qed.

Lemma splitStringDelim_loop_ref fuel str delim beg acc :
  splitStringDelim_loop fuel str delim beg (StringData_find str delim beg) acc
  = acc ++ split_ref fuel delim (str_drop beg str).
Proof.
  revert beg acc. induction fuel as [|fuel IH]; intros beg acc; simpl; [done|].
  rewrite StringData_find_drop.
  destruct (str_index delim (str_drop beg str)) as [i|]; simpl; [|done].
  rewrite IH, <-app_assoc.
  replace (beg + i - beg)%nat with i by lia.
  replace (S (beg + i)) with (beg + S i)%nat by lia. by rewrite str_drop_add.
Qed.

Lemma split_ref_cons fuel delim s : ∃ x l, split_ref fuel delim s = x :: l.
Proof. destruct fuel; simpl; [eauto|]. destruct (str_index delim s); eauto. Qed.

Lemma join_split_ref fuel delim s : joinStringDelim (split_ref fuel delim s) delim = s.
Proof.
  revert s. induction fuel as [|fuel IH]; intros s; cbn [split_ref]; [done|].
  destruct (str_index delim s) as [i|] eqn:Hi; [|done].
  apply str_index_Some in Hi as (a & b & -> & <- & _).
  rewrite str_take_app, str_drop_app_S. specialize (IH b).
  destruct (split_ref_cons fuel delim b) as (x & l & Heq).
  rewrite Heq in IH |- *. rewrite <-IH. done.
Qed.

(** Joining the pieces of a split gives the string back. *)
Lemma join_split str delim : joinStringDelim (splitStringDelim str delim) delim = str.
Proof.
  unfold splitStringDelim. destruct (String.eqb_spec str "") as [->|Hne]; [done|].
  rewrite splitStringDelim_loop_ref. simpl. by destruct str; rewrite join_split_ref.
Qed.

Lemma split_ref_no_delim fuel delim s :
  (String.length s ≤ fuel)%nat →
  Forall (λ p, delim ∉ String.list_ascii_of_string p) (split_ref fuel delim s).
Proof.
  revert s. induction fuel as [|fuel IH]; intros s Hl; cbn [split_ref].
  { destruct s; simpl in Hl; [|lia]. repeat constructor. set_solver. }
  destruct (str_index delim s) as [i|] eqn:Hi.
  - apply str_index_Some in Hi as (a & b & -> & <- & Ha).
    rewrite str_take_app, str_drop_app_S. constructor; [done|]. apply IH.
    rewrite str_app_length in Hl. simpl in Hl. lia.
  - apply str_index_None in Hi. by repeat constructor.
Qed.

(** No piece of a split holds the delimiter. *)
Lemma split_no_delim str delim :
  Forall (λ p, delim ∉ String.list_ascii_of_string p) (splitStringDelim str delim).
Proof.
  unfold splitStringDelim. destruct (String.eqb_spec str "") as [->|Hne]; [constructor|].
  rewrite splitStringDelim_loop_ref. simpl. apply split_ref_no_delim.
  by destruct str.
Qed.

(** ** Hexadecimal *)

Lemma fromHex_hexchars c :
  fromHex (hexchar (Z.shiftr (Z.land (byte_val c) 240) 4))
          (hexchar (Z.land (byte_val c) 15)) = Ok c.
Proof. by destruct c as [[] [] [] [] [] [] [] []]. Qed.

Lemma toHexLower_length s : String.length (toHexLower s) = (2 * String.length s)%nat.
Proof. induction s as [|c s IH]; simpl; [done|]. rewrite IH. lia. Qed.

Lemma toHexLower_inj a b : toHexLower a = toHexLower b → a = b.
Proof.
  revert b. induction a as [|x a IH]; intros [|y b]; simpl; try done.
  intros [= H1 H2 H3]. pose proof (fromHex_hexchars x) as Hx.
  rewrite H1, H2, fromHex_hexchars in Hx. injection Hx as <-. f_equal. auto.
Qed.
