(* ===== verification/Oid.v ===== *)
(** * Object identifiers: bson/oid.h and bson/oid.cpp

    An [OID] is twelve bytes: four of big-endian time, three of machine number,
    two of process id and three of a big-endian counter.  A [SubscriptionId] is
    an [OID], so the order of subscriptions, the keys of every map of the
    publish/subscribe layer and the printing of poll results all come from here.
    The process-wide counter and the machine number are explicit arguments. *)

From S2P Require Import Prelude StdMap Bytes.

Definition kOIDSize : nat := 12.
Definition kIncSize : nat := 3.

(** The union is exactly twelve bytes, as the static assertion of oid.cpp checks. *)
Record OID := OID_ {
  oid_data : string;
  oid_size : (String.length oid_data =? kOIDSize)%nat = true
}.

Definition OID_clear : OID := OID_ (le_bytes 12 0) eq_refl.

(** The identifier with the given twelve bytes. *)
Definition mkOID (s : string) : OID :=
  match bool_dec (String.length s =? kOIDSize)%nat true with
  | left H => OID_ s H
  | right _ => OID_clear
  end.

(** The two views of the union that [operator==] reads. *)
Definition oid_a (o : OID) : Z := to_signed 64 (le_val (str_take 8 (oid_data o))).
Definition oid_b (o : OID) : Z := le_val (str_drop 8 (oid_data o)).

Definition OID_eqb (l r : OID) : bool := (oid_a l =? oid_a r) && (oid_b l =? oid_b r).

Definition OID_compare (l r : OID) : Z := memcmp (oid_data l) (oid_data r) kOIDSize.

#[global] Instance OID_oplt : OpLt OID := λ l r, OID_compare l r <? 0.

Definition OID_toString (o : OID) : string := toHexLower (oid_data o).

Definition OID_isSet (o : OID) : bool := negb (oid_a o =? 0) || negb (oid_b o =? 0).

(** Byte [i] of the object representation of an integer. *)
Definition T (s : string) (i : nat) : ascii :=
  match String.get i s with Some c => c | None => NUL end.

(** ** Machine number and process id *)

(** [struct MachineAndPid]: three bytes of machine number, then the pid. *)
Record MachineAndPid := { machineNumber : string; pid : Z }.

Definition machine_bytes (m : MachineAndPid) : string :=
  machineNumber m +:+ le_bytes 2 (pid m).

Definition machine_wf (m : MachineAndPid) : Prop :=
  String.length (machineNumber m) = 3%nat ∧ 0 ≤ pid m < 2 ^ 16.

(** [reinterpret_cast<MachineAndPid&>(n)]: the first five bytes of [n]. *)
Definition machine_of_int64 (n : Z) : MachineAndPid :=
  let s := le_bytes 8 n in
  {| machineNumber := str_take 3 s; pid := le_val (str_take 2 (str_drop 3 s)) |}.

Definition foldInPid (p : Z) (x : MachineAndPid) : MachineAndPid :=
  let rest := Z.lxor (le_val (str_drop 1 (machineNumber x))) (Z.shiftr p 16) in
  {| machineNumber := str_take 1 (machineNumber x) +:+ le_bytes 2 rest;
     pid := Z.lxor (pid x) (p mod 2 ^ 16) |}.

(** [genMachineAndPid] of a random number and the process id: the new
    [ourMachine], and the value it returns. *)
Definition genMachineAndPid (n p : Z) : MachineAndPid * MachineAndPid :=
  let x := machine_of_int64 n in (x, foldInPid p x).

(** [operator!=]: the arrays [_machineNumber] decay to pointers, so what is
    compared is whether both sides are the same object. *)
Definition MachineAndPid_neqb (same_object : bool) (x rhs : MachineAndPid) : bool :=
  negb (pid x =? pid rhs) || negb same_object.

(** [justForked]: [ourMachine] and [ourMachineAndPid] afterwards; [n] is the
    random number drawn and [p] the new process id. *)
Definition justForked (ourMachine : MachineAndPid) (n p : Z) :
    res (MachineAndPid * MachineAndPid) :=
  let x := foldInPid p ourMachine in
  let '(ourMachine', ourMachineAndPid) := genMachineAndPid n p in
  _ ← verify "x != ourMachineAndPid" (MachineAndPid_neqb false x ourMachineAndPid);
  Ok (ourMachine', x).

Definition getMachineId (m : MachineAndPid) : Z := le_val (machineNumber m +:+ le_bytes 1 0).

(** ** Generation *)

(** The bytes [T[3] T[2] T[1] T[0]] of a 32-bit integer. *)
Definition time_bytes (t : Z) : string :=
  let s := le_bytes 4 t in
  String (T s 3) (String (T s 2) (String (T s 1) (String (T s 0) ""))).

Definition inc_bytes (n : Z) : string :=
  let s := le_bytes 4 n in
  String (T s 2) (String (T s 1) (String (T s 0) "")).

(** [OID::init()] at time [t] in a process whose counter is [inc]: the new
    identifier and the counter after [inc++]. *)
Definition OID_init (t : Z) (m : MachineAndPid) (inc : Z) : OID * Z :=
  (mkOID (time_bytes (to_unsigned 32 t) +:+ machine_bytes m +:+ inc_bytes inc),
   to_unsigned 32 (inc + 1)).

(** [OID::initSequential()] with the 64-bit sequence number [seq]. *)
Definition seq_bytes (n : Z) : string :=
  let s := le_bytes 8 n in
  String (T s 7) (String (T s 6) (String (T s 5) (String (T s 4)
    (String (T s 3) (String (T s 2) (String (T s 1) (String (T s 0) ""))))))).

Definition OID_initSequential (t seq : Z) : OID * Z :=
  (mkOID (time_bytes (to_unsigned 32 t) +:+ seq_bytes seq), to_unsigned 64 (seq + 1)).

(** [OID::init(const std::string&)]: from 24 hexadecimal digits. *)
Fixpoint oid_from_hex (s : string) : res string :=
  match s with
  | String c0 (String c1 s) =>
      b ← fromHex c0 c1; rest ← oid_from_hex s; Ok (String b rest)
  | _ => Ok ""
  end.

Definition OID_init_string (s : string) : res OID :=
  _ ← verify "s.size() == 24" (String.length s =? 24)%nat;
  d ← oid_from_hex s; Ok (mkOID d).

(** [OID::init(Date_t, max)]: the least or greatest identifier of a time. *)
Definition OID_init_date (date : Z) (max : bool) : OID :=
  let time := to_signed 32 (date / 1000) in
  mkOID (time_bytes time +:+ le_bytes 8 (if max then 2 ^ 64 - 1 else 0)).

Definition OID_asTimeT (o : OID) : Z :=
  let d := oid_data o in
  to_signed 32 (le_val (String (T d 3) (String (T d 2) (String (T d 1) (String (T d 0) ""))))).

(** ** Representation *)

Lemma oid_length o : String.length (oid_data o) = kOIDSize.
Proof. apply Nat.eqb_eq, oid_size. Qed.

Lemma oid_data_inj a b : oid_data a = oid_data b → a = b.
Proof.
  destruct a as [a Ha], b as [b Hb]. simpl. intros ->. f_equal. apply (eq_pi _).
Qed.

#[global] Instance OID_eq_dec : EqDecision OID.
Proof.
  intros a b. refine (cast_if (decide (oid_data a = oid_data b)));
    [by apply oid_data_inj|congruence].
Defined.

Lemma mkOID_data s : String.length s = kOIDSize → oid_data (mkOID s) = s.
Proof. intros Hl. unfold mkOID. destruct bool_dec as [|n]; [done|]. by rewrite Hl in n. Qed.

Lemma mkOID_oid o : mkOID (oid_data o) = o.
Proof. apply oid_data_inj, mkOID_data, oid_length. Qed.

(** ** Order and equality *)

Lemma OID_eqb_eq l r : OID_eqb l r = true ↔ l = r.
Proof.
  unfold OID_eqb, oid_a, oid_b. pose proof (oid_length l) as Hl.
  pose proof (oid_length r) as Hr. rewrite andb_true_iff, !Z.eqb_eq.
  split; [|by intros ->]. intros [Ha Hb]. apply oid_data_inj.
  rewrite <-(str_take_drop 8 (oid_data l)), <-(str_take_drop 8 (oid_data r)). f_equal.
  - apply le_val_inj; [rewrite !str_take_length; lia|].
    pose proof (le_val_range (str_take 8 (oid_data l))) as Hx.
    pose proof (le_val_range (str_take 8 (oid_data r))) as Hy.
    rewrite str_take_length, Hl in Hx. rewrite str_take_length, Hr in Hy.
    unfold to_signed in Ha. change (8 * Z.of_nat (8 `min` kOIDSize)) with 64 in Hx, Hy.
    rewrite !Z.mod_small in Ha by done. repeat case_match; lia.
  - apply le_val_inj; [rewrite !str_drop_length; lia|done].
Qed.

Lemma OID_compare_eq l r : OID_compare l r = 0 ↔ l = r.
Proof.
  unfold OID_compare. pose proof (oid_length l). pose proof (oid_length r).
  rewrite memcmp_eq, !str_take_ge by lia. split; [apply oid_data_inj|by intros ->].
Qed.

#[global] Instance OID_oplt_laws : OpLtLaws OID.
Proof.
  split; unfold oplt, OID_oplt, OID_compare.
  - intros o. by rewrite memcmp_refl.
  - intros a b c. rewrite !Z.ltb_lt. pose proof (oid_length a).
    pose proof (oid_length b). pose proof (oid_length c). apply memcmp_trans; lia.
  - intros a b. rewrite !Z.ltb_ge, (memcmp_opp (oid_data a)).
    intros ??. apply OID_compare_eq. unfold OID_compare. lia.
Qed.

(** ** Big-endian fields *)

Fixpoint be_val_acc (acc : Z) (s : string) : Z :=
  match s with EmptyString => acc | String c s => be_val_acc (256 * acc + byte_val c) s end.

Definition be_val (s : string) : Z := be_val_acc 0 s.

Lemma be_val_acc_shift s acc :
  be_val_acc acc s = acc * 2 ^ (8 * Z.of_nat (String.length s)) + be_val s.
Proof.
  unfold be_val. revert acc. induction s as [|c s IH]; intros acc;
    cbn [be_val_acc String.length]; [lia|].
  rewrite IH, (IH (256 * 0 + byte_val c)).
  replace (8 * Z.of_nat (S (String.length s)))
    with (8 + 8 * Z.of_nat (String.length s)) by lia.
  rewrite Z.pow_add_r by lia. change (2 ^ 8) with 256. ring.
Qed.

Lemma be_val_cons c s :
  be_val (String c s) = byte_val c * 2 ^ (8 * Z.of_nat (String.length s)) + be_val s.
Proof. unfold be_val. cbn [be_val_acc]. by rewrite be_val_acc_shift. Qed.

Lemma be_val_range s : 0 ≤ be_val s < 2 ^ (8 * Z.of_nat (String.length s)).
Proof.
  induction s as [|c s IH]; [done|]. rewrite be_val_cons. simpl String.length.
  replace (8 * Z.of_nat (S (String.length s)))
    with (8 + 8 * Z.of_nat (String.length s)) by lia.
  rewrite Z.pow_add_r by lia. change (2 ^ 8) with 256.
  pose proof (byte_val_range c). nia.
Qed.

(** [memcmp] compares big-endian fields of one size as numbers. *)
Lemma memcmp_be a b : String.length a = String.length b →
  memcmp a b (String.length a) < 0 ↔ be_val a < be_val b.
Proof.
  revert b. induction a as [|x a IH]; intros [|y b]; simpl; try done.
  intros [= Hl]. rewrite !be_val_cons, <-Hl.
  pose proof (be_val_range a). pose proof (be_val_range b) as Hb. rewrite <-Hl in Hb.
  set (P := 2 ^ (8 * Z.of_nat (String.length a))) in *.
  destruct (byte_val x <? byte_val y) eqn:Hxy; [|destruct (byte_val y <? byte_val x) eqn:Hyx].
  - apply Z.ltb_lt in Hxy. split; [nia|lia].
  - apply Z.ltb_lt in Hyx. split; [lia|nia].
  - apply Z.ltb_ge in Hxy, Hyx. rewrite (IH b Hl). nia.
Qed.

Lemma T_le_bytes n z i : (i < n)%nat → byte_val (T (le_bytes n z) i) = z / 256 ^ Z.of_nat i mod 256.
Proof.
  unfold T. revert z i. induction n as [|n IH]; intros z i Hi; [lia|].
  destruct i as [|i]; simpl String.get; cbn [le_bytes].
  - simpl. rewrite byte_val_of. by rewrite Z.div_1_r.
  - simpl. rewrite IH by lia. f_equal. rewrite Z.div_div by lia. f_equal.
    rewrite Nat2Z.inj_succ, Z.pow_succ_r by lia. ring.
Qed.

Lemma be_val_time t : be_val (time_bytes t) = t mod 2 ^ 32.
Proof.
  unfold time_bytes. rewrite !be_val_cons, !T_le_bytes by lia.
  simpl String.length. simpl Z.of_nat. cbn -[Z.div Z.modulo Z.mul Z.add].
  Z.to_euclidean_division_equations. lia.
Qed.

Lemma be_val_inc n : be_val (inc_bytes n) = n mod 2 ^ 24.
Proof.
  unfold inc_bytes. rewrite !be_val_cons, !T_le_bytes by lia.
  simpl String.length. simpl Z.of_nat. cbn -[Z.div Z.modulo Z.mul Z.add].
  Z.to_euclidean_division_equations. lia.
Qed.

Lemma be_val_seq n : be_val (seq_bytes n) = n mod 2 ^ 64.
Proof.
  unfold seq_bytes. rewrite !be_val_cons, !T_le_bytes by lia.
  simpl String.length. simpl Z.of_nat. cbn -[Z.div Z.modulo Z.mul Z.add].
  Z.to_euclidean_division_equations. lia.
Qed.

Lemma memcmp_app a b c d n :
  String.length a = String.length b →
  memcmp (a +:+ c) (b +:+ d) (String.length a + n)
  = if memcmp a b (String.length a) =? 0 then memcmp c d n
    else memcmp a b (String.length a).
Proof.
  revert b. induction a as [|x a IH]; intros [|y b]; simpl; try done.
  intros [= Hl]. repeat case_match; try done; try lia; rewrite IH by done;
    repeat case_match; try done; lia.
Qed.

Lemma be_val_inj a b : String.length a = String.length b → be_val a = be_val b → a = b.
Proof.
  intros Hl Hv.
  assert (memcmp a b (String.length a) = 0) as Hz.
  { pose proof (memcmp_be a b Hl). pose proof (memcmp_be b a (eq_sym Hl)) as Hba.
    rewrite <-Hl, (memcmp_opp a) in Hba. lia. }
  rewrite memcmp_eq, !str_take_ge in Hz by lia. done.
Qed.

Lemma time_bytes_length t : String.length (time_bytes t) = 4%nat.
Proof. done. Qed.
Lemma machine_bytes_length m : machine_wf m → String.length (machine_bytes m) = 5%nat.
Proof.
  intros [Hm _]. unfold machine_bytes. by rewrite str_app_length, le_bytes_length, Hm.
Qed.
Lemma inc_bytes_length n : String.length (inc_bytes n) = 3%nat.
Proof. done. Qed.

Lemma OID_init_data t m inc : machine_wf m →
  oid_data (fst (OID_init t m inc))
  = time_bytes (to_unsigned 32 t) +:+ machine_bytes m +:+ inc_bytes inc.
Proof.
  intros Hm. apply mkOID_data.
  by rewrite !str_app_length, time_bytes_length, machine_bytes_length, inc_bytes_length.
Qed.

Lemma OID_initSequential_data t seq :
  oid_data (fst (OID_initSequential t seq)) = time_bytes (to_unsigned 32 t) +:+ seq_bytes seq.
Proof. by apply mkOID_data. Qed.

Lemma foldInPid_wf p x : machine_wf x → machine_wf (foldInPid p x).
Proof.
  intros [Hn Hp]. unfold foldInPid. split; cbn [machineNumber pid].
  - by rewrite str_app_length, str_take_length, le_bytes_length, Hn.
  - split; [apply Z.lxor_nonneg; pose proof (Z.mod_pos_bound p (2 ^ 16)); lia|].
    pose proof (Z.mod_pos_bound p (2 ^ 16) ltac:(lia)).
    destruct (decide (Z.lxor (pid x) (p mod 2 ^ 16) = 0)) as [->|Hnz]; [lia|].
    assert (0 ≤ Z.lxor (pid x) (p mod 2 ^ 16)) by (apply Z.lxor_nonneg; lia).
    apply Z.log2_lt_pow2; [lia|].
    pose proof (Z.log2_lxor (pid x) (p mod 2 ^ 16) ltac:(lia) ltac:(lia)).
    assert (∀ z, 0 ≤ z < 2 ^ 16 → Z.log2 z < 16) as Hlog.
    { intros z ?. destruct (decide (z = 0)) as [->|]; [done|]. apply Z.log2_lt_pow2; lia. }
    pose proof (Hlog (pid x)). pose proof (Hlog (p mod 2 ^ 16)). lia.
Qed.

Lemma machine_of_int64_wf n : machine_wf (machine_of_int64 n).
Proof.
  split; simpl; [done|].
  pose proof (le_val_range (str_take 2 (str_drop 3 (le_bytes 8 n)))) as Hr. done.
Qed.

(** ** The order of generated identifiers *)

Lemma memcmp_be_eq a b : String.length a = String.length b →
  be_val a = be_val b → memcmp a b (String.length a) = 0.
Proof. intros Hl Hv. rewrite (be_val_inj a b Hl Hv). apply memcmp_refl. Qed.

(** Two identifiers compare first by their time, then by what follows. *)
Lemma time_prefix_lt t1 t2 r1 r2 :
  0 ≤ t1 < 2 ^ 32 → 0 ≤ t2 < 2 ^ 32 →
  memcmp (time_bytes t1 +:+ r1) (time_bytes t2 +:+ r2) 12 < 0
  ↔ t1 < t2 ∨ (t1 = t2 ∧ memcmp r1 r2 8 < 0).
Proof.
  intros H1 H2. change 12%nat with (String.length (time_bytes t1) + 8)%nat.
  rewrite memcmp_app by done.
  pose proof (memcmp_be (time_bytes t1) (time_bytes t2) eq_refl) as Hlt.
  pose proof (memcmp_be_eq (time_bytes t1) (time_bytes t2) eq_refl) as Heq.
  rewrite !be_val_time, !Z.mod_small in Hlt, Heq by done.
  destruct (Z.eqb_spec (memcmp (time_bytes t1) (time_bytes t2)
    (String.length (time_bytes t1))) 0) as [Hz|Hz]; [|lia].
  assert (memcmp (time_bytes t2) (time_bytes t1) (String.length (time_bytes t2)) = 0) as Hz'
    by (rewrite memcmp_opp; change (String.length (time_bytes t2))
          with (String.length (time_bytes t1)); lia).
  pose proof (memcmp_be (time_bytes t2) (time_bytes t1) eq_refl) as Hgt.
  rewrite !be_val_time, !Z.mod_small in Hgt by done. lia.
Qed.

Lemma str_app_inj_l a b c d : String.length a = String.length b →
  a +:+ c = b +:+ d → a = b ∧ c = d.
Proof.
  revert b. induction a as [|x a IH]; intros [|y b]; simpl; try done.
  intros [= Hl] [= -> Heq]. destruct (IH b Hl Heq) as [-> ->]. done.
Qed.

(** Identifiers drawn by one process coincide exactly when their seconds agree
    modulo 2^32 and their counters agree modulo 2^24. *)
Lemma OID_init_eq m t1 t2 i1 i2 : machine_wf m →
  fst (OID_init t1 m i1) = fst (OID_init t2 m i2)
  ↔ t1 mod 2 ^ 32 = t2 mod 2 ^ 32 ∧ i1 mod 2 ^ 24 = i2 mod 2 ^ 24.
Proof.
  intros Hm. split.
  - intros Heq%(f_equal oid_data). rewrite !OID_init_data in Heq by done.
    apply str_app_inj_l in Heq as [Ht Heq]; [|done].
    apply str_app_inj_l in Heq as [_ Hi]; [|done].
    apply (f_equal be_val) in Ht, Hi. rewrite !be_val_time in Ht. rewrite !be_val_inc in Hi.
    unfold to_unsigned in Ht. rewrite !Zmod_mod in Ht. done.
  - intros [Ht Hi]. apply oid_data_inj. rewrite !OID_init_data by done.
    unfold to_unsigned. rewrite Ht. do 2 f_equal.
    apply be_val_inj; [done|]. by rewrite !be_val_inc.
Qed.

(** A run of [OID::gen()] in one process, one call per time of the list. *)
Fixpoint OID_gen_run (m : MachineAndPid) (inc : Z) (times : list Z) : list OID :=
  match times with
  | [] => []
  | t :: times => let '(o, inc') := OID_init t m inc in o :: OID_gen_run m inc' times
  end.

Lemma OID_gen_run_elem m inc times o : o ∈ OID_gen_run m inc times →
  ∃ (k : nat) t c, (k < length times)%nat ∧ o = fst (OID_init t m c) ∧
    c mod 2 ^ 32 = (inc + Z.of_nat k) mod 2 ^ 32.
Proof.
  revert inc. induction times as [|t times IH]; intros inc; simpl; [set_solver|].
  intros [->|Ho]%elem_of_cons; [exists 0%nat, t, inc; rewrite Z.add_0_r; split; [lia|done]|].
  destruct (IH _ Ho) as (k & t' & c & Hk & -> & Hc).
  exists (S k), t', c. split; [lia|]. split; [done|]. rewrite Hc. unfold to_unsigned.
  rewrite Zplus_mod_idemp_l. f_equal. lia.
Qed.

(** Up to 2^24 identifiers drawn by one process are pairwise distinct, whatever
    the clock does and wherever the 32-bit counter starts. *)
Lemma OID_gen_run_NoDup m inc times : machine_wf m →
  Z.of_nat (length times) ≤ 2 ^ 24 → NoDup (OID_gen_run m inc times).
Proof.
  intros Hm. revert inc. induction times as [|t times IH]; intros inc Hl; simpl in *.
  { constructor. }
  constructor; [|apply IH; lia]. intros Ho.
  destruct (OID_gen_run_elem _ _ _ _ Ho) as (k & t' & c & Hk & Heq & Hc).
  apply (OID_init_eq m) in Heq as [_ Hi]; [|done]. revert Hi Hc. unfold to_unsigned.
  Z.to_euclidean_division_equations. lia.
Qed.

(** [initSequential] is strictly increasing in its sequence number as long as
    the clock does not go back and neither field wraps. *)
Lemma OID_initSequential_lt t1 t2 s1 s2 :
  0 ≤ t1 ≤ t2 → t2 < 2 ^ 32 → 0 ≤ s1 < s2 → s2 < 2 ^ 64 →
  (fst (OID_initSequential t1 s1) <?k fst (OID_initSequential t2 s2)) = true.
Proof.
  intros Ht Ht2 Hs Hs2. unfold oplt, OID_oplt, OID_compare.
  rewrite !OID_initSequential_data. apply Z.ltb_lt. unfold to_unsigned.
  rewrite !(Z.mod_small _ (2 ^ 32)) by lia. apply time_prefix_lt; [lia..|].
  destruct (decide (t1 = t2)) as [->|]; [right; split; [done|]|left; lia].
  apply (memcmp_be (seq_bytes s1) (seq_bytes s2) eq_refl).
  rewrite !be_val_seq, !Z.mod_small by lia. lia.
Qed.

(** ** Printing and parsing *)

Lemma oid_from_hex_toHexLower s : oid_from_hex (toHexLower s) = Ok s.
Proof.
  induction s as [|c s IH]; simpl; [done|].
  rewrite fromHex_hexchars. simpl. by rewrite IH.
Qed.

Lemma OID_string_roundtrip o : OID_init_string (OID_toString o) = Ok o.
Proof.
  unfold OID_init_string, OID_toString. rewrite toHexLower_length, oid_length. simpl.
  rewrite oid_from_hex_toHexLower. simpl. by rewrite mkOID_oid.
Qed.

Lemma OID_toString_inj a b : OID_toString a = OID_toString b → a = b.
Proof. intros Heq. apply oid_data_inj, toHexLower_inj, Heq. Qed.

(** ** Time stamps *)

Lemma memcmp_zero_le s n : memcmp (le_bytes n 0) s n ≤ 0.
Proof.
  revert s. induction n as [|n IH]; intros [|c s]; simpl; try lia.
  change (byte_val (byte_of 0)) with 0. pose proof (byte_val_range c).
  repeat case_match; try lia. apply IH.
Qed.

Lemma memcmp_le_ones s m n : memcmp s (le_bytes m (2 ^ (8 * Z.of_nat m) - 1)) n ≤ 0.
Proof.
  revert s n. induction m as [|m IH]; intros [|c s] [|n]; try (simpl; lia).
  cbn [le_bytes memcmp]. rewrite byte_val_of.
  replace (8 * Z.of_nat (S m)) with (8 + 8 * Z.of_nat m) by lia.
  rewrite Z.pow_add_r by lia. change (2 ^ 8) with 256.
  replace ((256 * 2 ^ (8 * Z.of_nat m) - 1) mod 256) with 255
    by (Z.to_euclidean_division_equations; lia).
  replace ((256 * 2 ^ (8 * Z.of_nat m) - 1) / 256) with (2 ^ (8 * Z.of_nat m) - 1)
    by (Z.to_euclidean_division_equations; lia).
  pose proof (byte_val_range c). repeat case_match; try lia. apply IH.
Qed.

(** [init(date, max)] brackets every identifier generated in the second of [date]. *)
Lemma OID_init_date_bounds m date inc : machine_wf m → 0 ≤ date →
  let o := fst (OID_init (date / 1000) m inc) in
  OID_compare (OID_init_date date false) o ≤ 0 ∧ OID_compare o (OID_init_date date true) ≤ 0.
Proof.
  intros Hm Hd o. unfold o, OID_compare. rewrite OID_init_data by done.
  unfold OID_init_date. rewrite !mkOID_data by done.
  assert (time_bytes (to_signed 32 (date / 1000)) = time_bytes (to_unsigned 32 (date / 1000))) as ->.
  { apply be_val_inj; [done|]. rewrite !be_val_time. unfold to_signed, to_unsigned.
    case_match; Z.to_euclidean_division_equations; lia. }
  set (tb := time_bytes _). change kOIDSize with (String.length tb + 8)%nat.
  rewrite !memcmp_app, !memcmp_refl by done. simpl Z.eqb. cbv iota. split.
  - apply memcmp_zero_le.
  - apply (memcmp_le_ones _ 8).
Qed.

(** Reading the time back gives the second of the date as a 32-bit [int]. *)
Lemma OID_asTimeT_init_date date max :
  OID_asTimeT (OID_init_date date max) = to_signed 32 (date / 1000).
Proof.
  unfold OID_asTimeT, OID_init_date. rewrite mkOID_data by done.
  set (t := to_signed 32 (date / 1000)).
  change (to_signed 32 (le_val (le_bytes 4 t)) = t). rewrite le_val_bytes.
  apply (to_signed_id 32); [done|]. unfold t, to_signed.
  pose proof (Z.mod_pos_bound (date / 1000) (2 ^ 32) ltac:(lia)). simpl. case_match; lia.
Qed.
