(* ===== verification/Doubles.v ===== *)
(** * IEEE double precision numbers as 64-bit patterns

    A BSON double is stored and copied as its eight bytes, so the model keeps
    the bit pattern and decodes it where the code computes with it.  Arithmetic
    and comparison are those of the Standard Library's [SpecFloat], the
    executable specification of IEEE 754 with round to nearest even.  Out of
    range conversions to integers are undefined in C++ and are errors here. *)

From Stdlib Require Import SpecFloat.
From S2P Require Import Prelude StdMap Bytes.

Definition prec : Z := 53.
Definition emax : Z := 1024.

Definition double_decode (bits : Z) : spec_float :=
  let s := Z.testbit bits 63 in
  let e := bits / 2 ^ 52 mod 2 ^ 11 in
  let m := bits mod 2 ^ 52 in
  if e =? 2047 then (if m =? 0 then S754_infinity s else S754_nan)
  else if e =? 0 then
    match m with Zpos p => S754_finite s p (-1074) | _ => S754_zero s end
  else match m + 2 ^ 52 with Zpos p => S754_finite s p (e - 1075) | _ => S754_nan end.

Definition sign_bit (s : bool) : Z := if s then 2 ^ 63 else 0.

Definition double_encode (f : spec_float) : Z :=
  match f with
  | S754_zero s => sign_bit s
  | S754_infinity s => sign_bit s + 2047 * 2 ^ 52
  | S754_nan => 2047 * 2 ^ 52 + 2 ^ 51
  | S754_finite s m e =>
      if Zpos m <? 2 ^ 52 then sign_bit s + Zpos m
      else sign_bit s + (e + 1075) * 2 ^ 52 + (Zpos m - 2 ^ 52)
  end.

(** [(double) n] of an integer. *)
Definition double_of_Z (n : Z) : Z := double_encode (binary_normalize prec emax n 0 false).

Definition isNaN (d : Z) : bool :=
  match double_decode d with S754_nan => true | _ => false end.

Definition double_compare (a b : Z) : option comparison :=
  SFcompare (double_decode a) (double_decode b).

Definition double_ltb (a b : Z) : bool :=
  match double_compare a b with Some Lt => true | _ => false end.
Definition double_eqb (a b : Z) : bool :=
  match double_compare a b with Some Eq => true | _ => false end.

(** The integer parts: towards zero, and towards minus infinity. *)
Definition sf_trunc (f : spec_float) : option Z :=
  match f with
  | S754_zero _ => Some 0
  | S754_finite s m e =>
      let a := if 0 <=? e then Zpos m * 2 ^ e else Zpos m / 2 ^ (- e) in
      Some (if s then - a else a)
  | _ => None
  end.

Definition sf_floor (f : spec_float) : option Z :=
  match f with
  | S754_zero _ => Some 0
  | S754_finite s m e =>
      let a := if s then Zneg m else Zpos m in
      Some (if 0 <=? e then a * 2 ^ e else a / 2 ^ (- e))
  | _ => None
  end.

(** A conversion whose value does not fit the type is undefined behaviour. *)
Definition cast_int (w : Z) (v : option Z) : res Z :=
  match v with
  | Some n => if (- 2 ^ (w - 1) <=? n) && (n <? 2 ^ (w - 1)) then Ok n
              else Throw (UndefinedBehaviour "double out of integer range")
  | None => Throw (UndefinedBehaviour "double out of integer range")
  end.

(** [(int) d], [(long long) d] and [(long) std::floor(d)]. *)
Definition double_to_int (d : Z) : res Z := cast_int 32 (sf_trunc (double_decode d)).
Definition double_to_long (d : Z) : res Z := cast_int 64 (sf_trunc (double_decode d)).
Definition double_floor_long (d : Z) : res Z := cast_int 64 (sf_floor (double_decode d)).

Definition double_wf (bits : Z) : Prop := 0 ≤ bits < 2 ^ 64.

(** ** Order *)

(** The comparison of two numbers is the lexicographic one of their keys: the
    class (infinite, negative, zero, positive), then exponent and significand. *)
Definition sf_key (f : spec_float) : option (Z * Z * Z) :=
  match f with
  | S754_nan => None
  | S754_infinity s => Some (if s then -2 else 2, 0, 0)
  | S754_zero _ => Some (0, 0, 0)
  | S754_finite true m e => Some (-1, - e, Zneg m)
  | S754_finite false m e => Some (1, e, Zpos m)
  end.

Definition lex3 (a b : Z * Z * Z) : comparison :=
  let '(a1, a2, a3) := a in
  let '(b1, b2, b3) := b in
  match a1 ?= b1, a2 ?= b2 with Eq, Eq => a3 ?= b3 | Eq, c => c | c, _ => c end.

Lemma SFcompare_key a b :
  SFcompare a b = (x ← sf_key a; y ← sf_key b; Some (lex3 x y)).
Proof.
  destruct a as [[]|[]| |[] ma ea], b as [[]|[]| |[] mb eb]; try done.
  cbn -[Z.compare]. rewrite Z.compare_opp, (Z.compare_antisym ea eb).
  by destruct (ea ?= eb).
Qed.

Lemma lex3_opp a b : lex3 b a = CompOpp (lex3 a b).
Proof.
  destruct a as [[a1 a2] a3], b as [[b1 b2] b3]. unfold lex3.
  rewrite (Z.compare_antisym a1), (Z.compare_antisym a2), (Z.compare_antisym a3).
  by destruct (a1 ?= b1), (a2 ?= b2).
Qed.

Lemma lex3_Eq a b : lex3 a b = Eq ↔ a = b.
Proof.
  destruct a as [[a1 a2] a3], b as [[b1 b2] b3]. unfold lex3. split.
  - destruct (a1 ?= b1) eqn:H1, (a2 ?= b2) eqn:H2; try done. intros H3.
    apply Z.compare_eq in H1, H2, H3. by subst.
  - intros [= -> -> ->]. by rewrite !Z.compare_refl.
Qed.

Lemma lex3_Lt a b : lex3 a b = Lt ↔
  a.1.1 < b.1.1 ∨ (a.1.1 = b.1.1 ∧ (a.1.2 < b.1.2 ∨ (a.1.2 = b.1.2 ∧ a.2 < b.2))).
Proof.
  destruct a as [[a1 a2] a3], b as [[b1 b2] b3]. unfold lex3. simpl.
  destruct (Z.compare_spec a1 b1), (Z.compare_spec a2 b2), (Z.compare_spec a3 b3);
    split; try done; lia.
Qed.

Lemma lex3_Lt_trans a b c : lex3 a b = Lt → lex3 b c = Lt → lex3 a c = Lt.
Proof. rewrite !lex3_Lt. lia. Qed.

(** The key of a double; [None] exactly for NaN. *)
Definition double_key (d : Z) : option (Z * Z * Z) := sf_key (double_decode d).

Lemma isNaN_key d : isNaN d = match double_key d with None => true | _ => false end.
Proof. unfold isNaN, double_key. by destruct (double_decode d) as [| | |[]]. Qed.

Lemma double_compare_key a b :
  double_compare a b = (x ← double_key a; y ← double_key b; Some (lex3 x y)).
Proof. apply SFcompare_key. Qed.

(** ** Encoding *)

Lemma double_encode_decode d : double_wf d → isNaN d = false →
  double_encode (double_decode d) = d.
Proof.
  unfold double_wf, isNaN, double_decode. intros Hd.
  set (m := d mod 2 ^ 52). set (e := d / 2 ^ 52 mod 2 ^ 11).
  assert (d = sign_bit (Z.testbit d 63) + e * 2 ^ 52 + m ∧ 0 ≤ m < 2 ^ 52 ∧ 0 ≤ e < 2 ^ 11)
    as (Hsum & Hm & He).
  { unfold m, e, sign_bit. rewrite Z.testbit_odd, Z.shiftr_div_pow2 by lia.
    rewrite <-Z.bit0_odd. change (Z.testbit (d / 2 ^ 63) 0) with (Z.odd (d / 2 ^ 63)).
    assert (d / 2 ^ 63 = 0 ∨ d / 2 ^ 63 = 1) as [H|H]
      by (Z.to_euclidean_division_equations; lia);
      rewrite H; simpl; Z.to_euclidean_division_equations; lia. }
  destruct (e =? 2047) eqn:He1; [destruct (m =? 0) eqn:Hm0; [|done]|].
  - intros _. cbn [double_encode]. lia.
  - destruct (e =? 0) eqn:He0.
    + intros _. destruct m as [|p|p] eqn:Hp; cbn [double_encode]; [lia| |lia]. case_match; lia.
    + destruct (m + 2 ^ 52) as [|p|p] eqn:Hp; [done| |done]. cbn [double_encode]. case_match; lia.
Qed.
