(* ===== verification/Bson.v ===== *)
(** * BSON values, elements and objects

    The data of every publish/subscribe message.  [value] has one constructor
    per BSON type of bson/bsontypes.h, a [BSONElement] is a named value and a
    [BSONObj] the list of its elements.  This file has the accessors of
    bson/bsonelement.h and bson/bsonobj.h on that view; the byte layout and its
    equivalence with it are in BsonBytes.v, the comparison in BsonCompare.v. *)

From S2P Require Import Prelude StdMap Bytes Oid Doubles.

Inductive BSONType :=
  MinKey | EOO | NumberDouble | String_ | Object | Array | BinData | Undefined | jstOID
| Bool | Date | jstNULL | RegEx | DBRef | Code | Symbol | CodeWScope | NumberInt
| Timestamp | NumberLong | MaxKey.

#[global] Instance BSONType_eq_dec : EqDecision BSONType.
Proof. solve_decision. Defined.

Definition BSONType_code (t : BSONType) : Z :=
  match t with
  | MinKey => -1 | EOO => 0 | NumberDouble => 1 | String_ => 2 | Object => 3 | Array => 4
  | BinData => 5 | Undefined => 6 | jstOID => 7 | Bool => 8 | Date => 9 | jstNULL => 10
  | RegEx => 11 | DBRef => 12 | Code => 13 | Symbol => 14 | CodeWScope => 15
  | NumberInt => 16 | Timestamp => 17 | NumberLong => 18 | MaxKey => 127
  end.

Definition BSONType_of_code (z : Z) : option BSONType :=
  list_find (λ t, BSONType_code t = z)
    [MinKey; EOO; NumberDouble; String_; Object; Array; BinData; Undefined; jstOID; Bool;
     Date; jstNULL; RegEx; DBRef; Code; Symbol; CodeWScope; NumberInt; Timestamp;
     NumberLong; MaxKey] ≫= λ p, Some p.2.

Definition canonicalizeBSONType (t : BSONType) : Z :=
  match t with
  | MinKey | MaxKey => BSONType_code t
  | EOO | Undefined => 0
  | jstNULL => 5
  | NumberDouble | NumberInt | NumberLong => 10
  | String_ | Symbol => 15
  | Object => 20
  | Array => 25
  | BinData => 30
  | jstOID => 35
  | Bool => 40
  | Date | Timestamp => 45
  | RegEx => 50
  | DBRef => 55
  | Code => 60
  | CodeWScope => 65
  end.

(** [VEOO] is the value of the element that stands for a missing field. *)
Inductive value :=
| VMinKey
| VEOO
| VDouble (bits : Z)
| VString (s : string)
| VObject (o : list (string * value))
| VArray (o : list (string * value))
| VBinData (subtype : Z) (data : string)
| VUndefined
| VOID (o : OID)
| VBool (b : bool)
| VDate (millis : Z)
| VNull
| VRegEx (pattern flags : string)
| VDBRef (ns : string) (o : OID)
| VCode (s : string)
| VSymbol (s : string)
| VCodeWScope (code : string) (scope : list (string * value))
| VInt (n : Z)
| VTimestamp (t : Z)
| VLong (n : Z)
| VMaxKey.

Abbreviation BSONElement := (string * value)%type.
Abbreviation BSONObj := (list BSONElement).

Definition eooElement : BSONElement := ("", VEOO).

Definition vtype (v : value) : BSONType :=
  match v with
  | VMinKey => MinKey | VEOO => EOO | VDouble _ => NumberDouble | VString _ => String_
  | VObject _ => Object | VArray _ => Array | VBinData _ _ => BinData
  | VUndefined => Undefined | VOID _ => jstOID | VBool _ => Bool | VDate _ => Date
  | VNull => jstNULL | VRegEx _ _ => RegEx | VDBRef _ _ => DBRef | VCode _ => Code
  | VSymbol _ => Symbol | VCodeWScope _ _ => CodeWScope | VInt _ => NumberInt
  | VTimestamp _ => Timestamp | VLong _ => NumberLong | VMaxKey => MaxKey
  end.

Definition type (e : BSONElement) : BSONType := vtype e.2.
Definition canonicalType (e : BSONElement) : Z := canonicalizeBSONType (type e).
Definition eoo (e : BSONElement) : bool := bool_decide (type e = EOO).
Definition ok (e : BSONElement) : bool := negb (eoo e).

Definition fieldName (e : BSONElement) : string := if eoo e then "" else e.1.

Definition isABSONObj (e : BSONElement) : bool :=
  match type e with Object | Array => true | _ => false end.

Definition mayEncapsulate (e : BSONElement) : bool :=
  match type e with Object | Array | CodeWScope => true | _ => false end.

Definition isNumber (e : BSONElement) : bool :=
  match type e with NumberLong | NumberDouble | NumberInt => true | _ => false end.

Definition isSimpleType (e : BSONElement) : bool :=
  match type e with
  | NumberLong | NumberDouble | NumberInt | String_ | Bool | Date | jstOID => true
  | _ => false
  end.

Definition trueValue (e : BSONElement) : bool :=
  match e.2 with
  | VLong n | VInt n => negb (n =? 0)
  | VDouble d => negb (double_eqb d 0)
  | VBool b => b
  | VEOO | VNull | VUndefined => false
  | _ => true
  end.

(** [chk(int)]: the check behind the capitalised accessors.  The texts are kept up
    to the name and the types the code appends to them. *)
Definition chk (t : BSONType) (e : BSONElement) : res unit :=
  if bool_decide (t = type e) then Ok ()
  else Throw (MsgAssertionException 13111
    (if eoo e then "field not found, expected type" else "wrong type for field")).

Definition as_String (e : BSONElement) : res string :=
  _ ← chk String_ e; match e.2 with VString s => Ok s | _ => Ok "" end.

Definition as_OID (e : BSONElement) : res OID :=
  _ ← chk jstOID e; match e.2 with VOID o => Ok o | _ => Ok OID_clear end.

(** [str()]: empty when the element is not a string. *)
Definition str (e : BSONElement) : string := match e.2 with VString s => s | _ => "" end.

Definition numberDouble (e : BSONElement) : Z :=
  match e.2 with
  | VDouble d => d
  | VInt n | VLong n => double_of_Z n
  | _ => 0
  end.

Definition numberInt (e : BSONElement) : res Z :=
  match e.2 with
  | VDouble d => double_to_int d
  | VInt n => Ok n
  | VLong n => Ok (to_signed 32 n)
  | _ => Ok 0
  end.

Definition numberLong (e : BSONElement) : res Z :=
  match e.2 with
  | VDouble d => double_to_long d
  | VInt n => Ok n
  | VLong n => Ok n
  | _ => Ok 0
  end.

Definition LLONG_MAX : Z := 2 ^ 63 - 1.
Definition LLONG_MIN : Z := - 2 ^ 63.

Definition safeNumberLong (e : BSONElement) : res Z :=
  match e.2 with
  | VDouble d =>
      if isNaN d then Ok 0
      else if double_ltb (double_of_Z LLONG_MAX) d then Ok LLONG_MAX
      else if double_ltb d (double_of_Z LLONG_MIN) then Ok LLONG_MIN
      else numberLong e
  | _ => numberLong e
  end.

(** [embeddedObject()] and [Obj()]. *)
Definition embeddedObject (e : BSONElement) : res BSONObj :=
  match e.2 with
  | VObject o | VArray o => Ok o
  | _ => Throw (VerifyFailed "isABSONObj()")
  end.

Definition embeddedObjectUserCheck (e : BSONElement) : res BSONObj :=
  match e.2 with
  | VObject o | VArray o => Ok o
  | _ => Throw (UserException 10065
           ("invalid parameter: expected an object (" +:+ fieldName e +:+ ")"))
  end.

(** ** Objects *)

Definition isEmpty (o : BSONObj) : bool := match o with [] => true | _ => false end.

Definition firstElement (o : BSONObj) : BSONElement :=
  match o with e :: _ => e | [] => eooElement end.

Fixpoint getField (o : BSONObj) (name : string) : BSONElement :=
  match o with
  | [] => eooElement
  | e :: o => if StringData_eqb name (fieldName e) then e else getField o name
  end.

Definition hasField (o : BSONObj) (name : string) : bool := negb (eoo (getField o name)).

Definition getObjectField (o : BSONObj) (name : string) : BSONObj :=
  match (getField o name).2 with VObject s | VArray s => s | _ => [] end.

Definition getIntField (o : BSONObj) (name : string) : res Z :=
  let e := getField o name in
  if isNumber e then double_to_int (numberDouble e) else Ok (- 2 ^ 31).

Definition getBoolField (o : BSONObj) (name : string) : bool :=
  match (getField o name).2 with VBool b => b | _ => false end.

(** [getStringField]: a C string, so it ends at an embedded NUL. *)
Definition getStringField (o : BSONObj) (name : string) : string :=
  match (getField o name).2 with VString s => c_string s | _ => "" end.

(** [getFieldDotted]: each recursive call drops at least the dot. *)
Fixpoint getFieldDotted_fuel (fuel : nat) (o : BSONObj) (name : string) : BSONElement :=
  let e := getField o name in
  if eoo e then
    match fuel, StringData_find name "." 0 with
    | S fuel, Some dot_offset =>
        let sub := getObjectField o (str_take dot_offset name) in
        if isEmpty sub then eooElement
        else getFieldDotted_fuel fuel sub (str_drop (dot_offset + 1) name)
    | _, _ => e
    end
  else e.

Definition getFieldDotted (o : BSONObj) (name : string) : BSONElement :=
  getFieldDotted_fuel (String.length name) o name.

Definition nFields (o : BSONObj) : Z := Z.of_nat (length o).

Definition removeField (o : BSONObj) (name : string) : BSONObj :=
  filter (λ e : BSONElement, StringData_eqb name (fieldName e) = false) o.

(** ** Builders *)

Definition append (b : BSONObj) (name : string) (v : value) : BSONObj := b ++ [(name, v)].

Definition append_element (b : BSONObj) (e : BSONElement) : res BSONObj :=
  _ ← verify "!e.eoo()" (negb (eoo e)); Ok (b ++ [e]).

Definition appendAs (b : BSONObj) (e : BSONElement) (name : string) : res BSONObj :=
  _ ← verify "!e.eoo()" (negb (eoo e)); Ok (b ++ [(name, e.2)]).

Definition appendElements (b x : BSONObj) : BSONObj := if isEmpty x then b else b ++ x.

(** The names already present are those before the call, so duplicates within
    [x] are kept. *)
Definition appendElementsUnique (b x : BSONObj) : BSONObj :=
  b ++ filter (λ e : BSONElement, fieldName e ∉ map fieldName b) x.

(** [BSONObjBuilder::numStr]. *)
Fixpoint digits_fuel (fuel : nat) (n : Z) : string :=
  match fuel with
  | O => ""
  | S fuel =>
      (if n <? 10 then "" else digits_fuel fuel (n / 10))
        +:+ String (byte_of (48 + n mod 10)) ""
  end.

Definition numStr (i : Z) : string :=
  if i <? 0 then "-" +:+ digits_fuel 20 (- i) else digits_fuel 20 i.

(** [BSONArrayBuilder]: elements are named by their position. *)
Definition arr_append (b : BSONObj) (v : value) : BSONObj :=
  b ++ [(numStr (Z.of_nat (length b)), v)].

Definition arr_of (vs : list value) : BSONObj := foldl arr_append [] vs.

(** [appendNumber(name, long long)]. *)
Definition appendNumber (b : BSONObj) (name : string) (n : Z) : BSONObj :=
  if (- 2 ^ 30 <? n) && (n <? 2 ^ 30) then append b name (VInt n)
  else if (- 2 ^ 40 <? n) && (n <? 2 ^ 40) then append b name (VDouble (double_of_Z n))
  else append b name (VLong n).

Definition appendIntOrLL (b : BSONObj) (name : string) (n : Z) : BSONObj :=
  let maxInt := (2 ^ 31 - 1) / 2 in
  if (- maxInt <? n) && (n <? maxInt) then append b name (VInt n) else append b name (VLong n).

(** ** Induction and equality *)

Section value_ind.
Context (P : value → Prop).
Hypothesis HMinKey : P VMinKey.
Hypothesis HEOO : P VEOO.
Hypothesis HDouble : ∀ d, P (VDouble d).
Hypothesis HString : ∀ s, P (VString s).
Hypothesis HObject : ∀ o, Forall (λ e : BSONElement, P e.2) o → P (VObject o).
Hypothesis HArray : ∀ o, Forall (λ e : BSONElement, P e.2) o → P (VArray o).
Hypothesis HBinData : ∀ t d, P (VBinData t d).
Hypothesis HUndefined : P VUndefined.
Hypothesis HOID : ∀ o, P (VOID o).
Hypothesis HBool : ∀ b, P (VBool b).
Hypothesis HDate : ∀ m, P (VDate m).
Hypothesis HNull : P VNull.
Hypothesis HRegEx : ∀ p f, P (VRegEx p f).
Hypothesis HDBRef : ∀ n o, P (VDBRef n o).
Hypothesis HCode : ∀ s, P (VCode s).
Hypothesis HSymbol : ∀ s, P (VSymbol s).
Hypothesis HCodeWScope : ∀ c o, Forall (λ e : BSONElement, P e.2) o → P (VCodeWScope c o).
Hypothesis HInt : ∀ n, P (VInt n).
Hypothesis HTimestamp : ∀ t, P (VTimestamp t).
Hypothesis HLong : ∀ n, P (VLong n).
Hypothesis HMaxKey : P VMaxKey.

(** Induction over values, with the hypothesis for every embedded element. *)
Fixpoint value_ind' (v : value) : P v :=
  let elems := fix go (o : BSONObj) : Forall (λ e : BSONElement, P e.2) o :=
    match o with
    | [] => Forall_nil_2 _
    | e :: o => Forall_cons_2 _ _ _
        (match e as e return P e.2 with (_, w) => value_ind' w end) (go o)
    end in
  match v with
  | VMinKey => HMinKey | VEOO => HEOO | VDouble d => HDouble d | VString s => HString s
  | VObject o => HObject o (elems o) | VArray o => HArray o (elems o)
  | VBinData t d => HBinData t d | VUndefined => HUndefined | VOID o => HOID o
  | VBool b => HBool b | VDate m => HDate m | VNull => HNull
  | VRegEx p f => HRegEx p f | VDBRef n o => HDBRef n o | VCode s => HCode s
  | VSymbol s => HSymbol s | VCodeWScope c o => HCodeWScope c o (elems o)
  | VInt n => HInt n | VTimestamp t => HTimestamp t | VLong n => HLong n
  | VMaxKey => HMaxKey
  end.
End value_ind.

(** ** Fields *)

Lemma getField_head e o name : fieldName e = name → getField (e :: o) name = e.
Proof. intros <-. simpl. by rewrite (proj2 (StringData_eqb_eq _ _) eq_refl). Qed.

Lemma getField_skip e o name : fieldName e ≠ name → getField (e :: o) name = getField o name.
Proof.
  intros Hne. simpl. destruct (StringData_eqb name (fieldName e)) eqn:Heq; [|done].
  apply StringData_eqb_eq in Heq. congruence.
Qed.

Lemma getField_app_None o1 o2 name :
  (∀ e, e ∈ o1 → fieldName e ≠ name) → getField (o1 ++ o2) name = getField o2 name.
Proof.
  induction o1 as [|e o1 IH]; intros Hne; [done|].
  change ((e :: o1) ++ o2) with (e :: (o1 ++ o2)).
  rewrite getField_skip by (apply Hne; set_solver). apply IH. set_solver.
Qed.

Lemma getField_elem o name : eoo (getField o name) = false →
  getField o name ∈ o ∧ fieldName (getField o name) = name.
Proof.
  induction o as [|e o IH]; [done|]. simpl.
  destruct (StringData_eqb name (fieldName e)) eqn:Heq; intros Hne.
  - apply StringData_eqb_eq in Heq. split; [set_solver|done].
  - destruct (IH Hne). split; [set_solver|done].
Qed.

Lemma getField_missing o name : (∀ e, e ∈ o → fieldName e ≠ name) → getField o name = eooElement.
Proof. intros Hne. rewrite <-(app_nil_r o), getField_app_None by done. done. Qed.

(** The dot lookup never runs out of fuel: more fuel changes nothing. *)
Lemma getFieldDotted_fuel_enough f1 f2 o name :
  (String.length name ≤ f1)%nat → (String.length name ≤ f2)%nat →
  getFieldDotted_fuel f1 o name = getFieldDotted_fuel f2 o name.
Proof.
  revert f2 o name. induction f1 as [|f1 IH]; intros f2 o name H1 H2.
  - destruct name; simpl in H1; [|lia]. by destruct f2.
  - destruct f2 as [|f2].
    + destruct name; simpl in H2; [done|lia].
    + cbn [getFieldDotted_fuel]. destruct (eoo (getField o name)); [|done].
      destruct (StringData_find name "." 0) as [i|] eqn:Hi; [|done].
      destruct (isEmpty _); [done|].
      apply IH; rewrite str_drop_length; destruct name; simpl in *; lia.
Qed.
