(* ===== verification/BsonBytes.v ===== *)
(** * BSON on the wire

    The byte layout the builders of bson/bsonobjbuilder.h write and the one the
    iterators and accessors of bson/bsonobjiterator.h, bson/bsonelement.h and
    bson/bson-inl.h read.  A published message crosses the sockets as these
    bytes, so reading back what was written is what delivery rests on.  A
    pointer into a buffer is the rest of the buffer; a read past its end is
    undefined behaviour. *)

From S2P Require Import Prelude StdMap Bytes Oid Doubles Bson.

Definition BSONObjMaxUserSize : Z := 16 * 1024 * 1024.
Definition BSONObjMaxInternalSize : Z := BSONObjMaxUserSize + 16 * 1024.

(** ** Writing *)

(** [BufBuilder::appendStr]: the characters and a terminating NUL. *)
Definition appendStr (s : string) : string := s +:+ String NUL "".
Definition appendInt (n : Z) : string := le_bytes 4 n.

Definition type_byte (v : value) : ascii := byte_of (BSONType_code (vtype v)).

Definition enc_elems (enc : value → string) : BSONObj → string :=
  fix go o :=
    match o with
    | [] => ""
    | (name, v) :: o => String (type_byte v) (appendStr name +:+ enc v +:+ go o)
    end.

(** [_done()]: the size in front, the end marker behind. *)
Definition done_obj (body : string) : string :=
  appendInt (Z.of_nat (String.length body) + 5) +:+ body +:+ String NUL "".

(** The bytes the [append] of each type writes after the name. *)
Fixpoint enc_value (v : value) : string :=
  match v with
  | VMinKey | VEOO | VUndefined | VNull | VMaxKey => ""
  | VDouble d => le_bytes 8 d
  | VString s | VCode s | VSymbol s => appendInt (Z.of_nat (String.length s) + 1) +:+ appendStr s
  | VObject o | VArray o => done_obj (enc_elems enc_value o)
  | VBinData t d => appendInt (Z.of_nat (String.length d)) +:+ String (byte_of t) d
  | VOID o => oid_data o
  | VBool b => String (byte_of (if b then 1 else 0)) ""
  | VDate m => le_bytes 8 m
  | VRegEx p f => appendStr p +:+ appendStr f
  | VDBRef ns o =>
      appendInt (Z.of_nat (String.length ns) + 1) +:+ appendStr ns +:+ oid_data o
  | VCodeWScope c o =>
      let scope := done_obj (enc_elems enc_value o) in
      appendInt (4 + 4 + Z.of_nat (String.length c) + 1 + Z.of_nat (String.length scope))
        +:+ appendInt (Z.of_nat (String.length c) + 1) +:+ appendStr c +:+ scope
  | VInt n => appendInt n
  | VTimestamp t => le_bytes 8 t
  | VLong n => le_bytes 8 n
  end.

Definition enc_body (o : BSONObj) : string := enc_elems enc_value o.
Definition objdata (o : BSONObj) : string := done_obj (enc_body o).
Definition enc_elem (e : BSONElement) : string :=
  String (type_byte e.2) (appendStr e.1 +:+ enc_value e.2).

(** ** Reading *)

Definition past_end : exn := UndefinedBehaviour "read past the end of the buffer".

Definition read_bytes (n : nat) (p : string) : res string :=
  if (String.length p <? n)%nat then Throw past_end else Ok (str_take n p).

Definition read_int (p : string) : res Z :=
  s ← read_bytes 4 p; Ok (to_signed 32 (le_val s)).
Definition read_uint (p : string) : res Z := s ← read_bytes 4 p; Ok (le_val s).
Definition read_long (p : string) : res Z :=
  s ← read_bytes 8 p; Ok (to_signed 64 (le_val s)).
Definition read_ulong (p : string) : res Z := s ← read_bytes 8 p; Ok (le_val s).

(** [strlen]. *)
Definition strlen (p : string) : res nat :=
  match str_index NUL p with Some i => Ok i | None => Throw past_end end.

Definition raw_type (p : string) : res (option BSONType) :=
  s ← read_bytes 1 p; Ok (BSONType_of_code (to_signed 8 (le_val s))).

(** Name and value of an element, as [fieldNameSize()] locates them; the end
    marker has no name. *)
Definition raw_fieldNameSize (p : string) : res nat :=
  t ← raw_type p;
  if decide (t = Some EOO) then Ok 0%nat
  else n ← strlen (str_drop 1 p); Ok (S n).
Definition raw_fieldName (p : string) : res string :=
  n ← raw_fieldNameSize p; Ok (str_take (n - 1) (str_drop 1 p)).
Definition raw_value (p : string) : res string :=
  n ← raw_fieldNameSize p; Ok (str_drop (n + 1) p).

(** [BSONElement::size()]: the bytes of a whole element. *)
Definition raw_valuesize (t : option BSONType) (v : string) : res Z :=
  match t with
  | Some EOO | Some Undefined | Some jstNULL | Some MaxKey | Some MinKey => Ok 0
  | Some Bool => Ok 1
  | Some NumberInt => Ok 4
  | Some Timestamp | Some Date | Some NumberDouble | Some NumberLong => Ok 8
  | Some jstOID => Ok 12
  | Some Symbol | Some Code | Some String_ => n ← read_int v; Ok (n + 4)
  | Some DBRef => n ← read_int v; Ok (n + 4 + 12)
  | Some CodeWScope | Some Object | Some Array => read_uint v
  | Some BinData => n ← read_int v; Ok (n + 4 + 1)
  | Some RegEx =>
      len1 ← strlen v; len2 ← strlen (str_drop (len1 + 1) v);
      Ok (Z.of_nat len1 + 1 + Z.of_nat len2 + 1)
  | None => Throw (MsgAssertionException 10320 "BSONElement: bad type")
  end.

Definition raw_size (p : string) : res Z :=
  t ← raw_type p;
  if decide (t = Some EOO) then Ok 1
  else
    n ← raw_fieldNameSize p; v ← raw_value p; x ← raw_valuesize t v;
    Ok (x + Z.of_nat n + 1).

(** The [BSONObj] constructor from a buffer: the cursory check of [init]. *)
Definition BSONObj_init (p : string) : res Z :=
  size ← read_int p;
  _ ← massert 10334 "BSONObj size is invalid" ((0 <? size) && (size <=? BSONObjMaxInternalSize));
  Ok size.

(** [str()], [dbrefNS()] and the other counted strings: [n] includes the NUL. *)
Definition read_str (v : string) : res string :=
  n ← read_int v; read_bytes (Z.to_nat (n - 1)) (str_drop 4 v).

(** Objects as their iterators enumerate them: [dec_elems] is the loop over a
    [BSONObjIterator] at [_pos] with end [_theend], [dec_value] the accessor of
    the element's type. *)
Fixpoint dec_elems (fuel : nat) (buf : string) (pos theend : Z) : res BSONObj :=
  match fuel with
  | O => Throw OutOfFuel
  | S fuel =>
      if pos <? theend then
        let p := str_drop (Z.to_nat pos) buf in
        size ← raw_size p; t ← raw_type p;
        name ← raw_fieldName p; v ← raw_value p;
        w ← dec_value fuel t v;
        rest ← dec_elems fuel buf (pos + size) theend;
        Ok ((name, w) :: rest)
      else Ok []
  end
with dec_value (fuel : nat) (t : option BSONType) (v : string) : res value :=
  match fuel with
  | O => Throw OutOfFuel
  | S fuel =>
      let dec_obj p := size ← BSONObj_init p; dec_elems fuel p 4 (size - 1) in
      match t with
      | Some EOO => Ok VEOO
      | Some MinKey => Ok VMinKey
      | Some MaxKey => Ok VMaxKey
      | Some Undefined => Ok VUndefined
      | Some jstNULL => Ok VNull
      | Some NumberDouble => d ← read_ulong v; Ok (VDouble d)
      | Some String_ => s ← read_str v; Ok (VString s)
      | Some Code => s ← read_str v; Ok (VCode s)
      | Some Symbol => s ← read_str v; Ok (VSymbol s)
      | Some Object => o ← dec_obj v; Ok (VObject o)
      | Some Array => o ← dec_obj v; Ok (VArray o)
      | Some BinData =>
          n ← read_int v; c ← read_bytes 1 (str_drop 4 v);
          d ← read_bytes (Z.to_nat n) (str_drop 5 v); Ok (VBinData (le_val c) d)
      | Some jstOID => d ← read_bytes 12 v; Ok (VOID (mkOID d))
      | Some Bool => c ← read_bytes 1 v; Ok (VBool (negb (le_val c =? 0)))
      | Some Date => m ← read_ulong v; Ok (VDate m)
      | Some RegEx =>
          n1 ← strlen v; n2 ← strlen (str_drop (n1 + 1) v);
          Ok (VRegEx (str_take n1 v) (str_take n2 (str_drop (n1 + 1) v)))
      | Some DBRef =>
          n ← read_int v; ns ← read_str v;
          d ← read_bytes 12 (str_drop (4 + Z.to_nat n) v); Ok (VDBRef ns (mkOID d))
      | Some CodeWScope =>
          code ← read_str (str_drop 4 v); n ← read_int (str_drop 4 v);
          o ← dec_obj (str_drop (4 + 4 + Z.to_nat n) v); Ok (VCodeWScope code o)
      | Some NumberInt => n ← read_int v; Ok (VInt n)
      | Some Timestamp => n ← read_ulong v; Ok (VTimestamp n)
      | Some NumberLong => n ← read_long v; Ok (VLong n)
      | None => Throw (MsgAssertionException 10320 "BSONElement: bad type")
      end
  end.

(** The object a buffer holds; the fuel is the length of the buffer, which
    exceeds the number of elements and the nesting of any object in it. *)
Definition BSONObj_of_bytes (p : string) : res BSONObj :=
  size ← BSONObj_init p; dec_elems (String.length p) p 4 (size - 1).

(** ** Well-formed values *)

Definition no_nul (s : string) : Prop := NUL ∉ String.list_ascii_of_string s.
Definition small (s : string) : Prop := Z.of_nat (String.length s) < 2 ^ 30.

Definition elems_wf (wf : value → Prop) : BSONObj → Prop :=
  fix go o :=
    match o with
    | [] => True
    | (name, v) :: o => no_nul name ∧ wf v ∧ go o
    end.

(** The size check [BSONObj_init] makes on reading is part of being
    well-formed: a bigger embedded object could be built but not read. *)
Fixpoint value_wf (v : value) : Prop :=
  match v with
  | VEOO => False
  | VMinKey | VUndefined | VNull | VMaxKey | VBool _ | VOID _ => True
  | VDouble d => uint64 d
  | VString s | VCode s | VSymbol s => small s
  | VObject o | VArray o =>
      elems_wf value_wf o ∧ Z.of_nat (String.length (objdata o)) ≤ BSONObjMaxInternalSize
  | VBinData t d => 0 ≤ t < 256 ∧ small d
  | VDate m => uint64 m
  | VRegEx p f => no_nul p ∧ no_nul f
  | VDBRef ns _ => small ns
  | VCodeWScope c o =>
      small c ∧ elems_wf value_wf o ∧
      Z.of_nat (String.length (objdata o)) ≤ BSONObjMaxInternalSize
  | VInt n => int32 n
  | VTimestamp t => uint64 t
  | VLong n => int64 n
  end.

Definition obj_wf (o : BSONObj) : Prop :=
  elems_wf value_wf o ∧ Z.of_nat (String.length (objdata o)) ≤ BSONObjMaxInternalSize.

(** ** Reading what was written *)

Lemma str_drop_app_plus a b n : str_drop (String.length a + n) (a +:+ b) = str_drop n b.
Proof. by rewrite str_drop_add, str_drop_app. Qed.

Lemma read_bytes_app a b n : String.length a = n → read_bytes n (a +:+ b) = Ok a.
Proof.
  intros <-. unfold read_bytes. rewrite str_app_length, str_take_app.
  case_match eqn:Hlt; [apply Nat.ltb_lt in Hlt; lia|done].
Qed.

Lemma read_int_app n b : int32 n → read_int (appendInt n +:+ b) = Ok n.
Proof.
  intros Hn. unfold read_int. rewrite read_bytes_app by apply le_bytes_length.
  cbn [mbind res_bind]. unfold appendInt. rewrite le_val_bytes. f_equal. apply (to_signed_id 32); [done|].
  apply Hn.
Qed.

Lemma read_uint_app n b : 0 ≤ n < 2 ^ 32 → read_uint (appendInt n +:+ b) = Ok n.
Proof.
  intros Hn. unfold read_uint. rewrite read_bytes_app by apply le_bytes_length.
  cbn [mbind res_bind]. unfold appendInt. rewrite le_val_bytes. f_equal. by apply Z.mod_small.
Qed.

Lemma read_long_app n b : int64 n → read_long (le_bytes 8 n +:+ b) = Ok n.
Proof.
  intros Hn. unfold read_long. rewrite read_bytes_app by apply le_bytes_length.
  cbn [mbind res_bind]. rewrite le_val_bytes. f_equal. apply (to_signed_id 64); [done|].
  apply Hn.
Qed.

Lemma read_ulong_app n b : uint64 n → read_ulong (le_bytes 8 n +:+ b) = Ok n.
Proof.
  intros Hn. unfold read_ulong. rewrite read_bytes_app by apply le_bytes_length.
  cbn [mbind res_bind]. rewrite le_val_bytes. f_equal. apply Z.mod_small, Hn.
Qed.

Lemma str_index_app_nul s t : no_nul s → str_index NUL (appendStr s +:+ t) = Some (String.length s).
Proof.
  unfold no_nul, appendStr. induction s as [|c s IH]; simpl; [done|]. intros Hn.
  destruct (Ascii.eqb_spec c NUL) as [->|Hc]; [set_solver|].
  rewrite IH by set_solver. done.
Qed.

Lemma strlen_app s t : no_nul s → strlen (appendStr s +:+ t) = Ok (String.length s).
Proof. intros Hn. unfold strlen. by rewrite str_index_app_nul. Qed.

Lemma appendStr_length s : String.length (appendStr s) = S (String.length s).
Proof. unfold appendStr. rewrite str_app_length. simpl. lia. Qed.

Lemma str_drop_appendStr s t : str_drop (String.length s + 1) (appendStr s +:+ t) = t.
Proof.
  replace (String.length s + 1)%nat with (String.length (appendStr s))
    by (rewrite appendStr_length; lia). apply str_drop_app.
Qed.

Lemma appendInt_length n : String.length (appendInt n) = 4%nat.
Proof. apply le_bytes_length. Qed.

Lemma str_drop_appendInt n k t : str_drop (4 + k) (appendInt n +:+ t) = str_drop k t.
Proof. rewrite <-(appendInt_length n). apply str_drop_app_plus. Qed.

Lemma read_str_app s t : small s →
  read_str (appendInt (Z.of_nat (String.length s) + 1) +:+ appendStr s +:+ t) = Ok s.
Proof.
  intros Hs. unfold small in Hs. unfold read_str. rewrite read_int_app by (unfold int32; lia).
  cbn [mbind res_bind]. rewrite (str_drop_appendInt _ 0). cbn [str_drop].
  unfold appendStr. rewrite str_app_assoc. apply read_bytes_app. lia.
Qed.

Lemma BSONType_of_code_code t : BSONType_of_code (BSONType_code t) = Some t.
Proof. by destruct t. Qed.

Lemma raw_type_elem v t : raw_type (String (type_byte v) t) = Ok (Some (vtype v)).
Proof.
  unfold raw_type. change (String (type_byte v) t) with (String (type_byte v) "" +:+ t).
  rewrite read_bytes_app by done. cbn [mbind res_bind]. rewrite <-BSONType_of_code_code.
  do 2 f_equal. by destruct v.
Qed.

Lemma value_wf_not_EOO v : value_wf v → vtype v ≠ EOO.
Proof. by destruct v. Qed.

Section element.
Context (name : string) (v : value) (rest : string).
Hypothesis Hname : no_nul name.
Hypothesis Hv : value_wf v.

Let p := String (type_byte v) (appendStr name +:+ enc_value v +:+ rest).

Lemma raw_fieldNameSize_elem : raw_fieldNameSize p = Ok (S (String.length name)).
Proof.
  unfold raw_fieldNameSize, p. rewrite raw_type_elem. cbn [mbind res_bind].
  rewrite decide_False by (intros [= ?]; by apply (value_wf_not_EOO v)).
  cbn [str_drop]. by rewrite strlen_app.
Qed.

Lemma raw_fieldName_elem : raw_fieldName p = Ok name.
Proof.
  unfold raw_fieldName. rewrite raw_fieldNameSize_elem. cbn [mbind res_bind]. f_equal.
  unfold p. cbn [str_drop]. replace (S (String.length name) - 1)%nat with (String.length name) by lia.
  unfold appendStr. rewrite str_app_assoc. apply str_take_app.
Qed.

Lemma raw_value_elem : raw_value p = Ok (enc_value v +:+ rest).
Proof.
  unfold raw_value. rewrite raw_fieldNameSize_elem. cbn [mbind res_bind]. f_equal.
  unfold p. replace (S (String.length name) + 1)%nat with (S (String.length name + 1)) by lia.
  cbn [str_drop]. apply str_drop_appendStr.
Qed.
End element.

Lemma done_obj_length b : String.length (done_obj b) = (String.length b + 5)%nat.
Proof. unfold done_obj. rewrite !str_app_length, appendInt_length. simpl. lia. Qed.

Lemma objdata_size o : Z.of_nat (String.length (objdata o)) ≤ BSONObjMaxInternalSize →
  0 ≤ Z.of_nat (String.length (enc_body o)) + 5 ≤ BSONObjMaxInternalSize.
Proof. unfold objdata. rewrite done_obj_length. lia. Qed.

(** Lengths of what the builders write. *)
Ltac enc_length :=
  rewrite ?str_app_length, ?appendInt_length, ?appendStr_length, ?le_bytes_length,
    ?done_obj_length, ?oid_length; unfold kOIDSize; cbn [String.length].

(** Lets the next read consume the field the encoder put in front. *)
Ltac enc_read :=
  rewrite ?str_app_assoc;
  first [ rewrite read_int_app by (unfold int32, small in *; lia)
        | rewrite read_uint_app by (unfold small in *; lia)
        | rewrite read_ulong_app by done
        | rewrite read_long_app by done
        | rewrite read_str_app by done
        | rewrite strlen_app by done
        | rewrite str_drop_appendStr
        | rewrite (str_drop_appendInt _ 0); cbn [str_drop]
        | rewrite str_drop_appendInt ];
  cbn [mbind res_bind].

Lemma read_uint_obj o rest : Z.of_nat (String.length (objdata o)) ≤ BSONObjMaxInternalSize →
  read_uint (done_obj (enc_body o) +:+ rest) = Ok (Z.of_nat (String.length (done_obj (enc_body o)))).
Proof.
  intros Hsz%objdata_size. unfold BSONObjMaxInternalSize, BSONObjMaxUserSize in Hsz.
  rewrite done_obj_length. unfold done_obj. enc_read. f_equal. lia.
Qed.

(** [size()] of a written element is the number of bytes written. *)
Lemma raw_valuesize_enc v rest : value_wf v →
  raw_valuesize (Some (vtype v)) (enc_value v +:+ rest)
  = Ok (Z.of_nat (String.length (enc_value v))).
Proof.
  destruct v; cbn [vtype raw_valuesize enc_value value_wf]; try done; intros Hwf;
    try (by rewrite le_bytes_length); try (by rewrite oid_length).
  all: try (enc_read; f_equal; enc_length; lia).
  - apply read_uint_obj, Hwf.
  - apply read_uint_obj, Hwf.
  - destruct Hwf. repeat enc_read. f_equal. enc_length. lia.
  - destruct Hwf as (Hc & _ & Hsz%objdata_size).
    unfold BSONObjMaxInternalSize, BSONObjMaxUserSize in Hsz. unfold small in Hc.
    rewrite str_app_assoc, read_uint_app; [|rewrite done_obj_length; fold (enc_body scope); lia].
    f_equal. enc_length. lia.
Qed.

Lemma raw_size_elem name v rest : no_nul name → value_wf v →
  raw_size (String (type_byte v) (appendStr name +:+ enc_value v +:+ rest))
  = Ok (Z.of_nat (String.length (enc_elem (name, v)))).
Proof.
  intros Hn Hv. unfold raw_size.
  rewrite raw_type_elem, raw_fieldNameSize_elem, raw_value_elem by done. cbn [mbind res_bind].
  rewrite decide_False by (intros [= ?]; by apply (value_wf_not_EOO v)).
  rewrite raw_valuesize_enc by done. cbn [mbind res_bind]. f_equal.
  unfold enc_elem. cbn [fst snd String.length]. enc_length. lia.
Qed.

Lemma enc_body_cons name v o rest :
  enc_body ((name, v) :: o) +:+ rest
  = String (type_byte v) (appendStr name +:+ enc_value v +:+ enc_body o +:+ rest).
Proof. unfold enc_body. simpl. by rewrite !str_app_assoc. Qed.

Lemma enc_body_cons_length name v o :
  String.length (enc_body ((name, v) :: o))
  = (String.length (enc_elem (name, v)) + String.length (enc_body o))%nat.
Proof. unfold enc_body, enc_elem. simpl. rewrite !str_app_length. lia. Qed.

Definition reads_back (v : value) : Prop :=
  value_wf v → ∀ fuel rest, (String.length (enc_value v) < fuel)%nat →
  dec_value fuel (Some (vtype v)) (enc_value v +:+ rest) = Ok v.

Lemma dec_elems_enc o : Forall (λ e : BSONElement, reads_back e.2) o → elems_wf value_wf o →
  ∀ fuel pre rest, (String.length (enc_body o) < fuel)%nat →
  dec_elems fuel (pre +:+ enc_body o +:+ rest) (Z.of_nat (String.length pre))
    (Z.of_nat (String.length pre + String.length (enc_body o))) = Ok o.
Proof.
  induction 1 as [|[name v] o Hv _ IH]; intros Hwf fuel pre rest Hf;
    (destruct fuel as [|fuel]; [lia|]); cbn [dec_elems].
  - case_match eqn:Hlt; [|done]. apply Z.ltb_lt in Hlt. simpl in Hlt. lia.
  - destruct Hwf as (Hn & Hvw & How). rewrite enc_body_cons_length in *.
    assert (String.length (enc_elem (name, v)) = S (S (String.length name + String.length (enc_value v)))) as Hel.
    { unfold enc_elem. cbn [fst snd String.length]. enc_length. lia. }
    rewrite (proj2 (Z.ltb_lt _ _)) by lia.
    rewrite Nat2Z.id, str_drop_app, enc_body_cons.
    rewrite raw_size_elem, raw_type_elem, raw_fieldName_elem, raw_value_elem by done.
    cbn [mbind res_bind]. change (reads_back v) in Hv. rewrite (Hv Hvw) by lia.
    cbn [mbind res_bind].
    replace (pre +:+ String (type_byte v) (appendStr name +:+ enc_value v +:+ enc_body o +:+ rest))
      with ((pre +:+ enc_elem (name, v)) +:+ enc_body o +:+ rest)
      by (unfold enc_elem; rewrite !str_app_assoc; simpl; by rewrite !str_app_assoc).
    rewrite <-Nat2Z.inj_add, Nat.add_assoc, <-str_app_length, (IH How) by lia. done.
Qed.

(** The bytes of an object, followed by anything, read back as the object. *)
Lemma dec_obj_enc o rest fuel :
  Forall (λ e : BSONElement, reads_back e.2) o → obj_wf o →
  (String.length (enc_body o) < fuel)%nat →
  (size ← BSONObj_init (done_obj (enc_body o) +:+ rest);
   dec_elems fuel (done_obj (enc_body o) +:+ rest) 4 (size - 1)) = Ok o.
Proof.
  intros Hrb [Hwf Hsz%objdata_size] Hf.
  assert (Hmax := Hsz). unfold BSONObjMaxInternalSize, BSONObjMaxUserSize in Hmax.
  unfold BSONObj_init, done_obj. enc_read.
  unfold massert. rewrite (proj2 (andb_true_iff _ _))
    by (rewrite Z.ltb_lt, Z.leb_le; lia). cbn [mbind res_bind].
  pose proof (dec_elems_enc o Hrb Hwf fuel
    (appendInt (Z.of_nat (String.length (enc_body o)) + 5)) (String NUL "" +:+ rest) Hf) as Hd.
  rewrite appendInt_length in Hd. rewrite <-Hd. f_equal. lia.
Qed.

Lemma dec_value_enc v : reads_back v.
Proof.
  induction v as [| | | |o IH|o IH| | | | | | | | | | |c o IH| | | |] using value_ind';
    intros Hwf fuel rest Hf; (destruct fuel as [|fuel]; [lia|]);
    cbn [dec_value vtype enc_value value_wf] in *; try done; try (by enc_read).
  - fold (enc_body o) in *. rewrite done_obj_length in Hf.
    rewrite dec_obj_enc by (done || lia). done.
  - fold (enc_body o) in *. rewrite done_obj_length in Hf.
    rewrite dec_obj_enc by (done || lia). done.
  - destruct Hwf as [Ht Hd]. enc_read.
    rewrite (str_drop_appendInt _ 0), (str_drop_appendInt _ 1).
    change (str_drop 1 (String (byte_of t) d +:+ rest)) with (d +:+ rest). cbn [str_drop].
    change (String (byte_of t) d +:+ rest) with (String (byte_of t) "" +:+ (d +:+ rest)).
    rewrite (read_bytes_app (String (byte_of t) "")) by done. cbn [mbind res_bind].
    rewrite read_bytes_app by lia. cbn [mbind res_bind le_val].
    rewrite byte_val_of, Z.mod_small by lia. do 2 f_equal. lia.
  - rewrite read_bytes_app by apply oid_length. cbn [mbind res_bind]. by rewrite mkOID_oid.
  - rewrite read_bytes_app by done. cbn [mbind res_bind]. by destruct b.
  - destruct Hwf as [Hp Hq]. repeat enc_read. do 2 f_equal.
    + unfold appendStr. rewrite str_app_assoc. apply str_take_app.
    + unfold appendStr. rewrite str_app_assoc. apply str_take_app.
  - enc_read. enc_read. rewrite str_drop_appendInt.
    replace (Z.to_nat (Z.of_nat (String.length n) + 1)) with (String.length n + 1)%nat by lia.
    rewrite str_drop_appendStr, read_bytes_app by apply oid_length. cbn [mbind res_bind].
    by rewrite mkOID_oid.
  - destruct Hwf as (Hc & Hwf). fold (enc_body o) in *. enc_read. enc_read. enc_read.
    rewrite <-(Nat.add_assoc 4 4), !str_drop_appendInt.
    replace (Z.to_nat (Z.of_nat (String.length c) + 1)) with (String.length c + 1)%nat by lia.
    rewrite str_drop_appendStr, dec_obj_enc; [done|done|done|].
    revert Hf. enc_length. lia.
Qed.

Lemma BSONObj_roundtrip_app o rest : obj_wf o →
  BSONObj_of_bytes (objdata o +:+ rest) = Ok o.
Proof.
  intros Hwf. unfold BSONObj_of_bytes, objdata. apply dec_obj_enc; [|done|].
  - apply Forall_forall. intros e _. apply dec_value_enc.
  - rewrite str_app_length, done_obj_length. lia.
Qed.

Lemma BSONObj_roundtrip o : obj_wf o → BSONObj_of_bytes (objdata o) = Ok o.
Proof. intros Hwf. rewrite <-(str_app_nil_r (objdata o)). by apply BSONObj_roundtrip_app. Qed.

(** Distinct objects have distinct bytes. *)
Lemma objdata_inj a b : obj_wf a → obj_wf b → objdata a = objdata b → a = b.
Proof.
  intros Ha Hb Heq. apply BSONObj_roundtrip in Ha, Hb. rewrite Heq in Ha. congruence.
Qed.

(** [objsize()] is the number of bytes, and [isEmpty()] the test on it. *)
Lemma isEmpty_objsize o : isEmpty o = (Z.of_nat (String.length (objdata o)) <=? 5).
Proof.
  unfold objdata. rewrite done_obj_length. destruct o as [|[n v] o]; [done|].
  unfold enc_body. simpl. symmetry. apply Z.leb_gt. lia.
Qed.
