(* ===== verification/BsonValidate.v ===== *)
(** * Checking that a buffer holds BSON

    [validateBSON] (bson/bson_validate.cpp), which every document that arrives in a
    request goes through: a state machine with a stack of the objects it is in.  A
    buffer is a string of which the first [maxLength] bytes may be looked at;
    positions are [uint64_t] and wrap around.  A read outside of the string is
    undefined behaviour. *)

From S2P Require Import Prelude StdMap Bytes Oid Doubles Bson BsonBytes.

Definition wrap64 (z : Z) : Z := z mod 2 ^ 64.

(** A failed [Status]: the message and where the [_id] is that it shows, if one was
    validated. *)
Record bson_error := mkError { base_msg : string; shown_id : option Z }.

Definition makeError {A} (msg : string) (idElem : option Z) : bson_error + A := inl (mkError msg idElem).

Inductive vstate := BeginObj | WithinObj | EndObj | BeginCodeWScope | EndCodeWScope | Done.

#[global] Instance vstate_eq_dec : EqDecision vstate.
Proof. solve_decision. Defined.

(** Arithmetic on [int]. *)
Definition int_add (x y : Z) : res Z :=
  if (- 2 ^ 31 <=? x + y) && (x + y <? 2 ^ 31) then Ok (x + y) else Throw (UndefinedBehaviour "signed overflow").

(** [ValidationObjectFrame]: the start position has 31 bits. *)
Record vframe := mkFrame { startPosition : Z; isCodeWithScope : bool; expectedSize : Z }.

Section buffer.
Context (buf : string) (maxLength : Z).

(** The bytes from a position on; a pointer outside the buffer cannot be read from. *)
Definition bytes_at (pos : Z) (n : nat) : res string :=
  if pos <? 0 then Throw past_end else read_bytes n (str_drop (Z.to_nat pos) buf).

(** [readNumber]: the bytes of the number and the position behind it, or nothing. *)
Definition readNumber (n : nat) (pos : Z) : res (option (string * Z)) :=
  if maxLength <? wrap64 (pos + Z.of_nat n) then Ok None
  else s ← bytes_at pos n; Ok (Some (s, wrap64 (pos + Z.of_nat n))).

(** [memchr]. *)
Definition find_nul (pos : Z) : res (option Z) :=
  let n := wrap64 (maxLength - pos) in
  let rest := str_drop (Z.to_nat pos) buf in
  match str_index NUL rest with
  | Some i => if Z.of_nat i <? n then Ok (Some (Z.of_nat i)) else Ok None
  | None => if n <=? Z.of_nat (String.length rest) then Ok None else Throw past_end
  end.

(** What a read gives: undefined behaviour, an error or the new position. *)
Abbreviation vres := (res (bson_error + Z)).

Definition readCString (pos : Z) (idElem : option Z) : vres :=
  x ← find_nul pos;
  match x with
  | None => Ok (makeError "no end of c-string" idElem)
  | Some len => Ok (inr (wrap64 (pos + (len + 1))))
  end.

Definition skip (sz : Z) (pos : Z) : bool * Z :=
  let p := wrap64 (pos + wrap64 sz) in (p <? maxLength, p).

Definition skip_or (sz : Z) (pos : Z) (idElem : option Z) : vres :=
  let '(ok, p) := skip sz pos in
  if ok then Ok (inr p) else Ok (makeError "invalid bson" idElem).

Definition readUTF8String (pos : Z) (idElem : option Z) : vres :=
  r ← readNumber 4 pos;
  match r with
  | None => Ok (makeError "invalid bson" idElem)
  | Some (s, pos) =>
      n ← int_add (to_signed 32 (le_val s)) (-1);
      let '(ok, pos) := skip n pos in
      if negb ok then Ok (makeError "invalid bson" idElem)
      else
        r ← readNumber 1 pos;
        match r with
        | None => Ok (makeError "invalid bson" idElem)
        | Some (c, pos) =>
            if negb (le_val c =? 0) then Ok (makeError "not null terminated string" idElem)
            else Ok (inr pos)
        end
  end.

(** The position and the state after an element, or an error. *)
Definition validateElementInfo (pos : Z) (idElem : option Z) : res (bson_error + (Z * vstate)) :=
  r ← readNumber 1 pos;
  match r with
  | None => Ok (makeError "invalid bson" idElem)
  | Some (s, pos) =>
      let type := BSONType_of_code (to_signed 8 (le_val s)) in
      if decide (type = Some EOO) then Ok (inr (pos, EndObj))
      else
        name ← readCString pos idElem;
        match name with
        | inl e => Ok (inl e)
        | inr pos =>
            let within (r : vres) : res (bson_error + (Z * vstate)) :=
              x ← r; Ok (match x with inl e => inl e | inr pos => inr (pos, WithinObj) end) in
            match type with
            | Some MinKey | Some MaxKey | Some jstNULL | Some Undefined => Ok (inr (pos, WithinObj))
            | Some jstOID => within (skip_or 12 pos idElem)
            | Some NumberInt => within (skip_or 4 pos idElem)
            | Some Bool => within (skip_or 1 pos idElem)
            | Some NumberDouble | Some NumberLong | Some Timestamp | Some Date => within (skip_or 8 pos idElem)
            | Some DBRef =>
                r ← readUTF8String pos idElem;
                match r with
                | inl e => Ok (inl e)
                | inr pos => Ok (inr ((skip 12 pos).2, WithinObj))
                end
            | Some RegEx =>
                r ← readCString pos idElem;
                match r with
                | inl e => Ok (inl e)
                | inr pos => within (readCString pos idElem)
                end
            | Some Code | Some Symbol | Some String_ => within (readUTF8String pos idElem)
            | Some BinData =>
                r ← readNumber 4 pos;
                match r with
                | None => Ok (makeError "invalid bson" idElem)
                | Some (s, pos) => n ← int_add 1 (to_signed 32 (le_val s)); within (skip_or n pos idElem)
                end
            | Some CodeWScope => Ok (inr (pos, BeginCodeWScope))
            | Some Object | Some Array => Ok (inr (pos, BeginObj))
            | Some EOO | None => Ok (makeError "invalid bson type" idElem)
            end
        end
  end.

(** The variables of the loop of [validateBSONIterative]; the current frame is the
    first of the list. *)
Record vloop := mkLoop {
  vpos : Z;
  vst : vstate;
  vframes : list vframe;
  idElemStartPos : Z;
  idElem : option Z
}.

Definition frame_at (pos : Z) (cws : bool) (size : Z) : vframe := mkFrame (pos mod 2 ^ 31) cws size.

Definition actualLength (pos : Z) (f : vframe) : Z := to_signed 32 (wrap64 (pos - startPosition f)).

(** [strcmp(p, "_id") == 0]. *)
Definition named_id (pos : Z) : bool := StringData_startsWith (str_drop (Z.to_nat pos) buf) ("_id" +:+ String NUL "").

Definition vwithin (l : vloop) : res ((bson_error + unit) + vloop) :=
  let atTopLevel := (length (vframes l) =? 1)%nat in
  let '(idElem, start) :=
    if atTopLevel && negb (idElemStartPos l =? 0) then (Some (idElemStartPos l), 0) else (idElem l, idElemStartPos l) in
  r ← validateElementInfo (vpos l) idElem;
  match r with
  | inl e => Ok (inl (inl e))
  | inr (pos, next) =>
      let start :=
        if bool_decide (next ≠ EndObj) && bool_decide (idElem = None) && atTopLevel && named_id (vpos l + 1)
        then vpos l else start in
      Ok (inr (mkLoop pos next (vframes l) start idElem))
  end.

(** One round of the loop, or what it returns. *)
Definition vstep (l : vloop) : res ((bson_error + unit) + vloop) :=
  match vst l with
  | BeginObj =>
      r ← readNumber 4 (vpos l);
      match r with
      | None => Ok (inl (makeError "bson size is larger than buffer size" (idElem l)))
      | Some (s, pos) =>
          vwithin (mkLoop pos WithinObj (frame_at (vpos l) false (to_signed 32 (le_val s)) :: vframes l)
                     (idElemStartPos l) (idElem l))
      end
  | WithinObj => vwithin l
  | EndObj =>
      match vframes l with
      | [] => Throw (UndefinedBehaviour "no current frame")
      | f :: fs =>
          if negb (actualLength (vpos l) f =? expectedSize f)
          then Ok (inl (makeError "bson length doesn't match what we found" (idElem l)))
          else
            let next := match fs with
                        | [] => Done
                        | f :: _ => if isCodeWithScope f then EndCodeWScope else WithinObj
                        end in
            Ok (inr (mkLoop (vpos l) next fs (idElemStartPos l) (idElem l)))
      end
  | BeginCodeWScope =>
      r ← readNumber 4 (vpos l);
      match r with
      | None => Ok (inl (makeError "invalid bson CodeWScope size" (idElem l)))
      | Some (s, pos) =>
          x ← readUTF8String pos (idElem l);
          match x with
          | inl e => Ok (inl (inl e))
          | inr pos' =>
              Ok (inr (mkLoop pos' BeginObj (frame_at (vpos l) true (to_signed 32 (le_val s)) :: vframes l)
                         (idElemStartPos l) (idElem l)))
          end
      end
  | EndCodeWScope =>
      match vframes l with
      | [] => Throw (UndefinedBehaviour "no current frame")
      | f :: fs =>
          if negb (actualLength (vpos l) f =? expectedSize f)
          then Ok (inl (makeError "bson length for CodeWScope doesn't match what we found" (idElem l)))
          else
            match fs with
            | [] => Ok (inl (makeError "unnested CodeWScope" (idElem l)))
            | _ :: _ => Ok (inr (mkLoop (vpos l) WithinObj fs (idElemStartPos l) (idElem l)))
            end
      end
  | Done => Ok (inl (inr ()))
  end.

Fixpoint vrun (fuel : nat) (l : vloop) : res (bson_error + unit) :=
  match fuel with
  | O => Throw OutOfFuel
  | S fuel =>
      r ← vstep l;
      match r with
      | inl status => Ok status
      | inr l => vrun fuel l
      end
  end.

Definition validateBSONIterative (fuel : nat) : res (bson_error + unit) := vrun fuel (mkLoop 0 BeginObj [] 0 None).

Definition validateBSON (fuel : nat) : res (bson_error + unit) :=
  if maxLength <? 5 then Ok (inl (mkError "bson data has to be at least 5 bytes" None))
  else validateBSONIterative fuel.

End buffer.

(** ** A document on which it does not return *)

(** The size of the string "a" is -7: the position goes back to the element. *)
Definition endless : string :=
  le_bytes 4 12 +:+ String (byte_of 2) (appendStr "a") +:+ le_bytes 4 (-7) +:+ String NUL "".

Definition endless_loop : vloop := mkLoop 4 WithinObj [mkFrame 0 false 12] 0 None.

(** C38: there is a document of twelve bytes on which the check never returns: whatever the number of
    rounds of its loop, it is still in the same state. *)
Theorem validate_hangs (fuel : nat) :
  validateBSON endless (Z.of_nat (String.length endless)) fuel = Throw OutOfFuel.
Proof.
  assert (∀ n, vrun endless (Z.of_nat (String.length endless)) n endless_loop = Throw OutOfFuel) as Hl.
  { induction n as [|n IH]; [done|]. cbn [vrun].
    replace (vstep endless (Z.of_nat (String.length endless)) endless_loop) with (Ok (inr endless_loop : (bson_error + unit) + vloop))
      by (vm_compute; reflexivity). exact IH. }
  destruct fuel as [|n]; [done|].
  change (validateBSON endless (Z.of_nat (String.length endless)) (S n)) with
    (r ← vstep endless (Z.of_nat (String.length endless)) (mkLoop 0 BeginObj [] 0 None);
     match r with inl status => Ok status | inr l => vrun endless (Z.of_nat (String.length endless)) n l end).
  replace (vstep endless (Z.of_nat (String.length endless)) (mkLoop 0 BeginObj [] 0 None))
    with (Ok (inr endless_loop : (bson_error + unit) + vloop)) by (vm_compute; reflexivity). apply Hl.
Qed.

(** ** What the builders write is accepted *)

Section accept.
Context (buf : string).
Let max : Z := Z.of_nat (String.length buf).
Hypothesis Hbuf : max < 2 ^ 31.

(** The rest of the buffer from a position on. *)
Definition tail_at (pos : Z) (t : string) : Prop :=
  0 ≤ pos ∧ str_drop (Z.to_nat pos) buf = t ∧ pos + Z.of_nat (String.length t) = max.

Lemma tail_at_start : tail_at 0 buf.
Proof. split; [done|]. split; done. Qed.

Lemma tail_at_app pos a t : tail_at pos (a +:+ t) → tail_at (pos + Z.of_nat (String.length a)) t.
Proof.
  intros (Hp & Hd & Hl). split; [lia|]. split.
  - replace (Z.to_nat (pos + Z.of_nat (String.length a))) with (Z.to_nat pos + String.length a)%nat by lia.
    by rewrite str_drop_add, Hd, str_drop_app.
  - rewrite str_app_length in Hl. lia.
Qed.

Lemma wrap64_small z : 0 ≤ z < 2 ^ 64 → wrap64 z = z.
Proof. apply Z.mod_small. Qed.

Lemma readNumber_tail n pos a t : tail_at pos (a +:+ t) → String.length a = n →
  readNumber buf max n pos = Ok (Some (a, pos + Z.of_nat n)).
Proof.
  intros (Hp & Hd & Hl) Ha. rewrite str_app_length in Hl. unfold readNumber, bytes_at.
  rewrite wrap64_small by lia. rewrite (proj2 (Z.ltb_ge _ _)), (proj2 (Z.ltb_ge pos 0)) by lia.
  by rewrite Hd, read_bytes_app.
Qed.

Lemma readCString_tail pos s t id : tail_at pos (appendStr s +:+ t) → no_nul s →
  readCString buf max pos id = Ok (inr (pos + (Z.of_nat (String.length s) + 1))).
Proof.
  intros (Hp & Hd & Hl) Hs. rewrite str_app_length, appendStr_length in Hl. unfold readCString, find_nul.
  rewrite Hd, str_index_app_nul by done. rewrite wrap64_small by lia.
  rewrite (proj2 (Z.ltb_lt _ _)) by lia. cbn [mbind res_bind]. rewrite wrap64_small by lia. done.
Qed.

Lemma skip_tail n pos a t : tail_at pos (a +:+ t) → t ≠ "" → Z.of_nat (String.length a) = n →
  skip max n pos = (true, pos + n).
Proof.
  intros (Hp & Hd & Hl) Ht Hn. rewrite str_app_length in Hl. assert (0 < String.length t)%nat by (destruct t; [done|simpl; lia]).
  unfold skip. rewrite (wrap64_small n), wrap64_small by lia. by rewrite (proj2 (Z.ltb_lt _ _)) by lia.
Qed.

Lemma appendInt_val n : int32 n → to_signed 32 (le_val (appendInt n)) = n.
Proof.
  intros Hn. pose proof (read_int_app n "" Hn) as H. unfold read_int in H.
  rewrite (read_bytes_app _ _ _ (appendInt_length n)) in H. cbn [mbind res_bind] in H. congruence.
Qed.

Lemma int_add_ok x y : - 2 ^ 31 ≤ x + y < 2 ^ 31 → int_add x y = Ok (x + y).
Proof. intros ?. unfold int_add. by rewrite (proj2 (andb_true_iff _ _)) by (rewrite Z.leb_le, Z.ltb_lt; lia). Qed.

Lemma readUTF8_tail pos s t id :
  tail_at pos (appendInt (Z.of_nat (String.length s) + 1) +:+ appendStr s +:+ t) → small s →
  readUTF8String buf max pos id = Ok (inr (pos + (4 + Z.of_nat (String.length s) + 1))).
Proof.
  intros Ht Hs. unfold readUTF8String. rewrite (readNumber_tail 4 _ _ _ Ht) by apply appendInt_length.
  cbn [mbind res_bind]. unfold small in Hs. rewrite appendInt_val by (unfold int32; lia). rewrite int_add_ok by lia.
  cbn [mbind res_bind]. apply tail_at_app in Ht. rewrite appendInt_length in Ht.
  unfold appendStr in Ht. rewrite str_app_assoc in Ht.
  rewrite (skip_tail _ _ s (String NUL "" +:+ t)) by (done || lia). cbn [negb].
  apply tail_at_app in Ht. replace (pos + Z.of_nat 4 + (Z.of_nat (String.length s) + 1 + -1)) with
    (pos + Z.of_nat 4 + Z.of_nat (String.length s)) by lia.
  rewrite (readNumber_tail 1 _ _ _ Ht) by done. cbn [mbind res_bind]. cbn [le_val byte_val]. do 2 f_equal. lia.
Qed.

(** Where an element leads. *)
Definition after_info (pos : Z) (v : value) : Z * vstate :=
  match v with
  | VObject _ | VArray _ => (pos, BeginObj)
  | VCodeWScope _ _ => (pos, BeginCodeWScope)
  | _ => (pos + Z.of_nat (String.length (enc_value v)), WithinObj)
  end.

Lemma element_info pos name v t id : value_wf v → no_nul name → t ≠ "" →
  tail_at pos (String (type_byte v) (appendStr name +:+ enc_value v +:+ t)) →
  validateElementInfo buf max pos id = Ok (inr (after_info (pos + (Z.of_nat (String.length name) + 2)) v)).
Proof.
  intros Hv Hn Hne Ht. unfold validateElementInfo.
  change (String (type_byte v) (appendStr name +:+ enc_value v +:+ t)) with
    (String (type_byte v) "" +:+ appendStr name +:+ enc_value v +:+ t) in Ht.
  rewrite (readNumber_tail 1 _ _ _ Ht) by done. cbn [mbind res_bind].
  assert (BSONType_of_code (to_signed 8 (le_val (String (type_byte v) ""))) = Some (vtype v)) as -> by (by destruct v).
  rewrite decide_False by (intros [= ?]; by apply (value_wf_not_EOO v)).
  apply tail_at_app in Ht. cbn [String.length] in Ht. rewrite (readCString_tail _ _ _ _ Ht Hn). cbn [mbind res_bind].
  apply tail_at_app in Ht. rewrite appendStr_length in Ht.
  replace (pos + Z.of_nat 1 + Z.of_nat (S (String.length name))) with (pos + (Z.of_nat (String.length name) + 2)) in Ht by lia.
  replace (pos + Z.of_nat 1 + (Z.of_nat (String.length name) + 1)) with (pos + (Z.of_nat (String.length name) + 2)) by lia.
  set (p := pos + (Z.of_nat (String.length name) + 2)) in *. unfold after_info.
  destruct v; cbn [vtype enc_value value_wf] in *; try done; unfold skip_or;
    try (rewrite (skip_tail _ _ _ _ Ht Hne) by (rewrite ?le_bytes_length, ?oid_length; done);
         rewrite ?le_bytes_length, ?oid_length; done).
  all: rewrite ?str_app_assoc in Ht.
  all: try (rewrite (readUTF8_tail _ _ _ _ Ht Hv); cbn [mbind res_bind]; do 3 f_equal; enc_length; lia).
  all: try by rewrite Z.add_0_r.
  - destruct Hv as [_ Hv]. unfold small in Hv. rewrite (readNumber_tail 4 _ _ _ Ht) by apply appendInt_length.
    cbn [mbind res_bind]. rewrite appendInt_val by (unfold int32; lia). rewrite int_add_ok by lia.
    apply tail_at_app in Ht. rewrite appendInt_length in Ht. cbn [mbind res_bind].
    rewrite (skip_tail _ _ _ _ Ht Hne) by (cbn [String.length]; lia). cbn [mbind res_bind].
    do 3 f_equal. enc_length. lia.
  - destruct Hv as [Hp Hf]. rewrite (readCString_tail _ _ _ _ Ht Hp). cbn [mbind res_bind].
    apply tail_at_app in Ht. rewrite appendStr_length in Ht.
    replace (p + (Z.of_nat (String.length pattern) + 1)) with (p + Z.of_nat (S (String.length pattern))) by lia.
    rewrite (readCString_tail _ _ _ _ Ht Hf). cbn [mbind res_bind]. do 3 f_equal. enc_length. lia.
  - rewrite (readUTF8_tail _ _ _ _ Ht Hv). cbn [mbind res_bind]. do 2 apply tail_at_app in Ht.
    rewrite appendInt_length, appendStr_length in Ht.
    replace (p + (4 + Z.of_nat (String.length ns) + 1)) with
      (p + Z.of_nat 4 + Z.of_nat (S (String.length ns))) by lia.
    rewrite (skip_tail _ _ _ _ Ht Hne) by (rewrite oid_length; done). cbn [snd].
    do 3 f_equal. enc_length. lia.
Qed.

(** *** Rounds of the loop *)

Definition rounds (n : nat) (l l' : vloop) : Prop :=
  ∀ k, vrun buf max (n + k) l = vrun buf max k l'.

Lemma rounds_trans n m l l' l'' : rounds n l l' → rounds m l' l'' → rounds (n + m) l l''.
Proof. intros H1 H2 k. by rewrite <-Nat.add_assoc, H1. Qed.

Lemma round_once l l' : vstep buf max l = Ok (inr l') → rounds 1 l l'.
Proof. intros H k. cbn [vrun Nat.add]. by rewrite H. Qed.

Lemma vwithin_info l x : (∀ id, validateElementInfo buf max (vpos l) id = Ok (inr x)) →
  ∃ start id, vwithin buf max l = Ok (inr (mkLoop x.1 x.2 (vframes l) start id)).
Proof. intros H. destruct x as [pos next]. unfold vwithin. destruct (_ && _); rewrite H; cbn [mbind res_bind]; eauto. Qed.

Lemma vwithin_end l t : tail_at (vpos l) (String NUL t) →
  ∃ start id, vwithin buf max l = Ok (inr (mkLoop (vpos l + 1) EndObj (vframes l) start id)).
Proof.
  intros Ht. apply (vwithin_info _ (_, _)). intros id. unfold validateElementInfo.
  by rewrite (readNumber_tail 1 _ (String NUL "") t).
Qed.

Definition next_state (fs : list vframe) : vstate :=
  match fs with
  | [] => Done
  | f :: _ => if isCodeWithScope f then EndCodeWScope else WithinObj
  end.

(** From behind the name of an element to behind its value. *)
Definition value_reach (v : value) : Prop :=
  value_wf v → ∀ pos t fs start id, t ≠ "" → next_state fs = WithinObj →
  tail_at pos (enc_value v +:+ t) →
  ∃ n start' id', (n ≤ String.length (enc_value v))%nat ∧
    rounds n (mkLoop (after_info pos v).1 (after_info pos v).2 fs start id)
             (mkLoop (pos + Z.of_nat (String.length (enc_value v))) WithinObj fs start' id').

(** From the first element of an object to behind its end. *)
Lemma body_reach o : Forall (λ e : BSONElement, value_reach e.2) o → elems_wf value_wf o →
  ∀ l t, next_state (vframes l) = WithinObj → tail_at (vpos l) (enc_body o +:+ String NUL t) →
  ∃ n l' start id, (n ≤ String.length (enc_body o))%nat ∧ vwithin buf max l = Ok (inr l') ∧
    rounds n l' (mkLoop (vpos l + Z.of_nat (String.length (enc_body o)) + 1) EndObj (vframes l) start id).
Proof.
  induction 1 as [|[name v] o Hv Ho IH]; intros Hwf l t Hfs Ht.
  - destruct (vwithin_end _ _ Ht) as (start & id & E). exists 0%nat. do 3 eexists.
    split; [lia|]. split; [exact E|]. cbn. rewrite Z.add_0_r. intros k. done.
  - destruct Hwf as (Hn & Hw & Hwf). rewrite enc_body_cons in Ht.
    assert (Ht' := Ht). apply (tail_at_app _ (String (type_byte v) (appendStr name))) in Ht'.
    cbn [String.length] in Ht'. rewrite appendStr_length in Ht'.
    assert (enc_body o +:+ String NUL t ≠ "") as Hne by (destruct (enc_body o); done).
    destruct (vwithin_info l _ (λ id, element_info _ _ _ _ id Hw Hn Hne Ht)) as (s1 & i1 & E).
    replace (vpos l + Z.of_nat (S (S (String.length name)))) with (vpos l + (Z.of_nat (String.length name) + 2)) in Ht' by lia.
    destruct (Hv Hw _ _ (vframes l) s1 i1 Hne Hfs Ht') as (n1 & s2 & i2 & Hn1 & R1).
    apply tail_at_app in Ht'.
    destruct (IH Hwf (mkLoop _ WithinObj (vframes l) s2 i2) t Hfs Ht') as (n2 & l2 & s3 & i3 & Hn2 & E2 & R2).
    cbn [vpos vframes] in R2. exists (n1 + (1 + n2))%nat. do 3 eexists. split; [|split; [exact E|]].
    + rewrite enc_body_cons_length. unfold enc_elem. cbn [fst snd String.length] in *. enc_length. lia.
    + eapply rounds_trans; [exact R1|]. eapply rounds_trans; [by apply round_once|].
      rewrite enc_body_cons_length. unfold enc_elem. cbn [fst snd String.length] in *. enc_length.
      eapply eq_ind; [exact R2|]. f_equal. lia.
Qed.

Lemma size_matches pos n t cws size : tail_at pos t → 0 ≤ n → pos + n ≤ max → size = n →
  actualLength (pos + n) (frame_at pos cws size) = size.
Proof.
  intros (Hp & _ & _) Hn Hm ->. unfold actualLength, frame_at. cbn [startPosition].
  rewrite (Z.mod_small pos) by lia. rewrite wrap64_small by lia.
  replace (pos + n - pos) with (n mod 2 ^ 32) by (rewrite Z.mod_small; lia). apply to_signed_id; lia.
Qed.

Lemma obj_reach o : Forall (λ e : BSONElement, value_reach e.2) o → obj_wf o →
  ∀ pos t fs start id, tail_at pos (objdata o +:+ t) →
  ∃ n start' id', (n ≤ String.length (objdata o))%nat ∧
    rounds n (mkLoop pos BeginObj fs start id)
             (mkLoop (pos + Z.of_nat (String.length (objdata o))) (next_state fs) fs start' id').
Proof.
  intros Hv [Hwf Hsz%objdata_size] pos t fs start id Ht. unfold BSONObjMaxInternalSize, BSONObjMaxUserSize in Hsz.
  assert (Hend := tail_at_app _ _ _ Ht). destruct Hend as (_ & _ & Hend).
  assert (Ht0 := Ht). unfold objdata, done_obj in Ht. rewrite !str_app_assoc in Ht.
  assert (Hr := readNumber_tail 4 _ _ _ Ht (appendInt_length _)). apply tail_at_app in Ht. rewrite appendInt_length in Ht.
  remember (Z.of_nat (String.length (enc_body o)) + 5) as size eqn:Hsize.
  assert (Z.of_nat (String.length (objdata o)) = size) as Hlen by (unfold objdata; rewrite done_obj_length; lia).
  set (f := frame_at pos false size).
  destruct (body_reach o Hv Hwf (mkLoop (pos + Z.of_nat 4) WithinObj (f :: fs) start id) t eq_refl Ht)
    as (n & l' & s1 & i1 & Hn & E & R). cbn [vpos vframes] in R.
  exists (1 + (n + 1))%nat, s1, i1. split; [unfold objdata; rewrite done_obj_length; lia|].
  eapply rounds_trans; [apply round_once|eapply rounds_trans; [exact R|apply round_once]].
  - cbn [vstep vst vpos vframes idElemStartPos idElem]. rewrite Hr. cbn [mbind res_bind].
    rewrite appendInt_val by (unfold int32; lia). exact E.
  - cbn [vstep vst vpos vframes]. rewrite Hlen.
    replace (pos + Z.of_nat 4 + Z.of_nat (String.length (enc_body o)) + 1) with (pos + size) by lia.
    unfold f at 1. rewrite (size_matches _ _ _ _ _ Ht0) by lia. unfold f. cbn [expectedSize frame_at].
    rewrite Z.eqb_refl. by destruct fs.
Qed.

Lemma value_reach_all v : value_reach v.
Proof.
  induction v as [| | | |o IH|o IH| | | | | | | | | | |c o IH| | | |] using value_ind';
    intros Hwf pos rest fs start id Hne Hfs Ht;
    try (exists 0%nat, start, id; split; [lia|]; intros k; done).
  - rewrite <-Hfs. by eapply obj_reach.
  - rewrite <-Hfs. by eapply obj_reach.
  - destruct Hwf as (Hc & Hwf). cbn [enc_value] in *. fold (enc_body o) in *. change (done_obj (enc_body o)) with (objdata o) in *.
    set (scope := objdata o) in *. rewrite !str_app_assoc in Ht.
    remember (4 + 4 + Z.of_nat (String.length c) + 1 + Z.of_nat (String.length scope)) as size eqn:Hsize.
    assert (Hr := readNumber_tail 4 _ _ _ Ht (appendInt_length _)). assert (Ht0 := Ht).
    apply tail_at_app in Ht. rewrite appendInt_length in Ht. assert (Hu := readUTF8_tail _ _ _ id Ht Hc).
    do 2 apply tail_at_app in Ht. rewrite appendInt_length, appendStr_length in Ht.
    assert (Hend := tail_at_app _ _ _ Ht). destruct Hend as (_ & _ & Hend). unfold small in Hc. assert (Hp := proj1 Ht0).
    set (f := frame_at pos true size).
    destruct (obj_reach o IH Hwf _ _ (f :: fs) start id Ht) as (n & s1 & i1 & Hn & R).
    fold scope in Hn, R.
    exists (1 + (n + 1))%nat, s1, i1. split; [enc_length; lia|].
    eapply rounds_trans; [apply round_once|eapply rounds_trans; [exact R|apply round_once]].
    + cbn [vstep vst vpos vframes idElemStartPos idElem after_info fst snd]. rewrite Hr. cbn [mbind res_bind].
      rewrite Hu. cbn [mbind res_bind]. rewrite appendInt_val by (unfold int32; lia). do 3 f_equal. lia.
    + cbn [vstep vst vpos vframes next_state isCodeWithScope f frame_at].
      replace (pos + Z.of_nat 4 + Z.of_nat 4 + Z.of_nat (S (String.length c)) + Z.of_nat (String.length scope))
        with (pos + size) by lia.
      subst f. rewrite (size_matches _ _ _ _ _ Ht0) by lia. cbn [expectedSize frame_at]. rewrite Z.eqb_refl.
      destruct fs; [done|]. cbn [negb idElemStartPos idElem]. do 3 f_equal. enc_length. lia.
Qed.

Lemma validate_reaches o rest fuel : buf = objdata o +:+ rest → obj_wf o →
  (String.length (objdata o) < fuel)%nat → validateBSON buf max fuel = Ok (inr ()).
Proof.
  intros Hb Hwf Hf. assert (tail_at 0 (objdata o +:+ rest)) as Ht by (rewrite <-Hb; apply tail_at_start).
  assert (5 ≤ max) as H5.
  { unfold max. rewrite Hb. unfold objdata. enc_length. lia. }
  unfold validateBSON, validateBSONIterative. rewrite (proj2 (Z.ltb_ge _ _)) by done.
  destruct (obj_reach o (proj2 (Forall_forall _ _) (λ e _, value_reach_all e.2)) Hwf 0 rest [] 0 None Ht)
    as (n & s & i & Hn & R).
  replace fuel with (n + S (fuel - n - 1))%nat by lia. by rewrite R.
Qed.

End accept.

(** C23: The check accepts every document the builders can write, also when more bytes
    follow it in the buffer, and returns after at most one round of its loop for every
    byte of the document and one more: sizes, names, nested objects, arrays and code
    with a scope are all found to be where the layout says they are. *)
Theorem validate_accepts o rest fuel : obj_wf o →
  Z.of_nat (String.length (objdata o +:+ rest)) < 2 ^ 31 →
  (String.length (objdata o) < fuel)%nat →
  validateBSON (objdata o +:+ rest) (Z.of_nat (String.length (objdata o +:+ rest))) fuel = Ok (inr ()).
Proof. intros Hwf Hl Hf. by eapply validate_reaches. Qed.

(** A document with nested objects, a binary value and code with a scope, followed by
    another message. *)
Definition layered : BSONObj :=
  [("_id", VInt 7); ("s", VString "text"); ("o", VObject [("a", VArray [("0", VBool true); ("1", VNull)])]);
   ("b", VBinData 2 "xyz"); ("r", VRegEx "^a" "i"); ("c", VCodeWScope "f()" [("x", VDouble 0)])].

Lemma validate_accepts_witness :
  validateBSON (objdata layered +:+ "more") (Z.of_nat (String.length (objdata layered +:+ "more"))) 200 = Ok (inr ()).
Proof.
  apply validate_accepts.
  - split; [|by vm_compute]. cbn. unfold no_nul, small, int32, uint64. cbn.
    repeat split; try lia; try (by vm_compute); set_solver.
  - by vm_compute.
  - apply Nat.ltb_lt. by vm_compute.
Defined.
