(* ===== verification/BsonCompare.v ===== *)
(** * Comparing BSON: bson/bson-inl.h and db/jsobj.cpp

    The order of BSON values, which filters compare with and documents are
    ordered by: [compareElementValues], [BSONElement::woCompare] and the object
    comparisons built on them.  Shown: comparing is antisymmetric and reflexive,
    it throws in one case only, and it is not transitive across number types. *)

From S2P Require Import Prelude StdMap Bytes Oid Doubles Bson BsonBytes.

(** Reading a value of another type than expected. *)
Definition mixed_types : exn := UndefinedBehaviour "comparison of values of different types".

Definition three_way (lt eq : bool) : Z := if lt then -1 else if eq then 0 else 1.

Definition cmp_doubles (left right : Z) : Z :=
  if double_ltb left right then -1
  else if double_eqb left right then 0
  else if isNaN left then (if isNaN right then 0 else -1)
  else 1.

(** The counted strings: [memcmp] over the common size, which includes the NUL,
    then the sizes. *)
Definition cmp_strings (l r : string) : Z :=
  let lsz := Z.of_nat (String.length l) + 1 in
  let rsz := Z.of_nat (String.length r) + 1 in
  let res := memcmp (appendStr l) (appendStr r) (Z.to_nat (Z.min lsz rsz)) in
  if negb (res =? 0) then res else lsz - rsz.

(** The bytes of a value, sizes first. *)
Definition cmp_sized (l r : string) : Z :=
  let lsz := Z.of_nat (String.length l) in
  let rsz := Z.of_nat (String.length r) in
  if negb (lsz - rsz =? 0) then lsz - rsz else memcmp l r (String.length l).

Definition vcanon (v : value) : Z := canonicalizeBSONType (vtype v).
Definition vnumber (v : value) : Z := numberDouble ("", v).
Definition visNumber (v : value) : bool := isNumber ("", v).

(** [woCompare] of two elements, given the comparison of the values. *)
Definition woCompare_with (cmp : value → value → res Z) (considerFieldName : bool)
    (ln : string) (l : value) (rn : string) (r : value) : res Z :=
  let x := vcanon l - vcanon r in
  if negb (x =? 0) && (negb (visNumber l) || negb (visNumber r)) then Ok x
  else if considerFieldName then
    let x := strcmp (fieldName (ln, l)) (fieldName (rn, r)) in
    if negb (x =? 0) then Ok x else cmp l r
  else cmp l r.

(** The loop of the object comparison: [i.next()] and [j.next()] give the end
    marker when there are no more elements. *)
Definition cmp_elems (cmp : value → value → res Z) (considerFieldName : bool) :
    BSONObj → BSONObj → res Z :=
  fix go l r :=
    match l with
    | [] => Ok (if eoo (firstElement r) then 0 else -1)
    | (ln, lv) :: l =>
        if eoo (ln, lv) then Ok (if eoo (firstElement r) then 0 else -1)
        else
          match r with
          | [] => Ok 1
          | (rn, rv) :: r =>
              if eoo (rn, rv) then Ok 1
              else
                x ← woCompare_with cmp considerFieldName ln lv rn rv;
                if negb (x =? 0) then Ok x else go l r
          end
    end.

Definition cmp_objs (cmp : value → value → res Z) (considerFieldName : bool) (l r : BSONObj) : res Z :=
  if isEmpty l then Ok (if isEmpty r then 0 else -1)
  else if isEmpty r then Ok 1
  else cmp_elems cmp considerFieldName l r.

Fixpoint compareElementValues (l r : value) : res Z :=
  match l with
  | VEOO | VUndefined | VNull | VMaxKey | VMinKey =>
      let f := vcanon l - vcanon r in Ok (three_way (f <? 0) (f =? 0))
  | VBool a =>
      match r with VBool b => Ok (Z.b2z a - Z.b2z b) | _ => Throw mixed_types end
  | VTimestamp a =>
      match r with
      | VTimestamp b | VDate b => Ok (three_way (a <? b) (a =? b))
      | _ => Throw mixed_types
      end
  | VDate a =>
      match r with
      | VDate b =>
          let a := to_signed 64 a in let b := to_signed 64 b in
          Ok (three_way (a <? b) (a =? b))
      | _ => _ ← chk Date ("", r); Throw mixed_types
      end
  | VLong a =>
      match r with
      | VLong b => Ok (three_way (a <? b) (a =? b))
      | _ => Ok (cmp_doubles (vnumber l) (vnumber r))
      end
  | VInt a =>
      match r with
      | VInt b => Ok (three_way (a <? b) (a =? b))
      | _ => Ok (cmp_doubles (vnumber l) (vnumber r))
      end
  | VDouble _ => Ok (cmp_doubles (vnumber l) (vnumber r))
  | VOID a => match r with VOID b => Ok (OID_compare a b) | _ => Throw mixed_types end
  | VCode a | VSymbol a | VString a =>
      match r with
      | VCode b | VSymbol b | VString b => Ok (cmp_strings a b)
      | _ => Throw mixed_types
      end
  | VObject a | VArray a =>
      match r with
      | VObject b | VArray b => cmp_objs compareElementValues true a b
      | _ => Throw (VerifyFailed "isABSONObj()")
      end
  | VDBRef _ _ =>
      match r with VDBRef _ _ => Ok (cmp_sized (enc_value l) (enc_value r)) | _ => Throw mixed_types end
  | VBinData s a =>
      match r with
      | VBinData t b =>
          let lsz := Z.of_nat (String.length a) in
          let rsz := Z.of_nat (String.length b) in
          if negb (lsz - rsz =? 0) then Ok (lsz - rsz)
          else Ok (memcmp (String (byte_of s) a) (String (byte_of t) b) (S (String.length a)))
      | _ => Throw mixed_types
      end
  | VRegEx p f =>
      match r with
      | VRegEx q g => let c := strcmp p q in if negb (c =? 0) then Ok c else Ok (strcmp f g)
      | _ => Throw mixed_types
      end
  | VCodeWScope c s =>
      let f := vcanon l - vcanon r in
      if negb (f =? 0) then Ok f
      else
        match r with
        | VCodeWScope d t =>
            let f := strcmp c d in
            if negb (f =? 0) then Ok f else Ok (strcmp (objdata s) (objdata t))
        | _ => Throw mixed_types
        end
  end.

(** [BSONElement::woCompare]. *)
Definition woCompare (l r : BSONElement) (considerFieldName : bool) : res Z :=
  woCompare_with compareElementValues considerFieldName l.1 l.2 r.1 r.2.

(** [operator==] and [valuesEqual]. *)
Definition elem_eqb (l r : BSONElement) : res bool := x ← woCompare l r true; Ok (x =? 0).
Definition valuesEqual (l r : BSONElement) : res bool := x ← woCompare l r false; Ok (x =? 0).

(** [BSONObj::woCompare] without an index key. *)
Definition obj_woCompare (l r : BSONObj) (considerFieldName : bool) : res Z :=
  cmp_objs compareElementValues considerFieldName l r.

(** ** Comparisons of objects along keys *)

(** A [BSONObjIterator]: the elements left, or past the end marker. *)
Abbreviation iterator := (option BSONObj).

Definition iter_next (i : iterator) : res (BSONElement * iterator) :=
  match i with
  | Some (e :: l) => Ok (e, Some l)
  | Some [] => Ok (eooElement, None)
  | None => Throw (VerifyFailed "_pos <= _theend")
  end.

Definition negative (e : BSONElement) : bool := double_ltb (numberDouble e) (double_of_Z 0).

(** [BSONObj::woCompare] with an index key: a negative entry reverses. *)
Fixpoint woCompare_key_loop (l r : BSONObj) (ordered : bool) (k : iterator)
    (considerFieldName : bool) : res Z :=
  ok ← (if ordered then iter_next k else Ok (eooElement, k));
  if eoo (firstElement l) then Ok (if eoo (firstElement r) then 0 else -1)
  else
    match l, r with
    | le :: l, re :: r =>
        if eoo re then Ok 1
        else
          x ← woCompare le re considerFieldName;
          let x := if ordered && negative ok.1 then - x else x in
          if negb (x =? 0) then Ok x else woCompare_key_loop l r ordered ok.2 considerFieldName
    | _, _ => Ok 1
    end.

Definition woCompare_key (l r idxKey : BSONObj) (considerFieldName : bool) : res Z :=
  if isEmpty l then Ok (if isEmpty r then 0 else -1)
  else if isEmpty r then Ok 1
  else woCompare_key_loop l r (negb (isEmpty idxKey)) (Some idxKey) considerFieldName.

(** [BSONObj::equal]. *)
Fixpoint obj_equal_loop (l : BSONObj) (j : iterator) : res bool :=
  r ← iter_next j;
  match l with
  | [] => Ok (eoo r.1)
  | le :: l =>
      if eoo le then Ok (eoo r.1)
      else
        b ← elem_eqb le r.1;
        if b : bool then obj_equal_loop l r.2 else Ok false
  end.

Definition obj_equal (l r : BSONObj) : res bool := obj_equal_loop l (Some r).

Definition staticNull : BSONElement := ("", VNull).

(** [woSortOrder]: compare by the fields a sort key names. *)
Fixpoint woSortOrder_loop (l r sortKey : BSONObj) (useDotted : bool) : res Z :=
  match sortKey with
  | [] => Ok 0
  | f :: sortKey =>
      if eoo f then Ok 0
      else
        let get o := (if useDotted then getFieldDotted else getField) o (fieldName f) in
        let or_null e := if eoo e then staticNull else e in
        x ← woCompare (or_null (get l)) (or_null (get r)) false;
        let x := if negative f then - x else x in
        if negb (x =? 0) then Ok x else woSortOrder_loop l r sortKey useDotted
  end.

Definition woSortOrder (l r sortKey : BSONObj) (useDotted : bool) : res Z :=
  if isEmpty l then Ok (if isEmpty r then 0 else -1)
  else if isEmpty r then Ok 1
  else
    _ ← uassert 10060 "woSortOrder needs a non-empty sortKey" (negb (isEmpty sortKey));
    woSortOrder_loop l r sortKey useDotted.

Fixpoint isPrefixOf (a b : BSONObj) : res bool :=
  match a, b with
  | x :: a, y :: b => e ← elem_eqb x y; if e : bool then isPrefixOf a b else Ok false
  | [], _ => Ok true
  | _ :: _, [] => Ok false
  end.

Fixpoint isFieldNamePrefixOf (a b : BSONObj) : bool :=
  match a, b with
  | x :: a, y :: b => (fieldName x =? fieldName y)%string && isFieldNamePrefixOf a b
  | [], _ => true
  | _ :: _, [] => false
  end.

(** [extractFieldsUnDotted]: the fields a pattern names, without names. *)
Fixpoint extractFieldsUnDotted (o pattern : BSONObj) : BSONObj :=
  match pattern with
  | [] => []
  | e :: pattern =>
      if eoo e then []
      else
        let x := getField o (fieldName e) in
        let rest := extractFieldsUnDotted o pattern in
        if eoo x then rest else ("", x.2) :: rest
  end.

(** ** Order *)

Lemma three_way_opp a b : Z.sgn (three_way (b <? a) (b =? a)) = - Z.sgn (three_way (a <? b) (a =? b)).
Proof.
  unfold three_way. destruct (Z.ltb_spec a b), (Z.ltb_spec b a), (Z.eqb_spec a b), (Z.eqb_spec b a); simpl; lia.
Qed.

Lemma cmp_doubles_opp a b : Z.sgn (cmp_doubles b a) = - Z.sgn (cmp_doubles a b).
Proof.
  unfold cmp_doubles, double_ltb, double_eqb. rewrite !double_compare_key, !isNaN_key.
  destruct (double_key a) as [x|], (double_key b) as [y|]; simpl; try done.
  rewrite (lex3_opp x y). by destruct (lex3 x y).
Qed.

Lemma cmp_doubles_refl a : cmp_doubles a a = 0.
Proof.
  unfold cmp_doubles, double_ltb, double_eqb. rewrite !double_compare_key, !isNaN_key.
  destruct (double_key a) as [x|]; simpl; [|done]. by rewrite (proj2 (lex3_Eq x x) eq_refl).
Qed.

Lemma sgn_opp x y : y = - x → Z.sgn y = - Z.sgn x.
Proof. intros ->. apply Z.sgn_opp. Qed.

Lemma cmp_strings_opp a b : cmp_strings b a = - cmp_strings a b.
Proof.
  unfold cmp_strings. rewrite (Z.min_comm (_ + 1) (Z.of_nat (String.length a) + 1)).
  rewrite (memcmp_opp (appendStr a) (appendStr b)). set (m := memcmp _ _ _).
  destruct (Z.eqb_spec m 0), (Z.eqb_spec (- m) 0); simpl; lia.
Qed.

Lemma strcmp_opp a b : strcmp b a = - strcmp a b.
Proof.
  revert b. induction a as [|x a IH]; intros [|y b]; cbn [strcmp]; try done.
  - by destruct (byte_val y =? 0).
  - by destruct (byte_val x =? 0).
  - destruct (Z.ltb_spec (byte_val x) (byte_val y)), (Z.ltb_spec (byte_val y) (byte_val x)); try lia.
    assert (byte_val x = byte_val y) as -> by lia. destruct (byte_val y =? 0); [done|apply IH].
Qed.

Lemma strcmp_refl a : strcmp a a = 0.
Proof. pose proof (strcmp_opp a a). lia. Qed.

Lemma cmp_sized_opp a b : cmp_sized b a = - cmp_sized a b.
Proof.
  unfold cmp_sized. destruct (Z.eqb_spec (Z.of_nat (String.length a) - Z.of_nat (String.length b)) 0);
    destruct (Z.eqb_spec (Z.of_nat (String.length b) - Z.of_nat (String.length a)) 0); simpl; try lia.
  replace (String.length b) with (String.length a) by lia. apply memcmp_opp.
Qed.

(** Antisymmetry of a comparison of values, at [l]. *)
Definition opposite (cmp : value → value → res Z) (l : value) : Prop :=
  ∀ r x y, vcanon l = vcanon r → cmp l r = Ok x → cmp r l = Ok y → Z.sgn y = - Z.sgn x.

Lemma canon_number l r : vcanon l = vcanon r → visNumber l = visNumber r.
Proof. by destruct l, r. Qed.

Lemma sgn_nonzero x y : Z.sgn y = - Z.sgn x → (x =? 0) = (y =? 0).
Proof. intros Hs. destruct (Z.eqb_spec x 0), (Z.eqb_spec y 0); lia. Qed.

Lemma woCompare_with_opp cmp c ln l rn r x y : opposite cmp l →
  woCompare_with cmp c ln l rn r = Ok x → woCompare_with cmp c rn r ln l = Ok y → Z.sgn y = - Z.sgn x.
Proof.
  intros Hop. unfold woCompare_with.
  replace (vcanon r - vcanon l) with (- (vcanon l - vcanon r)) by lia.
  destruct (Z.eqb_spec (vcanon l - vcanon r) 0) as [Hz|Hz].
  - rewrite Hz. simpl. rewrite (strcmp_opp (fieldName (ln, l))).
    set (n := strcmp _ _). destruct c; [|apply Hop; lia].
    destruct (Z.eqb_spec n 0) as [->|Hn]; simpl; [apply Hop; lia|].
    rewrite (proj2 (Z.eqb_neq (- n) 0)) by lia. simpl. intros [= <-] [= <-]. lia.
  - rewrite (proj2 (Z.eqb_neq (- (vcanon l - vcanon r)) 0)) by lia. simpl. rewrite (orb_comm (negb (visNumber r))).
    destruct (negb (visNumber l) || negb (visNumber r)) eqn:Hn.
    + intros [= <-] [= <-]. lia.
    + destruct l, r; try done.
Qed.

Lemma cmp_elems_opp cmp c a b x y : Forall (λ e : BSONElement, opposite cmp e.2) a →
  cmp_elems cmp c a b = Ok x → cmp_elems cmp c b a = Ok y → Z.sgn y = - Z.sgn x.
Proof.
  intros Ha. revert b x y. induction Ha as [|[ln lv] a Hl _ IH]; intros b x y.
  - destruct b as [|[rn rv] b]; simpl; [by intros [= <-] [= <-]|].
    unfold firstElement. destruct (eoo (rn, rv)) eqn:He; intros [= <-] [= <-]; done.
  - cbn [cmp_elems]. destruct (eoo (ln, lv)) eqn:Hle.
    + destruct b as [|[rn rv] b]; cbn [cmp_elems firstElement]; rewrite Hle.
      * intros [= <-] [= <-]. done.
      * destruct (eoo (rn, rv)) eqn:Hre; intros [= <-] [= <-]; done.
    + destruct b as [|[rn rv] b]; cbn [cmp_elems firstElement]; rewrite Hle.
      { intros [= <-] [= <-]. done. }
      destruct (eoo (rn, rv)) eqn:Hre; [intros [= <-] [= <-]; done|].
      destruct (woCompare_with cmp c ln lv rn rv) as [u|] eqn:Hu; [|done].
      destruct (woCompare_with cmp c rn rv ln lv) as [v|] eqn:Hv; [|done]. simpl.
      pose proof (woCompare_with_opp _ _ _ _ _ _ _ _ Hl Hu Hv) as Hs.
      rewrite <-(sgn_nonzero u v Hs). destruct (u =? 0); simpl; [apply IH|].
      intros [= <-] [= <-]. done.
Qed.

Lemma cmp_objs_opp cmp c a b x y : Forall (λ e : BSONElement, opposite cmp e.2) a →
  cmp_objs cmp c a b = Ok x → cmp_objs cmp c b a = Ok y → Z.sgn y = - Z.sgn x.
Proof.
  intros Ha. unfold cmp_objs. destruct (isEmpty a), (isEmpty b); [by intros [= <-] [= <-]..|].
  by apply cmp_elems_opp.
Qed.

Lemma seq_opp a a' b b' x y : a' = - a → b' = - b →
  (if negb (a =? 0) then Ok a else Ok b) = Ok x → (if negb (a' =? 0) then Ok a' else Ok b') = Ok y →
  Z.sgn y = - Z.sgn x.
Proof.
  intros -> ->. destruct (Z.eqb_spec a 0), (Z.eqb_spec (- a) 0); simpl; try lia;
    intros [= <-] [= <-]; lia.
Qed.

Lemma compare_opposite l : opposite compareElementValues l.
Proof.
  unfold opposite.
  induction l using value_ind'; intros [] x y Hc; try (by vm_compute in Hc); cbn [compareElementValues];
    try (intros [= <-] [= <-]; first [done | apply three_way_opp | apply cmp_doubles_opp
      | apply sgn_opp; first [apply cmp_strings_opp | apply memcmp_opp | apply cmp_sized_opp | lia]]; fail);
    try (by eapply cmp_objs_opp).
  - replace (Z.of_nat (String.length data) - _)
      with (- (Z.of_nat (String.length d) - Z.of_nat (String.length data))) by lia.
    destruct (Z.eqb_spec (Z.of_nat (String.length d) - Z.of_nat (String.length data)) 0) as [He|He].
    + rewrite He. simpl negb. cbv iota. replace (String.length data) with (String.length d) by lia.
      intros [= <-] [= <-]. apply sgn_opp.
      apply (memcmp_opp (String (byte_of t) d) (String (byte_of subtype) data) (S (String.length d))).
    + rewrite (proj2 (Z.eqb_neq (- _) 0)) by lia. intros [= <-] [= <-]. lia.
  - apply seq_opp; apply strcmp_opp.
  - simpl (vcanon _ - vcanon _). simpl negb. cbv iota. apply seq_opp; apply strcmp_opp.
Qed.

Lemma woCompare_opp l r c x y :
  woCompare l r c = Ok x → woCompare r l c = Ok y → Z.sgn y = - Z.sgn x.
Proof. apply woCompare_with_opp, compare_opposite. Qed.

(** *** Reflexivity *)

Definition same (cmp : value → value → res Z) (l : value) : Prop := cmp l l = Ok 0.

Lemma woCompare_with_refl cmp c n l : same cmp l → woCompare_with cmp c n l n l = Ok 0.
Proof.
  intros Hs. unfold woCompare_with. rewrite Z.sub_diag, strcmp_refl. simpl. by destruct c.
Qed.

Lemma cmp_objs_refl cmp c o : Forall (λ e : BSONElement, same cmp e.2) o → cmp_objs cmp c o o = Ok 0.
Proof.
  intros Ho. unfold cmp_objs. destruct (isEmpty o) eqn:He; [done|clear He].
  induction Ho as [|[n v] o Hv _ IH]; [done|]. cbn [cmp_elems firstElement].
  destruct (eoo (n, v)) eqn:He; [done|]. by rewrite woCompare_with_refl.
Qed.

Lemma cmp_strings_refl a : cmp_strings a a = 0.
Proof. pose proof (cmp_strings_opp a a). lia. Qed.
Lemma cmp_sized_refl a : cmp_sized a a = 0.
Proof. pose proof (cmp_sized_opp a a). lia. Qed.
Lemma three_way_refl a : three_way (a <? a) (a =? a) = 0.
Proof. unfold three_way. by rewrite Z.ltb_irrefl, Z.eqb_refl. Qed.

Lemma compare_refl l : compareElementValues l l = Ok 0.
Proof.
  induction l using value_ind'; cbn [compareElementValues]; try done;
    rewrite ?Z.sub_diag, ?cmp_doubles_refl, ?strcmp_refl, ?cmp_strings_refl, ?cmp_sized_refl,
      ?three_way_refl; try done; try (by apply cmp_objs_refl).
  - rewrite memcmp_refl. done.
  - unfold OID_compare. by rewrite memcmp_refl.
Qed.

(** *** Totality *)

(** A time stamp somewhere in the value. *)
Fixpoint has_timestamp (v : value) : bool :=
  match v with
  | VTimestamp _ => true
  | VObject o | VArray o => existsb (λ e : BSONElement, has_timestamp e.2) o
  | _ => false
  end.

Definition defined_at (cmp : value → value → res Z) (l : value) : Prop :=
  ∀ r, vcanon l = vcanon r → has_timestamp r = false → ∃ x, cmp l r = Ok x.

Lemma woCompare_with_total cmp c ln l rn r : defined_at cmp l → has_timestamp r = false →
  ∃ x, woCompare_with cmp c ln l rn r = Ok x.
Proof.
  intros Hd Hr. unfold woCompare_with.
  destruct (Z.eqb_spec (vcanon l - vcanon r) 0) as [Hz|Hz]; simpl.
  - destruct (Hd r) as [x Hx]; [lia|done|]. destruct c; [|eauto]. case_match; eauto.
  - destruct (negb (visNumber l) || negb (visNumber r)) eqn:Hn; [eauto|].
    by destruct l, r.
Qed.

Lemma cmp_objs_total cmp c a b : Forall (λ e : BSONElement, defined_at cmp e.2) a →
  existsb (λ e : BSONElement, has_timestamp e.2) b = false → ∃ x, cmp_objs cmp c a b = Ok x.
Proof.
  intros Ha Hb. unfold cmp_objs. destruct (isEmpty a) eqn:?, (isEmpty b) eqn:?; [eauto..|].
  clear -Ha Hb. revert b Hb. induction Ha as [|[ln lv] a Hl _ IH]; intros b Hb; [simpl; eauto|].
  cbn [cmp_elems]. destruct (eoo (ln, lv)); [eauto|]. destruct b as [|[rn rv] b]; [eauto|].
  simpl in Hb. apply orb_false_iff in Hb as [Hrv Hb].
  destruct (eoo (rn, rv)); [eauto|].
  destruct (woCompare_with_total cmp c ln lv rn rv Hl Hrv) as [x ->]. cbn [mbind res_bind].
  case_match; eauto.
Qed.

Lemma compare_total l : defined_at compareElementValues l.
Proof.
  unfold defined_at. induction l using value_ind'; intros [] Hc Ht; try (by vm_compute in Hc);
    cbn [compareElementValues]; try (by eauto); try (by apply cmp_objs_total); try done;
    repeat case_match; eauto.
Qed.

(** ** What the order guarantees, and what it does not *)

(** C34: Comparing elements: an element equals itself, swapping two elements swaps
    the result, and a comparison is defined whatever the types are, unless a
    date meets a time stamp on the right. *)
Theorem compare_order l r c :
  woCompare l l c = Ok 0 ∧
  (∀ x y, woCompare l r c = Ok x → woCompare r l c = Ok y → Z.sgn y = - Z.sgn x) ∧
  (has_timestamp r.2 = false → ∃ x, woCompare l r c = Ok x).
Proof.
  split_and!.
  - apply woCompare_with_refl, compare_refl.
  - apply woCompare_opp.
  - apply woCompare_with_total, compare_total.
Qed.

(** Equality of numbers is not transitive: integers are compared as integers
    but an integer and a double as doubles, so two different integers beyond
    2^53 both equal the double between them. *)
Lemma compare_not_transitive : ∃ a b d x,
  woCompare a d false = Ok 0 ∧ woCompare d b false = Ok 0 ∧ woCompare a b false = Ok x ∧ 0 < x.
Proof.
  exists ("", VLong (2 ^ 53 + 1)), ("", VLong (2 ^ 53)), ("", VDouble (double_of_Z (2 ^ 53))), 1.
  split_and!; [by vm_compute..|lia].
Qed.

(** A time stamp can be compared with a date but not the date with the time
    stamp: the comparison throws. *)
Lemma date_timestamp_asymmetric t d :
  (∃ x, woCompare ("", VTimestamp t) ("", VDate d) false = Ok x) ∧
  woCompare ("", VDate d) ("", VTimestamp t) false
  = Throw (MsgAssertionException 13111 "wrong type for field").
Proof. split; [by eexists|done]. Qed.
