(* ===== verification/Namespace.v ===== *)
(** * Namespaces and errors

    What the database events, the authorization and the dispatch share: names of
    collections (db/namespace_string.h, db/namespace_string-inl.h) and the codes of
    statuses and exceptions (base/error_codes.err, util/assert_util.h). *)

From S2P Require Import Prelude StdMap Bytes.

(** ** Namespaces *)

Definition MaxDatabaseNameLen : nat := 128.

(** [NamespaceString]: the text and the position of the dot. *)
Record NamespaceString := mkNs { ns_text : string; dotIndex : option nat }.

Definition dot : ascii := "."%char.

Definition NamespaceString_default : NamespaceString := mkNs "" (Some O).
Definition NamespaceString_of (ns : string) : NamespaceString := mkNs ns (str_index dot ns).

Definition NamespaceString_pair (dbName collectionName : string) : res NamespaceString :=
  _ ← uassert 17235 "'.' is an invalid character in a database name" (bool_decide (str_index dot dbName = None));
  _ ← uassert 17246 "Collection names cannot start with '.'"
        (bool_decide (str_at collectionName 0 ≠ Some dot));
  let ns := dbName +:+ String dot collectionName in
  _ ← uassert 17295 "namespaces cannot have embedded null characters" (bool_decide (str_index NUL ns = None));
  Ok (mkNs ns (Some (String.length dbName))).

Definition ns_db (n : NamespaceString) : string :=
  match dotIndex n with None => "" | Some i => str_take i (ns_text n) end.
Definition ns_coll (n : NamespaceString) : string :=
  match dotIndex n with None => "" | Some i => str_drop (S i) (ns_text n) end.
Definition ns_isSystem (n : NamespaceString) : bool := StringData_startsWith (ns_coll n) "system.".

Definition nsToDatabase (ns : string) : res string :=
  match str_index dot ns with
  | None => _ ← massert 10078 "nsToDatabase: db too long" (String.length ns <? MaxDatabaseNameLen)%nat; Ok ns
  | Some i => _ ← massert 10088 "nsToDatabase: db too long" (i <? MaxDatabaseNameLen)%nat; StringData_substr ns 0 (Some i)
  end.

(** ** Errors *)

Definition InternalError : Z := 1.
Definition BadValue : Z := 2.
Definition UnknownError : Z := 8.
Definition Unauthorized : Z := 13.

Definition convertExceptionCode (exCode : Z) : Z := if exCode =? 0 then UnknownError else exCode.

(** The [AssertionException]s, with code and text. *)
Definition assertion_of (e : exn) : option (Z * string) :=
  match e with
  | UserException c m | MsgAssertionException c m => Some (c, m)
  | VerifyFailed m => Some (0, m)
  | _ => None
  end.
