(* ===== verification/FieldRef.v ===== *)
(** * Dotted paths: db/field_ref.cpp

    A [FieldRef] is a dotted path split into parts: the first four in an array,
    the rest in a vector, with the dotted text cached and rebuilt after a part
    has been replaced.  [parts] is what it stands for, the list of its parts, and
    the lemmas show that every operation is the list operation it means to be.  The
    parts, which in the code are views into the dotted text or into the
    replacements, are values. *)

From S2P Require Import Prelude StdMap Bytes.

Definition kReserveAhead : nat := 4.

(** [fixed] has [kReserveAhead] slots; those from [size_] on hold stale parts. *)
Record FieldRef := mkFieldRef {
  size_ : nat;
  fixed : list string;
  variable : list string;
  dotted : string;
  replacements : list string
}.

Definition FieldRef_new : FieldRef := mkFieldRef 0 (replicate kReserveAhead "") [] "" [].

Definition FieldRef_clear (f : FieldRef) : FieldRef := mkFieldRef 0 (fixed f) [] "" [].

Definition numParts (f : FieldRef) : nat := size_ f.

(** Only called with [i < numParts]. *)
Definition getPart (f : FieldRef) (i : nat) : string :=
  if (i <? kReserveAhead)%nat then nth i (fixed f) "" else nth (i - kReserveAhead) (variable f) "".

Definition appendPart (f : FieldRef) (part : string) : FieldRef :=
  if (size_ f <? kReserveAhead)%nat
  then mkFieldRef (S (size_ f)) (<[size_ f := part]> (fixed f)) (variable f) (dotted f) (replacements f)
  else mkFieldRef (S (size_ f)) (fixed f) (variable f ++ [part]) (dotted f) (replacements f).

(** The loop of [parse]: [piece] is the text between [beg] and [cur]. *)
Fixpoint parse_loop (f : FieldRef) (piece cur : string) : FieldRef :=
  match cur with
  | EmptyString => appendPart f piece
  | String c cur =>
      if (c =? ".")%char then parse_loop (appendPart f piece) "" cur
      else parse_loop f (piece +:+ String c "") cur
  end.

Definition set_dotted (f : FieldRef) (d : string) : FieldRef :=
  mkFieldRef (size_ f) (fixed f) (variable f) d (replacements f).

(** An empty path leaves the object as it is. *)
Definition FieldRef_parse (f : FieldRef) (path : string) : FieldRef :=
  if (String.length path =? 0)%nat then f
  else
    let f := if negb (size_ f =? 0)%nat then FieldRef_clear f else f in
    parse_loop (set_dotted f path) "" path.

Definition vec_resize (l : list string) (n : nat) : list string :=
  take n l ++ replicate (n - length l) "".

Definition put (f : FieldRef) (i : nat) (part : string) : FieldRef :=
  if (i <? kReserveAhead)%nat
  then mkFieldRef (size_ f) (<[i := part]> (fixed f)) (variable f) (dotted f) (replacements f)
  else mkFieldRef (size_ f) (fixed f) (<[(i - kReserveAhead)%nat := part]> (variable f)) (dotted f) (replacements f).

(** Only called with [i < numParts]. *)
Definition setPart (f : FieldRef) (i : nat) (part : string) : FieldRef :=
  let r := if negb (length (replacements f) =? size_ f)%nat then vec_resize (replacements f) (size_ f)
           else replacements f in
  put (mkFieldRef (size_ f) (fixed f) (variable f) (dotted f) (<[i := part]> r)) i part.

(** [reserialize]: the text of the parts, and the parts cut out of it again. *)
Fixpoint concat_parts (f : FieldRef) (i n : nat) (next : string) : string :=
  match n with
  | O => next
  | S n => concat_parts f (S i) n (next +:+ (if (0 <? i)%nat then "." else "") +:+ getPart f i)
  end.

Fixpoint fixup_parts (f : FieldRef) (i n : nat) (pos : string) : FieldRef :=
  match n with
  | O => f
  | S n =>
      let size := String.length (getPart f i) in
      let f := put f i (str_take size pos) in
      let pos := str_drop size pos in
      fixup_parts f (S i) n (if (pos =? "")%string then pos else str_drop 1 pos)
  end.

Definition reserialize (f : FieldRef) : FieldRef :=
  let next := concat_parts f 0 (size_ f) "" in
  let f := fixup_parts (set_dotted f next) 0 (size_ f) next in
  mkFieldRef (size_ f) (fixed f) (variable f) (dotted f) [].

Fixpoint strip_parts (f : FieldRef) (i offset : nat) (result : string) : string :=
  match offset with
  | O => result
  | S offset => strip_parts f (S i) offset (str_drop (S (String.length (getPart f i))) result)
  end.

(** [dottedField] may rebuild the cached text, so it also returns the object. *)
Definition dottedField (f : FieldRef) (offset : nat) : string * FieldRef :=
  if (size_ f =? 0)%nat || (numParts f <=? offset)%nat then ("", f)
  else
    let f := match replacements f with [] => f | _ => reserialize f end in
    (strip_parts f 0 offset (dotted f), f).

Fixpoint equals_loop (f : FieldRef) (i n : nat) (rest : string) : bool :=
  match n with
  | O => false
  | S n =>
      let part := getPart f i in
      if negb (StringData_startsWith rest part) then false
      else if (i =? size_ f - 1)%nat then (String.length rest =? String.length part)%nat
      else if (String.length rest =? String.length part)%nat then false
      else
        match str_at rest (String.length part) with
        | Some c => if negb (c =? ".")%char then false
                    else equals_loop f (S i) n (str_drop (S (String.length part)) rest)
        | None => false
        end
  end.

Definition equalsDottedField (f : FieldRef) (other : string) : bool := equals_loop f 0 (size_ f) other.

(** The loop of [commonPrefixSize], with the number of indices left. *)
Fixpoint common_loop (f other : FieldRef) (prefixSize todo : nat) : nat :=
  match todo with
  | O => prefixSize
  | S todo =>
      if negb (StringData_eqb (getPart f prefixSize) (getPart other prefixSize)) then prefixSize
      else common_loop f other (S prefixSize) todo
  end.

Definition commonPrefixSize (f other : FieldRef) : nat :=
  if (size_ f =? 0)%nat || (size_ other =? 0)%nat then O
  else
    let maxPrefixSize := ((size_ f - 1) `min` (size_ other - 1))%nat in
    common_loop f other 0 (S maxPrefixSize).

Definition FieldRef_isPrefixOf (f other : FieldRef) : bool :=
  if (size_ other <=? size_ f)%nat then false
  else if (size_ f =? 0)%nat then false
  else
    let common := commonPrefixSize f other in
    (common =? size_ f)%nat && (common <? size_ other)%nat.

Fixpoint compare_loop (f other : FieldRef) (i todo : nat) : option Z :=
  match todo with
  | O => None
  | S todo =>
      if StringData_eqb (getPart f i) (getPart other i) then compare_loop f other (S i) todo
      else Some (if StringData_compare (getPart f i) (getPart other i) <? 0 then -1 else 1)
  end.

Definition FieldRef_compare (f other : FieldRef) : Z :=
  let toCompare := (size_ f `min` size_ other)%nat in
  match compare_loop f other 0 toCompare with
  | Some c => c
  | None =>
      let rest := (size_ f - toCompare)%nat in
      let otherRest := (size_ other - toCompare)%nat in
      if (rest =? 0)%nat && (otherRest =? 0)%nat then 0
      else if (rest <? otherRest)%nat then -1
      else 1
  end.

(** ** The parts *)

Definition parts (f : FieldRef) : list string := take (size_ f) (fixed f ++ variable f).

Definition join_dots (l : list string) : string := joinStringDelim l ".".

Record fieldref_wf (f : FieldRef) : Prop := {
  wf_fixed : length (fixed f) = kReserveAhead;
  wf_variable : length (variable f) = (size_ f - kReserveAhead)%nat;
  wf_replacements : replacements f = [] ∨ length (replacements f) = size_ f;
  wf_dotted : replacements f = [] → dotted f = join_dots (parts f)
}.

Lemma join_dots_cons x l : l ≠ [] → join_dots (x :: l) = x +:+ String "." (join_dots l).
Proof. by destruct l. Qed.

Lemma join_dots_snoc l x : l ≠ [] → join_dots (l ++ [x]) = join_dots l +:+ String "." x.
Proof.
  induction l as [|y l IH]; [done|]. intros _. destruct l as [|z l]; [done|].
  change ((y :: z :: l) ++ [x]) with (y :: ((z :: l) ++ [x])).
  rewrite join_dots_cons by done. rewrite IH, (join_dots_cons y) by done. by rewrite str_app_assoc.
Qed.

Section shape.
Context (f : FieldRef) (Hf : length (fixed f) = kReserveAhead)
  (Hv : length (variable f) = (size_ f - kReserveAhead)%nat).

Lemma shape_length : length (parts f) = size_ f.
Proof. unfold parts. rewrite length_take, length_app, Hf, Hv. unfold kReserveAhead. lia. Qed.

Lemma getPart_nth i : (i < size_ f)%nat → getPart f i = nth i (parts f) "".
Proof.
  intros Hi. unfold getPart, parts.
  rewrite (nth_lookup (take _ _)), lookup_take, decide_True by done.
  destruct (Nat.ltb_spec i kReserveAhead) as [Hk|Hk].
  - by rewrite lookup_app_l, <-nth_lookup by lia.
  - by rewrite lookup_app_r, <-nth_lookup, Hf by lia.
Qed.

Lemma appendPart_parts p :
  length (fixed (appendPart f p)) = kReserveAhead ∧
  length (variable (appendPart f p)) = (size_ (appendPart f p) - kReserveAhead)%nat ∧
  parts (appendPart f p) = parts f ++ [p].
Proof.
  unfold appendPart, parts. destruct (Nat.ltb_spec (size_ f) kReserveAhead) as [Hk|Hk]; simpl.
  - split_and!; [by rewrite length_insert|unfold kReserveAhead in *; lia|].
    rewrite !take_app_le by (rewrite ?length_insert; lia).
    rewrite (take_S_r _ _ p) by (rewrite list_lookup_insert_eq; [done|lia]).
    by rewrite take_insert_ge by lia.
  - split_and!; [done|rewrite length_app, Hv; unfold kReserveAhead in *; simpl; lia|].
    rewrite !take_ge by (rewrite ?length_app, Hf, Hv; simpl; unfold kReserveAhead in *; lia).
    by rewrite app_assoc.
Qed.

Lemma put_parts i p : (i < size_ f)%nat →
  length (fixed (put f i p)) = kReserveAhead ∧
  length (variable (put f i p)) = (size_ f - kReserveAhead)%nat ∧
  parts (put f i p) = <[i := p]> (parts f).
Proof.
  intros Hi. unfold put, parts. destruct (Nat.ltb_spec i kReserveAhead) as [Hk|Hk]; simpl.
  - split_and!; [by rewrite length_insert|done|].
    rewrite <-take_insert_lt by done. by rewrite insert_app_l by lia.
  - split_and!; [done|by rewrite length_insert|].
    rewrite <-take_insert_lt by done. rewrite insert_app_r_alt by lia. by rewrite Hf.
Qed.
End shape.

Lemma wf_length f : fieldref_wf f → length (parts f) = size_ f.
Proof. intros []. by apply shape_length. Qed.

Lemma wf_getPart f i p : fieldref_wf f → parts f !! i = Some p → getPart f i = p.
Proof.
  intros Hwf Hi. rewrite getPart_nth; [by apply nth_lookup_Some|apply Hwf..|].
  rewrite <-wf_length by done. by eapply lookup_lt_Some.
Qed.

Lemma FieldRef_new_wf : fieldref_wf FieldRef_new.
Proof. by split; [..|left|]. Qed.

(** ** Parsing *)

(** The pieces of a path, by structural recursion. *)
Fixpoint pieces (piece cur : string) : list string :=
  match cur with
  | EmptyString => [piece]
  | String c cur =>
      if (c =? ".")%char then piece :: pieces "" cur else pieces (piece +:+ String c "") cur
  end.

Lemma pieces_cons piece cur : ∃ p l, pieces piece cur = p :: l.
Proof. revert piece. induction cur as [|c cur IH]; intros; simpl; [eauto|]. case_match; eauto. Qed.

Lemma join_pieces piece cur : join_dots (pieces piece cur) = piece +:+ cur.
Proof.
  revert piece. induction cur as [|c cur IH]; intros piece; simpl; [by rewrite str_app_nil_r|].
  destruct (Ascii.eqb_spec c ".") as [->|Hc].
  - rewrite join_dots_cons; [by rewrite IH|]. by destruct (pieces_cons "" cur) as (?&?&->).
  - by rewrite IH, str_app_assoc.
Qed.

Lemma pieces_split_ref fuel piece cur : (String.length cur ≤ fuel)%nat →
  pieces piece cur =
  match split_ref fuel "." cur with x :: l => (piece +:+ x) :: l | [] => [] end.
Proof.
  revert fuel piece. induction cur as [|c cur IH]; intros fuel piece Hl.
  - destruct fuel; simpl; by rewrite str_app_nil_r.
  - destruct fuel as [|fuel]; simpl in Hl; [lia|]. cbn [pieces split_ref str_index].
    destruct (c =? ".")%char.
    + rewrite (IH fuel) by lia. simpl. rewrite str_app_nil_r.
      destruct (split_ref_cons fuel "." cur) as (?&?&Hs).
      destruct cur; by rewrite Hs.
    + rewrite (IH (S fuel)) by lia. cbn [split_ref].
      destruct (str_index "." cur) as [i|]; simpl; by rewrite str_app_assoc.
Qed.

Lemma pieces_split path : path ≠ "" → pieces "" path = splitStringDelim path ".".
Proof.
  intros Hne. unfold splitStringDelim. rewrite (proj2 (String.eqb_neq path "") Hne).
  rewrite splitStringDelim_loop_ref, (pieces_split_ref (String.length path)) by lia.
  assert (str_drop 0 path = path) as -> by (by destruct path).
  by destruct (split_ref_cons (String.length path) "." path) as (?&?&->).
Qed.

Lemma parse_loop_parts f piece cur :
  length (fixed f) = kReserveAhead → length (variable f) = (size_ f - kReserveAhead)%nat →
  let f' := parse_loop f piece cur in
  length (fixed f') = kReserveAhead ∧ length (variable f') = (size_ f' - kReserveAhead)%nat ∧
  parts f' = parts f ++ pieces piece cur ∧ dotted f' = dotted f ∧ replacements f' = replacements f.
Proof.
  assert (∀ g p, dotted (appendPart g p) = dotted g ∧ replacements (appendPart g p) = replacements g)
    as Ha by (intros; unfold appendPart; by case_match).
  revert f piece. induction cur as [|c cur IH]; intros f piece Hf Hv; simpl.
  - destruct (appendPart_parts f Hf Hv piece) as (?&?&?), (Ha f piece). done.
  - case_match; [|by apply IH].
    destruct (appendPart_parts f Hf Hv piece) as (Hf'&Hv'&Hp), (Ha f piece) as [<- <-].
    destruct (IH (appendPart f piece) "" Hf' Hv') as (?&?&Hp'&?&?). rewrite Hp', Hp.
    split_and!; [done..| |done|done]. by rewrite <-app_assoc.
Qed.

Lemma parse_parts f path : fieldref_wf f → path ≠ "" →
  fieldref_wf (FieldRef_parse f path) ∧ parts (FieldRef_parse f path) = pieces "" path.
Proof.
  intros Hwf Hne. unfold FieldRef_parse. rename path into s.
  destruct (Nat.eqb_spec (String.length s) 0); [by destruct s|].
  set (g := if negb _ then _ else _).
  assert (fieldref_wf g ∧ size_ g = 0%nat ∧ replacements g = []) as (Hg & H0 & Hr).
  { subst g. destruct (Nat.eqb_spec (size_ f) 0) as [E|E]; simpl.
    - split_and!; [done..|]. destruct Hwf as [_ _ [?|Hl] _]; [done|]. apply nil_length_inv. lia.
    - split_and!; [|done..]. split; [apply Hwf|done|by left|done]. }
  destruct (parse_loop_parts (set_dotted g s) "" s) as (?&?&Hp&Hd&Hr'); [apply Hg..|].
  assert (parts (set_dotted g s) = []) as E by (unfold parts; simpl; by rewrite H0).
  rewrite E in Hp. simpl in Hp.
  split; [|done]. split; [done..| |].
  - left. by rewrite Hr'.
  - intros _. rewrite Hd, Hp, join_pieces. done.
Qed.

(** ** Replacing parts *)

Lemma setPart_parts f i p : fieldref_wf f → (i < size_ f)%nat →
  fieldref_wf (setPart f i p) ∧ parts (setPart f i p) = <[i := p]> (parts f) ∧
  size_ (setPart f i p) = size_ f.
Proof.
  intros Hwf Hi. unfold setPart. set (r := if negb _ then _ else _).
  assert (length r = size_ f) as Hr.
  { subst r. destruct (Nat.eqb_spec (length (replacements f)) (size_ f)) as [E|E]; simpl; [done|].
    unfold vec_resize. rewrite length_app, length_take, length_replicate. lia. }
  set (g := mkFieldRef _ _ _ _ _).
  destruct (put_parts g (wf_fixed f Hwf) (wf_variable f Hwf) i p Hi) as (?&?&?).
  assert (size_ (put g i p) = size_ f ∧ replacements (put g i p) = <[i := p]> r) as [Hs Hrep]
    by (unfold put; by case_match).
  split_and!; [|done|done]. split; [done|by rewrite Hs|right|].
  - by rewrite Hrep, length_insert, Hs.
  - rewrite Hrep. intros E. apply (f_equal length) in E. rewrite length_insert in E. simpl in E. lia.
Qed.

Lemma nth_drop_cons {A} (d : A) l i : (i < length l)%nat → drop i l = nth i l d :: drop (S i) l.
Proof.
  intros Hi. destruct (lookup_lt_is_Some_2 l i Hi) as [x Hx].
  by rewrite (drop_S _ _ _ Hx), (nth_lookup_Some _ _ _ _ Hx).
Qed.

Lemma concat_parts_spec f i n next : fieldref_wf f → (i + n = size_ f)%nat → (0 < i)%nat →
  next = join_dots (take i (parts f)) → concat_parts f i n next = join_dots (parts f).
Proof.
  intros Hwf. pose proof (wf_length f Hwf) as Hl. revert i next.
  induction n as [|n IH]; intros i next Hn Hi ->; cbn [concat_parts].
  - rewrite take_ge; [done|lia].
  - apply IH; [lia..|]. destruct (Nat.ltb_spec 0 i); [|lia].
    assert ((i < length (parts f))%nat) as Hlt by lia.
    destruct (lookup_lt_is_Some_2 _ _ Hlt) as [x Hx]. rewrite (wf_getPart f i x) by done.
    rewrite (take_S_r _ _ _ Hx), join_dots_snoc; [done|].
    intros E. apply (f_equal length) in E. rewrite length_take in E. simpl in E. lia.
Qed.

Lemma concat_all f : fieldref_wf f → concat_parts f 0 (size_ f) "" = join_dots (parts f).
Proof.
  intros Hwf. pose proof (wf_length f Hwf) as Hl. destruct (size_ f) as [|n] eqn:Hs.
  - apply nil_length_inv in Hl. by rewrite Hl.
  - cbn [concat_parts]. apply concat_parts_spec; [done|lia..|].
    destruct (parts f) as [|x l] eqn:Hp; [done|].
    rewrite (wf_getPart f 0 x) by (done || by rewrite Hp). simpl. by rewrite take_0.
Qed.

(** Cutting the parts out of the text changes nothing but their storage. *)
Lemma put_same f i : (i < size_ f)%nat → fieldref_wf f → put f i (getPart f i) = f.
Proof.
  intros Hi [Hf Hv _ _]. unfold put, getPart.
  destruct (Nat.ltb_spec i kReserveAhead) as [Hk|Hk], f as [n fi va d r]; simpl in *; f_equal;
    apply list_insert_id; rewrite nth_lookup; destruct (_ !! _) as [x|] eqn:E; try done;
    apply lookup_ge_None in E; lia.
Qed.

Lemma fixup_parts_id f i n pos : fieldref_wf f → (i + n = size_ f)%nat →
  pos = join_dots (drop i (parts f)) → fixup_parts f i n pos = f.
Proof.
  intros Hwf. pose proof (wf_length f Hwf) as Hl. revert i pos.
  induction n as [|n IH]; intros i pos Hn Hpos; cbn [fixup_parts]; [done|].
  assert ((i < length (parts f))%nat) as Hlt by lia.
  destruct (lookup_lt_is_Some_2 _ _ Hlt) as [x Hx]. pose proof (wf_getPart f i x Hwf Hx) as Hg.
  rewrite (drop_S _ _ _ Hx) in Hpos.
  assert (str_take (String.length (getPart f i)) pos = getPart f i) as ->.
  { subst pos. rewrite Hg. destruct (drop (S i) (parts f)); [apply str_take_ge; simpl; lia|].
    rewrite join_dots_cons by done. apply str_take_app. }
  rewrite put_same by (done || lia). apply IH; [lia|]. subst pos. rewrite Hg.
  destruct (drop (S i) (parts f)) as [|y l] eqn:Hd.
  - change (join_dots [x]) with x.
    assert (str_drop (String.length x) x = "") as ->; [|done].
    rewrite <-(str_app_nil_r x) at 2. apply str_drop_app.
  - rewrite join_dots_cons, str_drop_app by done. simpl. by destruct (join_dots (y :: l)).
Qed.

Lemma reserialize_spec f : fieldref_wf f →
  reserialize f = mkFieldRef (size_ f) (fixed f) (variable f) (join_dots (parts f)) [].
Proof.
  intros Hwf. unfold reserialize. rewrite concat_all by done.
  rewrite (fixup_parts_id (set_dotted f _)); [done| |done|].
  - by split; [apply Hwf..|].
  - by rewrite drop_0.
Qed.

Lemma reserialize_wf f : fieldref_wf f →
  fieldref_wf (reserialize f) ∧ parts (reserialize f) = parts f ∧ replacements (reserialize f) = [] ∧
  size_ (reserialize f) = size_ f.
Proof.
  intros Hwf. rewrite reserialize_spec by done. split_and!; [|done..].
  split; [apply Hwf..|by left|done].
Qed.

Lemma strip_parts_spec f i offset result : fieldref_wf f → (i + offset < size_ f)%nat →
  result = join_dots (drop i (parts f)) →
  strip_parts f i offset result = join_dots (drop (i + offset) (parts f)).
Proof.
  intros Hwf. pose proof (wf_length f Hwf) as Hl. revert i result.
  induction offset as [|offset IH]; intros i result Hi ->; cbn [strip_parts]; [by rewrite Nat.add_0_r|].
  replace (i + S offset)%nat with (S i + offset)%nat by lia. apply IH; [lia|].
  assert ((i < length (parts f))%nat) as Hlt by lia.
  destruct (lookup_lt_is_Some_2 _ _ Hlt) as [x Hx]. rewrite (wf_getPart f i x), (drop_S _ _ _ Hx) by done.
  rewrite join_dots_cons; [apply str_drop_app_S|].
  intros E. apply (f_equal length) in E. rewrite length_drop in E. simpl in E. lia.
Qed.

Lemma dottedField_spec f offset : fieldref_wf f →
  (dottedField f offset).1 = join_dots (drop offset (parts f)) ∧
  fieldref_wf (dottedField f offset).2 ∧ parts (dottedField f offset).2 = parts f.
Proof.
  intros Hwf. pose proof (wf_length f Hwf) as Hl. unfold dottedField, numParts.
  destruct (Nat.eqb_spec (size_ f) 0) as [E|E]; simpl.
  { rewrite drop_ge by lia. done. }
  destruct (Nat.leb_spec (size_ f) offset) as [E'|E']; simpl.
  { rewrite drop_ge by lia. done. }
  set (g := match replacements f with [] => f | _ => _ end).
  assert (fieldref_wf g ∧ parts g = parts f ∧ replacements g = [] ∧ size_ g = size_ f) as (Hg&Hp&Hr&Hs).
  { subst g. destruct (replacements f) eqn:Hr; [done|]. by apply reserialize_wf. }
  split_and!; [|done..]. rewrite (strip_parts_spec g 0 offset); [by rewrite Hp|done|lia|].
  rewrite drop_0. by apply wf_dotted.
Qed.

(** ** Comparing *)

Lemma str_at_app a c b : str_at (a +:+ String c b) (String.length a) = Some c.
Proof. unfold str_at. by induction a. Qed.

Lemma str_at_drop s i c : str_at s i = Some c → str_drop i s = String c (str_drop (S i) s).
Proof.
  revert i. induction s as [|x s IH]; intros [|i]; simpl; try done.
  - intros [= ->]. by destruct s.
  - apply IH.
Qed.

Lemma str_app_cancel a b c : a +:+ b = a +:+ c → b = c.
Proof. induction a as [|x a IH]; [done|]. intros [= He]. by apply IH. Qed.

(** What follows the first part of a dotted text. *)
Lemma equals_join x l t : x +:+ t = join_dots (x :: l) ↔
  match t with EmptyString => l = [] | String c t => l ≠ [] ∧ c = "."%char ∧ t = join_dots l end.
Proof.
  destruct l as [|y l].
  - change (join_dots [x]) with x. rewrite <-(str_app_nil_r x) at 2. destruct t; [done|].
    split; [intros ?%str_app_cancel; done|by intros []].
  - rewrite join_dots_cons by done. destruct t as [|c t].
    + split; [intros ?%str_app_cancel; done|done].
    + split; [intros [= -> ->]%str_app_cancel; done|by intros (_ & -> & ->)].
Qed.

Lemma join_dots_startsWith x l : StringData_startsWith (join_dots (x :: l)) x = true.
Proof.
  apply StringData_startsWith_spec. destruct l; [exists ""; by rewrite str_app_nil_r|by eexists].
Qed.

Lemma equals_loop_spec f i n rest : fieldref_wf f → (i + n = size_ f)%nat →
  equals_loop f i n rest = true ↔ n ≠ 0%nat ∧ rest = join_dots (drop i (parts f)).
Proof.
  intros Hwf. pose proof (wf_length f Hwf) as Hl. revert i rest.
  induction n as [|n IH]; intros i rest Hn; cbn [equals_loop]; [naive_solver|].
  assert ((i < length (parts f))%nat) as Hlt by lia.
  destruct (lookup_lt_is_Some_2 _ _ Hlt) as [x Hx]. rewrite (wf_getPart f i x), (drop_S _ _ _ Hx) by done.
  pose proof (length_drop (parts f) (S i)) as Hd. specialize (IH (S i)). revert Hd IH.
  generalize (drop (S i) (parts f)) as l. intros l Hd IH.
  destruct (StringData_startsWith rest x) eqn:Hpre; cbn [negb].
  2: { split; [done|]. intros [_ ->]. by rewrite join_dots_startsWith in Hpre. }
  apply StringData_startsWith_spec in Hpre as [t ->]. rewrite equals_join, str_app_length.
  destruct t as [|c t]; cbn [String.length].
  - rewrite Nat.add_0_r, Nat.eqb_refl.
    destruct (Nat.eqb_spec i (size_ f - 1)); split; try done.
    + intros _. split; [done|]. apply nil_length_inv. lia.
    + intros [_ ->]. simpl in Hd. lia.
  - rewrite (proj2 (Nat.eqb_neq (_ + S _) _)), str_at_app, str_drop_app_S by lia.
    destruct (Nat.eqb_spec i (size_ f - 1)).
    + split; [done|]. intros (_ & Hne & _). destruct Hne, l; [done|simpl in Hd; lia].
    + destruct (Ascii.eqb_spec c ".") as [->|Hc]; cbn [negb]; [|naive_solver].
      rewrite IH by lia. split; [|naive_solver lia]. intros [? ->]. split_and!; try done.
      intros ->. simpl in Hd. lia.
Qed.

(** The length of the longest common prefix. *)
Fixpoint common (l k : list string) : nat :=
  match l, k with
  | x :: l, y :: k => if decide (x = y) then S (common l k) else O
  | _, _ => O
  end.

Lemma common_loop_spec f g i n : fieldref_wf f → fieldref_wf g →
  (i + n = size_ f `min` size_ g)%nat →
  common_loop f g i n = (i + common (drop i (parts f)) (drop i (parts g)))%nat.
Proof.
  intros Hf Hg. pose proof (wf_length f Hf) as Hlf. pose proof (wf_length g Hg) as Hlg.
  revert i. induction n as [|n IH]; intros i Hi; cbn [common_loop].
  - destruct (Nat.min_spec (size_ f) (size_ g)) as [[? Hm]|[? Hm]].
    + rewrite (drop_ge (parts f)) by lia. simpl. lia.
    + rewrite (drop_ge (parts g)) by lia. destruct (drop i (parts f)); simpl; lia.
  - destruct (lookup_lt_is_Some_2 (parts f) i) as [x Hx]; [lia|].
    destruct (lookup_lt_is_Some_2 (parts g) i) as [y Hy]; [lia|].
    rewrite (wf_getPart f i x), (wf_getPart g i y), (drop_S _ _ _ Hx), (drop_S _ _ _ Hy) by done.
    cbn [common]. destruct (StringData_eqb x y) eqn:E; cbn [negb].
    + apply StringData_eqb_eq in E. rewrite decide_True, IH by (done || lia). lia.
    + rewrite decide_False; [lia|]. intros ->. by rewrite (proj2 (StringData_eqb_eq y y)) in E.
Qed.

Lemma commonPrefixSize_spec f g : fieldref_wf f → fieldref_wf g →
  commonPrefixSize f g = common (parts f) (parts g).
Proof.
  intros Hf Hg. pose proof (wf_length f Hf) as Hlf. pose proof (wf_length g Hg) as Hlg.
  unfold commonPrefixSize. destruct (Nat.eqb_spec (size_ f) 0) as [E|E]; cbn [orb].
  { destruct (parts f); [done|simpl in *; lia]. }
  destruct (Nat.eqb_spec (size_ g) 0) as [E'|E'].
  { destruct (parts g); [by destruct (parts f)|simpl in *; lia]. }
  rewrite common_loop_spec by (done || lia). by rewrite !drop_0.
Qed.

Lemma common_full l k : common l k = length l ↔ l `prefix_of` k.
Proof.
  revert k. induction l as [|x l IH]; intros k; cbn [common length].
  - split; [intros; apply prefix_nil|by destruct k].
  - destruct k as [|y k].
    + split; [done|]. by intros ?%prefix_nil_not.
    + destruct (decide (x = y)) as [->|Hne].
      * split.
        -- intros [= Hc]. by apply prefix_cons, IH.
        -- intros Hp%prefix_cons_inv_2. f_equal. by apply IH.
      * split; [done|]. by intros ?%prefix_cons_inv_1.
Qed.

Lemma isPrefixOf_spec f g : fieldref_wf f → fieldref_wf g →
  FieldRef_isPrefixOf f g = true ↔ parts f ≠ [] ∧ parts f ≠ parts g ∧ parts f `prefix_of` parts g.
Proof.
  intros Hf Hg. pose proof (wf_length f Hf) as Hlf. pose proof (wf_length g Hg) as Hlg.
  unfold FieldRef_isPrefixOf. rewrite commonPrefixSize_spec, <-Hlf, <-Hlg by done.
  destruct (Nat.leb_spec (length (parts g)) (length (parts f))) as [E|E].
  { split; [done|]. intros (_ & Hne & Hp). destruct Hne. by apply prefix_length_eq. }
  destruct (Nat.eqb_spec (length (parts f)) 0) as [E'|E'].
  { apply nil_length_inv in E'. naive_solver. }
  rewrite andb_true_iff, Nat.eqb_eq, Nat.ltb_lt, common_full. split.
  - intros [Hp _]. split_and!; [intros Heq; by rewrite Heq in E'|intros Heq; rewrite Heq in E; lia|done].
  - intros (_ & _ & Hp). split; [done|]. by rewrite (proj2 (common_full _ _) Hp).
Qed.

(** The order of paths: the first different part decides, then the number of parts. *)
Fixpoint parts_compare (l k : list string) : Z :=
  match l, k with
  | [], [] => 0
  | [], _ :: _ => -1
  | _ :: _, [] => 1
  | x :: l, y :: k => if decide (x = y) then parts_compare l k else if str_lt x y then -1 else 1
  end.

Lemma compare_loop_spec f g i n : fieldref_wf f → fieldref_wf g →
  (i + n = size_ f `min` size_ g)%nat →
  parts_compare (drop i (parts f)) (drop i (parts g)) =
  match compare_loop f g i n with
  | Some c => c
  | None => if (size_ f =? size_ g)%nat then 0 else if (size_ f <? size_ g)%nat then -1 else 1
  end.
Proof.
  intros Hf Hg. pose proof (wf_length f Hf) as Hlf. pose proof (wf_length g Hg) as Hlg.
  revert i. induction n as [|n IH]; intros i Hi; cbn [compare_loop].
  - pose proof (length_drop (parts f) i). pose proof (length_drop (parts g) i).
    destruct (drop i (parts f)), (drop i (parts g)); simpl in *;
      destruct (Nat.eqb_spec (size_ f) (size_ g)), (Nat.ltb_spec (size_ f) (size_ g)); lia.
  - destruct (lookup_lt_is_Some_2 (parts f) i) as [x Hx]; [lia|].
    destruct (lookup_lt_is_Some_2 (parts g) i) as [y Hy]; [lia|].
    rewrite (wf_getPart f i x), (wf_getPart g i y), (drop_S _ _ _ Hx), (drop_S _ _ _ Hy) by done.
    cbn [parts_compare]. destruct (StringData_eqb x y) eqn:E.
    + apply StringData_eqb_eq in E. rewrite decide_True by done. apply IH. lia.
    + rewrite decide_False; [by rewrite StringData_compare_lt|].
      intros ->. by rewrite (proj2 (StringData_eqb_eq y y)) in E.
Qed.

Lemma compare_spec f g : fieldref_wf f → fieldref_wf g →
  FieldRef_compare f g = parts_compare (parts f) (parts g).
Proof.
  intros Hf Hg. rewrite <-(drop_0 (parts f)), <-(drop_0 (parts g)).
  rewrite (compare_loop_spec f g 0 (size_ f `min` size_ g)) by done.
  unfold FieldRef_compare. destruct (compare_loop _ _ _ _); [done|].
  destruct (Nat.eqb_spec (size_ f) (size_ g)) as [->|Hne].
  - by rewrite Nat.min_id, Nat.sub_diag.
  - destruct (Nat.min_spec (size_ f) (size_ g)) as [[? ->]|[? ->]]; rewrite Nat.sub_diag.
    + rewrite (proj2 (Nat.eqb_neq (size_ g - _) 0)), andb_false_r by lia.
      by rewrite !(proj2 (Nat.ltb_lt _ _)) by lia.
    + rewrite (proj2 (Nat.eqb_neq (size_ f - _) 0)) by lia. simpl.
      by rewrite (proj2 (Nat.ltb_ge (size_ f) (size_ g))) by lia.
Qed.

Lemma parts_compare_eq l k : parts_compare l k = 0 ↔ l = k.
Proof.
  revert k. induction l as [|x l IH]; intros [|y k]; simpl; [done|done|done|].
  destruct (decide (x = y)) as [->|Hne]; [rewrite IH; naive_solver|].
  split; [by case_match|naive_solver].
Qed.

(** ** A path is the list of its parts *)

(** C33: A [FieldRef] stands for the list of its parts.  Parsing a path splits it
    at the dots, whatever the object held before; replacing a part updates the
    list; the dotted text of any suffix is the parts joined, also after
    replacements; and equality with a text, prefix and order are those of the
    list. *)
Theorem fieldref_refines (f g : FieldRef) :
  fieldref_wf f → fieldref_wf g →
  (∀ path, path ≠ "" →
     fieldref_wf (FieldRef_parse f path) ∧ parts (FieldRef_parse f path) = splitStringDelim path "." ∧
     (dottedField (FieldRef_parse f path) 0).1 = path) ∧
  (∀ i p, (i < numParts f)%nat →
     fieldref_wf (setPart f i p) ∧ parts (setPart f i p) = <[i := p]> (parts f)) ∧
  (∀ i p, parts f !! i = Some p → getPart f i = p) ∧
  (∀ n, (dottedField f n).1 = join_dots (drop n (parts f)) ∧
     fieldref_wf (dottedField f n).2 ∧ parts (dottedField f n).2 = parts f) ∧
  (∀ s, equalsDottedField f s = true ↔ parts f ≠ [] ∧ s = join_dots (parts f)) ∧
  (FieldRef_isPrefixOf f g = true ↔ parts f ≠ [] ∧ parts f ≠ parts g ∧ parts f `prefix_of` parts g) ∧
  (FieldRef_compare f g = 0 ↔ parts f = parts g).
Proof.
  intros Hf Hg. pose proof (wf_length f Hf) as Hl. split_and!.
  - intros path Hne. destruct (parse_parts f path Hf Hne) as [Hp Hpp].
    destruct (dottedField_spec _ 0 Hp) as (Hd & _). split_and!; [done|by rewrite Hpp, pieces_split|].
    by rewrite Hd, drop_0, Hpp, join_pieces.
  - intros i p Hi. destruct (setPart_parts f i p Hf Hi) as (?&?&_). done.
  - intros i p. by apply wf_getPart.
  - intros n. by apply dottedField_spec.
  - intros s. unfold equalsDottedField. rewrite equals_loop_spec, drop_0, <-Hl by done.
    destruct (parts f); naive_solver.
  - by apply isPrefixOf_spec.
  - rewrite compare_spec by done. apply parts_compare_eq.
Qed.

(** Five parts, the last one in the vector and replaced. *)
Definition five : FieldRef := setPart (FieldRef_parse FieldRef_new "a.b..c.d") 4 "e".

Lemma fieldref_refines_witness :
  fieldref_wf five ∧ parts five = ["a"; "b"; ""; "c"; "e"] ∧ (dottedField five 3).1 = "c.e" ∧
  FieldRef_isPrefixOf FieldRef_new five = false.
Proof.
  assert (fieldref_wf five) as Hf.
  { apply setPart_parts; [|vm_compute; lia]. apply parse_parts; [apply FieldRef_new_wf|done]. }
  destruct (fieldref_refines five FieldRef_new Hf FieldRef_new_wf) as (_&_&_&Hd&_).
  split_and!; [done|by vm_compute| |by vm_compute]. rewrite (proj1 (Hd 3%nat)). by vm_compute.
Defined.
