(* ===== verification/ElementPath.v ===== *)
(** * Walking a path through a document: db/matcher/path.cpp

    [BSONElementIterator] enumerates the elements a dotted path reaches in a
    document: it descends into the objects of arrays, takes numeric pieces as
    array offsets, and keeps a nested cursor per level.  The class is modelled
    as the state machine it is; [contexts] is what it should produce, by recursion
    on the document, and [iterator_contexts] shows that the machine terminates
    and produces exactly that. *)

From S2P Require Import Prelude StdMap Bytes Bson FieldRef.

Record ElementPath := mkElementPath { fieldRef : FieldRef; shouldTraverseLeafArray : bool }.

(** [init] of a new path; it never fails. *)
Definition ElementPath_init (path : string) : ElementPath :=
  mkElementPath (FieldRef_parse FieldRef_new path) true.

Definition setTraverseLeafArray (p : ElementPath) (b : bool) : ElementPath := mkElementPath (fieldRef p) b.

(** ** path_internal.cpp *)

Fixpoint isAllDigits (str : string) : bool :=
  match str with
  | EmptyString => true
  | String c str => if negb (isdigit c) then false else isAllDigits str
  end.

(** The loop of [getFieldDottedOrArray], with the number of parts left: the
    element and the value of [partNum] when it stops. *)
Fixpoint field_loop (curr : BSONObj) (path : FieldRef) (res : BSONElement) (partNum todo : nat) : BSONElement * nat :=
  match todo with
  | O => (res, partNum)
  | S todo =>
      let res := getField curr (getPart path partNum) in
      match res.2 with
      | VEOO => (res, partNum)
      | VObject o => field_loop o path res (S partNum) todo
      | VArray _ => (res, partNum)
      | _ => if (S partNum <? numParts path)%nat then (eooElement, partNum) else (res, partNum)
      end
  end.

(** The second component is [*idxPath], which the caller has set to 0. *)
Definition getFieldDottedOrArray (doc : BSONObj) (path : FieldRef) : BSONElement * nat :=
  if (numParts path =? 0)%nat then (getField doc "", O)
  else field_loop doc path eooElement 0 (numParts path).

(** ** Contexts and iterators *)

Record Context := mkContext { element : BSONElement; arrayOffset : BSONElement; outerArray : bool }.

Definition setArrayOffset (e : BSONElement) (c : Context) : Context := mkContext (element c) e (outerArray c).

(** [reset()] clears the element only. *)
Definition Context_reset (c : Context) : Context := mkContext eooElement (arrayOffset c) (outerArray c).

Definition Context_new : Context := mkContext eooElement eooElement false.

Inductive State := BEGIN | IN_ARRAY | DONE.

Record ArrayIterationState := mkAIS {
  restOfPath : string;
  hasMore : bool;
  nextPieceOfPath : string;
  nextPieceOfPathIsNumber : bool;
  theArray : BSONElement;
  current : BSONElement;
  iterator_ : BSONObj        (** the elements the iterator has left *)
}.

Definition AIS_new : ArrayIterationState := mkAIS "" false "" false eooElement eooElement [].

Definition AIS_reset (a : ArrayIterationState) (ref : FieldRef) (start : nat) : ArrayIterationState :=
  let rest := (dottedField ref start).1 in
  let more := (0 <? String.length rest)%nat in
  let piece := if more then getPart ref start else nextPieceOfPath a in
  mkAIS rest more piece (if more then isAllDigits piece else false) (theArray a) (current a) (iterator_ a).

Definition isArrayOffsetMatch (a : ArrayIterationState) (name : string) : bool :=
  if negb (nextPieceOfPathIsNumber a) then false else StringData_eqb (nextPieceOfPath a) name.

Definition nextEntireRest (a : ArrayIterationState) : bool :=
  (String.length (nextPieceOfPath a) =? String.length (restOfPath a))%nat.

Definition startIterator (a : ArrayIterationState) (e : BSONElement) : res ArrayIterationState :=
  o ← embeddedObjectUserCheck e;
  Ok (mkAIS (restOfPath a) (hasMore a) (nextPieceOfPath a) (nextPieceOfPathIsNumber a) e (current a) o).

Definition set_current (a : ArrayIterationState) (e : BSONElement) (l : BSONObj) : ArrayIterationState :=
  mkAIS (restOfPath a) (hasMore a) (nextPieceOfPath a) (nextPieceOfPathIsNumber a) (theArray a) e l.

(** A [BSONElementIterator]: path, document, state, the context to hand out,
    the array being scanned, and the cursor into one of its elements. *)
Inductive BSONElementIterator :=
  mkIter (path : ElementPath) (context : BSONObj) (state : State) (next_ : Context)
    (ais : ArrayIterationState) (subCursor : option BSONElementIterator).

Definition BSONElementIterator_new (path : ElementPath) (context : BSONObj) : BSONElementIterator :=
  mkIter path context BEGIN Context_new AIS_new None.

(** [reset] for another document keeps the old array state. *)
Definition BSONElementIterator_reset (it : BSONElementIterator) (path : ElementPath) (context : BSONObj) :
    BSONElementIterator :=
  let 'mkIter _ _ _ next a _ := it in mkIter path context BEGIN (Context_reset next) a None.

(** [_subCursorPath]: a new path over [rest] with the same leaf behaviour. *)
Definition sub_path (path : ElementPath) (rest : string) : ElementPath :=
  setTraverseLeafArray (ElementPath_init rest) (shouldTraverseLeafArray path).

(** [restOfPath.substr(nextPieceOfPath.size() + 1)] *)
Definition path_after_piece (a : ArrayIterationState) : res string :=
  StringData_substr (restOfPath a) (S (String.length (nextPieceOfPath a))) None.

(** How the [while] loop of the state IN_ARRAY ends: with a context to hand
    out, with a new cursor, or at the end of the array. *)
Inductive scan :=
| Found (x : BSONElement) (a : ArrayIterationState)
| Enter (sub : BSONElementIterator) (a : ArrayIterationState)
| Exhausted (a : ArrayIterationState).

Fixpoint scan_array (path : ElementPath) (a : ArrayIterationState) (l : BSONObj) : res scan :=
  match l with
  | [] => Ok (Exhausted (set_current a (current a) []))
  | x :: l =>
      let a := set_current a x l in
      if negb (hasMore a) then Ok (Found x a)
      else
        match x.2 with
        | VObject o => Ok (Enter (BSONElementIterator_new (sub_path path (restOfPath a)) o) a)
        | _ =>
            if isArrayOffsetMatch a (fieldName x) then
              if nextEntireRest a then Ok (Found x a)
              else if isABSONObj x then
                rest ← path_after_piece a;
                o ← embeddedObjectUserCheck (current a);
                let p := sub_path path rest in
                real ← startIterator (AIS_reset AIS_new (fieldRef p) 0) x;
                Ok (Enter (mkIter p o IN_ARRAY Context_new real None) (set_current a eooElement l))
              else scan_array path a l
            else scan_array path a l
        end
  end.

(** [more] from the test of [_next] on, given [more] for the calls it makes on
    itself. *)
Definition more_own (more : BSONElementIterator → res (bool * BSONElementIterator))
    (it : BSONElementIterator) : res (bool * BSONElementIterator) :=
  let 'mkIter path context state next a sub := it in
  if negb (eoo (element next)) then Ok (true, it)
  else
    match state with
    | DONE => Ok (false, it)
    | BEGIN =>
        let '(e, idxPath) := getFieldDottedOrArray context (fieldRef path) in
        if negb (bool_decide (type e = Array))
        then Ok (true, mkIter path context DONE (mkContext e eooElement false) a sub)
        else
          let a := AIS_reset a (fieldRef path) (S idxPath) in
          if negb (hasMore a) && negb (shouldTraverseLeafArray path)
          then Ok (true, mkIter path context DONE (mkContext e eooElement true) a sub)
          else
            a ← startIterator a e;
            more (mkIter path context IN_ARRAY next a sub)
    | IN_ARRAY =>
        s ← scan_array path a (iterator_ a);
        match s with
        | Found x a => Ok (true, mkIter path context IN_ARRAY (mkContext x x false) a sub)
        | Enter s a => more (mkIter path context IN_ARRAY next a (Some s))
        | Exhausted a =>
            if hasMore a then Ok (false, mkIter path context IN_ARRAY next a sub)
            else Ok (true, mkIter path context DONE (mkContext (theArray a) eooElement true) a sub)
        end
    end.

Fixpoint more (fuel : nat) (it : BSONElementIterator) : res (bool * BSONElementIterator) :=
  match fuel with
  | O => Throw OutOfFuel
  | S fuel =>
      let 'mkIter path context state next a sub := it in
      match sub with
      | None => more_own (more fuel) it
      | Some s =>
          r ← more fuel s;
          if r.1 : bool then Ok (true, mkIter path context state next a (Some r.2))
          else if isArrayOffsetMatch a (fieldName (current a)) then
            if nextEntireRest a then
              Ok (true, mkIter path context state (mkContext (current a) (current a) true)
                          (set_current a eooElement (iterator_ a)) None)
            else
              rest ← path_after_piece a;
              o ← embeddedObjectUserCheck (current a);
              more fuel (mkIter path context state next (set_current a eooElement (iterator_ a))
                           (Some (BSONElementIterator_new (sub_path path rest) o)))
          else more_own (more fuel) (mkIter path context state next a None)
      end
  end.

Fixpoint next (it : BSONElementIterator) : Context * BSONElementIterator :=
  let 'mkIter path context state next_ a sub := it in
  match sub with
  | Some s =>
      let '(e, s) := next s in
      (setArrayOffset (current a) e, mkIter path context state next_ a (Some s))
  | None => (next_, mkIter path context state (Context_reset next_) a None)
  end.

(** ** What a path reaches *)

(** The longest walk through objects: the element found and the pieces after it. *)
Fixpoint walk (o : BSONObj) (p : list string) : BSONElement * list string :=
  match p with
  | [] => (getField o "", [])
  | piece :: p =>
      let e := getField o piece in
      match e.2 with
      | VObject o' => match p with [] => (e, []) | _ => walk o' p end
      | VArray _ | VEOO => (e, p)
      | _ => match p with [] => (e, []) | _ => (eooElement, p) end
      end
  end.

(** A path whose text is empty is the empty path. *)
Definition norm (p : list string) : list string := if (join_dots p =? "")%string then [] else p.

Definition offset_match (piece : string) (x : BSONElement) : bool :=
  isAllDigits piece && (piece =? fieldName x)%string.

(** The contexts of a path in a document, and of the pieces [rest] in the
    elements [l] of the array [e].  An object in an array is entered with the
    whole rest of the path and, when the next piece is its position, with what
    follows that piece. *)
Fixpoint contexts_fuel (fuel : nat) (trav : bool) (p : list string) (o : BSONObj) : list Context :=
  match fuel with
  | O => []
  | S fuel =>
      let '(e, rest) := walk o p in
      match e.2 with
      | VArray l =>
          if bool_decide (norm rest = []) && negb trav then [mkContext e eooElement true]
          else in_array_fuel fuel trav (norm rest) e l
      | _ => [mkContext e eooElement false]
      end
  end
with in_array_fuel (fuel : nat) (trav : bool) (rest : list string) (e : BSONElement) (l : BSONObj) : list Context :=
  match fuel, rest with
  | O, _ => []
  | S fuel, [] => map (λ x, mkContext x x false) l ++ [mkContext e eooElement true]
  | S fuel, piece :: deeper =>
      flat_map (λ x : BSONElement,
        match x.2 with
        | VObject o =>
            map (setArrayOffset x) (contexts_fuel fuel trav rest o) ++
            (if offset_match piece x then
               match deeper with
               | [] => [mkContext x x true]
               | _ => map (setArrayOffset eooElement) (contexts_fuel fuel trav (norm deeper) o)
               end
             else [])
        | VArray l' =>
            if offset_match piece x then
              match deeper with
              | [] => [mkContext x x false]
              | _ => map (setArrayOffset eooElement) (in_array_fuel fuel trav (norm deeper) x l')
              end
            else []
        | _ => if offset_match piece x then match deeper with [] => [mkContext x x false] | _ => [] end else []
        end) l
  end.

(** A bound on the work in a value: five for itself and those inside it. *)
Fixpoint vsize (v : value) : nat :=
  match v with
  | VObject o | VArray o => (5 + foldr (λ (e : BSONElement) n, vsize e.2 + n) 0 o)%nat
  | _ => 5%nat
  end.

Definition osize (o : BSONObj) : nat := foldr (λ (e : BSONElement) n, vsize e.2 + n)%nat 0%nat o.

Definition contexts (trav : bool) (p : list string) (o : BSONObj) : list Context :=
  contexts_fuel (S (osize o)) trav p o.

Definition in_array (trav : bool) (rest : list string) (e : BSONElement) (l : BSONObj) : list Context :=
  in_array_fuel (S (osize l)) trav rest e l.

Lemma osize_elem e o : e ∈ o → (vsize e.2 ≤ osize o)%nat.
Proof. induction 1; simpl; lia. Qed.

Lemma getField_or_eoo o n : getField o n = eooElement ∨ getField o n ∈ o.
Proof.
  induction o as [|e o IH]; simpl; [by left|]. case_match; [right; by left|].
  destruct IH as [->|?]; [by left|]. right. by right.
Qed.

Lemma getField_size o n l : (getField o n).2 = VObject l ∨ (getField o n).2 = VArray l →
  (osize l + 5 ≤ osize o)%nat.
Proof.
  destruct (getField_or_eoo o n) as [->|He%osize_elem]; [by intros []|].
  intros [Hl|Hl]; rewrite Hl in He; cbn [vsize] in He; fold (osize l) in He; lia.
Qed.

Lemma walk_array_size o p e rest l : walk o p = (e, rest) → e.2 = VArray l → (osize l + 5 ≤ osize o)%nat.
Proof.
  revert o. induction p as [|piece p IH]; intros o; cbn [walk].
  - intros [= <- <-] He. eapply getField_size. by right.
  - destruct (getField o piece).2 as [| | | |o'| | | | | | | | | | | | | | | | ] eqn:He;
      try (destruct p; intros [= <- <-] Hl; simplify_eq/=; congruence).
    + destruct p as [|p1 p]; [intros [= <- <-]; congruence|]. intros Hw Hl.
      pose proof (IH _ Hw Hl). pose proof (getField_size o piece o' (or_introl He)). lia.
    + intros [= <- <-] Hl. eapply getField_size. by right.
Qed.

Lemma elem_size (x : BSONElement) l k : x ∈ l → x.2 = VObject k ∨ x.2 = VArray k → (osize k + 5 ≤ osize l)%nat.
Proof.
  intros He%osize_elem Hk.
  destruct Hk as [Hk|Hk]; rewrite Hk in He; cbn [vsize] in He; fold (osize k) in He; lia.
Qed.

Lemma flat_map_ext_elem {A B} (f g : A → list B) l : (∀ x, x ∈ l → f x = g x) → flat_map f l = flat_map g l.
Proof.
  induction l as [|x l IH]; intros Hf; simpl; [done|]. f_equal; [apply Hf; by left|].
  apply IH. intros y Hy. apply Hf. by right.
Qed.

Lemma contexts_enough f trav :
  (∀ p o, (osize o < f)%nat → contexts_fuel f trav p o = contexts trav p o) ∧
  (∀ rest e l, (osize l < f)%nat → in_array_fuel f trav rest e l = in_array trav rest e l).
Proof.
  unfold contexts, in_array. induction (lt_wf f) as [f _ IH]. split.
  - intros p o Ho. destruct f as [|f]; [lia|]. cbn [contexts_fuel].
    destruct (walk o p) as [e rest] eqn:Hw. destruct e.2 eqn:He; try done.
    pose proof (walk_array_size _ _ _ _ _ Hw He). case_match; [done|].
    rewrite (proj2 (IH f ltac:(lia))) by lia.
    by rewrite (proj2 (IH (osize o) ltac:(lia))) by lia.
  - intros rest e l Hl. destruct f as [|f]; [lia|]. cbn [in_array_fuel]. destruct rest as [|piece deeper]; [done|].
    apply flat_map_ext_elem. intros x Hx.
    destruct x.2 as [| | | |o|k| | | | | | | | | | | | | | | ] eqn:Hv; try done.
    + pose proof (elem_size x l o Hx (or_introl Hv)).
      rewrite !(proj1 (IH f ltac:(lia))), !(proj1 (IH (osize l) ltac:(lia))) by lia. done.
    + pose proof (elem_size x l k Hx (or_intror Hv)).
      rewrite !(proj2 (IH f ltac:(lia))), !(proj2 (IH (osize l) ltac:(lia))) by lia. done.
Qed.

(** The equations of the enumeration. *)
Definition elem_contexts (trav : bool) (piece : string) (deeper : list string) (x : BSONElement) : list Context :=
  match x.2 with
  | VObject o =>
      map (setArrayOffset x) (contexts trav (piece :: deeper) o) ++
      (if offset_match piece x then
         match deeper with
         | [] => [mkContext x x true]
         | _ => map (setArrayOffset eooElement) (contexts trav (norm deeper) o)
         end
       else [])
  | VArray l =>
      if offset_match piece x then
        match deeper with
        | [] => [mkContext x x false]
        | _ => map (setArrayOffset eooElement) (in_array trav (norm deeper) x l)
        end
      else []
  | _ => if offset_match piece x then match deeper with [] => [mkContext x x false] | _ => [] end else []
  end.

Lemma contexts_eq trav p o : contexts trav p o =
  let '(e, rest) := walk o p in
  match e.2 with
  | VArray l =>
      if bool_decide (norm rest = []) && negb trav then [mkContext e eooElement true]
      else in_array trav (norm rest) e l
  | _ => [mkContext e eooElement false]
  end.
Proof.
  unfold contexts. cbn [contexts_fuel]. destruct (walk o p) as [e rest] eqn:Hw.
  destruct e.2 eqn:He; try done. pose proof (walk_array_size _ _ _ _ _ Hw He).
  by rewrite (proj2 (contexts_enough _ trav)) by lia.
Qed.

Lemma in_array_nil trav e l :
  in_array trav [] e l = map (λ x, mkContext x x false) l ++ [mkContext e eooElement true].
Proof. done. Qed.

Lemma in_array_cons trav piece deeper e l :
  in_array trav (piece :: deeper) e l = flat_map (elem_contexts trav piece deeper) l.
Proof.
  unfold in_array. cbn [in_array_fuel]. apply flat_map_ext_elem. intros x Hx. unfold elem_contexts.
  destruct x.2 as [| | | |o|k| | | | | | | | | | | | | | | ] eqn:Hv; try done.
  - pose proof (elem_size x l o Hx (or_introl Hv)). by rewrite !(proj1 (contexts_enough _ trav)) by lia.
  - pose proof (elem_size x l k Hx (or_intror Hv)). by rewrite !(proj2 (contexts_enough _ trav)) by lia.
Qed.

(** ** Properties of what is reached *)

Section closed.
Context (Q : value → Prop).
Hypothesis Qeoo : Q VEOO.
Hypothesis Qobject : ∀ o e, Q (VObject o) → e ∈ o → Q e.2.
Hypothesis Qarray : ∀ l e, Q (VArray l) → e ∈ l → Q e.2.

Lemma walk_closed o p e rest : Q (VObject o) → walk o p = (e, rest) → Q e.2.
Proof.
  assert (∀ o n, Q (VObject o) → Q (getField o n).2) as Hget.
  { intros o' n Ho. destruct (getField_or_eoo o' n) as [->|He]; [done|]. by eapply Qobject. }
  revert o. induction p as [|piece p IH]; intros o Ho; cbn [walk].
  - intros [= <- <-]. by apply Hget.
  - specialize (Hget o piece Ho). intros Hw.
    destruct (getField o piece).2 as [| | | |o'| | | | | | | | | | | | | | | | ] eqn:He; destruct p;
      try (injection Hw as <- <-; first [done | by rewrite He]).
    by apply (IH o').
Qed.

Lemma contexts_closed_fuel f trav :
  (∀ p o c, Q (VObject o) → c ∈ contexts_fuel f trav p o → Q (element c).2) ∧
  (∀ rest e l c, Q e.2 → (∀ x, x ∈ l → Q x.2) → c ∈ in_array_fuel f trav rest e l → Q (element c).2).
Proof.
  induction f as [|f [IHc IHa]]; [by split; intros; exfalso; eapply not_elem_of_nil|]. split.
  - intros p o c Ho. cbn [contexts_fuel]. destruct (walk o p) as [e rest] eqn:Hw.
    pose proof (walk_closed _ _ _ _ Ho Hw) as He.
    destruct e.2 as [| | | | |l| | | | | | | | | | | | | | | ] eqn:Hv;
      try (intros ->%list_elem_of_singleton; simpl; by rewrite Hv).
    case_match; [intros ->%list_elem_of_singleton; simpl; by rewrite Hv|].
    apply IHa; [by rewrite Hv|]. intros x. by apply Qarray.
  - intros rest e l c He Hl. cbn [in_array_fuel]. destruct rest as [|piece deeper].
    + rewrite elem_of_app, list_elem_of_singleton. intros [Hc| ->]; [|done].
      apply list_elem_of_In, in_map_iff in Hc as (x & <- & Hx). apply Hl. by apply list_elem_of_In.
    + rewrite list_elem_of_In, in_flat_map. intros (x & Hx & Hc). apply list_elem_of_In in Hx, Hc.
      specialize (Hl x Hx).
      destruct x.2 as [| | | |o|k| | | | | | | | | | | | | | | ] eqn:Hv; try (destruct (offset_match piece x));
        try (destruct deeper); rewrite ?app_nil_r in Hc;
        repeat match goal with
        | Hc : _ ∈ _ ++ _ |- _ => apply elem_of_app in Hc as [Hc|Hc]
        | Hc : _ ∈ [] |- _ => by apply not_elem_of_nil in Hc
        | Hc : _ ∈ [_] |- _ => apply list_elem_of_singleton in Hc as ->; simpl; by rewrite Hv
        | Hc : _ ∈ map _ _ |- _ => apply list_elem_of_In, in_map_iff in Hc as (c' & <- & Hc%list_elem_of_In); simpl
        end; first [by eapply IHc | eapply IHa; [by rewrite Hv| |done]; intros y; by apply Qarray].
Qed.

Lemma contexts_closed trav p o c : Q (VObject o) → c ∈ contexts trav p o → Q (element c).2.
Proof. apply contexts_closed_fuel. Qed.
End closed.

(** ** Paths and array states *)

Definition dotless (p : list string) : Prop := Forall (λ s, "."%char ∉ String.list_ascii_of_string s) p.

Record path_at (path : ElementPath) (trav : bool) (p : list string) : Prop := {
  pa_wf : fieldref_wf (fieldRef path);
  pa_parts : parts (fieldRef path) = p;
  pa_dotless : dotless p;
  pa_trav : shouldTraverseLeafArray path = trav
}.

Lemma pieces_app_dotless piece s t : "."%char ∉ String.list_ascii_of_string s →
  pieces piece (s +:+ t) = pieces (piece +:+ s) t.
Proof.
  revert piece. induction s as [|c s IH]; intros piece Hs; [by rewrite str_app_nil_r|].
  simpl in *. apply not_elem_of_cons in Hs as [Hc Hs].
  destruct (Ascii.eqb_spec c "."); [by subst|]. rewrite IH by done. by rewrite str_app_assoc.
Qed.

Lemma pieces_join p : dotless p → p ≠ [] → pieces "" (join_dots p) = p.
Proof.
  intros Hp. induction Hp as [|s p Hs Hp IH]; [done|]. intros _. destruct p as [|t p].
  - change (join_dots [s]) with s. rewrite <-(str_app_nil_r s) at 1. by rewrite pieces_app_dotless.
  - rewrite join_dots_cons, pieces_app_dotless by done. cbn [pieces Ascii.eqb Bool.eqb].
    f_equal. by apply IH.
Qed.

Lemma norm_norm p : norm (norm p) = norm p.
Proof. unfold norm. destruct (join_dots p =? "")%string eqn:E; [done|by rewrite E]. Qed.

Lemma norm_join p : join_dots (norm p) = join_dots p.
Proof. unfold norm. destruct (String.eqb_spec (join_dots p) "") as [E|E]; [by rewrite E|done]. Qed.

Lemma norm_dotless p : dotless p → dotless (norm p).
Proof. unfold norm. case_match; [constructor|done]. Qed.

Lemma init_at p : dotless p → path_at (ElementPath_init (join_dots p)) true (norm p).
Proof.
  intros Hp. unfold ElementPath_init, norm. destruct (String.eqb_spec (join_dots p) "") as [E|E].
  - rewrite E. split; [apply FieldRef_new_wf|done|constructor|done].
  - destruct (parse_parts FieldRef_new (join_dots p) FieldRef_new_wf E) as [Hwf Hparts].
    split; [done| |done|done]. simpl. rewrite Hparts. apply pieces_join; [done|]. by intros ->.
Qed.

Lemma sub_path_at path l : dotless l →
  path_at (sub_path path (join_dots l)) (shouldTraverseLeafArray path) (norm l).
Proof. intros Hl. by destruct (init_at l Hl). Qed.

Record ais_at (a : ArrayIterationState) (rest : list string) : Prop := {
  aa_rest : restOfPath a = join_dots rest;
  aa_more : hasMore a = negb (bool_decide (rest = []));
  aa_piece : ∀ piece deeper, rest = piece :: deeper →
    nextPieceOfPath a = piece ∧ nextPieceOfPathIsNumber a = isAllDigits piece;
  aa_norm : norm rest = rest;
  aa_dotless : dotless rest
}.

Lemma str_length_0 s : (0 <? String.length s)%nat = negb (s =? "")%string.
Proof. by destruct s. Qed.

Lemma AIS_reset_at path trav p a n : path_at path trav p →
  ais_at (AIS_reset a (fieldRef path) n) (norm (drop n p)).
Proof.
  intros [Hwf <- Hd _]. set (p := parts (fieldRef path)) in *.
  destruct (dottedField_spec _ n Hwf) as (Hj & _). fold p in Hj.
  unfold AIS_reset. rewrite Hj, str_length_0.
  split; simpl; [by rewrite norm_join| | |apply norm_norm|apply norm_dotless, Forall_drop, Hd];
    unfold norm; destruct (String.eqb_spec (join_dots (drop n p)) "") as [E|E]; simpl; try done.
  - symmetry. apply negb_true_iff, bool_decide_eq_false. by intros Hn; rewrite Hn in E.
  - intros piece deeper Hp. rewrite (wf_getPart _ n piece Hwf); [done|].
    fold p. by rewrite <-(Nat.add_0_r n), <-lookup_drop, Hp.
Qed.

Section array_state.
Context (a : ArrayIterationState) (piece : string) (deeper : list string) (Ha : ais_at a (piece :: deeper)).

Lemma isArrayOffsetMatch_at x : isArrayOffsetMatch a (fieldName x) = offset_match piece x.
Proof.
  destruct (aa_piece _ _ Ha piece deeper eq_refl) as [Hp Hn]. unfold isArrayOffsetMatch, offset_match.
  rewrite Hp, Hn. destruct (isAllDigits piece); simpl; [|done].
  destruct (String.eqb_spec piece (fieldName x)) as [->|Hne]; [by apply StringData_eqb_eq|].
  apply not_true_iff_false. by rewrite StringData_eqb_eq.
Qed.

Lemma nextEntireRest_at : nextEntireRest a = bool_decide (deeper = []).
Proof.
  destruct (aa_piece _ _ Ha piece deeper eq_refl) as [Hp _]. unfold nextEntireRest.
  rewrite Hp, (aa_rest _ _ Ha). destruct deeper as [|q l].
  - by rewrite Nat.eqb_refl.
  - rewrite join_dots_cons, str_app_length by done. simpl. apply Nat.eqb_neq. lia.
Qed.

Lemma path_after_piece_at : deeper ≠ [] → path_after_piece a = Ok (join_dots deeper).
Proof.
  intros Hd. destruct (aa_piece _ _ Ha piece deeper eq_refl) as [Hp _].
  unfold path_after_piece, StringData_substr. rewrite Hp, (aa_rest _ _ Ha), join_dots_cons by done.
  rewrite str_app_length. cbn [String.length]. destruct (Nat.ltb_spec (String.length piece + S (String.length (join_dots deeper)))
    (S (String.length piece))) as [?|_]; [lia|].
  rewrite str_drop_app_S, str_take_ge by lia. done.
Qed.
End array_state.

Lemma set_current_at a rest e l : ais_at a rest → ais_at (set_current a e l) rest.
Proof. intros []. by split. Qed.

Lemma startIterator_at a rest e l : ais_at a rest → e.2 = VArray l →
  ∃ a', startIterator a e = Ok a' ∧ ais_at a' rest ∧ theArray a' = e ∧ iterator_ a' = l.
Proof.
  intros [] He. unfold startIterator, embeddedObjectUserCheck. rewrite He. simpl.
  eexists. split; [done|]. split_and!; [by split|done|done].
Qed.

Lemma field_loop_walk path p : fieldref_wf path → parts path = p → ∀ o res i todo,
  (S i + todo = numParts path)%nat →
  ∃ e idx rest, field_loop o path res i (S todo) = (e, idx) ∧ walk o (drop i p) = (e, rest) ∧
    (type e = Array → rest = drop (S idx) p).
Proof.
  intros Hwf <- o res i todo. revert o res i. pose proof (wf_length _ Hwf) as Hl.
  induction todo as [|todo IH]; intros o res i Hi; unfold numParts in Hi;
    (destruct (lookup_lt_is_Some_2 (parts path) i) as [q Hq]; [lia|]);
    pose proof (length_drop (parts path) (S i)) as Hd;
    rewrite (drop_S _ _ _ Hq); cbn [field_loop walk]; rewrite (wf_getPart _ i q Hwf Hq).
  - rewrite (drop_ge _ (S i)) by lia. unfold numParts. rewrite (proj2 (Nat.ltb_ge _ _)) by lia.
    destruct (getField o q) as [n v]. simpl. destruct v; simpl; repeat eexists; try done; intros _;
      rewrite drop_ge by lia; done.
  - unfold numParts. rewrite (proj2 (Nat.ltb_lt _ _)) by lia.
    destruct (drop (S i) (parts path)) as [|q' l] eqn:Hdrop; [simpl in Hd; lia|].
    destruct (getField o q) as [n v]. cbn [snd]. destruct v as [| | | |o'| | | | | | | | | | | | | | | | ];
      try (repeat eexists; try done; intros _; by rewrite Hdrop).
    rewrite <-Hdrop. apply (IH o' (n, VObject o') (S i)). unfold numParts. lia.
Qed.

Lemma getFieldDottedOrArray_walk path trav p o : path_at path trav p →
  ∃ e idx rest, getFieldDottedOrArray o (fieldRef path) = (e, idx) ∧ walk o p = (e, rest) ∧
    (type e = Array → rest = drop (S idx) p).
Proof.
  intros [Hwf <- _ _]. unfold getFieldDottedOrArray, numParts. pose proof (wf_length _ Hwf) as Hl.
  destruct (size_ (fieldRef path)) as [|n] eqn:Hs; simpl (_ =? _)%nat; cbv iota.
  - apply nil_length_inv in Hl. rewrite Hl. by repeat eexists.
  - destruct (field_loop_walk _ _ Hwf eq_refl o eooElement 0 n) as (e & idx & rest & ? & Hw & ?);
      [unfold numParts; lia|]. rewrite drop_0 in Hw. by exists e, idx, rest.
Qed.

(** ** The machine produces the enumeration *)

(** Elements of arrays have names: their positions. *)
Fixpoint array_names (v : value) : bool :=
  match v with
  | VObject o => forallb (λ e : BSONElement, array_names e.2) o
  | VArray l => forallb (λ e : BSONElement, negb (fieldName e =? "")%string && array_names e.2) l
  | _ => true
  end.

Lemma array_names_object o e : array_names (VObject o) = true → e ∈ o → array_names e.2 = true.
Proof. simpl. rewrite forallb_forall. intros Ho He. apply Ho. by apply list_elem_of_In. Qed.

Lemma array_names_array l e : array_names (VArray l) = true → e ∈ l → array_names e.2 = true.
Proof.
  simpl. rewrite forallb_forall. intros Hl He%list_elem_of_In. by apply Hl, andb_true_iff in He as [_ ?].
Qed.

Lemma walk_names o p e rest : walk o p = (e, rest) → array_names (VObject o) = true → array_names e.2 = true.
Proof. intros Hw Ho. by eapply (walk_closed (λ v, array_names v = true) eq_refl array_names_object). Qed.

(** The second way into an object of an array: as the element at a position. *)
Definition second_contexts (trav : bool) (piece : string) (deeper : list string) (x : BSONElement) : list Context :=
  match x.2 with
  | VObject o =>
      if offset_match piece x then
        match deeper with
        | [] => [mkContext x x true]
        | _ => map (setArrayOffset eooElement) (contexts trav (norm deeper) o)
        end
      else []
  | _ => []
  end.

(** [iter_at trav it cs n]: the iterator, between a call of [next] and the next
    call of [more], will produce [cs]; [n] levels of recursion are enough. *)
Inductive iter_at (trav : bool) : BSONElementIterator → list Context → nat → Prop :=
| at_done path o nx a n :
    eoo (element nx) = true → (1 ≤ n)%nat → iter_at trav (mkIter path o DONE nx a None) [] n
| at_begin path o nx a p cs n :
    eoo (element nx) = true → path_at path trav p → array_names (VObject o) = true →
    cs = contexts trav p o → (osize o + 2 ≤ n)%nat →
    iter_at trav (mkIter path o BEGIN nx a None) cs n
| at_array path o nx a rest cs n :
    eoo (element nx) = true → shouldTraverseLeafArray path = trav → ais_at a rest →
    array_names (VArray (iterator_ a)) = true →
    cs = in_array trav rest (theArray a) (iterator_ a) → (osize (iterator_ a) + 1 ≤ n)%nat →
    iter_at trav (mkIter path o IN_ARRAY nx a None) cs n
| at_sub path o nx a piece deeper s sub_cs cs k n :
    eoo (element nx) = true → shouldTraverseLeafArray path = trav → ais_at a (piece :: deeper) →
    array_names (VArray (iterator_ a)) = true →
    iter_at trav s sub_cs k → (S k ≤ n)%nat → (osize (iterator_ a) + 1 ≤ n)%nat →
    (current a = eooElement ∧ piece ≠ "") ∨
    (∃ x, (current a).2 = VObject x ∧ array_names (VObject x) = true ∧ fieldName (current a) ≠ "" ∧
       (osize x + 4 ≤ n)%nat ∧ (osize (iterator_ a) + 2 ≤ n)%nat) →
    cs = map (setArrayOffset (current a)) sub_cs ++ second_contexts trav piece deeper (current a) ++
         in_array trav (piece :: deeper) (theArray a) (iterator_ a) →
    iter_at trav (mkIter path o IN_ARRAY nx a (Some s)) cs n.

Lemma iter_at_mono trav it cs n m : iter_at trav it cs n → (n ≤ m)%nat → iter_at trav it cs m.
Proof.
  destruct 1 as [| | |? ? ? ? ? ? ? ? ? ? ? ? ? ? ? ? ? ? Hc]; intros; [constructor|econstructor..]; eauto with lia.
  destruct Hc as [?|(?&?&?&?&?&?)]; [by left|]. right. eexists. split_and!; [done..|lia|lia].
Qed.

(** The outcome of a call of [more], and of the [next] after it. *)
Definition produces (trav : bool) (r : res (bool * BSONElementIterator)) (cs : list Context) (n : nat) : Prop :=
  match cs with
  | [] => ∃ it, r = Ok (false, it)
  | c :: cs => ∃ it, r = Ok (true, it) ∧ (next it).1 = c ∧ iter_at trav (next it).2 cs n
  end.

(** How a scan of the rest of an array ends. *)
Definition scanned (trav : bool) (path : ElementPath) (piece : string) (deeper : list string)
    (l : BSONObj) (s : scan) : Prop :=
  let cs := flat_map (elem_contexts trav piece deeper) l in
  ∀ o nx, eoo (element nx) = true →
  match s with
  | Found x a => ∃ cs', cs = mkContext x x false :: cs' ∧
      iter_at trav (mkIter path o IN_ARRAY nx a None) cs' (osize l + 1)
  | Enter sub a => iter_at trav (mkIter path o IN_ARRAY nx a (Some sub)) cs (osize l)
  | Exhausted a => cs = [] ∧ hasMore a = true
  end.

Lemma scanned_skip trav path piece deeper x l s : elem_contexts trav piece deeper x = [] →
  scanned trav path piece deeper l s → scanned trav path piece deeper (x :: l) s.
Proof.
  unfold scanned. cbn [flat_map]. intros -> Hs o nx Hnx. specialize (Hs o nx Hnx).
  assert (osize l ≤ osize (x :: l))%nat by (simpl; lia).
  destruct s; [|by eapply iter_at_mono|done].
  destruct Hs as (cs' & ? & ?). exists cs'. split; [done|]. eapply iter_at_mono; [done|lia].
Qed.

Section scan_step.
Context (path : ElementPath) (a : ArrayIterationState) (piece : string) (deeper : list string).
Context (x : BSONElement) (l : BSONObj).
Let trav := shouldTraverseLeafArray path.
Hypothesis (Ha : ais_at a (piece :: deeper)).
Hypothesis (Hnames : array_names (VArray (x :: l)) = true).

Lemma tail_names : array_names (VArray l) = true.
Proof. simpl in *. by apply andb_true_iff in Hnames as [_ ?]. Qed.

Lemma head_names : fieldName x ≠ "" ∧ array_names x.2 = true.
Proof.
  simpl in Hnames. apply andb_true_iff in Hnames as [[Hn ?]%andb_true_iff _]. split; [|done].
  by apply negb_true_iff, String.eqb_neq in Hn.
Qed.

Lemma scan_object o : x.2 = VObject o →
  scanned trav path piece deeper (x :: l)
    (Enter (BSONElementIterator_new (sub_path path (restOfPath a)) o) (set_current a x l)).
Proof.
  intros Hx ctx nx Hnx. destruct head_names as [Hname Hn]. rewrite Hx in Hn.
  eapply at_sub with (k := (osize o + 2)%nat);
    [done|done|by apply set_current_at|apply tail_names|eapply at_begin; [done| |done|done|lia]|..].
  - rewrite (aa_rest _ _ Ha). apply sub_path_at, (aa_dotless _ _ Ha).
  - simpl. rewrite Hx. simpl. fold (osize o) (osize l). lia.
  - simpl. rewrite Hx. simpl. fold (osize o) (osize l). lia.
  - right. exists o. split_and!; [done..| |]; simpl; rewrite Hx; simpl; fold (osize o) (osize l); lia.
  - rewrite in_array_cons. cbn [flat_map]. unfold elem_contexts at 1, second_contexts. simpl.
    rewrite Hx, <-app_assoc, (aa_norm _ _ Ha). done.
Qed.

Lemma scan_nested k : x.2 = VArray k → deeper ≠ [] → offset_match piece x = true →
  ∃ s, (rest ← path_after_piece (set_current a x l);
        o ← embeddedObjectUserCheck x;
        let p := sub_path path rest in
        real ← startIterator (AIS_reset AIS_new (fieldRef p) 0) x;
        Ok (Enter (mkIter p o IN_ARRAY Context_new real None) (set_current (set_current a x l) eooElement l)))
       = Ok s ∧ scanned trav path piece deeper (x :: l) s.
Proof.
  intros Hx Hd Hm. destruct head_names as [Hname Hn]. rewrite Hx in Hn.
  assert (dotless deeper) as Hdl by (pose proof (aa_dotless _ _ Ha); by inv H).
  rewrite (path_after_piece_at _ piece deeper) by (done || by apply set_current_at).
  pose proof (sub_path_at path deeper Hdl) as Hp.
  pose proof (AIS_reset_at _ _ _ AIS_new 0 Hp) as Hr. rewrite drop_0, norm_norm in Hr.
  destruct (startIterator_at _ _ x k Hr Hx) as (real & Hreal & Hat & Harr & Hit).
  unfold embeddedObjectUserCheck. rewrite Hx. cbn [mbind res_bind]. rewrite Hreal.
  eexists. split; [done|]. intros ctx nx Hnx.
  eapply at_sub with (k := (osize k + 1)%nat);
    [done|done|by apply set_current_at, set_current_at|apply tail_names|eapply at_array; [done|apply Hp|done|by rewrite Hit|done|by rewrite Hit]|..].
  - simpl. rewrite Hx. simpl. fold (osize k) (osize l). lia.
  - simpl. rewrite Hx. simpl. fold (osize k) (osize l). lia.
  - left. split; [done|]. intros ->. unfold offset_match in Hm. apply andb_true_iff in Hm as [_ Hm].
    apply String.eqb_eq in Hm. done.
  - rewrite in_array_cons. cbn [flat_map]. unfold elem_contexts at 1. rewrite Hx, Hm, Harr, Hit.
    by destruct deeper.
Qed.
End scan_step.

Lemma scan_found path a piece deeper x l : ais_at a (piece :: deeper) →
  array_names (VArray (x :: l)) = true →
  elem_contexts (shouldTraverseLeafArray path) piece deeper x = [mkContext x x false] →
  scanned (shouldTraverseLeafArray path) path piece deeper (x :: l) (Found x (set_current a x l)).
Proof.
  intros Ha Hn He o nx Hnx. eexists. cbn [flat_map]. rewrite He. split; [done|].
  eapply at_array; [done|done|by apply set_current_at|by eapply tail_names|by rewrite in_array_cons|simpl; lia].
Qed.

Lemma scan_spec path a piece deeper l : ais_at a (piece :: deeper) → array_names (VArray l) = true →
  ∃ s, scan_array path a l = Ok s ∧ scanned (shouldTraverseLeafArray path) path piece deeper l s.
Proof.
  revert a. induction l as [|x l IH]; intros a Ha Hn; cbn [scan_array].
  { eexists. split; [done|]. intros o nx _. split; [done|]. simpl. by rewrite (aa_more _ _ Ha). }
  pose proof (set_current_at a _ x l Ha) as Hc. pose proof (tail_names x l Hn) as Ht.
  assert (hasMore (set_current a x l) = true) as -> by (by rewrite (aa_more _ _ Hc)). cbn [negb].
  rewrite (isArrayOffsetMatch_at _ piece deeper Hc), (nextEntireRest_at _ piece deeper Hc).
  destruct (IH _ Hc Ht) as (s & Hs & Hsc).
  assert (elem_contexts (shouldTraverseLeafArray path) piece deeper x = [] →
    ∃ s, scan_array path (set_current a x l) l = Ok s ∧
      scanned (shouldTraverseLeafArray path) path piece deeper (x :: l) s) as Hskip.
  { intros He. exists s. split; [done|]. by apply scanned_skip. }
  pose proof (scan_found path a piece deeper x l Ha Hn) as Hfound. unfold elem_contexts in Hskip, Hfound.
  destruct x.2 as [| | | |o|k| | | | | | | | | | | | | | | ] eqn:Hx;
    try (destruct (offset_match piece x) eqn:Hm; [|by apply Hskip];
      case_bool_decide as Hd; [subst; eexists; split; [done|by apply Hfound]|];
      unfold isABSONObj, type; rewrite Hx; try (destruct deeper; [done|by apply Hskip])).
  - eexists. split; [done|]. exact (scan_object path a piece deeper x l Ha Hn o Hx).
  - by apply (scan_nested path a piece deeper x l Ha Hn k).
Qed.

(** The part of [more] after the sub-cursor, in an array. *)
Lemma own_array trav rec path o nx a rest n :
  (∀ it cs m, (m < n)%nat → iter_at trav it cs m → produces trav (rec it) cs m) →
  eoo (element nx) = true → shouldTraverseLeafArray path = trav → ais_at a rest →
  array_names (VArray (iterator_ a)) = true → (osize (iterator_ a) + 1 ≤ n)%nat →
  produces trav (more_own rec (mkIter path o IN_ARRAY nx a None))
    (in_array trav rest (theArray a) (iterator_ a)) n.
Proof.
  intros Hrec Hnx <- Ha Hn Hsize. unfold more_own. rewrite Hnx. cbn [negb].
  destruct rest as [|piece deeper].
  - rewrite in_array_nil. assert (hasMore a = false) as Hm by (by rewrite (aa_more _ _ Ha)).
    destruct (iterator_ a) as [|x l] eqn:Hit; cbn [scan_array mbind res_bind].
    + change (hasMore (set_current _ _ _)) with (hasMore a). rewrite Hm. eexists. split_and!; [done..|].
      simpl. constructor; [done|lia].
    + change (hasMore (set_current _ _ _)) with (hasMore a). rewrite Hm. eexists. split_and!; [done..|].
      eapply at_array; [done|done|by apply set_current_at|by eapply tail_names|by rewrite in_array_nil|simpl in *; lia].
  - destruct (scan_spec path a piece deeper _ Ha Hn) as (s & -> & Hs). rewrite in_array_cons.
    cbn [mbind res_bind]. destruct s as [x a'|sub a'|a'].
    + destruct (Hs o (Context_reset (mkContext x x false)) eq_refl) as (cs & -> & Hat).
      eexists. split_and!; [done..|]. by eapply iter_at_mono.
    + specialize (Hs o nx Hnx). pose proof (Hrec _ _ (osize (iterator_ a)) ltac:(lia) Hs) as Hp.
      unfold produces in *. destruct (flat_map _ _); [done|].
      destruct Hp as (it & ? & ? & ?). exists it. split_and!; [done..|]. eapply iter_at_mono; [done|lia].
    + destruct (Hs o nx Hnx) as [-> Hm]. rewrite Hm. by eexists.
Qed.

Lemma produces_mono trav r cs n m : produces trav r cs n → (n ≤ m)%nat → produces trav r cs m.
Proof.
  unfold produces. destruct cs; [done|]. intros (it & ? & ? & ?) ?. exists it.
  split_and!; [done..|]. by eapply iter_at_mono.
Qed.

Lemma own_begin trav rec path o nx a p n :
  (∀ it cs m, (m < n)%nat → iter_at trav it cs m → produces trav (rec it) cs m) →
  eoo (element nx) = true → path_at path trav p → array_names (VObject o) = true → (osize o + 2 ≤ n)%nat →
  produces trav (more_own rec (mkIter path o BEGIN nx a None)) (contexts trav p o) n.
Proof.
  intros Hrec Hnx Hp Hn Hsize. unfold more_own. rewrite Hnx, contexts_eq. cbn [negb].
  destruct (getFieldDottedOrArray_walk path trav p o Hp) as (e & idx & rest & -> & Hw & Hrest). rewrite Hw.
  destruct (decide (type e = Array)) as [He|He].
  2: { rewrite bool_decide_false by done. cbn [negb].
       destruct e as [name v]. destruct v; try done; eexists; (split_and!; [done..|]); constructor; (done || lia). }
  rewrite bool_decide_true by done. cbn [negb]. rewrite (Hrest He) in *.
  assert (∃ l, e.2 = VArray l) as [l Hl] by (destruct e as [? []]; try done; by eexists). rewrite Hl.
  pose proof (AIS_reset_at path trav p a (S idx) Hp) as Ha.
  rewrite (aa_more _ _ Ha), negb_involutive, (pa_trav _ _ _ Hp).
  destruct (bool_decide _ && negb trav) eqn:Hb.
  { eexists. split_and!; [done..|]. constructor; [done|lia]. }
  destruct (startIterator_at _ _ e l Ha Hl) as (a' & -> & Ha' & Harr & Hit). cbn [mbind res_bind].
  pose proof (walk_array_size _ _ _ _ _ Hw Hl).
  eapply produces_mono; [apply (Hrec _ _ (osize l + 1)%nat); [lia|]|lia].
  eapply at_array; [done|apply Hp|done| |by rewrite Harr, Hit|by rewrite Hit].
  rewrite Hit, <-Hl. by eapply walk_names.
Qed.

(** After a cursor into an object is exhausted: enter it as the element at a
    position, or go on with the array. *)
Lemma sub_exhausted trav rec path o nx a piece deeper n :
  (∀ it cs m, (m < n)%nat → iter_at trav it cs m → produces trav (rec it) cs m) →
  eoo (element nx) = true → shouldTraverseLeafArray path = trav → ais_at a (piece :: deeper) →
  array_names (VArray (iterator_ a)) = true → (osize (iterator_ a) + 1 ≤ n)%nat →
  (current a = eooElement ∧ piece ≠ "") ∨
  (∃ x, (current a).2 = VObject x ∧ array_names (VObject x) = true ∧ fieldName (current a) ≠ "" ∧
     (osize x + 4 ≤ n)%nat ∧ (osize (iterator_ a) + 2 ≤ n)%nat) →
  produces trav
    (if isArrayOffsetMatch a (fieldName (current a)) then
       if nextEntireRest a then
         Ok (true, mkIter path o IN_ARRAY (mkContext (current a) (current a) true)
                     (set_current a eooElement (iterator_ a)) None)
       else
         rest ← path_after_piece a;
         obj ← embeddedObjectUserCheck (current a);
         rec (mkIter path o IN_ARRAY nx (set_current a eooElement (iterator_ a))
                (Some (BSONElementIterator_new (sub_path path rest) obj)))
     else more_own rec (mkIter path o IN_ARRAY nx a None))
    (second_contexts trav piece deeper (current a) ++ in_array trav (piece :: deeper) (theArray a) (iterator_ a)) n.
Proof.
  intros Hrec Hnx Ht Ha Hn Hsz Hcur. rewrite (isArrayOffsetMatch_at _ piece deeper Ha), (nextEntireRest_at _ piece deeper Ha).
  pose proof (set_current_at a _ eooElement (iterator_ a) Ha) as Hc. unfold second_contexts.
  destruct Hcur as [[-> Hpiece]|(x & Hx & Hnx' & Hname & Hsx & Hsi)].
  { assert (offset_match piece eooElement = false) as ->; [|by apply own_array].
    unfold offset_match. apply andb_false_iff. right. by apply String.eqb_neq. }
  rewrite Hx. destruct (offset_match piece (current a)) eqn:Hm; [|by apply own_array].
  case_bool_decide as Hd; [subst deeper|].
  - eexists. split_and!; [done..|]. by eapply at_array.
  - assert (dotless deeper) as Hdl by (pose proof (aa_dotless _ _ Ha); by inv H).
    rewrite (path_after_piece_at _ piece deeper Ha Hd). unfold embeddedObjectUserCheck. rewrite Hx.
    cbn [mbind res_bind]. eapply produces_mono; [apply (Hrec _ _ (pred n)); [lia|]|lia].
    eapply at_sub with (k := (osize x + 2)%nat); [done|done|done|done|eapply at_begin; [done| |done|done|lia]|lia|simpl; lia|..].
    + rewrite <-Ht. by apply sub_path_at.
    + left. split; [done|]. intros ->. unfold offset_match in Hm. apply andb_true_iff in Hm as [_ Hm].
      by apply String.eqb_eq in Hm.
    + by destruct deeper.
Qed.

Lemma more_spec trav f it cs n : iter_at trav it cs n → (n ≤ f)%nat → produces trav (more f it) cs n.
Proof.
  revert it cs n. induction f as [|f IH]; intros it cs n Hat Hf; [destruct Hat; lia|].
  assert (∀ it cs m, (m < n)%nat → iter_at trav it cs m → produces trav (more f it) cs m) as Hrec.
  { intros ? ? ? ? ?. apply IH; [done|lia]. }
  destruct Hat as [path o nx a n Hnx|path o nx a p cs n Hnx Hp Hn ->|path o nx a rest cs n Hnx Ht Ha Hn ->
    |path o nx a piece deeper s sub_cs cs k n Hnx Ht Ha Hn Hs Hk Hsz Hcur ->]; cbn [more].
  - unfold more_own. rewrite Hnx. by eexists.
  - by apply own_begin.
  - by apply own_array.
  - pose proof (IH s sub_cs k Hs ltac:(lia)) as Hp. unfold produces in Hp.
    destruct sub_cs as [|c sub_cs]; cbn [map app].
    + destruct Hp as (s' & ->). by apply sub_exhausted.
    + destruct Hp as (s' & -> & Hc & Hat'). eexists. split; [done|]. cbn [next fst snd].
      destruct (next s') as [e s'']. simpl in Hc, Hat'. subst e. split; [done|].
      by eapply at_sub.
Qed.

(** ** Loops over an iterator *)

(** [while (cursor.more()) { e = cursor.next(); if (f(e)) return true; } return false;]
    with [depth] levels of recursion in [more] and at most [fuel] rounds. *)
Fixpoint any_context (fuel depth : nat) (f : Context → res bool) (it : BSONElementIterator) : res bool :=
  match fuel with
  | O => Throw OutOfFuel
  | S fuel =>
      r ← more depth it;
      if r.1 : bool then
        let '(e, it) := next r.2 in
        b ← f e;
        if b : bool then Ok true else any_context fuel depth f it
      else Ok false
  end.

(** The same loop, returning the context it stops at. *)
Fixpoint find_context (fuel depth : nat) (f : Context → res bool) (it : BSONElementIterator) : res (option Context) :=
  match fuel with
  | O => Throw OutOfFuel
  | S fuel =>
      r ← more depth it;
      if r.1 : bool then
        let '(e, it) := next r.2 in
        b ← f e;
        if b : bool then Ok (Some e) else find_context fuel depth f it
      else Ok None
  end.

(** The same test over a list. *)
Fixpoint any_in (f : Context → res bool) (cs : list Context) : res bool :=
  match cs with
  | [] => Ok false
  | c :: cs => b ← f c; if b : bool then Ok true else any_in f cs
  end.

Lemma any_context_at trav it cs n f fuel : iter_at trav it cs n → (length cs < fuel)%nat →
  any_context fuel n f it = any_in f cs.
Proof.
  revert it cs. induction fuel as [|fuel IH]; intros it cs Hat Hl; [lia|]. cbn [any_context].
  pose proof (more_spec _ n _ _ _ Hat ltac:(lia)) as Hp. unfold produces in Hp.
  destruct cs as [|c cs]; [by destruct Hp as (it' & ->)|].
  destruct Hp as (it' & -> & Hc & Hat'). cbn [mbind res_bind fst snd].
  destruct (next it') as [e it'']. simpl in Hc, Hat'. subst e. cbn [any_in].
  destruct (f c) as [[]|]; cbn [mbind res_bind]; [done| |done]. apply IH; [done|simpl in Hl; lia].
Qed.

(** Recursion and rounds that are enough for any path through [o]. *)
Definition iter_depth (o : BSONObj) : nat := (osize o + 2)%nat.
Definition iter_rounds (path : ElementPath) (o : BSONObj) : nat :=
  S (length (contexts (shouldTraverseLeafArray path) (parts (fieldRef path)) o)).

Definition any_element (path : ElementPath) (o : BSONObj) (f : Context → res bool) : res bool :=
  any_context (iter_rounds path o) (iter_depth o) f (BSONElementIterator_new path o).

Definition find_element (path : ElementPath) (o : BSONObj) (f : Context → res bool) : res (option Context) :=
  find_context (iter_rounds path o) (iter_depth o) f (BSONElementIterator_new path o).

(** A search succeeds when the element it looks for exists. *)
Lemma find_element_any path o f : any_element path o f =
  (r ← find_element path o f; Ok (bool_decide (is_Some r))).
Proof.
  unfold any_element, find_element. generalize (iter_rounds path o) as fuel, (BSONElementIterator_new path o) as it.
  induction fuel as [|fuel IH]; intros it; [done|]. cbn [any_context find_context].
  destruct (more _ it) as [[[] it']|]; cbn [mbind res_bind fst snd]; [|done|done].
  destruct (next it') as [c it'']. destruct (f c) as [[]|]; cbn [mbind res_bind]; [done| |done]. apply IH.
Qed.

Lemma find_element_true path o f c : find_element path o f = Ok (Some c) → f c = Ok true.
Proof.
  unfold find_element. generalize (iter_rounds path o) as fuel, (BSONElementIterator_new path o) as it.
  induction fuel as [|fuel IH]; intros it; [done|]. cbn [find_context].
  destruct (more _ it) as [[[] it']|]; cbn [mbind res_bind fst snd]; [|done|done].
  destruct (next it') as [c' it'']. destruct (f c') as [[]|] eqn:Hf; cbn [mbind res_bind]; [|apply IH|done].
  intros [= <-]. done.
Qed.

Lemma any_element_at path trav p o f : path_at path trav p → array_names (VObject o) = true →
  any_element path o f = any_in f (contexts trav p o).
Proof.
  intros Hp Hn. unfold any_element, iter_rounds. destruct Hp as [Hwf Hparts Hd Htrav] eqn:E. rewrite Hparts, Htrav.
  apply (any_context_at trav); [|lia]. by eapply at_begin.
Qed.

(** All contexts, by the same loop. *)
Fixpoint drain (fuel depth : nat) (it : BSONElementIterator) : res (list Context) :=
  match fuel with
  | O => Throw OutOfFuel
  | S fuel =>
      r ← more depth it;
      if r.1 : bool then
        let '(e, it) := next r.2 in
        cs ← drain fuel depth it; Ok (e :: cs)
      else Ok []
  end.

Lemma drain_at trav it cs n fuel : iter_at trav it cs n → (length cs < fuel)%nat →
  drain fuel n it = Ok cs.
Proof.
  revert it cs. induction fuel as [|fuel IH]; intros it cs Hat Hl; [lia|]. cbn [drain].
  pose proof (more_spec _ n _ _ _ Hat ltac:(lia)) as Hp. unfold produces in Hp.
  destruct cs as [|c cs]; [by destruct Hp as (it' & ->)|].
  destruct Hp as (it' & -> & Hc & Hat'). cbn [mbind res_bind fst snd].
  destruct (next it') as [e it'']. simpl in Hc, Hat'. subst e.
  rewrite (IH _ _ Hat'); [done|simpl in Hl; lia].
Qed.

Lemma init_split s trav :
  path_at (setTraverseLeafArray (ElementPath_init s) trav) trav (splitStringDelim s ".").
Proof.
  pose proof (init_at (splitStringDelim s ".") (split_no_delim s ".")) as Hp.
  unfold join_dots in Hp. rewrite join_split in Hp.
  assert (norm (splitStringDelim s ".") = splitStringDelim s ".") as Hn.
  { unfold norm, join_dots. rewrite join_split. by destruct (String.eqb_spec s "") as [->|]. }
  rewrite Hn in Hp. destruct Hp. by split.
Qed.

(** The path iterator terminates and visits exactly the elements the path
    reaches, in order: for any path and any document whose array elements have
    names, looping over the cursor gives [contexts], within [iter_depth] levels of
    recursion, and a search through the cursor, new or used before, is a search
    through that list. *)
Lemma iterator_contexts s trav o (f : Context → res bool) :
  array_names (VObject o) = true →
  let path := setTraverseLeafArray (ElementPath_init s) trav in
  drain (iter_rounds path o) (iter_depth o) (BSONElementIterator_new path o)
  = Ok (contexts trav (splitStringDelim s ".") o) ∧
  any_element path o f = any_in f (contexts trav (splitStringDelim s ".") o) ∧
  (∀ it, any_context (iter_rounds path o) (iter_depth o) f (BSONElementIterator_reset it path o)
         = any_in f (contexts trav (splitStringDelim s ".") o)).
Proof.
  intros Hn path. pose proof (init_split s trav) as Hp. split_and!; [|by apply any_element_at|].
  2: { intros [? ? ? nx a ?]. unfold iter_rounds, path. rewrite (pa_parts _ _ _ Hp), (pa_trav _ _ _ Hp).
       apply (any_context_at trav); [by eapply at_begin|lia]. }
  unfold iter_rounds, path. rewrite (pa_parts _ _ _ Hp), (pa_trav _ _ _ Hp).
  apply (drain_at trav); [by eapply at_begin|lia].
Qed.

(** [{a: [{b: 1}, {b: [2, 3]}, [{b: 4}]]}] *)
Definition nested : BSONObj :=
  [("a", VArray [("0", VObject [("b", VInt 1)]); ("1", VObject [("b", VArray [("0", VInt 2); ("1", VInt 3)])]);
                 ("2", VArray [("0", VObject [("b", VInt 4)])])])].

Lemma iterator_contexts_witness :
  map (λ c, (element c).2) (contexts true ["a"; "b"] nested)
    = [VInt 1; VInt 2; VInt 3; VArray [("0", VInt 2); ("1", VInt 3)]] ∧
  any_element (ElementPath_init "a.2.b") nested (λ c, Ok (isNumber (element c))) = Ok true.
Proof.
  split; [by vm_compute|].
  rewrite (proj1 (proj2 (iterator_contexts "a.2.b" true nested _ eq_refl))). by vm_compute.
Defined.
