(* ===== verification/MatchExpr.v ===== *)
(** * Match expressions: db/matcher/expression_{leaf,tree,array}.cpp

    The tree a filter is parsed into and what it means for a document to match
    it.  Every class of expression is a constructor of [MatchExpression]; the
    virtual functions [matches], [matchesSingleElement] and [matchesArray] are
    one mutual recursion.  [matches_details] is [matches] with the argument that
    records the position of the array element that matched, which projections use.
    Regular expressions are those of PCRE, an argument here, and so are the
    expressions that geometry, text search and [$where] add. *)

From S2P Require Import Prelude StdMap Bytes Oid Doubles Bson BsonCompare FieldRef ElementPath.

(** What comes from outside: PCRE, and the geometry, text and [$where]
    expressions, which other parts of the server add. *)
Record RE_Options := mkREOptions { caseless : bool; multiline : bool; extended : bool; dotall : bool }.

Class MatchEnv := {
  PartialMatch : string → RE_Options → string → bool;
  ext_expr : Type;
  ext_matches : ext_expr → BSONObj → res bool;
  ext_details : ext_expr → BSONObj → option string → res (bool * option string);
  ext_single : ext_expr → BSONElement → res bool;
  ext_isWhere : ext_expr → bool
}.

(** ** Entries of [$in] and [$all] *)

(** A [std::set] ordered by [BSONElementCmpWithoutField]. *)
Definition elem_ltb (l r : BSONElement) : res bool := x ← woCompare l r false; Ok (x <? 0).

Fixpoint BSONElementSet_insert (e : BSONElement) (s : list BSONElement) : res (list BSONElement) :=
  match s with
  | [] => Ok [e]
  | x :: s =>
      lt ← elem_ltb x e;
      if lt : bool then r ← BSONElementSet_insert e s; Ok (x :: r)
      else gt ← elem_ltb e x; Ok (if gt : bool then e :: x :: s else x :: s)
  end.

Fixpoint BSONElementSet_count (e : BSONElement) (s : list BSONElement) : res bool :=
  match s with
  | [] => Ok false
  | x :: s =>
      lt ← elem_ltb x e;
      if lt : bool then BSONElementSet_count e s
      else gt ← elem_ltb e x; Ok (negb gt)
  end.

Record RegexMatchExpression := mkRegex { re_path : string; re_regex : string; re_flags : string }.

Record ArrayFilterEntries := mkEntries {
  hasNull : bool;
  hasEmptyArray : bool;
  equalities : list BSONElement;
  regexes : list RegexMatchExpression
}.

Definition ArrayFilterEntries_new : ArrayFilterEntries := mkEntries false false [] [].

(** ** Expressions *)

Inductive MatchType := LTE | LT | EQ | GT | GTE.

Section expressions.
Context `{MatchEnv}.

Inductive MatchExpression :=
| AND (children : list MatchExpression)
| OR (children : list MatchExpression)
| NOR (children : list MatchExpression)
| NOT (child : MatchExpression)
| ALL (path : string) (list_ : list MatchExpression)
| ELEM_MATCH_OBJECT (path : string) (sub : MatchExpression)
| ELEM_MATCH_VALUE (path : string) (subs : list MatchExpression)
| SIZE (path : string) (size : Z)
| COMPARISON (matchType : MatchType) (path : string) (rhs : BSONElement)
| REGEX (re : RegexMatchExpression)
| MOD (path : string) (divisor remainder : Z)
| EXISTS (path : string)
| MATCH_IN (path : string) (arrayEntries : ArrayFilterEntries)
| TYPE_OPERATOR (path : string) (type_ : Z)
| ATOMIC
| ALWAYS_FALSE
| EXTERNAL (x : ext_expr).

(** [initPath]: arrays at the end of the path are opened by leaf expressions and
    kept whole by array expressions. *)
Definition leaf_path (path : string) : ElementPath := ElementPath_init path.
Definition array_path (path : string) : ElementPath := setTraverseLeafArray (ElementPath_init path) false.

(** *** Leaves *)

Definition comparison_single (matchType : MatchType) (rhs e : BSONElement) : res bool :=
  if negb (canonicalType e =? canonicalType rhs) then
    if canonicalType e + canonicalType rhs =? 5 then
      Ok (match matchType with EQ | LTE | GTE => true | _ => false end)
    else
      match type rhs with
      | MaxKey | MinKey => Ok (match matchType with EQ => false | _ => true end)
      | _ => Ok false
      end
  else
    x ← compareElementValues e.2 rhs.2;
    Ok (match matchType with
        | LT => x <? 0
        | LTE => x <=? 0
        | EQ => x =? 0
        | GT => 0 <? x
        | GTE => 0 <=? x
        end).

(** [flags2options] on a C string. *)
Fixpoint flags2options_loop (flags : string) (o : RE_Options) : RE_Options :=
  match flags with
  | EmptyString => o
  | String c flags =>
      flags2options_loop flags
        (if (c =? "i")%char then mkREOptions true (multiline o) (extended o) (dotall o)
         else if (c =? "m")%char then mkREOptions (caseless o) true (extended o) (dotall o)
         else if (c =? "x")%char then mkREOptions (caseless o) (multiline o) true (dotall o)
         else if (c =? "s")%char then mkREOptions (caseless o) (multiline o) (extended o) true
         else o)
  end.

Definition flags2options (flags : string) : RE_Options :=
  flags2options_loop (c_string flags) (mkREOptions false false false false).

(** The pattern, the flags and the text all reach PCRE as C strings. *)
Definition regex_single (re : RegexMatchExpression) (e : BSONElement) : bool :=
  match e.2 with
  | VString s | VSymbol s =>
      PartialMatch (c_string (re_regex re)) (flags2options (re_flags re)) (c_string s)
  | VRegEx p f => (re_regex re =? c_string p)%string && (re_flags re =? c_string f)%string
  | _ => false
  end.

(** [numberLong() % _divisor]: undefined by zero and when the quotient does not
    fit. *)
Definition mod_single (divisor remainder : Z) (e : BSONElement) : res bool :=
  if negb (isNumber e) then Ok false
  else
    n ← numberLong e;
    if divisor =? 0 then Throw (UndefinedBehaviour "% by zero in $mod")
    else if (n =? LLONG_MIN) && (divisor =? -1) then Throw (UndefinedBehaviour "overflow of % in $mod")
    else Ok (Z.rem n divisor =? remainder).

Definition type_single (type_ : Z) (e : BSONElement) : bool := BSONType_code (type e) =? type_.

Definition in_matchesRealElement (entries : ArrayFilterEntries) (e : BSONElement) : res bool :=
  c ← BSONElementSet_count e (equalities entries);
  if c : bool then Ok true else Ok (existsb (λ re, regex_single re e) (regexes entries)).

Definition in_single (entries : ArrayFilterEntries) (e : BSONElement) : res bool :=
  if hasNull entries && eoo e then Ok true else in_matchesRealElement entries e.

Definition size_array (size : Z) (anArray : BSONObj) : bool :=
  if size <? 0 then false else nFields anArray =? size.

(** *** Loops over children and elements *)

(** [for (...) if (!f(x)) return false; return true;] and its dual. *)
Definition all_of {A} (f : A → res bool) : list A → res bool :=
  fix go l :=
    match l with [] => Ok true | x :: l => b ← f x; if b : bool then go l else Ok false end.

Definition any_of {A} (f : A → res bool) : list A → res bool :=
  fix go l :=
    match l with [] => Ok false | x :: l => b ← f x; if b : bool then Ok true else go l end.

Definition res_negb (b : res bool) : res bool := x ← b; Ok (negb x).

Definition leaf_matches (path : string) (single : BSONElement → res bool) (doc : BSONObj) : res bool :=
  any_element (leaf_path path) doc (λ c, single (element c)).

Definition type_matches (path : string) (type_ : Z) (doc : BSONObj) : res bool :=
  any_element (leaf_path path) doc (λ c,
    if (type_ =? BSONType_code Array) && outerArray c then Ok false
    else Ok (type_single type_ (element c))).

Definition array_matches (path : string) (f : BSONObj → res bool) (doc : BSONObj) : res bool :=
  any_element (array_path path) doc (λ c,
    match (element c).2 with VArray a => f a | _ => Ok false end).

Definition array_single (f : BSONObj → res bool) (e : BSONElement) : res bool :=
  match e.2 with VArray a => f a | _ => Ok false end.

(** [ElemMatchObjectMatchExpression::matchesArray] and [Obj()] of an element. *)
Definition elem_object (f : BSONObj → res bool) (inner : BSONElement) : res bool :=
  match inner.2 with VObject o | VArray o => f o | _ => Ok false end.

Definition all_match (f : MatchExpression → res bool) (l : list MatchExpression) : res bool :=
  match l with [] => Ok false | _ => all_of f l end.

Fixpoint matches (e : MatchExpression) (doc : BSONObj) : res bool :=
  match e with
  | AND l => all_of (λ e, matches e doc) l
  | OR l => any_of (λ e, matches e doc) l
  | NOR l => res_negb (any_of (λ e, matches e doc) l)
  | NOT e => res_negb (matches e doc)
  | ALL path l => array_matches path (λ a, all_match (λ e, matchesArray e a) l) doc
  | ELEM_MATCH_OBJECT path sub => array_matches path (any_of (elem_object (matches sub))) doc
  | ELEM_MATCH_VALUE path subs =>
      array_matches path (any_of (λ inner, all_of (λ e, matchesSingleElement e inner) subs)) doc
  | SIZE path n => array_matches path (λ a, Ok (size_array n a)) doc
  | COMPARISON t path rhs => leaf_matches path (comparison_single t rhs) doc
  | REGEX re => leaf_matches (re_path re) (λ x, Ok (regex_single re x)) doc
  | MOD path d r => leaf_matches path (mod_single d r) doc
  | EXISTS path => leaf_matches path (λ x, Ok (negb (eoo x))) doc
  | MATCH_IN path entries => leaf_matches path (in_single entries) doc
  | TYPE_OPERATOR path t => type_matches path t doc
  | ATOMIC => Ok true
  | ALWAYS_FALSE => Ok false
  | EXTERNAL x => ext_matches x doc
  end
with matchesSingleElement (e : MatchExpression) (x : BSONElement) : res bool :=
  match e with
  | AND l => all_of (λ e, matchesSingleElement e x) l
  | OR l => any_of (λ e, matchesSingleElement e x) l
  | NOR l => res_negb (any_of (λ e, matchesSingleElement e x) l)
  | NOT e => res_negb (matchesSingleElement e x)
  | ALL _ l => array_single (λ a, all_match (λ e, matchesArray e a) l) x
  | ELEM_MATCH_OBJECT _ sub => array_single (any_of (elem_object (matches sub))) x
  | ELEM_MATCH_VALUE _ subs =>
      array_single (any_of (λ inner, all_of (λ e, matchesSingleElement e inner) subs)) x
  | SIZE _ n => array_single (λ a, Ok (size_array n a)) x
  | COMPARISON t _ rhs => comparison_single t rhs x
  | REGEX re => Ok (regex_single re x)
  | MOD _ d r => mod_single d r x
  | EXISTS _ => Ok (negb (eoo x))
  | MATCH_IN _ entries => in_single entries x
  | TYPE_OPERATOR _ t => Ok (type_single t x)
  | ATOMIC => Ok true
  | ALWAYS_FALSE => Ok false
  | EXTERNAL y => ext_single y x
  end
with matchesArray (e : MatchExpression) (anArray : BSONObj) : res bool :=
  match e with
  | ELEM_MATCH_OBJECT _ sub => any_of (elem_object (matches sub)) anArray
  | ELEM_MATCH_VALUE _ subs =>
      any_of (λ inner, all_of (λ e, matchesSingleElement e inner) subs) anArray
  | SIZE _ n => Ok (size_array n anArray)
  | _ => Throw (UndefinedBehaviour "static_cast to ArrayMatchingMatchExpression")
  end.

(** *** Recording the position *)

(** The first element of a list with a property. *)
Definition find_of {A} (f : A → res bool) : list A → res (option A) :=
  fix go l :=
    match l with [] => Ok None | x :: l => b ← f x; if b : bool then Ok (Some x) else go l end.

(** [setElemMatchKey] with the position of the context, if it has one. *)
Definition key_of_context (c : Context) (k : option string) : option string :=
  if eoo (arrayOffset c) then k else Some (fieldName (arrayOffset c)).

Definition leaf_details (path : string) (f : Context → res bool) (doc : BSONObj) (k : option string) :
    res (bool * option string) :=
  r ← find_element (leaf_path path) doc f;
  Ok (match r with Some c => (true, key_of_context c k) | None => (false, k) end).

(** For an array expression the position is that of the inner element when the
    array is not itself in an array. *)
Definition array_details (path : string) (f : BSONObj → res bool)
    (inner : BSONObj → res (option string)) (doc : BSONObj) (k : option string) : res (bool * option string) :=
  r ← find_element (array_path path) doc (λ c, match (element c).2 with VArray a => f a | _ => Ok false end);
  match r with
  | None => Ok (false, k)
  | Some c =>
      if negb (eoo (arrayOffset c)) then Ok (true, Some (fieldName (arrayOffset c)))
      else match (element c).2 with
           | VArray a => i ← inner a; Ok (true, match i with Some n => Some n | None => k end)
           | _ => Ok (true, k)
           end
  end.

Definition inner_name (f : BSONElement → res bool) (a : BSONObj) : res (option string) :=
  r ← find_of f a; Ok (match r with Some x => Some (fieldName x) | None => None end).

(** [matches] with [details]: the key recorded before and after.  Only [AND]
    passes the details on to its children. *)
Fixpoint matches_details (e : MatchExpression) (doc : BSONObj) (k : option string) : res (bool * option string) :=
  match e with
  | AND l =>
      (fix go l k :=
         match l with
         | [] => Ok (true, k)
         | e :: l => r ← matches_details e doc k; if r.1 : bool then go l r.2 else Ok (false, None)
         end) l k
  | OR _ | NOR _ | NOT _ | ALL _ _ | ATOMIC | ALWAYS_FALSE => b ← matches e doc; Ok (b, k)
  | ELEM_MATCH_OBJECT path sub =>
      array_details path (any_of (elem_object (matches sub))) (inner_name (elem_object (matches sub))) doc k
  | ELEM_MATCH_VALUE path subs =>
      let f inner := all_of (λ e, matchesSingleElement e inner) subs in
      array_details path (any_of f) (inner_name f) doc k
  | SIZE path n => array_details path (λ a, Ok (size_array n a)) (λ _, Ok None) doc k
  | COMPARISON t path rhs => leaf_details path (λ c, comparison_single t rhs (element c)) doc k
  | REGEX re => leaf_details (re_path re) (λ c, Ok (regex_single re (element c))) doc k
  | MOD path d r => leaf_details path (λ c, mod_single d r (element c)) doc k
  | EXISTS path => leaf_details path (λ c, Ok (negb (eoo (element c)))) doc k
  | MATCH_IN path entries => leaf_details path (λ c, in_single entries (element c)) doc k
  | TYPE_OPERATOR path t =>
      leaf_details path (λ c, if (t =? BSONType_code Array) && outerArray c then Ok false
                              else Ok (type_single t (element c))) doc k
  | EXTERNAL x => ext_details x doc k
  end.
End expressions.
