(* ===== verification/MatchSpec.v ===== *)
(** * What it means to match a filter

    [sat] is the meaning of an expression: which documents satisfy it, with every
    path reaching the elements of [contexts].  [tree_correct] shows that the
    functions of MatchExpr.v return and decide it, on documents and expressions
    without the values whose comparison or conversion C++ leaves open. *)

From S2P Require Import Prelude StdMap Bytes Oid Doubles Bson BsonCompare FieldRef ElementPath MatchExpr.

Section meaning.
Context `{MatchEnv}.

(** ** What it means to match *)

(** Induction over expressions, with the hypothesis for every child. *)
Section ind.
Context (P : MatchExpression → Prop).
Hypothesis HAND : ∀ l, Forall P l → P (AND l).
Hypothesis HOR : ∀ l, Forall P l → P (OR l).
Hypothesis HNOR : ∀ l, Forall P l → P (NOR l).
Hypothesis HNOT : ∀ e, P e → P (NOT e).
Hypothesis HALL : ∀ p l, Forall P l → P (ALL p l).
Hypothesis HELEMO : ∀ p e, P e → P (ELEM_MATCH_OBJECT p e).
Hypothesis HELEMV : ∀ p l, Forall P l → P (ELEM_MATCH_VALUE p l).
Hypothesis HSIZE : ∀ p n, P (SIZE p n).
Hypothesis HCMP : ∀ t p r, P (COMPARISON t p r).
Hypothesis HREGEX : ∀ r, P (REGEX r).
Hypothesis HMOD : ∀ p d r, P (MOD p d r).
Hypothesis HEXISTS : ∀ p, P (EXISTS p).
Hypothesis HIN : ∀ p s, P (MATCH_IN p s).
Hypothesis HTYPE : ∀ p t, P (TYPE_OPERATOR p t).
Hypothesis HATOMIC : P ATOMIC.
Hypothesis HFALSE : P ALWAYS_FALSE.
Hypothesis HEXT : ∀ x, P (EXTERNAL x).

Fixpoint MatchExpression_ind' (e : MatchExpression) : P e :=
  let all := fix go (l : list MatchExpression) : Forall P l :=
    match l with
    | [] => Forall_nil_2 _
    | e :: l => Forall_cons_2 _ _ _ (MatchExpression_ind' e) (go l)
    end in
  match e with
  | AND l => HAND l (all l) | OR l => HOR l (all l) | NOR l => HNOR l (all l)
  | NOT e => HNOT e (MatchExpression_ind' e)
  | ALL p l => HALL p l (all l)
  | ELEM_MATCH_OBJECT p e => HELEMO p e (MatchExpression_ind' e)
  | ELEM_MATCH_VALUE p l => HELEMV p l (all l)
  | SIZE p n => HSIZE p n | COMPARISON t p r => HCMP t p r | REGEX r => HREGEX r
  | MOD p d r => HMOD p d r | EXISTS p => HEXISTS p | MATCH_IN p s => HIN p s
  | TYPE_OPERATOR p t => HTYPE p t | ATOMIC => HATOMIC | ALWAYS_FALSE => HFALSE
  | EXTERNAL x => HEXT x
  end.
End ind.

(** An element the path reaches, arrays at its end opened or not. *)
Definition reaches (trav : bool) (path : string) (doc : BSONObj) (c : Context) : Prop :=
  c ∈ contexts trav (splitStringDelim path ".") doc.

(** The meaning of an expression on a document, an element and an array. *)
Fixpoint sat (e : MatchExpression) (doc : BSONObj) : Prop :=
  match e with
  | AND l => foldr (λ e P, sat e doc ∧ P) True l
  | OR l => foldr (λ e P, sat e doc ∨ P) False l
  | NOR l => foldr (λ e P, ¬ sat e doc ∧ P) True l
  | NOT e => ¬ sat e doc
  | ALL path l => ∃ c a, reaches false path doc c ∧ (element c).2 = VArray a ∧
      l ≠ [] ∧ foldr (λ e P, sat_array e a ∧ P) True l
  | ELEM_MATCH_OBJECT path sub => ∃ c a x o, reaches false path doc c ∧ (element c).2 = VArray a ∧
      x ∈ a ∧ (x.2 = VObject o ∨ x.2 = VArray o) ∧ sat sub o
  | ELEM_MATCH_VALUE path subs => ∃ c a x, reaches false path doc c ∧ (element c).2 = VArray a ∧
      x ∈ a ∧ foldr (λ e P, sat_single e x ∧ P) True subs
  | SIZE path n => ∃ c a, reaches false path doc c ∧ (element c).2 = VArray a ∧ nFields a = n
  | COMPARISON t path rhs => ∃ c, reaches true path doc c ∧ comparison_single t rhs (element c) = Ok true
  | REGEX re => ∃ c, reaches true (re_path re) doc c ∧ regex_single re (element c) = true
  | MOD path d r => ∃ c, reaches true path doc c ∧ mod_single d r (element c) = Ok true
  | EXISTS path => ∃ c, reaches true path doc c ∧ eoo (element c) = false
  | MATCH_IN path s => ∃ c, reaches true path doc c ∧ in_single s (element c) = Ok true
  | TYPE_OPERATOR path t => ∃ c, reaches true path doc c ∧ type_single t (element c) = true ∧
      ¬ (t = BSONType_code Array ∧ outerArray c = true)
  | ATOMIC => True
  | ALWAYS_FALSE => False
  | EXTERNAL x => ext_matches x doc = Ok true
  end
with sat_single (e : MatchExpression) (x : BSONElement) : Prop :=
  match e with
  | AND l => foldr (λ e P, sat_single e x ∧ P) True l
  | OR l => foldr (λ e P, sat_single e x ∨ P) False l
  | NOR l => foldr (λ e P, ¬ sat_single e x ∧ P) True l
  | NOT e => ¬ sat_single e x
  | ALL _ l => ∃ a, x.2 = VArray a ∧ l ≠ [] ∧ foldr (λ e P, sat_array e a ∧ P) True l
  | ELEM_MATCH_OBJECT _ sub => ∃ a y o, x.2 = VArray a ∧ y ∈ a ∧ (y.2 = VObject o ∨ y.2 = VArray o) ∧ sat sub o
  | ELEM_MATCH_VALUE _ subs => ∃ a y, x.2 = VArray a ∧ y ∈ a ∧ foldr (λ e P, sat_single e y ∧ P) True subs
  | SIZE _ n => ∃ a, x.2 = VArray a ∧ nFields a = n
  | COMPARISON t _ rhs => comparison_single t rhs x = Ok true
  | REGEX re => regex_single re x = true
  | MOD _ d r => mod_single d r x = Ok true
  | EXISTS _ => eoo x = false
  | MATCH_IN _ s => in_single s x = Ok true
  | TYPE_OPERATOR _ t => type_single t x = true
  | ATOMIC => True
  | ALWAYS_FALSE => False
  | EXTERNAL y => ext_single y x = Ok true
  end
with sat_array (e : MatchExpression) (a : BSONObj) : Prop :=
  match e with
  | ELEM_MATCH_OBJECT _ sub => ∃ y o, y ∈ a ∧ (y.2 = VObject o ∨ y.2 = VArray o) ∧ sat sub o
  | ELEM_MATCH_VALUE _ subs => ∃ y, y ∈ a ∧ foldr (λ e P, sat_single e y ∧ P) True subs
  | SIZE _ n => nFields a = n
  | _ => False
  end.

(** Values that every comparison and conversion is defined on: no time stamps,
    no doubles outside the 64-bit integers and not their minimum, and named array
    elements. *)
Fixpoint tame (v : value) : bool :=
  match v with
  | VTimestamp _ => false
  | VLong n | VInt n => negb (n =? LLONG_MIN)
  | VDouble d => match double_to_long d with Ok n => negb (n =? LLONG_MIN) | Throw _ => false end
  | VObject o => forallb (λ e : BSONElement, tame e.2) o
  | VArray l => forallb (λ e : BSONElement, negb (fieldName e =? "")%string && tame e.2) l
  | _ => true
  end.

(** Expressions that cannot throw on such values. *)
Fixpoint safe (e : MatchExpression) : bool :=
  match e with
  | AND l | OR l | NOR l | ELEM_MATCH_VALUE _ l => forallb safe l
  | NOT e | ELEM_MATCH_OBJECT _ e => safe e
  | ALL _ l =>
      forallb (λ e, match e with ELEM_MATCH_OBJECT _ _ | ELEM_MATCH_VALUE _ _ | SIZE _ _ => safe e | _ => false end) l
  | COMPARISON _ _ rhs => negb (has_timestamp rhs.2)
  | MOD _ d _ => negb (d =? 0)
  | MATCH_IN _ s => forallb (λ x : BSONElement, negb (has_timestamp x.2)) (equalities s)
  | _ => true
  end.
End meaning.

(** ** Matching decides the meaning *)

(** The call returns, and tells whether [P] holds. *)
Definition decides (r : res bool) (P : Prop) : Prop := ∃ b, r = Ok b ∧ (b = true ↔ P).

Lemma decides_Ok b (P : Prop) : (b = true ↔ P) → decides (Ok b) P.
Proof. by exists b. Qed.

Lemma decides_iff r P Q : (P ↔ Q) → decides r P → decides r Q.
Proof. intros HPQ (b & -> & Hb). exists b. split; [done|]. by rewrite Hb. Qed.

#[global] Instance decides_proper r : Proper (iff ==> iff) (decides r).
Proof. intros P Q HPQ. split; apply decides_iff; [done|by symmetry]. Qed.

(** A call that returns decides that it returns true. *)
Lemma decides_self r : is_Ok r = true → decides r (r = Ok true).
Proof. destruct r as [b|]; [|done]. intros _. exists b. split; [done|]. split; [by intros ->|by intros [= ->]]. Qed.

Lemma decides_negb r P : decides r P → decides (res_negb r) (¬ P).
Proof. intros (b & -> & Hb). exists (negb b). split; [done|]. rewrite <-Hb. by destruct b. Qed.

Section loops.
Context {A : Type} (f : A → res bool) (P : A → Prop).

Lemma decides_all_of l : Forall (λ x, decides (f x) (P x)) l →
  decides (all_of f l) (foldr (λ x Q, P x ∧ Q) True l).
Proof.
  induction 1 as [|x l (b & Hb & HP) _ (c & IH & HQ)]; [by apply decides_Ok|].
  cbn [all_of]. rewrite Hb. cbn [mbind res_bind foldr]. rewrite <-HP.
  destruct b; [rewrite IH; exists c; split; [done|]; rewrite <-HQ; naive_solver|].
  exists false. naive_solver.
Qed.

Lemma decides_any_of l : Forall (λ x, decides (f x) (P x)) l →
  decides (any_of f l) (foldr (λ x Q, P x ∨ Q) False l).
Proof.
  induction 1 as [|x l (b & Hb & HP) _ (c & IH & HQ)]; [by apply decides_Ok|].
  cbn [any_of]. rewrite Hb. cbn [mbind res_bind foldr]. rewrite <-HP.
  destruct b; [exists true; naive_solver|].
  rewrite IH. exists c. split; [done|]. rewrite <-HQ. naive_solver.
Qed.
End loops.

Lemma foldr_or_elem {A} (P : A → Prop) l : foldr (λ x Q, P x ∨ Q) False l ↔ ∃ x, x ∈ l ∧ P x.
Proof.
  induction l as [|y l IH]; simpl.
  - split; [done|]. by intros (x & ?%not_elem_of_nil & _).
  - rewrite IH. split.
    + intros [?|(x & ? & ?)]; [exists y; split; [by left|done]|exists x; split; [by right|done]].
    + intros (x & [->|?]%elem_of_cons & ?); [by left|right; eauto].
Qed.

Lemma foldr_nor {A} (P : A → Prop) l : foldr (λ x Q, ¬ P x ∧ Q) True l ↔ ¬ foldr (λ x Q, P x ∨ Q) False l.
Proof. induction l as [|y l IH]; simpl; naive_solver. Qed.

Lemma decides_exists {A} (f : A → res bool) (P : A → Prop) l :
  (∀ x, x ∈ l → decides (f x) (P x)) → decides (any_of f l) (∃ x, x ∈ l ∧ P x).
Proof. intros Hf. eapply decides_iff; [apply foldr_or_elem|]. by apply decides_any_of, Forall_forall. Qed.

Lemma any_in_any_of f cs : any_in f cs = any_of f cs.
Proof. induction cs as [|c cs IH]; [done|]. cbn [any_in any_of]. by rewrite IH. Qed.


(** *** Tame values *)

Lemma tame_object o e : tame (VObject o) = true → e ∈ o → tame e.2 = true.
Proof. simpl. rewrite forallb_forall. intros Ho He. apply Ho. by apply list_elem_of_In. Qed.

Lemma tame_array l e : tame (VArray l) = true → e ∈ l → tame e.2 = true.
Proof.
  simpl. rewrite forallb_forall. intros Hl He%list_elem_of_In. by apply Hl, andb_true_iff in He as [_ ?].
Qed.

Lemma tame_as_object l : tame (VArray l) = true → tame (VObject l) = true.
Proof. intros Hl. simpl. apply forallb_forall. intros e He. by eapply tame_array; [|apply list_elem_of_In]. Qed.

Lemma tame_names v : tame v = true → array_names v = true.
Proof.
  induction v as [| | | |o IH|l IH| | | | | | | | | | | | | | | ] using value_ind'; try done; simpl;
    rewrite !forallb_forall; rewrite Forall_forall in IH; intros Hf e He; specialize (Hf e He);
    apply list_elem_of_In in He; rewrite ?andb_true_iff in *; naive_solver.
Qed.

Lemma tame_no_timestamp v : tame v = true → has_timestamp v = false.
Proof.
  induction v as [| | | |o IH|l IH| | | | | | | | | | | | | | | ] using value_ind'; try done; simpl;
    rewrite forallb_forall; rewrite Forall_forall in IH; intros Hf; apply not_true_iff_false;
    rewrite existsb_exists; intros (e & He & Ht); specialize (Hf e He); apply list_elem_of_In in He;
    rewrite ?andb_true_iff in *; rewrite (IH e He) in Ht; naive_solver.
Qed.

Lemma context_tame trav p o c : tame (VObject o) = true → c ∈ contexts trav p o → tame (element c).2 = true.
Proof.
  apply (contexts_closed (λ v, tame v = true)); [done|apply tame_object|apply tame_array].
Qed.

(** *** Leaves *)

Lemma comparison_single_Ok t rhs e : has_timestamp rhs.2 = false → is_Ok (comparison_single t rhs e) = true.
Proof.
  intros Hr. unfold comparison_single. destruct (Z.eqb_spec (canonicalType e) (canonicalType rhs)) as [Hc|Hc]; simpl.
  - destruct (compare_total e.2 rhs.2 Hc Hr) as [x ->]. done.
  - repeat case_match; done.
Qed.

Lemma elem_ltb_Ok l r : has_timestamp r.2 = false → ∃ b, elem_ltb l r = Ok b.
Proof.
  intros Hr. unfold elem_ltb, woCompare.
  destruct (woCompare_with_total compareElementValues false l.1 l.2 r.1 r.2 (compare_total _) Hr) as [x ->].
  by eexists.
Qed.

Lemma set_count_Ok e s : has_timestamp e.2 = false →
  Forall (λ x : BSONElement, has_timestamp x.2 = false) s → ∃ b, BSONElementSet_count e s = Ok b.
Proof.
  intros He. induction 1 as [|x s Hx _ IH]; cbn [BSONElementSet_count]; [by eexists|].
  destruct (elem_ltb_Ok x e He) as [[] ->]; cbn [mbind res_bind]; [done|].
  destruct (elem_ltb_Ok e x Hx) as [b ->]. by eexists.
Qed.

Lemma mod_single_Ok d r e : d ≠ 0 → tame e.2 = true → is_Ok (mod_single d r e) = true.
Proof.
  intros Hd Ht. unfold mod_single. rewrite (proj2 (Z.eqb_neq d 0) Hd).
  destruct (isNumber e) eqn:Hn; [|done]. cbn [negb].
  assert (∃ n, numberLong e = Ok n ∧ (n =? LLONG_MIN) = false) as (n & -> & Hm).
  { destruct e as [? []]; try done; unfold numberLong; cbn [tame snd] in *.
    - destruct (double_to_long bits) as [n|]; [exists n; split; [done|by apply negb_true_iff]|done].
    - exists n. split; [done|by apply negb_true_iff].
    - exists n. split; [done|by apply negb_true_iff]. }
  cbn [mbind res_bind]. by rewrite Hm.
Qed.

(** What matching relies on of the expressions from outside: they do not throw,
    and recording a position does not change the outcome. *)
Class MatchEnvLaws `{MatchEnv} : Prop := {
  ext_details_matches x doc k : fst <$> ext_details x doc k = ext_matches x doc;
  ext_matches_Ok x doc : tame (VObject doc) = true → is_Ok (ext_matches x doc) = true;
  ext_single_Ok x e : tame e.2 = true → is_Ok (ext_single x e) = true
}.

Section matching.
Context `{MatchEnvLaws}.

Lemma in_single_Ok s e : tame e.2 = true →
  forallb (λ x : BSONElement, negb (has_timestamp x.2)) (equalities s) = true → is_Ok (in_single s e) = true.
Proof.
  intros Ht Hs. unfold in_single, in_matchesRealElement. case_match; [done|].
  destruct (set_count_Ok e (equalities s)) as [b ->].
  - by apply tame_no_timestamp.
  - rewrite forallb_forall in Hs. apply Forall_forall. intros x Hx%list_elem_of_In. by apply negb_true_iff, Hs.
  - by destruct b.
Qed.

(** *** Searches along a path *)

Lemma decides_path path trav doc f P : array_names (VObject doc) = true →
  (∀ c, reaches trav path doc c → decides (f c) (P c)) →
  decides (any_element (setTraverseLeafArray (ElementPath_init path) trav) doc f)
    (∃ c, reaches trav path doc c ∧ P c).
Proof.
  intros Hn Hf. rewrite (any_element_at _ trav (splitStringDelim path ".")) by (apply init_split || done).
  rewrite any_in_any_of. by apply decides_exists.
Qed.

Lemma decides_leaf path single doc : tame (VObject doc) = true →
  (∀ x, tame x.2 = true → is_Ok (single x) = true) →
  decides (leaf_matches path single doc) (∃ c, reaches true path doc c ∧ single (element c) = Ok true).
Proof.
  intros Hd Hs. apply decides_path; [by apply tame_names|].
  intros c Hc. apply decides_self, Hs. by eapply context_tame.
Qed.

Lemma decides_leaf_bool path f doc : tame (VObject doc) = true →
  decides (leaf_matches path (λ x, Ok (f x)) doc) (∃ c, reaches true path doc c ∧ f (element c) = true).
Proof. intros Hd. apply decides_path; [by apply tame_names|]. intros c _. by apply decides_Ok. Qed.

Lemma decides_array path f P doc : tame (VObject doc) = true →
  (∀ a, tame (VArray a) = true → decides (f a) (P a)) →
  decides (array_matches path f doc) (∃ c a, reaches false path doc c ∧ (element c).2 = VArray a ∧ P a).
Proof.
  intros Hd Hf.
  eapply decides_iff, (decides_path path false doc _ (λ c, ∃ a, (element c).2 = VArray a ∧ P a)); [|by apply tame_names|].
  - naive_solver.
  - intros c Hc. pose proof (context_tame _ _ _ _ Hd Hc) as Ht.
    destruct (element c).2 eqn:Hv; try (apply decides_Ok; naive_solver).
    eapply decides_iff, Hf; [|done]. naive_solver.
Qed.

Lemma decides_array_single f P x : tame x.2 = true →
  (∀ a, tame (VArray a) = true → decides (f a) (P a)) →
  decides (array_single f x) (∃ a, x.2 = VArray a ∧ P a).
Proof.
  intros Ht Hf. unfold array_single. destruct x.2 eqn:Hv; try (apply decides_Ok; naive_solver).
  eapply decides_iff, Hf; [|done]. naive_solver.
Qed.

(** What is shown of each expression: its three functions decide its meaning. *)
Definition correct (e : MatchExpression) : Prop :=
  safe e = true →
  (∀ doc, tame (VObject doc) = true → decides (matches e doc) (sat e doc)) ∧
  (∀ x, tame x.2 = true → decides (matchesSingleElement e x) (sat_single e x)).

Definition array_correct (e : MatchExpression) : Prop :=
  ∀ a, tame (VArray a) = true → decides (matchesArray e a) (sat_array e a).

Lemma correct_children l : Forall correct l → forallb safe l = true →
  (∀ doc, tame (VObject doc) = true → Forall (λ e, decides (matches e doc) (sat e doc)) l) ∧
  (∀ x, tame x.2 = true → Forall (λ e, decides (matchesSingleElement e x) (sat_single e x)) l).
Proof.
  intros Hl Hs. rewrite forallb_forall in Hs. rewrite Forall_forall in Hl.
  split; intros; apply Forall_forall; intros e He; apply (Hl e He); try done; by apply Hs, list_elem_of_In.
Qed.

Lemma elem_object_correct e a : correct e → safe e = true → tame (VArray a) = true →
  decides (any_of (elem_object (matches e)) a)
    (∃ y o, y ∈ a ∧ (y.2 = VObject o ∨ y.2 = VArray o) ∧ sat e o).
Proof.
  intros He Hs Ha. destruct (He Hs) as [Hd _].
  eapply decides_iff, (decides_exists _ (λ y, ∃ o, (y.2 = VObject o ∨ y.2 = VArray o) ∧ sat e o)).
  { naive_solver. }
  intros y Hy. pose proof (tame_array _ _ Ha Hy) as Ht. unfold elem_object.
  destruct y.2 eqn:Hv; try (apply decides_Ok; naive_solver);
    (eapply decides_iff, Hd; [naive_solver|]); [done|by apply tame_as_object].
Qed.

Lemma elem_value_correct l a : Forall correct l → forallb safe l = true → tame (VArray a) = true →
  decides (any_of (λ inner, all_of (λ e, matchesSingleElement e inner) l) a)
    (∃ y, y ∈ a ∧ foldr (λ e P, sat_single e y ∧ P) True l).
Proof.
  intros Hl Hs Ha. apply decides_exists. intros y Hy.
  apply decides_all_of, correct_children; [done..|]. by eapply tame_array.
Qed.

Lemma size_correct n a : decides (Ok (size_array n a)) (nFields a = n).
Proof.
  apply decides_Ok. unfold size_array, nFields. destruct (Z.ltb_spec n 0); [|apply Z.eqb_eq].
  split; [done|lia].
Qed.

Lemma array_child_correct e : correct e →
  match e with ELEM_MATCH_OBJECT _ _ | ELEM_MATCH_VALUE _ _ | SIZE _ _ => safe e | _ => false end = true →
  array_correct e.
Proof.
  intros He Hs a Ha. pose proof He as Hc. destruct e as [| | | | |p e|p l|p n| | | | | | | | | ]; try done.
  - destruct (Hc Hs) as [_ Hx]. specialize (Hx ("", VArray a) Ha). cbn [matchesSingleElement array_single snd] in Hx.
    eapply decides_iff, Hx. naive_solver.
  - destruct (Hc Hs) as [_ Hx]. specialize (Hx ("", VArray a) Ha). cbn [matchesSingleElement array_single snd] in Hx.
    eapply decides_iff, Hx. naive_solver.
  - apply size_correct.
Qed.

Lemma all_correct l a : Forall correct l →
  forallb (λ e, match e with ELEM_MATCH_OBJECT _ _ | ELEM_MATCH_VALUE _ _ | SIZE _ _ => safe e | _ => false end) l = true →
  tame (VArray a) = true →
  decides (all_match (λ e, matchesArray e a) l) (l ≠ [] ∧ foldr (λ e P, sat_array e a ∧ P) True l).
Proof.
  intros Hl Hs Ha. unfold all_match. destruct l as [|e l]; [apply decides_Ok; naive_solver|].
  eapply decides_iff, (decides_all_of _ (λ e, sat_array e a)); [naive_solver|].
  apply Forall_forall. intros x Hx. apply array_child_correct; [by eapply Forall_forall| |done].
  rewrite forallb_forall in Hs. by apply Hs, list_elem_of_In.
Qed.

(** *** Details *)

Lemma leaf_details_outcome path f doc k :
  fst <$> leaf_details path f doc k = any_element (leaf_path path) doc f.
Proof.
  rewrite find_element_any. unfold leaf_details. by destruct (find_element _ _ _) as [[]|].
Qed.

Lemma array_details_outcome path f inner doc k : (∀ a, f a = Ok true → is_Ok (inner a) = true) →
  fst <$> array_details path f inner doc k = array_matches path f doc.
Proof.
  intros Hi. unfold array_matches. rewrite find_element_any. unfold array_details.
  destruct (find_element _ _ _) as [[c|]|] eqn:Hf; cbn [mbind res_bind]; [|done|done].
  apply find_element_true in Hf. destruct (eoo (arrayOffset c)); [|done]. cbn [negb].
  destruct (element c).2; try done. specialize (Hi _ Hf). by destruct (inner o).
Qed.

Lemma find_of_any {A} (f : A → res bool) l : any_of f l = Ok true → is_Ok (find_of f l) = true.
Proof.
  induction l as [|x l IH]; [done|]. cbn [any_of find_of].
  destruct (f x) as [[]|]; cbn [mbind res_bind]; [done|apply IH|done].
Qed.

Lemma inner_name_any f a : any_of f a = Ok true → is_Ok (inner_name f a) = true.
Proof. intros Ha%find_of_any. unfold inner_name. by destruct (find_of f a). Qed.

(** Recording the position does not change the outcome. *)
Lemma matches_details_outcome e doc k : fst <$> matches_details e doc k = matches e doc.
Proof.
  revert k. induction e as [l IH| | | | | | | | | | | | | | | |] using MatchExpression_ind'; intros k;
    cbn [matches_details matches];
    try (by apply leaf_details_outcome); try (apply array_details_outcome; by intros a ?%inner_name_any);
    try done; try (by destruct (any_of _ _)); try (by destruct (matches _ _)); try apply ext_details_matches.
  - revert k. induction IH as [|e l He Hl IH]; intros k; [done|]. cbn [all_of]. rewrite <-(He k).
    destruct (matches_details e doc k) as [[[] k']|]; cbn [mbind res_bind fmap res_fmap fst]; [apply IH|done|done].
  - by destruct (array_matches _ _ _).
  - by apply array_details_outcome.
Qed.

Lemma tree_correct e : correct e.
Proof.
  induction e as [l IH|l IH|l IH|e IH|p l IH|p e IH|p l IH|p n|t p r|r|p d r|p|p s|p t| | |x]
    using MatchExpression_ind'; intros Hs; cbn [safe] in Hs; try done;
    cbn [matches matchesSingleElement sat sat_single]; split; intros y Hy.
  1-4: first [apply decides_all_of | apply decides_any_of]; by apply correct_children.
  1-2: rewrite foldr_nor; by apply decides_negb, decides_any_of, correct_children.
  1-2: by apply decides_negb, IH.
  - apply (decides_array p _ _ _ Hy (λ a Ha, all_correct l a IH Hs Ha)).
  - apply (decides_array_single _ _ _ Hy (λ a Ha, all_correct l a IH Hs Ha)).
  - eapply decides_iff, (decides_array p _ _ _ Hy (λ a Ha, elem_object_correct e a IH Hs Ha)). naive_solver.
  - eapply decides_iff, (decides_array_single _ _ _ Hy (λ a Ha, elem_object_correct e a IH Hs Ha)). naive_solver.
  - eapply decides_iff, (decides_array p _ _ _ Hy (λ a Ha, elem_value_correct l a IH Hs Ha)). naive_solver.
  - eapply decides_iff, (decides_array_single _ _ _ Hy (λ a Ha, elem_value_correct l a IH Hs Ha)). naive_solver.
  - eapply decides_array; [done|]. intros a _. apply size_correct.
  - eapply decides_array_single; [done|]. intros a _. apply size_correct.
  - apply decides_leaf; [done|]. intros z _. by apply comparison_single_Ok, negb_true_iff.
  - by apply decides_self, comparison_single_Ok, negb_true_iff.
  - by apply decides_leaf_bool.
  - by apply decides_Ok.
  - apply decides_leaf; [done|]. intros z. by apply mod_single_Ok, Z.eqb_neq, negb_true_iff.
  - by apply decides_self, mod_single_Ok; [apply Z.eqb_neq, negb_true_iff|].
  - setoid_rewrite <-negb_true_iff. by apply (decides_leaf_bool p (λ x, negb (eoo x))).
  - apply decides_Ok, negb_true_iff.
  - apply decides_leaf; [done|]. intros z Hz. by apply in_single_Ok.
  - by apply decides_self, in_single_Ok.
  - apply (decides_path p true); [by apply tame_names|]. intros c _.
    destruct (Z.eqb_spec t (BSONType_code Array)), (outerArray c); apply decides_Ok; naive_solver.
  - by apply decides_Ok.
  - by apply decides_Ok.
  - by apply decides_Ok.
  - by apply decides_Ok.
  - by apply decides_Ok.
  - by apply decides_self, ext_matches_Ok.
  - by apply decides_self, ext_single_Ok.
Qed.
End matching.

(** An environment without geometry and text search, and with literal patterns. *)
Definition literal_env : MatchEnv := {|
  PartialMatch regex _ s := bool_decide (is_Some (String.index 0 regex s));
  ext_expr := Empty_set;
  ext_matches x _ := match x with end;
  ext_details x _ _ := match x with end;
  ext_single x _ := match x with end;
  ext_isWhere x := match x with end
|}.

#[local] Existing Instance literal_env.

#[global] Instance literal_laws : MatchEnvLaws.
Proof. split; intros []. Qed.

(** Where matching is not defined or throws. *)
Lemma mod_undefined p : mod_single (-1) 0 (p, VLong LLONG_MIN)
  = Throw (UndefinedBehaviour "overflow of % in $mod").
Proof. done. Qed.

Lemma timestamp_filter_throws t d :
  matches (COMPARISON EQ "a" ("a", VTimestamp t)) [("a", VDate d)]
  = Throw (MsgAssertionException 13111 "wrong type for field").
Proof. by vm_compute. Qed.
