(* ===== verification/MatchParser.v ===== *)
(** * Parsing filters: db/matcher/expression_parser.cpp and expression_parser_tree.cpp

    [MatchExpressionParser]: from the document a client subscribes with to the
    tree of MatchExpr.v, or to the reason why it is rejected.  The callbacks for
    geometry, text search and [$where], which other parts of the server install,
    are arguments.  Parsing recurses through [_parse] and [_parseSub] only, each
    time one level deeper, and stops at 100 levels. *)

From S2P Require Import Prelude StdMap Bytes Oid Doubles Bson BsonCompare FieldRef ElementPath MatchExpr.

(** [StatusWith]: a value, or the name of an error code and the reason. *)
Inductive StatusWith (A : Type) := Good (a : A) | NotOK (codeString reason : string).
Arguments Good {A} a.
Arguments NotOK {A} codeString reason.

(** Parsing may also throw. *)
Definition parsed (A : Type) : Type := res (StatusWith A).

#[global] Instance parsed_ret : MRet parsed := λ A a, Ok (Good a).
#[global] Instance parsed_bind : MBind parsed := λ A B f m,
  match m with
  | Ok (Good a) => f a
  | Ok (NotOK c r) => Ok (NotOK c r)
  | Throw e => Throw e
  end.

(** The parser's own errors are all [BadValue]. *)
Definition bad {A} (reason : string) : parsed A := Ok (NotOK "BadValue" reason).
Definition lift_res {A} (r : res A) : parsed A := a ← r; Ok (Good a).

(** ** Operators *)

Inductive GtLtOp :=
  op_LT | op_LTE | op_GTE | op_GT | op_IN | op_NE | op_SIZE | op_ALL | op_NIN | op_EXISTS | op_MOD
| op_TYPE | op_REGEX | op_OPTIONS | op_ELEM_MATCH | op_NEAR | op_WITHIN | op_MAX_DISTANCE | op_GEO_INTERSECTS.

#[global] Instance GtLtOp_eq_dec : EqDecision GtLtOp.
Proof. solve_decision. Defined.

(** [getGtLtOp]: [None] stands for the default the caller passes. *)
Definition getGtLtOp (e : BSONElement) : option GtLtOp :=
  let fn := fieldName e in
  if (fn =? "$gt")%string then Some op_GT
  else if (fn =? "$gte")%string then Some op_GTE
  else if (fn =? "$lt")%string then Some op_LT
  else if (fn =? "$lte")%string then Some op_LTE
  else if (fn =? "$ne")%string then Some op_NE
  else if (str_take 5 fn =? "$near")%string then Some op_NEAR
  else if (fn =? "$mod")%string then Some op_MOD
  else if (fn =? "$maxDistance")%string then Some op_MAX_DISTANCE
  else if (fn =? "$type")%string then Some op_TYPE
  else if (fn =? "$in")%string then Some op_IN
  else if (fn =? "$nin")%string then Some op_NIN
  else if (fn =? "$all")%string then Some op_ALL
  else if (fn =? "$size")%string then Some op_SIZE
  else if (fn =? "$exists")%string then Some op_EXISTS
  else if (fn =? "$elemMatch")%string then Some op_ELEM_MATCH
  else if (fn =? "$regex")%string then Some op_REGEX
  else if (fn =? "$options")%string then Some op_OPTIONS
  else if (fn =? "$within")%string then Some op_WITHIN
  else if (fn =? "$geoIntersects")%string then Some op_GEO_INTERSECTS
  else if (fn =? "$geoNear")%string then Some op_NEAR
  else if (fn =? "$geoWithin")%string then Some op_WITHIN
  else None.

Definition kMaximumTreeDepth : Z := 100.
Definition MaxPatternSize : Z := 32764.

(** The callbacks other parts of the server install. *)
Class ParserEnv := {
  parser_match :: MatchEnv;
  GeoCallback : string → option GtLtOp → BSONObj → parsed ext_expr;
  WhereCallback : BSONElement → parsed ext_expr;
  TextCallback : BSONObj → parsed ext_expr
}.

(** ** DBRefs and expression documents *)

Fixpoint dbref_loop (l : BSONObj) (hasRef hasID hasDB : bool) : bool * bool * bool :=
  match l with
  | [] => (hasRef, hasID, hasDB)
  | element :: l =>
      if hasRef && hasID then (hasRef, hasID, hasDB)
      else
        let fieldName := fieldName element in
        if negb hasRef && (fieldName =? "$ref")%string then dbref_loop l true hasID hasDB
        else if negb hasID && (fieldName =? "$id")%string then dbref_loop l hasRef true hasDB
        else if negb hasDB && (fieldName =? "$db")%string then dbref_loop l hasRef hasID true
        else dbref_loop l hasRef hasID hasDB
  end.

Definition isDBRefDocument (obj : BSONObj) (allowIncompleteDBRef : bool) : bool :=
  let '(hasRef, hasID, hasDB) := dbref_loop obj false false false in
  if allowIncompleteDBRef then hasRef || hasID || hasDB else hasRef && hasID.

Definition starts_with_dollar (s : string) : bool :=
  match s with String c _ => (c =? "$")%char | EmptyString => false end.

Definition isExpressionDocument (e : BSONElement) (allowIncompleteDBRef : bool) : bool :=
  match e.2 with
  | VObject o =>
      if isEmpty o then false
      else if negb (starts_with_dollar (fieldName (firstElement o))) then false
      else negb (isDBRefDocument o allowIncompleteDBRef)
  | _ => false
  end.

Section parser.
Context `{ParserEnv}.

(** ** Leaves *)

Definition comparison_init (t : MatchType) (path : string) (rhs : BSONElement) : parsed MatchExpression :=
  if eoo rhs then bad "need a real operand"
  else if bool_decide (type rhs = Undefined) then bad "cannot compare to undefined"
  else mret (COMPARISON t path rhs).

Definition parseComparison (name : string) (t : MatchType) (e : BSONElement) : parsed MatchExpression :=
  if negb (match t with EQ => true | _ => false end) && bool_decide (type e = RegEx)
  then bad ("Can't have RegEx as arg to predicate over field '" +:+ name +:+ "'.")
  else comparison_init t name e.

Definition regex_init (path regex options : string) : parsed RegexMatchExpression :=
  if MaxPatternSize <? Z.of_nat (String.length regex) then bad "Regular expression is too long"
  else mret (mkRegex path regex options).

(** [init(path, e)] with a BSON regular expression. *)
Definition regex_init_elem (path : string) (e : BSONElement) : parsed RegexMatchExpression :=
  match e.2 with
  | VRegEx p f => regex_init path (c_string p) (c_string f)
  | _ => bad "regex not a regex"
  end.

Definition parseRegexElement (name : string) (e : BSONElement) : parsed MatchExpression :=
  match e.2 with
  | VRegEx p f => r ← regex_init name (c_string p) (c_string f); mret (REGEX r)
  | _ => bad "not a regex"
  end.

Fixpoint regex_document_loop (doc : BSONObj) (regex options : string) : parsed (string * string) :=
  match doc with
  | [] => mret (regex, options)
  | e :: doc =>
      match getGtLtOp e with
      | Some op_REGEX =>
          match e.2 with
          | VString s => regex_document_loop doc s options
          | VRegEx p f => regex_document_loop doc (c_string p) (c_string f)
          | _ => bad "$regex has to be a string"
          end
      | Some op_OPTIONS =>
          match e.2 with
          | VString s => regex_document_loop doc regex s
          | _ => bad "$options has to be a string"
          end
      | _ => regex_document_loop doc regex options
      end
  end.

Definition parseRegexDocument (name : string) (doc : BSONObj) : parsed MatchExpression :=
  ro ← regex_document_loop doc "" "";
  r ← regex_init name ro.1 ro.2;
  mret (REGEX r).

Definition mod_init (path : string) (divisor remainder : Z) : parsed MatchExpression :=
  if divisor =? 0 then bad "divisor cannot be 0" else mret (MOD path divisor remainder).

(** The type of the remainder is not checked: the second test looks at the
    divisor again. *)
Definition parseMOD (name : string) (e : BSONElement) : parsed MatchExpression :=
  match e.2 with
  | VArray [] => bad "malformed mod, not enough elements"
  | VArray (d :: rest) =>
      if negb (isNumber d) then bad "malformed mod, divisor not a number"
      else
        match rest with
        | [] => bad "malformed mod, not enough elements"
        | r :: rest =>
            if negb (isNumber d) then bad "malformed mod, remainder not a number"
            else if negb (isEmpty rest) then bad "malformed mod, too many elements"
            else
              dn ← lift_res (numberInt d);
              rn ← lift_res (numberInt r);
              mod_init name dn rn
        end
  | _ => bad "malformed mod, needs to be an array"
  end.

Definition addEquality (entries : ArrayFilterEntries) (e : BSONElement) : parsed ArrayFilterEntries :=
  match e.2 with
  | VRegEx _ _ => bad "ArrayFilterEntries equality cannot be a regex"
  | VUndefined => bad "ArrayFilterEntries equality cannot be undefined"
  | v =>
      eqs ← lift_res (BSONElementSet_insert e (equalities entries));
      mret (mkEntries (match v with VNull => true | _ => hasNull entries end)
              (match v with VArray [] => true | _ => hasEmptyArray entries end)
              eqs (regexes entries))
  end.

Fixpoint parseArrayFilterEntries (entries : ArrayFilterEntries) (theArray : BSONObj) : parsed ArrayFilterEntries :=
  match theArray with
  | [] => mret entries
  | e :: theArray =>
      if isExpressionDocument e false then bad "cannot nest $ under $in"
      else
        entries ← (match e.2 with
                   | VRegEx _ _ =>
                       r ← regex_init_elem "" e;
                       mret (mkEntries (hasNull entries) (hasEmptyArray entries) (equalities entries)
                               (regexes entries ++ [r]))
                   | _ => addEquality entries e
                   end);
        parseArrayFilterEntries entries theArray
  end.

Definition parseIn (name : string) (e : BSONElement) (message : string) : parsed MatchExpression :=
  match e.2 with
  | VArray a => entries ← parseArrayFilterEntries ArrayFilterEntries_new a; mret (MATCH_IN name entries)
  | _ => bad message
  end.

Definition parseSize (name : string) (e : BSONElement) : parsed MatchExpression :=
  match e.2 with
  | VString _ => mret (SIZE name 0)
  | VInt n | VLong n => if n <? 0 then mret (SIZE name (-1)) else size ← lift_res (numberInt e); mret (SIZE name size)
  | VDouble d =>
      n ← lift_res (numberInt e);
      mret (SIZE name (if double_eqb (double_of_Z n) d then n else -1))
  | _ => bad "$size needs a number"
  end.

Definition parseExists (name : string) (e : BSONElement) : parsed MatchExpression :=
  if eoo e then bad "$exists can't be eoo"
  else mret (if trueValue e then EXISTS name else NOT (EXISTS name)).

Definition parseType (name : string) (e : BSONElement) : parsed MatchExpression :=
  if negb (isNumber e) then bad "$type has to be a number"
  else
    t ← lift_res (numberInt e);
    let t := if negb (bool_decide (type e = NumberInt)) && negb (double_eqb (double_of_Z t) (numberDouble e))
             then -1 else t in
    mret (TYPE_OPERATOR name t).

(** ** Trees *)

(** [hasNode(root, WHERE)]. *)
Fixpoint hasWhere (root : MatchExpression) : bool :=
  match root with
  | AND l | OR l | NOR l | ALL _ l | ELEM_MATCH_VALUE _ l => existsb hasWhere l
  | NOT e | ELEM_MATCH_OBJECT _ e => hasWhere e
  | EXTERNAL x => ext_isWhere x
  | _ => false
  end.

(** The functions that call back into [_parse] and [_parseSub], given these. *)
Section recursive.
Context (parse_ : BSONObj → Z → parsed MatchExpression).
Context (parseSub : string → BSONObj → list MatchExpression → Z → parsed (list MatchExpression)).

Fixpoint tree_list_loop (arr : BSONObj) (out : list MatchExpression) (level : Z) : parsed (list MatchExpression) :=
  match arr with
  | [] => mret out
  | e :: arr =>
      match e.2 with
      | VObject o => sub ← parse_ o level; tree_list_loop arr (out ++ [sub]) level
      | _ => bad "$or/$and/$nor entries need to be full objects"
      end
  end.

Definition parseTreeList (arr : BSONObj) (level : Z) : parsed (list MatchExpression) :=
  if isEmpty arr then bad "$and/$or/$nor must be a nonempty array" else tree_list_loop arr [] level.

Definition isRegex (e : MatchExpression) : bool := match e with REGEX _ => true | _ => false end.

Definition parseNot (name : string) (e : BSONElement) (level : Z) : parsed MatchExpression :=
  match e.2 with
  | VRegEx _ _ => s ← parseRegexElement name e; mret (NOT s)
  | VObject notObject =>
      if isEmpty notObject then bad "$not cannot be empty"
      else
        theAnd ← parseSub name notObject [] level;
        if existsb isRegex theAnd then bad "$not cannot have a regex" else mret (NOT (AND theAnd))
  | _ => bad "$not needs a regex or a document"
  end.

Definition isElemMatchValue (e : BSONElement) (obj : BSONObj) : bool :=
  isExpressionDocument e true &&
  (let name := fieldName (firstElement obj) in
   negb (name =? "$and")%string && negb (name =? "$nor")%string &&
   negb (name =? "$or")%string && negb (name =? "$where")%string).

Definition parseElemMatch (name : string) (e : BSONElement) (level : Z) : parsed MatchExpression :=
  match e.2 with
  | VObject obj =>
      if isElemMatchValue e obj then
        theAnd ← parseSub "" obj [] level;
        mret (ELEM_MATCH_VALUE name theAnd)
      else
        sub ← parse_ obj level;
        if hasWhere sub then bad "$elemMatch cannot contain $where expression"
        else mret (ELEM_MATCH_OBJECT name sub)
  | _ => bad "$elemMatch needs an Object"
  end.

Fixpoint all_elem_loop (arr : BSONObj) (list_ : list MatchExpression) (level : Z) : parsed (list MatchExpression) :=
  match arr with
  | [] => mret list_
  | e :: arr =>
      match e.2 with
      | VObject o =>
          if negb (fieldName (firstElement o) =? "$elemMatch")%string
          then bad "$all/$elemMatch has to be consistent"
          else inner ← parseElemMatch "" (firstElement o) level; all_elem_loop arr (list_ ++ [inner]) level
      | _ => bad "$all/$elemMatch has to be consistent"
      end
  end.

Fixpoint all_loop (name : string) (arr : BSONObj) (myAnd : list MatchExpression) : parsed (list MatchExpression) :=
  match arr with
  | [] => mret myAnd
  | e :: arr =>
      match e.2 with
      | VRegEx _ _ => r ← regex_init_elem name e; all_loop name arr (myAnd ++ [REGEX r])
      | VObject o =>
          if bool_decide (getGtLtOp (firstElement o) ≠ None) then bad "no $ expressions in $all"
          else x ← comparison_init EQ name e; all_loop name arr (myAnd ++ [x])
      | _ => x ← comparison_init EQ name e; all_loop name arr (myAnd ++ [x])
      end
  end.

Definition parseAll (name : string) (e : BSONElement) (level : Z) : parsed MatchExpression :=
  match e.2 with
  | VArray arr =>
      let elemMatch := match (firstElement arr).2 with
                       | VObject o => (fieldName (firstElement o) =? "$elemMatch")%string
                       | _ => false
                       end in
      if elemMatch then l ← all_elem_loop arr [] level; mret (ALL name l)
      else
        myAnd ← all_loop name arr [];
        mret (if bool_decide (myAnd = []) then ALWAYS_FALSE else AND myAnd)
  | _ => bad "$all needs an array"
  end.

(** [_parseSubField]; the null expression of [$options] is [None]. *)
Definition parseSubField (context : BSONObj) (name : string) (e : BSONElement) (level : Z) :
    parsed (option MatchExpression) :=
  let some (p : parsed MatchExpression) : parsed (option MatchExpression) := x ← p; mret (Some x) in
  if (fieldName e =? "$eq")%string then some (parseComparison name EQ e)
  else if (fieldName e =? "$not")%string then some (parseNot name e level)
  else
    match getGtLtOp e with
    | None =>
        if (fieldName e =? "$where")%string then bad "$where cannot be applied to a field"
        else bad ("unknown operator: " +:+ fieldName e)
    | Some op_LT => some (parseComparison name LT e)
    | Some op_LTE => some (parseComparison name LTE e)
    | Some op_GT => some (parseComparison name GT e)
    | Some op_GTE => some (parseComparison name GTE e)
    | Some op_NE =>
        if bool_decide (type e = RegEx) then bad "Can't have regex as arg to $ne."
        else s ← parseComparison name EQ e; mret (Some (NOT s))
    | Some op_IN => some (parseIn name e "$in needs an array")
    | Some op_NIN => s ← parseIn name e "$nin needs an array"; mret (Some (NOT s))
    | Some op_SIZE => some (parseSize name e)
    | Some op_EXISTS => some (parseExists name e)
    | Some op_TYPE => some (parseType name e)
    | Some op_MOD => some (parseMOD name e)
    | Some op_OPTIONS =>
        if existsb (λ temp, bool_decide (getGtLtOp temp = Some op_REGEX)) context then mret None
        else bad "$options needs a $regex"
    | Some op_REGEX => some (parseRegexDocument name context)
    | Some op_ELEM_MATCH => some (parseElemMatch name e level)
    | Some op_ALL => some (parseAll name e level)
    | Some (op_WITHIN as x) | Some (op_GEO_INTERSECTS as x) =>
        some (x ← GeoCallback name (Some x) context; mret (EXTERNAL x))
    | Some op_NEAR | Some op_MAX_DISTANCE => bad ("not handled: " +:+ fieldName e)
    end.

Fixpoint sub_loop (sub : BSONObj) (name : string) (l : BSONObj) (root : list MatchExpression) (level : Z) :
    parsed (list MatchExpression) :=
  match l with
  | [] => mret root
  | deep :: l =>
      s ← parseSubField sub name deep level;
      sub_loop sub name l (root ++ option_list s) level
  end.

(** A [$near] is handed over whole. *)
Definition isGeoNear (e : BSONElement) : bool :=
  isABSONObj e &&
  existsb (λ s, (fieldName e =? s)%string) ["$near"; "$nearSphere"; "$geoNear"; "$maxDistance"; "$minDistance"].

Definition sub_body (name : string) (sub : BSONObj) (root : list MatchExpression) (level : Z) :
    parsed (list MatchExpression) :=
  let level := level + 1 in
  if negb (isEmpty sub) && isGeoNear (firstElement sub) then
    s ← GeoCallback name (getGtLtOp (firstElement sub)) sub;
    mret (root ++ [EXTERNAL s])
  else sub_loop sub name sub root level.

(** The operators that start with a dollar at the top of a document. *)
Definition parse_dollar (e : BSONElement) (root : list MatchExpression) (topLevel : bool) (level : Z) :
    parsed (list MatchExpression) :=
  let rest := str_drop 1 (fieldName e) in
  let tree (f : list MatchExpression → MatchExpression) message :=
    match e.2 with
    | VArray a => l ← parseTreeList a level; mret (root ++ [f l])
    | _ => bad message
    end in
  if (rest =? "or")%string then tree OR "$or needs an array"
  else if (rest =? "and")%string then tree AND "and needs an array"
  else if (rest =? "nor")%string then tree NOR "and needs an array"
  else if (rest =? "atomic")%string || (rest =? "isolated")%string then
    if negb topLevel then bad "$atomic/$isolated has to be at the top level"
    else mret (if trueValue e then root ++ [ATOMIC] else root)
  else if (rest =? "where")%string then s ← WhereCallback e; mret (root ++ [EXTERNAL s])
  else if (rest =? "text")%string then
    match e.2 with
    | VObject o => s ← TextCallback o; mret (root ++ [EXTERNAL s])
    | _ => bad "$text expects an object"
    end
  else if (rest =? "comment")%string then mret root
  else if (rest =? "ref")%string || (rest =? "id")%string || (rest =? "db")%string then
    eq ← comparison_init EQ (fieldName e) e; mret (root ++ [eq])
  else bad ("unknown top level operator: " +:+ fieldName e).

Fixpoint parse_loop (l : BSONObj) (root : list MatchExpression) (topLevel : bool) (level : Z) :
    parsed (list MatchExpression) :=
  match l with
  | [] => mret root
  | e :: l =>
      root ← (if starts_with_dollar (fieldName e) then parse_dollar e root topLevel level
              else if isExpressionDocument e false then
                match e.2 with VObject o => parseSub (fieldName e) o root level | _ => mret root end
              else if bool_decide (type e = RegEx) then
                result ← parseRegexElement (fieldName e) e; mret (root ++ [result])
              else eq ← comparison_init EQ (fieldName e) e; mret (root ++ [eq]));
      parse_loop l root topLevel level
  end.

Definition parse_body (obj : BSONObj) (level : Z) : parsed MatchExpression :=
  root ← parse_loop obj [] (level =? 0) (level + 1);
  mret (match root with [real] => real | _ => AND root end).
End recursive.

(** [_parse] and [_parseSub], which check the depth first.  The text of the
    rejected document is left out of the message. *)
Fixpoint parse_ (fuel : nat) (obj : BSONObj) (level : Z) : parsed MatchExpression :=
  match fuel with
  | O => Throw OutOfFuel
  | S fuel =>
      if kMaximumTreeDepth <? level then bad "exceeded maximum query tree depth of 100"
      else parse_body (parse_ fuel) (parseSub fuel) obj level
  end
with parseSub (fuel : nat) (name : string) (sub : BSONObj) (root : list MatchExpression) (level : Z) :
    parsed (list MatchExpression) :=
  match fuel with
  | O => Throw OutOfFuel
  | S fuel =>
      if kMaximumTreeDepth <? level then bad "exceeded maximum query tree depth of 100"
      else sub_body (parse_ fuel) (parseSub fuel) name sub root level
  end.

(** Every call goes at least one level deeper: 102 calls reach the limit. *)
Definition MatchExpressionParser_parse (obj : BSONObj) : parsed MatchExpression := parse_ 102 obj 0.

(** ** The matcher of a subscription: db/matcher/matcher.cpp *)

Record Matcher2 := mkMatcher2 { pattern : BSONObj; expression : MatchExpression }.

Definition Matcher2_new (pattern : BSONObj) : res Matcher2 :=
  match MatchExpressionParser_parse pattern with
  | Ok (Good e) => Ok (mkMatcher2 pattern e)
  | Ok (NotOK codeString reason) => Throw (UserException 16810 ("bad query: " +:+ codeString +:+ " " +:+ reason))
  | Throw e => Throw e
  end.

Definition Matcher2_matches (m : Matcher2) (doc : BSONObj) : res bool := matches (expression m) doc.
End parser.

(** The callbacks before any other part of the server installs its own. *)
Definition default_env (match_env : MatchEnv) : ParserEnv := {|
  parser_match := match_env;
  GeoCallback _ _ _ := bad "geo not linked in";
  WhereCallback _ := bad "$where not linked in";
  TextCallback _ := bad "$text not linked in"
|}.
