(* ===== verification/FilterSpec.v ===== *)
(** * Filters: what the parser guarantees and what a filter means

    Parsing terminates within its depth limit and only gives expressions that
    matching is defined on; together with MatchExpr.v: an accepted filter decides,
    for every message, whether the message satisfies it. *)

From S2P Require Import Prelude StdMap Bytes Oid Doubles Bson BsonCompare FieldRef ElementPath MatchExpr MatchSpec MatchParser.

(** ** Outcomes of parsing *)

(** A value with [P], a rejection, or an exception of the code. *)
Definition pspec {A} (r : parsed A) (P : A → Prop) : Prop :=
  match r with
  | Ok (Good a) => P a
  | Ok (NotOK _ _) => True
  | Throw e => e ≠ OutOfFuel
  end.

Lemma pspec_ret {A} (a : A) (P : A → Prop) : P a → pspec (mret a) P.
Proof. done. Qed.

Lemma pspec_bad {A} m (P : A → Prop) : pspec (bad m) P.
Proof. done. Qed.

Lemma pspec_bind {A B} (m : parsed A) (f : A → parsed B) P Q :
  pspec m P → (∀ a, P a → pspec (f a) Q) → pspec (m ≫= f) Q.
Proof. unfold pspec, mbind, parsed_bind. intros Hm Hf. destruct m as [[a|]|]; [by apply Hf|done|done]. Qed.

Lemma pspec_mono {A} (r : parsed A) (P Q : A → Prop) : pspec r P → (∀ a, P a → Q a) → pspec r Q.
Proof. unfold pspec. intros Hr Hi. destruct r as [[]|]; [by apply Hi|done|done]. Qed.

Lemma pspec_lift {A} (r : res A) (P : A → Prop) :
  r ≠ Throw OutOfFuel → (∀ a, r = Ok a → P a) → pspec (lift_res r) P.
Proof. unfold pspec, lift_res. destruct r; simpl; [auto|]. intros He _ ->. done. Qed.

Create HintDb parser.
#[export] Hint Resolve pspec_bad pspec_ret : parser.

(** One step of a proof about the parser. *)
Ltac pstep :=
  match goal with
  | |- pspec (bad _) _ => apply pspec_bad
  | |- pspec (mret _) _ => apply pspec_ret
  | |- pspec (if ?b then _ else _) _ => destruct b eqn:?
  | |- pspec (match ?x with _ => _ end) _ => destruct x eqn:?
  end.

Lemma cast_int_fuel w z : cast_int w z ≠ Throw OutOfFuel.
Proof. unfold cast_int. repeat case_match; congruence. Qed.

Lemma numberInt_fuel e : numberInt e ≠ Throw OutOfFuel.
Proof. unfold numberInt. destruct e.2; try done. apply cast_int_fuel. Qed.

Lemma pspec_numberInt e : pspec (lift_res (numberInt e)) (λ _, True).
Proof. by apply pspec_lift; [apply numberInt_fuel|]. Qed.

(** The parser gives a safe expression. *)
Abbreviation safe_spec r := (pspec r (λ e, safe e = true)).

Section leaves.
Context `{ParserEnv}.

Lemma comparison_safe t name e : tame e.2 = true → safe_spec (comparison_init t name e).
Proof.
  intros Ht. unfold comparison_init. do 3 (try pstep). simpl. by rewrite tame_no_timestamp.
Qed.

Lemma parseComparison_safe t name e : tame e.2 = true → safe_spec (parseComparison name t e).
Proof. intros Ht. unfold parseComparison. pstep; [pstep|]. by apply comparison_safe. Qed.

Lemma regex_init_any p r f : pspec (regex_init p r f) (λ _, True).
Proof. unfold regex_init. by repeat pstep. Qed.

Lemma regex_init_elem_any p e : pspec (regex_init_elem p e) (λ _, True).
Proof. unfold regex_init_elem. pstep; try pstep. apply regex_init_any. Qed.

Lemma parseRegexElement_safe name e : safe_spec (parseRegexElement name e).
Proof.
  unfold parseRegexElement. pstep; try pstep. eapply pspec_bind; [apply regex_init_any|]. intros. by pstep.
Qed.

Lemma regex_document_any doc r o : pspec (regex_document_loop doc r o) (λ _, True).
Proof.
  revert r o. induction doc as [|e doc IH]; intros r o; cbn [regex_document_loop]; [by pstep|].
  repeat first [apply IH | pstep].
Qed.

Lemma parseRegexDocument_safe name doc : safe_spec (parseRegexDocument name doc).
Proof.
  unfold parseRegexDocument. eapply pspec_bind; [apply regex_document_any|]. intros ? _.
  eapply pspec_bind; [apply regex_init_any|]. intros. by pstep.
Qed.

Lemma parseMOD_safe name e : safe_spec (parseMOD name e).
Proof.
  unfold parseMOD. repeat pstep.
  eapply pspec_bind; [apply pspec_numberInt|]. intros d _.
  eapply pspec_bind; [apply pspec_numberInt|]. intros r _.
  unfold mod_init. repeat pstep. simpl. by apply negb_true_iff.
Qed.

Lemma set_insert_spec e s : has_timestamp e.2 = false →
  Forall (λ x : BSONElement, has_timestamp x.2 = false) s →
  ∃ s', BSONElementSet_insert e s = Ok s' ∧ Forall (λ x : BSONElement, has_timestamp x.2 = false) s'.
Proof.
  intros He. induction 1 as [|x s Hx Hs (s' & IH & Hs')]; cbn [BSONElementSet_insert]; [eauto|].
  destruct (elem_ltb_Ok x e He) as [[] ->]; cbn [mbind res_bind].
  - rewrite IH. cbn [mbind res_bind]. eauto.
  - destruct (elem_ltb_Ok e x Hx) as [[] ->]; cbn [mbind res_bind]; eauto.
Qed.

Definition entries_ok (s : ArrayFilterEntries) : Prop :=
  Forall (λ x : BSONElement, has_timestamp x.2 = false) (equalities s).

Lemma addEquality_ok s e : entries_ok s → tame e.2 = true → pspec (addEquality s e) entries_ok.
Proof.
  intros Hs Ht. destruct (set_insert_spec e _ (tame_no_timestamp _ Ht) Hs) as (s' & Hi & Hs').
  assert (∀ b c, pspec (eqs ← lift_res (BSONElementSet_insert e (equalities s));
                        mret (mkEntries b c eqs (regexes s))) entries_ok) as Hc.
  { intros b c. eapply pspec_bind; [apply (pspec_lift _ (λ x, x = s')); congruence|]. intros ? ->. by pstep. }
  unfold addEquality. destruct e.2; try apply Hc; pstep.
Qed.

Lemma parseArrayFilterEntries_ok s arr : entries_ok s → tame (VArray arr) = true →
  pspec (parseArrayFilterEntries s arr) entries_ok.
Proof.
  revert s. induction arr as [|e arr IH]; intros s Hs Ht; cbn [parseArrayFilterEntries]; [by pstep|].
  pose proof (tame_array _ e Ht ltac:(by left)) as He.
  assert (tame (VArray arr) = true) as Ha by (simpl in Ht; by apply andb_true_iff in Ht as [_ ?]).
  pstep; [pstep|]. eapply (pspec_bind _ _ entries_ok); [|intros; by apply IH].
  pose proof (addEquality_ok s e Hs He) as Hadd. pstep; try apply Hadd. eapply pspec_bind; [apply regex_init_elem_any|]. intros. by pstep.
Qed.

Lemma parseIn_safe name e m : tame e.2 = true → safe_spec (parseIn name e m).
Proof.
  intros Ht. unfold parseIn. destruct e.2 eqn:He; try apply pspec_bad.
  eapply pspec_bind; [by apply parseArrayFilterEntries_ok; [constructor|]|]. intros s Hs. pstep. simpl.
  apply forallb_forall. intros x Hx%list_elem_of_In. apply negb_true_iff. by eapply (proj1 (Forall_forall _ _) Hs).
Qed.

Lemma parseSize_safe name e : safe_spec (parseSize name e).
Proof.
  unfold parseSize. repeat pstep; try done;
    (eapply pspec_bind; [apply pspec_numberInt|]; intros; by pstep).
Qed.

Lemma parseType_safe name e : safe_spec (parseType name e).
Proof.
  unfold parseType. pstep; [pstep|].
  eapply pspec_bind; [apply pspec_numberInt|]; intros; by pstep.
Qed.

Lemma parseExists_safe name e : safe_spec (parseExists name e).
Proof. unfold parseExists. pstep; pstep. by case_match. Qed.
End leaves.

#[export] Hint Resolve comparison_safe parseComparison_safe parseRegexElement_safe parseRegexDocument_safe
  parseMOD_safe parseIn_safe parseSize_safe parseType_safe parseExists_safe : parser.

(** ** Trees *)

(** The callbacks end: what they give or throw is theirs. *)
Class ParserLaws `{ParserEnv} : Prop := {
  parser_match_laws :: MatchEnvLaws;
  GeoCallback_ends name op o : GeoCallback name op o ≠ Throw OutOfFuel;
  WhereCallback_ends e : WhereCallback e ≠ Throw OutOfFuel;
  TextCallback_ends o : TextCallback o ≠ Throw OutOfFuel
}.

Lemma pspec_any {A} (r : parsed A) : r ≠ Throw OutOfFuel → pspec r (λ _, True).
Proof. unfold pspec. destruct r as [[]|]; [done|done|congruence]. Qed.

Section trees.
Context `{ParserLaws}.

Abbreviation safes l := (forallb safe l = true).

Lemma safes_snoc l e : safes l → safe e = true → safes (l ++ [e]).
Proof. intros Hl He. rewrite forallb_app. simpl. by rewrite Hl, He. Qed.

Lemma tame_first o : tame (VObject o) = true → tame (firstElement o).2 = true.
Proof. destruct o as [|e o]; [done|]. intros Ho. eapply tame_object; [done|by left]. Qed.

Lemma tame_tail e o : tame (VObject (e :: o)) = true → tame (VObject o) = true.
Proof. simpl. rewrite andb_true_iff. by intros [_ ?]. Qed.

(** The two recursive calls at the next level. *)
Context (P : BSONObj → Z → parsed MatchExpression).
Context (S : string → BSONObj → list MatchExpression → Z → parsed (list MatchExpression)).
Context (level : Z).
Hypothesis HP : ∀ o, tame (VObject o) = true → safe_spec (P o level).
Hypothesis HS : ∀ name o root, tame (VObject o) = true → safes root →
  pspec (S name o root level) (λ l, safes l).

Lemma tree_list_safe arr out : tame (VObject arr) = true → safes out →
  pspec (tree_list_loop P arr out level) (λ l, safes l).
Proof.
  revert out. induction arr as [|e arr IH]; intros out Ht Ho; cbn [tree_list_loop]; [by pstep|].
  pose proof (tame_object _ e Ht ltac:(by left)) as He. apply tame_tail in Ht.
  destruct e.2; try apply pspec_bad.
  eapply pspec_bind; [by apply HP|]. intros x Hx. apply IH; [done|]. by apply safes_snoc.
Qed.

Lemma parseTreeList_safe arr : tame (VArray arr) = true → pspec (parseTreeList P arr level) (λ l, safes l).
Proof.
  intros Ht. unfold parseTreeList. pstep; [pstep|]. apply tree_list_safe; [by apply tame_as_object|done].
Qed.

Lemma parseNot_safe name e : tame e.2 = true → safe_spec (parseNot S name e level).
Proof.
  intros Ht. unfold parseNot. destruct e.2 eqn:He; try apply pspec_bad.
  - pstep; [pstep|]. eapply pspec_bind; [by apply HS|]. intros l Hl. by repeat pstep.
  - eapply pspec_bind; [apply parseRegexElement_safe|]. intros. by pstep.
Qed.

Definition array_expr (e : MatchExpression) : bool :=
  match e with ELEM_MATCH_OBJECT _ _ | ELEM_MATCH_VALUE _ _ | SIZE _ _ => safe e | _ => false end.

Lemma parseElemMatch_array name e : tame e.2 = true →
  pspec (parseElemMatch P S name e level) (λ x, array_expr x = true).
Proof.
  intros Ht. unfold parseElemMatch. destruct e.2 eqn:He; try apply pspec_bad. pstep.
  - eapply pspec_bind; [by apply HS|]. intros l Hl. by pstep.
  - eapply pspec_bind; [by apply HP|]. intros x Hx. by repeat pstep.
Qed.

Lemma all_elem_safe arr l : tame (VObject arr) = true → forallb array_expr l = true →
  pspec (all_elem_loop P S arr l level) (λ l, forallb array_expr l = true).
Proof.
  revert l. induction arr as [|e arr IH]; intros l Ht Hl; cbn [all_elem_loop]; [by pstep|].
  pose proof (tame_object _ e Ht ltac:(by left)) as He. apply tame_tail in Ht.
  destruct e.2; try apply pspec_bad. pstep; [pstep|].
  eapply pspec_bind; [by apply parseElemMatch_array, tame_first|]. intros x Hx.
  apply IH; [done|]. rewrite forallb_app. simpl. by rewrite Hl, Hx.
Qed.

Lemma all_loop_safe name arr l : tame (VObject arr) = true → safes l →
  pspec (all_loop name arr l) (λ l, safes l).
Proof.
  revert l. induction arr as [|e arr IH]; intros l Ht Hl; cbn [all_loop]; [by pstep|].
  pose proof (tame_object _ e Ht ltac:(by left)) as He. apply tame_tail in Ht.
  assert (pspec (x ← comparison_init EQ name e; all_loop name arr (l ++ [x])) (λ l, safes l)) as Hc.
  { eapply pspec_bind; [by apply comparison_safe|]. intros x Hx. apply IH; [done|]. by apply safes_snoc. }
  destruct e.2; try apply Hc.
  - pstep; [pstep|apply Hc].
  - eapply pspec_bind; [apply regex_init_elem_any|]. intros r _. apply IH; [done|]. by apply safes_snoc.
Qed.

Lemma parseAll_safe name e : tame e.2 = true → safe_spec (parseAll P S name e level).
Proof.
  intros Ht. unfold parseAll. destruct e.2 as [| | | | |arr| | | | | | | | | | | | | | | ]; try apply pspec_bad.
  apply tame_as_object in Ht. pstep.
  - eapply pspec_bind; [by apply all_elem_safe|]. intros l Hl. by pstep.
  - eapply pspec_bind; [by apply all_loop_safe|]. intros l Hl. pstep. by destruct (bool_decide _).
Qed.

Lemma parseSubField_safe context name e : tame e.2 = true →
  pspec (parseSubField P S context name e level) (λ o, safes (option_list o)).
Proof.
  intros Ht.
  assert (∀ p : parsed MatchExpression, safe_spec p →
    pspec (x ← p; mret (Some x)) (λ o, safes (option_list o))) as Hsome.
  { intros p Hp. eapply pspec_bind; [done|]. intros x Hx. pstep. simpl. by rewrite Hx. }
  assert (∀ p : parsed MatchExpression, safe_spec p →
    pspec (x ← p; mret (Some (NOT x))) (λ o, safes (option_list o))) as Hnot.
  { intros p Hp. eapply pspec_bind; [done|]. intros x Hx. pstep. simpl. by rewrite Hx. }
  assert (∀ op, safe_spec (x ← GeoCallback name op context; mret (EXTERNAL x))) as Hgeo.
  { intros op. eapply pspec_bind; [by apply pspec_any, GeoCallback_ends|]. intros. by pstep. }
  unfold parseSubField. repeat pstep; first [done | apply Hsome | apply Hnot]; auto with parser.
  - by apply parseNot_safe.
  - by apply parseAll_safe.
  - eapply pspec_mono; [by apply parseElemMatch_array|]. intros x Hx. by destruct x.
Qed.

Lemma sub_loop_safe sub name l root : tame (VObject l) = true → safes root →
  pspec (sub_loop P S sub name l root level) (λ l, safes l).
Proof.
  revert root. induction l as [|e l IH]; intros root Ht Hr; cbn [sub_loop]; [by pstep|].
  eapply pspec_bind; [apply parseSubField_safe, (tame_object _ e Ht); by left|]. intros o Ho.
  apply IH; [by eapply tame_tail|]. by rewrite forallb_app, Hr, Ho.
Qed.

Lemma parse_dollar_safe e root top : tame e.2 = true → safes root →
  pspec (parse_dollar P e root top level) (λ l, safes l).
Proof.
  intros Ht Hr.
  assert (∀ (f : list MatchExpression → MatchExpression) m, (∀ l, safes l → safe (f l) = true) →
    pspec (match e.2 with VArray a => l ← parseTreeList P a level; mret (root ++ [f l]) | _ => bad m end)
      (λ l, safes l)) as Htree.
  { intros f m Hf. destruct e.2; try apply pspec_bad.
    eapply pspec_bind; [by apply parseTreeList_safe|]. intros l Hl. pstep. apply safes_snoc; auto. }
  assert (∀ r : parsed ext_expr, r ≠ Throw OutOfFuel →
    pspec (s ← r; mret (root ++ [EXTERNAL s])) (λ l, safes l)) as Hext.
  { intros r Hend. eapply pspec_bind; [by apply pspec_any|]. intros. pstep. by apply safes_snoc. }
  unfold parse_dollar. pstep; [by apply Htree|]. pstep; [by apply Htree|]. pstep; [by apply Htree|].
  repeat pstep; try (by apply safes_snoc); try done;
    try (apply Hext, WhereCallback_ends || apply Hext, TextCallback_ends).
  - destruct (trueValue e); [by apply safes_snoc|done].
  - eapply pspec_bind; [by apply comparison_safe|]. intros. pstep. by apply safes_snoc.
Qed.

Lemma parse_loop_safe l root top : tame (VObject l) = true → safes root →
  pspec (parse_loop P S l root top level) (λ l, safes l).
Proof.
  revert root. induction l as [|e l IH]; intros root Ht Hr; cbn [parse_loop]; [by pstep|].
  pose proof (tame_object _ e Ht ltac:(by left)) as He. apply tame_tail in Ht.
  eapply (pspec_bind _ _ (λ l, safes l)); [|intros; by apply IH].
  pstep; [by apply parse_dollar_safe|]. pstep; [destruct e.2; try done; by apply HS|]. pstep.
  - eapply pspec_bind; [apply parseRegexElement_safe|]. intros. pstep. by apply safes_snoc.
  - eapply pspec_bind; [by apply comparison_safe|]. intros. pstep. by apply safes_snoc.
Qed.
End trees.

Section filters.
Context `{ParserLaws}.

(** Fuel that reaches the depth limit is enough, and the tree is safe. *)
Lemma parse_safe fuel :
  (∀ o level, tame (VObject o) = true → 102 - level ≤ Z.of_nat fuel → level ≤ 101 →
     safe_spec (parse_ fuel o level)) ∧
  (∀ name o root level, tame (VObject o) = true → forallb safe root = true →
     102 - level ≤ Z.of_nat fuel → level ≤ 101 →
     pspec (parseSub fuel name o root level) (λ l, forallb safe l = true)).
Proof.
  induction fuel as [|fuel [IHP IHS]]; [split; intros; lia|]. split.
  - intros o level Ht Hf Hl. cbn [parse_]. unfold kMaximumTreeDepth. destruct (Z.ltb_spec 100 level); [pstep|].
    unfold parse_body. eapply pspec_bind.
    + apply (parse_loop_safe (parse_ fuel) (parseSub fuel)); [| |done|done]; intros; [apply IHP|apply IHS]; (done || lia).
    + intros l Hs. pstep. destruct l as [|x [|y l]]; [done| |done]. simpl in Hs. by apply andb_true_iff in Hs as [? _].
  - intros name o root level Ht Hr Hf Hl. cbn [parseSub]. unfold kMaximumTreeDepth. destruct (Z.ltb_spec 100 level); [pstep|].
    unfold sub_body. pstep.
    + eapply pspec_bind; [by apply pspec_any, GeoCallback_ends|]. intros. pstep. by apply safes_snoc.
    + apply (sub_loop_safe (parse_ fuel) (parseSub fuel)); [| |done|done]; intros; [apply IHP|apply IHS]; (done || lia).
Qed.

Lemma parser_safe o : tame (VObject o) = true → safe_spec (MatchExpressionParser_parse o).
Proof.
  intros Ht. unfold MatchExpressionParser_parse. pose proof (proj1 (parse_safe 102) o 0 Ht) as Hp.
  apply Hp; lia.
Qed.

(** The outcomes of building a matcher, from those of the parser. *)
Lemma Matcher2_new_cases query :
  (∃ x, MatchExpressionParser_parse query = Ok (Good x) ∧ Matcher2_new query = Ok (mkMatcher2 query x)) ∨
  (∃ code m, MatchExpressionParser_parse query = Ok (NotOK code m) ∧
     Matcher2_new query = Throw (UserException 16810 ("bad query: " +:+ code +:+ " " +:+ m))) ∨
  (∃ e, MatchExpressionParser_parse query = Throw e ∧ Matcher2_new query = Throw e).
Proof. unfold Matcher2_new. destruct (MatchExpressionParser_parse query) as [[]|]; eauto 6. Qed.

Lemma matcher_decides (query : BSONObj) : tame (VObject query) = true →
  match Matcher2_new query with
  | Ok m => ∀ message, tame (VObject message) = true →
      ∃ b, Matcher2_matches m message = Ok b ∧ (b = true ↔ sat (expression m) message)
  | Throw e => e ≠ OutOfFuel
  end.
Proof.
  intros Ht. pose proof (parser_safe query Ht) as Hp.
  destruct (Matcher2_new_cases query) as [(x & Hx & ->)|[(c & m & _ & ->)|(e & He & ->)]]; [|done|].
  - rewrite Hx in Hp. intros message Hm. apply (tree_correct x Hp), Hm.
  - by rewrite He in Hp.
Qed.

(** C9: Subscribing with a filter: parsing it ends within the depth limit, with a
    matcher, with the error 16810, or with an exception of a conversion or
    callback; and a matcher decides for every message whether the message
    satisfies the parsed expression, without throwing.  Filter and message have no
    time stamps, no doubles outside the 64-bit integers and named array elements. *)
Theorem filter_decides (query : BSONObj) : tame (VObject query) = true →
  match Matcher2_new query with
  | Ok m => ∀ message, tame (VObject message) = true →
      ∃ b, Matcher2_matches m message = Ok b ∧ (b = true ↔ sat (expression m) message)
  | Throw e => e ≠ OutOfFuel
  end.
Proof. apply matcher_decides. Qed.
End filters.

#[global] Instance default_laws (M : MatchEnv) (L : @MatchEnvLaws M) : @ParserLaws (default_env M).
Proof. by split. Qed.

(** ** Fields are conjoined *)

Lemma parsed_assoc {A B C} (m : parsed A) (f : A → parsed B) (g : B → parsed C) :
  (m ≫= f) ≫= g = m ≫= (λ a, f a ≫= g).
Proof. by destruct m as [[]|]. Qed.

Lemma parsed_ret_l {A B} (a : A) (f : A → parsed B) : mret a ≫= f = f a.
Proof. done. Qed.

Lemma parsed_bind_ext {A B} (m : parsed A) (f g : A → parsed B) : (∀ a, f a = g a) → m ≫= f = m ≫= g.
Proof. intros Hf. destruct m as [[]|]; [apply Hf|done|done]. Qed.

Section conjunction.
Context `{ParserEnv}.

(** A step that only adds expressions to those it is given. *)
Definition adds (F : list MatchExpression → parsed (list MatchExpression)) : Prop :=
  ∀ root, F root = (l ← F []; mret (root ++ l)).

Lemma adds_one (p : parsed MatchExpression) : adds (λ root, x ← p; mret (root ++ [x])).
Proof. intros root. by destruct p as [[]|]. Qed.

Lemma adds_bad m : adds (λ _, bad m).
Proof. done. Qed.

Lemma adds_ret : adds mret.
Proof. intros root. rewrite parsed_ret_l. by rewrite app_nil_r. Qed.

Lemma adds_bind F G : adds F → adds G → adds (λ root, F root ≫= G).
Proof.
  intros HF HG root. rewrite HF, !parsed_assoc. apply parsed_bind_ext. intros l.
  rewrite parsed_ret_l, (HG (root ++ l)), (HG l), parsed_assoc. apply parsed_bind_ext. intros k.
  by rewrite parsed_ret_l, app_assoc.
Qed.

(** Splits on the condition of a step. *)
Ltac adds_if := match goal with |- adds (λ _, if ?b then _ else _) => destruct b end.

Lemma sub_loop_adds P S sub name l level : adds (λ root, sub_loop P S sub name l root level).
Proof.
  induction l as [|e l IH]; [apply adds_ret|]. intros root. cbn [sub_loop]. rewrite parsed_assoc.
  apply parsed_bind_ext. intros o. rewrite (IH (root ++ option_list o)), (IH ([] ++ option_list o)), parsed_assoc.
  apply parsed_bind_ext. intros k. by rewrite parsed_ret_l, app_assoc.
Qed.

Lemma parseSub_adds fuel name sub level : adds (λ root, parseSub fuel name sub root level).
Proof.
  destruct fuel as [|fuel]; [done|]. cbn [parseSub]. adds_if; [apply adds_bad|].
  unfold sub_body. adds_if; [|apply sub_loop_adds]. intros root. rewrite parsed_assoc.
  by apply parsed_bind_ext.
Qed.

Lemma parse_dollar_adds P e top level : adds (λ root, parse_dollar P e root top level).
Proof.
  assert (∀ (f : list MatchExpression → MatchExpression) m,
    adds (λ root, match e.2 with VArray a => l ← parseTreeList P a level; mret (root ++ [f l]) | _ => bad m end)) as Ht.
  { intros f m. destruct e.2; try apply adds_bad. intros root. rewrite parsed_assoc. by apply parsed_bind_ext. }
  assert (∀ r : parsed ext_expr, adds (λ root, s ← r; mret (root ++ [EXTERNAL s]))) as Hx.
  { intros r root. rewrite parsed_assoc. by apply parsed_bind_ext. }
  unfold parse_dollar. do 3 (adds_if; [apply Ht|]).
  repeat adds_if; try apply adds_bad; try apply Hx; try apply adds_ret; try apply adds_one; try done.
  - intros root. rewrite parsed_ret_l. destruct (trueValue e); by rewrite ?app_nil_r.
  - destruct e.2; first [apply adds_bad | apply Hx].
Qed.

Lemma parse_loop_adds fuel l top level :
  adds (λ root, parse_loop (parse_ fuel) (parseSub fuel) l root top level).
Proof.
  induction l as [|e l IH]; [apply adds_ret|]. cbn [parse_loop]. apply adds_bind; [|done].
  adds_if; [apply parse_dollar_adds|]. adds_if; [destruct e.2; try apply adds_ret; apply parseSub_adds|].
  adds_if; apply adds_one.
Qed.

Lemma parse_loop_app fuel l k top level :
  parse_loop (parse_ fuel) (parseSub fuel) (l ++ k) [] top level =
  (x ← parse_loop (parse_ fuel) (parseSub fuel) l [] top level;
   y ← parse_loop (parse_ fuel) (parseSub fuel) k [] top level; mret (x ++ y)).
Proof.
  enough (∀ root, parse_loop (parse_ fuel) (parseSub fuel) (l ++ k) root top level =
    (x ← parse_loop (parse_ fuel) (parseSub fuel) l root top level;
     parse_loop (parse_ fuel) (parseSub fuel) k x top level)) as Happ.
  { rewrite Happ. apply parsed_bind_ext. intros x. apply parse_loop_adds. }
  induction l as [|e l IH]; intros root; [done|]. cbn [app parse_loop]. rewrite parsed_assoc.
  apply parsed_bind_ext. intros r. apply IH.
Qed.

Definition root_expr (root : list MatchExpression) : MatchExpression :=
  match root with [real] => real | _ => AND root end.

Lemma sat_root root doc : sat (root_expr root) doc ↔ foldr (λ e P, sat e doc ∧ P) True root.
Proof. destruct root as [|x [|y l]]; simpl; tauto. Qed.

Lemma sat_root_app l k doc : sat (root_expr (l ++ k)) doc ↔ sat (root_expr l) doc ∧ sat (root_expr k) doc.
Proof. rewrite !sat_root. induction l as [|x l IH]; simpl; [tauto|]. rewrite IH. tauto. Qed.

Lemma parse_S fuel o level : level ≤ 100 →
  parse_ (S fuel) o level =
  (root ← parse_loop (parse_ fuel) (parseSub fuel) o [] (level =? 0) (level + 1); mret (root_expr root)).
Proof. intros Hl. cbn [parse_]. unfold kMaximumTreeDepth. by rewrite (proj2 (Z.ltb_ge 100 level) Hl). Qed.

(** An accepted filter is its fields, parsed one after the other. *)
Lemma Matcher2_new_loop q m : Matcher2_new q = Ok m ↔
  ∃ root, parse_loop (parse_ 101) (parseSub 101) q [] true 1 = Ok (Good root) ∧ m = mkMatcher2 q (root_expr root).
Proof.
  assert (MatchExpressionParser_parse q =
    (root ← parse_loop (parse_ 101) (parseSub 101) q [] true 1; mret (root_expr root))) as Hp
    by exact (parse_S 101 q 0 ltac:(lia)).
  unfold Matcher2_new. rewrite Hp. clear Hp.
  destruct (parse_loop (parse_ 101) (parseSub 101) q [] true 1) as [[root|]|]; cbn [mbind parsed_bind]; split;
    try done; try (by intros (? & ? & ?)).
  - intros [= <-]. by exists root.
  - intros (r & [= ->] & ->). done.
Qed.

(** A filter is the conjunction of its fields: when a filter of the fields of
    [q1] and then those of [q2] is accepted, so is each of the two, and a message
    satisfies the whole exactly when it satisfies both. *)
Lemma filter_conjunction q1 q2 m : Matcher2_new (q1 ++ q2) = Ok m →
  ∃ m1 m2, Matcher2_new q1 = Ok m1 ∧ Matcher2_new q2 = Ok m2 ∧
    ∀ message, sat (expression m) message ↔ sat (expression m1) message ∧ sat (expression m2) message.
Proof.
  rewrite Matcher2_new_loop. intros (root & Hr & ->). rewrite parse_loop_app in Hr.
  destruct (parse_loop (parse_ 101) (parseSub 101) q1 [] true 1) as [[l|]|] eqn:H1; [|done|done].
  destruct (parse_loop (parse_ 101) (parseSub 101) q2 [] true 1) as [[k|]|] eqn:H2; [|done|done].
  injection Hr as <-. exists (mkMatcher2 q1 (root_expr l)), (mkMatcher2 q2 (root_expr k)).
  rewrite !Matcher2_new_loop. split_and!; [by exists l|by exists k|]. apply sat_root_app.
Qed.
End conjunction.

(** ** Examples *)

#[local] Instance sample_env : ParserEnv := default_env literal_env.

(** [{a: {$elemMatch: {b: {$gt: 1, $lt: 3}}}, "a.b": {$not: {$type: 4}}}] *)
Definition sample_query : BSONObj :=
  [("a", VObject [("$elemMatch", VObject [("b", VObject [("$gt", VInt 1); ("$lt", VInt 3)])])]);
   ("a.b", VObject [("$not", VObject [("$type", VInt 4)])])].

Definition sample_expr : MatchExpression :=
  AND [ELEM_MATCH_OBJECT "a" (AND [COMPARISON GT "b" ("$gt", VInt 1); COMPARISON LT "b" ("$lt", VInt 3)]);
       NOT (AND [TYPE_OPERATOR "a.b" 4])].

Lemma sample_accepted : Matcher2_new sample_query = Ok (mkMatcher2 sample_query sample_expr).
Proof. by vm_compute. Qed.

Lemma filter_decides_witness :
  Matcher2_new sample_query = Ok (mkMatcher2 sample_query sample_expr) ∧ sat sample_expr nested.
Proof.
  split; [apply sample_accepted|].
  pose proof (filter_decides sample_query eq_refl) as Hd. rewrite sample_accepted in Hd.
  destruct (Hd nested eq_refl) as (b & Hb & Hs). apply Hs.
  assert (Matcher2_matches (mkMatcher2 sample_query sample_expr) nested = Ok true) as Ht by (by vm_compute).
  congruence.
Defined.

Lemma filter_conjunction_witness : ∃ m1 m2,
  Matcher2_new (take 1 sample_query) = Ok m1 ∧ Matcher2_new (drop 1 sample_query) = Ok m2 ∧
  ∀ message, sat sample_expr message ↔ sat (expression m1) message ∧ sat (expression m2) message.
Proof. apply (filter_conjunction (take 1 sample_query) (drop 1 sample_query) _ sample_accepted). Defined.

(** ** Operators that do not do what their comments say *)

(** [$size] of a 64-bit number keeps the lower half: [{$size: 2^32}] matches the
    empty array. *)
Lemma size_truncated name : parseSize name ("$size", VLong (2 ^ 32)) = Ok (Good (SIZE name 0)).
Proof. by vm_compute. Qed.

(** [$type] of a fraction, meant to match nothing, matches [MinKey]. *)
Lemma type_fraction name v : double_eqb (double_of_Z 2) v = false → numberInt ("$type", VDouble v) = Ok 2 →
  parseType name ("$type", VDouble v) = Ok (Good (TYPE_OPERATOR name (BSONType_code MinKey))).
Proof.
  intros Hv Hn. unfold parseType. change (isNumber _) with true. cbn [negb]. rewrite Hn.
  cbn [lift_res mbind parsed_bind res_bind]. change (numberDouble _) with v. by rewrite Hv.
Qed.

(** [$mod] accepts a remainder that is not a number, and takes it as 0. *)
Lemma mod_remainder_unchecked name s :
  parseMOD name ("$mod", VArray [("0", VInt 4); ("1", VString s)]) = Ok (Good (MOD name 4 0)).
Proof. done. Qed.
