(* ===== verification/Projection.v ===== *)
(** * Projections: db/projection.cpp

    A projection is a tree of field names: which fields of a document to keep or
    leave out, [$slice] of arrays and [$elemMatch].  [Projection_init] builds it from
    the document a client subscribes with, [transform] applies it to a message.
    Subscriptions call [transform] without match details, so the positional
    operator never selects an element; that branch is left out. *)

From S2P Require Import Prelude StdMap Bytes Oid Doubles Bson BsonCompare FieldRef ElementPath MatchExpr MatchParser.

Inductive ArrayOpType := ARRAY_OP_NORMAL | ARRAY_OP_ELEM_MATCH | ARRAY_OP_POSITIONAL.

#[global] Instance ArrayOpType_eq_dec : EqDecision ArrayOpType.
Proof. solve_decision. Defined.

Section projection.
Context `{ParserEnv}.

(** The maps by field name are hash tables: only lookup and insertion matter. *)
Inductive Projection := mkProjection {
  include : bool;       (** the default at this level *)
  special : bool;       (** not to be skipped or included without recursing *)
  fields : list (string * Projection);
  source : BSONObj;
  includeID : bool;
  skip : Z;
  limit : Z;
  matchers : list (string * Matcher2);
  arrayOpType : ArrayOpType;
  hasNonSimple : bool
}.

Definition Projection_new : Projection :=
  mkProjection true false [] [] true 0 (-1) [] ARRAY_OP_NORMAL false.

Fixpoint lookup_name {A} (l : list (string * A)) (name : string) : option A :=
  match l with
  | [] => None
  | (n, a) :: l => if (n =? name)%string then Some a else lookup_name l name
  end.

Fixpoint update_name {A} (l : list (string * A)) (name : string) (a : A) : list (string * A) :=
  match l with
  | [] => [(name, a)]
  | (n, b) :: l => if (n =? name)%string then (n, a) :: l else (n, b) :: update_name l name a
  end.

Definition set_include (b : bool) (p : Projection) : Projection :=
  mkProjection b (special p) (fields p) (source p) (includeID p) (skip p) (limit p) (matchers p)
    (arrayOpType p) (hasNonSimple p).
Definition set_special (p : Projection) : Projection :=
  mkProjection (include p) true (fields p) (source p) (includeID p) (skip p) (limit p) (matchers p)
    (arrayOpType p) (hasNonSimple p).
Definition set_fields (l : list (string * Projection)) (p : Projection) : Projection :=
  mkProjection (include p) (special p) l (source p) (includeID p) (skip p) (limit p) (matchers p)
    (arrayOpType p) (hasNonSimple p).
Definition set_source (o : BSONObj) (p : Projection) : Projection :=
  mkProjection (include p) (special p) (fields p) o (includeID p) (skip p) (limit p) (matchers p)
    (arrayOpType p) (hasNonSimple p).
Definition set_includeID (b : bool) (p : Projection) : Projection :=
  mkProjection (include p) (special p) (fields p) (source p) b (skip p) (limit p) (matchers p)
    (arrayOpType p) (hasNonSimple p).
Definition set_slice (s l : Z) (p : Projection) : Projection :=
  mkProjection (include p) (special p) (fields p) (source p) (includeID p) s l (matchers p)
    (arrayOpType p) (hasNonSimple p).
Definition set_matchers (m : list (string * Matcher2)) (p : Projection) : Projection :=
  mkProjection (include p) (special p) (fields p) (source p) (includeID p) (skip p) (limit p) m
    (arrayOpType p) (hasNonSimple p).
Definition set_arrayOpType (t : ArrayOpType) (p : Projection) : Projection :=
  mkProjection (include p) (special p) (fields p) (source p) (includeID p) (skip p) (limit p) (matchers p)
    t (hasNonSimple p).
Definition set_nonSimple (p : Projection) : Projection :=
  mkProjection (include p) (special p) (fields p) (source p) (includeID p) (skip p) (limit p) (matchers p)
    (arrayOpType p) true.

(** ** Building *)

(** The first piece of a dotted name and the rest. *)
Definition split_dot (field : string) : string * string :=
  match str_index "." field with
  | Some dot => (str_take dot field, str_drop (S dot) field)
  | None => (field, "")
  end.

(** [_fields[subfield]], created when it is not there. *)
Definition sub_projection (p : Projection) (name : string) : Projection :=
  match lookup_name (fields p) name with Some q => q | None => Projection_new end.

(** [add(field, include)]; every call drops the first piece. *)
Fixpoint add_include (fuel : nat) (field : string) (inc : bool) (p : Projection) : Projection :=
  if (field =? "")%string then set_include inc p
  else
    let p := set_include (negb inc) p in
    match fuel with
    | O => p
    | S fuel =>
        let '(subfield, rest) := split_dot field in
        set_fields (update_name (fields p) subfield (add_include fuel rest inc (sub_projection p subfield))) p
    end.

Definition add (field : string) (inc : bool) (p : Projection) : Projection :=
  add_include (String.length field) field inc p.

(** [add(field, skip, limit)] *)
Fixpoint add_slice_fuel (fuel : nat) (field : string) (s l : Z) (p : Projection) : Projection :=
  let p := set_special p in
  if (field =? "")%string then set_slice s l p
  else
    match fuel with
    | O => p
    | S fuel =>
        let '(subfield, rest) := split_dot field in
        set_fields (update_name (fields p) subfield (add_slice_fuel fuel rest s l (sub_projection p subfield))) p
    end.

Definition add_slice (field : string) (s l : Z) (p : Projection) : Projection :=
  add_slice_fuel (String.length field) field s l p.

(** [mongoutils::str::contains(s, ".$")] *)
Fixpoint contains_positional (s : string) : bool :=
  match s with
  | String c (String d _ as s) => ((c =? ".")%char && (d =? "$")%char) || contains_positional s
  | _ => false
  end.

(** A [$slice]: a number, or an array of skip and limit. *)
Definition init_slice (p : Projection) (name : string) (e2 : BSONElement) : res Projection :=
  if isNumber e2 then
    i ← numberInt e2;
    if i <? 0 then
      if i =? - 2 ^ 31 then Throw (UndefinedBehaviour "overflow of -i in $slice")
      else Ok (add_slice name i (- i) p)
    else Ok (add_slice name 0 i p)
  else
    match e2.2 with
    | VArray arr =>
        _ ← uassert 13099 "$slice array wrong size" (nFields arr =? 2);
        match arr with
        | [a; b] =>
            s ← numberInt a;
            l ← numberInt b;
            _ ← uassert 13100 "$slice limit must be positive" (0 <? l);
            Ok (add_slice name s l p)
        | _ => Ok p
        end
    | _ => Throw (UserException 13098 "$slice only supports numbers and [skip, limit] arrays")
    end.

(** An [$elemMatch]: [e.wrap()] is the document with only [e]. *)
Definition init_elemMatch (p : Projection) (e e2 : BSONElement) : res Projection :=
  _ ← uassert 16342 "elemMatch: invalid argument.  object required." (bool_decide (type e2 = Object));
  _ ← uassert 16343 "Cannot specify positional operator and $elemMatch (currently unsupported)."
        (negb (bool_decide (arrayOpType p = ARRAY_OP_POSITIONAL)));
  _ ← uassert 16344 "Cannot use $elemMatch projection on a nested field (currently unsupported)."
        (bool_decide (str_index "." (fieldName e) = None));
  let p := set_arrayOpType ARRAY_OP_ELEM_MATCH p in
  m ← Matcher2_new [e];
  Ok (add (fieldName e) true (set_matchers (update_name (matchers p) (fieldName e) m) p)).

Definition init_positional (p : Projection) (e : BSONElement) : res Projection :=
  if contains_positional (fieldName e) then
    _ ← uassert 16345 "Cannot exclude array elements with the positional operator (currently unsupported)."
          (trueValue e);
    _ ← uassert 16346 "Cannot specify more than one positional array element per query (currently unsupported)."
          (negb (bool_decide (arrayOpType p = ARRAY_OP_POSITIONAL)));
    _ ← uassert 16347 "Cannot specify positional operator and $elemMatch (currently unsupported)."
          (negb (bool_decide (arrayOpType p = ARRAY_OP_ELEM_MATCH)));
    Ok (set_arrayOpType ARRAY_OP_POSITIONAL p)
  else Ok p.

(** The loop of [init]; [true_false] is [None] while it is -1. *)
Fixpoint init_loop (l : BSONObj) (true_false : option bool) (p : Projection) : res Projection :=
  match l with
  | [] => Ok p
  | e :: l =>
      let p := if negb (isNumber e) then set_nonSimple p else p in
      r ← (match e.2 with
           | VObject obj =>
               let e2 := firstElement obj in
               q ← (if (fieldName e2 =? "$slice")%string then init_slice p (fieldName e) e2
                    else if (fieldName e2 =? "$elemMatch")%string then init_elemMatch p e e2
                    else Throw (UserException 13097 ("Unsupported projection option: " +:+ fieldName e2)));
               Ok (q, true_false)
           | _ =>
               if (fieldName e =? "_id")%string && negb (trueValue e) then Ok (set_includeID false p, true_false)
               else
                 let p := add (fieldName e) (trueValue e) p in
                 match true_false with
                 | None => Ok (set_include (negb (trueValue e)) p, Some (trueValue e))
                 | Some b =>
                     _ ← uassert 10053 "You cannot currently mix including and excluding fields. Contact us if this is an issue."
                           (Bool.eqb b (trueValue e));
                     Ok (p, true_false)
                 end
           end);
      p ← init_positional r.1 e;
      init_loop l r.2 p
  end.

(** [init] of a new projection. *)
Definition Projection_init (o : BSONObj) : res Projection := init_loop o None (set_source o Projection_new).

(** ** Transforming *)

(** The [while] loop of [appendArray] over the elements, given what is appended
    for an element: [skip] elements are left out, then at most [limit] are looked
    at, and the kept ones are numbered from [i]. *)
Definition array_elements (keep : value → option value) : Z → Z → Z → BSONObj → BSONObj :=
  fix go skip limit i l :=
    match l with
    | [] => []
    | (_, v) :: l =>
        if negb (skip =? 0) then go (skip - 1) limit i l
        else if negb (limit =? -1) && (limit =? 0) then []
        else
          let limit := if negb (limit =? -1) then limit - 1 else limit in
          match keep v with
          | Some w => (numStr i, w) :: go skip limit (i + 1) l
          | None => go skip limit i l
          end
    end.

Definition effective_skip (s : Z) (a : BSONObj) : Z := if s <? 0 then Z.max 0 (s + nFields a) else s.

Definition concat_elements (f : string → value → BSONObj) : BSONObj → BSONObj :=
  fix go l := match l with [] => [] | (n, v) :: l => f n v ++ go l end.

(** [append]: what is added to the builder for the element [(name, v)], and
    [appendArray] on an array nested in an array, which is not sliced. *)
Fixpoint append_value (p : Projection) (name : string) (v : value) : BSONObj :=
  match lookup_name (fields p) name with
  | None => if include p then [(name, v)] else []
  | Some subfm =>
      if bool_decide (fields subfm = []) && negb (special subfm) then
        if include subfm then [(name, v)] else []
      else
        match v with
        | VObject o => [(name, VObject (concat_elements (append_value subfm) o))]
        | VArray a =>
            [(name, VArray (array_elements (keep_value subfm) (effective_skip (skip subfm) a) (limit subfm) 0 a))]
        | _ => if include subfm then [(name, v)] else []
        end
  end
with keep_value (p : Projection) (v : value) : option value :=
  match v with
  | VArray a => Some (VArray (array_elements (keep_value p) 0 (-1) 0 a))
  | VObject o => Some (VObject (concat_elements (append_value p) o))
  | _ => if include p then Some v else None
  end.

Definition append_elem (p : Projection) (e : BSONElement) : BSONObj := append_value p (fieldName e) e.2.

Definition appendArray (p : Projection) (a : BSONObj) (nested : bool) : BSONObj :=
  let s := if nested then 0 else skip p in
  let l := if nested then -1 else limit p in
  array_elements (keep_value p) (effective_skip s a) l 0 a.

(** The element an [$elemMatch] selects, as the only one of its array. *)
Definition transform_elemMatch (p : Projection) (in_ : BSONObj) (e : BSONElement) (m : Matcher2) : res BSONObj :=
  _ ← massert 16348 "matchers are only supported for $elemMatch"
        (bool_decide (arrayOpType p = ARRAY_OP_ELEM_MATCH));
  r ← matches_details (expression m) in_ None;
  if r.1 : bool then
    _ ← massert 16349 "$elemMatch specified, but projection field not found."
          (bool_decide (is_Some (lookup_name (fields p) (fieldName e))));
    let f := getField in_ (fieldName e) in
    _ ← massert 16350 "$elemMatch called on document element with eoo" (negb (eoo f));
    o ← embeddedObjectUserCheck f;
    key ← (match r.2 with Some k => Ok k | None => Throw (VerifyFailed "hasElemMatchKey()") end);
    _ ← massert 16351 "$elemMatch called on array element with eoo" (negb (eoo (getField o key)));
    Ok (append_elem p (fieldName e, VArray [("0", (getField o key).2)]))
  else Ok [].

Fixpoint transform_loop (p : Projection) (in_ l : BSONObj) (b : BSONObj) : res BSONObj :=
  match l with
  | [] => Ok b
  | e :: l =>
      r ← (if (fieldName e =? "_id")%string then Ok (if includeID p then [e] else [])
           else match lookup_name (matchers p) (fieldName e) with
                | None => Ok (append_elem p e)
                | Some m => transform_elemMatch p in_ e m
                end);
      transform_loop p in_ l (b ++ r)
  end.

Definition transform (p : Projection) (in_ : BSONObj) : res BSONObj := transform_loop p in_ in_ [].

(** ** Positional operators, index keys *)

(** [mongoutils::str::before] *)
Definition str_before (s : string) (c : ascii) : string :=
  match str_index c s with Some i => str_take i s | None => s end.

Fixpoint validate_loop (spec query : BSONObj) : res unit :=
  match query with
  | [] => Throw (UserException 16354 "Positional operator does not match the query specifier.")
  | q :: query =>
      if (fieldName q =? "$and")%string then Ok ()
      else if existsb (λ s, contains_positional (fieldName s) &&
                            (str_before (fieldName q) "." =? str_before (fieldName s) ".")%string) spec
      then Ok ()
      else validate_loop spec query
  end.

Definition validateQuery (p : Projection) (query : BSONObj) : res unit :=
  if negb (bool_decide (arrayOpType p = ARRAY_OP_POSITIONAL)) then Ok ()
  else validate_loop (source p) query.

(** [KeyOnly]: per field of a key, whether it is in the output, and its name. *)
Definition KeyOnly : Type := list (bool * string).

Fixpoint checkKey_loop (p : Projection) (keyPattern : BSONObj) (k : KeyOnly) (got : Z) : option (KeyOnly * Z) :=
  match keyPattern with
  | [] => Some (k, got)
  | e :: keyPattern =>
      if negb (eoo (getField (source p) (fieldName e))) then
        if bool_decide (is_Some (str_index "." (fieldName e))) then None
        else if negb (includeID p) && (fieldName e =? "_id")%string then
          checkKey_loop p keyPattern (k ++ [(false, "")]) got
        else checkKey_loop p keyPattern (k ++ [(true, fieldName e)]) (got + 1)
      else if (fieldName e =? "_id")%string && includeID p then
        checkKey_loop p keyPattern (k ++ [(true, "_id")]) got
      else checkKey_loop p keyPattern (k ++ [(false, "")]) got
  end.

Definition checkKey (p : Projection) (keyPattern : BSONObj) : option KeyOnly :=
  if include p then None
  else if hasNonSimple p then None
  else if includeID p && eoo (getField keyPattern "_id") then None
  else
    r ← checkKey_loop p keyPattern [] 0;
    let need := nFields (source p) in
    let need := if negb (includeID p) then need - 1 else need in
    if r.2 =? need then Some r.1 else None.

Fixpoint hydrate (k : KeyOnly) (key : BSONObj) : res BSONObj :=
  match key with
  | [] => Ok []
  | e :: key =>
      match k with
      | [] => Throw (VerifyFailed "n < _include.size()")
      | (inc, name) :: k =>
          rest ← hydrate k key;
          if inc : bool then Ok ((name, e.2) :: rest) else Ok rest
      end
  end.
End projection.
