(* ===== verification/ProjectionSpec.v ===== *)
(** * Projections: what they keep

    A projection never invents data: its result is the message with fields left
    out, at any depth, and arrays shortened ([projection_prunes]); for a projection
    that lists top-level fields the result is determined exactly
    ([projection_fields]). *)

From S2P Require Import Prelude StdMap Bytes Oid Doubles Bson BsonCompare FieldRef ElementPath MatchExpr MatchSpec MatchParser Projection.

(** ** Pruned documents *)

(** [l'] is [l] with elements left out and the others related by [R], in order. *)
Inductive sub_by {A} (R : A → A → Prop) : list A → list A → Prop :=
| sub_nil : sub_by R [] []
| sub_skip x l' l : sub_by R l' l → sub_by R l' (x :: l)
| sub_keep x' x l' l : R x' x → sub_by R l' l → sub_by R (x' :: l') (x :: l).

(** The names of the elements of an array. *)
Definition numbered (l : BSONObj) : Prop := ∀ i e, l !! i = Some e → e.1 = numStr (Z.of_nat i).

(** [prunes v' v]: [v'] is [v] with fields left out of objects and elements out of
    arrays, which are numbered anew. *)
Inductive prunes : value → value → Prop :=
| prunes_refl v : prunes v v
| prunes_object o' o :
    sub_by (λ x y : BSONElement, x.1 = y.1 ∧ prunes x.2 y.2) o' o → prunes (VObject o') (VObject o)
| prunes_array l' l :
    sub_by (λ x y : BSONElement, prunes x.2 y.2) l' l → numbered l' → prunes (VArray l') (VArray l).

Abbreviation prunes_elem := (λ x y : BSONElement, x.1 = y.1 ∧ prunes x.2 y.2).
Abbreviation prunes_obj o' o := (sub_by prunes_elem o' o).

Section lists.
Context {A : Type} (R : A → A → Prop).

Lemma sub_by_nil_l l : sub_by R [] l.
Proof. induction l; [apply sub_nil|by apply sub_skip]. Qed.

Lemma sub_by_app a' a b' b : sub_by R a' a → sub_by R b' b → sub_by R (a' ++ b') (a ++ b).
Proof. induction 1; simpl; intros; [done|apply sub_skip|apply sub_keep]; auto. Qed.

Lemma sub_by_elem x' x l : x ∈ l → R x' x → sub_by R [x'] l.
Proof.
  intros Hx HR. induction Hx as [|y l Hx IH]; [|apply sub_skip; auto]. apply sub_keep; [done|]. apply sub_by_nil_l.
Qed.

Lemma sub_by_opt (f : A → list A) l : (∀ x, x ∈ l → f x = [] ∨ ∃ y, f x = [y] ∧ R y x) →
  sub_by R (flat_map f l) l.
Proof.
  induction l as [|x l IH]; intros Hf; simpl; [constructor|].
  assert (sub_by R (flat_map f l) l) as Hl by (apply IH; intros y Hy; apply Hf; by right).
  destruct (Hf x ltac:(by left)) as [->|(y & -> & HR)]; [by apply sub_skip|by apply sub_keep].
Qed.
End lists.

Lemma concat_elements_flat f o : concat_elements f o = flat_map (λ e : BSONElement, f e.1 e.2) o.
Proof. by induction o as [|[n v] o IH]; simpl; [|rewrite IH]. Qed.

Section pruning.
Context `{ParserEnv}.

(** What [append] adds for an element is a pruned form of it, or nothing. *)
Definition pruned_field (v : value) : Prop := ∀ p name,
  append_value p name v = [] ∨ ∃ w, append_value p name v = [(name, w)] ∧ prunes w v.

Definition pruned_element (v : value) : Prop := ∀ p w, keep_value p v = Some w → prunes w v.

Lemma concat_prunes p o : Forall (λ e : BSONElement, pruned_field e.2) o →
  prunes_obj (concat_elements (append_value p) o) o.
Proof.
  intros Ho. rewrite concat_elements_flat. apply sub_by_opt. intros [n v] Hx.
  rewrite Forall_forall in Ho. specialize (Ho _ Hx p n). cbn [fst snd] in *.
  destruct Ho as [->|(w & -> & Hw)]; [by left|]. right. by eexists.
Qed.

Lemma array_elements_prunes keep s l i a :
  (∀ e w, e ∈ a → keep e.2 = Some w → prunes w e.2) →
  sub_by (λ x y : BSONElement, prunes x.2 y.2) (array_elements keep s l i a) a ∧
  (∀ j e, array_elements keep s l i a !! j = Some e → e.1 = numStr (i + Z.of_nat j)).
Proof.
  revert s l i. induction a as [|[n v] a IH]; intros s l i Hk; cbn [array_elements].
  { split; [constructor|]. intros j e Hj. by rewrite lookup_nil in Hj. }
  assert (∀ e w, e ∈ a → keep e.2 = Some w → prunes w e.2) as Hk' by (intros e w He; apply Hk; by right).
  case_match. { destruct (IH (s - 1) l i Hk') as [??]. split; [by apply sub_skip|done]. }
  case_match. { split; [apply sub_by_nil_l|]. intros j e Hj. by rewrite lookup_nil in Hj. }
  set (l1 := if negb (l =? -1) then l - 1 else l).
  destruct (keep v) as [w|] eqn:Hv.
  - destruct (IH s l1 (i + 1) Hk') as [Hs Hn]. split.
    + apply sub_keep; [|done]. apply (Hk (n, v)); [by left|done].
    + intros [|j] e; simpl; [intros [= <-]; f_equal; simpl; f_equal; lia|].
      intros He. rewrite (Hn j e He). f_equal. lia.
  - destruct (IH s l1 i Hk') as [??]. split; [by apply sub_skip|done].
Qed.

Lemma array_elements_value keep s l a : (∀ e w, e ∈ a → keep e.2 = Some w → prunes w e.2) →
  prunes (VArray (array_elements keep s l 0 a)) (VArray a).
Proof.
  intros Hk. destruct (array_elements_prunes keep s l 0 a Hk) as [Hs Hn]. apply prunes_array; [done|].
  intros i e Hi. by rewrite (Hn i e Hi).
Qed.

Lemma prunes_value v : pruned_field v ∧ pruned_element v.
Proof.
  assert (∀ v, match v with VObject _ | VArray _ => False | _ => True end → pruned_field v ∧ pruned_element v) as Hleaf.
  { intros w Hw. split.
    - intros p name. destruct w; try done; cbn [append_value]; repeat case_match;
        first [by left | right; eexists; split; [done|constructor]].
    - intros p u. destruct w; try done; cbn [keep_value]; case_match; intros [= <-]; constructor. }
  induction v as [| | | |o IH|l IH| | | | | | | | | | | | | | | ] using value_ind'; try (by apply Hleaf).
  - assert (∀ p, prunes (VObject (concat_elements (append_value p) o)) (VObject o)) as Ho.
    { intros p. apply prunes_object, concat_prunes. eapply Forall_impl; [exact IH|]. by intros ? []. }
    split; [intros p name; cbn [append_value]|intros p w; cbn [keep_value]; intros [= <-]; apply Ho].
    repeat case_match; first [by left | right; eexists; split; [done|]; (apply prunes_refl || apply Ho)].
  - assert (∀ p s k, prunes (VArray (array_elements (keep_value p) s k 0 l)) (VArray l)) as Hl.
    { intros p s k. apply array_elements_value. intros e w He. rewrite Forall_forall in IH. by apply IH. }
    split; [intros p name; cbn [append_value]|intros p w; cbn [keep_value]; intros [= <-]; apply Hl].
    repeat case_match; first [by left | right; eexists; split; [done|]; (apply prunes_refl || apply Hl)].
Qed.

Lemma append_prunes p e : append_elem p e = [] ∨ ∃ w, append_elem p e = [(fieldName e, w)] ∧ prunes w e.2.
Proof. apply prunes_value. Qed.

Lemma prunes_fieldName w (e : BSONElement) : prunes w e.2 → fieldName (fieldName e, w) = fieldName e.
Proof.
  intros Hw. assert (vtype w = vtype e.2) as Ht by (by inversion Hw). unfold fieldName, eoo, type. simpl.
  rewrite Ht. by case_bool_decide.
Qed.

(** An array with one of its elements. *)
Lemma prunes_single w k v l : (k, v) ∈ l → prunes w (VArray [("0", v)]) → prunes w (VArray l).
Proof.
  intros Hk Hw. inversion Hw as [|?|l' l0 Hs Hn]; subst.
  - apply prunes_array; [eapply sub_by_elem; [done|simpl; constructor]|].
    intros i e Hi. destruct i as [|[|i]]; simplify_eq/=. done.
  - apply prunes_array; [|done]. inversion Hs as [|? ? ? H1|? ? ? ? HR H1]; subst.
    + inversion H1; subst. apply sub_by_nil_l.
    + inversion H1; subst. by eapply sub_by_elem.
Qed.

Lemma transform_elemMatch_prunes p in_ e m l r : getField in_ (fieldName e) = e → e.2 = VArray l →
  transform_elemMatch p in_ e m = Ok r → r = [] ∨ ∃ w, r = [(fieldName e, w)] ∧ prunes w e.2.
Proof.
  intros He Hl. unfold transform_elemMatch. intros [_ Hr]%massert_Ok.
  apply bind_Ok_inv in Hr as ([[] k] & _ & Hr); cbn [fst snd] in Hr; [|injection Hr as <-; by left].
  apply massert_Ok in Hr as [_ Hr]. rewrite He in Hr. apply massert_Ok in Hr as [_ Hr].
  unfold embeddedObjectUserCheck in Hr. rewrite Hl in Hr. cbn [mbind res_bind] in Hr.
  destruct k as [k|]; [|done]. cbn [mbind res_bind] in Hr. apply massert_Ok in Hr as [Hk Hr].
  apply negb_true_iff in Hk. injection Hr as <-. destruct (getField_elem l k Hk) as [Hin _].
  set (f := (fieldName e, VArray [("0", (getField l k).2)])).
  assert (fieldName f = fieldName e) as Hf by done. rewrite <-Hf.
  destruct (append_prunes p f) as [->|(w & -> & Hw)]; [by left|]. right. exists w. split; [done|].
  rewrite Hl. destruct (getField l k) as [n v]. by eapply prunes_single.
Qed.

Lemma getField_NoDup o e : NoDup (fieldName <$> o) → e ∈ o → getField o (fieldName e) = e.
Proof.
  induction o as [|x o IH]; intros Hn He; [by apply not_elem_of_nil in He|].
  apply NoDup_cons in Hn as [Hx Hn]. cbn [getField].
  destruct (StringData_eqb (fieldName e) (fieldName x)) eqn:Heq.
  - apply StringData_eqb_eq in Heq. apply elem_of_cons in He as [->|He]; [done|].
    destruct Hx. rewrite <-Heq. by apply list_elem_of_fmap_2.
  - apply IH; [done|]. apply elem_of_cons in He as [->|He]; [|done].
    by rewrite (proj2 (StringData_eqb_eq _ _)) in Heq.
Qed.

Lemma transform_loop_prunes p in_ l b out :
  NoDup (fieldName <$> in_) → l ⊆ in_ →
  (∀ e m, e ∈ in_ → lookup_name (matchers p) (fieldName e) = Some m → ∃ a, e.2 = VArray a) →
  transform_loop p in_ l b = Ok out →
  ∃ r, out = b ++ r ∧ sub_by (λ x y : BSONElement, fieldName x = fieldName y ∧ prunes x.2 y.2) r l.
Proof.
  intros Hn Hl Hm. revert b. induction l as [|e l IH]; intros b; cbn [transform_loop].
  { intros [= <-]. exists []. split; [by rewrite app_nil_r|constructor]. }
  intros (r & Hr & Ht)%bind_Ok_inv.
  destruct (IH ltac:(set_solver) _ Ht) as (r' & -> & Hs).
  exists (r ++ r'). split; [by rewrite app_assoc|].
  assert (r = [] ∨ ∃ x, r = [x] ∧ fieldName x = fieldName e ∧ prunes x.2 e.2) as [->|(x & -> & Hx)].
  { destruct (fieldName e =? "_id")%string.
    { injection Hr as <-. destruct (includeID p); [|by left]. right. exists e. split_and!; [done..|constructor]. }
    assert (r = [] ∨ ∃ w, r = [(fieldName e, w)] ∧ prunes w e.2) as [->|(w & -> & Hw)]; [|by left|].
    - destruct (lookup_name _ _) as [m|] eqn:Hlook; [|injection Hr as <-; apply append_prunes].
      destruct (Hm e m) as [a Ha]; [set_solver|done|].
      eapply transform_elemMatch_prunes; [|done|done]. apply getField_NoDup; [done|set_solver].
    - right. eexists. split_and!; [done| |done]. by apply prunes_fieldName. }
  - by apply sub_skip.
  - by apply sub_keep.
Qed.

(** A projection never invents data.  Whatever the projection, its result is
    the message with fields left out at any depth and elements left out of arrays,
    the kept ones in order and unchanged otherwise; for [$elemMatch] the field is
    an array.  Field names of the message are distinct. *)
Lemma projection_prunes p message out :
  NoDup (fieldName <$> message) →
  (∀ e m, e ∈ message → lookup_name (matchers p) (fieldName e) = Some m → ∃ a, e.2 = VArray a) →
  transform p message = Ok out →
  sub_by (λ x y : BSONElement, fieldName x = fieldName y ∧ prunes x.2 y.2) out message.
Proof.
  intros Hn Hm Ht. by destruct (transform_loop_prunes _ _ _ _ _ Hn (reflexivity _) Hm Ht) as (r & -> & Hr).
Qed.
End pruning.

(** ** Lists of fields *)

Lemma lookup_update {A} (l : list (string * A)) n m a :
  lookup_name (update_name l n a) m = if (n =? m)%string then Some a else lookup_name l m.
Proof.
  induction l as [|[k b] l IH]; simpl; [done|].
  destruct (String.eqb_spec k n) as [->|Hk]; simpl; destruct (String.eqb_spec n m) as [->|Hn]; try done.
  - rewrite (proj2 (String.eqb_neq k m)) by done. by rewrite IH, ?String.eqb_refl.
  - by rewrite IH.
Qed.

(** A top-level field switched on or off. *)
Definition simple (e : BSONElement) : bool :=
  negb (fieldName e =? "")%string && bool_decide (str_index "." (fieldName e) = None) &&
  match e.2 with VObject _ => false | _ => true end.

(** The fields a list switches on, and those it switches off, other than [_id]. *)
Definition switched (b : bool) (spec : BSONObj) : list string :=
  fieldName <$> filter (λ e, trueValue e = b ∧ (b = true ∨ fieldName e ≠ "_id")) spec.

Definition without_id (spec : BSONObj) : bool :=
  existsb (λ e, (fieldName e =? "_id")%string && negb (trueValue e)) spec.

(** Which fields of a message stay. *)
Definition stays (spec : BSONObj) (name : string) : bool :=
  if (name =? "_id")%string then negb (without_id spec)
  else match switched true spec with
       | [] => bool_decide (name ∉ switched false spec)
       | on => bool_decide (name ∈ on)
       end.

Section simple.
Context `{ParserEnv}.

Definition leaf (b : bool) : Projection := set_include b Projection_new.

(** The projection after the fields [seen], all with the same switch. *)
Record fields_at (seen : list string) (tf : option bool) (id : bool) (p : Projection) : Prop := {
  fa_matchers : matchers p = [];
  fa_type : arrayOpType p = ARRAY_OP_NORMAL;
  fa_fields : ∀ n, lookup_name (fields p) n =
    if decide (n ∈ seen) then Some (leaf (default true tf)) else None;
  fa_include : include p = match tf with None => true | Some b => negb b end;
  fa_includeID : includeID p = id;
  fa_none : tf = None → seen = []
}.

Lemma add_simple name b p : name ≠ "" → str_index "." name = None →
  add name b p = set_fields (update_name (fields p) name (set_include b (sub_projection p name)))
                   (set_include (negb b) p).
Proof.
  intros Hn Hd. unfold add. destruct name as [|c s]; [done|]. cbn [String.length add_include String.eqb].
  unfold split_dot. rewrite Hd. by destruct (String.length s).
Qed.

Lemma fields_at_add seen tf id p name b : fields_at seen tf id p → (tf = None ∨ tf = Some b) →
  name ≠ "" → str_index "." name = None →
  fields_at (name :: seen) (Some b) id (set_include (negb b) (add name b p)).
Proof.
  intros [Hm Ht Hf Hi Hid Hnone] Htf Hn Hd. rewrite add_simple by done.
  split; try done; cbn [matchers arrayOpType fields set_fields set_include include includeID default]; try done.
  intros n. rewrite lookup_update. destruct (String.eqb_spec name n) as [->|Hne].
  - rewrite decide_True by by left. unfold sub_projection. rewrite Hf. destruct (decide (n ∈ seen)); [|done].
    by destruct Htf as [-> | ->].
  - rewrite Hf. destruct Htf as [-> | ->].
    + rewrite Hnone by done. rewrite !decide_False; [done|set_solver..].
    + apply decide_ext. rewrite elem_of_cons. naive_solver.
Qed.

Lemma simple_positional name : str_index "." name = None → contains_positional name = false.
Proof.
  induction name as [|c s IH]; [done|]. simpl. destruct (c =? ".")%char eqn:Hc; [done|].
  destruct (str_index "." s) eqn:Hs; [done|]. intros _. destruct s; [done|]. simpl. by apply IH.
Qed.

Lemma fields_at_nonSimple seen tf id p (b : bool) : fields_at seen tf id p →
  fields_at seen tf id (if b then set_nonSimple p else p).
Proof. intros []. by destruct b. Qed.

Lemma fields_at_id seen tf id p : fields_at seen tf id p → fields_at seen tf false (set_includeID false p).
Proof. intros []. by split. Qed.

Definition mixed : exn :=
  UserException 10053 "You cannot currently mix including and excluding fields. Contact us if this is an issue.".

(** One simple field: switch off [_id], or switch a field in agreement with those
    before. *)
Lemma init_step e l seen tf id p : simple e = true → fields_at seen tf id p →
  if (fieldName e =? "_id")%string && negb (trueValue e)
  then ∃ q, init_loop (e :: l) tf p = init_loop l tf q ∧ fields_at seen tf false q
  else if bool_decide (tf = None ∨ tf = Some (trueValue e))
  then ∃ q, init_loop (e :: l) tf p = init_loop l (Some (trueValue e)) q ∧
         fields_at (fieldName e :: seen) (Some (trueValue e)) id q
  else init_loop (e :: l) tf p = Throw mixed.
Proof.
  unfold simple. rewrite !andb_true_iff. intros [[Hn Hd] Hv] Hp.
  apply negb_true_iff, String.eqb_neq in Hn. apply bool_decide_eq_true in Hd.
  cbn [init_loop]. set (p1 := if negb (isNumber e) then _ else _).
  assert (fields_at seen tf id p1) as Hp1 by by apply fields_at_nonSimple.
  assert (∀ q, init_positional q e = Ok q) as Hpos.
  { intros q. unfold init_positional. by rewrite (simple_positional _ Hd). }
  assert (∀ A (a b : A), match e.2 with VObject _ => a | _ => b end = b) as Hobj by (by destruct e.2).
  clearbody p1. destruct e as [n v]. cbn [snd] in *.
  assert (∀ (F : Projection * option bool → res Projection) (g : BSONObj → res (Projection * option bool)) h,
    (match v with VObject o => g o | _ => h end) ≫= F = h ≫= F) as Hv' by (by destruct v).
  rewrite Hv'. destruct ((fieldName (n, v) =? "_id")%string && negb (trueValue (n, v))).
  { eexists. cbn [mbind res_bind fst snd]. rewrite Hpos. split; [done|]. by eapply fields_at_id. }
  destruct tf as [c|].
  - destruct (bool_decide_reflect (Some c = None ∨ Some c = Some (trueValue (n, v)))) as [Hc|Hc].
    + assert (c = trueValue (n, v)) as -> by naive_solver. unfold uassert. rewrite Bool.eqb_reflx.
      cbn [mbind res_bind fst snd]. rewrite Hpos. eexists. split; [done|].
      replace (add _ _ _) with (set_include (negb (trueValue (n, v))) (add (fieldName (n, v)) (trueValue (n, v)) p1))
        by (by rewrite !add_simple).
      apply (fields_at_add _ (Some (trueValue (n, v)))); auto.
    + unfold uassert. destruct (Bool.eqb c (trueValue (n, v))) eqn:E; [|done].
      apply Bool.eqb_prop in E as ->. naive_solver.
  - rewrite bool_decide_true by by left. cbn [mbind res_bind fst snd]. rewrite Hpos. eexists. split; [done|].
    apply (fields_at_add _ None); auto.
Qed.

Lemma switched_cons b e l :
  switched b (e :: l) =
    if (fieldName e =? "_id")%string && negb (trueValue e) then switched b l
    else if decide (trueValue e = b) then fieldName e :: switched b l else switched b l.
Proof.
  unfold switched. rewrite filter_cons.
  destruct (trueValue e), b, (String.eqb_spec (fieldName e) "_id"); cbn [andb negb]; repeat case_decide; naive_solver.
Qed.

(** The rest of a list, after a first field switched on or off. *)
Lemma init_rest b l : ∀ seen id p, Forall (λ e, simple e = true) l → fields_at seen (Some b) id p →
  if bool_decide (switched (negb b) l = []) then
    ∃ q, init_loop l (Some b) p = Ok q ∧
      fields_at (reverse (switched b l) ++ seen) (Some b) (id && negb (without_id l)) q
  else init_loop l (Some b) p = Throw mixed.
Proof.
  induction l as [|e l IH]; intros seen id p Hl Hp.
  { rewrite bool_decide_true by by destruct b. exists p. split; [done|]. rewrite andb_true_r. by destruct b. }
  apply Forall_cons in Hl as [He Hl]. pose proof (init_step e l seen _ id p He Hp) as Hstep.
  rewrite !switched_cons. cbn [without_id existsb]. fold (without_id l).
  destruct ((fieldName e =? "_id")%string && negb (trueValue e)); cbn [orb negb].
  { destruct Hstep as (q & -> & Hq). rewrite andb_false_r. exact (IH _ _ _ Hl Hq). }
  destruct (decide (trueValue e = b)) as [<-|Hb].
  - rewrite bool_decide_true in Hstep by by right. destruct Hstep as (q & -> & Hq).
    rewrite decide_False by (by destruct (trueValue e)). rewrite reverse_cons, <-(assoc_L (++)). exact (IH _ _ _ Hl Hq).
  - rewrite bool_decide_false in Hstep by naive_solver.
    rewrite decide_True by (by destruct (trueValue e), b). by rewrite bool_decide_false.
Qed.

(** The whole list. *)
Lemma init_first l : ∀ id p, Forall (λ e, simple e = true) l → fields_at [] None id p →
  match switched true l, switched false l with
  | _ :: _, _ :: _ => init_loop l None p = Throw mixed
  | on, off => ∃ q, init_loop l None p = Ok q ∧
      fields_at (reverse on ++ reverse off)
        (if bool_decide (on = []) then if bool_decide (off = []) then None else Some false else Some true)
        (id && negb (without_id l)) q
  end.
Proof.
  induction l as [|e l IH]; intros id p Hl Hp.
  { exists p. by rewrite andb_true_r. }
  apply Forall_cons in Hl as [He Hl]. pose proof (init_step e l [] _ id p He Hp) as Hstep.
  rewrite !switched_cons. cbn [without_id existsb]. fold (without_id l).
  destruct ((fieldName e =? "_id")%string && negb (trueValue e)); cbn [orb negb].
  { destruct Hstep as (q & -> & Hq). rewrite andb_false_r. exact (IH _ _ Hl Hq). }
  rewrite bool_decide_true in Hstep by by left. destruct Hstep as (q & -> & Hq).
  pose proof (init_rest _ l _ _ _ Hl Hq) as Hrest.
  destruct (trueValue e); cbn [negb] in *.
  - rewrite (decide_True (P := true = true)), (decide_False (P := true = false)) by done. destruct (switched false l); [|done]. rewrite app_nil_r, reverse_cons. exact Hrest.
  - rewrite (decide_False (P := false = true)), (decide_True (P := false = false)) by done.
    destruct (switched true l); [|done]. rewrite reverse_cons. exact Hrest.
Qed.

(** What a projection of switched fields does with an element. *)
Lemma append_at seen tf id p e : fields_at seen tf id p → eoo e = false →
  append_elem p e =
    if match tf with None => true | Some b => if decide (fieldName e ∈ seen) then b else negb b end then [e] else [].
Proof.
  intros [_ _ Hf Hi _ Hnone] He. unfold append_elem.
  assert (append_value p (fieldName e) e.2 = match lookup_name (fields p) (fieldName e) with
    | None => if include p then [e] else [] | Some q => if include q then [e] else [] end) as ->.
  { unfold fieldName. rewrite He. destruct e as [n v]. specialize (Hf n). cbn [fst snd].
    destruct v; cbn [append_value]; rewrite Hf; by case_decide. }
  rewrite Hf, Hi. destruct tf as [b|]; [by case_decide|]. by rewrite Hnone.
Qed.

Lemma transform_at seen tf id p in_ l : ∀ b, fields_at seen tf id p → Forall (λ e, eoo e = false) l →
  transform_loop p in_ l b = Ok (b ++ filter (λ e,
    (if (fieldName e =? "_id")%string then id
     else match tf with None => true | Some b => if decide (fieldName e ∈ seen) then b else negb b end) = true) l).
Proof.
  intros b Hp Hl. revert b. induction Hl as [|e l He Hl IH]; intros b; cbn [transform_loop].
  { by rewrite app_nil_r. }
  rewrite (fa_matchers _ _ _ _ Hp), (fa_includeID _ _ _ _ Hp), filter_cons. cbn [lookup_name].
  rewrite (append_at _ _ _ _ e Hp He).
  destruct (fieldName e =? "_id")%string; cbn [mbind res_bind]; rewrite IH, <-(assoc_L (++)); do 2 f_equal.
  - by destruct id.
  - by match goal with |- context [if ?c then [e] else []] => destruct c end.
Qed.

Lemma projection_switches spec :
  Forall (λ e, simple e = true) spec →
  if bool_decide (switched true spec ≠ [] ∧ switched false spec ≠ [])
  then Projection_init spec = Throw mixed
  else ∃ p, Projection_init spec = Ok p ∧
         ∀ message, Forall (λ e, eoo e = false) message →
           transform p message = Ok (filter (λ e, stays spec (fieldName e) = true) message).
Proof.
  intros Hs. unfold Projection_init.
  assert (fields_at [] None true (set_source spec Projection_new)) as Hp by by split.
  pose proof (init_first spec _ _ Hs Hp) as Hi. unfold transform, stays.
  destruct (switched true spec) as [|n on] eqn:Hon, (switched false spec) as [|m off] eqn:Hoff.
  4: { by rewrite bool_decide_true. }
  all: rewrite bool_decide_false by naive_solver.
  all: destruct Hi as (q & -> & Hq); exists q; split; [done|]; intros message Hl.
  all: rewrite (transform_at _ _ _ _ _ _ [] Hq Hl); cbn [app]; f_equal; apply list_filter_iff; intros e.
  all: destruct (fieldName e =? "_id")%string; [done|].
  all: case_decide as Hin; rewrite bool_decide_eq_true, elem_of_app, !elem_of_reverse in *; set_solver.
Qed.

(** C10: a projection that only lists top-level fields: listing some to be included
    and others, [_id] apart, to be excluded is refused with error 10053. Otherwise
    it is accepted, and every message it is applied to loses exactly the fields it
    should, the others unchanged and in order: [_id] stays unless it is switched
    off; of the others those listed stay when fields are included, and those not
    listed when none is. *)
Theorem projection_fields spec :
  Forall (λ e, simple e = true) spec →
  if bool_decide (switched true spec ≠ [] ∧ switched false spec ≠ [])
  then Projection_init spec = Throw mixed
  else ∃ p, Projection_init spec = Ok p ∧
         ∀ message, Forall (λ e, eoo e = false) message →
           transform p message = Ok (filter (λ e, stays spec (fieldName e) = true) message).
Proof. apply projection_switches. Qed.
End simple.

(** ** Samples *)

#[local] Instance sample_env : ParserEnv := default_env literal_env.

(** [{_id: 7, a: {b: 1, c: 2}, tags: ["x", "y", "z"], n: 5}] *)
Definition sample_message : BSONObj :=
  [("_id", VInt 7); ("a", VObject [("b", VInt 1); ("c", VInt 2)]);
   ("tags", VArray [("0", VString "x"); ("1", VString "y"); ("2", VString "z")]); ("n", VInt 5)].

(** [{"a.c": 1, tags: {$slice: -2}}] *)
Definition sample_projection : Projection :=
  match Projection_init [("a.c", VInt 1); ("tags", VObject [("$slice", VInt (-2))])] with
  | Ok p => p
  | Throw _ => Projection_new
  end.

Definition sample_pruned : BSONObj :=
  [("_id", VInt 7); ("a", VObject [("c", VInt 2)]); ("tags", VArray [("0", VString "y"); ("1", VString "z")])].

Lemma projection_prunes_witness :
  transform sample_projection sample_message = Ok sample_pruned ∧
  sub_by (λ x y : BSONElement, fieldName x = fieldName y ∧ prunes x.2 y.2) sample_pruned sample_message.
Proof.
  assert (transform sample_projection sample_message = Ok sample_pruned) as Ht by (vm_compute; reflexivity).
  split; [exact Ht|]. apply (projection_prunes sample_projection sample_message sample_pruned); [| |exact Ht].
  - apply (bool_decide_unpack _). vm_compute. exact I.
  - intros e m _ Hm. vm_compute in Hm. discriminate.
Defined.

Lemma projection_fields_witness :
  ∃ p, Projection_init [("n", VInt 1); ("tags", VBool true); ("_id", VInt 0)] = Ok p ∧
    transform p sample_message =
      Ok [("tags", VArray [("0", VString "x"); ("1", VString "y"); ("2", VString "z")]); ("n", VInt 5)].
Proof.
  destruct (projection_fields [("n", VInt 1); ("tags", VBool true); ("_id", VInt 0)]) as (p & Hp & Ht).
  - repeat constructor.
  - exists p. split; [exact Hp|]. rewrite Ht by (repeat constructor). vm_compute. reflexivity.
Defined.
