(* ===== verification/HostPort.v ===== *)
(** * Endpoints: util/net/hostandport.h

    [HostAndPort] names the members of a replica set and the config servers the
    publish/subscribe sockets connect to.  Parsing follows [init] (last colon,
    [atoi]), printing follows [append]. *)

From S2P Require Import Prelude StdMap Bytes Oid Doubles Bson.

Record HostAndPort := mkHostAndPort { host_ : string; port_ : Z }.

#[global] Instance HostAndPort_eq_dec : EqDecision HostAndPort.
Proof. solve_decision. Defined.

Definition DefaultDBPort : Z := 27017.

Definition HostAndPort_empty : HostAndPort := mkHostAndPort "" (-1).

Definition hasPort (h : HostAndPort) : bool := 0 <=? port_ h.
Definition port (h : HostAndPort) : Z := if hasPort h then port_ h else DefaultDBPort.
Definition host (h : HostAndPort) : string := host_ h.
Definition setPort (h : HostAndPort) (p : Z) : HostAndPort := mkHostAndPort (host_ h) p.
Definition HostAndPort_isEmpty (h : HostAndPort) : bool := (host_ h =? "")%string && (port_ h <? 0).

(** [HostAndPort(h, p)]. *)
Definition HostAndPort_make (h : string) (p : Z) : res HostAndPort :=
  _ ← verify "!startsWith(h, '#')" (negb (StringData_startsWith h "#"));
  Ok (mkHostAndPort h p).

(** What [operator<] and [operator==] look at. *)
Definition hp_key (h : HostAndPort) : string * Z := (host h, port h).

#[global] Instance key_oplt : OpLt (string * Z) := λ l r,
  if negb (StringData_compare l.1 r.1 =? 0) then StringData_compare l.1 r.1 <? 0
  else l.2 <? r.2.

Definition HostAndPort_ltb (l r : HostAndPort) : bool := hp_key l <?k hp_key r.
Definition HostAndPort_eqb (l r : HostAndPort) : bool :=
  StringData_eqb (host l) (host r) && (port l =? port r).

Definition hp_append (h : HostAndPort) : string :=
  host h +:+ (if negb (port h =? -1) then ":" +:+ numStr (port h) else "").

Definition hp_toString (h : HostAndPort) (includePort : bool) : string :=
  if includePort then hp_append h else host h.

Definition isLocalHost (h : HostAndPort) : bool :=
  (host h =? "localhost")%string || StringData_startsWith (c_string (host h)) "127."
  || (host h =? "::1")%string || (host h =? "anonymous unix socket")%string
  || StringData_startsWith (c_string (host h)) "/".

(** [strrchr] as an offset. *)
Fixpoint strrchr (s : string) (c : ascii) : option nat :=
  match s with
  | EmptyString => None
  | String x s' =>
      match strrchr s' c with
      | Some i => Some (S i)
      | None => if Ascii.eqb x c then Some 0%nat else None
      end
  end.

Definition isspace (c : ascii) : bool :=
  (byte_val c =? 32) || ((9 <=? byte_val c) && (byte_val c <=? 13)).

Fixpoint skip_spaces (s : string) : string :=
  match s with
  | String c s' => if isspace c then skip_spaces s' else s
  | EmptyString => EmptyString
  end.

(** The value of the leading digits. *)
Fixpoint leading_digits (acc : Z) (s : string) : Z :=
  match s with
  | String c s => if isdigit c then leading_digits (10 * acc + (byte_val c - 48)) s else acc
  | EmptyString => acc
  end.

(** [atoi]; a value that does not fit [int] is undefined behaviour. *)
Definition atoi (s : string) : res Z :=
  let s := skip_spaces s in
  let v := match s with
           | String c s' =>
               if Ascii.eqb c "-" then - leading_digits 0 s'
               else if Ascii.eqb c "+" then leading_digits 0 s'
               else leading_digits 0 s
           | EmptyString => 0
           end in
  if (- 2 ^ 31 <=? v) && (v <? 2 ^ 31) then Ok v else Throw (UndefinedBehaviour "atoi").

(** [init] of a C string. *)
Definition HostAndPort_init (p : string) : res HostAndPort :=
  _ ← massert 13110 "HostAndPort: host is empty" (negb (p =? "")%string);
  match strrchr p ":" with
  | Some colon =>
      port ← atoi (str_drop (colon + 1) p);
      _ ← massert 13095 "HostAndPort: bad port #" (0 <? port);
      Ok (mkHostAndPort (str_take colon p) port)
  | None => Ok (mkHostAndPort p (-1))
  end.

Definition HostAndPort_of_string (s : string) : res HostAndPort := HostAndPort_init (c_string s).

(** [HostAndPort::me()]: the first bound address that is not local, else the
    host name; [hostname] is the result of [getHostName()]. *)
Fixpoint me_loop (fuel : nat) (ips : string) (serverPort : Z) : res (option HostAndPort) :=
  match fuel with
  | O => Throw OutOfFuel
  | S fuel =>
      if (ips =? "")%string then Ok None
      else
        let '(ip, ips) :=
          match str_index "," ips with
          | Some comma => (str_take comma ips, str_drop (comma + 1) ips)
          | None => (ips, "")
          end in
        h ← HostAndPort_make ip serverPort;
        if isLocalHost h then me_loop fuel ips serverPort else Ok (Some h)
  end.

Definition HostAndPort_me (bind_ip hostname : string) (serverPort : Z) : res HostAndPort :=
  r ← me_loop (S (String.length (c_string bind_ip))) (c_string bind_ip) serverPort;
  match r with
  | Some h => Ok h
  | None =>
      _ ← verify "!h.empty()" (negb (hostname =? "")%string);
      _ ← verify "h != localhost" (negb (hostname =? "localhost")%string);
      HostAndPort_make hostname serverPort
  end.

(** ** Order *)

#[global] Instance key_oplt_laws : OpLtLaws (string * Z).
Proof.
  assert (∀ a b : string * Z, (a <?k b) = true ↔
    (a.1 <?k b.1) = true ∨ (a.1 = b.1 ∧ a.2 < b.2)) as Hlt.
  { intros [a i] [b j]. unfold oplt at 1, key_oplt. simpl.
    destruct (StringData_compare a b =? 0) eqn:Hc; simpl.
    - apply Z.eqb_eq, StringData_compare_eq in Hc as ->. rewrite oplt_irrefl, Z.ltb_lt.
      naive_solver.
    - unfold oplt, string_oplt. split; [by left|]. intros [?|[-> ?]]; [done|].
      apply Z.eqb_neq in Hc. destruct Hc. by apply StringData_compare_eq. }
  split.
  - intros [a i]. destruct ((a, i) <?k (a, i)) eqn:H; [|done].
    apply Hlt in H as [H|[_ H]]; simpl in H; [by rewrite oplt_irrefl in H|lia].
  - intros [a i] [b j] [c k]. rewrite !Hlt. simpl.
    intros [H1|[E1 H1]] [H2|[E2 H2]]; subst;
      [left; by eapply oplt_trans|by left|by left|right; split; [done|lia]].
  - intros [a i] [b j] H1 H2.
    assert (a = b) as ->.
    { apply oplt_total; apply not_true_iff_false; intros H;
        [apply (not_true_iff_false _) in H1; apply H1, Hlt; by left
        |apply (not_true_iff_false _) in H2; apply H2, Hlt; by left]. }
    f_equal. apply not_true_iff_false in H1, H2. rewrite Hlt in H1, H2. simpl in *.
    destruct (Z.lt_trichotomy i j) as [?|[?|?]]; naive_solver.
Qed.

(** [operator==] is the equality that [operator<] induces. *)
Lemma HostAndPort_eqb_key l r : HostAndPort_eqb l r = true ↔ hp_key l = hp_key r.
Proof.
  unfold HostAndPort_eqb, hp_key. rewrite andb_true_iff, StringData_eqb_eq, Z.eqb_eq.
  split; [by intros [-> ->]|by intros [= -> ->]].
Qed.

(** ** Decimal numbers *)

Lemma digit_byte d : 0 ≤ d < 10 → byte_val (byte_of (48 + d)) = 48 + d.
Proof. intros Hd. rewrite byte_val_of. apply Z.mod_small. lia. Qed.

Lemma isdigit_byte d : 0 ≤ d < 10 → isdigit (byte_of (48 + d)) = true.
Proof. intros Hd. unfold isdigit. rewrite digit_byte by done. lia. Qed.

Lemma leading_digits_spec f n acc t : 0 ≤ n < 10 ^ Z.of_nat f → (0 < f)%nat →
  leading_digits acc (digits_fuel f n +:+ t)
  = leading_digits (acc * 10 ^ Z.of_nat (String.length (digits_fuel f n)) + n) t.
Proof.
  revert n acc t. induction f as [|f IH]; intros n acc t Hn Hf; [lia|].
  cbn [digits_fuel]. pose proof (Z.mod_pos_bound n 10 ltac:(lia)).
  destruct (n <? 10) eqn:Hlt.
  - apply Z.ltb_lt in Hlt. rewrite Z.mod_small by lia.
    cbn [String.append leading_digits String.length]. rewrite isdigit_byte, digit_byte by lia.
    f_equal. lia.
  - apply Z.ltb_ge in Hlt. rewrite Nat2Z.inj_succ, Z.pow_succ_r in Hn by lia.
    destruct f as [|f]; [simpl in Hn; lia|].
    rewrite str_app_assoc, IH by (try split; try (apply Z.div_pos; lia);
      try (apply Z.div_lt_upper_bound; lia); lia).
    cbn [String.append leading_digits]. rewrite isdigit_byte, digit_byte by done.
    rewrite str_app_length. cbn [String.length].
    rewrite Nat2Z.inj_add, Z.pow_add_r by lia. f_equal. change (10 ^ Z.of_nat 1) with 10.
    pose proof (Z.div_mod n 10 ltac:(lia)). nia.
Qed.

Lemma digits_fuel_digits f n c : c ∈ String.list_ascii_of_string (digits_fuel f n) →
  isdigit c = true.
Proof.
  revert n. induction f as [|f IH]; intros n; cbn [digits_fuel]; [set_solver|].
  assert (∀ a b, String.list_ascii_of_string (a +:+ b)
    = String.list_ascii_of_string a ++ String.list_ascii_of_string b) as Happ.
  { intros a b. induction a as [|x a IHa]; simpl; [done|]. by rewrite IHa. }
  rewrite Happ, elem_of_app. simpl.
  pose proof (Z.mod_pos_bound n 10 ltac:(lia)).
  intros [Hc|[->|Hc]%elem_of_cons]; [|by apply isdigit_byte|set_solver].
  destruct (n <? 10); [simpl in Hc; set_solver|eauto].
Qed.

Lemma digits_fuel_head f n : (0 < f)%nat → ∃ c s, digits_fuel f n = String c s ∧ isdigit c = true.
Proof.
  intros Hf. destruct (digits_fuel f n) as [|c s] eqn:Hd.
  - destruct f; [lia|]. cbn [digits_fuel] in Hd.
    apply (f_equal String.length) in Hd. rewrite str_app_length in Hd. simpl in Hd. lia.
  - exists c, s. split; [done|]. apply (digits_fuel_digits f n). rewrite Hd. simpl. set_solver.
Qed.

(** [atoi] undoes [numStr] on the non-negative [int]s. *)
Lemma atoi_numStr n : 0 ≤ n < 2 ^ 31 → atoi (numStr n) = Ok n.
Proof.
  intros Hn. unfold atoi, numStr. rewrite (proj2 (Z.ltb_ge n 0)) by lia.
  destruct (digits_fuel_head 20 n ltac:(lia)) as (c & s & Hd & Hc).
  pose proof (leading_digits_spec 20 n 0 "" ltac:(lia) ltac:(lia)) as Hv.
  rewrite str_app_nil_r, Hd in Hv. simpl (leading_digits _ "") in Hv.
  rewrite Hd. unfold isdigit in Hc. cbn [skip_spaces].
  assert (isspace c = false) as -> by (unfold isspace; lia).
  destruct (Ascii.eqb_spec c "-") as [->|_]; [done|].
  destruct (Ascii.eqb_spec c "+") as [->|_]; [done|].
  rewrite Hv, Z.mul_0_l, Z.add_0_l.
  rewrite (proj2 (andb_true_iff _ _)) by (rewrite Z.leb_le, Z.ltb_lt; lia). done.
Qed.

(** ** Printing and parsing *)

Lemma strrchr_app s c t : c ∉ String.list_ascii_of_string t →
  strrchr (s +:+ String c t) c = Some (String.length s).
Proof.
  intros Ht. assert (strrchr t c = None) as Hn.
  { induction t as [|x t IH]; simpl in *; [done|]. rewrite IH by set_solver.
    destruct (Ascii.eqb_spec x c); [set_solver|done]. }
  induction s as [|x s IH]; simpl.
  - by rewrite Hn, Ascii.eqb_refl.
  - by rewrite IH.
Qed.

(** Parsing a printed endpoint gives an equal one, even when the host itself
    contains colons. *)
Lemma HostAndPort_roundtrip h : 0 < port h < 2 ^ 31 →
  ∃ h', HostAndPort_init (hp_toString h true) = Ok h' ∧ HostAndPort_eqb h' h = true.
Proof.
  intros Hp. exists (mkHostAndPort (host h) (port h)). split.
  - unfold hp_toString, hp_append, HostAndPort_init.
    rewrite (proj2 (Z.eqb_neq (port h) (-1))) by lia. cbn [negb].
    change (":" +:+ numStr (port h)) with (String ":" (numStr (port h))).
    assert ((host h +:+ String ":" (numStr (port h)) =? "")%string = false) as ->
      by (by destruct (host h)).
    rewrite strrchr_app.
    + cbn [mbind res_bind massert negb]. rewrite Nat.add_1_r, str_drop_app_S.
      rewrite atoi_numStr by lia. cbn [mbind res_bind].
      rewrite (proj2 (Z.ltb_lt 0 _)) by lia. cbn [mbind res_bind massert].
      by rewrite str_take_app.
    + unfold numStr. rewrite (proj2 (Z.ltb_ge _ 0)) by lia.
      intros Hin%digits_fuel_digits. done.
  - apply HostAndPort_eqb_key. unfold hp_key. remember (port h) as p eqn:Heq.
    unfold port, hasPort. cbn [port_]. by rewrite (proj2 (Z.leb_le 0 p)) by lia.
Qed.

(** The loop of [me] always ends within its fuel. *)
Lemma me_loop_total fuel ips p : (String.length ips < fuel)%nat →
  me_loop fuel ips p ≠ Throw OutOfFuel.
Proof.
  revert ips. induction fuel as [|fuel IH]; intros ips Hf; [lia|]. cbn [me_loop].
  destruct (ips =? "")%string eqn:He; [done|].
  assert (ips ≠ "") as Hne by (intros ->; done).
  destruct (match str_index "," ips with Some _ => _ | None => _ end) as [ip ips'] eqn:Hs.
  assert (String.length ips' < String.length ips)%nat as Hl.
  { destruct ips as [|c r]; [done|]. case_match; simplify_eq.
    - rewrite str_drop_length. simpl. lia.
    - simpl. lia. }
  unfold HostAndPort_make, verify.
  destruct (negb (StringData_startsWith ip "#")); cbn [mbind res_bind]; [|done].
  destruct (isLocalHost _); [|done]. apply IH. lia.
Qed.
