(* ===== verification/ParseNumber.v ===== *)
(** * Parsing integers: base/parse_number.cpp

    [parseNumberFromStringWithBase] for an integer type with limits [lo] and
    [hi]; an unsigned type has [lo = 0].  BSON arrays are read through it: the
    positions of an array's elements are parsed from their field names. *)

From S2P Require Import Prelude StdMap Bytes Oid Doubles Bson HostPort.

Definition digitValue (c : ascii) : Z :=
  let v := byte_val c in
  if (48 <=? v) && (v <=? 57) then v - 48
  else if (97 <=? v) && (v <=? 122) then v - 97 + 10
  else if (65 <=? v) && (v <=? 90) then v - 65 + 10
  else 36.

Definition extractSign (s : string) : bool * string :=
  match s with
  | EmptyString => (false, s)
  | String c s' =>
      if Ascii.eqb c "-" then (true, s') else if Ascii.eqb c "+" then (false, s') else (false, s)
  end.

Definition extractBase (s : string) (inputBase : Z) : Z * string :=
  let hex := StringData_startsWith s "0x" || StringData_startsWith s "0X" in
  if inputBase =? 0 then
    if (2 <? String.length s)%nat && hex then (16, str_drop 2 s)
    else if (1 <? String.length s)%nat && StringData_startsWith s "0" then (8, s)
    else (10, s)
  else if (inputBase =? 16) && hex then (inputBase, str_drop 2 s) else (inputBase, s).

Section parse.
Context (lo hi : Z).

Fixpoint parse_neg (base n : Z) (s : string) : string + Z :=
  match s with
  | EmptyString => inr n
  | String c s =>
      let d := digitValue c in
      if base <=? d then inl "Bad digit"
      else if (n <? Z.quot lo base) || (- d <? lo - n * base) then inl "Underflow"
      else parse_neg base (n * base - d) s
  end.

Fixpoint parse_pos (base n : Z) (s : string) : string + Z :=
  match s with
  | EmptyString => inr n
  | String c s =>
      let d := digitValue c in
      if base <=? d then inl "Bad digit"
      else if (hi / base <? n) || (hi - n * base <? d) then inl "Overflow"
      else parse_pos base (n * base + d) s
  end.

Definition parseNumberFromStringWithBase (stringValue : string) (base : Z) : string + Z :=
  if (base =? 1) || (base <? 0) || (36 <? base) then inl "Invalid base"
  else
    let '(isNegative, s) := extractSign stringValue in
    let '(base, str) := extractBase s base in
    if (str =? "")%string then inl "No digits"
    else if isNegative then (if lo <? 0 then parse_neg base 0 str else inl "Negative value")
    else parse_pos base 0 str.

(** ** What is parsed *)

(** The number a string of digits denotes. *)
Fixpoint digits_value (base acc : Z) (s : string) : option Z :=
  match s with
  | EmptyString => Some acc
  | String c s => if base <=? digitValue c then None else digits_value base (acc * base + digitValue c) s
  end.

Lemma digitValue_nonneg c : 0 ≤ digitValue c.
Proof. unfold digitValue. repeat case_match; lia. Qed.

Lemma digits_value_ge base acc s v : 2 ≤ base → 0 ≤ acc →
  digits_value base acc s = Some v → acc ≤ v.
Proof.
  intros Hb. revert acc. induction s as [|c s IH]; intros acc Ha; cbn [digits_value]; [naive_solver lia|].
  case_match; [done|]. pose proof (digitValue_nonneg c). intros Hv%IH; nia.
Qed.

(** A non-negative number is accepted exactly when its digits are valid and its
    value fits the type; no intermediate value overflows. *)
Lemma parse_pos_spec base n s v : 2 ≤ base → 0 ≤ n ≤ hi →
  parse_pos base n s = inr v ↔ digits_value base n s = Some v ∧ v ≤ hi.
Proof.
  intros Hb. revert n. induction s as [|c s IH]; intros n Hn; cbn [parse_pos digits_value].
  { naive_solver lia. }
  destruct (base <=? digitValue c) eqn:Hd; [naive_solver|].
  pose proof (digitValue_nonneg c) as Hc. apply Z.leb_gt in Hd.
  destruct ((hi / base <? n) || (hi - n * base <? digitValue c)) eqn:Ho.
  - split; [done|]. intros [Hv Hle]. apply digits_value_ge in Hv; [|done|nia].
    apply orb_true_iff in Ho as [Ho|Ho]; [|lia]. apply Z.ltb_lt in Ho.
    assert (n ≤ hi / base) by (apply Z.div_le_lower_bound; nia). lia.
  - apply orb_false_iff in Ho as [_ Ho]. apply Z.ltb_ge in Ho. rewrite IH by nia. done.
Qed.

Lemma parse_neg_spec base n s v : 2 ≤ base → lo ≤ n ≤ 0 →
  parse_neg base n s = inr v ↔ ∃ u, digits_value base (- n) s = Some u ∧ v = - u ∧ lo ≤ v.
Proof.
  intros Hb. revert n. induction s as [|c s IH]; intros n Hn; cbn [parse_neg digits_value].
  { split; [intros [= <-]; exists (- n); repeat split; lia|].
    intros (u & [= <-] & -> & ?). f_equal. lia. }
  destruct (base <=? digitValue c) eqn:Hd; [naive_solver|].
  pose proof (digitValue_nonneg c) as Hc. apply Z.leb_gt in Hd.
  destruct ((n <? Z.quot lo base) || (- digitValue c <? lo - n * base)) eqn:Ho.
  - split; [done|]. intros (u & Hv & -> & Hle). apply digits_value_ge in Hv; [|done|nia].
    apply orb_true_iff in Ho as [Ho|Ho]; [|lia]. apply Z.ltb_lt in Ho.
    pose proof (Z.quot_rem' lo base). pose proof (Z.rem_bound_abs lo base ltac:(lia)). nia.
  - apply orb_false_iff in Ho as [_ Ho]. apply Z.ltb_ge in Ho. rewrite IH by nia.
    by replace (- (n * base - digitValue c)) with (- n * base + digitValue c) by lia.
Qed.
End parse.

(** [parseNumberFromString(f, &u)] of an [unsigned]. *)
Definition parse_unsigned (s : string) : string + Z :=
  parseNumberFromStringWithBase 0 (2 ^ 32 - 1) s 0.

(** [BSONElement::Array()]: element [u] of the vector is the last element named
    by the number [u]; gaps are missing elements. *)
Definition vector_set (v : list BSONElement) (u : nat) (e : BSONElement) : list BSONElement :=
  <[u := e]> (v ++ replicate (S u - length v) eooElement).

Fixpoint Array_loop (o : BSONObj) (v : list BSONElement) : res (list BSONElement) :=
  match o with
  | [] => Ok v
  | e :: o =>
      match parse_unsigned (fieldName e) with
      | inr u =>
          _ ← verify "u < 1000000" (u <? 1000000);
          Array_loop o (vector_set v (Z.to_nat u) e)
      | inl _ => Array_loop o v
      end
  end.

Definition as_Array (e : BSONElement) : res (list BSONElement) :=
  _ ← chk Array e; o ← embeddedObject e; Array_loop o [].

(** ** Positions round trip *)

Lemma digitValue_digit d : 0 ≤ d < 10 → digitValue (byte_of (48 + d)) = d.
Proof. intros Hd. unfold digitValue. rewrite digit_byte by done. repeat case_match; lia. Qed.

Lemma digits_value_app base acc s t :
  digits_value base acc (s +:+ t) = (v ← digits_value base acc s; digits_value base v t).
Proof.
  revert acc. induction s as [|c s IH]; intros acc; cbn [String.append digits_value]; [done|].
  by case_match.
Qed.

Lemma digits_value_digits f n : 0 ≤ n < 10 ^ Z.of_nat f → (0 < f)%nat →
  digits_value 10 0 (digits_fuel f n) = Some n.
Proof.
  revert n. induction f as [|f IH]; intros n Hn Hf; [lia|]. cbn [digits_fuel].
  pose proof (Z.mod_pos_bound n 10 ltac:(lia)).
  assert (∀ acc, digits_value 10 acc (String (byte_of (48 + n mod 10)) "") = Some (acc * 10 + n mod 10)) as Hlast.
  { intros acc. cbn [digits_value]. rewrite digitValue_digit by done. by rewrite (proj2 (Z.leb_gt _ _)) by lia. }
  destruct (n <? 10) eqn:Hlt.
  - cbn [String.append]. rewrite Hlast, Z.mod_small by lia. done.
  - rewrite Nat2Z.inj_succ, Z.pow_succ_r in Hn by lia. destruct f as [|f]; [simpl in Hn; lia|].
    rewrite digits_value_app, IH; [|split; [apply Z.div_pos; lia|apply Z.div_lt_upper_bound; lia]|lia].
    cbn [mbind option_bind]. rewrite Hlast. f_equal. pose proof (Z.div_mod n 10 ltac:(lia)). lia.
Qed.

(** No leading zero. *)
Lemma digits_fuel_nonzero f n : 0 < n < 10 ^ Z.of_nat f →
  StringData_startsWith (digits_fuel f n) "0" = false.
Proof.
  revert n. induction f as [|f IH]; intros n Hn; [simpl in Hn; lia|]. cbn [digits_fuel].
  apply not_true_iff_false. rewrite StringData_startsWith_spec. intros [t Ht].
  destruct (n <? 10) eqn:Hlt.
  - simpl in Ht. apply Z.ltb_lt in Hlt. rewrite Z.mod_small in Ht by lia.
    injection Ht as Ht _. apply (f_equal byte_val) in Ht. rewrite digit_byte in Ht by lia.
    change (byte_val "0") with 48 in Ht. lia.
  - apply Z.ltb_ge in Hlt. rewrite Nat2Z.inj_succ, Z.pow_succ_r in Hn by lia.
    destruct f as [|f]; [simpl in Hn; lia|].
    destruct (digits_fuel_head (S f) (n / 10) ltac:(lia)) as (c & s & Hd & _).
    assert (StringData_startsWith (digits_fuel (S f) (n / 10)) "0" = true) as Hs.
    { apply StringData_startsWith_spec. rewrite Hd in *. simpl in Ht. injection Ht as -> _. by exists s. }
    rewrite IH in Hs; [done|]. split; [apply Z.div_str_pos; lia|apply Z.div_lt_upper_bound; lia].
Qed.

Lemma startsWith_trans s p q : is_prefix q p → StringData_startsWith s q = false →
  StringData_startsWith s p = false.
Proof.
  intros [t ->] Hq. apply not_true_iff_false. rewrite StringData_startsWith_spec. intros [u ->].
  apply not_true_iff_false in Hq. apply Hq, StringData_startsWith_spec. exists (t +:+ u).
  by rewrite str_app_assoc.
Qed.

Lemma parse_unsigned_numStr n : 0 ≤ n < 2 ^ 32 → parse_unsigned (numStr n) = inr n.
Proof.
  intros Hn. unfold parse_unsigned, parseNumberFromStringWithBase, numStr. simpl orb. cbv iota.
  rewrite (proj2 (Z.ltb_ge n 0)) by lia.
  destruct (digits_fuel_head 20 n ltac:(lia)) as (c & s & Hd & Hc). unfold isdigit in Hc.
  assert (extractSign (digits_fuel 20 n) = (false, digits_fuel 20 n)) as ->.
  { rewrite Hd. unfold extractSign.
    destruct (Ascii.eqb_spec c "-") as [->|_]; [done|]. by destruct (Ascii.eqb_spec c "+") as [->|_]. }
  assert (extractBase (digits_fuel 20 n) 0 = (10, digits_fuel 20 n)) as ->.
  { destruct (decide (n = 0)) as [->|Hnz]; [done|].
    pose proof (digits_fuel_nonzero 20 n ltac:(simpl; lia)) as Hz. unfold extractBase. simpl (0 =? 0).
    cbv iota. rewrite (startsWith_trans _ "0x" "0"), (startsWith_trans _ "0X" "0"), Hz;
      try done; try (by eexists). by rewrite !andb_false_r. }
  assert ((digits_fuel 20 n =? "")%string = false) as -> by by rewrite Hd.
  apply parse_pos_spec; [lia|lia|]. split; [|lia]. apply digits_value_digits; [simpl; lia|lia].
Qed.

Lemma vector_set_end v e : vector_set v (length v) e = v ++ [e].
Proof.
  unfold vector_set. replace (S (length v) - length v)%nat with 1%nat by lia.
  rewrite insert_app_r_alt, Nat.sub_diag by lia. done.
Qed.

(** The [k]-th element of a built array is named [k]. *)
Definition array_elems (k : Z) (vs : list value) : BSONObj :=
  imap (λ j v, (numStr (k + Z.of_nat j), v)) vs.

Lemma arr_of_elems vs : arr_of vs = array_elems 0 vs.
Proof.
  unfold arr_of, array_elems.
  assert (∀ b, foldl arr_append b vs
    = b ++ imap (λ j v, (numStr (Z.of_nat (length b) + Z.of_nat j), v)) vs) as Hgen;
    [|by rewrite Hgen].
  induction vs as [|v vs IH]; intros b; simpl; [by rewrite app_nil_r|].
  rewrite IH. unfold arr_append. rewrite length_app, <-app_assoc. simpl. do 2 f_equal.
  - by rewrite Z.add_0_r.
  - apply imap_ext. intros. simpl. do 2 f_equal. lia.
Qed.

Lemma Array_loop_elems vs v : Forall (λ x, vtype x ≠ EOO) vs →
  Z.of_nat (length v + length vs) ≤ 1000000 →
  Array_loop (array_elems (Z.of_nat (length v)) vs) v
  = Ok (v ++ array_elems (Z.of_nat (length v)) vs).
Proof.
  revert v. induction vs as [|x vs IH]; intros v Hx Hl; [simpl; by rewrite app_nil_r|].
  apply Forall_cons in Hx as [Hx Hxs]. simpl in Hl. unfold array_elems. rewrite imap_cons.
  cbn [Array_loop]. change (Z.of_nat 0) with 0.
  assert (fieldName (numStr (Z.of_nat (length v) + 0), x) = numStr (Z.of_nat (length v))) as ->.
  { unfold fieldName, eoo, type. simpl. rewrite bool_decide_false by done. by rewrite Z.add_0_r. }
  rewrite parse_unsigned_numStr by lia. unfold verify.
  rewrite (proj2 (Z.ltb_lt _ _)) by lia. cbn [mbind res_bind].
  rewrite Nat2Z.id, vector_set_end, Z.add_0_r.
  assert (imap ((λ j y, (numStr (Z.of_nat (length v) + Z.of_nat j), y)) ∘ S) vs
    = array_elems (Z.of_nat (length (v ++ [(numStr (Z.of_nat (length v)), x)]))) vs) as Heq.
  { unfold array_elems. apply imap_ext. intros. rewrite length_app. simpl. do 2 f_equal. lia. }
  rewrite Heq, IH by (done || (rewrite length_app; simpl; lia)). by rewrite <-app_assoc.
Qed.

(** [Array()] of an array that a builder made gives its elements back in order. *)
Lemma as_Array_arr_of name vs : Forall (λ x, vtype x ≠ EOO) vs →
  Z.of_nat (length vs) ≤ 1000000 →
  as_Array (name, VArray (arr_of vs)) = Ok (arr_of vs).
Proof.
  intros Hx Hl. unfold as_Array. simpl. rewrite arr_of_elems. by apply (Array_loop_elems vs []).
Qed.
