(* ===== verification/Zmq.v ===== *)
(** * ZeroMQ sockets as the code uses them

    The C++ wrapper third_party/zeromq-4.0.4/include/zmq.hpp over an abstract
    socket.  A call of the C library can fail at any time: the failures are an
    oracle on the number of the call.  What a socket does when a call succeeds
    is the documented behaviour of its type: a SUB socket receives the messages
    whose first frame starts with one of its subscriptions, frames of a message
    are sent and received together, [ZMQ_DONTWAIT] never
    blocks, and without it a PUSH socket waits for a peer with room. *)

From S2P Require Import Prelude StdMap Bytes Monad.

Inductive SocketType := ZMQ_PUB | ZMQ_SUB | ZMQ_PUSH | ZMQ_PULL.

#[global] Instance SocketType_eq_dec : EqDecision SocketType.
Proof. solve_decision. Defined.

(** A message is the list of its frames. *)
Abbreviation frame := string (only parsing).
Abbreviation zmsg := (list string) (only parsing).

Record socket_t := mkSocket {
  stype : SocketType;
  isopen : bool;                (** [ptr != NULL] *)
  filters : list string;        (** [ZMQ_SUBSCRIBE] *)
  sndhwm : Z;
  rcvhwm : Z;
  connected : list string;
  bound : list string;
  inbox : list zmsg;            (** messages received by the library *)
  partial : zmsg;               (** rest of the message being read *)
  sending : zmsg;               (** frames sent with [ZMQ_SNDMORE] *)
  outbox : list zmsg            (** messages handed to the library *)
}.

#[global] Instance socket_t_eq_dec : EqDecision socket_t.
Proof. solve_decision. Defined.

Definition kDefaultHwm : Z := 1000.

Definition new_socket (t : SocketType) : socket_t :=
  mkSocket t true [] kDefaultHwm kDefaultHwm [] [] [] [] [] [].

Definition ENOTSOCK : exn := ZmqError "Socket operation on non-socket".
Definition EINVAL : exn := ZmqError "Invalid argument".

(** ** Operations that succeed *)

(** [close()] never throws and does nothing on a closed socket. *)
Definition sock_close (s : socket_t) : socket_t :=
  if isopen s then
    mkSocket (stype s) false (filters s) (sndhwm s) (rcvhwm s) (connected s) (bound s)
      [] [] [] (outbox s)
  else s.

Definition sock_subscribe (p : string) (s : socket_t) : res socket_t :=
  if negb (isopen s) then Throw ENOTSOCK
  else if decide (stype s = ZMQ_SUB) then
    Ok (mkSocket (stype s) (isopen s) (filters s ++ [p]) (sndhwm s) (rcvhwm s)
          (connected s) (bound s) (inbox s) (partial s) (sending s) (outbox s))
  else Throw EINVAL.

Definition sock_rcvhwm (n : Z) (s : socket_t) : res socket_t :=
  if negb (isopen s) then Throw ENOTSOCK
  else Ok (mkSocket (stype s) (isopen s) (filters s) (sndhwm s) n
             (connected s) (bound s) (inbox s) (partial s) (sending s) (outbox s)).

Definition sock_connect (addr : string) (s : socket_t) : res socket_t :=
  if negb (isopen s) then Throw ENOTSOCK
  else Ok (mkSocket (stype s) (isopen s) (filters s) (sndhwm s) (rcvhwm s)
             (connected s ++ [addr]) (bound s) (inbox s) (partial s) (sending s) (outbox s)).

Definition sock_bind (addr : string) (s : socket_t) : res socket_t :=
  if negb (isopen s) then Throw ENOTSOCK
  else Ok (mkSocket (stype s) (isopen s) (filters s) (sndhwm s) (rcvhwm s)
             (connected s) (bound s ++ [addr]) (inbox s) (partial s) (sending s) (outbox s)).

(** [disconnect] of an endpoint that was never connected fails. *)
Definition sock_disconnect (addr : string) (s : socket_t) : res socket_t :=
  if negb (isopen s) then Throw ENOTSOCK
  else if decide (addr ∈ connected s) then
    Ok (mkSocket (stype s) (isopen s) (filters s) (sndhwm s) (rcvhwm s)
          (filter (λ a, a ≠ addr) (connected s)) (bound s)
          (inbox s) (partial s) (sending s) (outbox s))
  else Throw (ZmqError "No such file or directory").

(** The first frame of a message on a PUSH socket waits until a peer has room for the
    message; [full] tells that no peer has.  A socket without endpoints has no peers.
    Other sockets that send drop what they have no room for. *)
Definition sock_waits (full : bool) (s : socket_t) : bool :=
  bool_decide (stype s = ZMQ_PUSH) && bool_decide (sending s = [])
  && (full || bool_decide (connected s = [] ∧ bound s = [])).

(** [send] without [ZMQ_DONTWAIT]: a frame without [ZMQ_SNDMORE] completes the message. *)
Definition sock_send (full : bool) (f : frame) (sndmore : bool) (s : socket_t) : res socket_t :=
  if negb (isopen s) then Throw ENOTSOCK
  else if sock_waits full s then Throw (Blocks "send")
  else
    let m := sending s ++ [f] in
    Ok (mkSocket (stype s) (isopen s) (filters s) (sndhwm s) (rcvhwm s) (connected s) (bound s)
          (inbox s) (partial s) (if sndmore then m else [])
          (if sndmore then outbox s else outbox s ++ [m])).

(** The next frame, if any is waiting. *)
Definition sock_take (s : socket_t) : option frame * socket_t :=
  let upd i p := mkSocket (stype s) (isopen s) (filters s) (sndhwm s) (rcvhwm s)
                   (connected s) (bound s) i p (sending s) (outbox s) in
  match partial s, inbox s with
  | f :: p, i => (Some f, upd i p)
  | [], (f :: p) :: i => (Some f, upd i p)
  | [], [] :: i => (Some "", upd i [])
  | [], [] => (None, s)
  end.

(** Readiness for [ZMQ_POLLIN]. *)
Definition sock_ready (s : socket_t) : bool :=
  match partial s, inbox s with [], [] => false | _, _ => true end.

(** ** Delivery *)

(** A message reaches a SUB socket when its first frame has a subscribed prefix,
    a PULL socket always; other sockets never receive. *)
Definition accepts (s : socket_t) (m : zmsg) : bool :=
  isopen s &&
  match stype s with
  | ZMQ_SUB => existsb (λ p, match m with f :: _ => StringData_startsWith f p | [] => false end)
                 (filters s)
  | ZMQ_PULL => true
  | _ => false
  end.

Definition deliver (m : zmsg) (s : socket_t) : socket_t :=
  if accepts s m then
    mkSocket (stype s) (isopen s) (filters s) (sndhwm s) (rcvhwm s) (connected s) (bound s)
      (inbox s ++ [m]) (partial s) (sending s) (outbox s)
  else s.

(** ** Failing calls *)

Section calls.
Context {S : Type} (zmqCalls : S → nat) (setZmqCalls : nat → S → S).
Context (zmq_fails : nat → option string).

(** One call into the library: it fails when the oracle says so. *)
Definition zmq_call : M S unit := λ s,
  let n := zmqCalls s in
  let s' := setZmqCalls (n + 1)%nat s in
  match zmq_fails n with
  | Some w => (Throw (ZmqError w), s')
  | None => (Ok (), s')
  end.
End calls.

Lemma sock_close_closed s : isopen (sock_close s) = false.
Proof. unfold sock_close. by destruct (isopen s) eqn:?. Qed.

(** Three frames sent in a row leave as one message. *)
Lemma sock_send3 full a b c s s1 s2 s3 : sending s = [] →
  sock_send full a true s = Ok s1 → sock_send full b true s1 = Ok s2 → sock_send full c false s2 = Ok s3 →
  outbox s3 = outbox s ++ [[a; b; c]] ∧ sending s3 = [].
Proof.
  unfold sock_send. intros Hs. destruct (isopen s) eqn:Ho; [|done]. cbn [negb].
  destruct (sock_waits full s); [done|]. intros [= <-]. rewrite Hs. unfold sock_waits. cbn. rewrite andb_false_r.
  intros [= <-]. cbn. rewrite andb_false_r. by intros [= <-].
Qed.

(** In the middle of a message a socket does not wait. *)
Lemma sock_waits_sending full s : sending s ≠ [] → sock_waits full s = false.
Proof. intros Hs. unfold sock_waits. by rewrite (bool_decide_false (sending s = [])), andb_false_r by done. Qed.
