(* ===== verification/ZmqNode.v ===== *)
(** * The nodes of the subscription tries

    Subscriptions are kept in tries of bytes on both sides of a connection:
    [trie_t] in the subscriber (zeromq-4.0.4/src/trie.cpp), [mtrie_t] in the
    publisher (mtrie.cpp).  Their nodes have the same layout: the children for
    the bytes [min .. min + count - 1], a single pointer when [count] is one and
    a table of pointers, some of them null, when it is more.  The nodes own
    their children, so a trie is a tree here; what differs is what a node holds.
    This file has the layout, growing it, and its invariant. *)

From S2P Require Import Prelude Bytes.

Definition u8 (z : Z) : Z := z mod 2 ^ 8.
Definition u16 (z : Z) : Z := z mod 2 ^ 16.
Definition u32 (z : Z) : Z := z mod 2 ^ 32.

Lemma u8_small z : 0 ≤ z < 256 → u8 z = z.
Proof. apply Z.mod_small. Qed.
Lemma u16_small z : 0 ≤ z < 2 ^ 16 → u16 z = z.
Proof. apply Z.mod_small. Qed.
Lemma u32_small z : 0 ≤ z < 2 ^ 32 → u32 z = z.
Proof. apply Z.mod_small. Qed.

(** [zmq_assert]: the process aborts. *)
Definition zmq_assert (what : string) (b : bool) : res unit :=
  if b then Ok () else Throw (Aborted what).

Definition null_pointer {A} : res A := Throw (UndefinedBehaviour "null pointer").

(** Comparisons that the context decides, and the assertions on them. *)
Ltac settle :=
  repeat match goal with
  | |- context [?a =? ?b] =>
      (rewrite (proj2 (Z.eqb_eq a b)) by lia) || (rewrite (proj2 (Z.eqb_neq a b)) by lia)
  | |- context [?a <? ?b] =>
      (rewrite (proj2 (Z.ltb_lt a b)) by lia) || (rewrite (proj2 (Z.ltb_ge a b)) by lia)
  | |- context [?a <=? ?b] =>
      (rewrite (proj2 (Z.leb_le a b)) by lia) || (rewrite (proj2 (Z.leb_gt a b)) by lia)
  end; cbn [zmq_assert mbind res_bind negb orb andb fst snd].

Lemma mjoin_Some {A} (o : option (option A)) x : mjoin o = Some x → o = Some (Some x).
Proof. destruct o as [[]|]; by intros [= ->]. Qed.

(** The union [next]: a pointer to a node, or to a table of them. *)
Inductive link (T : Type) : Type :=
  | LNode (p : option T)
  | LTable (t : list (option T)).
Arguments LNode {T} p.
Arguments LTable {T} t.

Inductive tnode (A : Type) : Type := TNode {
  val : A;                       (** [refcnt] or [pipes] *)
  tmin : Z;                      (** [unsigned char min] *)
  count : Z;                     (** [unsigned short count] *)
  live_nodes : Z;                (** [unsigned short live_nodes] *)
  tnext : link (tnode A)
}.
Arguments TNode {A} val tmin count live_nodes tnext.
Arguments val {A} t.
Arguments tmin {A} t.
Arguments count {A} t.
Arguments live_nodes {A} t.
Arguments tnext {A} t.

Section tnode.
Context {A : Type}.
Implicit Types (t n : tnode A) (p : option (tnode A)) (tb : list (option (tnode A))).

(** The constructor, which leaves the union unset. *)
Definition tnode_new (v : A) : tnode A := TNode v 0 0 0 (LNode None).

Definition set_val (v : A) t : tnode A := TNode v (tmin t) (count t) (live_nodes t) (tnext t).
Definition set_live (l : Z) t : tnode A := TNode (val t) (tmin t) (count t) l (tnext t).
Definition set_table (m c : Z) tb t : tnode A := TNode (val t) m c (live_nodes t) (LTable tb).

(** Reading the member of the union that was not written last, and indexing
    outside of the table, are undefined. *)
Definition rd_node t : res (option (tnode A)) :=
  match tnext t with
  | LNode p => Ok p
  | LTable _ => Throw (UndefinedBehaviour "inactive member of a union")
  end.

Definition rd_table t : res (list (option (tnode A))) :=
  match tnext t with
  | LTable tb => Ok tb
  | LNode _ => Throw (UndefinedBehaviour "inactive member of a union")
  end.

Definition table_get tb (i : Z) : res (option (tnode A)) :=
  if i <? 0 then Throw (UndefinedBehaviour "index of a table")
  else match tb !! Z.to_nat i with
       | Some p => Ok p
       | None => Throw (UndefinedBehaviour "index of a table")
       end.

Definition table_set tb (i : Z) p : res (list (option (tnode A))) :=
  _ ← table_get tb i; Ok (<[Z.to_nat i := p]> tb).

(** [count == 1 ? next.node : next.table [c - min]] *)
Definition child (c : Z) t : res (option (tnode A)) :=
  if count t =? 1 then rd_node t
  else tb ← rd_table t; table_get tb (c - tmin t).

(** [next.node = p] or [next.table [c - min] = p]. *)
Definition set_child (c : Z) p t : res (tnode A) :=
  if count t =? 1 then Ok (TNode (val t) (tmin t) (count t) (live_nodes t) (LNode p))
  else tb ← rd_table t;
       tb' ← table_set tb (c - tmin t) p;
       Ok (set_table (tmin t) (count t) tb' t).

(** A byte outside of the range of a node: the table is extended to it. *)
Definition extend (c : Z) t : res (tnode A) :=
  if (c <? tmin t) || (tmin t + count t <=? c) then
    if count t =? 0 then Ok (TNode (val t) c 1 (live_nodes t) (LNode None))
    else if count t =? 1 then
      oldp ← rd_node t;
      let count' := u16 ((if tmin t <? c then c - tmin t else tmin t - c) + 1) in
      let min' := Z.min (tmin t) c in
      tb ← table_set (replicate (Z.to_nat count') None) (tmin t - min') oldp;
      Ok (set_table min' count' tb t)
    else if tmin t <? c then
      tb ← rd_table t;
      let count' := u16 (c - tmin t + 1) in
      Ok (set_table (tmin t) count' (tb ++ replicate (Z.to_nat (count' - count t)) None) t)
    else
      tb ← rd_table t;
      let count' := u16 (tmin t + count t - c) in
      Ok (set_table c count' (replicate (Z.to_nat (tmin t - c)) None ++ tb) t)
  else Ok t.

(** [for (i : js) if (next.table [f (i)]) break;]: the [i] the loop stops at. *)
Fixpoint first_live (f : Z → Z) (js : list Z) tb : res (option Z) :=
  match js with
  | [] => Ok None
  | i :: js =>
      p ← table_get tb (f i);
      if p is Some _ then Ok (Some i) else first_live f js tb
  end.

(** [memmove] of [k] pointers, from the one at [from], to a new table. *)
Definition table_copy tb (from k : Z) : res (list (option (tnode A))) :=
  if (0 <=? from) && (0 <=? k) && (from + k <=? Z.of_nat (length tb))
  then Ok (take (Z.to_nat k) (drop (Z.to_nat from) tb))
  else Throw (UndefinedBehaviour "index of a table").

(** ** Invariant *)

(** The child for a byte. *)
Definition slot t (c : Z) : option (tnode A) :=
  if (tmin t <=? c) && (c <? tmin t + count t) then
    match tnext t with
    | LNode p => p
    | LTable tb => mjoin (tb !! Z.to_nat (c - tmin t))
    end
  else None.

Definition live_count tb : Z := Z.of_nat (length (omap id tb)).

(** No pointer table for less than two children, and none that begins or ends
    with a null pointer. *)
Inductive shape : tnode A → Prop :=
  | shape_leaf v m nx : 0 ≤ m < 256 → shape (TNode v m 0 0 nx)
  | shape_one v m n : 0 ≤ m < 256 → shape (TNode v m 1 1 (LNode (Some n)))
  | shape_table v m tb n n' :
      0 ≤ m → 2 ≤ Z.of_nat (length tb) → m + Z.of_nat (length tb) ≤ 256 →
      tb !! 0%nat = Some (Some n) → tb !! (length tb - 1)%nat = Some (Some n') →
      shape (TNode v m (Z.of_nat (length tb)) (live_count tb) (LTable tb)).

(** The same while the child for [c], which is in range, may be missing. *)
Inductive opened (c : Z) : tnode A → Prop :=
  | opened_one v p :
      0 ≤ c < 256 → opened c (TNode v c 1 (if p is Some _ then 1 else 0) (LNode p))
  | opened_table v m tb :
      0 ≤ m → 2 ≤ Z.of_nat (length tb) → m + Z.of_nat (length tb) ≤ 256 →
      m ≤ c < m + Z.of_nat (length tb) →
      (c ≠ m → ∃ n, tb !! 0%nat = Some (Some n)) →
      (c ≠ m + Z.of_nat (length tb) - 1 → ∃ n, tb !! (length tb - 1)%nat = Some (Some n)) →
      opened c (TNode v m (Z.of_nat (length tb)) (live_count tb) (LTable tb)).

(** ** Tables *)

Definition live1 p : Z := if p is Some _ then 1 else 0.

Lemma live_count_cons p tb : live_count (p :: tb) = live1 p + live_count tb.
Proof. unfold live_count. destruct p; cbn [live1 omap list_omap id]; rewrite ?length_cons; lia. Qed.

Lemma live_count_nonneg tb : 0 ≤ live_count tb ≤ Z.of_nat (length tb).
Proof.
  induction tb as [|p tb IH]; [done|]. rewrite live_count_cons. unfold live1.
  case_match; simpl; lia.
Qed.

Lemma live_count_app tb1 tb2 : live_count (tb1 ++ tb2) = live_count tb1 + live_count tb2.
Proof.
  induction tb1 as [|p tb1 IH]; [done|]. simpl. rewrite !live_count_cons, IH. lia.
Qed.

Lemma live_count_replicate k : live_count (replicate k None) = 0.
Proof. induction k; [done|]. simpl. by rewrite live_count_cons, IHk. Qed.

Lemma live_count_insert tb i p q :
  tb !! i = Some q → live_count (<[i := p]> tb) = live_count tb - live1 q + live1 p.
Proof.
  revert i. induction tb as [|r tb IH]; intros [|i] Hi; simplify_eq/=.
  - rewrite !live_count_cons. lia.
  - rewrite !live_count_cons, (IH i Hi). lia.
Qed.

Lemma live_count_pos tb i n : tb !! i = Some (Some n) → 1 ≤ live_count tb.
Proof.
  revert i. induction tb as [|r tb IH]; intros [|i] Hi; simplify_eq/=; rewrite live_count_cons.
  - pose proof (live_count_nonneg tb). simpl. lia.
  - specialize (IH i Hi). destruct r; simpl; lia.
Qed.

Lemma live_count_two tb i j n n' :
  tb !! i = Some (Some n) → tb !! j = Some (Some n') → i ≠ j → 2 ≤ live_count tb.
Proof.
  intros Hi Hj Hij. assert (live_count (<[i := None]> tb) = live_count tb - 1) as Hc.
  { rewrite (live_count_insert _ _ _ _ Hi). simpl. lia. }
  assert (1 ≤ live_count (<[i := None]> tb)); [|lia].
  apply (live_count_pos _ j n'). by rewrite list_lookup_insert_ne.
Qed.

(** A table with one child has no other. *)
Lemma live_count_one tb i j n :
  live_count tb = 1 → tb !! i = Some (Some n) → i ≠ j → mjoin (tb !! j) = None.
Proof.
  intros H1 Hi Hij. destruct (tb !! j) as [[n'|]|] eqn:Hj; [|done..].
  pose proof (live_count_two _ _ _ _ _ Hi Hj Hij). lia.
Qed.

Lemma table_get_Ok tb i p : 0 ≤ i → tb !! Z.to_nat i = Some p → table_get tb i = Ok p.
Proof. intros Hi Hp. unfold table_get. rewrite Hp. by case_match; [lia|]. Qed.

Lemma table_get_in tb i : 0 ≤ i < Z.of_nat (length tb) → table_get tb i = Ok (mjoin (tb !! Z.to_nat i)).
Proof.
  intros Hi. destruct (lookup_lt_is_Some_2 tb (Z.to_nat i)) as [p Hp]; [lia|].
  rewrite Hp. by apply table_get_Ok; [lia|].
Qed.

Lemma table_set_in tb i p : 0 ≤ i < Z.of_nat (length tb) → table_set tb i p = Ok (<[Z.to_nat i := p]> tb).
Proof. intros Hi. unfold table_set. by rewrite table_get_in. Qed.

Lemma slot_range t c n : slot t c = Some n → tmin t ≤ c < tmin t + count t.
Proof. unfold slot. case_match eqn:H; [|done]. intros _. lia. Qed.

(** ** Reaching and setting a child *)

Lemma slot_table v m l tb c :
  slot (TNode v m (Z.of_nat (length tb)) l (LTable tb)) c =
  if decide (m ≤ c) then mjoin (tb !! Z.to_nat (c - m)) else None.
Proof.
  unfold slot. cbn [tmin count tnext]. destruct (decide (m ≤ c)) as [Hm|Hm].
  - destruct (Z.leb_spec m c); [|lia]. simpl.
    destruct (Z.ltb_spec c (m + Z.of_nat (length tb))); [done|].
    rewrite lookup_ge_None_2; [done|lia].
  - destruct (Z.leb_spec m c); [lia|done].
Qed.

Lemma slot_one v m l p c : slot (TNode v m 1 l (LNode p)) c = if decide (c = m) then p else None.
Proof.
  unfold slot. cbn [tmin count tnext]. case_decide as Hd.
  - subst. by destruct (Z.leb_spec m m), (Z.ltb_spec m (m + 1)); try lia.
  - destruct (Z.leb_spec m c), (Z.ltb_spec c (m + 1)); try lia; done.
Qed.

Lemma shape_child c t : shape t → tmin t ≤ c < tmin t + count t → child c t = Ok (slot t c).
Proof.
  unfold child. intros [v m nx|v m n|v m tb n n' ? H2] Hc; simpl in Hc.
  - lia.
  - rewrite slot_one. cbn. by rewrite decide_True by lia.
  - cbn [count tmin rd_table tnext]. destruct (Z.eqb_spec (Z.of_nat (length tb)) 1); [lia|].
    rewrite slot_table. rewrite decide_True by lia. cbn. by apply table_get_in; lia.
Qed.

Lemma shape_one_child c t : shape t → count t = 1 → tmin t ≤ c < tmin t + count t →
  ∃ n, rd_node t = Ok (Some n) ∧ slot t c = Some n.
Proof.
  intros [|v m n|v m tb n n' _ H2 _ _ _] Hone Hc; cbn in *; [lia| |lia].
  exists n. rewrite slot_one. split; [done|]. rewrite decide_True; [done|lia].
Qed.

Lemma slot_out c t : c < tmin t ∨ tmin t + count t ≤ c → slot t c = None.
Proof. intros Hc. destruct (slot t c) eqn:Hs; [|done]. apply slot_range in Hs. lia. Qed.

Lemma opened_child c t : opened c t → child c t = Ok (slot t c).
Proof.
  unfold child. intros [v p|v m tb ?? H2]; cbn [count tmin tnext].
  - rewrite slot_one. cbn. by rewrite decide_True.
  - destruct (Z.eqb_spec (Z.of_nat (length tb)) 1); [lia|].
    rewrite slot_table. rewrite decide_True by lia. cbn. by apply table_get_in; lia.
Qed.

Lemma shape_opened c t n : shape t → slot t c = Some n → opened c t.
Proof.
  intros Ht Hs. pose proof (slot_range _ _ _ Hs) as Hr. destruct Ht; simpl in Hr.
  - lia.
  - assert (c = m) as -> by lia. by apply (opened_one m v (Some _)).
  - constructor; eauto.
Qed.

Lemma opened_shape c t n : opened c t → slot t c = Some n → shape t.
Proof.
  intros [v p Hc|v m tb Hm H2 H3 Hc Hf Hl]; rewrite ?slot_one, ?slot_table.
  - rewrite decide_True by done. intros ->. by constructor.
  - rewrite decide_True by lia. intros Hs.
    pose proof (mjoin_Some _ _ Hs) as Hs'.
    assert (∃ n, tb !! 0%nat = Some (Some n)) as [x Hx].
    { destruct (decide (c = m)) as [->|]; [|by apply Hf]. exists n. by rewrite Z.sub_diag in Hs'. }
    assert (∃ n, tb !! (length tb - 1)%nat = Some (Some n)) as [y Hy].
    { destruct (decide (c = m + Z.of_nat (length tb) - 1)) as [->|]; [|by apply Hl].
      exists n. rewrite <-Hs'. f_equal. lia. }
    by econstructor.
Qed.

Lemma opened_live c t : opened c t → live1 (slot t c) ≤ live_nodes t ≤ 255 + live1 (slot t c).
Proof.
  intros [v p Hc|v m tb ? H2 H3 Hc _ _].
  - rewrite slot_one, decide_True by done. destruct p; simpl; lia.
  - rewrite slot_table, decide_True by lia. cbn [live_nodes].
    destruct (lookup_lt_is_Some_2 tb (Z.to_nat (c - m))) as [q Hq]; [lia|]. rewrite Hq.
    pose proof (live_count_insert tb _ None q Hq) as Hl. simpl in Hl.
    pose proof (live_count_nonneg (<[Z.to_nat (c - m) := None]> tb)).
    pose proof (live_count_insert tb _ (Some t) q Hq) as Hl'. simpl in Hl'.
    pose proof (live_count_nonneg (<[Z.to_nat (c - m) := Some t]> tb)) as Hb.
    rewrite length_insert in Hb. destruct q; simpl in *; lia.
Qed.

(** Storing a child, with the count of children brought up to date. *)
Lemma opened_set c n t : opened c t → ∃ t',
  set_child c (Some n) (set_live (live_nodes t + 1 - live1 (slot t c)) t) = Ok t' ∧
  shape t' ∧ val t' = val t ∧ tmin t' = tmin t ∧ count t' = count t ∧
  live_nodes t' = live_nodes t + 1 - live1 (slot t c) ∧
  ∀ c', slot t' c' = if decide (c' = c) then Some n else slot t c'.
Proof.
  unfold set_child. intros [v p Hc|v m tb ? H2 H3 Hc Hf Hl].
  - eexists. split; [done|]. cbn. rewrite slot_one, decide_True by done.
    split; [destruct p; simpl; by constructor|]. do 4 (split; [done|]). intros c'.
    rewrite !slot_one. by case_decide.
  - cbn [count tmin tnext set_live rd_table live_nodes]. destruct (Z.eqb_spec (Z.of_nat (length tb)) 1); [lia|].
    cbn. rewrite table_set_in by lia. eexists. split; [done|]. cbn.
    destruct (lookup_lt_is_Some_2 tb (Z.to_nat (c - m))) as [q Hq]; [lia|].
    rewrite slot_table, decide_True, Hq by lia. cbn.
    set (tb' := <[Z.to_nat (c - m) := Some n]> tb).
    assert (length tb' = length tb) as Hlen by apply length_insert.
    assert (live_count tb + 1 - live1 q = live_count tb') as ->.
    { subst tb'. rewrite (live_count_insert _ _ _ _ Hq). simpl. lia. }
    rewrite <-Hlen. split.
    { assert (∃ x, tb' !! 0%nat = Some (Some x)) as [x Hx].
      { destruct (decide (c = m)) as [->|Hn]; subst tb'.
        - exists n. rewrite Z.sub_diag. apply list_lookup_insert_eq. lia.
        - destruct (Hf Hn) as [y Hy]. exists y. rewrite list_lookup_insert_ne; [done|lia]. }
      assert (∃ x, tb' !! (length tb' - 1)%nat = Some (Some x)) as [y Hy].
      { rewrite Hlen. subst tb'. destruct (decide (c = m + Z.of_nat (length tb) - 1)) as [->|Hn].
        - exists n. replace (length tb - 1)%nat with (Z.to_nat (m + Z.of_nat (length tb) - 1 - m)) by lia.
          apply list_lookup_insert_eq. lia.
        - destruct (Hl Hn) as [y Hy]. exists y. rewrite list_lookup_insert_ne; [done|lia]. }
      econstructor; [lia..|done|done]. }
    do 4 (split; [done|]). intros c'. unfold set_table. cbn [val live_nodes set_live]. rewrite slot_table, Hlen, slot_table.
    destruct (decide (c' = c)) as [->|Hn].
    + rewrite decide_True by lia. subst tb'. by rewrite list_lookup_insert_eq by lia.
    + case_decide; [|done]. subst tb'. rewrite list_lookup_insert_ne; [done|lia].
Qed.

Lemma set_child_live c p l t : set_child c p (set_live l t) = set_live l <$> set_child c p t.
Proof.
  unfold set_child, rd_table. cbn [count set_live tnext tmin]. case_match; [done|].
  destruct (tnext t); [done|]. simpl. by destruct (table_set _ _ _).
Qed.

(** A new child. *)
Lemma set_child_new c n t : opened c t → slot t c = None → ∃ t',
  set_child c (Some n) t = Ok t' ∧ live_nodes t' = live_nodes t ∧
  let t' := set_live (live_nodes t + 1) t' in
  shape t' ∧ val t' = val t ∧ ∀ c', slot t' c' = if decide (c' = c) then Some n else slot t c'.
Proof.
  intros Ht Hs. destruct (opened_set c n t Ht) as (t' & Hset & Hsh & Hv & _ & _ & _ & Hsl).
  rewrite Hs in Hset. simpl in Hset. rewrite Z.sub_0_r, set_child_live in Hset.
  destruct (set_child c (Some n) t) as [t0|] eqn:H0; [|done]. injection Hset as <-.
  exists t0. split; [done|]. split; [|done]. revert H0. unfold set_child.
  destruct (_ =? _); [by intros [= <-]|]. destruct (rd_table t); [|done]. simpl.
  destruct (table_set _ _ _); [|done]. by intros [= <-].
Qed.

(** A child that changed. *)
Lemma set_child_again c n0 n t : shape t → slot t c = Some n0 → ∃ t',
  set_child c (Some n) t = Ok t' ∧ shape t' ∧ val t' = val t ∧ live_nodes t' = live_nodes t ∧
  ∀ c', slot t' c' = if decide (c' = c) then Some n else slot t c'.
Proof.
  intros Ht Hs. destruct (opened_set c n t (shape_opened _ _ _ Ht Hs)) as (t' & Hset & Hsh & Hv & _ & _ & Hl & Hsl).
  rewrite Hs in Hset, Hl. simpl in Hset, Hl. replace (live_nodes t + 1 - 1) with (live_nodes t) in * by lia.
  destruct t as [????]. exists t'. done.
Qed.

Lemma shape_live t : shape t →
  (count t = 0 ∧ live_nodes t = 0) ∨ (count t = 1 ∧ live_nodes t = 1) ∨
  (2 ≤ count t ≤ 256 ∧ 2 ≤ live_nodes t ≤ 256).
Proof.
  intros [| |v m tb n n' Hm H2 H3 Hf Hl]; cbn; [lia..|].
  pose proof (live_count_two _ _ _ _ _ Hf Hl ltac:(lia)). pose proof (live_count_nonneg tb). lia.
Qed.

(** ** Growing *)

(** What [extend] promises: the children are those of before, and [c] is in range. *)
Definition extended (c : Z) t t1 : Prop :=
  opened c t1 ∧ val t1 = val t ∧ live_nodes t1 = live_nodes t ∧ ∀ c', slot t1 c' = slot t c'.

(** A single child moves to a table. *)
Lemma extend_one c v m n : 0 ≤ m < 256 → 0 ≤ c < 256 → c ≠ m → ∃ t1,
  extend c (TNode v m 1 1 (LNode (Some n))) = Ok t1 ∧ extended c (TNode v m 1 1 (LNode (Some n))) t1.
Proof.
  intros Hm Hc Hn. unfold extend, extended. cbn [tmin count tnext live_nodes val rd_node].
  destruct (_ || _) eqn:Ho; [|lia]. cbn.
  set (k := (if m <? c then c - m else m - c) + 1).
  assert (2 ≤ k ≤ 256 ∧ Z.min m c + k ≤ 256 ∧ Z.max m c = Z.min m c + k - 1) as (Hk & Hk' & Hk'')
    by (subst k; case_match; lia).
  rewrite u16_small by lia. set (tb := replicate (Z.to_nat k) None).
  assert (length tb = Z.to_nat k) as Hlen by apply length_replicate.
  rewrite table_set_in by lia. set (tb' := <[_ := _]> tb).
  assert (length tb' = Z.to_nat k) as Hlen' by (subst tb'; by rewrite length_insert).
  replace k with (Z.of_nat (length tb')) by lia. eexists. split; [done|]. cbn.
  assert (∀ i, i ≠ Z.to_nat (m - Z.min m c) → mjoin (tb' !! i) = None) as Hnone.
  { intros i Hi. subst tb'. rewrite list_lookup_insert_ne by done. subst tb.
    destruct (replicate _ _ !! i) eqn:Hr; [|done]. by apply lookup_replicate in Hr as [-> _]. }
  assert (tb' !! Z.to_nat (m - Z.min m c) = Some (Some n)) as Hsome.
  { subst tb'. apply list_lookup_insert_eq. lia. }
  assert (live_count tb' = 1) as Hlive.
  { subst tb'. rewrite (live_count_insert _ _ _ None); [subst tb; by rewrite live_count_replicate|].
    apply lookup_replicate. split; [done|lia]. }
  unfold set_table. cbn [val live_nodes]. split; [|do 2 (split; [done|]); intros c'].
  - rewrite <-Hlive. constructor; try lia; intros Hc1; exists n; rewrite <-Hsome; f_equal; lia.
  - rewrite slot_table, slot_one. destruct (decide (c' = m)) as [->|Hcm].
    + rewrite decide_True by lia. by rewrite Hsome.
    + case_decide; [|done]. apply Hnone. lia.
Qed.

Lemma lookup_replicate_join k i : mjoin (replicate k (None (A:=tnode A)) !! i) = None.
Proof. destruct (replicate _ _ !! i) eqn:Hr; [|done]. by apply lookup_replicate in Hr as [-> _]. Qed.

(** A table grows at one of its ends. *)
Lemma extend_table c v m tb n n' :
  let t := TNode v m (Z.of_nat (length tb)) (live_count tb) (LTable tb) in
  0 ≤ m → 2 ≤ Z.of_nat (length tb) → m + Z.of_nat (length tb) ≤ 256 →
  tb !! 0%nat = Some (Some n) → tb !! (length tb - 1)%nat = Some (Some n') →
  0 ≤ c < 256 → c < m ∨ m + Z.of_nat (length tb) ≤ c →
  ∃ t1, extend c t = Ok t1 ∧ extended c t t1.
Proof.
  intros t Hm H2 H3 Hf Hl Hc Ho. unfold extend, extended. subst t. cbn [tmin count tnext live_nodes val rd_table].
  destruct (_ || _) eqn:Hor; [clear Hor|lia].
  destruct (Z.eqb_spec (Z.of_nat (length tb)) 0); [lia|].
  destruct (Z.eqb_spec (Z.of_nat (length tb)) 1); [lia|].
  destruct (Z.ltb_spec m c); rewrite u16_small by lia; cbn; eexists; (split; [done|]);
    unfold set_table; cbn [val live_nodes].
  - set (k := Z.to_nat _). replace (c - m + 1) with (Z.of_nat (length (tb ++ replicate k None)))
      by (rewrite length_app, length_replicate; lia).
    assert (live_count tb = live_count (tb ++ replicate k None)) as Hlive
      by (rewrite live_count_app, live_count_replicate; lia).
    split; [rewrite Hlive; constructor; rewrite ?length_app, ?length_replicate; try lia|].
    + intros _. exists n. by apply lookup_app_l_Some.
    + do 2 (split; [done|]). intros c'. rewrite !slot_table. case_decide; [|done].
      destruct (decide (Z.to_nat (c' - m) < length tb)%nat).
      * by rewrite lookup_app_l.
      * rewrite lookup_app_r by lia. rewrite lookup_replicate_join.
        by rewrite lookup_ge_None_2 by lia.
  - set (k := Z.to_nat _). replace (m + Z.of_nat (length tb) - c) with (Z.of_nat (length (replicate k None ++ tb)))
      by (rewrite length_app, length_replicate; lia).
    assert (live_count tb = live_count (replicate k None ++ tb)) as Hlive
      by (rewrite live_count_app, live_count_replicate; lia).
    split; [rewrite Hlive; constructor; rewrite ?length_app, ?length_replicate; try lia|].
    + intros ?. exists n'. rewrite lookup_app_r; rewrite length_replicate; [|lia].
      rewrite <-Hl. f_equal. lia.
    + do 2 (split; [done|]). intros c'. rewrite !slot_table.
      destruct (decide (c ≤ c')); [|by rewrite decide_False by lia].
      destruct (decide (m ≤ c')).
      * rewrite lookup_app_r by (rewrite length_replicate; lia). rewrite length_replicate.
        do 2 f_equal. lia.
      * rewrite lookup_app_l by (rewrite length_replicate; lia). apply lookup_replicate_join.
Qed.

Lemma extend_spec c t : shape t → 0 ≤ c < 256 → ∃ t1, extend c t = Ok t1 ∧ extended c t t1.
Proof.
  intros Ht Hc. destruct ((c <? tmin t) || (tmin t + count t <=? c)) eqn:Ho.
  - destruct Ht; simpl in Ho.
    + eexists. unfold extend. cbn [tmin count]. rewrite Ho. split; [done|]. unfold extended.
      split; [by apply (opened_one c v None)|]. do 2 (split; [done|]). intros c'.
      rewrite slot_one. unfold slot. cbn [tmin count].
      destruct (_ && _) eqn:?; [lia|]. by case_decide.
    + apply extend_one; [done..|lia].
    + eapply extend_table; eauto; lia.
  - exists t. unfold extend. rewrite Ho. split; [done|]. unfold extended. split; [|done].
    destruct Ht; simpl in Ho.
    + lia.
    + assert (c = m) as -> by lia. by apply (opened_one m v (Some _)).
    + constructor; eauto; lia.
Qed.

(** ** Shrinking *)

(** The children in a table that starts at [m]. *)
Definition table_slot (m : Z) tb (c : Z) : option (tnode A) :=
  if decide (m ≤ c) then mjoin (tb !! Z.to_nat (c - m)) else None.

Lemma live_count_none tb : (∀ i, mjoin (tb !! i) = None) → live_count tb = 0.
Proof.
  induction tb as [|p tb IH]; intros Hn; [done|]. rewrite live_count_cons, IH.
  - specialize (Hn 0%nat). simpl in Hn. by subst p.
  - intros i. apply (Hn (S i)).
Qed.

Lemma first_live_spec f a k tb :
  (∀ x, a ≤ x < a + k → 0 ≤ f x < Z.of_nat (length tb)) → ∃ r,
  first_live f (seqZ a k) tb = Ok r ∧
  match r with
  | Some j => a ≤ j < a + k ∧ (∃ n, tb !! Z.to_nat (f j) = Some (Some n)) ∧
                ∀ x, a ≤ x < j → mjoin (tb !! Z.to_nat (f x)) = None
  | None => ∀ x, a ≤ x < a + k → mjoin (tb !! Z.to_nat (f x)) = None
  end.
Proof.
  intros Hf. destruct (decide (0 ≤ k)) as [Hk|]; last first.
  { rewrite seqZ_nil by lia. exists None. split; [done|]. lia. }
  revert a Hf. pattern k. apply natlike_ind; [|clear k Hk; intros k Hk IH|done]; intros a Hf.
  { exists None. split; [done|]. lia. }
  rewrite seqZ_cons by lia. rewrite Z.pred_succ. simpl. rewrite table_get_in by (apply Hf; lia).
  destruct (lookup_lt_is_Some_2 tb (Z.to_nat (f a))) as [[n|] Hp]; [specialize (Hf a); lia| |]; rewrite Hp; simpl.
  - exists (Some a). split; [done|]. split; [lia|]. split; [eauto|]. lia.
  - destruct (IH (Z.succ a)) as ([j|] & -> & Hr); [intros; apply Hf; lia|..].
    + exists (Some j). split; [done|]. destruct Hr as (Hj & Hs & Hn). split; [lia|]. split; [done|].
      intros x Hx. destruct (decide (x = a)) as [->|]; [by rewrite Hp|]. apply Hn. lia.
    + exists None. split; [done|]. intros x Hx.
      destruct (decide (x = a)) as [->|]; [by rewrite Hp|]. apply Hr. lia.
Qed.

(** Leaving out null pointers at the ends of a table. *)
Lemma shape_window v m tb (a k : nat) n n' :
  0 ≤ m → m + Z.of_nat (length tb) ≤ 256 → (a + k ≤ length tb)%nat → 2 ≤ live_count tb →
  (∀ i, (i < a ∨ a + k ≤ i)%nat → mjoin (tb !! i) = None) →
  tb !! a = Some (Some n) → tb !! (a + k - 1)%nat = Some (Some n') →
  let t := TNode v (m + Z.of_nat a) (Z.of_nat k) (live_count tb) (LTable (take k (drop a tb))) in
  shape t ∧ ∀ c, slot t c = table_slot m tb c.
Proof.
  intros Hm H3 Hak Hlive Hout Ha Hk t. set (tb' := take k (drop a tb)) in t.
  assert (length tb' = k) as Hlen by (subst tb'; rewrite length_take, length_drop; lia).
  assert (live_count tb = live_count tb') as Hl.
  { rewrite <-(take_drop a tb) at 1. rewrite <-(take_drop k (drop a tb)), !live_count_app. fold tb'.
    rewrite (live_count_none (take a tb)), (live_count_none (drop k (drop a tb))); [lia|..].
    - intros i. rewrite !lookup_drop. apply Hout. lia.
    - intros i. destruct (decide (i < a)%nat).
      + rewrite lookup_take_lt by done. apply Hout. lia.
      + by rewrite lookup_take_ge by lia. }
  assert (∀ i, (i < k)%nat → tb' !! i = tb !! (a + i)%nat) as Hget.
  { intros i Hi. subst tb'. rewrite lookup_take_lt by done. by rewrite lookup_drop. }
  pose proof (live_count_nonneg tb'). subst t. rewrite Hl, <-Hlen.
  split; [econstructor; try lia|].
  - rewrite Hget by lia. rewrite Nat.add_0_r. done.
  - rewrite Hget by lia. rewrite <-Hk. f_equal. lia.
  - intros c. rewrite slot_table. unfold table_slot.
    destruct (decide (m + Z.of_nat a ≤ c)) as [Hc|Hc].
    + rewrite decide_True by lia. destruct (decide (Z.to_nat (c - (m + Z.of_nat a)) < k)%nat).
      * rewrite Hget by done. do 2 f_equal. lia.
      * rewrite lookup_ge_None_2 by lia. symmetry. apply Hout. lia.
    + case_decide; [|done]. symmetry. apply Hout. lia.
Qed.

Lemma shape_single v m tb (i : nat) n :
  0 ≤ m → m + Z.of_nat (length tb) ≤ 256 → live_count tb = 1 → tb !! i = Some (Some n) →
  let t := TNode v (m + Z.of_nat i) 1 1 (LNode (Some n)) in
  shape t ∧ ∀ c, slot t c = table_slot m tb c.
Proof.
  intros Hm H3 Hl Hi t. assert (i < length tb)%nat by (by eapply lookup_lt_Some).
  split; [constructor; lia|]. intros c. subst t. rewrite slot_one. unfold table_slot.
  destruct (decide (c = m + Z.of_nat i)) as [->|Hc].
  - rewrite decide_True by lia. replace (Z.to_nat _) with i by lia. by rewrite Hi.
  - case_decide; [|done]. symmetry. eapply live_count_one; [done..|lia].
Qed.

End tnode.

(** Clearing an entry. *)
Lemma table_slot_clear {A} (v : A) m tb l c c' : m ≤ c < m + Z.of_nat (length tb) →
  table_slot m (<[Z.to_nat (c - m) := None]> tb) c' =
  if decide (c' = c) then None else slot (TNode v m (Z.of_nat (length tb)) l (LTable tb)) c'.
Proof.
  intros Hc. rewrite slot_table. unfold table_slot. destruct (decide (c' = c)) as [->|Hn].
  - rewrite decide_True by lia. by rewrite list_lookup_insert_eq by lia.
  - case_decide; [|done]. by rewrite list_lookup_insert_ne by lia.
Qed.

Lemma table_copy_Ok {A} (tb : list (option (tnode A))) (a k : nat) : (a + k ≤ length tb)%nat →
  table_copy tb (Z.of_nat a) (Z.of_nat k) = Ok (take k (drop a tb)).
Proof.
  intros Hk. unfold table_copy. destruct (_ && _ && _) eqn:Hc; [by rewrite !Nat2Z.id|lia].
Qed.

(** What is left of a table when the child at [i] is taken out. *)
Section prune.
Context {A : Type} (v : A) (m : Z) (tb : list (option (tnode A))) (first last n : tnode A) (i : nat).
Context (Hm : 0 ≤ m) (H2 : 2 ≤ Z.of_nat (length tb)) (H3 : m + Z.of_nat (length tb) ≤ 256).
Context (Hfirst : tb !! 0%nat = Some (Some first)) (Hlast : tb !! (length tb - 1)%nat = Some (Some last)).
Context (Hi : tb !! i = Some (Some n)).

Let len := Z.of_nat (length tb).
Let tb' := <[i := None]> tb.
Let left_with t := shape t ∧ ∀ c, slot t c = table_slot m tb' c.

Lemma pruned_length : length tb' = length tb.
Proof. apply length_insert. Qed.

Lemma pruned_live : live_count tb' = live_count tb - 1 ∧ 2 ≤ live_count tb ≤ 256.
Proof.
  pose proof (live_count_two _ _ _ _ _ Hfirst Hlast ltac:(lia)). pose proof (live_count_nonneg tb).
  subst tb'. rewrite (live_count_insert _ _ _ _ Hi). simpl. lia.
Qed.

Lemma pruned_keeps j x : j ≠ i → tb !! j = Some (Some x) → tb' !! j = Some (Some x).
Proof. intros Hj Hx. subst tb'. by rewrite list_lookup_insert_ne. Qed.

Lemma pruned_at : mjoin (tb' !! i) = None.
Proof. subst tb'. rewrite list_lookup_insert_eq; [done|]. by eapply lookup_lt_Some. Qed.

(** One child is left: it was at an end. *)
Lemma pruned_one : live_count tb' = 1 →
  (i = 0%nat ∧ tb' !! (length tb - 1)%nat = Some (Some last) ∧
     left_with (TNode v (m + (len - 1)) 1 1 (LNode (Some last)))) ∨
  (i = (length tb - 1)%nat ∧ i ≠ 0%nat ∧ tb' !! 0%nat = Some (Some first) ∧
     left_with (TNode v m 1 1 (LNode (Some first)))).
Proof.
  intros H1. pose proof pruned_length as Hlen. unfold left_with, len.
  destruct (decide (i = 0%nat)) as [Hi0|Hi0].
  - left. assert (tb' !! (length tb - 1)%nat = Some (Some last)) as Hl by (apply pruned_keeps; [lia|done]).
    do 2 (split; [done|]). replace (Z.of_nat (length tb) - 1) with (Z.of_nat (length tb - 1)) by lia.
    apply shape_single; [done|by rewrite Hlen|done|done].
  - assert (tb' !! 0%nat = Some (Some first)) as Hf by (apply pruned_keeps; [lia|done]).
    right. destruct (decide (i = (length tb - 1)%nat)) as [Hil|Hil].
    + do 3 (split; [done|]). pose proof (shape_single v m tb' 0 first Hm) as Hs.
      rewrite Z.add_0_r in Hs. apply Hs; [by rewrite Hlen|done|done].
    + exfalso. pose proof (live_count_two tb' 0 (length tb - 1) first last Hf) as Ht.
      rewrite pruned_keeps with (x := last) in Ht by done. specialize (Ht eq_refl). lia.
Qed.

(** The first child was taken out of three or more. *)
Lemma pruned_left : i = 0%nat → live_count tb' ≠ 1 → ∃ j : nat, (0 < j < length tb)%nat ∧
  first_live id (seqZ 1 (len - 1)) tb' = Ok (Some (Z.of_nat j)) ∧
  left_with (TNode v (m + Z.of_nat j) (Z.of_nat (length tb - j)) (live_count tb')
    (LTable (take (length tb - j) (drop j tb')))).
Proof.
  intros Hi0 H1. pose proof pruned_length as Hlen. destruct pruned_live as [Hl Hl'].
  assert (tb' !! (length tb - 1)%nat = Some (Some last)) as Hlast' by (apply pruned_keeps; [lia|done]).
  destruct (first_live_spec id 1 (len - 1) tb') as ([j|] & Hr & Hsp); unfold id in *; [lia| |].
  - destruct Hsp as (Hj & [x Hx] & Hno). exists (Z.to_nat j). split; [lia|].
    split; [by rewrite Z2Nat.id by lia|].
    eapply shape_window; [lia| |lia|lia| |done|].
    + by rewrite Hlen.
    + intros k [Hk|Hk]; [|by rewrite lookup_ge_None_2 by lia].
      destruct (decide (k = i)) as [->|]; [apply pruned_at|].
      specialize (Hno (Z.of_nat k)). rewrite Nat2Z.id in Hno. apply Hno. lia.
    + rewrite <-Hlast'. f_equal. lia.
  - specialize (Hsp (len - 1)). replace (Z.to_nat (len - 1)) with (length tb - 1)%nat in Hsp by lia.
    rewrite Hlast' in Hsp. simpl in Hsp. specialize (Hsp ltac:(lia)). done.
Qed.

(** The last child was taken out of three or more. *)
Lemma pruned_right : i = (length tb - 1)%nat → live_count tb' ≠ 1 → ∃ j : nat, (0 < j < length tb)%nat ∧
  first_live (λ i, len - 1 - i) (seqZ 1 (len - 1)) tb' = Ok (Some (Z.of_nat j)) ∧
  left_with (TNode v m (Z.of_nat (length tb - j)) (live_count tb') (LTable (take (length tb - j) tb'))).
Proof.
  intros Hi0 H1. pose proof pruned_length as Hlen. destruct pruned_live as [Hl Hl'].
  assert (tb' !! 0%nat = Some (Some first)) as Hf' by (apply pruned_keeps; [lia|done]).
  destruct (first_live_spec (λ i, len - 1 - i) 1 (len - 1) tb') as ([j|] & Hr & Hsp); [lia| |].
  - destruct Hsp as (Hj & [x Hx] & Hno). exists (Z.to_nat j). split; [lia|].
    split; [by rewrite Z2Nat.id by lia|].
    pose proof (shape_window v m tb' 0 (length tb - Z.to_nat j) first x) as Hw.
    rewrite Z.add_0_r, drop_0 in Hw. apply Hw; [lia|by rewrite Hlen|lia|lia| |done|].
    + intros k [Hk|Hk]; [lia|]. destruct (decide (k = i)) as [->|]; [apply pruned_at|].
      destruct (decide (k < length tb)%nat); [|by rewrite lookup_ge_None_2 by lia].
      specialize (Hno (len - 1 - Z.of_nat k)).
      replace (Z.to_nat (len - 1 - (len - 1 - Z.of_nat k))) with k in Hno by lia. apply Hno. lia.
    + rewrite <-Hx. f_equal. lia.
  - specialize (Hsp (len - 1)). replace (Z.to_nat (len - 1 - (len - 1))) with 0%nat in Hsp by lia.
    rewrite Hf' in Hsp. simpl in Hsp. specialize (Hsp ltac:(lia)). done.
Qed.

(** A child between the ends was taken out. *)
Lemma pruned_middle : i ≠ 0%nat → i ≠ (length tb - 1)%nat →
  left_with (TNode v m len (live_count tb') (LTable tb')).
Proof.
  intros Hi0 Hil. pose proof pruned_length as Hlen. destruct pruned_live as [Hl Hl'].
  unfold left_with, len. rewrite <-Hlen. split; [|intros c; by rewrite slot_table].
  apply (shape_table _ _ _ first last); rewrite ?Hlen; [lia..| |]; by apply pruned_keeps; [lia|].
Qed.

End prune.

(** ** Tries

    [trie_t] and [mtrie_t] descend to a prefix in the same way.  They differ in
    what a node holds ([zero] in a new node), in what they do at the node of the
    prefix ([f]), in what they assert, and in how they compact a table. *)

Section trie.
Context {A : Type} (zero : A) (idle : A → bool).
Implicit Types (t n : tnode A) (s : string).

(** [is_redundant]: the node holds nothing and has no children. *)
Definition is_redundant t : bool := idle (val t) && (live_nodes t =? 0).

(** [next.node = new trie_t] and the like, when there is no child for [c]. *)
Definition new_child (assert_live : tnode A → res unit) (c : Z) t : res (tnode A) :=
  p ← child c t;
  if p is Some _ then Ok t
  else
    t ← set_child c (Some (tnode_new zero)) t;
    let t := set_live (u16 (live_nodes t + 1)) t in
    _ ← assert_live t;
    Ok t.

Fixpoint add_with (assert_live : tnode A → res unit) (f : A → bool * A) s t : res (bool * tnode A) :=
  match s with
  | EmptyString => Ok ((f (val t)).1, set_val (f (val t)).2 t)
  | String ch s =>
      let c := byte_val ch in
      t ← extend c t;
      t ← new_child assert_live c t;
      p ← child c t;
      match p with
      | None => null_pointer
      | Some n =>
          r ← add_with assert_live f s n;
          t ← set_child c (Some r.2) t;
          Ok (r.1, t)
      end
  end.

Fixpoint rm_with (prune : Z → tnode A → res (tnode A)) (f : A → res (bool * A)) s t :
    res (bool * tnode A) :=
  match s with
  | EmptyString => r ← f (val t); Ok (r.1, set_val r.2 t)
  | String ch s =>
      let c := byte_val ch in
      if (count t =? 0) || (c <? tmin t) || (tmin t + count t <=? c) then Ok (false, t)
      else
        p ← child c t;
        match p with
        | None => Ok (false, t)
        | Some n =>
            r ← rm_with prune f s n;
            t ← set_child c (Some r.2) t;
            t ← (if is_redundant r.2 then prune c t else Ok t);
            Ok (r.1, t)
        end
  end.

(** Below the root there are no redundant nodes; [good] is about what nodes hold. *)
Context (good : A → Prop).

Inductive wf : tnode A → Prop :=
  wf_intro t : good (val t) → shape t →
    (∀ c n, slot t c = Some n → is_redundant n = false ∧ wf n) → wf t.

Lemma wf_shape t : wf t → shape t.
Proof. by intros []. Qed.

Lemma wf_slot t c n : wf t → slot t c = Some n → is_redundant n = false ∧ wf n.
Proof. intros [? _ _ Hs]. apply Hs. Qed.

Lemma wf_induct (P : tnode A → Prop) :
  (∀ t, good (val t) → shape t → (∀ c n, slot t c = Some n → P n) → P t) → ∀ t, wf t → P t.
Proof.
  intros HP. fix IH 2. intros _ [t Hg Hsh Hs]. apply HP; [done..|]. intros c n Hn.
  apply IH. by apply (Hs c n Hn).
Qed.

Lemma slot_new (v : A) c : slot (tnode_new v) c = None.
Proof. unfold slot. simpl. case_match eqn:Hc; [lia|done]. Qed.

Lemma wf_new v : good v → wf (tnode_new v).
Proof. intros Hv. constructor; [done|by constructor|]. intros c n. by rewrite slot_new. Qed.

Lemma wf_set_val v t : wf t → good v → wf (set_val v t).
Proof. intros [? _ Hsh Hs] Hv. constructor; [done|by destruct Hsh; econstructor|apply Hs]. Qed.

(** The node for a string, and what it holds. *)
Fixpoint node_at s t : option (tnode A) :=
  match s with
  | EmptyString => Some t
  | String c s => n ← slot t (byte_val c); node_at s n
  end.

Definition held s t : A := from_option val zero (node_at s t).

Lemma held_nil t : held "" t = val t.
Proof. done. Qed.

Lemma held_cons c s t : held (String c s) t = from_option (held s) zero (slot t (byte_val c)).
Proof. unfold held. simpl. by destruct (slot t (byte_val c)). Qed.

Lemma held_new s : held s (tnode_new zero) = zero.
Proof. destruct s as [|c s]; [done|]. by rewrite held_cons, slot_new. Qed.

Lemma held_good s t : good zero → wf t → good (held s t).
Proof.
  intros Hz. revert t. induction s as [|c s IH]; intros t Ht; [by destruct Ht|].
  rewrite held_cons. destruct (slot t (byte_val c)) eqn:Hs; [|done]. apply IH. by eapply wf_slot.
Qed.

(** Replacing the child for a byte. *)
Lemma wf_update c p t t' : wf t → shape t' → val t' = val t →
  (∀ c', slot t' c' = if decide (c' = c) then p else slot t c') →
  (∀ n, p = Some n → is_redundant n = false ∧ wf n) → wf t'.
Proof.
  intros [? Hg Ht Hs] Ht' Hv Hs' Hp. constructor; [by rewrite Hv|done|].
  intros c' n. rewrite Hs'. case_decide; [apply Hp|apply Hs].
Qed.

Lemma held_update ch s v t t' p : val t' = val t →
  (∀ c, slot t' c = if decide (c = byte_val ch) then p else slot t c) →
  (∀ s', from_option (held s') zero p = if decide (s' = s) then v else held (String ch s') t) →
  ∀ s', held s' t' = if decide (s' = String ch s) then v else held s' t.
Proof.
  intros Hv Hs Hp [|ch' s']; [by rewrite !held_nil, Hv|]. rewrite !held_cons, Hs.
  destruct (decide (byte_val ch' = byte_val ch)) as [He|Hne].
  - apply byte_val_inj in He as ->. rewrite Hp, held_cons.
    destruct (decide (s' = s)) as [->|]; [by rewrite decide_True|rewrite decide_False; congruence].
  - rewrite decide_False; congruence.
Qed.

Context (good_zero : good zero) (idle_zero : ∀ v, idle v = true ↔ v = zero).

Lemma redundant_held t s : shape t → is_redundant t = true → held s t = zero.
Proof.
  unfold is_redundant. intros Ht [Hi Hl]%andb_true_iff. destruct s as [|c s].
  - by apply idle_zero.
  - rewrite held_cons. destruct (slot t (byte_val c)) eqn:Hs; [|done].
    apply slot_range in Hs. destruct (shape_live _ Ht); lia.
Qed.

Section add.
Context (assert_live : tnode A → res unit) (f : A → bool * A).
Context (assert_ok : ∀ t, shape t → 0 < count t → assert_live t = Ok ()).

Lemma new_child_spec c t : opened c t → ∃ t',
  new_child assert_live c t = Ok t' ∧ shape t' ∧ val t' = val t ∧
  ∀ c', slot t' c' = if decide (c' = c) then Some (default (tnode_new zero) (slot t c)) else slot t c'.
Proof.
  intros Ht. unfold new_child. rewrite (opened_child _ _ Ht). cbn [mbind res_bind].
  destruct (slot t c) as [n|] eqn:Hs.
  - exists t. do 2 (split; [eauto using opened_shape|]). split; [done|]. intros c'. by case_decide; subst.
  - destruct (set_child_new c (tnode_new zero) t Ht Hs) as (t' & -> & Hl & Hsh & Hv & Hsl).
    cbn [mbind res_bind]. pose proof (opened_live _ _ Ht) as Hb. rewrite Hs in Hb. simpl in Hb.
    rewrite Hl, u16_small by lia. rewrite assert_ok; [by eexists|done|].
    pose proof (slot_range (set_live (live_nodes t + 1) t') c (tnode_new zero)) as Hr.
    rewrite Hsl, decide_True in Hr by done. specialize (Hr eq_refl). lia.
Qed.

(** [f] is applied at the prefix and nowhere else. *)
Lemma add_with_spec s t : wf t → good (f (held s t)).2 → idle (f (held s t)).2 = false → ∃ t',
  add_with assert_live f s t = Ok ((f (held s t)).1, t') ∧ wf t' ∧ is_redundant t' = false ∧
  ∀ s', held s' t' = if decide (s' = s) then (f (held s t)).2 else held s' t.
Proof.
  revert t. induction s as [|ch s IH]; intros t Ht Hg Hi.
  { rewrite held_nil in *. eexists. split; [done|]. split; [by apply wf_set_val|].
    split; [unfold is_redundant; cbn; by rewrite Hi|]. by intros []. }
  cbn [add_with]. destruct (extend_spec (byte_val ch) t (wf_shape _ Ht) (byte_val_range ch))
    as (t1 & -> & Ho & Hv1 & _ & Hs1). cbn [mbind res_bind].
  destruct (new_child_spec _ _ Ho) as (t2 & -> & Hsh2 & Hv2 & Hs2).
  cbn [mbind res_bind]. rewrite Hs1 in Hs2. set (n0 := default (tnode_new zero) _) in Hs2.
  assert (slot t2 (byte_val ch) = Some n0) as Hc2 by (rewrite Hs2; by rewrite decide_True).
  rewrite (opened_child _ _ (shape_opened _ _ _ Hsh2 Hc2)), Hc2. cbn [mbind res_bind].
  assert (wf n0) as Hn0.
  { subst n0. destruct (slot t (byte_val ch)) eqn:Hs; [by eapply wf_slot|by apply wf_new]. }
  assert (∀ s', held (String ch s') t = held s' n0) as Hrn0.
  { intros s'. rewrite held_cons. subst n0. destruct (slot t _); [done|]. by rewrite held_new. }
  rewrite Hrn0 in Hg, Hi |- *. destruct (IH n0 Hn0 Hg Hi) as (n' & -> & Hn' & Hred & Hrefs).
  cbn [mbind res_bind snd].
  destruct (set_child_again _ _ n' _ Hsh2 Hc2) as (t3 & -> & Hsh3 & Hv3 & Hl3 & Hs3).
  assert (∀ c', slot t3 c' = if decide (c' = byte_val ch) then Some n' else slot t c') as Hs.
  { intros c'. rewrite Hs3. case_decide; [done|]. rewrite Hs2, decide_False by done. by rewrite Hs1. }
  assert (val t3 = val t) as Hv by congruence.
  exists t3. split; [done|]. split; [|split].
  - apply (wf_update (byte_val ch) (Some n') t); [done..|]. by intros n [= <-].
  - apply andb_false_intro2. pose proof (slot_range t3 (byte_val ch) n') as Hsr.
    rewrite Hs, decide_True in Hsr by done. specialize (Hsr eq_refl).
    destruct (shape_live _ Hsh3) as [[Hc _]|Hc]; lia.
  - eapply held_update; [done..|]. intros s'. simpl. rewrite Hrefs. by rewrite Hrn0.
Qed.
End add.

Section rm.
Context (prune : Z → tnode A → res (tnode A)) (f : A → res (bool * A)).

(** What is asked of [prune]: it takes out the child for [c]. *)
Definition prune_ok : Prop := ∀ c n t, shape t → slot t c = Some n → ∃ t',
  prune c t = Ok t' ∧ shape t' ∧ val t' = val t ∧
  ∀ c', slot t' c' = if decide (c' = c) then None else slot t c'.

(** It does so for each layout. *)
Lemma prune_ok_cases :
  (∀ v m n, 0 ≤ m < 256 → ∃ t',
     prune m (TNode v m 1 1 (LNode (Some n))) = Ok t' ∧ shape t' ∧ val t' = v ∧ count t' = 0) →
  (∀ v m tb first last n i, 0 ≤ m → 2 ≤ Z.of_nat (length tb) → m + Z.of_nat (length tb) ≤ 256 →
     tb !! 0%nat = Some (Some first) → tb !! (length tb - 1)%nat = Some (Some last) →
     tb !! i = Some (Some n) → ∃ t',
     prune (m + Z.of_nat i) (TNode v m (Z.of_nat (length tb)) (live_count tb) (LTable tb)) = Ok t' ∧
     shape t' ∧ val t' = v ∧ ∀ c, slot t' c = table_slot m (<[i := None]> tb) c) →
  prune_ok.
Proof.
  intros Hone Htable c n t Ht Hs. pose proof (slot_range _ _ _ Hs) as Hr.
  destruct Ht as [|v m n0 Hm|v m tb n0 n1 Hm H2 H3 Hf Hl]; cbn [tmin count live_nodes val] in *.
  - lia.
  - assert (c = m) as -> by lia. destruct (Hone v m n0 Hm) as (t' & Hp & Hsh & Hv & Hc).
    exists t'. do 3 (split; [done|]). intros c'. rewrite slot_one. unfold slot. rewrite Hc.
    destruct (_ && _) eqn:?; [lia|]. by repeat case_decide.
  - rewrite slot_table, decide_True in Hs by lia.
    destruct (Htable v m tb n0 n1 n (Z.to_nat (c - m)) Hm H2 H3 Hf Hl) as (t' & Hp & Hsh & Hv & Hsl).
    { by apply mjoin_Some. }
    replace (m + Z.of_nat (Z.to_nat (c - m))) with c in Hp by lia.
    exists t'. do 3 (split; [done|]). intros c'. rewrite Hsl. by apply table_slot_clear.
Qed.

Lemma rm_with_in ch s t : 
  wf t → rm_with prune f (String ch s) t =
  match slot t (byte_val ch) with
  | None => Ok (false, t)
  | Some n =>
      r ← rm_with prune f s n;
      t ← set_child (byte_val ch) (Some r.2) t;
      t ← (if is_redundant r.2 then prune (byte_val ch) t else Ok t);
      Ok (r.1, t)
  end.
Proof.
  intros Ht. cbn [rm_with]. destruct (_ || _ || _) eqn:Ho.
  - destruct (slot t (byte_val ch)) eqn:Hs; [|done]. apply slot_range in Hs. lia.
  - rewrite (shape_child (byte_val ch) t (wf_shape _ Ht)) by lia. done.
Qed.

(** Nothing is there. *)
Lemma rm_with_absent s t : wf t → node_at s t = None → ∃ t',
  rm_with prune f s t = Ok (false, t') ∧ wf t' ∧ is_redundant t' = is_redundant t ∧
  ∀ s', held s' t' = held s' t.
Proof.
  revert t. induction s as [|ch s IH]; intros t Ht Hn; [done|]. rewrite (rm_with_in _ _ _ Ht).
  simpl in Hn. destruct (slot t (byte_val ch)) as [n|] eqn:Hs; [|by eexists]. simpl in Hn.
  destruct (wf_slot _ _ _ Ht Hs) as [Hr Hwn].
  destruct (IH n Hwn Hn) as (n' & -> & Hn' & Hr' & Hh). cbn [mbind res_bind snd].
  destruct (set_child_again _ _ n' _ (wf_shape _ Ht) Hs) as (t' & -> & Hsh & Hv & Hl & Hsl).
  cbn [mbind res_bind]. rewrite Hr', Hr. exists t'. split; [done|]. split.
  { apply (wf_update (byte_val ch) (Some n') t); [done..|]. intros ? [= <-]. by rewrite Hr'. }
  split; [unfold is_redundant; by rewrite Hv, Hl|]. intros [|c s']; [by rewrite !held_nil|].
  rewrite !held_cons, Hsl. case_decide as Hd; [|done]. apply byte_val_inj in Hd as ->.
  rewrite Hs. apply Hh.
Qed.

(** [f] is applied at the prefix; a node that holds nothing any more is pruned. *)
Lemma rm_with_spec s t n b v : prune_ok → wf t → node_at s t = Some n →
  f (val n) = Ok (b, v) → good v → ∃ t',
  rm_with prune f s t = Ok (b, t') ∧ wf t' ∧
  ∀ s', held s' t' = if decide (s' = s) then v else held s' t.
Proof.
  intros Hp Ht Hn Hf Hg. revert t Ht Hn. induction s as [|ch s IH]; intros t Ht Hn.
  { injection Hn as ->. cbn [rm_with]. rewrite Hf. eexists. split; [done|].
    split; [by apply wf_set_val|]. by intros []. }
  rewrite (rm_with_in _ _ _ Ht). simpl in Hn.
  destruct (slot t (byte_val ch)) as [n0|] eqn:Hs; [|done]. simpl in Hn.
  destruct (wf_slot _ _ _ Ht Hs) as [Hr Hwn].
  destruct (IH n0 Hwn Hn) as (n' & -> & Hn' & Hh). cbn [mbind res_bind snd].
  destruct (set_child_again _ _ n' _ (wf_shape _ Ht) Hs) as (t' & -> & Hsh & Hv' & Hl & Hsl).
  cbn [mbind res_bind].
  assert (∀ s', held (String ch s') t = held s' n0) as Hc by (intros s'; by rewrite held_cons, Hs).
  destruct (is_redundant n') eqn:Hred.
  - assert (slot t' (byte_val ch) = Some n') as Hs' by (rewrite Hsl; by rewrite decide_True).
    destruct (Hp _ _ _ Hsh Hs') as (t'' & -> & Hsh'' & Hv'' & Hsl''). exists t''. split; [done|].
    assert (∀ c, slot t'' c = if decide (c = byte_val ch) then None else slot t c) as Hsl3.
    { intros c. rewrite Hsl''. case_decide; [done|]. by rewrite Hsl, decide_False. }
    split; [by apply (wf_update (byte_val ch) None t); [done|done|congruence|done|]|].
    eapply held_update; [congruence|done|]. intros s'. simpl. rewrite Hc, <-Hh.
    symmetry. by apply redundant_held; [apply wf_shape|].
  - exists t'. split; [done|]. split.
    + apply (wf_update (byte_val ch) (Some n') t); [done..|]. by intros ? [= <-].
    + eapply held_update; [done..|]. intros s'. simpl. by rewrite Hc, Hh.
Qed.

(** A failure at the prefix. *)
Lemma rm_with_throw s t n e : wf t → node_at s t = Some n → f (val n) = Throw e →
  rm_with prune f s t = Throw e.
Proof.
  intros Ht Hn Hf. revert t Ht Hn. induction s as [|ch s IH]; intros t Ht Hn.
  { injection Hn as ->. cbn [rm_with]. by rewrite Hf. }
  rewrite (rm_with_in _ _ _ Ht). simpl in Hn.
  destruct (slot t (byte_val ch)) as [n0|] eqn:Hs; [|done]. simpl in Hn.
  rewrite IH; [done| |done]. by eapply wf_slot.
Qed.
End rm.

End trie.
