(* ===== verification/ZmqTrie.v ===== *)
(** * The subscriptions of a subscriber

    [zmq::trie_t] (zeromq-4.0.4/src/trie.cpp): a set of prefixes with the number
    of times each was subscribed to.  [check] is what decides whether a message
    that arrived is handed to the application. *)

From S2P Require Import Prelude Bytes ZmqNode.

(** A node holds its reference count, a [uint32_t]. *)
Abbreviation trie_t := (tnode Z).

Definition trie_new : trie_t := tnode_new 0.

Definition trie_is_redundant : trie_t → bool := is_redundant (λ refcnt, refcnt =? 0).

Definition trie_assert_live (t : trie_t) : res unit :=
  if count t =? 1 then zmq_assert "live_nodes == 1" (live_nodes t =? 1)
  else zmq_assert "live_nodes > 1" (1 <? live_nodes t).

(** Returns whether the prefix is new. *)
Definition trie_add : string → trie_t → res (bool * trie_t) :=
  add_with 0 trie_assert_live (λ refcnt, let refcnt := u32 (refcnt + 1) in (refcnt =? 1, refcnt)).

(** Pruning the redundant child for [c], and compacting the table. *)
Definition trie_prune (c : Z) (t : trie_t) : res trie_t :=
  let min := tmin t in
  _ ← zmq_assert "count > 0" (0 <? count t);
  if count t =? 1 then
    let live := u16 (live_nodes t - 1) in
    _ ← zmq_assert "live_nodes == 0" (live =? 0);
    Ok (TNode (val t) min 0 live (LNode None))
  else
    tb ← rd_table t;
    tb ← table_set tb (c - min) None;
    _ ← zmq_assert "live_nodes > 1" (1 <? live_nodes t);
    let live := u16 (live_nodes t - 1) in
    if live =? 1 then
      r ← (if c =? min then p ← table_get tb (count t - 1); Ok (p, u8 (min + (count t - 1)))
           else if c =? min + count t - 1 then p ← table_get tb 0; Ok (p, min)
           else Ok (None, min));
      _ ← zmq_assert "node" (bool_decide (is_Some r.1));
      Ok (TNode (val t) r.2 1 live (LNode r.1))
    else if c =? min then
      r ← first_live id (seqZ 1 (count t - 1)) tb;
      let new_min := if r is Some i then u8 (i + min) else min in
      _ ← zmq_assert "new_min != min" (negb (new_min =? min));
      _ ← zmq_assert "new_min > min" (min <? new_min);
      _ ← zmq_assert "count > new_min - min" (new_min - min <? count t);
      let count' := u16 (count t - (new_min - min)) in
      tb ← table_copy tb (new_min - min) count';
      Ok (TNode (val t) new_min count' live (LTable tb))
    else if c =? min + count t - 1 then
      r ← first_live (λ i, count t - 1 - i) (seqZ 1 (count t - 1)) tb;
      let new_count := if r is Some i then u16 (count t - i) else count t in
      _ ← zmq_assert "new_count != count" (negb (new_count =? count t));
      tb ← table_copy tb 0 new_count;
      Ok (TNode (val t) min new_count live (LTable tb))
    else Ok (TNode (val t) min (count t) live (LTable tb)).

(** Returns whether the prefix is gone. *)
Definition trie_rm : string → trie_t → res (bool * trie_t) :=
  rm_with (λ refcnt, refcnt =? 0) trie_prune (λ refcnt,
    if refcnt =? 0 then Ok (false, refcnt)
    else let refcnt := u32 (refcnt - 1) in Ok (refcnt =? 0, refcnt)).

(** Whether a subscription is a prefix of the data.  The single child is not
    tested for null. *)
Fixpoint trie_check (s : string) (t : trie_t) : res bool :=
  if negb (val t =? 0) then Ok true
  else
    match s with
    | EmptyString => Ok false
    | String ch s =>
        let c := byte_val ch in
        if (c <? tmin t) || (tmin t + count t <=? c) then Ok false
        else if count t =? 1 then
          p ← rd_node t;
          if p is Some n then trie_check s n else null_pointer
        else
          tb ← rd_table t;
          p ← table_get tb (c - tmin t);
          if p is Some n then trie_check s n else Ok false
    end.

(** ** Applying a function to all subscriptions

    The key of the current node is in a buffer that grows by [realloc].  Its cells
    are [None] before they are written; reading such a cell, and any access past
    the end, are undefined. *)

Abbreviation buff_t := (list (option ascii)).

Definition realloc (b : buff_t) (size : nat) : buff_t := take size b ++ replicate (size - length b) None.

Definition buff_write (b : buff_t) (i : nat) (c : Z) : res buff_t :=
  if decide (i < length b)%nat then Ok (<[i := Some (byte_of c)]> b)
  else Throw (UndefinedBehaviour "write past the end of a buffer").

(** What a callback reads from [data_, size_]. *)
Definition buff_read (b : buff_t) (size : nat) : res string :=
  match mapM id (take size b) with
  | Some l => if decide (length l = size) then Ok (foldr String EmptyString l)
              else Throw (UndefinedBehaviour "read past the end of a buffer")
  | None => Throw (UndefinedBehaviour "read of an indeterminate value")
  end.

Section apply.
Context {S : Type} (func : string → S → S).

(** The loop over a table, with [rec] the call on a child. *)
Definition apply_table (rec : trie_t → buff_t → S → res (buff_t * S)) (min : Z) (buffsize : nat) :=
  fix loop (k : nat) (c : Z) (tb : list (option trie_t)) (buff : buff_t) (arg : S) {struct tb} : res (buff_t * S) :=
    match k, tb with
    | O, _ => Ok (buff, arg)
    | Datatypes.S _, [] => Throw (UndefinedBehaviour "index of a table")
    | Datatypes.S k, p :: tb =>
        buff ← buff_write buff buffsize (u8 (min + c));
        r ← (if p is Some n then rec n buff arg else Ok (buff, arg));
        loop k (c + 1) tb r.1 r.2
    end.

Fixpoint apply_helper (t : trie_t) (buffsize maxbuffsize : nat) (buff : buff_t) (arg : S) {struct t} :
    res (buff_t * S) :=
  let 'TNode refcnt min count live_nodes next := t in
  arg ← (if refcnt =? 0 then Ok arg else d ← buff_read buff buffsize; Ok (func d arg));
  let grow := (maxbuffsize <=? buffsize)%nat in
  let maxbuffsize := if grow then (buffsize + 256)%nat else maxbuffsize in
  let buff := if grow then realloc buff maxbuffsize else buff in
  if count =? 0 then Ok (buff, arg)
  else if count =? 1 then
    buff ← buff_write buff buffsize min;
    match next with
    | LNode (Some n) => apply_helper n (buffsize + 1)%nat maxbuffsize buff arg
    | LNode None => null_pointer
    | LTable _ => Throw (UndefinedBehaviour "inactive member of a union")
    end
  else
    match next with
    | LNode _ => Throw (UndefinedBehaviour "inactive member of a union")
    | LTable tb =>
        apply_table (λ n, apply_helper n (buffsize + 1)%nat maxbuffsize) min buffsize (Z.to_nat count) 0 tb buff arg
    end.

Definition trie_apply (t : trie_t) (arg : S) : res S := snd <$> apply_helper t 0 0 [] arg.

End apply.

(** ** The invariant and what the operations do *)

Definition trie_wf : trie_t → Prop := wf (λ refcnt, refcnt =? 0) (λ refcnt, 0 ≤ refcnt < 2 ^ 32).

(** How many times a prefix is subscribed to. *)
Definition refs (s : string) (t : trie_t) : Z := held 0 s t.

Lemma trie_new_wf : trie_wf trie_new.
Proof. by apply wf_new. Qed.

Lemma refs_new s : refs s trie_new = 0.
Proof. apply held_new. Qed.

Lemma refs_range s t : trie_wf t → 0 ≤ refs s t < 2 ^ 32.
Proof. apply (held_good 0 _ (λ refcnt, 0 ≤ refcnt < 2 ^ 32)). lia. Qed.

Lemma trie_prune_table v m tb first last n i :
  0 ≤ m → 2 ≤ Z.of_nat (length tb) → m + Z.of_nat (length tb) ≤ 256 →
  tb !! 0%nat = Some (Some first) → tb !! (length tb - 1)%nat = Some (Some last) →
  tb !! i = Some (Some n) → ∃ t',
  trie_prune (m + Z.of_nat i) (TNode v m (Z.of_nat (length tb)) (live_count tb) (LTable tb)) = Ok t' ∧
  shape t' ∧ val t' = v ∧ ∀ c, slot t' c = table_slot m (<[i := None]> tb) c.
Proof.
  intros Hm H2 H3 Hf Hl Hi. unfold trie_prune. cbn [tmin count live_nodes val rd_table tnext].
  destruct (pruned_live m tb first last n i Hm H2 H3 Hf Hl Hi) as [Hlv Hlv'].
  pose proof (pruned_length tb i) as Hlen. pose proof (lookup_lt_Some _ _ _ Hi) as Hil.
  settle. replace (m + Z.of_nat i - m) with (Z.of_nat i) by lia. rewrite table_set_in, Nat2Z.id by lia.
  settle. rewrite u16_small, <-Hlv by lia.
  destruct (Z.eqb_spec (live_count (<[i:=None]> tb)) 1) as [H1|H1].
  - rewrite H1. destruct (pruned_one v m tb first last i Hm H2 H3 Hf Hl H1)
      as [(Hi0 & Hx & Hsh)|(Hi0 & Hin & Hx & Hsh)]; settle.
    + rewrite (table_get_Ok _ _ (Some last)) by (lia || (rewrite <-Hx; f_equal; lia)).
      settle. rewrite bool_decide_true, u8_small by (done || lia). eexists. split; [done|]. by destruct Hsh.
    + rewrite (table_get_Ok _ _ (Some first)) by done.
      settle. rewrite bool_decide_true by done. eexists. split; [done|]. by destruct Hsh.
  - destruct (decide (i = 0%nat)) as [Hi0|Hi0].
    { destruct (pruned_left v m tb first last n i Hm H2 H3 Hf Hl Hi Hi0 H1) as (j & Hj & -> & Hsh).
      settle. rewrite u8_small by lia. settle. rewrite u16_small by lia.
      replace (Z.of_nat j + m - m) with (Z.of_nat j) by lia.
      rewrite <-Nat2Z.inj_sub by lia. rewrite table_copy_Ok by lia.
      eexists. split; [done|]. rewrite (Z.add_comm _ m). by destruct Hsh. }
    destruct (decide (i = (length tb - 1)%nat)) as [Hie|Hie]; settle.
    { destruct (pruned_right v m tb first last n i Hm H2 H3 Hf Hl Hi Hie H1) as (j & Hj & -> & Hsh).
      settle. rewrite u16_small, <-Nat2Z.inj_sub by lia. settle.
      rewrite (table_copy_Ok _ 0) by lia. rewrite drop_0. eexists. split; [done|]. by destruct Hsh. }
    eexists. split; [done|].
    by destruct (pruned_middle v m tb first last n i Hm H2 H3 Hf Hl Hi Hi0 Hie).
Qed.

Lemma trie_prune_ok : prune_ok trie_prune.
Proof.
  apply prune_ok_cases; [|apply trie_prune_table].
  intros v m n Hm. eexists. split; [done|]. by split; [constructor|].
Qed.

Lemma trie_assert_ok t : shape t → 0 < count t → trie_assert_live t = Ok ().
Proof.
  intros Ht Hc. unfold trie_assert_live. destruct (shape_live _ Ht) as [?|[?|?]]; [lia|..]; by settle.
Qed.

Lemma idle_refcnt (r : Z) : (r =? 0) = true ↔ r = 0.
Proof. lia. Qed.

(** Adding a prefix counts it once more, and no other. *)
Lemma trie_add_spec s t : trie_wf t → refs s t < 2 ^ 32 - 1 → ∃ t',
  trie_add s t = Ok (bool_decide (refs s t = 0), t') ∧ trie_wf t' ∧
  ∀ s', refs s' t' = if decide (s' = s) then refs s t + 1 else refs s' t.
Proof.
  intros Ht Hr. pose proof (refs_range s t Ht) as Hr'. unfold trie_add.
  set (f := λ refcnt : Z, _). assert (f (refs s t) = (bool_decide (refs s t = 0), refs s t + 1)) as Hf.
  { subst f. cbv beta zeta. rewrite u32_small by lia. f_equal. case_bool_decide; lia. }
  destruct (add_with_spec 0 (λ refcnt, refcnt =? 0) (λ refcnt, 0 ≤ refcnt < 2 ^ 32) (conj (Z.le_refl 0) eq_refl)
    _ f trie_assert_ok s t Ht) as (t' & Ha & Hw & _ & Hh); fold (refs s t) in *; rewrite ?Hf in *; cbn [fst snd] in *; [lia..|].
  by exists t'.
Qed.

(** Removing a prefix counts it once less, when it is there. *)
Lemma trie_rm_spec s t : trie_wf t → ∃ t',
  trie_rm s t = Ok (bool_decide (refs s t = 1), t') ∧ trie_wf t' ∧
  ∀ s', refs s' t' = if decide (s' = s) then Z.max 0 (refs s t - 1) else refs s' t.
Proof.
  intros Ht. pose proof (refs_range s t Ht) as Hr'. unfold trie_rm.
  destruct (node_at s t) as [n|] eqn:Hn.
  - assert (refs s t = val n) as Hv by (unfold refs, held; by rewrite Hn).
    eapply rm_with_spec; [apply idle_refcnt|apply trie_prune_ok|done|done| |lia]. rewrite <-Hv.
    destruct (Z.eqb_spec (refs s t) 0) as [->|]; [done|]. rewrite u32_small by lia.
      do 2 f_equal; [|lia]. case_bool_decide; lia.
  - assert (refs s t = 0) as Hv by (unfold refs, held; by rewrite Hn).
    edestruct (rm_with_absent 0) as (t' & -> & Hw & _ & Hh); [done..|]. exists t'.
    rewrite Hv, bool_decide_false by done. do 2 (split; [done|]). intros s'.
    unfold refs. rewrite Hh. case_decide; [by subst|done].
Qed.

(** [check] follows the children. *)
Lemma trie_check_step ch s t : trie_wf t → val t = 0 →
  trie_check (String ch s) t = from_option (trie_check s) (Ok false) (slot t (byte_val ch)).
Proof.
  intros Ht Hv. cbn [trie_check]. rewrite Hv. cbn [Z.eqb negb].
  pose proof (wf_shape _ _ _ Ht) as Hsh. destruct (_ || _) eqn:Ho; [by rewrite slot_out by lia|].
  destruct (Z.eqb_spec (count t) 1) as [H1|H1].
  - destruct (shape_one_child (byte_val ch) t Hsh H1) as (n & -> & ->); [lia|done].
  - pose proof (shape_child (byte_val ch) t Hsh ltac:(lia)) as Hch. unfold child in Hch.
    revert Hch. settle. destruct (rd_table t); [|done]. cbn [mbind res_bind]. intros ->.
    by destruct (slot t (byte_val ch)).
Qed.

(** [check]: a prefix of the data is subscribed to. *)
Lemma trie_check_spec s t : trie_wf t → ∃ b,
  trie_check s t = Ok b ∧ (b = true ↔ ∃ p, is_prefix p s ∧ refs p t ≠ 0).
Proof.
  revert t. induction s as [|ch s IH]; intros t Ht.
  all: destruct (decide (val t = 0)) as [Hv|Hv];
    [|exists true; split; [cbn; by settle|]; split; [|done]; intros _; exists "";
      split; [apply is_prefix_nil|done]].
  - exists false. split; [cbn; by settle|]. split; [done|]. intros (p & ->%is_prefix_nil_r & Hp). done.
  - rewrite trie_check_step by done. destruct (slot t (byte_val ch)) as [n|] eqn:Hs; cbn [from_option].
    + destruct (IH n) as (b & Hb & Hp); [by eapply wf_slot|]. exists b. split; [done|]. rewrite Hp. split.
      * intros (p & Hpre & Hr). exists (String ch p). rewrite is_prefix_cons. split; [done|].
        unfold refs. by rewrite held_cons, Hs.
      * intros ([|c p] & Hpre & Hr); [done|]. apply is_prefix_cons in Hpre as [-> Hpre].
        exists p. split; [done|]. unfold refs in Hr. by rewrite held_cons, Hs in Hr.
    + exists false. split; [done|]. split; [done|].
      intros ([|c p] & Hpre & Hr); [done|]. apply is_prefix_cons in Hpre as [-> Hpre].
      unfold refs in Hr. by rewrite held_cons, Hs in Hr.
Qed.

(** ** The subscriptions that [apply] visits *)

Section apply_spec.
Context {S : Type} (func : string → S → S).
Implicit Types (b : buff_t) (st : S) (pre : list ascii).

(** The buffer starts with the key [pre]. *)
Definition starts_with b pre : Prop := take (length pre) b = Some <$> pre.

Definition key pre (s : string) : string := foldr String s pre.

Lemma buff_read_key b pre : starts_with b pre → buff_read b (length pre) = Ok (key pre "").
Proof.
  unfold starts_with, buff_read. intros ->. rewrite mapM_fmap_Some by done. by rewrite decide_True.
Qed.

Lemma buff_write_key b pre c : starts_with b pre → (length pre < length b)%nat →
  ∃ b', buff_write b (length pre) c = Ok b' ∧ starts_with b' (pre ++ [byte_of c]) ∧ length b' = length b.
Proof.
  unfold starts_with, buff_write. intros Hb Hl. rewrite decide_True by done. eexists. split; [done|].
  split; [|apply length_insert]. rewrite length_app, fmap_app, <-Hb. simpl.
  apply list_eq. intros i. destruct (decide (i < length pre + 1)%nat).
  - rewrite lookup_take_lt by lia. destruct (decide (i = length pre)) as [->|].
    + rewrite list_lookup_insert_eq by done. rewrite lookup_app_r; rewrite length_take; [|lia].
      by replace (length pre - length pre `min` length b)%nat with 0%nat by lia.
    + rewrite list_lookup_insert_ne by done. rewrite lookup_app_l by (rewrite length_take; lia).
      by rewrite lookup_take_lt by lia.
  - rewrite lookup_take_ge by lia. rewrite lookup_ge_None_2; [done|].
    rewrite length_app, length_take. simpl. lia.
Qed.

Lemma starts_with_app b pre pre' : starts_with b (pre ++ pre') → starts_with b pre.
Proof.
  unfold starts_with. rewrite length_app, fmap_app. intros Hb.
  apply (f_equal (take (length pre))) in Hb. rewrite take_take in Hb.
  rewrite Nat.min_l in Hb by lia. rewrite Hb. rewrite take_app_le by (rewrite length_fmap; lia).
  rewrite take_ge; [done|]. rewrite length_fmap. lia.
Qed.

Lemma realloc_key b pre n : starts_with b pre → (length pre ≤ n)%nat → (length pre ≤ length b)%nat →
  starts_with (realloc b n) pre ∧ length (realloc b n) = n.
Proof.
  unfold starts_with, realloc. intros Hb Hn Hl. split.
  - rewrite take_app_le by (rewrite length_take; lia). rewrite take_take. by rewrite Nat.min_l by lia.
  - rewrite length_app, length_take, length_replicate. lia.
Qed.

(** A visit of the subscriptions [l] below the key [pre]. *)
Definition visits (run : buff_t → S → res (buff_t * S)) pre (max : nat) (l : list string) : Prop :=
  ∀ b st, starts_with b pre → (length pre ≤ length b)%nat → (max ≤ length b)%nat → ∃ b',
    run b st = Ok (b', foldl (λ st s, func (key pre s) st) st l) ∧
    starts_with b' pre ∧ (length pre ≤ length b')%nat ∧ (max ≤ length b')%nat.

End apply_spec.

(** The subscriptions [l] of a trie, and that [apply] visits them in this order. *)
Definition applied (t : trie_t) (l : list string) : Prop :=
  NoDup l ∧ (∀ s, s ∈ l ↔ refs s t ≠ 0) ∧
  ∀ S (func : string → S → S) pre max,
    visits func (apply_helper func t (length pre) max) pre max l.

Lemma key_snoc pre c s : key (pre ++ [c]) s = key pre (String c s).
Proof. unfold key. by rewrite foldr_app. Qed.

Lemma foldl_key {S} (func : string → S → S) pre c l st :
  foldl (λ st s, func (key (pre ++ [c]) s) st) st l =
  foldl (λ st s, func (key pre s) st) st (String c <$> l).
Proof.
  revert st. induction l as [|s l IH]; intros st; [done|]. simpl. by rewrite key_snoc.
Qed.

(** Writing the byte of a child and visiting it. *)
Lemma visits_child {S} (func : string → S → S) n l pre max c : 0 ≤ c < 256 → (length pre < max)%nat →
  applied n l →
  visits func (λ b st, b ← buff_write b (length pre) c; apply_helper func n (length pre + 1) max b st)
    pre max (String (byte_of c) <$> l).
Proof.
  intros Hc Hmax (_ & _ & Hn) b st Hb Hl Hm.
  destruct (buff_write_key b pre c Hb) as (b1 & -> & Hb1 & Hl1); [lia|]. cbn [mbind res_bind].
  replace (length pre + 1)%nat with (length (pre ++ [byte_of c])) by (rewrite length_app; simpl; lia).
  destruct (Hn S func (pre ++ [byte_of c]) max b1 st) as (b2 & -> & Hb2 & Hl2 & Hm2).
  { done. } { rewrite length_app. simpl. lia. } { lia. }
  exists b2. rewrite foldl_key. split; [done|]. split; [by eapply starts_with_app|].
  rewrite length_app in Hl2. simpl in Hl2. lia.
Qed.

Lemma lookup_shift {A} (x : A) p (l : list A) m c : 0 ≤ m →
  m ≤ c ∧ (p :: l) !! Z.to_nat (c - m) = Some x ↔
  (c = m ∧ p = x) ∨ (m + 1 ≤ c ∧ l !! Z.to_nat (c - (m + 1)) = Some x).
Proof.
  intros Hm. destruct (decide (c = m)) as [->|Hc].
  - rewrite Z.sub_diag. simpl. split; [intros [_ [= ->]]; by left|]. intros [[_ ->]|[? _]]; [done|lia].
  - destruct (decide (m ≤ c)); [|split; lia].
    replace (Z.to_nat (c - m)) with (Datatypes.S (Z.to_nat (c - (m + 1)))) by lia. simpl.
    split; [intros [_ Hx]; right; split; [lia|done]|]. intros [[? _]|[_ ?]]; [lia|by split; [lia|]].
Qed.

(** The keys below a child. *)
Lemma elem_of_child_keys m (l : list string) s : 0 ≤ m < 256 →
  s ∈ String (byte_of m) <$> l ↔ ∃ ch s', s = String ch s' ∧ byte_val ch = m ∧ s' ∈ l.
Proof.
  intros Hm. rewrite list_elem_of_fmap. split.
  - intros (s' & -> & Hs'). exists (byte_of m), s'. by rewrite byte_val_of, Z.mod_small by lia.
  - intros (ch & s' & -> & <- & Hs'). exists s'. by rewrite byte_of_val.
Qed.

Lemma NoDup_child_keys m (l : list string) : NoDup l → NoDup (String (byte_of m) <$> l).
Proof. apply NoDup_fmap_2. by intros ?? [= ->]. Qed.

(** The visit of one entry of a table. *)
Lemma visits_entry p m : 0 ≤ m < 256 → (∀ n, p = Some n → ∃ l, applied n l) → ∃ l, NoDup l ∧
  (∀ s, s ∈ l ↔ ∃ ch s' n, s = String ch s' ∧ byte_val ch = m ∧ p = Some n ∧ refs s' n ≠ 0) ∧
  ∀ S (func : string → S → S) pre max, (length pre < max)%nat →
    visits func (λ b st, b ← buff_write b (length pre) (u8 m);
                   if p is Some n then apply_helper func n (length pre + 1) max b st else Ok (b, st)) pre max l.
Proof.
  intros Hm Hp. rewrite u8_small by lia. destruct p as [n|].
  - destruct (Hp n eq_refl) as (l & Hl). exists (String (byte_of m) <$> l).
    split; [apply NoDup_child_keys, Hl|]. split; [|intros; by apply visits_child].
    destruct Hl as (_ & Hin & _). intros s. rewrite elem_of_child_keys by done. setoid_rewrite Hin. naive_solver.
  - exists []. split; [constructor|]. split.
    + intros s. split; [intros []%elem_of_nil|]. by intros (ch & s' & n & _ & _ & ? & _).
    + intros S func pre max Hmax b st Hb Hl Hmb.
      destruct (buff_write_key b pre m Hb) as (b1 & -> & Hb1%starts_with_app & Hl1); [lia|].
      exists b1. rewrite Hl1. done.
Qed.

Lemma apply_table_visits tb m : 0 ≤ m → m + Z.of_nat (length tb) ≤ 256 →
  (∀ i n, tb !! i = Some (Some n) → ∃ l, applied n l) → ∃ l, NoDup l ∧
  (∀ s, s ∈ l ↔ ∃ ch s' n, s = String ch s' ∧ (m ≤ byte_val ch ∧
                  tb !! Z.to_nat (byte_val ch - m) = Some (Some n)) ∧ refs s' n ≠ 0) ∧
  ∀ S (func : string → S → S) pre max c, (length pre < max)%nat →
    visits func (apply_table (λ n, apply_helper func n (length pre + 1) max) (m - c) (length pre)
                   (length tb) c tb) pre max l.
Proof.
  revert m. induction tb as [|p tb IH]; intros m Hm Hl Hn.
  { exists []. split; [constructor|]. split.
    - intros s. split; [intros []%elem_of_nil|]. by intros (ch & s' & n & _ & [_ ?] & _).
    - intros S func pre max c _ b st ???. exists b. done. }
  simpl in Hl. destruct (IH (m + 1)) as (l & Hnd & Hin & Hv); [lia..|intros i; apply (Hn (S i))|].
  destruct (visits_entry p m) as (l0 & Hnd0 & Hin0 & Hv0); [lia|intros n ->; by apply (Hn 0%nat)|].
  exists (l0 ++ l). split; [|split].
  - apply NoDup_app. split; [done|]. split; [|done]. intros s (ch & s' & n & -> & Hc & _)%Hin0.
    intros (? & ? & ? & [= <- <-] & [? _] & _)%Hin. lia.
  - intros s. rewrite elem_of_app, Hin0, Hin. setoid_rewrite lookup_shift; [|done]. naive_solver.
  - intros S func pre max c Hmax b st Hb Hlb Hmb.
    destruct (Hv0 S func pre max Hmax b st Hb Hlb Hmb) as (b1 & Hr & Hb1 & Hl1 & Hm1).
    destruct (Hv S func pre max (c + 1) Hmax b1 (foldl (λ st s, func (key pre s) st) st l0) Hb1 Hl1 Hm1)
      as (b2 & Hr2 & Hb2).
    exists b2. split; [|done]. cbn [length apply_table]. replace (m - c + c) with m by lia.
    destruct (buff_write b (length pre) (u8 m)) as [b0|]; [|done]. cbn [mbind res_bind] in *.
    rewrite Hr. cbn [mbind res_bind fst snd]. rewrite foldl_app.
    replace (m + 1 - (c + 1)) with (m - c) in Hr2 by lia. apply Hr2.
Qed.

(** The children of a node. *)
Lemma children_visits t : shape t → (∀ c n, slot t c = Some n → ∃ l, applied n l) → ∃ l, NoDup l ∧
  (∀ s, s ∈ l ↔ ∃ ch s' n, s = String ch s' ∧ slot t (byte_val ch) = Some n ∧ refs s' n ≠ 0) ∧
  ∀ S (func : string → S → S) pre max, (length pre < max)%nat →
    visits func (λ b st,
      if count t =? 0 then Ok (b, st)
      else if count t =? 1 then
        b ← buff_write b (length pre) (tmin t);
        match tnext t with
        | LNode (Some n) => apply_helper func n (length pre + 1) max b st
        | LNode None => null_pointer
        | LTable _ => Throw (UndefinedBehaviour "inactive member of a union")
        end
      else
        match tnext t with
        | LNode _ => Throw (UndefinedBehaviour "inactive member of a union")
        | LTable tb => apply_table (λ n, apply_helper func n (length pre + 1) max)
                         (tmin t) (length pre) (Z.to_nat (count t)) 0 tb b st
        end) pre max l.
Proof.
  intros Hsh Hn. destruct Hsh as [v m nx Hm|v m n Hm|v m tb n n' Hm H2 H3 Hf Hl]; cbn [count tmin tnext].
  - exists []. split; [constructor|]. split.
    + intros s. split; [intros []%elem_of_nil|]. intros (ch & s' & n & _ & Hs%slot_range & _). cbn in Hs. lia.
    + intros S func pre max _ b st ???. by exists b.
  - destruct (visits_entry (Some n) m) as (l & Hnd & Hin & Hv); [done| |].
    { intros ? [= <-]. apply (Hn m). rewrite slot_one. by rewrite decide_True. }
    exists l. split; [done|]. split; [|by rewrite u8_small in Hv by lia].
    intros s. rewrite Hin. setoid_rewrite slot_one.
    split; intros (ch & s' & x & -> & Hx & Hy); exists ch, s', x.
    + destruct Hy as [? ?]. rewrite decide_True; done.
    + case_decide; naive_solver.
  - destruct (apply_table_visits tb m) as (l & Hnd & Hin & Hv); [lia..| |].
    { intros i x Hx. apply (Hn (m + Z.of_nat i)). rewrite slot_table, decide_True by lia.
      replace (Z.to_nat _) with i by lia. by rewrite Hx. }
    exists l. split; [done|]. split.
    + intros s. rewrite Hin. setoid_rewrite slot_table.
      split; intros (ch & s' & x & -> & Hx & Hy); exists ch, s', x.
      * destruct Hx as [Hx1 Hx2]. rewrite decide_True by done. by rewrite Hx2.
      * case_decide; [|done]. by apply mjoin_Some in Hx.
    + intros S func pre max Hmax. specialize (Hv S func pre max 0 Hmax).
      rewrite Z.sub_0_r in Hv. intros b. settle. rewrite Nat2Z.id. apply Hv.
Qed.

Lemma apply_helper_spec t : trie_wf t → ∃ l, applied t l.
Proof.
  revert t. apply wf_induct. intros t Hg Hsh IH.
  destruct (children_visits t Hsh IH) as (l & Hnd & Hin & Hv).
  exists ((if val t =? 0 then [] else [""]) ++ l). split; [|split].
  - destruct (val t =? 0); [done|]. constructor; [|done]. by intros (ch & s' & n & ? & _)%Hin.
  - intros s. rewrite elem_of_app, Hin. destruct s as [|ch s]; unfold refs.
    + rewrite held_nil. destruct (Z.eqb_spec (val t) 0); [|split; [done|]; left; by constructor].
      split; [|done]. by intros [[]%elem_of_nil|(ch & s' & n & ? & _)].
    + rewrite held_cons. split.
      * intros [Hs|(? & ? & n & [= <- <-] & -> & Hr)]; [|done].
        destruct (val t =? 0); [by apply elem_of_nil in Hs|by apply list_elem_of_singleton in Hs].
      * destruct (slot t (byte_val ch)) as [n|] eqn:Hs; [|done]. right. by exists ch, s, n.
  - intros S func pre max b st Hb Hl Hm. destruct t as [v m c lv nx]. cbn [apply_helper val] in *.
    rewrite foldl_app. set (st1 := foldl _ st (if v =? 0 then _ else _)).
    replace (if v =? 0 then Ok st else _) with (Ok st1);
      [|subst st1; destruct (v =? 0); [done|]; by rewrite buff_read_key by done].
    cbn [mbind res_bind]. clearbody st1. destruct (Nat.leb_spec max (length pre)) as [Hg'|Hg'].
    + destruct (realloc_key b pre (length pre + 256) Hb) as [Hb1 Hl1]; [lia..|].
      destruct (Hv S func pre (length pre + 256)%nat ltac:(lia) _ st1 Hb1) as (b' & Hr & Hb' & Hl'); [lia..|].
      exists b'. split; [apply Hr|]. split; [done|]. lia.
    + destruct (Hv S func pre max ltac:(lia) b st1 Hb) as (b' & Hr & Hb' & Hl'); [lia..|].
      exists b'. split; [apply Hr|]. done.
Qed.

(** [apply] calls the function once for each prefix that is subscribed to. *)
Lemma trie_apply_spec t : trie_wf t → ∃ l, NoDup l ∧ (∀ s, s ∈ l ↔ refs s t ≠ 0) ∧
  ∀ S (func : string → S → S) st, trie_apply func t st = Ok (foldl (λ st s, func s st) st l).
Proof.
  intros (l & Hnd & Hin & Hv)%apply_helper_spec. exists l. do 2 (split; [done|]). intros S func st.
  destruct (Hv S func [] 0%nat [] st) as (b & Hr & _); [done..|]. unfold trie_apply.
  simpl in Hr. by rewrite Hr.
Qed.

(** ** Against the list of subscriptions *)

Inductive trie_op := Sub (prefix : string) | Unsub (prefix : string).

(** What a caller sees of the trie: what the calls return. *)
Fixpoint trie_run (ops : list trie_op) (t : trie_t) : res (list bool * trie_t) :=
  match ops with
  | [] => Ok ([], t)
  | Sub s :: ops => '(b, t) ← trie_add s t; '(l, t) ← trie_run ops t; Ok (b :: l, t)
  | Unsub s :: ops => '(b, t) ← trie_rm s t; '(l, t) ← trie_run ops t; Ok (b :: l, t)
  end.

(** The same with a list of prefixes. *)
Definition occurrences (s : string) (l : list string) : nat := length (filter (λ x, x = s) l).

Fixpoint remove1 (s : string) (l : list string) : list string :=
  match l with
  | [] => []
  | x :: l => if decide (x = s) then l else x :: remove1 s l
  end.

Fixpoint list_run (ops : list trie_op) (l : list string) : list bool * list string :=
  match ops with
  | [] => ([], l)
  | Sub s :: ops => let '(bs, l') := list_run ops (s :: l) in (bool_decide (s ∉ l) :: bs, l')
  | Unsub s :: ops => let '(bs, l') := list_run ops (remove1 s l) in (bool_decide (occurrences s l = 1%nat) :: bs, l')
  end.

Definition represents (t : trie_t) (l : list string) : Prop := ∀ s, refs s t = Z.of_nat (occurrences s l).

Lemma occurrences_cons s x l : occurrences s (x :: l) = ((if decide (x = s) then 1 else 0) + occurrences s l)%nat.
Proof. unfold occurrences. rewrite filter_cons. by case_decide. Qed.

Lemma occurrences_0 s l : occurrences s l = 0%nat ↔ s ∉ l.
Proof.
  induction l as [|x l IH]; [split; [by intros _ ?%elem_of_nil|done]|].
  rewrite occurrences_cons, not_elem_of_cons, <-IH. case_decide; subst; split; [lia|by intros []|intros; split; [congruence|lia]|intros []; lia].
Qed.

Lemma occurrences_remove1 s s' l : occurrences s' (remove1 s l) =
  if decide (s' = s) then (occurrences s l - 1)%nat else occurrences s' l.
Proof.
  induction l as [|x l IH]; cbn [remove1]; [by case_decide|]. destruct (decide (x = s)) as [->|Hx].
  - rewrite !occurrences_cons. repeat case_decide; subst; try done; lia.
  - rewrite !occurrences_cons, IH. repeat case_decide; subst; try done; lia.
Qed.

Lemma remove1_length s l : (length (remove1 s l) ≤ length l)%nat.
Proof. induction l as [|x l IH]; cbn [remove1]; [done|]. case_decide; simpl; lia. Qed.

Lemma represents_length s t l : represents t l → refs s t ≤ Z.of_nat (length l).
Proof. intros Hr. rewrite Hr. unfold occurrences. apply Nat2Z.inj_le. apply length_filter. Qed.

Lemma trie_run_spec ops t l : trie_wf t → represents t l → Z.of_nat (length l + length ops) < 2 ^ 32 → ∃ t',
  trie_run ops t = Ok ((list_run ops l).1, t') ∧ trie_wf t' ∧ represents t' (list_run ops l).2.
Proof.
  revert t l. induction ops as [|[s|s] ops IH]; intros t l Ht Hr Hb; cbn [trie_run list_run]; [by exists t|..].
  - pose proof (represents_length s t l Hr). cbn [length] in Hb.
    destruct (trie_add_spec s t Ht) as (t1 & -> & Ht1 & Hr1); [lia|]. cbn [mbind res_bind].
    destruct (IH t1 (s :: l) Ht1) as (t2 & -> & Ht2 & Hr2); [|cbn [length]; lia|].
    { intros s'. rewrite Hr1, occurrences_cons, !Hr. repeat case_decide; subst; try done; lia. }
    cbn [mbind res_bind]. destruct (list_run ops (s :: l)) as [bs l']. exists t2. split; [|done].
    replace (bool_decide (refs s t = 0)) with (bool_decide (s ∉ l)); [done|].
    apply bool_decide_ext. rewrite Hr, <-occurrences_0. lia.
  - destruct (trie_rm_spec s t Ht) as (t1 & -> & Ht1 & Hr1). cbn [mbind res_bind]. cbn [length] in Hb.
    destruct (IH t1 (remove1 s l) Ht1) as (t2 & -> & Ht2 & Hr2); [|pose proof (remove1_length s l); lia|].
    { intros s'. rewrite Hr1, occurrences_remove1, !Hr. case_decide; [lia|done]. }
    cbn [mbind res_bind]. destruct (list_run ops (remove1 s l)) as [bs l']. exists t2. split; [|done].
    replace (bool_decide (refs s t = 1)) with (bool_decide (occurrences s l = 1%nat)); [done|].
    apply bool_decide_ext. rewrite Hr. lia.
Qed.

(** C20: the trie of a subscriber behaves like the list of its subscriptions: adding a prefix says
    whether it is new, removing one whether it was the last of its kind, a message matches when
    one of the prefixes in the list starts it, and applying a function visits every subscribed prefix
    once.  No call fails. *)
Theorem trie_refines (ops : list trie_op) (data : string) : Z.of_nat (length ops) < 2 ^ 32 → ∃ t,
  trie_run ops trie_new = Ok ((list_run ops []).1, t) ∧
  (∃ b, trie_check data t = Ok b ∧ (b = true ↔ ∃ p, p ∈ (list_run ops []).2 ∧ is_prefix p data)) ∧
  ∃ l, NoDup l ∧ (∀ s, s ∈ l ↔ s ∈ (list_run ops []).2) ∧
    ∀ S (func : string → S → S) st, trie_apply func t st = Ok (foldl (λ st s, func s st) st l).
Proof.
  intros Hb. destruct (trie_run_spec ops trie_new [] trie_new_wf) as (t & Hr & Ht & Hrep); [intros s; apply refs_new|simpl; lia|].
  assert (∀ s, refs s t ≠ 0 ↔ s ∈ (list_run ops []).2) as Hin.
  { intros s. rewrite Hrep. pose proof (occurrences_0 s (list_run ops []).2) as Hz.
    destruct (decide (s ∈ (list_run ops []).2)) as [Hs|Hs]; split; try done.
    - intros _ He. apply Hz; [lia|done].
    - intros He. destruct He. by rewrite (proj2 Hz Hs). }
  exists t. split; [done|]. split.
  - destruct (trie_check_spec data t Ht) as (b & Hc & Hbs). exists b. split; [done|]. rewrite Hbs.
    split; intros (p & H1 & H2); exists p; (split; [|done]) || (split; [done|]); by apply Hin.
  - destruct (trie_apply_spec t Ht) as (l & Hnd & Hl & Ha). exists l. split; [done|]. split; [|done].
    intros s. by rewrite Hl, Hin.
Qed.

Lemma trie_refines_witness : ∃ t,
  trie_run [Sub "a"; Sub "ab"; Sub "a"; Unsub "ab"; Unsub "a"] trie_new = Ok ([true; true; false; true; false], t) ∧
  (∃ b, trie_check "abc" t = Ok b ∧ (b = true ↔ ∃ p, p ∈ ["a"] ∧ is_prefix p "abc")) ∧
  ∃ l, NoDup l ∧ (∀ s, s ∈ l ↔ s ∈ ["a"]) ∧
    ∀ S (func : string → S → S) st, trie_apply func t st = Ok (foldl (λ st s, func s st) st l).
Proof. apply (trie_refines [Sub "a"; Sub "ab"; Sub "a"; Unsub "ab"; Unsub "a"] "abc"). simpl. lia. Defined.
