(* ===== verification/ZmqMtrie.v ===== *)
(** * The subscriptions a publisher knows of

    [zmq::mtrie_t] (zeromq-4.0.4/src/mtrie.cpp): for every prefix the set of the
    pipes, one per subscriber, that asked for it.  [match] finds the pipes that a
    message goes to. *)

From S2P Require Import Prelude Bytes ZmqNode ZmqTrie.

(** Pipes are pointers. *)
Abbreviation pipe_id := nat (only parsing).

(** A node holds a pointer to a set of pipes, null when there are none. *)
Abbreviation mtrie_t := (tnode (option (gset pipe_id))).

Definition mtrie_new : mtrie_t := tnode_new None.

Definition no_pipes (pipes : option (gset pipe_id)) : bool := if pipes is Some _ then false else true.

Definition mtrie_is_redundant : mtrie_t → bool := is_redundant no_pipes.

(** Iterating over an [std::set]. *)
Definition set_list (X : gset pipe_id) : list pipe_id := merge_sort le (elements X).

(** Returns whether nobody had subscribed to the prefix. *)
Definition mtrie_add (s : string) (pipe : pipe_id) (t : mtrie_t) : res (bool * mtrie_t) :=
  add_with None (λ _, Ok ())
    (λ pipes, (no_pipes pipes, Some ({[pipe]} ∪ default ∅ pipes))) s t.

(** Pruning the redundant child for [c]. *)
Definition mtrie_prune (c : Z) (t : mtrie_t) : res mtrie_t :=
  let min := tmin t in
  _ ← zmq_assert "count > 0" (0 <? count t);
  if count t =? 1 then
    let live := u16 (live_nodes t - 1) in
    _ ← zmq_assert "live_nodes == 0" (live =? 0);
    Ok (TNode (val t) min 0 live (LNode None))
  else
    tb ← rd_table t;
    tb ← table_set tb (c - min) None;
    _ ← zmq_assert "live_nodes > 1" (1 <? live_nodes t);
    let live := u16 (live_nodes t - 1) in
    if live =? 1 then
      r ← first_live id (seqZ 0 (count t)) tb;
      let i := default (count t) r in
      _ ← zmq_assert "i < count" (i <? count t);
      oldp ← table_get tb i;
      Ok (TNode (val t) (u8 (min + i)) 1 live (LNode oldp))
    else if c =? min then
      r ← first_live id (seqZ 1 (count t - 1)) tb;
      let i := default (count t) r in
      _ ← zmq_assert "i < count" (i <? count t);
      let count' := u16 (count t - i) in
      tb ← table_copy tb i count';
      Ok (TNode (val t) (u8 (min + i)) count' live (LTable tb))
    else if c =? min + count t - 1 then
      r ← first_live (λ i, count t - 1 - i) (seqZ 1 (count t - 1)) tb;
      let i := default (count t) r in
      _ ← zmq_assert "i < count" (i <? count t);
      let count' := u16 (count t - i) in
      tb ← table_copy tb 0 count';
      Ok (TNode (val t) min count' live (LTable tb))
    else Ok (TNode (val t) min (count t) live (LTable tb)).

(** Erasing a pipe from the set of a node.  The pipe has to be in it. *)
Definition mtrie_erase (pipe : pipe_id) (pipes : option (gset pipe_id)) : res (bool * option (gset pipe_id)) :=
  match pipes with
  | Some ps =>
      _ ← zmq_assert "erased == 1" (bool_decide (pipe ∈ ps));
      let ps := ps ∖ {[pipe]} in
      if decide (ps = ∅) then Ok (true, None) else Ok (false, Some ps)
  | None => Ok (true, None)
  end.

Definition mtrie_rm (s : string) (pipe : pipe_id) (t : mtrie_t) : res (bool * mtrie_t) :=
  rm_with no_pipes mtrie_prune (mtrie_erase pipe) s t.

(** The pipes that [match] signals, in order. *)
Fixpoint mtrie_match (s : string) (t : mtrie_t) : res (list pipe_id) :=
  let here := if val t is Some ps then set_list ps else [] in
  match s with
  | EmptyString => Ok here
  | String ch s =>
      let c := byte_val ch in
      if count t =? 0 then Ok here
      else if count t =? 1 then
        if negb (c =? tmin t) then Ok here
        else
          p ← rd_node t;
          match p with
          | Some n => r ← mtrie_match s n; Ok (here ++ r)
          | None => null_pointer
          end
      else if (c <? tmin t) || (tmin t + count t <=? c) then Ok here
      else
        tb ← rd_table t;
        p ← table_get tb (c - tmin t);
        match p with
        | Some n => r ← mtrie_match s n; Ok (here ++ r)
        | None => Ok here
        end
  end.

(** ** Removing a pipe from all prefixes

    [func] is called for the prefixes that nobody is subscribed to any more. *)

Section rm_pipe.
Context {S : Type} (func : string → S → S) (pipe : pipe_id).

(** [pipes && pipes->erase (pipe_) && pipes->empty ()] *)
Definition last_pipe (pipes : option (gset pipe_id)) : bool :=
  match pipes with
  | Some ps => bool_decide (pipe ∈ ps) && bool_decide (ps ∖ {[pipe]} = ∅)
  | None => false
  end.

Definition without_pipe (pipes : option (gset pipe_id)) : option (gset pipe_id) :=
  if last_pipe pipes then None else (λ ps, ps ∖ {[pipe]}) <$> pipes.

(** The state of the loop over a table: [live_nodes], [new_min], [new_max]. *)
Record rm_state := mkRm { rm_live : Z; new_min : Z; new_max : Z }.

(** An entry after the call on its node. *)
Definition rm_entry (b : Z) (n : mtrie_t) (r : rm_state) : res (option mtrie_t * rm_state) :=
  if mtrie_is_redundant n then
    _ ← zmq_assert "live_nodes > 0" (0 <? rm_live r);
    Ok (None, mkRm (u16 (rm_live r - 1)) (new_min r) (new_max r))
  else
    Ok (Some n, mkRm (rm_live r) (if b <? new_min r then u8 b else new_min r)
                  (if new_max r <? b then u8 b else new_max r)).

(** The loop over a table, with [rec] the call on a child. *)
Definition rm_table (rec : mtrie_t → buff_t → S → res (mtrie_t * buff_t * S)) (min : Z) (buffsize : nat) :=
  fix loop (k : nat) (c : Z) (tb : list (option mtrie_t)) (r : rm_state) (buff : buff_t) (arg : S)
      {struct tb} : res (list (option mtrie_t) * rm_state * buff_t * S) :=
    match k, tb with
    | O, _ => Ok (tb, r, buff, arg)
    | Datatypes.S _, [] => Throw (UndefinedBehaviour "index of a table")
    | Datatypes.S k, p :: tb =>
        buff ← buff_write buff buffsize (u8 (min + c));
        match p with
        | None =>
            '(tb, r, buff, arg) ← loop k (c + 1) tb r buff arg;
            Ok (None :: tb, r, buff, arg)
        | Some n =>
            '(n, buff, arg) ← rec n buff arg;
            '(p, r) ← rm_entry (c + min) n r;
            '(tb, r, buff, arg) ← loop k (c + 1) tb r buff arg;
            Ok (p :: tb, r, buff, arg)
        end
    end.

(** Compacting the table after the loop. *)
Definition rm_compact (pipes : option (gset pipe_id)) (min count : Z) (tb : list (option mtrie_t)) (r : rm_state) :
    res mtrie_t :=
  let live := rm_live r in
  _ ← zmq_assert "count > 1" (1 <? count);
  if live =? 0 then Ok (TNode pipes min 0 live (LNode None))
  else if live =? 1 then
    _ ← zmq_assert "new_min == new_max" (new_min r =? new_max r);
    _ ← zmq_assert "new_min >= min && new_min < min + count" ((min <=? new_min r) && (new_min r <? min + count));
    node ← table_get tb (new_min r - min);
    _ ← zmq_assert "node" (bool_decide (is_Some node));
    Ok (TNode pipes (new_min r) 1 live (LNode node))
  else if (min <? new_min r) || (new_max r <? min + count - 1) then
    _ ← zmq_assert "new_max - new_min + 1 > 1" (1 <? new_max r - new_min r + 1);
    _ ← zmq_assert "new_min >= min" (min <=? new_min r);
    _ ← zmq_assert "new_max <= min + count - 1" (new_max r <=? min + count - 1);
    _ ← zmq_assert "new_max - new_min + 1 < count" (new_max r - new_min r + 1 <? count);
    let count' := u16 (new_max r - new_min r + 1) in
    tb ← table_copy tb (new_min r - min) count';
    Ok (TNode pipes (new_min r) count' live (LTable tb))
  else Ok (TNode pipes min count live (LTable tb)).

Fixpoint rm_pipe_helper (t : mtrie_t) (buffsize maxbuffsize : nat) (buff : buff_t) (arg : S) {struct t} :
    res (mtrie_t * buff_t * S) :=
  let 'TNode pipes min count live next := t in
  arg ← (if last_pipe pipes then d ← buff_read buff buffsize; Ok (func d arg) else Ok arg);
  let pipes := without_pipe pipes in
  let grow := (maxbuffsize <=? buffsize)%nat in
  let maxbuffsize := if grow then (buffsize + 256)%nat else maxbuffsize in
  let buff := if grow then realloc buff maxbuffsize else buff in
  if count =? 0 then Ok (TNode pipes min count live next, buff, arg)
  else if count =? 1 then
    buff ← buff_write buff buffsize min;
    match next with
    | LNode (Some n) =>
        '(n, buff, arg) ← rm_pipe_helper n (buffsize + 1)%nat maxbuffsize buff arg;
        if mtrie_is_redundant n then
          _ ← zmq_assert "live_nodes == 0" (u16 (live - 1) =? 0);
          Ok (TNode pipes min 0 (u16 (live - 1)) (LNode None), buff, arg)
        else Ok (TNode pipes min count live (LNode (Some n)), buff, arg)
    | LNode None => null_pointer
    | LTable _ => Throw (UndefinedBehaviour "inactive member of a union")
    end
  else
    match next with
    | LNode _ => Throw (UndefinedBehaviour "inactive member of a union")
    | LTable tb =>
        '(tb, r, buff, arg) ←
          rm_table (λ n, rm_pipe_helper n (buffsize + 1)%nat maxbuffsize) min buffsize (Z.to_nat count) 0 tb
            (mkRm live (u8 (min + count - 1)) min) buff arg;
        t ← rm_compact pipes min count tb r;
        Ok (t, buff, arg)
    end.

Definition mtrie_rm_pipe (t : mtrie_t) (arg : S) : res (mtrie_t * S) :=
  '(t, _, arg) ← rm_pipe_helper t 0 0 [] arg; Ok (t, arg).

End rm_pipe.

(** ** The invariant and what the operations do *)

(** A set that is there is not empty. *)
Definition some_pipes (pipes : option (gset pipe_id)) : Prop := pipes ≠ Some ∅.

Definition mtrie_wf : mtrie_t → Prop := wf no_pipes some_pipes.

(** The pipes that subscribed to a prefix. *)
Definition subs (s : string) (t : mtrie_t) : gset pipe_id := default ∅ (held None s t).

Lemma no_pipes_None pipes : no_pipes pipes = true ↔ pipes = None.
Proof. by destruct pipes. Qed.

Lemma mtrie_new_wf : mtrie_wf mtrie_new.
Proof. by apply wf_new. Qed.

Lemma subs_new s : subs s mtrie_new = ∅.
Proof. unfold subs, mtrie_new. by rewrite held_new. Qed.

(** What a node holds is determined by its set. *)
Definition of_set (X : gset pipe_id) : option (gset pipe_id) := if decide (X = ∅) then None else Some X.

Lemma held_subs s t : mtrie_wf t → held None s t = of_set (subs s t).
Proof.
  intros Ht. unfold subs, of_set.
  pose proof (held_good None no_pipes some_pipes s t ltac:(done) Ht) as Hg.
  destruct (held None s t) as [X|]; simpl; [|done]. case_decide; [by subst|done].
Qed.

Lemma default_of_set X : default ∅ (of_set X) = X.
Proof. unfold of_set. by case_decide. Qed.

Lemma subs_update s s' t t' o : held None s' t' = (if decide (s' = s) then o else held None s' t) →
  subs s' t' = if decide (s' = s) then default ∅ o else subs s' t.
Proof. unfold subs. intros ->. by case_decide. Qed.

Lemma mtrie_prune_table v m tb first last n i :
  0 ≤ m → 2 ≤ Z.of_nat (length tb) → m + Z.of_nat (length tb) ≤ 256 →
  tb !! 0%nat = Some (Some first) → tb !! (length tb - 1)%nat = Some (Some last) →
  tb !! i = Some (Some n) → ∃ t',
  mtrie_prune (m + Z.of_nat i) (TNode v m (Z.of_nat (length tb)) (live_count tb) (LTable tb)) = Ok t' ∧
  shape t' ∧ val t' = v ∧ ∀ c, slot t' c = table_slot m (<[i := None]> tb) c.
Proof.
  intros Hm H2 H3 Hf Hl Hi. unfold mtrie_prune. cbn [tmin count live_nodes val rd_table tnext].
  destruct (pruned_live m tb first last n i Hm H2 H3 Hf Hl Hi) as [Hlv Hlv'].
  pose proof (pruned_length tb i) as Hlen. pose proof (lookup_lt_Some _ _ _ Hi) as Hil.
  settle. replace (m + Z.of_nat i - m) with (Z.of_nat i) by lia. rewrite table_set_in, Nat2Z.id by lia.
  settle. rewrite u16_small, <-Hlv by lia.
  destruct (Z.eqb_spec (live_count (<[i:=None]> tb)) 1) as [H1|H1].
  - rewrite H1. destruct (first_live_spec id 0 (Z.of_nat (length tb)) (<[i:=None]> tb)) as ([j|] & -> & Hj);
      [unfold id; lia| |].
    + destruct Hj as (Hj & [x Hx] & _). unfold id in Hx. cbn [default mbind res_bind from_option id]. settle.
      rewrite (table_get_Ok _ _ (Some x)) by (lia || done). settle. rewrite u8_small by lia.
      destruct (shape_single v m (<[i:=None]> tb) (Z.to_nat j) x) as [Hs Hc]; [lia|lia|done|done|].
      rewrite Z2Nat.id in Hs, Hc by lia. by eexists.
    + exfalso. enough (live_count (<[i:=None]> tb) = 0) by lia. apply live_count_none. intros k.
      destruct (decide (k < length tb)%nat).
      * specialize (Hj (Z.of_nat k) ltac:(lia)). unfold id in Hj. by rewrite Nat2Z.id in Hj.
      * by rewrite lookup_ge_None_2 by lia.
  - destruct (decide (i = 0%nat)) as [Hi0|Hi0].
    { destruct (pruned_left v m tb first last n i Hm H2 H3 Hf Hl Hi Hi0 H1) as (j & Hj & -> & Hsh).
      cbn [default mbind res_bind from_option id]. settle. rewrite u8_small, u16_small by lia.
      rewrite <-Nat2Z.inj_sub by lia. rewrite table_copy_Ok by lia. eexists. split; [done|]. by destruct Hsh. }
    destruct (decide (i = (length tb - 1)%nat)) as [Hie|Hie]; settle.
    { destruct (pruned_right v m tb first last n i Hm H2 H3 Hf Hl Hi Hie H1) as (j & Hj & -> & Hsh).
      cbn [default mbind res_bind from_option id]. settle. rewrite u16_small, <-Nat2Z.inj_sub by lia.
      rewrite (table_copy_Ok _ 0) by lia. rewrite drop_0. eexists. split; [done|]. by destruct Hsh. }
    eexists. split; [done|].
    by destruct (pruned_middle v m tb first last n i Hm H2 H3 Hf Hl Hi Hi0 Hie).
Qed.

Lemma mtrie_prune_ok : prune_ok mtrie_prune.
Proof.
  apply prune_ok_cases; [|apply mtrie_prune_table].
  intros v m n Hm. eexists. split; [done|]. by split; [constructor|].
Qed.

(** Subscribing adds the pipe to the prefix, and nothing else. *)
Lemma mtrie_add_spec s p t : mtrie_wf t → ∃ t',
  mtrie_add s p t = Ok (bool_decide (subs s t = ∅), t') ∧ mtrie_wf t' ∧
  ∀ s', subs s' t' = if decide (s' = s) then {[p]} ∪ subs s t else subs s' t.
Proof.
  intros Ht. unfold mtrie_add. set (f := λ pipes : option (gset pipe_id), _).
  destruct (add_with_spec None no_pipes some_pipes ltac:(done) _ f ltac:(done) s t Ht)
    as (t' & -> & Hw & _ & Hh).
  { subst f. simpl. intros [= Hx]. set_solver. } { done. }
  exists t'. split; [|split; [done|]].
  - subst f. simpl. do 2 f_equal. rewrite held_subs by done. unfold of_set.
    by case_decide; case_bool_decide.
  - intros s'. rewrite (subs_update s s' t t' _ (Hh s')). done.
Qed.

Lemma difference_singleton (X : gset pipe_id) p : p ∈ X → X ∖ {[p]} = ∅ ↔ X = {[p]}.
Proof.
  intros Hp. split; [|intros ->; set_solver]. intros He. apply set_eq. intros x.
  destruct (decide (x = p)) as [->|]; [set_solver|]. split; [|set_solver].
  intros Hx. assert (x ∈ X ∖ {[p]}) by set_solver. set_solver.
Qed.

(** Unsubscribing a pipe that had subscribed. *)
Lemma mtrie_rm_spec s p t : mtrie_wf t → p ∈ subs s t → ∃ t',
  mtrie_rm s p t = Ok (bool_decide (subs s t = {[p]}), t') ∧ mtrie_wf t' ∧
  ∀ s', subs s' t' = if decide (s' = s) then subs s t ∖ {[p]} else subs s' t.
Proof.
  intros Ht Hp. destruct (node_at s t) as [n|] eqn:Hn; last first.
  { unfold subs, held in Hp. rewrite Hn in Hp. set_solver. }
  assert (held None s t = val n) as Hv by (unfold held; by rewrite Hn).
  rewrite held_subs in Hv by done.
  destruct (rm_with_spec None no_pipes some_pipes no_pipes_None mtrie_prune (mtrie_erase p) s t n
    (bool_decide (subs s t = {[p]})) (of_set (subs s t ∖ {[p]})) mtrie_prune_ok Ht Hn) as (t' & Hr & Hw & Hh).
  - rewrite <-Hv. unfold of_set at 1. rewrite decide_False by set_solver. simpl.
    rewrite bool_decide_true by done. simpl. unfold of_set.
    destruct (decide (subs s t ∖ {[p]} = ∅)) as [He|He]; do 2 f_equal; symmetry.
    + apply bool_decide_true. by apply difference_singleton.
    + apply bool_decide_false. by rewrite <-difference_singleton.
  - unfold some_pipes, of_set. case_decide; congruence.
  - exists t'. do 2 (split; [done|]). intros s'. rewrite (subs_update s s' t t' _ (Hh s')).
    by rewrite default_of_set.
Qed.

(** Unsubscribing from a prefix that nobody subscribed to changes no subscription. *)
Lemma mtrie_rm_unknown s p t : mtrie_wf t → subs s t = ∅ → ∃ b t',
  mtrie_rm s p t = Ok (b, t') ∧ mtrie_wf t' ∧ ∀ s', subs s' t' = subs s' t.
Proof.
  intros Ht Hs. pose proof (held_subs s t Ht) as Hh0. rewrite Hs in Hh0.
  destruct (node_at s t) as [n|] eqn:Hn.
  - assert (held None s t = val n) as Hv by (unfold held; by rewrite Hn).
    destruct (rm_with_spec None no_pipes some_pipes no_pipes_None mtrie_prune (mtrie_erase p) s t n
      true None mtrie_prune_ok Ht Hn) as (t' & Hr & Hw & Hh); [by rewrite <-Hv, Hh0|done|].
    exists true, t'. do 2 (split; [done|]). intros s'. rewrite (subs_update s s' t t' _ (Hh s')).
    case_decide; [by subst|done].
  - destruct (rm_with_absent None no_pipes some_pipes mtrie_prune (mtrie_erase p) s t Ht Hn)
      as (t' & Hr & Hw & _ & Hh). exists false, t'. do 2 (split; [done|]). intros s'. unfold subs. by rewrite Hh.
Qed.

(** Unsubscribing from a prefix that only others subscribed to aborts the process. *)
Lemma mtrie_rm_aborts s p t : mtrie_wf t → p ∉ subs s t → subs s t ≠ ∅ →
  mtrie_rm s p t = Throw (Aborted "erased == 1").
Proof.
  intros Ht Hp Hs. destruct (node_at s t) as [n|] eqn:Hn; last first.
  { unfold subs, held in Hs. by rewrite Hn in Hs. }
  eapply rm_with_throw; [done..|]. assert (held None s t = val n) as <- by (unfold held; by rewrite Hn).
  rewrite held_subs by done. unfold of_set. rewrite decide_False by done. simpl.
  by rewrite bool_decide_false.
Qed.

(** [match] follows the children. *)
Definition here (t : mtrie_t) : list pipe_id := if val t is Some ps then set_list ps else [].

Lemma mtrie_match_step ch s t : mtrie_wf t →
  mtrie_match (String ch s) t =
  match slot t (byte_val ch) with
  | Some n => r ← mtrie_match s n; Ok (here t ++ r)
  | None => Ok (here t)
  end.
Proof.
  intros Ht. cbn [mtrie_match]. fold (here t). pose proof (wf_shape _ _ _ Ht) as Hsh.
  destruct (Z.eqb_spec (count t) 0) as [?|H0]; [by rewrite slot_out by lia|].
  destruct (Z.eqb_spec (count t) 1) as [H1|H1].
  - destruct (Z.eqb_spec (byte_val ch) (tmin t)) as [Hc|Hc]; cbn [negb].
    + destruct (shape_one_child (byte_val ch) t Hsh H1) as (n & -> & ->); [lia|done].
    + by rewrite slot_out by lia.
  - destruct (_ || _) eqn:Ho; [by rewrite slot_out by lia|].
    pose proof (shape_child (byte_val ch) t Hsh ltac:(lia)) as Hch. unfold child in Hch.
    revert Hch. settle. destruct (rd_table t); [|done]. cbn [mbind res_bind]. intros ->.
    by destruct (slot t (byte_val ch)).
Qed.

Lemma elem_of_set_list p X : p ∈ set_list X ↔ p ∈ X.
Proof. unfold set_list. by rewrite merge_sort_Permutation, elem_of_elements. Qed.

Lemma elem_of_here p t : p ∈ here t ↔ p ∈ subs "" t.
Proof.
  unfold here, subs. rewrite held_nil. destruct (val t); [apply elem_of_set_list|]. simpl. set_solver.
Qed.

(** [match] signals the pipes whose prefixes the message has. *)
Lemma mtrie_match_spec s t : mtrie_wf t → ∃ l, mtrie_match s t = Ok l ∧
  ∀ p, p ∈ l ↔ ∃ pre, is_prefix pre s ∧ p ∈ subs pre t.
Proof.
  revert t. induction s as [|ch s IH]; intros t Ht.
  { exists (here t). split; [done|]. intros p. rewrite elem_of_here. split.
    - intros Hp. exists "". split; [apply is_prefix_nil|done].
    - by intros (pre & ->%is_prefix_nil_r & Hp). }
  assert (∀ p, (∃ pre, is_prefix pre (String ch s) ∧ p ∈ subs pre t) ↔
    p ∈ here t ∨ ∃ pre, is_prefix pre s ∧ p ∈ subs (String ch pre) t) as Hgo.
  { intros p. rewrite elem_of_here. split.
    - intros ([|c pre] & Hpre & Hp); [by left|]. apply is_prefix_cons in Hpre as [-> Hpre]. eauto.
    - intros [Hp|(pre & Hpre & Hp)]; [exists ""; split; [apply is_prefix_nil|done]|].
      exists (String ch pre). by rewrite is_prefix_cons. }
  rewrite mtrie_match_step by done. setoid_rewrite Hgo. unfold subs. setoid_rewrite held_cons.
  destruct (slot t (byte_val ch)) as [n|] eqn:Hs; simpl.
  - destruct (IH n) as (l & -> & Hl); [by eapply wf_slot|]. eexists. split; [done|]. intros p.
    by rewrite elem_of_app, Hl.
  - eexists. split; [done|]. intros p. set_solver.
Qed.

(** ** Removing a pipe *)

Section rm_pipe_spec.
Context (pipe : pipe_id).

(** A traversal that calls [func] on the keys [l] below [pre] and returns [x]. *)
Definition visits_to {S X} (func : string → S → S) (run : buff_t → S → res (X * buff_t * S))
    (pre : list ascii) (max : nat) (l : list string) (x : X) : Prop :=
  ∀ b st, starts_with b pre → (length pre ≤ length b)%nat → (max ≤ length b)%nat → ∃ b',
    run b st = Ok (x, b', foldl (λ st s, func (key pre s) st) st l) ∧
    starts_with b' pre ∧ (length pre ≤ length b')%nat ∧ (max ≤ length b')%nat.

(** The trie [t'] is [t] without the pipe, the prefixes [l] lost their last pipe. *)
Definition removed (t t' : mtrie_t) (l : list string) : Prop :=
  NoDup l ∧ (∀ s, s ∈ l ↔ subs s t = {[pipe]}) ∧
  mtrie_wf t' ∧ (∀ s, subs s t' = subs s t ∖ {[pipe]}) ∧
  ∀ S (func : string → S → S) pre max,
    visits_to func (rm_pipe_helper func pipe t (length pre) max) pre max l t'.

(** A child before and after. *)
Definition entry_ok (p p' : option mtrie_t) : Prop :=
  match p, p' with
  | None, None => True
  | Some n, Some n' => mtrie_is_redundant n' = false ∧ mtrie_wf n' ∧ ∀ s, subs s n' = subs s n ∖ {[pipe]}
  | Some n, None => ∀ s, subs s n ∖ {[pipe]} = ∅
  | None, Some _ => False
  end.

(** The least and the greatest byte with a child. *)
Fixpoint range_of (m : Z) (tb : list (option mtrie_t)) (lo hi : Z) : Z * Z :=
  match tb with
  | [] => (lo, hi)
  | None :: tb => range_of (m + 1) tb lo hi
  | Some _ :: tb => range_of (m + 1) tb (Z.min m lo) (Z.max m hi)
  end.

Lemma range_of_spec m tb lo hi :
  let '(lo', hi') := range_of m tb lo hi in
  lo' ≤ lo ∧ hi ≤ hi' ∧
  (∀ i n, tb !! i = Some (Some n) → lo' ≤ m + Z.of_nat i ≤ hi') ∧
  (lo' = lo ∨ ∃ i n, tb !! i = Some (Some n) ∧ lo' = m + Z.of_nat i) ∧
  (hi' = hi ∨ ∃ i n, tb !! i = Some (Some n) ∧ hi' = m + Z.of_nat i).
Proof.
  revert m lo hi. induction tb as [|p tb IH]; intros m lo hi; [simpl; split_and!; try done; by left|].
  cbn [range_of]. set (lo1 := if p is Some _ then Z.min m lo else lo).
  set (hi1 := if p is Some _ then Z.max m hi else hi).
  assert (match p with None => range_of (m + 1) tb lo hi
          | Some _ => range_of (m + 1) tb (Z.min m lo) (Z.max m hi) end = range_of (m + 1) tb lo1 hi1)
    as -> by (by destruct p).
  specialize (IH (m + 1) lo1 hi1). destruct (range_of (m + 1) tb lo1 hi1) as [lo' hi'].
  destruct IH as (Hlo & Hhi & Hall & Hl & Hh). split_and!.
  - destruct p; lia.
  - destruct p; lia.
  - intros [|i] n Hn; simpl in Hn.
    + injection Hn as ->. lia.
    + specialize (Hall i n Hn). lia.
  - destruct Hl as [->|(i & n & Hn & ->)]; [|right; exists (Datatypes.S i), n; split; [done|lia]].
    subst lo1. destruct p as [n|]; [|by left]. destruct (decide (m < lo)); [|left; lia].
    right. exists 0%nat, n. split; [done|lia].
  - destruct Hh as [->|(i & n & Hn & ->)]; [|right; exists (Datatypes.S i), n; split; [done|lia]].
    subst hi1. destruct p as [n|]; [|by left]. destruct (decide (hi < m)); [|left; lia].
    right. exists 0%nat, n. split; [done|lia].
Qed.

Lemma live_count_ex {A} (tb : list (option (tnode A))) : live_count tb ≠ 0 → ∃ i n, tb !! i = Some (Some n).
Proof.
  intros Hl. induction tb as [|[n|] tb IH]; [done|by exists 0%nat, n|].
  destruct IH as (i & n & Hi); [by rewrite live_count_cons in Hl|]. by exists (Datatypes.S i), n.
Qed.

Lemma range_of_live m tb : live_count tb ≠ 0 →
  let '(lo, hi) := range_of m tb (m + Z.of_nat (length tb) - 1) m in ∃ (a b : nat) x y,
  lo = m + Z.of_nat a ∧ hi = m + Z.of_nat b ∧ (a ≤ b)%nat ∧
  tb !! a = Some (Some x) ∧ tb !! b = Some (Some y) ∧
  ∀ i, (i < a ∨ a + (b - a + 1) ≤ i)%nat → mjoin (tb !! i) = None.
Proof.
  intros H0. pose proof (range_of_spec m tb (m + Z.of_nat (length tb) - 1) m) as Hr.
  destruct (range_of m tb _ m) as [lo hi]. destruct Hr as (Hlo & Hhi & Hall & Hlo' & Hhi').
  destruct (live_count_ex tb H0) as (i & n & Hi). pose proof (lookup_lt_Some _ _ _ Hi) as Hil.
  pose proof (Hall i n Hi) as Hb.
  assert (∃ (a : nat) x, tb !! a = Some (Some x) ∧ lo = m + Z.of_nat a) as (a & x & Ha & ->).
  { destruct Hlo' as [->|]; [|naive_solver]. exists i, n. split; [done|lia]. }
  assert (∃ (b : nat) x, tb !! b = Some (Some x) ∧ hi = m + Z.of_nat b) as (b & y & Hb' & ->).
  { destruct Hhi' as [->|]; [|naive_solver]. exists i, n. split; [done|lia]. }
  exists a, b, x, y. do 2 (split; [done|]). split; [lia|]. do 2 (split; [done|]).
  intros j Hj. destruct (tb !! j) as [[z|]|] eqn:Hz; [|done..]. specialize (Hall j z Hz). lia.
Qed.

(** The table is compacted to the range. *)
Lemma rm_compact_spec v m tb :
  0 ≤ m → 2 ≤ Z.of_nat (length tb) → m + Z.of_nat (length tb) ≤ 256 →
  let '(lo, hi) := range_of m tb (m + Z.of_nat (length tb) - 1) m in ∃ t',
  rm_compact v m (Z.of_nat (length tb)) tb (mkRm (live_count tb) lo hi) = Ok t' ∧
  shape t' ∧ val t' = v ∧ ∀ c, slot t' c = table_slot m tb c.
Proof.
  intros Hm H2 H3. pose proof (range_of_live m tb) as Hr. pose proof (live_count_nonneg tb) as Hl.
  destruct (range_of m tb _ m) as [lo hi]. unfold rm_compact. cbn [rm_live new_min new_max].
  destruct (decide (live_count tb = 0)) as [H0|H0].
  { settle. rewrite H0. eexists. split; [done|]. split; [by constructor; lia|]. split; [done|].
    intros c. rewrite slot_out by (cbn; lia). unfold table_slot. case_decide; [|done].
    destruct (tb !! _) as [[n|]|] eqn:Hn; [|done..]. apply live_count_pos in Hn. lia. }
  destruct (Hr H0) as (a & b & x & y & -> & -> & Hab & Ha & Hb & Hout).
  pose proof (lookup_lt_Some _ _ _ Hb) as Hbl.
  destruct (decide (live_count tb = 1)) as [H1|H1].
  - destruct (decide (a = b)) as [->|Hne]; [|pose proof (live_count_two _ _ _ _ _ Ha Hb Hne); lia].
    settle. rewrite (table_get_Ok _ _ (Some y)) by (lia || (rewrite <-Hb; f_equal; lia)).
    settle. rewrite bool_decide_true by done. rewrite H1. eexists. split; [done|].
    by destruct (shape_single v m tb b y Hm H3 H1 Hb).
  - assert (a ≠ b) as Hne.
    { intros ->. destruct (shape_window v m tb b 1 y y) as [Hs _]; [lia|lia|lia|lia| | | |].
      - intros i Hi. apply Hout. lia.
      - done.
      - rewrite <-Hb. f_equal. lia.
      - apply shape_live in Hs. cbn in Hs. lia. }
    destruct (shape_window v m tb a (b - a + 1) x y) as [Hs Hc];
      [lia|lia|lia|lia|done|done|rewrite <-Hb; f_equal; lia|].
    settle. destruct (decide (a = 0%nat ∧ b = (length tb - 1)%nat)) as [[-> ->]|Hnab]; settle.
    + rewrite drop_0, take_ge in Hs, Hc by lia. rewrite Z.add_0_r in Hs, Hc.
      replace (Z.of_nat (length tb - 1 - 0 + 1)) with (Z.of_nat (length tb)) in Hs, Hc by lia. by eexists.
    + replace ((m <? m + Z.of_nat a) || _) with true by lia. settle. rewrite u16_small by lia.
      replace (m + Z.of_nat a - m) with (Z.of_nat a) by lia.
      replace (m + Z.of_nat b - (m + Z.of_nat a) + 1) with (Z.of_nat (b - a + 1)) by lia.
      rewrite table_copy_Ok by lia. by eexists.
Qed.

(** Writing the byte of a child and the call on it. *)
Lemma visits_to_child {S} (func : string → S → S) n n' l pre max m : 0 ≤ m < 256 → (length pre < max)%nat →
  removed n n' l →
  visits_to func (λ b st, b ← buff_write b (length pre) m; rm_pipe_helper func pipe n (length pre + 1) max b st)
    pre max (String (byte_of m) <$> l) n'.
Proof.
  intros Hm Hmax (_ & _ & _ & _ & Hn) b st Hb Hl Hmb.
  destruct (buff_write_key b pre m Hb) as (b1 & -> & Hb1 & Hl1); [lia|]. cbn [mbind res_bind].
  replace (length pre + 1)%nat with (length (pre ++ [byte_of m])) by (rewrite length_app; simpl; lia).
  destruct (Hn S func (pre ++ [byte_of m]) max b1 st) as (b2 & -> & Hb2 & Hl2 & Hm2).
  { done. } { rewrite length_app. simpl. lia. } { lia. }
  exists b2. rewrite foldl_key. split; [done|]. split; [by eapply starts_with_app|].
  rewrite length_app in Hl2. simpl in Hl2. lia.
Qed.

(** The loop state after an entry. *)
Definition rm_step (m : Z) (p p' : option mtrie_t) (r : rm_state) : rm_state :=
  mkRm (rm_live r - live1 p + live1 p') (if p' is Some _ then Z.min m (new_min r) else new_min r)
    (if p' is Some _ then Z.max m (new_max r) else new_max r).

(** What a call does to the entry of a table. *)
Lemma rm_entry_spec m n n' l : 0 ≤ m < 256 → removed n n' l → ∃ p, entry_ok (Some n) p ∧
  ∀ r, 1 ≤ rm_live r ≤ 256 → rm_entry m n' r = Ok (p, rm_step m (Some n) p r).
Proof.
  intros Hm (_ & _ & Hwf & Hs & _). unfold rm_entry. destruct (mtrie_is_redundant n') eqn:Hred.
  - exists None. split.
    + intros s. rewrite <-Hs. unfold subs.
      by rewrite (redundant_held None no_pipes) by (try done; apply no_pipes_None || by eapply wf_shape).
    + intros r Hr. settle. rewrite u16_small by lia. unfold rm_step. simpl. by rewrite Z.add_0_r.
  - exists (Some n'). split; [done|]. intros r Hr. rewrite u8_small by lia. unfold rm_step.
    do 2 f_equal. simpl. f_equal; [lia|..].
    + destruct (Z.ltb_spec m (new_min r)); lia.
    + destruct (Z.ltb_spec (new_max r) m); lia.
Qed.

(** The turn of the loop for one entry. *)
Lemma visits_to_entry p m : 0 ≤ m < 256 → (∀ n, p = Some n → ∃ n' l, removed n n' l) → ∃ p' l,
  entry_ok p p' ∧ NoDup l ∧
  (∀ s, s ∈ l ↔ ∃ ch s' n, s = String ch s' ∧ byte_val ch = m ∧ p = Some n ∧ subs s' n = {[pipe]}) ∧
  ∀ S (func : string → S → S) pre max r, (length pre < max)%nat → live1 p ≤ rm_live r ≤ 256 →
    visits_to func (λ b st, b ← buff_write b (length pre) (u8 m);
      match p with
      | None => Ok (None, r, b, st)
      | Some n =>
          '(n, b, st) ← rm_pipe_helper func pipe n (length pre + 1) max b st;
          '(p, r) ← rm_entry m n r;
          Ok (p, r, b, st)
      end) pre max l (p', rm_step m p p' r).
Proof.
  intros Hm Hp. rewrite u8_small by lia. destruct p as [n|].
  - destruct (Hp n eq_refl) as (n' & l & Hl). destruct (rm_entry_spec m n n' l Hm Hl) as (p' & Hok & Hent).
    exists p', (String (byte_of m) <$> l). split; [done|]. split; [apply NoDup_child_keys, Hl|]. split.
    + destruct Hl as (_ & Hin & _). intros s. rewrite elem_of_child_keys by done. setoid_rewrite Hin.
      split; [intros (ch & s' & -> & Hc & Hs); by exists ch, s', n|].
      intros (ch & s' & ? & -> & Hc & [= <-] & Hs). by exists ch, s'.
    + intros S func pre max r Hmax Hr b st Hb Hlb Hmb.
      destruct (visits_to_child func n n' l pre max m Hm Hmax Hl b st Hb Hlb Hmb) as (b' & Hrun & Hb').
      exists b'. split; [|done]. destruct (buff_write b (length pre) m); [|done].
      cbn [mbind res_bind] in *. rewrite Hrun. cbn [mbind res_bind]. by rewrite Hent.
  - exists None, []. split; [done|]. split; [constructor|]. split.
    + intros s. split; [intros []%elem_of_nil|]. by intros (ch & s' & n & _ & _ & ? & _).
    + intros S func pre max r Hmax _ b st Hb Hl Hmb.
      destruct (buff_write_key b pre m Hb) as (b1 & -> & Hb1%starts_with_app & Hl1); [lia|].
      exists b1. rewrite Hl1. split; [|done]. cbn [mbind res_bind]. unfold rm_step.
      destruct r. simpl. do 4 f_equal. f_equal. lia.
Qed.

Definition rm_result (m : Z) (tb tb' : list (option mtrie_t)) (r : rm_state) : rm_state :=
  let '(lo, hi) := range_of m tb' (new_min r) (new_max r) in
  mkRm (rm_live r - live_count tb + live_count tb') lo hi.

Lemma rm_result_cons m p p' tb tb' r :
  rm_result m (p :: tb) (p' :: tb') r = rm_result (m + 1) tb tb' (rm_step m p p' r).
Proof.
  unfold rm_result, rm_step. cbn [range_of new_min new_max rm_live]. rewrite !live_count_cons.
  destruct p'; case_match; f_equal; lia.
Qed.

Lemma rm_table_spec tb m : 0 ≤ m → m + Z.of_nat (length tb) ≤ 256 →
  (∀ i n, tb !! i = Some (Some n) → ∃ n' l, removed n n' l) → ∃ tb' l, Forall2 entry_ok tb tb' ∧ NoDup l ∧
  (∀ s, s ∈ l ↔ ∃ ch s' n, s = String ch s' ∧ (m ≤ byte_val ch ∧
                  tb !! Z.to_nat (byte_val ch - m) = Some (Some n)) ∧ subs s' n = {[pipe]}) ∧
  ∀ S (func : string → S → S) pre max c r, (length pre < max)%nat → live_count tb ≤ rm_live r ≤ 256 →
    visits_to func (rm_table (λ n, rm_pipe_helper func pipe n (length pre + 1) max) (m - c) (length pre)
                   (length tb) c tb r) pre max l (tb', rm_result m tb tb' r).
Proof.
  revert m. induction tb as [|p tb IH]; intros m Hm Hl Hn.
  { exists [], []. split; [constructor|]. split; [constructor|]. split.
    - intros s. split; [intros []%elem_of_nil|]. by intros (ch & s' & n & _ & [_ ?] & _).
    - intros S func pre max c r _ _ b st ???. exists b. split; [|done]. unfold rm_result. simpl.
      destruct r. simpl. do 4 f_equal. f_equal. lia. }
  simpl in Hl. destruct (IH (m + 1)) as (tb' & l & Hfa & Hnd & Hin & Hv); [lia..|intros i; apply (Hn (S i))|].
  destruct (visits_to_entry p m) as (p' & l0 & Hok & Hnd0 & Hin0 & Hv0); [lia|intros n ->; by apply (Hn 0%nat)|].
  exists (p' :: tb'), (l0 ++ l). split; [by constructor|]. split; [|split].
  - apply NoDup_app. split; [done|]. split; [|done]. intros s (ch & s' & n & -> & Hc & _)%Hin0.
    intros (? & ? & ? & [= <- <-] & [? _] & _)%Hin. lia.
  - intros s. rewrite elem_of_app, Hin0, Hin. setoid_rewrite lookup_shift; [|done]. naive_solver.
  - intros S func pre max c r Hmax Hr b st Hb Hlb Hmb. rewrite live_count_cons in Hr.
    pose proof (live_count_nonneg tb).
    destruct (Hv0 S func pre max r Hmax ltac:(lia) b st Hb Hlb Hmb) as (b1 & Hr1 & Hb1 & Hl1 & Hm1).
    destruct (Hv S func pre max (c + 1) (rm_step m p p' r) Hmax) with (b := b1)
      (st := foldl (λ st s, func (key pre s) st) st l0) as (b2 & Hr2 & Hb2); [|done..|].
    { destruct p, p'; simpl in *; lia. }
    exists b2. split; [|done]. cbn [length rm_table]. replace (m - c + c) with m by lia.
    replace (c + (m - c)) with m by lia. replace (m + 1 - (c + 1)) with (m - c) in Hr2 by lia.
    rewrite foldl_app, rm_result_cons. destruct (buff_write b (length pre) (u8 m)) as [b0|]; [|done].
    cbn [mbind res_bind] in *. destruct p as [n|].
    + destruct (rm_pipe_helper func pipe n (length pre + 1) max b0 st) as [[[n' b3] st3]|]; [|done].
      cbn [mbind res_bind] in *. destruct (rm_entry m n' r) as [[p3 r3]|]; [|done].
      cbn [mbind res_bind] in *. injection Hr1 as -> -> -> ->. by rewrite Hr2.
    + injection Hr1 as <- Hstep Hbb Hst. rewrite <-Hst, <-Hstep, <-Hbb in Hr2.
      by rewrite Hr2, <-Hst, <-Hstep.
Qed.

Lemma without_pipe_set X : without_pipe pipe (of_set X) = of_set (X ∖ {[pipe]}).
Proof.
  unfold without_pipe, of_set. destruct (decide (X = ∅)) as [->|HX].
  { simpl. by rewrite decide_True by set_solver. }
  simpl. destruct (decide (X ∖ {[pipe]} = ∅)) as [He|He].
  - rewrite (bool_decide_true (_ = ∅)) by done. rewrite bool_decide_true; [done|].
    destruct (decide (pipe ∈ X)); [done|]. exfalso. apply HX. set_solver.
  - rewrite (bool_decide_false (_ = ∅)) by done. by rewrite andb_false_r.
Qed.

Lemma last_pipe_set X : last_pipe pipe (of_set X) = bool_decide (X = {[pipe]}).
Proof.
  unfold of_set. destruct (decide (X = ∅)) as [->|HX]; simpl.
  { rewrite bool_decide_false; [done|]. set_solver. }
  destruct (decide (pipe ∈ X)) as [Hp|Hp].
  - rewrite (bool_decide_true (pipe ∈ X)) by done. apply bool_decide_ext. by apply difference_singleton.
  - rewrite (bool_decide_false (pipe ∈ X)) by done. symmetry. apply bool_decide_false. set_solver.
Qed.

Lemma val_subs t : some_pipes (val t) → val t = of_set (subs "" t).
Proof.
  unfold subs, some_pipes, of_set. rewrite held_nil. intros Hg. destruct (val t); simpl; [|done].
  case_decide; [by subst|done].
Qed.

(** From the children to the node. *)
Lemma removed_node t t' : some_pipes (val t) → shape t' → val t' = without_pipe pipe (val t) →
  (∀ c, entry_ok (slot t c) (slot t' c)) →
  mtrie_wf t' ∧ ∀ s, subs s t' = subs s t ∖ {[pipe]}.
Proof.
  intros Hg Hsh Hv Hs. rewrite (val_subs t Hg), without_pipe_set in Hv. split.
  - constructor; [|done|].
    + rewrite Hv. unfold some_pipes, of_set. case_decide; congruence.
    + intros c n Hn. specialize (Hs c). rewrite Hn in Hs. by destruct (slot t c); [|done]; destruct Hs as (? & ? & _).
  - intros [|ch s]; unfold subs at 1.
    + rewrite held_nil, Hv. apply default_of_set.
    + unfold subs. rewrite !held_cons. specialize (Hs (byte_val ch)).
      destruct (slot t (byte_val ch)) as [n|], (slot t' (byte_val ch)) as [n'|]; simpl in *.
      * apply Hs.
      * symmetry. apply Hs.
      * done.
      * set_solver.
Qed.

Lemma entry_ok_table m tb tb' c : Forall2 entry_ok tb tb' → entry_ok (table_slot m tb c) (table_slot m tb' c).
Proof.
  intros Hfa. unfold table_slot. case_decide; [|done].
  destruct (tb !! _) as [p|] eqn:Hp.
  - destruct (Forall2_lookup_l _ _ _ _ _ Hfa Hp) as (p' & -> & Hok). done.
  - rewrite lookup_ge_None_2; [done|]. apply lookup_ge_None in Hp. by rewrite <-(Forall2_length _ _ _ Hfa).
Qed.

(** The part of [rm_helper] that is about the children. *)
Definition rm_children {S} (func : string → S → S) (pipes : option (gset pipe_id)) (t : mtrie_t)
    (buffsize max : nat) (b : buff_t) (st : S) : res (mtrie_t * buff_t * S) :=
  if count t =? 0 then Ok (TNode pipes (tmin t) (count t) (live_nodes t) (tnext t), b, st)
  else if count t =? 1 then
    b ← buff_write b buffsize (tmin t);
    match tnext t with
    | LNode (Some n) =>
        '(n, b, st) ← rm_pipe_helper func pipe n (buffsize + 1)%nat max b st;
        if mtrie_is_redundant n then
          _ ← zmq_assert "live_nodes == 0" (u16 (live_nodes t - 1) =? 0);
          Ok (TNode pipes (tmin t) 0 (u16 (live_nodes t - 1)) (LNode None), b, st)
        else Ok (TNode pipes (tmin t) (count t) (live_nodes t) (LNode (Some n)), b, st)
    | LNode None => null_pointer
    | LTable _ => Throw (UndefinedBehaviour "inactive member of a union")
    end
  else
    match tnext t with
    | LNode _ => Throw (UndefinedBehaviour "inactive member of a union")
    | LTable tb =>
        '(tb, r, b, st) ←
          rm_table (λ n, rm_pipe_helper func pipe n (buffsize + 1)%nat max) (tmin t) buffsize
            (Z.to_nat (count t)) 0 tb (mkRm (live_nodes t) (u8 (tmin t + count t - 1)) (tmin t)) b st;
        t ← rm_compact pipes (tmin t) (count t) tb r;
        Ok (t, b, st)
    end.

Lemma rm_children_spec t v : shape t → (∀ c n, slot t c = Some n → ∃ n' l, removed n n' l) → ∃ t' l,
  shape t' ∧ val t' = v ∧ (∀ c, entry_ok (slot t c) (slot t' c)) ∧ NoDup l ∧
  (∀ s, s ∈ l ↔ ∃ ch s' n, s = String ch s' ∧ slot t (byte_val ch) = Some n ∧ subs s' n = {[pipe]}) ∧
  ∀ S (func : string → S → S) pre max, (length pre < max)%nat →
    visits_to func (rm_children func v t (length pre) max) pre max l t'.
Proof.
  intros Hsh Hn. destruct Hsh as [v0 m nx Hm|v0 m n Hm|v0 m tb n n' Hm H2 H3 Hf Hl].
  - exists (TNode v m 0 0 nx), []. split; [by constructor|]. split; [done|].
    split; [intros c; by rewrite !slot_out by (cbn; lia)|]. split; [constructor|]. split.
    + intros s. split; [intros []%elem_of_nil|]. intros (ch & s' & n & _ & Hs%slot_range & _). cbn in Hs. lia.
    + intros S func pre max _ b st ???. by exists b.
  - destruct (Hn m n) as (n' & l & Hrem); [by rewrite slot_one, decide_True|].
    pose proof Hrem as (Hnd & Hin & Hwf & Hs & _).
    exists (if mtrie_is_redundant n' then TNode v m 0 0 (LNode None) else TNode v m 1 1 (LNode (Some n'))),
      (String (byte_of m) <$> l).
    split; [by case_match; constructor|]. split; [by case_match|]. split; [|split; [by apply NoDup_child_keys|]; split].
    + intros c. rewrite slot_one. destruct (mtrie_is_redundant n') eqn:Hred.
      * rewrite slot_out by (cbn; lia). case_decide; [|done]. intros s. rewrite <-Hs. unfold subs.
        by rewrite (redundant_held None no_pipes) by (try done; apply no_pipes_None || by eapply wf_shape).
      * rewrite slot_one. by case_decide.
    + intros s. rewrite elem_of_child_keys by done. setoid_rewrite Hin. setoid_rewrite slot_one.
      split.
      * intros (ch & s' & -> & Hc & Hp). exists ch, s', n. by rewrite decide_True.
      * intros (ch & s' & x & -> & Hc & Hp). exists ch, s'. case_decide; by simplify_eq.
    + intros S func pre max Hmax b st Hb Hlb Hmb.
      destruct (visits_to_child func n n' l pre max m Hm Hmax Hrem b st Hb Hlb Hmb) as (b' & Hrun & Hb').
      exists b'. split; [|done]. unfold rm_children. cbn [count tmin tnext live_nodes]. settle.
      destruct (buff_write b (length pre) m); [|done]. cbn [mbind res_bind] in *. rewrite Hrun.
      cbn [mbind res_bind]. by destruct (mtrie_is_redundant n').
  - destruct (rm_table_spec tb m) as (tb' & l & Hfa & Hnd & Hin & Hv); [lia..| |].
    { intros i x Hx. apply (Hn (m + Z.of_nat i)). rewrite slot_table, decide_True by lia.
      replace (Z.to_nat _) with i by lia. by rewrite Hx. }
    pose proof (Forall2_length _ _ _ Hfa) as Hlen.
    pose proof (rm_compact_spec v m tb' Hm ltac:(lia) ltac:(lia)) as Hc.
    assert (rm_result m tb tb' (mkRm (live_count tb) (m + Z.of_nat (length tb) - 1) m) =
      let '(lo, hi) := range_of m tb' (m + Z.of_nat (length tb') - 1) m in mkRm (live_count tb') lo hi) as Hres.
    { unfold rm_result. cbn [rm_live new_min new_max]. rewrite Hlen. case_match. f_equal. lia. }
    destruct (range_of m tb' _ m) as [lo hi]. destruct Hc as (t' & Hc & Hsh & Hv' & Hsl).
    exists t', l. do 2 (split; [done|]). split; [|split; [done|]; split].
    + intros c. rewrite Hsl, slot_table. by apply entry_ok_table.
    + intros s. rewrite Hin. setoid_rewrite slot_table.
      split; intros (ch & s' & x & -> & Hx & Hy); exists ch, s', x.
      * destruct Hx as [Hx1 Hx2]. rewrite decide_True by done. by rewrite Hx2.
      * case_decide; [|done]. by apply mjoin_Some in Hx.
    + intros S func pre max Hmax b st Hb Hlb Hmb. unfold rm_children. cbn [count tmin tnext live_nodes]. settle.
      rewrite u8_small by lia. pose proof (live_count_nonneg tb).
      destruct (Hv S func pre max 0 (mkRm (live_count tb) (m + Z.of_nat (length tb) - 1) m) Hmax
        ltac:(cbn; lia) b st Hb Hlb Hmb) as (b' & Hrun & Hb').
      exists b'. split; [|done]. rewrite Z.sub_0_r in Hrun. rewrite Nat2Z.id, Hrun. cbn [mbind res_bind].
      rewrite Hres. rewrite <-Hlen in Hc. by rewrite Hc.
Qed.

Lemma rm_pipe_helper_spec t : mtrie_wf t → ∃ t' l, removed t t' l.
Proof.
  revert t. apply wf_induct. intros t Hg Hsh IH.
  destruct (rm_children_spec t (without_pipe pipe (val t)) Hsh IH) as (t' & l & Hsh' & Hv' & Hok & Hnd & Hin & Hrun).
  destruct (removed_node t t' Hg Hsh' Hv' Hok) as [Hwf Hs].
  exists t', ((if last_pipe pipe (val t) then [""] else []) ++ l).
  pose proof (last_pipe_set (subs "" t)) as Hlast. rewrite <-(val_subs t Hg) in Hlast. split; [|split].
  - destruct (last_pipe pipe (val t)); [|done]. constructor; [|done]. by intros (ch & s' & n & ? & _)%Hin.
  - intros s. rewrite elem_of_app, Hin. destruct s as [|ch s].
    + rewrite Hlast. case_bool_decide as Hd; [split; [done|left; by constructor]|].
      split; [|done]. by intros [[]%elem_of_nil|(ch & s' & n & ? & _)].
    + unfold subs at 2. rewrite held_cons. split.
      * intros [Hs'|(? & ? & n & [= <- <-] & -> & Hp)]; [|done].
        destruct (last_pipe _ _); [by apply list_elem_of_singleton in Hs'|by apply elem_of_nil in Hs'].
      * destruct (slot t (byte_val ch)) as [n|] eqn:Hn; [|simpl; set_solver].
        intros Hp. right. by exists ch, s, n.
  - do 2 (split; [done|]). intros S func pre max b st Hb Hl Hm.
    destruct t as [v m c lv nx]. cbn [rm_pipe_helper val] in *. rewrite foldl_app.
    set (st1 := foldl _ st (if last_pipe _ _ then _ else _)).
    replace (if last_pipe pipe v then _ else Ok st) with (Ok st1);
      [|subst st1; destruct (last_pipe pipe v); [|done]; by rewrite buff_read_key by done].
    cbn [mbind res_bind]. clearbody st1. destruct (Nat.leb_spec max (length pre)) as [Hg'|Hg'].
    + destruct (realloc_key b pre (length pre + 256) Hb) as [Hb1 Hl1]; [lia..|].
      destruct (Hrun S func pre (length pre + 256)%nat ltac:(lia) _ st1 Hb1) as (b' & Hr & Hb' & Hl'); [lia..|].
      exists b'. split; [apply Hr|]. split; [done|]. lia.
    + destruct (Hrun S func pre max ltac:(lia) b st1 Hb) as (b' & Hr & Hb' & Hl'); [lia..|].
      exists b'. split; [apply Hr|]. done.
Qed.

(** A pipe that is gone has no subscriptions; the function is called for the
    prefixes that only it was subscribed to. *)
Lemma mtrie_rm_pipe_spec t : mtrie_wf t → ∃ t' l, mtrie_wf t' ∧ (∀ s, subs s t' = subs s t ∖ {[pipe]}) ∧
  NoDup l ∧ (∀ s, s ∈ l ↔ subs s t = {[pipe]}) ∧
  ∀ S (func : string → S → S) st, mtrie_rm_pipe func pipe t st = Ok (t', foldl (λ st s, func s st) st l).
Proof.
  intros (t' & l & Hnd & Hin & Hwf & Hs & Hrun)%rm_pipe_helper_spec. exists t', l.
  do 4 (split; [done|]). intros S func st.
  destruct (Hrun S func [] 0%nat [] st) as (b & Hr & _); [done..|]. unfold mtrie_rm_pipe.
  simpl in Hr. by rewrite Hr.
Qed.

End rm_pipe_spec.
