(* ===== verification/ZmqMsg.v ===== *)
(** * The buffers of messages

    [zmq::msg_t] (zeromq-4.0.4/src/msg.cpp).  A message of up to 29 bytes holds its
    data; a longer one points to a buffer that other messages share, with a count of
    them once there are several.  The flag that says so is in the message, not in
    the buffer.  Sending to many pipes ([dist_t::distribute], dist.cpp) copies the
    message word by word and adjusts the count.  Sequences of operations on messages
    behave as if every message held its own bytes, as the frames of the other files
    do; buffers are freed once, when the last message that points to them is
    closed. *)

From S2P Require Import Prelude Monad ZmqNode.

(** ** Messages *)

(** The bytes are [None] before they are written.  [cffn] is the buffer of the application
    that its function takes back. *)
Record content_t := mkContent { cdata : option string; csize : Z; cffn : option nat; refcnt : Z }.

(** The union; [closed] is type 0. *)
Inductive mtype : Type :=
  | vsm (data : option string) (size : Z)
  | lmsg (content : option nat)
  | delimiter
  | cmsg (data : string)
  | closed.

Record msg_t := mkMsg { mbody : mtype; mflags : Z }.

(** The variables of type [msg_t], in the application and in the pipes; the buffers; the calls
    of functions that take buffers back. *)
Record mstate := mkMS { vars : gmap nat msg_t; contents : gmap nat content_t; ffn_calls : list nat }.

Definition more_flag : Z := 1.
Definition shared_flag : Z := 128.
Definition max_vsm_size : Z := 29.

Definition is_shared (m : msg_t) : bool := negb (Z.land (mflags m) shared_flag =? 0).
Definition size_of (s : string) : Z := Z.of_nat (String.length s).

Definition get_var (i : nat) : M mstate msg_t := λ st,
  (match vars st !! i with Some m => Ok m | None => Throw (UndefinedBehaviour "not a message") end, st).
Definition set_var (i : nat) (m : msg_t) : M mstate unit :=
  modify (λ st, mkMS (<[i := m]> (vars st)) (contents st) (ffn_calls st)).

(** The buffer behind a pointer. *)
Definition get_content (p : option nat) : M mstate (nat * content_t) := λ st,
  (match p with
   | None => null_pointer
   | Some c => match contents st !! c with
               | Some ct => Ok (c, ct)
               | None => Throw (UndefinedBehaviour "use of a freed buffer")
               end
   end, st).
Definition set_content (c : nat) (ct : content_t) : M mstate unit :=
  modify (λ st, mkMS (vars st) (<[c := ct]> (contents st)) (ffn_calls st)).
Definition set_refcnt (n : Z) (ct : content_t) : content_t := mkContent (cdata ct) (csize ct) (cffn ct) n.

(** [atomic_counter_t]: [sub] returns false when the counter drops to zero. *)
Definition add_count (n : Z) (p : option nat) : M mstate unit :=
  '(c, ct) ← get_content p; set_content c (set_refcnt (u32 (refcnt ct + n)) ct).
Definition sub_count (n : Z) (p : option nat) : M mstate bool :=
  '(c, ct) ← get_content p;
  let v := u32 (refcnt ct - n) in
  _ ← set_content c (set_refcnt v ct);
  mret (negb (v =? 0)).
Definition set_count (n : Z) (p : option nat) : M mstate unit :=
  '(c, ct) ← get_content p; set_content c (set_refcnt (u32 n) ct).

(** Giving the data back and freeing the buffer. *)
Definition release (p : option nat) : M mstate unit :=
  '(c, ct) ← get_content p;
  modify (λ st, mkMS (vars st) (delete c (contents st)) (ffn_calls st ++ option_list (cffn ct))).

(** A message that pointed to the buffer goes away. *)
Definition drop_ref (m : msg_t) (p : option nat) : M mstate unit :=
  keep ← (if is_shared m then sub_count 1 p else mret false);
  if keep : bool then mret () else release p.

Section msg.
(** [None] when memory is exhausted. *)
Context (malloc : gset nat → option nat).

Definition msg_check (m : msg_t) : bool := if mbody m is closed then false else true.

Definition msg_init (i : nat) : M mstate Z := _ ← set_var i (mkMsg (vsm (Some "") 0) 0); mret 0.

(** The buffer of a long message; -1 when there is no memory for it. *)
Definition new_content (i : nat) (ct : content_t) : M mstate Z :=
  h ← gets contents;
  match malloc (dom h) with
  | None => _ ← set_var i (mkMsg (lmsg None) 0); mret (-1)
  | Some c => _ ← set_var i (mkMsg (lmsg (Some c)) 0); _ ← set_content c ct; mret 0
  end.

Definition msg_init_size (i : nat) (size : Z) : M mstate Z :=
  if size <=? max_vsm_size then
    _ ← set_var i (mkMsg (vsm (if size =? 0 then Some "" else None) size) 0); mret 0
  else new_content i (mkContent None size None 0).

Definition msg_init_data (i : nat) (data : string) (ffn : option nat) : M mstate Z :=
  match ffn with
  | None => _ ← set_var i (mkMsg (cmsg data) 0); mret 0
  | Some _ => new_content i (mkContent (Some data) (size_of data) ffn 0)
  end.

Definition msg_init_delimiter (i : nat) : M mstate Z := _ ← set_var i (mkMsg delimiter 0); mret 0.

Definition msg_close (i : nat) : M mstate Z :=
  m ← get_var i;
  if negb (msg_check m) then mret (-1)
  else
    _ ← (if mbody m is lmsg p then drop_ref m p else mret ());
    _ ← set_var i (mkMsg closed (mflags m));
    mret 0.

(** [move] and [copy] check the source and close the target first. *)
Definition replace (i j : nat) (rest : M mstate Z) : M mstate Z :=
  src ← get_var j;
  if negb (msg_check src) then mret (-1)
  else
    rc ← msg_close i;
    if rc <? 0 then mret rc else rest.

Definition msg_move (i j : nat) : M mstate Z :=
  replace i j (
    src ← get_var j;
    _ ← set_var i src;
    msg_init j).

Definition msg_copy (i j : nat) : M mstate Z :=
  replace i j (
    src ← get_var j;
    _ ← (if mbody src is lmsg p then
           if is_shared src then add_count 1 p
           else _ ← set_var j (mkMsg (mbody src) (Z.lor (mflags src) shared_flag)); set_count 2 p
         else mret ());
    src ← get_var j;
    _ ← set_var i src;
    mret 0).

Definition read_bytes (d : option string) : res string :=
  match d with Some s => Ok s | None => Throw (UndefinedBehaviour "read of an indeterminate value") end.

(** What the application reads from [data ()]. *)
Definition msg_data (i : nat) : M mstate string :=
  m ← get_var i;
  _ ← lift (zmq_assert "check ()" (msg_check m));
  match mbody m with
  | vsm d _ => lift (read_bytes d)
  | lmsg p => '(_, ct) ← get_content p; lift (read_bytes (cdata ct))
  | cmsg d => mret d
  | _ => throw (Aborted "false")
  end.

(** It writes all bytes of the message. *)
Definition msg_fill (i : nat) (s : string) : M mstate unit :=
  m ← get_var i;
  _ ← lift (zmq_assert "check ()" (msg_check m));
  let fits size := if size_of s =? size then Ok () else Throw (UndefinedBehaviour "write past the end of a message") in
  match mbody m with
  | vsm _ size => _ ← lift (fits size); set_var i (mkMsg (vsm (Some s) size) (mflags m))
  | lmsg p => '(c, ct) ← get_content p; _ ← lift (fits (csize ct));
              set_content c (mkContent (Some s) (csize ct) (cffn ct) (refcnt ct))
  | cmsg _ => throw (UndefinedBehaviour "write to constant data")
  | _ => throw (Aborted "false")
  end.

Definition msg_size (i : nat) : M mstate Z :=
  m ← get_var i;
  _ ← lift (zmq_assert "check ()" (msg_check m));
  match mbody m with
  | vsm _ size => mret size
  | lmsg p => '(_, ct) ← get_content p; mret (csize ct)
  | cmsg d => mret (size_of d)
  | _ => throw (Aborted "false")
  end.

Definition msg_set_flags (i : nat) (flags : Z) : M mstate unit :=
  m ← get_var i; set_var i (mkMsg (mbody m) (Z.lor (mflags m) flags)).
Definition msg_reset_flags (i : nat) (flags : Z) : M mstate unit :=
  m ← get_var i; set_var i (mkMsg (mbody m) (Z.ldiff (mflags m) flags)).

Definition msg_add_refs (i : nat) (refs : Z) : M mstate unit :=
  _ ← lift (zmq_assert "refs_ >= 0" (0 <=? refs));
  if refs =? 0 then mret ()
  else
    m ← get_var i;
    if mbody m is lmsg p then
      if is_shared m then add_count refs p
      else _ ← set_count (refs + 1) p; set_var i (mkMsg (mbody m) (Z.lor (mflags m) shared_flag))
    else mret ().

(** False when no message is left. *)
Definition msg_rm_refs (i : nat) (refs : Z) : M mstate bool :=
  _ ← lift (zmq_assert "refs_ >= 0" (0 <=? refs));
  if refs =? 0 then mret true
  else
    m ← get_var i;
    match mbody m with
    | lmsg p =>
        if is_shared m then
          keep ← sub_count refs p;
          if keep : bool then mret true else _ ← release p; mret false
        else _ ← msg_close i; mret false
    | _ => _ ← msg_close i; mret false
    end.

(** [dist_t::distribute], with the slots of the matching pipes and whether each takes the
    message; it returns how many do not. *)
Definition write_copies (i : nat) : list (nat * bool) → M mstate Z :=
  foldM (λ failed '(k, ok), if ok : bool then m ← get_var i; _ ← set_var k m; mret failed else mret (failed + 1)) 0.

Definition close_and_init (i : nat) : M mstate unit :=
  rc ← msg_close i;
  _ ← lift (zmq_assert "rc == 0" (rc =? 0));
  rc ← msg_init i;
  lift (zmq_assert "rc == 0" (rc =? 0)).

Definition msg_distribute (i : nat) (pipes : list (nat * bool)) : M mstate unit :=
  if (length pipes =? 0)%nat then close_and_init i
  else
    m ← get_var i;
    if mbody m is vsm _ _ then _ ← write_copies i pipes; close_and_init i
    else
      _ ← msg_add_refs i (Z.of_nat (length pipes) - 1);
      failed ← write_copies i pipes;
      _ ← (if negb (failed =? 0) then _ ← msg_rm_refs i failed; mret () else mret ());
      rc ← msg_init i;
      lift (zmq_assert "rc == 0" (rc =? 0)).

(** Reading a message from a pipe: the word in the slot is the variable's now. *)
Definition msg_take (i k : nat) : M mstate unit :=
  m ← get_var k;
  _ ← set_var i m;
  modify (λ st, mkMS (delete k (vars st)) (contents st) (ffn_calls st)).

(** ** Operations on messages *)

Inductive mop : Type :=
  | OInit (i : nat)
  | OMake (i : nat) (s : string)                     (** [init_size], and writing the bytes *)
  | OWrap (i : nat) (s : string) (ffn : option nat)  (** [init_data] *)
  | ODelimiter (i : nat)
  | OClose (i : nat)
  | OMove (i j : nat)
  | OCopy (i j : nat)
  | OSet (i : nat) (flags : Z)
  | OReset (i : nat) (flags : Z)
  | OData (i : nat)
  | OSize (i : nat)
  | ODistribute (i : nat) (pipes : list (nat * bool))
  | OTake (i k : nat).

Inductive mout : Type := MDone | MRc (rc : Z) | MBytes (s : string) | MSize (n : Z).

Definition mstep (op : mop) : M mstate mout :=
  match op with
  | OInit i => rc ← msg_init i; mret (MRc rc)
  | OMake i s => rc ← msg_init_size i (size_of s); _ ← (if rc =? 0 then msg_fill i s else mret ()); mret (MRc rc)
  | OWrap i s ffn => rc ← msg_init_data i s ffn; mret (MRc rc)
  | ODelimiter i => rc ← msg_init_delimiter i; mret (MRc rc)
  | OClose i => rc ← msg_close i; mret (MRc rc)
  | OMove i j => rc ← msg_move i j; mret (MRc rc)
  | OCopy i j => rc ← msg_copy i j; mret (MRc rc)
  | OSet i f => _ ← msg_set_flags i f; mret MDone
  | OReset i f => _ ← msg_reset_flags i f; mret MDone
  | OData i => s ← msg_data i; mret (MBytes s)
  | OSize i => n ← msg_size i; mret (MSize n)
  | ODistribute i pipes => _ ← msg_distribute i pipes; mret MDone
  | OTake i k => _ ← msg_take i k; mret MDone
  end.

Fixpoint mrun (ops : list mop) : M mstate (list mout) :=
  match ops with
  | [] => mret []
  | op :: ops => o ← mstep op; os ← mrun ops; mret (o :: os)
  end.

Definition mnew : mstate := mkMS ∅ ∅ [].

(** ** Messages by value *)

Inductive payload : Type := PData (s : string) | PDelimiter.
Inductive aval : Type := AClosed | AMsg (flags : Z) (p : payload).

(** Messages that hold their bytes, and the buffers the application gave. *)
Record astate := mkA { avars : gmap nat aval; given : list nat }.

Definition anew : astate := mkA ∅ [].
Definition aempty : aval := AMsg 0 (PData "").
Definition aset (i : nat) (v : aval) (a : astate) : astate := mkA (<[i := v]> (avars a)) (given a).
Definition alive (a : astate) (i : nat) : bool := if avars a !! i is Some (AMsg _ _) then true else false.
Definition aflags (f : Z → Z) (i : nat) (a : astate) : astate :=
  mkA (alter (λ v, if v is AMsg fl p then AMsg (f fl) p else v) i (avars a)) (given a).
Definition acopies (v : aval) (pipes : list (nat * bool)) (a : astate) : astate :=
  foldl (λ a '(k, ok), if ok : bool then aset k v a else a) a pipes.

Definition astep (op : mop) (a : astate) : mout * astate :=
  match op with
  | OInit i => (MRc 0, aset i aempty a)
  | OMake i s => (MRc 0, aset i (AMsg 0 (PData s)) a)
  | OWrap i s ffn => (MRc 0, mkA (<[i := AMsg 0 (PData s)]> (avars a)) (given a ++ option_list ffn))
  | ODelimiter i => (MRc 0, aset i (AMsg 0 PDelimiter) a)
  | OClose i => if alive a i then (MRc 0, aset i AClosed a) else (MRc (-1), a)
  | OMove i j =>
      if alive a i && alive a j then
        let a := aset i AClosed a in
        (MRc 0, aset j aempty (aset i (default AClosed (avars a !! j)) a))
      else (MRc (-1), a)
  | OCopy i j =>
      if alive a i && alive a j then
        let a := aset i AClosed a in (MRc 0, aset i (default AClosed (avars a !! j)) a)
      else (MRc (-1), a)
  | OSet i f => (MDone, aflags (λ fl, Z.lor fl f) i a)
  | OReset i f => (MDone, aflags (λ fl, Z.ldiff fl f) i a)
  | OData i => (if avars a !! i is Some (AMsg _ (PData s)) then MBytes s else MDone, a)
  | OSize i => (if avars a !! i is Some (AMsg _ (PData s)) then MSize (size_of s) else MDone, a)
  | ODistribute i pipes => (MDone, aset i aempty (acopies (default AClosed (avars a !! i)) pipes a))
  | OTake i k => (MDone, mkA (delete k (<[i := default AClosed (avars a !! k)]> (avars a))) (given a))
  end.

Fixpoint arun (ops : list mop) (a : astate) : list mout * astate :=
  match ops with
  | [] => ([], a)
  | op :: ops => let '(o, a) := astep op a in let '(os, a) := arun ops a in (o :: os, a)
  end.

(** What the callers keep to.  Only a variable that holds no message is initialised or read into,
    nothing else than a message is used, pipes have slots of their own, and the flag [shared] is left
    to the library. *)
Definition vacant (a : astate) (i : nat) : bool := if avars a !! i is Some (AMsg _ _) then false else true.
Definition exists_var (a : astate) (i : nat) : bool := if avars a !! i is Some _ then true else false.

Definition allowed (op : mop) (a : astate) : bool :=
  match op with
  | OInit i | OMake i _ | OWrap i _ _ | ODelimiter i => vacant a i
  | OClose i => exists_var a i
  | OMove i j | OCopy i j => exists_var a i && exists_var a j
  | OSet i f | OReset i f => alive a i && (0 <=? f) && (f <? shared_flag)
  | OData i | OSize i => if avars a !! i is Some (AMsg _ (PData _)) then true else false
  | ODistribute i pipes =>
      alive a i && bool_decide (NoDup pipes.*1) && forallb (λ k, negb (exists_var a k)) pipes.*1 &&
      (Z.of_nat (size (avars a)) + Z.of_nat (length pipes) <? 2 ^ 31)
  | OTake i k => vacant a i && alive a k
  end && (Z.of_nat (size (avars a)) <? 2 ^ 31).

Fixpoint allowed_run (ops : list mop) (a : astate) : bool :=
  match ops with
  | [] => true
  | op :: ops => allowed op a && allowed_run ops (astep op a).2
  end.

(** ** Counting *)

(** The messages that point to a buffer. *)
Definition refers (c : nat) (m : msg_t) : bool := if mbody m is lmsg (Some d) then (c =? d)%nat else false.
Definition refs (c : nat) (v : gmap nat msg_t) : gmap nat msg_t := filter (λ im, refers c im.2 = true) v.

(** A buffer is counted, or it has one message, which is not marked as sharing it. *)
Definition buffer_ok (F : gmap nat msg_t) (ct : content_t) : Prop :=
  F ≠ ∅ ∧
  ((refcnt ct = Z.of_nat (size F) ∧ map_Forall (λ _ m, is_shared m = true) F) ∨
   (size F = 1%nat ∧ map_Forall (λ _ m, is_shared m = false) F)).

Definition counted (v : gmap nat msg_t) (h : gmap nat content_t) : Prop := ∀ c,
  match h !! c with Some ct => buffer_ok (refs c v) ct | None => refs c v = ∅ end.

Lemma refs_insert c i m v : refs c (<[i := m]> v) = if refers c m then <[i := m]> (refs c v) else delete i (refs c v).
Proof.
  unfold refs. rewrite map_filter_insert. simpl. destruct (refers c m); [by rewrite decide_True|].
  by rewrite decide_False, map_filter_delete.
Qed.

Lemma refs_delete c i v : refs c (delete i v) = delete i (refs c v).
Proof. apply map_filter_delete. Qed.

Lemma refs_lookup c v i m : refs c v !! i = Some m ↔ v !! i = Some m ∧ refers c m = true.
Proof. apply map_lookup_filter_Some. Qed.

(** [i] points elsewhere. *)
Lemma refs_not c v i : (∀ m, v !! i = Some m → refers c m = false) → refs c v !! i = None.
Proof.
  intros Hm. destruct (refs c v !! i) as [m|] eqn:He; [|done]. apply refs_lookup in He as [He Hr].
  apply Hm in He. congruence.
Qed.

Lemma refs_size c v : (size (refs c v) ≤ size v)%nat.
Proof. apply map_subseteq_size, map_filter_subseteq. Qed.

Lemma refs_ne c v i m : v !! i = Some m → refers c m = true → refs c v ≠ ∅.
Proof. intros Hi Hr He. assert (refs c v !! i = Some m) as Hl by (by apply refs_lookup). by rewrite He in Hl. Qed.

Lemma refers_eq c d m : mbody m = lmsg (Some d) → refers c m = bool_decide (c = d).
Proof. unfold refers. intros ->. apply eq_true_iff_eq. by rewrite Nat.eqb_eq, bool_decide_eq_true. Qed.

Lemma refers_body c m m' : mbody m = mbody m' → refers c m = refers c m'.
Proof. unfold refers. by intros ->. Qed.

Lemma counted_lookup v h i m c : counted v h → v !! i = Some m → mbody m = lmsg (Some c) →
  ∃ ct, h !! c = Some ct ∧ buffer_ok (refs c v) ct ∧ refs c v !! i = Some m.
Proof.
  intros Hc Hi Hb. assert (refers c m = true) as Hr by (rewrite (refers_eq c c) by done; by apply bool_decide_true).
  pose proof (refs_ne c v i m Hi Hr). specialize (Hc c). destruct (h !! c) as [ct|]; [|done].
  exists ct. split; [done|]. split; [done|]. by apply refs_lookup.
Qed.

(** ** Messages and their values *)

Definition msg_is (h : gmap nat content_t) (m : msg_t) (v : aval) : Prop :=
  match mbody m, v with
  | closed, AClosed => True
  | vsm d size, AMsg f (PData s) => d = Some s ∧ size = size_of s ∧ f = Z.ldiff (mflags m) shared_flag
  | lmsg p, AMsg f (PData s) => ∃ c ct, p = Some c ∧ h !! c = Some ct ∧ cdata ct = Some s ∧ csize ct = size_of s ∧
      f = Z.ldiff (mflags m) shared_flag
  | delimiter, AMsg f PDelimiter => f = Z.ldiff (mflags m) shared_flag
  | cmsg d, AMsg f (PData s) => d = s ∧ f = Z.ldiff (mflags m) shared_flag
  | _, _ => False
  end.

Definition live_ffn (h : gmap nat content_t) : list nat := omap (λ ct, cffn ct.2) (map_to_list h).

Record mrel (st : mstate) (a : astate) : Prop := mkMrel {
  rel_vars i : option_Forall2 (msg_is (contents st)) (vars st !! i) (avars a !! i);
  rel_counted : counted (vars st) (contents st);
  rel_ffn : ffn_calls st ++ live_ffn (contents st) ≡ₚ given a
}.

(** What a buffer holds. *)
Definition same_data (ct ct' : content_t) : Prop := cdata ct' = cdata ct ∧ csize ct' = csize ct.

Lemma msg_is_keep h h' m v : msg_is h m v →
  (∀ c ct, refers c m = true → h !! c = Some ct → ∃ ct', h' !! c = Some ct' ∧ same_data ct ct') → msg_is h' m v.
Proof.
  unfold msg_is. intros Hm Hk. destruct (mbody m) as [| p| | |] eqn:Hb, v as [|f []]; try done.
  destruct Hm as (c & ct & -> & Hc & Hd & Hs & Hf). destruct (Hk c ct) as (ct' & Hc' & Hd' & Hs'); [|done|].
  - rewrite (refers_eq c c) by done. by apply bool_decide_true.
  - exists c, ct'. by rewrite Hd', Hs'.
Qed.

Lemma live_insert h c ct : h !! c = None → live_ffn (<[c := ct]> h) ≡ₚ option_list (cffn ct) ++ live_ffn h.
Proof. intros Hc. unfold live_ffn. rewrite map_to_list_insert by done. simpl. by destruct (cffn ct). Qed.

Lemma live_delete h c ct : h !! c = Some ct → live_ffn h ≡ₚ option_list (cffn ct) ++ live_ffn (delete c h).
Proof. intros Hc. rewrite <-live_insert by apply lookup_delete_eq. by rewrite insert_delete_id. Qed.

Lemma live_refcnt h c ct n : h !! c = Some ct → live_ffn (<[c := set_refcnt n ct]> h) ≡ₚ live_ffn h.
Proof.
  intros Hc. rewrite <-insert_delete_eq, live_insert by apply lookup_delete_eq. by rewrite (live_delete h c ct).
Qed.

(** ** Closing *)

Lemma run_get_var {B} i m (f : msg_t → M mstate B) st : vars st !! i = Some m → (get_var i ≫= f) st = f m st.
Proof. intros Hi. unfold mbind, M_bind, get_var. by rewrite Hi. Qed.

Lemma run_get_content {B} c ct (f : nat * content_t → M mstate B) st : contents st !! c = Some ct →
  (get_content (Some c) ≫= f) st = f (c, ct) st.
Proof. intros Hc. unfold mbind, M_bind, get_content. by rewrite Hc. Qed.

Lemma run_set_var {B} i m (f : unit → M mstate B) st :
  (set_var i m ≫= f) st = f () (mkMS (<[i := m]> (vars st)) (contents st) (ffn_calls st)).
Proof. done. Qed.

Lemma run_set_content {B} c ct (f : unit → M mstate B) st :
  (set_content c ct ≫= f) st = f () (mkMS (vars st) (<[c := ct]> (contents st)) (ffn_calls st)).
Proof. done. Qed.

(** The buffers that messages of [v] point to stay. *)
Definition keeps (v : gmap nat msg_t) (h h' : gmap nat content_t) : Prop := ∀ c ct,
  refs c v ≠ ∅ → h !! c = Some ct → ∃ ct', h' !! c = Some ct' ∧ same_data ct ct'.

(** All buffers but one stay as they are. *)
Lemma counted_at v h v' h' c : counted v h → (∀ d, d ≠ c → h' !! d = h !! d ∧ refs d v' = refs d v) →
  (match h' !! c with Some ct => buffer_ok (refs c v') ct | None => refs c v' = ∅ end) → counted v' h'.
Proof.
  intros Hc Hd Hcc d. destruct (decide (d = c)) as [->|Hne]; [done|]. destruct (Hd d Hne) as [-> ->]. apply Hc.
Qed.

Lemma buffer_shared F ct i m : buffer_ok F ct → F !! i = Some m →
  if is_shared m then refcnt ct = Z.of_nat (size F) ∧ map_Forall (λ _ m, is_shared m = true) F
  else size F = 1%nat.
Proof.
  intros [_ [[Hn Hs]|[Hn Hs]]] Hi; pose proof (Hs i m Hi) as Hm; simpl in Hm; by rewrite Hm.
Qed.

Lemma size_delete (F : gmap nat msg_t) i m : F !! i = Some m → size F = S (size (delete i F)).
Proof.
  intros Hi. rewrite map_size_delete_Some by done.
  assert (size F ≠ 0%nat); [|lia]. intros Hz. apply map_size_empty_inv in Hz. by rewrite Hz in Hi.
Qed.

Lemma refs_other d c i m m' v : v !! i = Some m → mbody m = lmsg (Some c) → d ≠ c → refers d m' = false →
  refs d (<[i := m']> v) = refs d v.
Proof.
  intros Hi Hb Hd Hr. rewrite refs_insert, Hr. apply delete_id, refs_not. intros n Hn.
  assert (n = m) as -> by congruence. rewrite (refers_eq d c) by done. by apply bool_decide_false.
Qed.

Lemma drop_ref_spec st i m c m' : counted (vars st) (contents st) → vars st !! i = Some m → mbody m = lmsg (Some c) →
  Z.of_nat (size (vars st)) < 2 ^ 32 → (∀ d, refers d m' = false) → ∃ st', drop_ref m (Some c) st = (Ok (), st') ∧
  vars st' = vars st ∧ counted (<[i := m']> (vars st)) (contents st') ∧
  keeps (<[i := m']> (vars st)) (contents st) (contents st') ∧
  ffn_calls st' ++ live_ffn (contents st') ≡ₚ ffn_calls st ++ live_ffn (contents st).
Proof.
  intros Hc Hi Hb Hsz Hm'. destruct (counted_lookup _ _ _ _ _ Hc Hi Hb) as (ct & Hct & Hok & HF).
  pose proof (buffer_shared _ _ _ _ Hok HF) as Hsh. pose proof (refs_size c (vars st)) as Hle.
  pose proof (size_delete _ _ _ HF) as Hdel.
  assert (refs c (<[i := m']> (vars st)) = delete i (refs c (vars st))) as HF' by (by rewrite refs_insert, Hm').
  assert (∀ h', (∀ d, d ≠ c → h' !! d = contents st !! d) →
    (match h' !! c with Some ct => buffer_ok (delete i (refs c (vars st))) ct | None => delete i (refs c (vars st)) = ∅ end) →
    counted (<[i := m']> (vars st)) h') as Hcount.
  { intros h' Hh Hcc. apply (counted_at (vars st) (contents st) _ _ c Hc); [|by rewrite HF'].
    intros d Hd. split; [by apply Hh|]. by apply (refs_other d c i m m'). }
  assert (∀ ct', cffn ct' = cffn ct → delete i (refs c (vars st)) = ∅ →
    let h := <[c := ct']> (contents st) in let st' := mkMS (vars st) (delete c h) (ffn_calls st ++ option_list (cffn ct')) in
    counted (<[i := m']> (vars st)) (contents st') ∧ keeps (<[i := m']> (vars st)) (contents st) (contents st') ∧
    ffn_calls st' ++ live_ffn (contents st') ≡ₚ ffn_calls st ++ live_ffn (contents st)) as Hfree.
  { intros ct' Hf He h st'. unfold st', h. simpl. rewrite delete_insert_eq. split_and!.
    - apply Hcount; [intros d Hd; by apply lookup_delete_ne|by rewrite lookup_delete_eq].
    - intros d cd Hne Hcd. exists cd. split; [|done]. rewrite lookup_delete_ne; [done|]. intros <-. by rewrite HF' in Hne.
    - by rewrite Hf, <-app_assoc, <-(live_delete _ c ct). }
  unfold drop_ref. destruct (is_shared m) eqn:Hs.
  - destruct Hsh as [Hn Hall]. unfold sub_count.
    assert (u32 (refcnt ct - 1) = Z.of_nat (size (delete i (refs c (vars st))))) as Hu by (rewrite u32_small; lia).
    erewrite bind_Ok by (rewrite (run_get_content c ct), run_set_content by done; done). simpl contents. rewrite Hu.
    destruct (decide (delete i (refs c (vars st)) = ∅)) as [He|He].
    + rewrite (proj2 (Z.eqb_eq _ 0)) by (by rewrite He, map_size_empty). cbn [negb]. unfold release.
      rewrite (run_get_content c (set_refcnt (Z.of_nat (size (delete i (refs c (vars st))))) ct)) by apply lookup_insert_eq.
      eexists. split; [done|]. split; [done|]. by apply Hfree.
    + rewrite (proj2 (Z.eqb_neq _ 0)); [|intros Hz; apply He, map_size_empty_inv; lia]. eexists. split; [done|]. split; [done|].
      simpl. split_and!.
      * apply Hcount; [intros d Hd; by apply lookup_insert_ne|]. rewrite lookup_insert_eq. split; [done|]. left.
        split; [done|]. by apply map_Forall_delete.
      * intros d cd _ Hcd. destruct (decide (d = c)) as [->|Hd]; [|exists cd; by rewrite lookup_insert_ne].
        eexists. rewrite lookup_insert_eq. split; [done|]. assert (cd = ct) as -> by congruence. done.
      * by rewrite live_refcnt.
  - rewrite run_ret. unfold release. rewrite (run_get_content c ct) by done. eexists. split; [done|]. split; [done|]. simpl.
    specialize (Hfree ct eq_refl). simpl in Hfree. rewrite delete_insert_eq in Hfree. apply Hfree.
    apply map_size_empty_inv. lia.
Qed.

(** ** The relation *)

Lemma rel_some st a i x : mrel st a → avars a !! i = Some x → ∃ m, vars st !! i = Some m ∧ msg_is (contents st) m x.
Proof. intros Hr Hx. pose proof (rel_vars _ _ Hr i) as H. rewrite Hx in H. inversion H; subst. by eexists. Qed.

Lemma rel_none st a i : mrel st a → avars a !! i = None → vars st !! i = None.
Proof. intros Hr Hx. pose proof (rel_vars _ _ Hr i) as H. rewrite Hx in H. by inversion H. Qed.

Lemma msg_is_check h m x : msg_is h m x → msg_check m = if x is AMsg _ _ then true else false.
Proof. unfold msg_is, msg_check. destruct (mbody m), x as [|? []]; done. Qed.

Lemma alive_some a i : alive a i = true → ∃ f p, avars a !! i = Some (AMsg f p).
Proof. unfold alive. destruct (avars a !! i) as [[]|]; try done. by eexists _, _. Qed.

Lemma rel_size st a : mrel st a → size (vars st) = size (avars a).
Proof.
  intros Hr. rewrite <-!size_dom. f_equal. apply set_eq. intros i. rewrite !elem_of_dom.
  destruct (rel_vars _ _ Hr i) as [m x|]; [|done]. split; intros _; [by exists x|by exists m].
Qed.

(** A variable that holds no message points to no buffer. *)
Lemma vacant_refs st a i c : mrel st a → vacant a i = true → refs c (vars st) !! i = None.
Proof.
  intros Hr Hv. apply refs_not. intros m Hm. pose proof (rel_vars _ _ Hr i) as H. rewrite Hm in H. unfold vacant in Hv.
  inversion H as [? x Hx|]; subst. destruct (avars a !! i) as [[|]|]; try done.
  unfold msg_is in Hx. unfold refers. by destruct (mbody m) as [|[]| | |], x as [|? []].
Qed.

(** A variable that points to no buffer is set to a message that does not either. *)
Lemma set_unref st a i m x : mrel st a → (∀ c, refs c (vars st) !! i = None) → (∀ c, refers c m = false) →
  msg_is (contents st) m x → mrel (mkMS (<[i := m]> (vars st)) (contents st) (ffn_calls st)) (aset i x a).
Proof.
  intros Hr Hv Hm Hx. constructor; simpl; [|intros c|apply Hr].
  - intros k. destruct (decide (i = k)) as [<-|Hk]; [rewrite !lookup_insert_eq; by constructor|].
    rewrite !lookup_insert_ne by done. apply Hr.
  - rewrite refs_insert, Hm, delete_id by done. apply (rel_counted _ _ Hr).
Qed.

(** The other messages stay. *)
Lemma keeps_vars st a i m' x h' : mrel st a → keeps (<[i := m']> (vars st)) (contents st) h' → msg_is h' m' x →
  ∀ k, option_Forall2 (msg_is h') (<[i := m']> (vars st) !! k) (<[i := x]> (avars a) !! k).
Proof.
  intros Hr Hk Hx k. destruct (decide (i = k)) as [<-|Hne]; [rewrite !lookup_insert_eq; by constructor|].
  pose proof (rel_vars _ _ Hr k) as Hv. rewrite !lookup_insert_ne by done.
  inversion Hv as [m y Hy Hm Hmy|]; [|constructor]. subst. constructor. eapply msg_is_keep; [done|].
  intros c ct Hc Hct. apply Hk; [|done]. apply (refs_ne c _ k m); [|done]. by rewrite lookup_insert_ne.
Qed.

Lemma close_rel st a i : mrel st a → alive a i = true → Z.of_nat (size (avars a)) < 2 ^ 31 →
  ∃ st', msg_close i st = (Ok 0, st') ∧ mrel st' (aset i AClosed a).
Proof.
  intros Hr Hal Hsz. destruct (alive_some _ _ Hal) as (f & p & Ha). destruct (rel_some _ _ _ _ Hr Ha) as (m & Hm & Hx).
  unfold msg_close. rewrite (run_get_var i m) by done. rewrite (msg_is_check _ _ _ Hx). cbn [negb].
  set (m' := mkMsg closed (mflags m)).
  destruct (mbody m) as [|q| | |] eqn:Hb;
    try (rewrite run_ret, run_set_var; eexists; split; [done|];
         apply (set_unref st a); [done| |done|done]; intros c; apply refs_not; intros n Hn;
         assert (n = m) as -> by congruence; unfold refers; by rewrite Hb).
  assert (∃ c, q = Some c) as [c ->].
  { unfold msg_is in Hx. rewrite Hb in Hx. destruct p; [|done]. destruct Hx as (c & ct & -> & _). by exists c. }
  rewrite <-(rel_size st a Hr) in Hsz.
  destruct (drop_ref_spec st i m c m' (rel_counted _ _ Hr) Hm Hb) as (st' & Hrun & Hv & Hc & Hk & Hf); [lia|done|].
  erewrite bind_Ok by exact Hrun. rewrite run_set_var. eexists. split; [done|]. constructor; simpl; rewrite ?Hv; [|done|].
  - by apply (keeps_vars st a).
  - rewrite Hf. apply Hr.
Qed.

(** ** Making messages *)

Lemma new_buffer st a i c ct s : mrel st a → vacant a i = true → c ∉ dom (contents st) → cdata ct = Some s →
  csize ct = size_of s → mrel (mkMS (<[i := mkMsg (lmsg (Some c)) 0]> (vars st)) (<[c := ct]> (contents st)) (ffn_calls st))
    (mkA (<[i := AMsg 0 (PData s)]> (avars a)) (given a ++ option_list (cffn ct))).
Proof.
  intros Hr Hv Hc Hd Hs. apply not_elem_of_dom in Hc. set (m := mkMsg (lmsg (Some c)) 0).
  pose proof (rel_counted _ _ Hr) as Hcount.
  assert (∀ d, refs d (<[i := m]> (vars st)) = if decide (d = c) then {[i := m]} else refs d (vars st)) as Hrefs.
  { intros d. rewrite refs_insert, (refers_eq d c) by done. case_decide as Hdc.
    - subst d. rewrite bool_decide_true by done. specialize (Hcount c). rewrite Hc in Hcount. by rewrite Hcount.
    - rewrite bool_decide_false by done. apply delete_id. by eapply vacant_refs. }
  constructor; simpl.
  - apply (keeps_vars st a); [done| |].
    + intros d cd Hne Hcd. exists cd. split; [|done]. rewrite lookup_insert_ne; [done|]. congruence.
    + exists c, ct. by rewrite lookup_insert_eq.
  - apply (counted_at (vars st) (contents st) _ _ c Hcount).
    + intros d Hdc. rewrite lookup_insert_ne, Hrefs, decide_False by done. done.
    + rewrite lookup_insert_eq, Hrefs, decide_True by done. split; [apply map_non_empty_singleton|]. right.
      rewrite map_size_singleton. split; [done|]. by apply map_Forall_singleton.
  - rewrite live_insert by done. rewrite <-(rel_ffn _ _ Hr). solve_Permutation.
Qed.

Hypothesis malloc_fresh : ∀ X, ∃ c, malloc X = Some c ∧ c ∉ X.

Lemma make_rel st a i s : mrel st a → vacant a i = true →
  ∃ st', mstep (OMake i s) st = (Ok (MRc 0), st') ∧ mrel st' (aset i (AMsg 0 (PData s)) a).
Proof.
  intros Hr Hv. unfold mstep, msg_init_size. destruct (Z.leb_spec (size_of s) max_vsm_size) as [Hle|Hgt].
  - eexists. split.
    + erewrite bind_Ok by (rewrite run_set_var; done). cbn [Z.eqb]. unfold msg_fill.
      erewrite bind_Ok; [done|]. erewrite run_get_var by apply lookup_insert_eq. cbn [mbody msg_check zmq_assert].
      rewrite run_lift_Ok. cbv zeta. rewrite Z.eqb_refl. by rewrite run_lift_Ok.
    + simpl. rewrite insert_insert_eq. apply set_unref; try done. intros c. by eapply vacant_refs.
  - destruct (malloc_fresh (dom (contents st))) as (c & Hm & Hc). eexists. split.
    + erewrite bind_Ok by (unfold new_content; rewrite run_gets, Hm, run_set_var, run_set_content; done).
      cbn [Z.eqb]. unfold msg_fill. erewrite bind_Ok; [done|].
      erewrite run_get_var by (simpl; apply lookup_insert_eq). cbn [mbody msg_check zmq_assert].
      rewrite run_lift_Ok. cbv zeta. erewrite run_get_content by (simpl; apply lookup_insert_eq). cbn [csize].
      rewrite Z.eqb_refl. by rewrite run_lift_Ok.
    + simpl. rewrite insert_insert_eq. pose proof (new_buffer st a i c (mkContent (Some s) (size_of s) None 0) s Hr Hv Hc eq_refl eq_refl) as H.
      simpl in H. by rewrite app_nil_r in H.
Qed.

Lemma wrap_rel st a i s ffn : mrel st a → vacant a i = true →
  ∃ st', mstep (OWrap i s ffn) st = (Ok (MRc 0), st') ∧
  mrel st' (mkA (<[i := AMsg 0 (PData s)]> (avars a)) (given a ++ option_list ffn)).
Proof.
  intros Hr Hv. unfold mstep, msg_init_data. destruct ffn as [d|].
  - destruct (malloc_fresh (dom (contents st))) as (c & Hm & Hc). eexists. split.
    + erewrite bind_Ok by (unfold new_content; rewrite run_gets, Hm, run_set_var, run_set_content; done). done.
    + by apply (new_buffer st a i c (mkContent (Some s) (size_of s) (Some d) 0)).
  - eexists. split; [done|]. rewrite app_nil_r. apply set_unref; try done. intros c. by eapply vacant_refs.
Qed.

(** ** Moving messages *)

(** [i] takes the place of [j]. *)
Lemma moved_counted v h i j m v' : counted v h → (∀ c, refs c v !! i = None) → v !! j = Some m → i ≠ j →
  (∀ c, refs c v' = delete j (refs c (<[i := m]> v))) → counted v' h.
Proof.
  intros Hc Hi Hj Hij Hv c. specialize (Hc c). rewrite Hv, refs_insert. destruct (refers c m) eqn:Hr; last first.
  { rewrite (delete_id _ i), delete_id by (done || (apply refs_not; intros n Hn; congruence)). done. }
  assert (refs c v !! j = Some m) as HF by (by apply refs_lookup). set (F := refs c v) in *.
  rewrite delete_insert_ne by done. assert (delete j F !! i = None) as Hdi by (rewrite lookup_delete_ne by done; apply Hi).
  destruct (h !! c) as [ct|]; [|rewrite Hc in HF; done]. destruct Hc as [Hne Hc].
  assert (size (<[i := m]> (delete j F)) = size F) as Hsz by (rewrite map_size_insert_None, (size_delete F j m) by done; done).
  assert (∀ P : nat → msg_t → Prop, (∀ k k' n, P k n → P k' n) → map_Forall P F → map_Forall P (<[i := m]> (delete j F))) as HP.
  { intros P HPk HPF. apply map_Forall_insert; [done|]. split; [apply (HPk j), (HPF j m HF)|by apply map_Forall_delete]. }
  split; [apply insert_non_empty|]. rewrite Hsz. destruct Hc as [[? ?]|[? ?]]; [left|right]; (split; [done|]); apply HP; auto.
Qed.

(** The variable [i] has the message of [j], which is set to another one or is gone. *)
Lemma pod_move st a i j m x : mrel st a → vacant a i = true → i ≠ j → vars st !! j = Some m → avars a !! j = Some x →
  (∀ m0 x0, (∀ c, refers c m0 = false) → msg_is (contents st) m0 x0 →
     mrel (mkMS (<[j := m0]> (<[i := m]> (vars st))) (contents st) (ffn_calls st)) (aset j x0 (aset i x a))) ∧
  mrel (mkMS (delete j (<[i := m]> (vars st))) (contents st) (ffn_calls st)) (mkA (delete j (<[i := x]> (avars a))) (given a)).
Proof.
  intros Hr Hv Hij Hm Hx. destruct (rel_some _ _ _ _ Hr Hx) as (m' & Hm' & Hmx). assert (m' = m) as -> by congruence.
  assert (∀ k, option_Forall2 (msg_is (contents st)) (<[i := m]> (vars st) !! k) (<[i := x]> (avars a) !! k)) as Hk.
  { apply (keeps_vars st a); [done| |done]. intros c ct _ Hc. by exists ct. }
  pose proof (λ v', moved_counted (vars st) (contents st) i j m v') as Hmoved. split; [intros m0 x0 Hm0 Hx0|].
  - constructor; simpl; [| |apply Hr].
    + intros k. destruct (decide (j = k)) as [<-|Hne]; [rewrite !lookup_insert_eq; by constructor|].
      rewrite !(lookup_insert_ne _ j) by done. apply Hk.
    + eapply Hmoved; [apply Hr|intros c; by eapply vacant_refs|done|done|]. intros c. by rewrite (refs_insert c j), Hm0.
  - constructor; simpl; [| |apply Hr].
    + intros k. destruct (decide (j = k)) as [<-|Hne]; [rewrite !lookup_delete_eq; constructor|].
      rewrite !(lookup_delete_ne _ j) by done. apply Hk.
    + eapply Hmoved; [apply Hr|intros c; by eapply vacant_refs|done|done|]. intros c. apply refs_delete.
Qed.

(** Taking apart what the callers keep to. *)
Lemma exists_cases a i : exists_var a i = true → avars a !! i = Some AClosed ∨ alive a i = true.
Proof. unfold exists_var, alive. destruct (avars a !! i) as [[]|]; naive_solver. Qed.

Lemma closed_rel st a i : mrel st a → avars a !! i = Some AClosed → ∃ m, vars st !! i = Some m ∧ mbody m = closed.
Proof.
  intros Hr Ha. destruct (rel_some _ _ _ _ Hr Ha) as (m & Hm & Hx). exists m. split; [done|].
  unfold msg_is in Hx. by destruct (mbody m).
Qed.

Lemma close_closed st a i : mrel st a → avars a !! i = Some AClosed → msg_close i st = (Ok (-1), st).
Proof.
  intros Hr Ha. destruct (closed_rel _ _ _ Hr Ha) as (m & Hm & Hb). unfold msg_close.
  rewrite (run_get_var i m) by done. unfold msg_check. by rewrite Hb.
Qed.

Lemma alive_check st a j : mrel st a → alive a j = true → ∃ m, vars st !! j = Some m ∧ msg_check m = true.
Proof.
  intros Hr Hj. destruct (alive_some _ _ Hj) as (f & p & Ha). destruct (rel_some _ _ _ _ Hr Ha) as (m & Hm & Hx).
  exists m. split; [done|]. by rewrite (msg_is_check _ _ _ Hx).
Qed.

Lemma aset_lookup a i x j : avars (aset i x a) !! j = if decide (i = j) then Some x else avars a !! j.
Proof. simpl. case_decide as H; [subst; apply lookup_insert_eq|by apply lookup_insert_ne]. Qed.

Lemma replace_rel st a i j : mrel st a → exists_var a i = true → exists_var a j = true → Z.of_nat (size (avars a)) < 2 ^ 31 →
  if alive a i && alive a j then
    ∃ st' m x, mrel st' (aset i AClosed a) ∧ vars st' !! j = Some m ∧ avars (aset i AClosed a) !! j = Some x ∧
      ∀ rest, replace i j rest st = rest st'
  else ∀ rest, replace i j rest st = (Ok (-1), st).
Proof.
  intros Hr Hi Hj Hsz. unfold replace. destruct (exists_cases _ _ Hj) as [Hcj|Haj].
  { destruct (closed_rel _ _ _ Hr Hcj) as (m & Hm & Hb). unfold alive at 2. rewrite Hcj, andb_false_r.
    intros rest. rewrite (run_get_var j m) by done. unfold msg_check. by rewrite Hb. }
  destruct (alive_check _ _ _ Hr Haj) as (m & Hm & Hch). rewrite Haj, andb_true_r.
  destruct (exists_cases _ _ Hi) as [Hci|Hai].
  { unfold alive. rewrite Hci. intros rest. rewrite (run_get_var j m), Hch by done. cbn [negb].
    by erewrite bind_Ok by (by eapply close_closed). }
  rewrite Hai. destruct (close_rel st a i Hr Hai Hsz) as (st' & Hrun & Hr').
  assert (∃ x, avars (aset i AClosed a) !! j = Some x) as [x Hx].
  { rewrite aset_lookup. destruct (alive_some _ _ Haj) as (fl & p & ->). case_decide; by eexists. }
  destruct (rel_some _ _ _ _ Hr' Hx) as (m' & Hm' & _). exists st', m', x. split; [done|]. split; [done|]. split; [done|].
  intros rest. rewrite (run_get_var j m), Hch by done. cbn [negb]. by erewrite bind_Ok by done.
Qed.

Lemma vacant_closed a i : vacant (aset i AClosed a) i = true.
Proof. unfold vacant. by rewrite aset_lookup, decide_True. Qed.

Lemma move_op st a i j : mrel st a → allowed (OMove i j) a = true →
  ∃ st', mstep (OMove i j) st = (Ok (astep (OMove i j) a).1, st') ∧ mrel st' (astep (OMove i j) a).2.
Proof.
  intros Hr Hal. cbn [allowed] in Hal. apply andb_prop in Hal as [[Hi Hj]%andb_prop Hsz%Z.ltb_lt].
  pose proof (replace_rel st a i j Hr Hi Hj Hsz) as H. cbn [mstep astep]. unfold msg_move.
  destruct (alive a i && alive a j); [|exists st; by erewrite bind_Ok by apply H].
  destruct H as (st1 & m & x & Hr1 & Hm & Hx & Hrep). eexists. split.
  { erewrite bind_Ok by (rewrite Hrep, (run_get_var j m), run_set_var by done; done). done. }
  cbn [snd]. rewrite Hx. simpl default. destruct (decide (i = j)) as [<-|Hij].
  - simpl. rewrite insert_insert_eq. rewrite aset_lookup, decide_True in Hx by done. injection Hx as <-.
    replace (aset i aempty _) with (aset i aempty (aset i AClosed a)) by (unfold aset; simpl; by rewrite !insert_insert_eq).
    apply set_unref; try done. intros c. eapply vacant_refs; [done|apply vacant_closed].
  - destruct (pod_move st1 _ i j m x Hr1 (vacant_closed a i) Hij Hm Hx) as [Hmv _]. by apply Hmv.
Qed.

Lemma take_op st a i k : mrel st a → allowed (OTake i k) a = true →
  ∃ st', mstep (OTake i k) st = (Ok (astep (OTake i k) a).1, st') ∧ mrel st' (astep (OTake i k) a).2.
Proof.
  intros Hr Hal. cbn [allowed] in Hal. apply andb_prop in Hal as [[Hi Hk]%andb_prop _].
  destruct (alive_some _ _ Hk) as (f & p & Hx). destruct (rel_some _ _ _ _ Hr Hx) as (m & Hm & _).
  assert (i ≠ k) as Hne. { intros ->. unfold vacant in Hi. by rewrite Hx in Hi. }
  eexists. cbn [mstep astep]. split.
  { erewrite bind_Ok by (unfold msg_take; rewrite (run_get_var k m), run_set_var by done; done). done. }
  cbn [snd]. rewrite Hx. simpl default. by destruct (pod_move st a i k m _ Hr Hi Hne Hm Hx) as [_ Hmv].
Qed.

(** ** Sharing *)

Definition mark (m : msg_t) : msg_t := if is_shared m then m else mkMsg (mbody m) (Z.lor (mflags m) shared_flag).

Lemma land_pow2 n k : 0 ≤ k → negb (Z.land n (2 ^ k) =? 0) = Z.testbit n k.
Proof.
  intros Hk. apply eq_true_iff_eq. rewrite negb_true_iff, Z.eqb_neq. split; intros H.
  - destruct (Z.testbit n k) eqn:Hb; [done|]. destruct H. apply Z.bits_inj'. intros i Hi.
    rewrite Z.land_spec, Z.bits_0, Z.pow2_bits_eqb by done. destruct (Z.eqb_spec k i) as [<-|]; [by rewrite Hb|by rewrite andb_false_r].
  - intros Hz. apply (f_equal (λ z, Z.testbit z k)) in Hz. by rewrite Z.land_spec, H, Z.bits_0, Z.pow2_bits_true in Hz.
Qed.

Lemma is_shared_bit m : is_shared m = Z.testbit (mflags m) 7.
Proof. unfold is_shared. by rewrite <-(land_pow2 _ 7). Qed.

Lemma mark_shared m : is_shared (mark m) = true.
Proof.
  unfold mark. destruct (is_shared m) eqn:Hs; [done|]. rewrite is_shared_bit. cbn [mflags].
  by rewrite Z.lor_spec, orb_true_r.
Qed.

Lemma mark_body m : mbody (mark m) = mbody m.
Proof. unfold mark. by destruct (is_shared m). Qed.

Lemma mark_flags m : Z.ldiff (mflags (mark m)) shared_flag = Z.ldiff (mflags m) shared_flag.
Proof.
  unfold mark. destruct (is_shared m); [done|]. simpl. apply Z.bits_inj'. intros i Hi.
  rewrite !Z.ldiff_spec, Z.lor_spec. by destruct (Z.testbit (mflags m) i), (Z.testbit shared_flag i).
Qed.

Lemma mark_is h m x : msg_is h m x → msg_is h (mark m) x.
Proof. unfold msg_is. by rewrite mark_body, mark_flags. Qed.

Lemma mark_all F ct j m : buffer_ok F ct → F !! j = Some m →
  map_Forall (λ _ m, is_shared m = true) (<[j := mark m]> F) ∧ size (<[j := mark m]> F) = size F ∧
  (if is_shared m then refcnt ct = Z.of_nat (size F) else size F = 1%nat).
Proof.
  intros Hok Hj. pose proof (buffer_shared _ _ _ _ Hok Hj) as Hs. split; [|split].
  - intros k n. destruct (decide (j = k)) as [<-|Hne].
    { rewrite lookup_insert_eq. intros [= <-]. apply mark_shared. }
    rewrite lookup_insert_ne by done. intros Hn. destruct (is_shared m); [by destruct Hs as [_ Hs]; eapply (Hs k)|].
    pose proof (size_delete F j m Hj) as Hd. rewrite Hs in Hd. injection Hd as Hd. symmetry in Hd.
    apply map_size_empty_inv in Hd. assert (delete j F !! k = Some n) as Hk by (by rewrite lookup_delete_ne).
    by rewrite Hd in Hk.
  - by apply map_size_insert_Some; eexists.
  - by destruct (is_shared m); [destruct Hs|].
Qed.

(** [n] references are added to those of the messages. *)
Definition shared_state (st : mstate) (j : nat) (m : msg_t) (c : nat) (ct : content_t) (n : Z) : mstate :=
  mkMS (<[j := mark m]> (vars st)) (<[c := set_refcnt (Z.of_nat (size (refs c (vars st))) + n) ct]> (contents st)) (ffn_calls st).

Lemma share_run st j m c ct n : counted (vars st) (contents st) → vars st !! j = Some m → mbody m = lmsg (Some c) →
  contents st !! c = Some ct → 0 ≤ n → Z.of_nat (size (vars st)) + n < 2 ^ 32 →
  (if is_shared m then add_count n (Some c)
   else _ ← set_var j (mkMsg (mbody m) (Z.lor (mflags m) shared_flag)); set_count (n + 1) (Some c)) st =
    (Ok (), shared_state st j m c ct n) ∧
  (if is_shared m then add_count n (Some c)
   else _ ← set_count (n + 1) (Some c); set_var j (mkMsg (mbody m) (Z.lor (mflags m) shared_flag))) st =
    (Ok (), shared_state st j m c ct n).
Proof.
  intros Hc Hj Hb Hct Hn Hsz. destruct (counted_lookup _ _ _ _ _ Hc Hj Hb) as (ct' & Hct' & Hok & HF).
  assert (ct' = ct) as -> by congruence. destruct (mark_all _ _ _ _ Hok HF) as (_ & _ & Hs).
  pose proof (refs_size c (vars st)). pose proof (map_size_ne_0_lookup_2 (refs c (vars st)) j ltac:(by eexists)).
  unfold shared_state, mark, add_count, set_count. destruct (is_shared m).
  - rewrite (run_get_content c ct) by done. unfold set_content, modify. rewrite Hs, u32_small by lia. by rewrite (insert_id (vars st) j m).
  - rewrite Hs. rewrite run_set_var, (run_get_content c ct) by done. unfold set_content at 1, modify at 1. simpl.
    rewrite u32_small by lia. replace (n + 1) with (Z.of_nat 1 + n) by lia. split; [done|].
    erewrite bind_Ok by (by rewrite (run_get_content c ct)). done.
Qed.

Lemma refers_refl c m : mbody m = lmsg (Some c) → refers c m = true.
Proof. intros Hb. rewrite (refers_eq c c) by done. by apply bool_decide_true. Qed.

Lemma refers_ne c d m : mbody m = lmsg (Some c) → d ≠ c → refers d m = false.
Proof. intros Hb Hd. rewrite (refers_eq d c) by done. by apply bool_decide_false. Qed.

(** The same message in many variables. *)
Definition copies {A} (x : A) (ks : list nat) (v : gmap nat A) : gmap nat A := foldl (λ v k, <[k := x]> v) v ks.

Lemma copies_lookup {A} (x : A) ks v k : copies x ks v !! k = if decide (k ∈ ks) then Some x else v !! k.
Proof.
  revert v. induction ks as [|k' ks IH]; intros v; [done|]. simpl. rewrite IH.
  destruct (decide (k = k')) as [->|Hk]; [rewrite lookup_insert_eq|rewrite lookup_insert_ne by done];
    repeat case_decide; set_solver.
Qed.

Lemma copies_size {A} (x : A) ks v : NoDup ks → (∀ k, k ∈ ks → v !! k = None) → size (copies x ks v) = (size v + length ks)%nat.
Proof.
  revert v. induction ks as [|k ks IH]; intros v Hnd Hk; simpl; [lia|]. apply NoDup_cons in Hnd as [Hn Hnd].
  rewrite IH; [rewrite map_size_insert_None by (apply Hk; set_solver); lia|done|].
  intros k' Hk'. rewrite lookup_insert_ne by (intros ->; done). apply Hk. set_solver.
Qed.

Lemma copies_refs c m ks v : refers c m = true → refs c (copies m ks v) = copies m ks (refs c v).
Proof.
  intros Hr. revert v. induction ks as [|k ks IH]; intros v; [done|]. simpl. by rewrite IH, refs_insert, Hr.
Qed.

Lemma copies_norefs c m ks v : refers c m = false → (∀ k, k ∈ ks → refs c v !! k = None) → refs c (copies m ks v) = refs c v.
Proof.
  intros Hr. revert v. induction ks as [|k ks IH]; intros v Hk; [done|]. simpl.
  assert (refs c (<[k := m]> v) = refs c v) as He by (rewrite refs_insert, Hr, delete_id; [done|apply Hk; set_solver]).
  rewrite IH, He; [done|]. intros k' Hk'. rewrite He. apply Hk. set_solver.
Qed.

Lemma copies_map_Forall {A} (P : A → Prop) x ks v : P x → map_Forall (λ _, P) v → map_Forall (λ _, P) (copies x ks v).
Proof. intros Hx Hv k y. rewrite copies_lookup. case_decide; [by intros [= <-]|apply Hv]. Qed.

(** Copies of a message in a buffer, counted. *)
Lemma shared_copies st a j m x c ct ks : mrel st a → vars st !! j = Some m → avars a !! j = Some x →
  mbody m = lmsg (Some c) → contents st !! c = Some ct → NoDup ks → j ∉ ks → (∀ d k, k ∈ ks → refs d (vars st) !! k = None) →
  mrel (mkMS (copies (mark m) ks (<[j := mark m]> (vars st)))
          (<[c := set_refcnt (Z.of_nat (size (refs c (vars st))) + Z.of_nat (length ks)) ct]> (contents st)) (ffn_calls st))
       (mkA (copies x ks (avars a)) (given a)).
Proof.
  intros Hr Hm Hx Hb Hct Hnd Hj Hks. pose proof (rel_counted _ _ Hr) as Hc.
  destruct (counted_lookup _ _ _ _ _ Hc Hm Hb) as (ct' & Hct' & Hok & HF). assert (ct' = ct) as -> by congruence.
  destruct (mark_all _ _ _ _ Hok HF) as (Hall & Hsz & _).
  assert (mbody (mark m) = lmsg (Some c)) as Hbm by (by rewrite mark_body).
  destruct (rel_some _ _ _ _ Hr Hx) as (m' & Hm' & Hmx). assert (m' = m) as -> by congruence.
  assert (∀ y n, msg_is (contents st) y n → msg_is (<[c := set_refcnt (Z.of_nat (size (refs c (vars st))) + Z.of_nat (length ks)) ct]> (contents st)) y n) as Hkeep.
  { intros y n Hy. eapply msg_is_keep; [done|]. intros d cd _ Hcd. destruct (decide (d = c)) as [->|Hd].
    - rewrite lookup_insert_eq. eexists. split; [done|]. assert (cd = ct) as -> by congruence. done.
    - exists cd. by rewrite lookup_insert_ne. }
  assert (∀ d k, k ∈ ks → refs d (<[j := mark m]> (vars st)) !! k = None) as Hks'.
  { intros d k Hk. rewrite refs_insert. destruct (refers d (mark m)).
    - rewrite lookup_insert_ne by (by intros ->). by apply Hks.
    - rewrite lookup_delete_ne by (by intros ->). by apply Hks. }
  constructor; simpl.
  - intros k. rewrite !copies_lookup. case_decide; [constructor; by apply Hkeep, mark_is|].
    destruct (decide (j = k)) as [<-|Hne]; [rewrite lookup_insert_eq, Hx; constructor; by apply Hkeep, mark_is|].
    rewrite lookup_insert_ne by done. destruct (rel_vars _ _ Hr k); constructor. by apply Hkeep.
  - apply (counted_at (vars st) (contents st) _ _ c Hc).
    + intros d Hd. split; [by apply lookup_insert_ne|]. rewrite copies_norefs; [|by eapply refers_ne|auto].
      apply (refs_other d c j m); [done|done|done|by eapply refers_ne].
    + rewrite lookup_insert_eq, copies_refs by (by apply refers_refl). pose proof (Hks' c) as Hkc.
      rewrite refs_insert, refers_refl in Hkc |- * by done.
      assert (copies (mark m) ks (<[j := mark m]> (refs c (vars st))) !! j = Some (mark m)) as Hlj.
      { rewrite copies_lookup, lookup_insert_eq. by case_decide. }
      split; [intros He; by rewrite He in Hlj|]. left. split.
      * simpl. rewrite copies_size, Hsz by done. lia.
      * apply (copies_map_Forall (λ m, is_shared m = true)); [apply mark_shared|done].
  - rewrite live_refcnt by done. apply Hr.
Qed.

Lemma copy_op st a i j : mrel st a → allowed (OCopy i j) a = true →
  ∃ st', mstep (OCopy i j) st = (Ok (astep (OCopy i j) a).1, st') ∧ mrel st' (astep (OCopy i j) a).2.
Proof.
  intros Hr Hal. cbn [allowed] in Hal. apply andb_prop in Hal as [[Hi Hj]%andb_prop Hsz%Z.ltb_lt].
  pose proof (replace_rel st a i j Hr Hi Hj Hsz) as H. cbn [mstep astep]. unfold msg_copy.
  destruct (alive a i && alive a j) eqn:Hal; [|exists st; by erewrite bind_Ok by apply H].
  destruct H as (st1 & m & x & Hr1 & Hm & Hx & Hrep). cbn [snd fst]. rewrite Hx. simpl default.
  destruct (rel_some _ _ _ _ Hr1 Hx) as (m' & Hm' & Hmx). assert (m' = m) as -> by congruence. clear Hm'.
  assert (∀ c, refs c (vars st1) !! i = None) as Hvac by (intros c; eapply vacant_refs; [done|apply vacant_closed]).
  destruct (mbody m) as [|q| | |] eqn:Hb;
    try (eexists; split;
         [erewrite bind_Ok; [done|]; rewrite Hrep, (run_get_var j m) by done; rewrite Hb, run_ret, (run_get_var j m), run_set_var by done; done|];
         apply set_unref; [done|done| |done]; intros c; unfold refers; by rewrite Hb).
  assert (∃ c ct, q = Some c ∧ contents st1 !! c = Some ct) as (c & ct & -> & Hct).
  { unfold msg_is in Hmx. rewrite Hb in Hmx. destruct x as [|f []]; [done| |done]. destruct Hmx as (c & ct & -> & Hc & _). by exists c, ct. }
  assert (i ≠ j) as Hij. { intros ->. specialize (Hvac c). assert (refs c (vars st1) !! j = Some m) as He; [|congruence].
    apply refs_lookup. split; [done|]. by apply refers_refl. }
  assert (Z.of_nat (size (vars st1)) + 1 < 2 ^ 32) as Hsz1.
  { rewrite (rel_size _ _ Hr1). simpl. apply andb_prop in Hal as [Hai _]. destruct (alive_some _ _ Hai) as (f & p & Hai').
    rewrite map_size_insert_Some by (by eexists). lia. }
  pose proof (share_run st1 j m c ct 1 (rel_counted _ _ Hr1) Hm Hb Hct ltac:(lia) Hsz1) as [Hrun _].
  eexists. split.
  { erewrite bind_Ok; [done|]. rewrite Hrep, (run_get_var j m) by done. rewrite Hb in *. erewrite bind_Ok by exact Hrun.
    erewrite run_get_var by (simpl; apply lookup_insert_eq). rewrite run_set_var. done. }
  pose proof (shared_copies st1 _ j m x c ct [i] Hr1 Hm Hx Hb Hct (NoDup_singleton i)) as Hs.
  apply Hs; [set_solver|]. intros d k ->%list_elem_of_singleton. apply Hvac.
Qed.

(** ** Sending to many pipes *)

Definition taken (pipes : list (nat * bool)) : list nat := omap (λ p, if p.2 : bool then Some p.1 else None) pipes.
Definition refused (pipes : list (nat * bool)) : Z := Z.of_nat (length pipes) - Z.of_nat (length (taken pipes)).

Lemma taken_in pipes k : k ∈ taken pipes → k ∈ pipes.*1.
Proof.
  intros ((k' & b) & Hin & Hb)%list_elem_of_omap. destruct b; simplify_eq/=. apply list_elem_of_fmap. by exists (k, true).
Qed.

Lemma taken_nodup pipes : NoDup pipes.*1 → NoDup (taken pipes).
Proof.
  induction pipes as [|[k b] pipes IH]; [done|]. cbn [fmap list_fmap]. intros [Hk Hnd]%NoDup_cons. specialize (IH Hnd).
  destruct b; [|done]. apply NoDup_cons. split; [|done]. by intros ?%taken_in.
Qed.

Lemma taken_length pipes : (length (taken pipes) ≤ length pipes)%nat.
Proof. induction pipes as [|[k []] pipes IH]; simpl; unfold taken in *; lia. Qed.

Lemma acopies_eq x pipes a : acopies x pipes a = mkA (copies x (taken pipes) (avars a)) (given a).
Proof.
  unfold acopies. revert a. induction pipes as [|[k []] pipes IH]; intros a; [by destruct a|..]; cbn [foldl]; by rewrite IH.
Qed.

Lemma write_copies_run st i m pipes : vars st !! i = Some m → i ∉ pipes.*1 →
  write_copies i pipes st = (Ok (refused pipes), mkMS (copies m (taken pipes) (vars st)) (contents st) (ffn_calls st)).
Proof.
  intros Hi Hin. unfold write_copies, refused. rewrite <-(Z.add_0_l (_ - _)). generalize 0. revert st Hi.
  induction pipes as [|[k b] pipes IH]; intros st Hi acc; [rewrite Z.add_0_r; by destruct st|].
  cbn [fmap list_fmap] in Hin. apply not_elem_of_cons in Hin as [Hk Hin]. cbn [foldM]. destruct b.
  - erewrite bind_Ok by (by rewrite (run_get_var i m), run_set_var). rewrite IH; [|done|simpl; by rewrite lookup_insert_ne].
    do 2 f_equal. simpl. lia.
  - rewrite run_ret, IH by done. do 2 f_equal. simpl. unfold taken. lia.
Qed.

Lemma copies_unref st a m x ks : mrel st a → (∀ c, refers c m = false) → msg_is (contents st) m x →
  (∀ d k, k ∈ ks → refs d (vars st) !! k = None) →
  mrel (mkMS (copies m ks (vars st)) (contents st) (ffn_calls st)) (mkA (copies x ks (avars a)) (given a)).
Proof.
  intros Hr Hm Hx. revert st a Hr Hx. induction ks as [|k ks IH]; intros st a Hr Hx Hk; [by destruct st, a|].
  pose proof (set_unref st a k m x Hr (λ c, Hk c k ltac:(set_solver)) Hm Hx) as Hr1.
  specialize (IH _ _ Hr1 Hx). apply IH. intros d k' Hk'. simpl. rewrite refs_insert, Hm.
  apply lookup_delete_None. right. apply Hk. set_solver.
Qed.

Lemma aset_aset i x y a : aset i x (aset i y a) = aset i x a.
Proof. unfold aset. simpl. by rewrite insert_insert_eq. Qed.

Lemma empty_unref c : refers c (mkMsg (vsm (Some "") 0) 0) = false.
Proof. done. Qed.

Lemma empty_is h : msg_is h (mkMsg (vsm (Some "") 0) 0) aempty.
Proof. done. Qed.

Lemma init_rel st a i : mrel st a → (∀ c, refs c (vars st) !! i = None) → ∃ st',
  (rc ← msg_init i; lift (zmq_assert "rc == 0" (rc =? 0))) st = (Ok (), st') ∧ mrel st' (aset i aempty a).
Proof.
  intros Hr Hi. eexists. split; [done|]. apply set_unref; [done|done|apply empty_unref|apply empty_is].
Qed.

Lemma close_and_init_rel st a i : mrel st a → alive a i = true → Z.of_nat (size (avars a)) < 2 ^ 31 →
  ∃ st', close_and_init i st = (Ok (), st') ∧ mrel st' (aset i aempty a).
Proof.
  intros Hr Hal Hsz. destruct (close_rel st a i Hr Hal Hsz) as (st1 & Hrun & Hr1). unfold close_and_init.
  destruct (init_rel st1 _ i Hr1) as (st2 & Hrun2 & Hr2). { intros c. eapply vacant_refs; [done|apply vacant_closed]. }
  exists st2. rewrite aset_aset in Hr2. split; [|done]. erewrite bind_Ok by exact Hrun. exact Hrun2.
Qed.

(** The buffer with [n] references, or without it when [n] is zero. *)
Definition dropped (st : mstate) (c : nat) (ct : content_t) (n : Z) : mstate :=
  if n =? 0 then mkMS (vars st) (delete c (contents st)) (ffn_calls st ++ option_list (cffn ct))
  else mkMS (vars st) (<[c := set_refcnt n ct]> (contents st)) (ffn_calls st).

Lemma sub_run {B} st c ct k n (x y : B) : contents st !! c = Some ct → u32 (refcnt ct - k) = n →
  (keep ← sub_count k (Some c); if keep : bool then mret x else _ ← release (Some c); mret y) st =
    (Ok (if n =? 0 then y else x), dropped st c ct n).
Proof.
  intros Hct Hn. unfold sub_count. erewrite bind_Ok by (rewrite (run_get_content c ct) by done; cbv zeta; by rewrite Hn, run_set_content).
  unfold dropped. destruct (n =? 0); [|done]. cbn [negb]. unfold release.
  erewrite bind_Ok by (by erewrite run_get_content by (simpl; apply lookup_insert_eq)). simpl. by rewrite delete_insert_eq.
Qed.

Lemma drop_ref_run st m c ct n : is_shared m = true → contents st !! c = Some ct → u32 (refcnt ct - 1) = n →
  drop_ref m (Some c) st = (Ok (), dropped st c ct n).
Proof.
  intros Hs Hct Hn. unfold drop_ref. rewrite Hs. pose proof (sub_run st c ct 1 n () () Hct Hn) as H. destruct (n =? 0); rewrite <-H;
    unfold mbind, M_bind; destruct (sub_count 1 (Some c) st) as [[[]|] st']; try done; by destruct (release (Some c) st') as [[[]|] ?].
Qed.

Lemma rm_refs_run st i m c ct n failed : vars st !! i = Some m → mbody m = lmsg (Some c) → is_shared m = true →
  contents st !! c = Some ct → 0 < failed → u32 (refcnt ct - failed) = n →
  msg_rm_refs i failed st = (Ok (negb (n =? 0)), dropped st c ct n).
Proof.
  intros Hi Hb Hs Hct Hf Hn. unfold msg_rm_refs. rewrite (proj2 (Z.leb_le 0 failed)) by lia. cbn [zmq_assert].
  rewrite run_lift_Ok, (proj2 (Z.eqb_neq failed 0)) by lia. rewrite (run_get_var i m), Hb, Hs by done.
  rewrite (sub_run st c ct failed n true false) by done. by destruct (n =? 0).
Qed.

Lemma dropped_again v h l c ct r n : h !! c = Some ct →
  dropped (mkMS v (<[c := set_refcnt r ct]> h) l) c (set_refcnt r ct) n = dropped (mkMS v h l) c ct n.
Proof. intros Hc. unfold dropped. simpl. by rewrite delete_insert_eq, insert_insert_eq. Qed.

(** What is left after the references are taken back is what closing the variable leaves. *)
Lemma taken_back st a i m x c ct pipes : mrel st a → vars st !! i = Some m → avars a !! i = Some x →
  mbody m = lmsg (Some c) → contents st !! c = Some ct → (2 ≤ length pipes)%nat → NoDup pipes.*1 → i ∉ pipes.*1 →
  (∀ k, k ∈ pipes.*1 → avars a !! k = None) → Z.of_nat (size (avars a)) + Z.of_nat (length pipes) < 2 ^ 31 →
  let v := copies (mark m) (taken pipes) (<[i := mark m]> (vars st)) in
  let r n := set_refcnt (Z.of_nat (size (refs c (vars st))) + n) ct in
  ∃ st', (if negb (refused pipes =? 0) then _ ← msg_rm_refs i (refused pipes); mret () else mret ())
    (mkMS v (<[c := r (Z.of_nat (length pipes) - 1)]> (contents st)) (ffn_calls st)) = (Ok (), st') ∧
  vars st' = v ∧
  mrel (mkMS (<[i := mkMsg (vsm (Some "") 0) 0]> v) (contents st') (ffn_calls st'))
    (aset i aempty (mkA (copies x (taken pipes) (avars a)) (given a))).
Proof.
  intros Hr Hm Hx Hb Hct HL Hnd Hi Hk Hsz v r. set (ks := taken pipes) in *.
  pose proof (taken_length pipes) as HK. fold ks in HK. pose proof (rel_size _ _ Hr) as Hvs.
  pose proof (refs_size c (vars st)) as HF. pose proof (refs_ne c (vars st) i m Hm (refers_refl c m Hb)) as HF0.
  assert (size (refs c (vars st)) ≠ 0%nat) as HF1 by (by intros ?%map_size_empty_inv).
  assert (i ∉ ks) as Hik by (by intros ?%taken_in). pose proof (taken_nodup _ Hnd) as Hndk.
  assert (∀ k, k ∈ ks → vars st !! k = None) as Hkn. { intros k Hin. eapply rel_none; [done|]. by apply Hk, taken_in. }
  pose proof (shared_copies st a i m x c ct ks Hr Hm Hx Hb Hct Hndk Hik) as HrV.
  fold v (r (Z.of_nat (length ks))) in HrV. specialize (HrV ltac:(intros d k Hin; apply refs_not; intros n Hn; by rewrite Hkn in Hn)).
  set (stV := mkMS v (<[c := r (Z.of_nat (length ks))]> (contents st)) (ffn_calls st)) in HrV.
  assert (vars stV !! i = Some (mark m)) as HiV.
  { simpl. unfold v. rewrite copies_lookup, lookup_insert_eq. by case_decide. }
  assert (size v = size (vars st) + length ks)%nat as HvV.
  { unfold v. rewrite copies_size; [|done|].
    - by rewrite map_size_insert_Some by (by eexists).
    - intros k Hin. rewrite lookup_insert_ne by (by intros ->). auto. }
  assert (mbody (mark m) = lmsg (Some c)) as HbV by (by rewrite mark_body).
  destruct (drop_ref_spec stV i (mark m) c (mkMsg (vsm (Some "") 0) 0) (rel_counted _ _ HrV) HiV HbV) as (st' & Hrun & Hv' & Hc' & Hk' & Hf');
    [simpl; lia|apply empty_unref|].
  set (n := Z.of_nat (size (refs c (vars st))) + Z.of_nat (length ks) - 1).
  rewrite (drop_ref_run stV (mark m) c (r (Z.of_nat (length ks))) n) in Hrun;
    [|apply mark_shared|apply lookup_insert_eq|simpl; rewrite u32_small; lia].
  unfold stV, r in Hrun. rewrite dropped_again in Hrun by done. injection Hrun as Hst'. exists st'. split; [|split; [done|]].
  - unfold refused. fold ks. destruct (Z.eqb_spec (Z.of_nat (length pipes) - Z.of_nat (length ks)) 0) as [Hz|Hz]; cbn [negb].
    + rewrite <-Hst'. unfold dropped. rewrite (proj2 (Z.eqb_neq n 0)) by lia. unfold r, n. simpl.
      by replace (Z.of_nat (size (refs c (vars st))) + Z.of_nat (length ks) - 1) with
        (Z.of_nat (size (refs c (vars st))) + (Z.of_nat (length pipes) - 1)) by lia.
    + erewrite bind_Ok; [done|]. rewrite (rm_refs_run _ i (mark m) c (r (Z.of_nat (length pipes) - 1)) n);
        [|done|done|apply mark_shared|apply lookup_insert_eq|lia|simpl; rewrite u32_small; lia].
      unfold r. by rewrite dropped_again, Hst'.
  - constructor; simpl.
    + by apply (keeps_vars stV (mkA (copies x ks (avars a)) (given a))).
    + done.
    + rewrite Hf'. apply (rel_ffn _ _ HrV).
Qed.

(** A message that is not in a buffer. *)
Lemma distribute_unref st a i m x pipes : mrel st a → vars st !! i = Some m → avars a !! i = Some x → alive a i = true →
  (∀ c, refers c m = false) → (if mbody m is lmsg _ then false else true) = true → i ∉ pipes.*1 → NoDup pipes.*1 →
  (∀ k, k ∈ pipes.*1 → avars a !! k = None) → Z.of_nat (size (avars a)) + Z.of_nat (length pipes) < 2 ^ 31 →
  ∃ st', msg_distribute i pipes st = (Ok (), st') ∧
  mrel st' (aset i aempty (mkA (copies x (taken pipes) (avars a)) (given a))).
Proof.
  intros Hr Hm Hx Hal Hun Hb Hi Hnd Hk Hsz. unfold msg_distribute.
  destruct (rel_some _ _ _ _ Hr Hx) as (m' & Hm' & Hmx). assert (m' = m) as -> by congruence.
  assert (∀ k, k ∈ taken pipes → avars a !! k = None) as Hkn by (intros k ?%taken_in; auto).
  pose proof (copies_unref st a m x (taken pipes) Hr Hun Hmx) as HrC.
  specialize (HrC ltac:(intros d k Hin; apply refs_not; intros n Hn; rewrite (rel_none _ _ _ Hr) in Hn by auto; done)).
  set (st1 := mkMS _ _ _) in HrC. set (a1 := mkA _ _) in HrC.
  assert (i ∉ taken pipes) as Hik by (by intros ?%taken_in).
  assert (alive a1 i = true) as Hal1. { unfold alive, a1. simpl. rewrite copies_lookup, decide_False by done. done. }
  assert (Z.of_nat (size (avars a1)) < 2 ^ 31) as Hsz1.
  { simpl. rewrite copies_size; [|by apply taken_nodup|done]. pose proof (taken_length pipes). lia. }
  destruct (close_and_init_rel st1 a1 i HrC Hal1 Hsz1) as (st2 & Hrun2 & Hr2).
  destruct (Nat.eqb_spec (length pipes) 0) as [HL|HL].
  { apply length_zero_iff_nil in HL as ->. exists st2. split; [|done]. by destruct st. }
  pose proof (write_copies_run st i m pipes Hm Hi) as Hw. fold st1 in Hw.
  assert (∀ n, 0 ≤ n → msg_add_refs i n st = (Ok (), st)) as Hadd.
  { intros n Hn. unfold msg_add_refs. rewrite (proj2 (Z.leb_le 0 n)) by done. cbn [zmq_assert]. rewrite run_lift_Ok.
    destruct (n =? 0); [done|]. rewrite (run_get_var i m) by done. by destruct (mbody m). }
  assert (∃ st', (_ ← msg_add_refs i (Z.of_nat (length pipes) - 1);
      failed ← write_copies i pipes;
      _ ← (if negb (failed =? 0) then _ ← msg_rm_refs i failed; mret () else mret ());
      rc ← msg_init i; lift (zmq_assert "rc == 0" (rc =? 0))) st = (Ok (), st') ∧ mrel st' (aset i aempty a1)) as Hlong.
  { pose proof (taken_length pipes). erewrite bind_Ok by (apply Hadd; lia). erewrite bind_Ok by exact Hw.
    assert (vars st1 !! i = Some m) as Hm1. { simpl. by rewrite copies_lookup, decide_False. }
    destruct (Z.eqb_spec (refused pipes) 0) as [Hz|Hz]; cbn [negb].
    - rewrite run_ret. apply init_rel; [done|]. intros c. apply refs_not. intros n Hn. congruence.
    - destruct (close_rel st1 a1 i HrC Hal1 Hsz1) as (st3 & Hrun3 & Hr3).
      assert (msg_rm_refs i (refused pipes) st1 = (Ok false, st3)) as Hrm.
      { unfold msg_rm_refs, refused in *. rewrite (proj2 (Z.leb_le 0 _)) by lia. cbn [zmq_assert].
        rewrite run_lift_Ok, (proj2 (Z.eqb_neq _ 0)), (run_get_var i m) by done.
        by destruct (mbody m); [..|]; first [by erewrite bind_Ok by exact Hrun3|done]. }
      erewrite bind_Ok by (by erewrite bind_Ok by exact Hrm). rewrite <-(aset_aset i aempty AClosed a1).
      apply init_rel; [done|]. intros c. eapply vacant_refs; [done|apply vacant_closed]. }
  rewrite (run_get_var i m) by done. destruct (mbody m) eqn:Hbm; [|done|exact Hlong..].
  exists st2. split; [|done]. by erewrite bind_Ok by exact Hw.
Qed.

(** The only pipe does not take the message. *)
Lemma rm_one st a i m x c : mrel st a → vars st !! i = Some m → avars a !! i = Some x → alive a i = true →
  mbody m = lmsg (Some c) → Z.of_nat (size (avars a)) < 2 ^ 31 →
  ∃ st', (_ ← msg_rm_refs i 1; rc ← msg_init i; lift (zmq_assert "rc == 0" (rc =? 0))) st = (Ok (), st') ∧
  mrel st' (aset i aempty a).
Proof.
  intros Hr Hm Hx Hal Hb Hsz. pose proof (rel_counted _ _ Hr) as Hc. pose proof (rel_size _ _ Hr) as Hvs.
  destruct (counted_lookup _ _ _ _ _ Hc Hm Hb) as (ct & Hct & _). destruct (is_shared m) eqn:Hs.
  - destruct (drop_ref_spec st i m c (mkMsg (vsm (Some "") 0) 0) Hc Hm Hb) as (st1 & Hrun & Hv & Hc1 & Hk1 & Hf1);
      [lia|apply empty_unref|]. rewrite (drop_ref_run st m c ct (u32 (refcnt ct - 1))) in Hrun by done. injection Hrun as Hst1.
    erewrite bind_Ok by (apply (rm_refs_run st i m c ct); [done..|lia|done]). rewrite Hst1. eexists. split; [done|].
    constructor; simpl; rewrite ?Hv; [by apply (keeps_vars st a)|done|]. rewrite Hf1. apply Hr.
  - destruct (close_rel st a i Hr Hal Hsz) as (st1 & Hrun & Hr1).
    assert (msg_rm_refs i 1 st = (Ok false, st1)) as Hrm.
    { unfold msg_rm_refs. cbn [zmq_assert Z.leb Z.compare Z.eqb]. rewrite run_lift_Ok, (run_get_var i m), Hb, Hs by done.
      by erewrite bind_Ok by exact Hrun. }
    erewrite bind_Ok by exact Hrm. rewrite <-(aset_aset i aempty AClosed a). apply init_rel; [done|].
    intros d. eapply vacant_refs; [done|apply vacant_closed].
Qed.

(** A message in a buffer. *)
Lemma distribute_buffer st a i m x c pipes : mrel st a → vars st !! i = Some m → avars a !! i = Some x → alive a i = true →
  mbody m = lmsg (Some c) → i ∉ pipes.*1 → NoDup pipes.*1 →
  (∀ k, k ∈ pipes.*1 → avars a !! k = None) → Z.of_nat (size (avars a)) + Z.of_nat (length pipes) < 2 ^ 31 →
  ∃ st', msg_distribute i pipes st = (Ok (), st') ∧
  mrel st' (aset i aempty (mkA (copies x (taken pipes) (avars a)) (given a))).
Proof.
  intros Hr Hm Hx Hal Hb Hi Hnd Hk Hsz. unfold msg_distribute. pose proof (rel_counted _ _ Hr) as Hc. pose proof (rel_size _ _ Hr) as Hvs.
  destruct (counted_lookup _ _ _ _ _ Hc Hm Hb) as (ct & Hct & _).
  destruct pipes as [|[k ok] [|p2 pipes]].
  - destruct (close_and_init_rel st a i Hr Hal ltac:(simpl in Hsz; lia)) as (st' & Hrun & Hr'). exists st'. by destruct a.
  - cbn [length Nat.eqb]. rewrite (run_get_var i m), Hb by done.
    erewrite bind_Ok by done. erewrite bind_Ok by (by apply (write_copies_run st i m)). destruct ok.
    + eexists. split; [done|]. destruct (pod_move st a k i m x Hr) as [Hmv _]; [|set_solver|done|done|].
      * unfold vacant. rewrite Hk; [done|]. set_solver.
      * by apply Hmv.
    + destruct (rm_one st a i m x c) as (st' & Hrun & Hr'); try done; [simpl in Hsz; lia|].
      exists st'. split; [|by destruct a]. rewrite <-Hrun.
      change (refused [(k, false)]) with 1. replace (mkMS _ _ _) with st by (by destruct st).
      unfold mbind, M_bind. cbn [negb Z.eqb]. by destruct (msg_rm_refs i 1 st) as [[] ?].
  - set (ps := (k, ok) :: p2 :: pipes) in *. assert (2 ≤ length ps)%nat as HL by (simpl; lia).
    rewrite (proj2 (Nat.eqb_neq (length ps) 0)) by lia. rewrite (run_get_var i m), Hb by done.
    destruct (taken_back st a i m x c ct ps Hr Hm Hx Hb Hct HL Hnd Hi Hk Hsz) as (st' & Hrun & Hv & Hr').
    assert (msg_add_refs i (Z.of_nat (length ps) - 1) st = (Ok (), shared_state st i m c ct (Z.of_nat (length ps) - 1))) as Hadd.
    { unfold msg_add_refs. rewrite (proj2 (Z.leb_le 0 _)) by lia. cbn [zmq_assert]. rewrite run_lift_Ok, (proj2 (Z.eqb_neq _ 0)) by lia.
      rewrite (run_get_var i m) by done. pose proof (share_run st i m c ct (Z.of_nat (length ps) - 1) Hc Hm Hb Hct ltac:(lia) ltac:(lia)) as [_ Hs].
      rewrite Hb in Hs |- *. exact Hs. }
    erewrite bind_Ok by exact Hadd. erewrite bind_Ok by (apply (write_copies_run _ i (mark m)); [apply lookup_insert_eq|done]).
    erewrite bind_Ok by exact Hrun. eexists. split; [done|]. by rewrite Hv.
Qed.

(** ** All operations *)

Lemma distribute_op st a i pipes : mrel st a → allowed (ODistribute i pipes) a = true →
  ∃ st', mstep (ODistribute i pipes) st = (Ok (astep (ODistribute i pipes) a).1, st') ∧ mrel st' (astep (ODistribute i pipes) a).2.
Proof.
  intros Hr Hal. cbn [allowed] in Hal. apply andb_prop in Hal as [[[[Hi Hnd%bool_decide_eq_true]%andb_prop Hk]%andb_prop Hsz%Z.ltb_lt]%andb_prop _].
  assert (∀ k, k ∈ pipes.*1 → avars a !! k = None) as Hkn.
  { intros k Hin. rewrite forallb_forall in Hk. apply list_elem_of_In in Hin. specialize (Hk k Hin). unfold exists_var in Hk.
    by destruct (avars a !! k). }
  destruct (alive_some _ _ Hi) as (f & p & Hx). assert (i ∉ pipes.*1) as Hin by (intros Hin; by rewrite Hkn in Hx).
  destruct (rel_some _ _ _ _ Hr Hx) as (m & Hm & Hmx). cbn [mstep astep fst snd]. rewrite Hx, acopies_eq. simpl default.
  assert (∃ st', msg_distribute i pipes st = (Ok (), st') ∧
    mrel st' (aset i aempty (mkA (copies (AMsg f p) (taken pipes) (avars a)) (given a)))) as (st' & Hrun & Hr').
  { destruct (mbody m) as [|q| | |] eqn:Hb.
    2: { unfold msg_is in Hmx. rewrite Hb in Hmx. destruct p; [|done]. destruct Hmx as (c & ct & -> & _). by apply (distribute_buffer st a i m _ c). }
    all: apply (distribute_unref st a i m); try done; [intros c; unfold refers; by rewrite Hb|by rewrite Hb]. }
  exists st'. split; [|done]. by erewrite bind_Ok by exact Hrun.
Qed.

Lemma ldiff_lor f g : 0 ≤ g < shared_flag → Z.ldiff (Z.lor f g) shared_flag = Z.lor (Z.ldiff f shared_flag) g.
Proof.
  intros Hg. apply Z.bits_inj'. intros i Hi. rewrite Z.lor_spec, !Z.ldiff_spec, Z.lor_spec. change shared_flag with (2 ^ 7) in *.
  rewrite Z.pow2_bits_eqb by done. destruct (Z.eqb_spec 7 i) as [<-|]; [|destruct (Z.testbit f i); by rewrite ?andb_true_r].
  assert (Z.testbit g 7 = false) as -> by (rewrite Z.testbit_false, Z.div_small by lia; done). by destruct (Z.testbit f 7).
Qed.

Lemma ldiff_swap f g h : Z.ldiff (Z.ldiff f g) h = Z.ldiff (Z.ldiff f h) g.
Proof. apply Z.bits_inj'. intros i Hi. rewrite !Z.ldiff_spec. by destruct (Z.testbit f i), (Z.testbit g i), (Z.testbit h i). Qed.

(** The flag [shared] is left alone. *)
Lemma low_flags f g : 0 ≤ g < shared_flag →
  Z.testbit (Z.lor f g) 7 = Z.testbit f 7 ∧ Z.testbit (Z.ldiff f g) 7 = Z.testbit f 7.
Proof.
  intros Hg. rewrite Z.lor_spec, Z.ldiff_spec. change shared_flag with (2 ^ 7) in *.
  assert (Z.testbit g 7 = false) as -> by (rewrite Z.testbit_false, Z.div_small by lia; done). by destruct (Z.testbit f 7).
Qed.

(** Other flags than [shared] are changed. *)
Lemma flags_rel st a i m g G : mrel st a → vars st !! i = Some m → alive a i = true →
  Z.testbit (g (mflags m)) 7 = Z.testbit (mflags m) 7 →
  Z.ldiff (g (mflags m)) shared_flag = G (Z.ldiff (mflags m) shared_flag) →
  mrel (mkMS (<[i := mkMsg (mbody m) (g (mflags m))]> (vars st)) (contents st) (ffn_calls st)) (aflags G i a).
Proof.
  intros Hr Hm Hal Hbit HG. destruct (alive_some _ _ Hal) as (f & p & Hx). destruct (rel_some _ _ _ _ Hr Hx) as (m' & Hm' & Hmx).
  assert (m' = m) as -> by congruence. set (m' := mkMsg _ _).
  assert (is_shared m' = is_shared m) as Hs by (by rewrite !is_shared_bit).
  constructor; simpl; [|intros c|apply Hr].
  - intros k. destruct (decide (i = k)) as [<-|Hne].
    + rewrite lookup_insert_eq, lookup_alter_eq, Hx. constructor. unfold msg_is in Hmx |- *. unfold m'. cbn [mbody mflags]. rewrite HG.
      destruct (mbody m), p; naive_solver.
    + rewrite lookup_insert_ne, lookup_alter_ne by done. apply Hr.
  - pose proof (rel_counted _ _ Hr c) as Hc. rewrite refs_insert, (refers_body c m' m) by done. destruct (refers c m) eqn:Hrc.
    + assert (refs c (vars st) !! i = Some m) as HF by (by apply refs_lookup). set (F := refs c (vars st)) in *.
      destruct (contents st !! c) as [ct|]; [|by rewrite Hc in HF]. destruct Hc as [Hne Hc]. split; [apply insert_non_empty|].
      rewrite map_size_insert_Some by (by eexists).
      destruct Hc as [[Hn HP]|[Hn HP]]; [left|right]; (split; [done|]); intros k n; (destruct (decide (i = k)) as [<-|Hk];
        [rewrite lookup_insert_eq; intros [= <-]; rewrite Hs; by apply (HP i)|rewrite lookup_insert_ne by done; apply HP]).
    + rewrite delete_id by (apply refs_not; intros n Hn; congruence). done.
Qed.

Lemma flags_op st a op : mrel st a → allowed op a = true → (∃ i f, op = OSet i f ∨ op = OReset i f) →
  ∃ st', mstep op st = (Ok (astep op a).1, st') ∧ mrel st' (astep op a).2.
Proof.
  intros Hr Hal (i & f & Hop). assert (alive a i = true ∧ 0 ≤ f < shared_flag) as [Hi Hf].
  { destruct Hop as [-> | ->]; cbn [allowed] in Hal; apply andb_prop in Hal as [[[? ?%Z.leb_le]%andb_prop ?%Z.ltb_lt]%andb_prop _]; done. }
  destruct (alive_check _ _ _ Hr Hi) as (m & Hm & _). pose proof (low_flags (mflags m) f Hf) as [H1 H2].
  destruct Hop as [-> | ->]; eexists; cbn [mstep astep fst snd].
  - split; [erewrite bind_Ok by (unfold msg_set_flags; by rewrite (run_get_var i m)); done|].
    apply (flags_rel st a i m (λ fl, Z.lor fl f)); [done..|]. by apply ldiff_lor.
  - split; [erewrite bind_Ok by (unfold msg_reset_flags; by rewrite (run_get_var i m)); done|].
    apply (flags_rel st a i m (λ fl, Z.ldiff fl f)); [done..|]. apply ldiff_swap.
Qed.

Lemma read_rel st a i f s : mrel st a → avars a !! i = Some (AMsg f (PData s)) →
  msg_data i st = (Ok s, st) ∧ msg_size i st = (Ok (size_of s), st).
Proof.
  intros Hr Hx. destruct (rel_some _ _ _ _ Hr Hx) as (m & Hm & Hmx). unfold msg_data, msg_size.
  rewrite !(run_get_var i m) by done. rewrite (msg_is_check _ _ _ Hmx). cbn [zmq_assert]. rewrite !run_lift_Ok.
  unfold msg_is in Hmx. destruct (mbody m) as [d n|q| |d|]; try done.
  - by destruct Hmx as (-> & -> & _).
  - destruct Hmx as (c & ct & -> & Hct & Hd & Hn & _). rewrite !(run_get_content c ct) by done. by rewrite Hd, Hn.
  - by destruct Hmx as [-> _].
Qed.

Lemma step_rel st a op : mrel st a → allowed op a = true →
  ∃ st', mstep op st = (Ok (astep op a).1, st') ∧ mrel st' (astep op a).2.
Proof.
  intros Hr Hal. pose proof Hal as [Hop Hsz%Z.ltb_lt]%andb_prop. destruct op as [i|i s|i s ffn|i|i|i j|i j|i f|i f|i|i|i pipes|i k].
  - eexists. split; [done|]. apply set_unref; try done. intros c. by eapply vacant_refs.
  - by apply make_rel.
  - by apply wrap_rel.
  - eexists. split; [done|]. apply set_unref; try done. intros c. by eapply vacant_refs.
  - cbn [mstep astep]. destruct (exists_cases _ _ Hop) as [Hc|Hi].
    + exists st. unfold alive. rewrite Hc. split; [|done]. by erewrite bind_Ok by (by eapply close_closed).
    + destruct (close_rel st a i Hr Hi Hsz) as (st' & Hrun & Hr'). exists st'. rewrite Hi. split; [|done]. by erewrite bind_Ok by exact Hrun.
  - by apply move_op.
  - by apply copy_op.
  - apply flags_op; [done|done|]. exists i, f. by left.
  - apply flags_op; [done|done|]. exists i, f. by right.
  - exists st. cbn [mstep astep fst snd]. destruct (avars a !! i) as [[|f [s|]]|] eqn:Hx; try done.
    split; [|done]. by erewrite bind_Ok by apply (read_rel st a i f s Hr Hx).
  - exists st. cbn [mstep astep fst snd]. destruct (avars a !! i) as [[|f [s|]]|] eqn:Hx; try done.
    split; [|done]. by erewrite bind_Ok by apply (read_rel st a i f s Hr Hx).
  - by apply distribute_op.
  - by apply take_op.
Qed.

Lemma run_rel ops : ∀ st a, mrel st a → allowed_run ops a = true →
  ∃ st', mrun ops st = (Ok (arun ops a).1, st') ∧ mrel st' (arun ops a).2.
Proof.
  induction ops as [|op ops IH]; intros st a Hr Hal; [by exists st|]. cbn [allowed_run] in Hal. apply andb_prop in Hal as [Hop Hal].
  destruct (step_rel st a op Hr Hop) as (st1 & Hrun1 & Hr1). destruct (IH st1 _ Hr1 Hal) as (st2 & Hrun2 & Hr2).
  exists st2. cbn [mrun arun]. destruct (astep op a) as [o a1]. cbn [fst snd] in *. destruct (arun ops a1) as [os a2]. cbn [fst snd] in *.
  split; [|done]. erewrite bind_Ok by exact Hrun1. by erewrite bind_Ok by exact Hrun2.
Qed.

Lemma new_rel : mrel mnew anew.
Proof. constructor; simpl; [intros i; rewrite !lookup_empty; constructor|intros c; by rewrite lookup_empty|done]. Qed.

(** Every buffer has a message that points to it. *)
Lemma rel_buffers st a c : mrel st a → c ∈ dom (contents st) ↔ ∃ i m, vars st !! i = Some m ∧ mbody m = lmsg (Some c).
Proof.
  intros Hr. rewrite elem_of_dom. pose proof (rel_counted _ _ Hr c) as Hc. split.
  - intros [ct Hct]. rewrite Hct in Hc. destruct Hc as [Hne _]. apply map_choose in Hne as (i & m & Hm).
    apply refs_lookup in Hm as [Hm Hrc]. exists i, m. split; [done|]. unfold refers in Hrc.
    destruct (mbody m) as [|[d|]| | |]; try done. apply Nat.eqb_eq in Hrc. by subst.
  - intros (i & m & Hm & Hb). destruct (counted_lookup _ _ _ _ _ (rel_counted _ _ Hr) Hm Hb) as (ct & Hct & _). by exists ct.
Qed.

Lemma rel_ended st a : mrel st a → (∀ i, alive a i = false) → contents st = ∅ ∧ ffn_calls st ≡ₚ given a.
Proof.
  intros Hr Hal. assert (contents st = ∅) as He.
  { apply dom_empty_inv_L, elem_of_equiv_empty_L. intros c (i & m & Hm & Hb)%(rel_buffers _ a); [|done].
    pose proof (rel_vars _ _ Hr i) as Hv. rewrite Hm in Hv. inversion Hv as [? x Hx|]; subst. specialize (Hal i). unfold alive in Hal.
    unfold msg_is in Hx. rewrite Hb in Hx. destruct (avars a !! i) as [[]|]; simplify_eq. done. }
  split; [done|]. pose proof (rel_ffn _ _ Hr) as Hf. rewrite He in Hf. unfold live_ffn in Hf. rewrite map_to_list_empty in Hf. simpl in Hf.
  by rewrite app_nil_r in Hf.
Qed.

(** When there is no memory for a long message, nothing is allocated; the message must not be used. *)
Lemma init_size_fails st i n : max_vsm_size < n → malloc (dom (contents st)) = None →
  msg_init_size i n st = (Ok (-1), mkMS (<[i := mkMsg (lmsg None) 0]> (vars st)) (contents st) (ffn_calls st)).
Proof.
  intros Hn Hm. unfold msg_init_size. destruct (Z.leb_spec n max_vsm_size); [lia|]. unfold new_content. by rewrite run_gets, Hm.
Qed.

End msg.

(** C17: Whatever messages are made, closed, moved, copied, flagged, sent to many pipes, some of
    which do not take them, and read from pipes, in whatever order: with an allocator that finds memory
    every operation returns what it would if each message held its own bytes, no freed or null buffer is
    used, exactly the buffers that some message points to are allocated, and when no message is left
    all are freed and each buffer the application gave was given back once. *)
Theorem messages_by_value (malloc : gset nat → option nat) (ops : list mop) :
  (∀ X, ∃ c, malloc X = Some c ∧ c ∉ X) → allowed_run ops anew = true →
  ∃ st, mrun malloc ops mnew = (Ok (arun ops anew).1, st) ∧
    (∀ c, c ∈ dom (contents st) ↔ ∃ i m, vars st !! i = Some m ∧ mbody m = lmsg (Some c)) ∧
    ((∀ i, alive (arun ops anew).2 i = false) → contents st = ∅ ∧ ffn_calls st ≡ₚ given (arun ops anew).2).
Proof.
  intros Hm Hal. destruct (run_rel malloc Hm ops mnew anew new_rel Hal) as (st & Hrun & Hr). exists st. split; [done|].
  split; [intros c; by apply (rel_buffers _ (arun ops anew).2)|by apply rel_ended].
Qed.

(** A long message goes to three pipes, one of which is full; a buffer of the application is
    copied; everything is read and closed. *)
Definition sample_text : string := "a message of more than twenty-nine bytes".
Definition sample_msgs : list mop :=
  [OMake 0 sample_text; OSet 0 more_flag; ODistribute 0 [(10, true); (11, false); (12, true)]; OSize 0; OClose 0; OTake 0 10;
   OData 0; OWrap 1 sample_text (Some 7); OInit 2; OCopy 2 1; OClose 1; OClose 1; OInit 3; OMove 3 2; OData 3; OSize 2;
   ODistribute 3 [(13, false)]; OClose 0; OTake 0 12; OData 0; OClose 0; OClose 2; OClose 3]%nat.

Lemma messages_by_value_witness : ∃ st, mrun (λ X, Some (fresh X)) sample_msgs mnew =
  (Ok [MRc 0; MDone; MDone; MSize 0; MRc 0; MDone; MBytes sample_text; MRc 0; MRc 0; MRc 0; MRc 0; MRc (-1); MRc 0; MRc 0;
       MBytes sample_text; MSize 0; MDone; MRc 0; MDone; MBytes sample_text; MRc 0; MRc 0; MRc 0], st) ∧
  contents st = ∅ ∧ ffn_calls st ≡ₚ [7%nat].
Proof.
  destruct (messages_by_value (λ X, Some (fresh X)) sample_msgs) as (st & Hrun & _ & Hend).
  - intros X. exists (fresh X). split; [done|apply is_fresh].
  - by vm_compute.
  - exists st. split; [exact Hrun|]. apply Hend. intros i. unfold alive.
    assert (avars (arun sample_msgs anew).2 = {[0 := AClosed; 1 := AClosed; 2 := AClosed; 3 := AClosed]}%nat) as -> by (by vm_compute).
    do 4 (destruct i as [|i]; [done|]). by rewrite !lookup_insert_ne, lookup_singleton_ne by done.
Defined.

(** [xpub_t::xrecv] makes a message with the flags of one that came in.  When these say that a
    buffer is shared, closing the message wraps its count around, and the buffer is never freed. *)
Lemma shared_flag_leaks : let '(r, st) := mrun (λ X, Some (fresh X)) [OMake 0 sample_text; OSet 0 shared_flag; OClose 0] mnew in
  r = Ok [MRc 0; MDone; MRc 0] ∧ map_to_list (contents st) ≠ [].
Proof. by vm_compute. Qed.
