(* ===== verification/ZmqYpipe.v ===== *)
(** * The lock-free queue of a pipe

    [zmq::ypipe_t] (zeromq-4.0.4/src/ypipe.hpp): one thread writes, another reads.
    Items are in slots that are numbered here in the order of allocation; the
    pointers [w], [f], [r] and [c] of the code are such numbers.  [front] is the
    slot that is read next, [back] the terminator that is written next.  The
    writer uses [w] and [f], the reader [r]; [c] is the only variable both use,
    and every operation accesses it once, so operations are steps. *)

From S2P Require Import Prelude ZmqNode.

Record ypipe_t (T : Type) := mkYpipe {
  slots : list T;                 (** the items of the slots [front .. back - 1] *)
  front : nat;
  yw : nat;                       (** first item that is not flushed *)
  yf : nat;                       (** first item that is not complete *)
  yr : option nat;                (** first item that is not prefetched *)
  yc : option nat                 (** past the last flushed item, null when the reader sleeps *)
}.
Arguments mkYpipe {T}.
Arguments slots {T}.
Arguments front {T}.
Arguments yw {T}.
Arguments yf {T}.
Arguments yr {T}.
Arguments yc {T}.

Section ypipe.
Context {T : Type}.
Implicit Types (q : ypipe_t T) (x : T).

Definition ypipe_new : ypipe_t T := mkYpipe [] 0 0 0 (Some 0%nat) (Some 0%nat).

(** [&queue.back ()] *)
Definition back q : nat := (front q + length (slots q))%nat.

Definition ywrite x (incomplete : bool) q : ypipe_t T :=
  let q := mkYpipe (slots q ++ [x]) (front q) (yw q) (yf q) (yr q) (yc q) in
  if incomplete then q
  else mkYpipe (slots q) (front q) (yw q) (back q) (yr q) (yc q).

(** The last item, when it is incomplete. *)
Definition yunwrite q : res (option T) * ypipe_t T :=
  if decide (yf q = back q) then (Ok None, q)
  else match last (slots q) with
       | Some x => (Ok (Some x),
                    mkYpipe (take (length (slots q) - 1) (slots q)) (front q) (yw q) (yf q) (yr q) (yc q))
       | None => (Throw (UndefinedBehaviour "back of an empty queue"), q)
       end.

(** False when the reader sleeps. *)
Definition yflush q : bool * ypipe_t T :=
  if decide (yw q = yf q) then (true, q)
  else (bool_decide (yc q = Some (yw q)),
        mkYpipe (slots q) (front q) (yf q) (yf q) (yr q) (Some (yf q))).

Definition ycheck_read q : bool * ypipe_t T :=
  if decide (yr q ≠ Some (front q) ∧ yr q ≠ None) then (true, q)
  else
    let r := yc q in
    let c := if decide (yc q = Some (front q)) then None else yc q in
    (bool_decide (r ≠ Some (front q) ∧ r ≠ None),
     mkYpipe (slots q) (front q) (yw q) (yf q) r c).

Definition yread q : res (option T) * ypipe_t T :=
  let '(ok, q) := ycheck_read q in
  if ok then
    match slots q with
    | x :: l => (Ok (Some x), mkYpipe l (S (front q)) (yw q) (yf q) (yr q) (yc q))
    | [] => (Throw (UndefinedBehaviour "front of an empty queue"), q)
    end
  else (Ok None, q).

(** The item that is read next. *)
Definition yprobe q : res T * ypipe_t T :=
  let '(ok, q) := ycheck_read q in
  (_ ← zmq_assert "rc" ok;
   match slots q with
   | x :: l => Ok x
   | [] => Throw (UndefinedBehaviour "front of an empty queue")
   end, q).

(** ** Invariant *)

(** [c] is null only while nothing is flushed. *)
Record ypipe_wf q : Prop := mkYpipeWf {
  wf_front : (front q ≤ yw q ≤ yf q)%nat;
  wf_back : (yf q ≤ back q)%nat;
  wf_c : yc q = Some (yw q) ∨ (yc q = None ∧ yw q = front q);
  wf_r : ∀ r, yr q = Some r → (front q ≤ r ≤ yw q)%nat
}.

(** Items that can be read; that are complete but not flushed; that are incomplete. *)
Definition flushed q : list T := take (yw q - front q) (slots q).
Definition complete q : list T := take (yf q - front q) (slots q).
Definition asleep q : bool := bool_decide (yc q = None).

Lemma ypipe_new_wf : ypipe_wf ypipe_new.
Proof. constructor; unfold back; simpl; [lia|lia|by left|]. intros r [= <-]. lia. Qed.

Lemma ywrite_spec x b q : ypipe_wf q →
  ypipe_wf (ywrite x b q) ∧ flushed (ywrite x b q) = flushed q ∧ asleep (ywrite x b q) = asleep q ∧
  slots (ywrite x b q) = slots q ++ [x] ∧
  complete (ywrite x b q) = (if b then complete q else slots q ++ [x]).
Proof.
  intros [Hw Hf Hc Hr]. unfold flushed, complete, asleep, back in *.
  split; [|destruct b; simpl].
  - destruct b; constructor; unfold ywrite, back; simpl; rewrite ?length_app; simpl; done || lia.
  - by rewrite !take_app_le by lia.
  - unfold back. simpl. split; [by rewrite take_app_le by lia|]. do 2 (split; [done|]).
    apply take_ge. rewrite length_app. simpl. lia.
Qed.

Lemma yunwrite_spec q : ypipe_wf q →
  let '(r, q') := yunwrite q in
  ypipe_wf q' ∧ flushed q' = flushed q ∧ complete q' = complete q ∧ asleep q' = asleep q ∧
  ((slots q = complete q ∧ r = Ok None ∧ q' = q) ∨ ∃ x, r = Ok (Some x) ∧ slots q = slots q' ++ [x]).
Proof.
  intros [Hw Hf Hc Hr]. unfold yunwrite, flushed, complete, asleep, back in *. case_decide as Hd.
  { split; [by constructor|]. do 3 (split; [done|]). left. split; [|done]. rewrite take_ge; [done|lia]. }
  destruct (last (slots q)) as [x|] eqn:Hl; last first.
  { apply last_None in Hl. rewrite Hl in Hd, Hf. simpl in *. lia. }
  apply last_Some in Hl as [l Hl]. rewrite Hl in *. rewrite length_app in *. simpl in *.
  replace (length l + 1 - 1)%nat with (length l) by lia. rewrite take_app_length.
  rewrite !take_app_le by lia.
  split; [constructor; unfold back; simpl; done || lia|]. do 3 (split; [done|]). right. by exists x.
Qed.

(** Flushing makes the complete items readable; it reports a sleeping reader
    exactly when there is something new to read. *)
Lemma yflush_spec q : ypipe_wf q →
  let '(awake, q') := yflush q in
  ypipe_wf q' ∧ slots q' = slots q ∧ flushed q' = complete q ∧ complete q' = complete q ∧
  (awake = false ↔ asleep q = true ∧ complete q ≠ []) ∧
  (asleep q' = true ↔ asleep q = true ∧ complete q = []).
Proof.
  intros Hq. pose proof Hq as [Hw Hf Hc Hr]. unfold yflush. case_decide as Hd.
  - split; [done|]. split; [done|]. unfold flushed, complete. rewrite Hd. do 2 (split; [done|]).
    assert (asleep q = true → take (yf q - front q) (slots q) = []) as Hs.
    { unfold asleep. intros Ha%bool_decide_eq_true. destruct Hc as [?|[_ ?]]; [congruence|].
      by replace (yf q - front q)%nat with 0%nat by lia. }
    split; [|naive_solver]. split; [done|]. by intros [Ha []]%(λ H, conj (Hs (proj1 H)) (proj2 H)).
  - assert (complete q ≠ []) as Hne.
    { unfold complete, back in *. destruct (slots q); simpl in *; [lia|].
      by replace (yf q - front q)%nat with (S (yf q - front q - 1)) by lia. }
    split; [by constructor; simpl; [lia|done|left|intros r ?%Hr; lia]|].
    do 3 (split; [done|]). unfold asleep; simpl. split.
    + rewrite bool_decide_eq_false, bool_decide_eq_true. destruct Hc as [->|[-> _]]; naive_solver.
    + rewrite !bool_decide_eq_true. naive_solver.
Qed.

(** What the reader sees. *)
Lemma flushed_nil q : ypipe_wf q → flushed q = [] ↔ yw q = front q.
Proof.
  intros [Hw Hf _ _]. unfold flushed, back in *. split; [|intros ->; by rewrite Nat.sub_diag].
  intros Hn. destruct (decide (yw q = front q)); [done|]. destruct (slots q); simpl in *; [lia|].
  by replace (yw q - front q)%nat with (S (yw q - front q - 1)) in Hn by lia.
Qed.

Lemma ycheck_read_spec q : ypipe_wf q →
  let '(ok, q') := ycheck_read q in
  ypipe_wf q' ∧ slots q' = slots q ∧ front q' = front q ∧ yw q' = yw q ∧ yf q' = yf q ∧
  ok = bool_decide (flushed q ≠ []) ∧ (asleep q' = true ↔ flushed q = []) ∧
  (ok = true → yr q' ≠ Some (front q')).
Proof.
  intros Hq. pose proof (flushed_nil q Hq) as Hfl. pose proof Hq as [Hw Hf Hc Hr].
  unfold ycheck_read, asleep. case_decide as Hd.
  - destruct Hd as [Hd Hd']. destruct (yr q) as [r|] eqn:Hyr; [|done].
    specialize (Hr r eq_refl). assert (yw q ≠ front q) by (intros ?; apply Hd; f_equal; lia).
    do 5 (split; [done|]). split; [symmetry; apply bool_decide_true; by rewrite Hfl|].
    rewrite bool_decide_eq_true. split; [|congruence]. rewrite Hfl. split; [|done].
    intros Hn. destruct Hc as [?|[_ ?]]; [congruence|lia].
  - assert (ypipe_wf (mkYpipe (slots q) (front q) (yw q) (yf q) (yc q)
      (if decide (yc q = Some (front q)) then None else yc q))) as Hwf.
    { constructor; simpl; [done|done|case_decide; naive_solver|]. intros r Hyc. destruct Hc; [|naive_solver].
      assert (r = yw q) as -> by congruence. lia. }
    split; [done|]. clear Hwf. do 4 (split; [done|]). simpl.
    assert (yc q ≠ Some (front q) ∧ yc q ≠ None ↔ yw q ≠ front q) as He.
    { destruct Hc as [->|[-> ->]]; [|naive_solver]. split; [intros [Hn _] ?; apply Hn; congruence|].
      intros Hn. split; congruence. }
    split; [apply bool_decide_ext; by rewrite Hfl|]. rewrite !bool_decide_eq_true, Hfl.
    split; [|by intros [? _]]. destruct Hc as [Hc|[Hc Hn]]; rewrite Hc; case_decide; split; congruence.
Qed.

(** Reading takes the first flushed item; without one the reader goes to sleep. *)
Lemma yread_spec q : ypipe_wf q →
  let '(r, q') := yread q in
  ypipe_wf q' ∧ r = Ok (head (flushed q)) ∧ flushed q' = tail (flushed q) ∧
  complete q' = (if flushed q is [] then complete q else tail (complete q)) ∧
  slots q' = (if flushed q is [] then slots q else tail (slots q)) ∧
  (flushed q = [] → asleep q' = true).
Proof.
  intros Hq. unfold yread. pose proof (flushed_nil q Hq) as Hnil. pose proof (ycheck_read_spec q Hq) as Hc.
  destruct (ycheck_read q) as [ok q1]. destruct Hc as (Hq1 & Hs & Hfr & Hw & Hyf & Hok & Ha & Hne). subst ok.
  assert (flushed q1 = flushed q ∧ complete q1 = complete q) as [Hf1 Hc1]
    by (unfold flushed, complete; by rewrite Hs, Hfr, Hw, Hyf).
  pose proof Hq1 as [Hb1 Hb2 Hyc Hyr]. unfold back in Hb2.
  destruct (bool_decide_reflect (flushed q ≠ [])) as [Hd|Hd].
  - rewrite Hnil in Hd. specialize (Hne eq_refl). destruct (slots q1) as [|x l] eqn:Hsl; [simpl in *; lia|].
    rewrite <-Hf1, <-Hc1, <-Hs. unfold flushed, complete. rewrite Hsl. simpl.
    replace (yw q1 - front q1)%nat with (S (yw q1 - S (front q1))) by lia.
    replace (yf q1 - front q1)%nat with (S (yf q1 - S (front q1))) by lia. simpl in *.
    split; [|done]. constructor; unfold back; simpl; [lia|lia| |].
    + destruct Hyc as [?|[_ ?]]; [by left|lia].
    + intros r Hr. pose proof (Hyr r Hr). assert (r ≠ front q1) by congruence. lia.
  - assert (flushed q = []) as Hn by (by destruct (flushed q); [|exfalso; apply Hd]).
    rewrite Hf1, Hc1, Hs, Hn. naive_solver.
Qed.

End ypipe.
