(* ===== verification/ZmqYqueue.v ===== *)
(** * The memory of a queue

    [zmq::yqueue_t] (zeromq-4.0.4/src/yqueue.hpp) keeps the items of a pipe in a linked
    list of chunks of [N] slots, and the last chunk that was emptied as a spare;
    [zmq::ypipe_t] compares addresses of slots.  Here chunks are in a heap with
    [malloc] and [free], in which addresses are used again.  The pipe behaves like the
    one of [ZmqYpipe], where slots have numbers that are never used again, does not
    touch memory that is not its own, and leaks none. *)

From S2P Require Import Prelude ZmqNode ZmqYpipe.

(** ** Memory *)

(** A pointer field, [None] before it is set; a set one may be null. *)
Abbreviation field := (option (option nat)).

Record chunk_t (T : Type) := mkChunk { values : gmap nat T; cprev : field; cnext : field }.
Arguments mkChunk {T}.
Arguments values {T}.
Arguments cprev {T}.
Arguments cnext {T}.

Record yqueue_t (T : Type) := mkYqueue {
  chunks : gmap nat (chunk_t T);        (** what is allocated *)
  begin_chunk : nat; begin_pos : nat;
  back_chunk : option nat; back_pos : nat;
  end_chunk : nat; end_pos : nat;
  spare_chunk : option nat
}.
Arguments mkYqueue {T}.
Arguments chunks {T}.
Arguments begin_chunk {T}.
Arguments begin_pos {T}.
Arguments back_chunk {T}.
Arguments back_pos {T}.
Arguments end_chunk {T}.
Arguments end_pos {T}.
Arguments spare_chunk {T}.

(** The address of a slot. *)
Abbreviation ptr := (nat * nat)%type.

Section yqueue.
Context {T : Type} (N : nat).
(** [malloc]: an address that is not allocated. *)
Context (malloc : gset nat → nat).
Abbreviation heap := (gmap nat (chunk_t T)).
Implicit Types (y : yqueue_t T) (h : heap) (q : ypipe_t T).

Definition load (c : nat) h : res (chunk_t T) :=
  match h !! c with Some ch => Ok ch | None => Throw (UndefinedBehaviour "use of a freed chunk") end.

Definition get_field (f : field) : res (option nat) :=
  match f with Some p => Ok p | None => Throw (UndefinedBehaviour "uninitialised pointer") end.

Definition deref (p : option nat) : res nat := match p with Some c => Ok c | None => null_pointer end.

Definition free (p : option nat) h : res heap :=
  match p with
  | None => Ok h
  | Some c => if decide (is_Some (h !! c)) then Ok (delete c h) else Throw (UndefinedBehaviour "free of a freed chunk")
  end.

Definition set_next (c : nat) (p : option nat) h : res heap :=
  ch ← load c h; Ok (<[c := mkChunk (values ch) (cprev ch) (Some p)]> h).
Definition set_prev (c : nat) (p : option nat) h : res heap :=
  ch ← load c h; Ok (<[c := mkChunk (values ch) (Some p) (cnext ch)]> h).

(** ** The queue *)

Definition yq_new : yqueue_t T :=
  let c := malloc ∅ in mkYqueue {[c := mkChunk ∅ None None]} c 0 None 0 c 0 None.

(** [&front ()] and [&back ()] *)
Definition yq_front y : ptr := (begin_chunk y, begin_pos y).
Definition yq_back y : res ptr := c ← deref (back_chunk y); Ok (c, back_pos y).

Definition yq_read (p : ptr) y : res T :=
  ch ← load p.1 (chunks y);
  match values ch !! p.2 with Some x => Ok x | None => Throw (UndefinedBehaviour "uninitialised slot") end.

Definition yq_write (p : ptr) (x : T) y : res (yqueue_t T) :=
  ch ← load p.1 (chunks y);
  Ok (mkYqueue (<[p.1 := mkChunk (<[p.2 := x]> (values ch)) (cprev ch) (cnext ch)]> (chunks y))
        (begin_chunk y) (begin_pos y) (back_chunk y) (back_pos y) (end_chunk y) (end_pos y) (spare_chunk y)).

(** The chunk that comes next: the spare one, or a new one. *)
Definition take_spare y : nat * heap :=
  match spare_chunk y with
  | Some sc => (sc, chunks y)
  | None => let c := malloc (dom (chunks y)) in (c, <[c := mkChunk ∅ None None]> (chunks y))
  end.

Definition yq_push y : res (yqueue_t T) :=
  let back := Some (end_chunk y) in
  let pos := end_pos y in
  if negb (S pos =? N)%nat then
    Ok (mkYqueue (chunks y) (begin_chunk y) (begin_pos y) back pos (end_chunk y) (S pos) (spare_chunk y))
  else
    let '(sc, h) := take_spare y in
    h ← set_next (end_chunk y) (Some sc) h;
    h ← set_prev sc (Some (end_chunk y)) h;
    Ok (mkYqueue h (begin_chunk y) (begin_pos y) back pos sc 0 None).

Definition yq_unpush y : res (yqueue_t T) :=
  '(bc, bp) ← (if (0 <? back_pos y)%nat then Ok (back_chunk y, back_pos y - 1)%nat
               else c ← deref (back_chunk y); ch ← load c (chunks y); p ← get_field (cprev ch); Ok (p, N - 1)%nat);
  if (0 <? end_pos y)%nat then
    Ok (mkYqueue (chunks y) (begin_chunk y) (begin_pos y) bc bp (end_chunk y) (end_pos y - 1) (spare_chunk y))
  else
    ch ← load (end_chunk y) (chunks y);
    p ← get_field (cprev ch);
    c ← deref p;
    ch ← load c (chunks y);
    n ← get_field (cnext ch);
    h ← free n (chunks y);
    h ← set_next c None h;
    Ok (mkYqueue h (begin_chunk y) (begin_pos y) bc bp c (N - 1) (spare_chunk y)).

Definition yq_pop y : res (yqueue_t T) :=
  let pos := S (begin_pos y) in
  if negb (pos =? N)%nat then
    Ok (mkYqueue (chunks y) (begin_chunk y) pos (back_chunk y) (back_pos y) (end_chunk y) (end_pos y) (spare_chunk y))
  else
    ch ← load (begin_chunk y) (chunks y);
    p ← get_field (cnext ch);
    c ← deref p;
    h ← set_prev c None (chunks y);
    h ← free (spare_chunk y) h;
    Ok (mkYqueue h c 0 (back_chunk y) (back_pos y) (end_chunk y) (end_pos y) (Some (begin_chunk y))).

(** The destructor: the chunks from the first to the last one, and the spare one. *)
Fixpoint free_chunks (fuel : nat) (b : option nat) (e : nat) h : res heap :=
  match fuel with
  | O => Throw OutOfFuel
  | S fuel =>
      if decide (b = Some e) then free b h
      else
        o ← deref b;
        ch ← load o h;
        b ← get_field (cnext ch);
        h ← free (Some o) h;
        free_chunks fuel b e h
  end.

Definition yq_destroy y : res heap :=
  h ← free_chunks (size (chunks y)) (Some (begin_chunk y)) (end_chunk y) (chunks y);
  free (spare_chunk y) h.

(** ** The pipe *)

Record cpipe_t := mkCpipe { cqueue : yqueue_t T; cw : ptr; cf : ptr; cr : option ptr; cc : option ptr }.

Definition set_queue y (p : cpipe_t) : cpipe_t := mkCpipe y (cw p) (cf p) (cr p) (cc p).

Definition cpipe_new : res cpipe_t :=
  y ← yq_push yq_new; b ← yq_back y; Ok (mkCpipe y b b (Some b) (Some b)).

Definition cwrite (x : T) (incomplete : bool) p : res cpipe_t :=
  b ← yq_back (cqueue p);
  y ← yq_write b x (cqueue p);
  y ← yq_push y;
  if incomplete then Ok (set_queue y p)
  else b ← yq_back y; Ok (mkCpipe y (cw p) b (cr p) (cc p)).

Definition cunwrite p : res (option T * cpipe_t) :=
  b ← yq_back (cqueue p);
  if decide (cf p = b) then Ok (None, p)
  else
    y ← yq_unpush (cqueue p);
    b ← yq_back y;
    x ← yq_read b y;
    Ok (Some x, set_queue y p).

Definition cflush p : bool * cpipe_t :=
  if decide (cw p = cf p) then (true, p)
  else (bool_decide (cc p = Some (cw p)), mkCpipe (cqueue p) (cf p) (cf p) (cr p) (Some (cf p))).

Definition ccheck_read p : bool * cpipe_t :=
  let front := yq_front (cqueue p) in
  if decide (cr p ≠ Some front ∧ cr p ≠ None) then (true, p)
  else
    let r := cc p in
    let c := if decide (cc p = Some front) then None else cc p in
    (bool_decide (r ≠ Some front ∧ r ≠ None), mkCpipe (cqueue p) (cw p) (cf p) r c).

Definition cread p : res (option T * cpipe_t) :=
  let '(ok, p) := ccheck_read p in
  if ok then
    x ← yq_read (yq_front (cqueue p)) (cqueue p);
    y ← yq_pop (cqueue p);
    Ok (Some x, set_queue y p)
  else Ok (None, p).

Definition cprobe p : res (T * cpipe_t) :=
  let '(ok, p) := ccheck_read p in
  _ ← zmq_assert "rc" ok;
  x ← yq_read (yq_front (cqueue p)) (cqueue p);
  Ok (x, p).

(** ** Runs *)

Inductive yop : Type :=
  | YWrite (x : T) (incomplete : bool) | YUnwrite | YFlush | YCheckRead | YRead | YProbe.
Inductive yout : Type := YDone | YFlag (b : bool) | YItem (o : option T).

(** One operation on the chunks, and on the numbered slots. *)
Definition cstep (op : yop) (p : cpipe_t) : res (yout * cpipe_t) :=
  match op with
  | YWrite x i => p ← cwrite x i p; Ok (YDone, p)
  | YUnwrite => '(o, p) ← cunwrite p; Ok (YItem o, p)
  | YFlush => let '(b, p) := cflush p in Ok (YFlag b, p)
  | YCheckRead => let '(b, p) := ccheck_read p in Ok (YFlag b, p)
  | YRead => '(o, p) ← cread p; Ok (YItem o, p)
  | YProbe => '(x, p) ← cprobe p; Ok (YItem (Some x), p)
  end.

Definition ystep (op : yop) q : res (yout * ypipe_t T) :=
  match op with
  | YWrite x i => Ok (YDone, ywrite x i q)
  | YUnwrite => let '(r, q) := yunwrite q in o ← r; Ok (YItem o, q)
  | YFlush => let '(b, q) := yflush q in Ok (YFlag b, q)
  | YCheckRead => let '(b, q) := ycheck_read q in Ok (YFlag b, q)
  | YRead => let '(r, q) := yread q in o ← r; Ok (YItem o, q)
  | YProbe => let '(r, q) := yprobe q in x ← r; Ok (YItem (Some x), q)
  end.

Definition run_ops {P} (step : yop → P → res (yout * P)) : list yop → P → res (list yout * P) :=
  fix run ops p :=
    match ops with
    | [] => Ok ([], p)
    | op :: ops => '(o, p) ← step op p; '(os, p) ← run ops p; Ok (o :: os, p)
    end.

Definition crun (ops : list yop) : res (list yout * cpipe_t) := p ← cpipe_new; run_ops cstep ops p.
Definition yrun (ops : list yop) : res (list yout * ypipe_t T) := run_ops ystep ops ypipe_new.

(** ** Where the slots are *)

(** Slot [j] from the front on, in a queue with chunks [cs]. *)
Definition addr y (cs : list nat) (j : nat) : option ptr :=
  (λ c, (c, (begin_pos y + j) mod N)%nat) <$> cs !! ((begin_pos y + j) / N)%nat.

(** What is in it. *)
Definition val_at y (cs : list nat) (j : nat) : option T :=
  a ← addr y cs j; ch ← chunks y !! a.1; values ch !! a.2.

(** Each chunk points to the one after it and to the one before it. *)
Definition linked h (cs : list nat) : Prop := ∀ i c d, cs !! i = Some c → cs !! S i = Some d →
  (∃ ch, h !! c = Some ch ∧ cnext ch = Some (Some d)) ∧ (∃ ch, h !! d = Some ch ∧ cprev ch = Some (Some c)).

(** [len] slots are pushed; the last chunk has room for the next one.  Nothing else is allocated
    but the spare chunk. *)
Record yq_rep y (cs : list nat) (len : nat) : Prop := mkYqRep {
  rep_pos : (begin_pos y < N)%nat;
  rep_begin : head cs = Some (begin_chunk y);
  rep_end : addr y cs len = Some (end_chunk y, end_pos y);
  rep_chunks : length cs = S ((begin_pos y + len) / N);
  rep_back : (0 < len)%nat → addr y cs (len - 1) = (λ c, (c, back_pos y)) <$> back_chunk y;
  rep_nodup : NoDup (cs ++ option_list (spare_chunk y));
  rep_dom c : is_Some (chunks y !! c) ↔ c ∈ cs ++ option_list (spare_chunk y);
  rep_links : linked (chunks y) cs
}.

Hypothesis HN : (0 < N)%nat.
Hypothesis malloc_fresh : ∀ X, malloc X ∉ X.

Lemma addr_inj y cs i j a : NoDup cs → addr y cs i = Some a → addr y cs j = Some a → i = j.
Proof.
  unfold addr. intros Hnd Hi Hj.
  destruct (cs !! ((begin_pos y + i) / N)%nat) as [c|] eqn:Hc; [|done].
  destruct (cs !! ((begin_pos y + j) / N)%nat) as [d|] eqn:Hd; [|done]. simpl in *.
  rewrite <-Hj in Hi. injection Hi as -> Hm.
  pose proof (NoDup_lookup _ _ _ _ Hnd Hc Hd) as Hq.
  pose proof (Nat.div_mod_eq (begin_pos y + i) N). pose proof (Nat.div_mod_eq (begin_pos y + j) N). lia.
Qed.

Lemma addr_some y cs len j : yq_rep y cs len → (j ≤ len)%nat → is_Some (addr y cs j).
Proof.
  intros [] Hj. unfold addr. apply fmap_is_Some, lookup_lt_is_Some. rewrite rep_chunks0.
  pose proof (Nat.Div0.div_le_mono (begin_pos y + j) (begin_pos y + len) N ltac:(lia)). lia.
Qed.

Lemma addr_chunk y cs len j a : yq_rep y cs len → addr y cs j = Some a → ∃ ch, chunks y !! a.1 = Some ch.
Proof.
  intros [] Ha. apply rep_dom0, elem_of_app. left. unfold addr in Ha.
  apply fmap_Some in Ha as (c & Hc & ->). simpl. by eapply list_elem_of_lookup_2.
Qed.

Lemma rep_front y cs len : yq_rep y cs len → addr y cs 0 = Some (yq_front y).
Proof.
  intros []. unfold addr, yq_front. rewrite Nat.add_0_r, Nat.div_small, Nat.mod_small by done.
  by rewrite <-head_lookup, rep_begin0.
Qed.

Lemma rep_back_ptr y cs len : yq_rep y cs len → (0 < len)%nat →
  ∃ a, yq_back y = Ok a ∧ addr y cs (len - 1) = Some a.
Proof.
  intros Hr Hl. pose proof (rep_back _ _ _ Hr Hl) as Hb. destruct (addr_some y cs len (len - 1) Hr ltac:(lia)) as [a Ha].
  rewrite Ha in Hb. unfold yq_back. destruct (back_chunk y) as [c|]; [|done]. simpl in *. injection Hb as ->. by eexists.
Qed.

Lemma div_step k : if decide (S (k mod N) = N) then (S k / N = S (k / N) ∧ S k mod N = 0)%nat
  else (S k / N = k / N ∧ S k mod N = S (k mod N))%nat.
Proof.
  pose proof (Nat.div_mod_eq k N) as Hk. pose proof (Nat.mod_upper_bound k N ltac:(lia)).
  remember (k mod N)%nat as m eqn:Em. remember (k / N)%nat as d eqn:Ed. case_decide.
  - replace (S k) with (0 + S d * N)%nat by lia.
    by rewrite Nat.div_add, Nat.Div0.mod_add, Nat.div_small, Nat.mod_small by lia.
  - replace (S k) with (S m + d * N)%nat by lia.
    by rewrite Nat.div_add, Nat.Div0.mod_add, Nat.div_small, Nat.mod_small by lia.
Qed.

(** ** The operations of the queue *)

Lemma yq_new_rep : yq_rep yq_new [malloc ∅] 0.
Proof.
  constructor; simpl; try done.
  - unfold addr. simpl. by rewrite Nat.Div0.div_0_l, Nat.Div0.mod_0_l.
  - by rewrite Nat.Div0.div_0_l.
  - lia.
  - apply NoDup_singleton.
  - intros c. rewrite lookup_singleton_is_Some. set_solver.
Qed.

Lemma free_spec p h : (∀ c, p = Some c → is_Some (h !! c)) → ∃ h', free p h = Ok h' ∧
  ∀ c, h' !! c = if decide (p = Some c) then None else h !! c.
Proof.
  intros Hp. destruct p as [c|]; [|by exists h]. unfold free. rewrite decide_True by auto.
  exists (delete c h). split; [done|]. intros d. destruct (decide (c = d)) as [->|Hd].
  - by rewrite decide_True, lookup_delete_eq.
  - by rewrite decide_False, lookup_delete_ne by congruence.
Qed.

(** Linking [d] after [c]. *)
Lemma link_spec c d h : c ≠ d → is_Some (h !! c) → is_Some (h !! d) → ∃ h',
  (h ← set_next c (Some d) h; set_prev d (Some c) h) = Ok h' ∧ (∀ x, values <$> h' !! x = values <$> h !! x) ∧
  (∀ x, is_Some (h' !! x) ↔ is_Some (h !! x)) ∧
  (∃ ch, h' !! c = Some ch ∧ cnext ch = Some (Some d) ∧ (cprev <$> h !! c) = Some (cprev ch)) ∧
  (∃ ch, h' !! d = Some ch ∧ cprev ch = Some (Some c)) ∧
  (∀ x, x ≠ c → x ≠ d → h' !! x = h !! x).
Proof.
  intros Hne [chc Hc] [chd Hd]. unfold set_next, set_prev, load. rewrite Hc. simpl.
  rewrite lookup_insert_ne, Hd by done. eexists. split; [done|]. split_and!.
  - intros x. destruct (decide (x = d)) as [->|Hxd]; [by rewrite lookup_insert_eq, Hd|].
    rewrite lookup_insert_ne by done. destruct (decide (x = c)) as [->|Hxc]; [by rewrite lookup_insert_eq, Hc|].
    by rewrite lookup_insert_ne.
  - intros x. rewrite !lookup_insert_is_Some. destruct (decide (x = d)) as [->|]; [naive_solver|].
    destruct (decide (x = c)) as [->|]; naive_solver.
  - rewrite lookup_insert_ne, lookup_insert_eq by done. by eexists.
  - rewrite lookup_insert_eq. by eexists.
  - intros x Hxc Hxd. by rewrite !lookup_insert_ne by done.
Qed.

Lemma spare_not_in y cs len s : yq_rep y cs len → spare_chunk y = Some s → s ∉ cs.
Proof. intros [] Hs Hin. rewrite Hs in rep_nodup0. apply NoDup_app in rep_nodup0 as (_ & Hd & _). apply (Hd s Hin). set_solver. Qed.

Lemma rep_nodup_cs y cs len : yq_rep y cs len → NoDup cs.
Proof. intros []. by apply NoDup_app in rep_nodup0 as [? _]. Qed.

Lemma end_last y cs len : yq_rep y cs len → cs !! (length cs - 1)%nat = Some (end_chunk y) ∧
  end_pos y = ((begin_pos y + len) mod N)%nat.
Proof.
  intros []. unfold addr in rep_end0. rewrite rep_chunks0. simpl. rewrite Nat.sub_0_r.
  apply fmap_Some in rep_end0 as (c & Hc & [= -> ->]). done.
Qed.

(** The chunks of the slots stay, so do what the slots hold. *)
Lemma val_same y y' cs cs' i j a : addr y cs i = Some a → addr y' cs' j = Some a →
  values <$> chunks y' !! a.1 = values <$> chunks y !! a.1 → val_at y' cs' j = val_at y cs i.
Proof.
  intros Ha Ha' Hv. unfold val_at. rewrite Ha, Ha'. simpl.
  destruct (chunks y !! a.1), (chunks y' !! a.1); try done. simpl in *. by injection Hv as ->.
Qed.

Lemma addr_in y cs j a : addr y cs j = Some a → a.1 ∈ cs.
Proof. unfold addr. intros (c & Hc & ->)%fmap_Some. by eapply list_elem_of_lookup_2. Qed.

(** The chunk that is put after the last one. *)
Lemma push_chunk y cs len : yq_rep y cs len → ∃ sc h,
  take_spare y = (sc, h) ∧ sc ∉ cs ∧ is_Some (h !! sc) ∧ (∀ c, c ∈ cs → h !! c = chunks y !! c) ∧
  (∀ c, is_Some (h !! c) ↔ c ∈ cs ++ [sc]).
Proof.
  intros Hr. pose proof Hr as []. unfold take_spare. destruct (spare_chunk y) as [s|] eqn:Hs.
  - exists s, (chunks y). split; [done|]. split; [by eapply spare_not_in|]. split; [apply rep_dom0; set_solver|].
    split; [done|]. intros c. rewrite rep_dom0. set_solver.
  - set (c := malloc (dom (chunks y))). assert (c ∉ cs) as Hc.
    { intros Hin. apply (malloc_fresh (dom (chunks y))), elem_of_dom, rep_dom0. set_solver. }
    eexists c, _. split; [done|]. split; [done|]. split; [rewrite lookup_insert_eq; by eexists|]. split.
    + intros d Hd. apply lookup_insert_ne. by intros ->.
    + intros d. rewrite lookup_insert_is_Some, rep_dom0. destruct (decide (c = d)); set_solver.
Qed.

Lemma addr_app y y' cs cs' j : begin_pos y' = begin_pos y → is_Some (addr y cs j) → addr y' (cs ++ cs') j = addr y cs j.
Proof.
  intros Hb [a Ha]. unfold addr in *. rewrite Hb. apply fmap_Some in Ha as (c & Hc & ->). rewrite lookup_app_l by (by eapply lookup_lt_Some).
  by rewrite Hc.
Qed.

Lemma linked_app h h' cs c d : linked h cs → NoDup cs → d ∉ cs → cs !! (length cs - 1)%nat = Some c →
  (∃ ch, h' !! c = Some ch ∧ cnext ch = Some (Some d) ∧ cprev <$> h !! c = Some (cprev ch)) →
  (∃ ch, h' !! d = Some ch ∧ cprev ch = Some (Some c)) →
  (∀ x, x ∈ cs → x ≠ c → h' !! x = h !! x) → linked h' (cs ++ [d]).
Proof.
  intros Hl Hnd Hd Hc (chc & Hc' & Hcn & Hcp) Hd' Hoth i x z Hx Hz. pose proof (lookup_lt_Some _ _ _ Hc) as Hlt.
  apply lookup_snoc_Some in Hz as [[Hi Hz]|[Hi <-]].
  - rewrite lookup_app_l in Hx by lia. destruct (Hl i x z Hx Hz) as [(chx & Hx1 & Hx2) (chz & Hz1 & Hz2)].
    assert (x ≠ c) as Hxc. { intros ->. pose proof (NoDup_lookup _ _ _ _ Hnd Hx Hc). lia. }
    split; [exists chx; by rewrite Hoth by (done || by eapply list_elem_of_lookup_2)|].
    destruct (decide (z = c)) as [->|Hzc]; [|exists chz; by rewrite Hoth by (done || by eapply list_elem_of_lookup_2)].
    exists chc. split; [done|]. rewrite Hz1 in Hcp. simpl in Hcp. congruence.
  - rewrite lookup_app_l in Hx by lia. replace i with (length cs - 1)%nat in Hx by lia. rewrite Hc in Hx. injection Hx as <-.
    split; [by exists chc|done].
Qed.

(** What the queue is after a push: the slots stay where they are. *)
Lemma yq_push_spec y cs len : yq_rep y cs len → ∃ y' cs', yq_push y = Ok y' ∧ yq_rep y' cs' (S len) ∧
  ∀ j, (j ≤ len)%nat → addr y' cs' j = addr y cs j ∧ val_at y' cs' j = val_at y cs j.
Proof.
  intros Hr. pose proof Hr as []. destruct (end_last y cs len Hr) as [Hl Hep]. unfold yq_push.
  pose proof (div_step (begin_pos y + len)) as Hstep. rewrite <-Hep in Hstep.
  destruct (Nat.eqb_spec (S (end_pos y)) N) as [HE|HE]; cbn [negb].
  - rewrite decide_True in Hstep by done. destruct Hstep as [Hd Hm].
    destruct (push_chunk y cs len Hr) as (sc & h & -> & Hsc & [chs Hs] & Hkeep & Hdom).
    assert (end_chunk y ∈ cs) as Hin by (by eapply list_elem_of_lookup_2).
    destruct (link_spec (end_chunk y) sc h) as (h' & Hlink & Hv & Hdom' & (chc & Hc & Hcn & Hcp) & (chd & Hd' & Hdp) & Hoth);
      [intros He; by rewrite He in Hin|apply Hdom; set_solver|by eexists|].
    destruct (set_next (end_chunk y) (Some sc) h) as [h1|]; [|done]. cbn in Hlink |- *. rewrite Hlink. cbn.
    set (y' := mkYqueue _ _ _ _ _ _ _ _). exists y', (cs ++ [sc]). split; [done|].
    assert (∀ j, (j ≤ len)%nat → addr y' (cs ++ [sc]) j = addr y cs j) as Haddr.
    { intros j Hj. apply addr_app; [done|]. by eapply addr_some. }
    split.
    + constructor; simpl; try done.
      * by rewrite head_app, rep_begin0.
      * unfold addr. simpl. rewrite Nat.add_succ_r, Hd, Hm, <-rep_chunks0. by rewrite list_lookup_middle.
      * rewrite length_app, rep_chunks0, Nat.add_succ_r, Hd. simpl. lia.
      * intros _. rewrite Nat.sub_0_r, Haddr by lia. by rewrite rep_end0.
      * rewrite app_nil_r. apply NoDup_app. split; [by eapply rep_nodup_cs|]. split; [set_solver|apply NoDup_singleton].
      * intros c. by rewrite app_nil_r, Hdom', Hdom.
      * apply (linked_app h _ _ (end_chunk y)); [|by eapply rep_nodup_cs|done|done|by exists chc|by exists chd|].
        -- intros i c d Hi Hdi. rewrite !Hkeep by (by eapply list_elem_of_lookup_2). by apply (rep_links0 i).
        -- intros x Hx Hxe. apply Hoth; [done|]. by intros ->.
    + intros j Hj. split; [auto|]. destruct (addr_some y cs len j Hr Hj) as [a Ha].
      apply (val_same _ _ _ _ j j a Ha); [by rewrite Haddr|]. simpl. rewrite Hv, Hkeep; [done|by eapply addr_in].
  - rewrite decide_False in Hstep by done. destruct Hstep as [Hd Hm]. eexists _, cs. split; [done|]. split; [|done].
    constructor; simpl; try done.
    + unfold addr. simpl. rewrite Nat.add_succ_r, Hd, Hm. unfold addr in rep_end0. apply fmap_Some in rep_end0 as (c & -> & [= -> _]). done.
    + by rewrite Nat.add_succ_r, Hd.
    + intros _. rewrite Nat.sub_0_r. exact rep_end0.
Qed.

Lemma div_prev k : (0 < k)%nat → if decide (k mod N = 0)%nat then (k / N = S ((k - 1) / N) ∧ (k - 1) mod N = N - 1)%nat
  else ((k - 1) / N = k / N ∧ (k - 1) mod N = k mod N - 1)%nat.
Proof.
  intros Hk. pose proof (div_step (k - 1)) as Hs. replace (S (k - 1)) with k in Hs by lia.
  pose proof (Nat.mod_upper_bound (k - 1) N ltac:(lia)). case_decide; case_decide; lia.
Qed.


Lemma linked_cprev h cs c d i : linked h cs → cs !! i = Some c → cs !! S i = Some d →
  ∃ ch, load d h = Ok ch ∧ cprev ch = Some (Some c).
Proof. intros Hl Hc Hd. destruct (Hl i c d Hc Hd) as [_ (ch & Hch & Hp)]. exists ch. unfold load. by rewrite Hch. Qed.

Lemma linked_cnext h cs c d i : linked h cs → cs !! i = Some c → cs !! S i = Some d →
  ∃ ch, load c h = Ok ch ∧ cnext ch = Some (Some d).
Proof. intros Hl Hc Hd. destruct (Hl i c d Hc Hd) as [(ch & Hch & Hp) _]. exists ch. unfold load. by rewrite Hch. Qed.

(** Moving [back] one position backwards. *)
Lemma back_step y cs len : yq_rep y cs len → (2 ≤ len)%nat → ∃ c,
  (if (0 <? back_pos y)%nat then Ok (back_chunk y, back_pos y - 1)%nat
   else c ← deref (back_chunk y); ch ← load c (chunks y); p ← get_field (cprev ch); Ok (p, N - 1)%nat) =
    Ok (Some c, (begin_pos y + (len - 2)) mod N)%nat ∧
  addr y cs (len - 2) = Some (c, (begin_pos y + (len - 2)) mod N)%nat.
Proof.
  intros Hr Hl. pose proof Hr as []. specialize (rep_back0 ltac:(lia)).
  destruct (addr_some y cs len (len - 1) Hr ltac:(lia)) as [[b bp] Hb]. rewrite Hb in rep_back0.
  destruct (back_chunk y) as [c|]; [|done]. simpl in rep_back0. injection rep_back0 as -> ->.
  unfold addr in Hb. apply fmap_Some in Hb as (c' & Hc & [= -> Hp]).
  pose proof (div_prev (begin_pos y + (len - 1)) ltac:(lia)) as Hd.
  replace (begin_pos y + (len - 1) - 1)%nat with (begin_pos y + (len - 2))%nat in Hd by lia. rewrite <-Hp in Hd. unfold addr.
  case_decide as Hz.
  - rewrite Hz. destruct Hd as [Hd Hm]. rewrite Hd in Hc. rewrite Hm.
    assert (is_Some (cs !! ((begin_pos y + (len - 2)) / N)%nat)) as [d Hdd].
    { apply lookup_lt_is_Some. apply lookup_lt_Some in Hc. lia. }
    destruct (linked_cprev _ _ _ _ _ rep_links0 Hdd Hc) as (ch & Hch & Hcp). exists d. simpl. rewrite Hch. simpl.
    rewrite Hcp. simpl. by rewrite Hdd.
  - destruct Hd as [Hd Hm]. rewrite Hd, Hm, Hc. exists c'. split; [|done].
    by destruct (Nat.ltb_spec 0 (back_pos y)); [|lia].
Qed.

Lemma linked_take h h' cs k : linked h cs → (∀ i x, (S i < k)%nat → cs !! i = Some x → h' !! x = h !! x) →
  (∀ i x, S i = k → cs !! i = Some x → cprev <$> h' !! x = cprev <$> h !! x) → linked h' (take k cs).
Proof.
  intros Hl Hs Hlast i c d Hc Hd. apply lookup_take_Some in Hc as [Hc Hi]. apply lookup_take_Some in Hd as [Hd Hi'].
  destruct (Hl i c d Hc Hd) as [(chc & H1 & H2) (chd & H3 & H4)]. split; [exists chc; by rewrite (Hs i)|].
  destruct (decide (S (S i) = k)) as [Hk|Hk]; [|exists chd; by rewrite (Hs (S i)) by (done || lia)].
  pose proof (Hlast (S i) d Hk Hd) as He. rewrite H3 in He. apply fmap_Some in He as (ch & Hch & He). exists ch. by rewrite <-He.
Qed.

Lemma addr_take y y' cs k j : begin_pos y' = begin_pos y → ((begin_pos y + j) / N < k)%nat →
  addr y' (take k cs) j = addr y cs j.
Proof. intros Hb Hk. unfold addr. by rewrite Hb, lookup_take_lt. Qed.

(** The last chunk is given back. *)
Lemma shrink_rep y cs len k p chp h bc bp : yq_rep y cs len → (2 ≤ len)%nat →
  k = ((begin_pos y + (len - 1)) / N)%nat → cs !! k = Some p → cs !! S k = Some (end_chunk y) → length cs = S (S k) →
  ((begin_pos y + (len - 1)) mod N = N - 1)%nat → addr y cs (len - 2) = Some (bc, bp) →
  chunks y !! p = Some chp → (∀ c, h !! c = if decide (Some (end_chunk y) = Some c) then None else chunks y !! c) →
  let y' := mkYqueue (<[p := mkChunk (values chp) (cprev chp) (Some None)]> h) (begin_chunk y) (begin_pos y)
              (Some bc) bp p (N - 1) (spare_chunk y) in
  yq_rep y' (take (S k) cs) (len - 1) ∧
  ∀ j, (j ≤ len - 1)%nat → addr y' (take (S k) cs) j = addr y cs j ∧ val_at y' (take (S k) cs) j = val_at y cs j.
Proof.
  intros Hr Hlen Hk Hp Hl Hcs Hm Hba Hpc Hh y'. pose proof Hr as [].
  pose proof (rep_nodup_cs _ _ _ Hr) as Hnd.
  assert (cs = take (S k) cs ++ [end_chunk y]) as Hsplit by (by rewrite <-(take_S_r _ _ _ Hl), take_ge by lia).
  assert (∀ j, (j ≤ len - 1)%nat → addr y' (take (S k) cs) j = addr y cs j) as Haddr.
  { intros j Hj. apply addr_take; [done|]. subst k.
    pose proof (Nat.Div0.div_le_mono (begin_pos y + j) (begin_pos y + (len - 1)) N ltac:(lia)). lia. }
  assert (p ≠ end_chunk y) as Hpe by (intros ->; pose proof (NoDup_lookup _ _ _ _ Hnd Hp Hl); lia).
  assert (∀ c, is_Some (chunks y' !! c) ↔ c ≠ end_chunk y ∧ is_Some (chunks y !! c)) as Hdom.
  { intros c. simpl. rewrite lookup_insert_is_Some, Hh. destruct (decide (p = c)) as [<-|]; [naive_solver|].
    case_decide; naive_solver. }
  rewrite Hsplit in rep_nodup0, rep_dom0. rewrite !NoDup_app in rep_nodup0. split.
  - constructor; try done.
    + by destruct cs.
    + rewrite Haddr by done. unfold addr. by rewrite <-Hk, Hp, Hm.
    + simpl. rewrite length_take, Hcs, <-Hk. lia.
    + intros _. replace (len - 1 - 1)%nat with (len - 2)%nat by lia. by rewrite Haddr, Hba by lia.
    + apply NoDup_app. set_solver.
    + intros c. rewrite Hdom, rep_dom0. set_solver.
    + apply (linked_take (chunks y)); [done|..]; simpl; intros i x Hi Hx.
      * rewrite lookup_insert_ne, Hh, decide_False; [done|..].
        -- intros [= He]. rewrite <-He in Hx. pose proof (NoDup_lookup _ _ _ _ Hnd Hx Hl). lia.
        -- intros ->. pose proof (NoDup_lookup _ _ _ _ Hnd Hx Hp). lia.
      * injection Hi as ->. rewrite Hp in Hx. injection Hx as <-. by rewrite lookup_insert_eq, Hpc.
  - intros j Hj. split; [auto|]. destruct (addr_some y cs len j Hr ltac:(lia)) as [a Ha].
    apply (val_same _ _ _ _ j j a Ha); [by rewrite Haddr|]. simpl.
    assert (a.1 ∈ take (S k) cs) as Hin by (apply (addr_in y' _ j); by rewrite Haddr).
    destruct (decide (p = a.1)) as [<-|]; [by rewrite lookup_insert_eq, Hpc|].
    rewrite lookup_insert_ne, Hh, decide_False; [done| |done]. intros [= He]. rewrite <-He in Hin. set_solver.
Qed.

Lemma yq_unpush_spec y cs len : yq_rep y cs len → (2 ≤ len)%nat → ∃ y' cs', yq_unpush y = Ok y' ∧ yq_rep y' cs' (len - 1) ∧
  ∀ j, (j ≤ len - 1)%nat → addr y' cs' j = addr y cs j ∧ val_at y' cs' j = val_at y cs j.
Proof.
  intros Hr Hlen. pose proof Hr as []. destruct (end_last y cs len Hr) as [Hl Hep].
  destruct (back_step y cs len Hr Hlen) as (bc & Hb & Hba). unfold yq_unpush. rewrite Hb. cbn [mbind res_bind].
  pose proof (div_prev (begin_pos y + len) ltac:(lia)) as Hd.
  replace (begin_pos y + len - 1)%nat with (begin_pos y + (len - 1))%nat in Hd by lia. rewrite <-Hep in Hd.
  case_decide as Hz; destruct Hd as [Hd Hm].
  - rewrite Hz. cbn [Nat.ltb Nat.leb]. set (k := ((begin_pos y + (len - 1)) / N)%nat) in *.
    rewrite rep_chunks0, Hd in Hl. simpl in Hl.
    assert (is_Some (cs !! k)) as [p Hp] by (apply lookup_lt_is_Some; rewrite rep_chunks0; lia).
    destruct (linked_cprev _ _ _ _ _ rep_links0 Hp Hl) as (ch & -> & Hcp). cbn [mbind res_bind]. rewrite Hcp.
    destruct (linked_cnext _ _ _ _ _ rep_links0 Hp Hl) as (chp & Hcl & Hcn).
    cbn [mbind res_bind get_field deref]. rewrite Hcl. cbn [mbind res_bind]. rewrite Hcn. cbn [mbind res_bind get_field].
    destruct (free_spec (Some (end_chunk y)) (chunks y)) as (h & -> & Hh).
    { intros c [= <-]. apply rep_dom0, elem_of_app. left. by eapply list_elem_of_lookup_2. }
    pose proof (rep_nodup_cs _ _ _ Hr) as Hnd.
    assert (p ≠ end_chunk y) as Hpe by (intros ->; pose proof (NoDup_lookup _ _ _ _ Hnd Hp Hl); lia).
    assert (chunks y !! p = Some chp) as Hpc by (unfold load in Hcl; destruct (chunks y !! p); congruence).
    assert (h !! p = Some chp) as Hpp by (by rewrite Hh, decide_False by congruence).
    cbn [mbind res_bind]. unfold set_next, load. rewrite Hpp. cbn [mbind res_bind].
    eexists _, (take (S k) cs). split; [done|]. apply (shrink_rep y cs len k); try done. rewrite rep_chunks0. lia.
  - rewrite (proj2 (Nat.ltb_lt 0 (end_pos y))) by lia. eexists _, cs. split; [done|]. split; [|done].
    constructor; simpl; try done.
    + unfold addr. simpl. rewrite Hd, Hm. unfold addr in rep_end0. apply fmap_Some in rep_end0 as (c & -> & [= -> _]). done.
    + by rewrite Hd.
    + intros _. simpl. replace (len - 1 - 1)%nat with (len - 2)%nat by lia. done.
Qed.

Lemma linked_tail h h' c d cs : linked h (c :: d :: cs) → NoDup (d :: cs) → cnext <$> h' !! d = cnext <$> h !! d →
  (∀ x, x ∈ cs → h' !! x = h !! x) → linked h' (d :: cs).
Proof.
  intros Hl Hnd Hd Hs i x z Hx Hz. destruct (Hl (S i) x z Hx Hz) as [(chx & H1 & H2) (chz & H3 & H4)]. simpl in Hz.
  split; [|exists chz; rewrite Hs; [done|by eapply list_elem_of_lookup_2]].
  destruct i as [|i]; simpl in Hx; [|exists chx; rewrite Hs; [done|by eapply list_elem_of_lookup_2]].
  injection Hx as <-. rewrite H1 in Hd. simpl in Hd. apply fmap_Some in Hd as (ch & Hch & He). exists ch. split; congruence.
Qed.

(** The first chunk becomes the spare one. *)
Lemma drop_rep y d cs len chd h : yq_rep y (begin_chunk y :: d :: cs) len → (2 ≤ len)%nat → S (begin_pos y) = N →
  chunks y !! d = Some chd →
  (∀ c, h !! c = if decide (spare_chunk y = Some c) then None
                 else <[d := mkChunk (values chd) (Some None) (cnext chd)]> (chunks y) !! c) →
  let y' := mkYqueue h d 0 (back_chunk y) (back_pos y) (end_chunk y) (end_pos y) (Some (begin_chunk y)) in
  yq_rep y' (d :: cs) (len - 1) ∧
  ∀ j, (j ≤ len - 1)%nat → addr y' (d :: cs) j = addr y (begin_chunk y :: d :: cs) (S j) ∧
    val_at y' (d :: cs) j = val_at y (begin_chunk y :: d :: cs) (S j).
Proof.
  intros Hr Hlen Hb Hd Hh y'. pose proof Hr as []. set (c := begin_chunk y) in *. pose proof (rep_nodup_cs _ _ _ Hr) as Hnd.
  assert (∀ j, addr y' (d :: cs) j = addr y (c :: d :: cs) (S j)) as Haddr.
  { intros j. unfold addr. simpl begin_pos. replace (begin_pos y + S j)%nat with (j + 1 * N)%nat by lia.
    rewrite Nat.div_add, Nat.Div0.mod_add, Nat.add_1_r by lia. done. }
  assert (∀ x, x ∈ d :: cs → spare_chunk y ≠ Some x) as Hsp.
  { intros x Hx He. apply (spare_not_in _ _ _ _ Hr He). set_solver. }
  split.
  - constructor; try done.
    + rewrite Haddr. by replace (S (len - 1)) with len by lia.
    + simpl in *. replace (begin_pos y + len)%nat with (len - 1 + 1 * N)%nat in rep_chunks0 by lia.
      rewrite Nat.div_add in rep_chunks0 by lia. lia.
    + intros Hl. rewrite Haddr. replace (S (len - 1 - 1)) with (len - 1)%nat by lia. apply rep_back0. lia.
    + apply NoDup_cons in Hnd as [Hc Hnd]. apply NoDup_app. split; [done|]. split; [|apply NoDup_singleton].
      intros x Hx Hxc. apply list_elem_of_singleton in Hxc as ->. done.
    + intros x. simpl. rewrite Hh. case_decide as Hs.
      * split; [by intros [? ?]|]. pose proof (spare_not_in _ _ _ _ Hr Hs) as Hx. clear -Hx. set_solver.
      * rewrite lookup_insert_is_Some', rep_dom0. clear -Hs. destruct (spare_chunk y); set_solver.
    + eapply (linked_tail (chunks y)); [done|by apply NoDup_cons in Hnd as [_ ?]|..].
      * simpl. rewrite Hh, decide_False by (apply Hsp; set_solver). by rewrite lookup_insert_eq, Hd.
      * intros x Hx. simpl. rewrite Hh, decide_False by (apply Hsp; set_solver). apply lookup_insert_ne.
        intros <-. apply NoDup_cons in Hnd as [_ [? _]%NoDup_cons]. done.
  - intros j Hj. split; [auto|]. destruct (addr_some y _ len (S j) Hr ltac:(lia)) as [a Ha].
    pose proof Ha as Ha'. rewrite <-Haddr in Ha'. apply (val_same _ _ _ _ _ _ a Ha Ha'). simpl.
    rewrite Hh, decide_False by (eapply Hsp, addr_in, Ha').
    destruct (decide (d = a.1)) as [<-|]; [by rewrite lookup_insert_eq, Hd|by rewrite lookup_insert_ne].
Qed.

Lemma yq_pop_spec y cs len : yq_rep y cs len → (2 ≤ len)%nat → ∃ y' cs', yq_pop y = Ok y' ∧ yq_rep y' cs' (len - 1) ∧
  ∀ j, (j ≤ len - 1)%nat → addr y' cs' j = addr y cs (S j) ∧ val_at y' cs' j = val_at y cs (S j).
Proof.
  intros Hr Hlen. pose proof Hr as []. unfold yq_pop. destruct (Nat.eqb_spec (S (begin_pos y)) N) as [HE|HE]; cbn [negb].
  - replace (begin_pos y + len)%nat with (len - 1 + 1 * N)%nat in rep_chunks0 by lia.
    rewrite Nat.div_add in rep_chunks0 by lia. destruct cs as [|c [|d cs]]; [done|simpl in rep_chunks0; lia|].
    simpl in rep_begin0. injection rep_begin0 as ->.
    destruct (linked_cnext _ _ (begin_chunk y) d 0 rep_links0) as (ch & -> & Hcn); [done|done|].
    cbn [mbind res_bind]. rewrite Hcn. cbn [mbind res_bind get_field deref].
    assert (is_Some (chunks y !! d)) as [chd Hd] by (apply rep_dom0; set_solver).
    unfold set_prev, load at 1. rewrite Hd. cbn [mbind res_bind].
    destruct (free_spec (spare_chunk y) (<[d := mkChunk (values chd) (Some None) (cnext chd)]> (chunks y))) as (h & -> & Hh).
    { intros s Hs. apply lookup_insert_is_Some'. right. apply rep_dom0. rewrite Hs. set_solver. }
    cbn [mbind res_bind]. eexists _, (d :: cs). split; [done|]. by apply (drop_rep y d cs len chd h).
  - assert (∀ j, (S (begin_pos y) + j = begin_pos y + S j)%nat) as Hj by lia.
    eexists _, cs. split; [done|]. unfold val_at, addr. simpl begin_pos.
    split; [|intros j _; by rewrite Hj]. constructor; try done; unfold addr; cbn [begin_pos end_chunk end_pos back_chunk back_pos]; rewrite ?Hj.
    + lia.
    + by replace (S (len - 1)) with len by lia.
    + by replace (S (len - 1)) with len by lia.
    + intros Hl. replace (S (len - 1 - 1)) with (len - 1)%nat by lia. apply rep_back0. lia.
Qed.

(** ** Memory use *)

Lemma linked_cons h h' c cs : linked h (c :: cs) → (∀ x, x ∈ cs → h' !! x = h !! x) → linked h' cs.
Proof.
  intros Hl Hs i x z Hx Hz. rewrite !Hs by (by eapply list_elem_of_lookup_2). by apply (Hl (S i)).
Qed.

Lemma free_chunks_spec cs : ∀ fuel e h, NoDup cs → last cs = Some e → (∀ c, c ∈ cs → is_Some (h !! c)) → linked h cs →
  (length cs ≤ fuel)%nat → ∃ h', free_chunks fuel (head cs) e h = Ok h' ∧
  ∀ c, h' !! c = if decide (c ∈ cs) then None else h !! c.
Proof.
  induction cs as [|c cs IH]; intros fuel e h Hnd He Hin Hl Hf; [done|].
  destruct fuel as [|fuel]; [simpl in Hf; lia|]. cbn [free_chunks head].
  destruct (free_spec (Some c) h) as (h1 & Hfree & Hh1). { intros x [= <-]. apply Hin. set_solver. }
  apply NoDup_cons in Hnd as [Hc Hnd]. case_decide as Hce.
  - injection Hce as <-. exists h1. split; [done|]. destruct cs as [|d cs].
    + intros x. rewrite Hh1. do 2 case_decide; set_solver.
    + exfalso. apply Hc. rewrite last_cons_cons in He. apply last_Some in He as [l ->]. set_solver.
  - destruct cs as [|d cs]; [simpl in He; congruence|].
    destruct (linked_cnext _ _ c d 0 Hl) as (ch & Hload & Hcn); [done|done|].
    cbn [mbind res_bind deref]. rewrite Hload. cbn [mbind res_bind]. rewrite Hcn. cbn [mbind res_bind get_field].
    rewrite Hfree. cbn [mbind res_bind].
    assert (∀ x, x ∈ d :: cs → h1 !! x = h !! x) as Hs.
    { intros x Hx. rewrite Hh1, decide_False; [done|]. intros [= ->]. done. }
    destruct (IH fuel e h1) as (h2 & Hrun & Hh2); [done|done| |by eapply linked_cons|simpl in *; lia|].
    + intros x Hx. rewrite Hs by done. apply Hin. set_solver.
    + exists h2. split; [exact Hrun|]. intros x. rewrite Hh2, Hh1. repeat case_decide; set_solver.
Qed.

Lemma rep_size y cs len : yq_rep y cs len → size (chunks y) = (length cs + length (option_list (spare_chunk y)))%nat.
Proof.
  intros []. rewrite <-length_app, <-size_dom, <-(size_list_to_set (C := gset nat)) by done.
  f_equal. apply set_eq. intros c. by rewrite elem_of_dom, rep_dom0, elem_of_list_to_set.
Qed.

(** The chunks that [len] slots need, one for the slots that are read and one spare. *)
Lemma rep_bound y cs len : yq_rep y cs (S len) → (size (chunks y) ≤ 3 + len / N)%nat.
Proof.
  intros Hr. rewrite (rep_size _ _ _ Hr). destruct Hr. rewrite rep_chunks0.
  assert (length (option_list (spare_chunk y)) ≤ 1)%nat by (destruct (spare_chunk y); simpl; lia).
  pose proof (Nat.Div0.div_le_mono (begin_pos y + S len) (len + 1 * N) N ltac:(lia)) as Hd.
  rewrite Nat.div_add in Hd by lia. lia.
Qed.

(** The destructor ends and gives back everything. *)
Lemma yq_destroy_spec y cs len : yq_rep y cs len → yq_destroy y = Ok ∅.
Proof.
  intros Hr. pose proof Hr as []. destruct (end_last _ _ _ Hr) as [Hl _]. unfold yq_destroy.
  destruct (free_chunks_spec cs (size (chunks y)) (end_chunk y) (chunks y)) as (h & Hrun & Hh).
  - by eapply rep_nodup_cs.
  - by rewrite last_lookup, <-Nat.sub_1_r.
  - intros c Hc. apply rep_dom0. set_solver.
  - done.
  - rewrite (rep_size _ _ _ Hr). lia.
  - rewrite rep_begin0 in Hrun. rewrite Hrun. cbn [mbind res_bind].
    destruct (free_spec (spare_chunk y) h) as (h' & -> & Hh').
    { intros c Hc. rewrite Hh, decide_False by (by eapply spare_not_in). apply rep_dom0. rewrite Hc. set_solver. }
    f_equal. apply map_eq. intros c. rewrite Hh', Hh, lookup_empty. repeat case_decide; [done..|].
    apply eq_None_not_Some. rewrite rep_dom0. destruct (spare_chunk y); set_solver.
Qed.

(** ** Items *)

Lemma read_val y cs j a x : addr y cs j = Some a → val_at y cs j = Some x → yq_read a y = Ok x.
Proof.
  unfold val_at, yq_read, load. intros -> Hx. simpl in Hx. destruct (chunks y !! a.1); [|done]. simpl in *. by rewrite Hx.
Qed.

Lemma yq_write_spec y cs len j a x : yq_rep y cs len → addr y cs j = Some a → ∃ y', yq_write a x y = Ok y' ∧
  yq_rep y' cs len ∧ (∀ i, addr y' cs i = addr y cs i) ∧
  ∀ i, val_at y' cs i = if decide (i = j) then Some x else val_at y cs i.
Proof.
  intros Hr Ha. destruct (addr_chunk _ _ _ _ _ Hr Ha) as [ch Hch]. unfold yq_write, load. rewrite Hch. cbn [mbind res_bind].
  set (ch' := mkChunk (<[a.2 := x]> (values ch)) (cprev ch) (cnext ch)).
  assert (∀ c, ∃ f : chunk_t T → chunk_t T, <[a.1 := ch']> (chunks y) !! c = f <$> chunks y !! c ∧
    ∀ d, cprev (f d) = cprev d ∧ cnext (f d) = cnext d) as Hf.
  { intros c. destruct (decide (a.1 = c)) as [<-|]; [|exists id; by rewrite lookup_insert_ne, option_fmap_id].
    exists (λ d, mkChunk (values ch') (cprev d) (cnext d)). by rewrite lookup_insert_eq, Hch. }
  pose proof (rep_nodup_cs _ _ _ Hr) as Hnd. eexists. split; [done|]. destruct Hr. split; [|split; [done|]].
  - constructor; simpl; try done.
    + intros c. destruct (Hf c) as (f & -> & _). by rewrite fmap_is_Some.
    + intros i c d Hc Hd. destruct (rep_links0 i c d Hc Hd) as [(c1 & H1 & H1') (c2 & H2 & H2')].
      destruct (Hf c) as (f & -> & Hfc), (Hf d) as (g & -> & Hgd). rewrite H1, H2. simpl.
      split; eexists; (split; [done|]); [by rewrite (proj2 (Hfc _))|by rewrite (proj1 (Hgd _))].
  - intros i. unfold val_at. change (addr _ cs i) with (addr y cs i) at 1.
    case_decide as Hi; [subst i; rewrite Ha; simpl; by rewrite lookup_insert_eq; simpl; rewrite lookup_insert_eq|].
    destruct (addr y cs i) as [b|] eqn:Hb; [|done]. simpl.
    destruct (decide (a.1 = b.1)) as [He|He]; [|by rewrite lookup_insert_ne].
    rewrite <-He, lookup_insert_eq, Hch. simpl. apply lookup_insert_ne. intros He2. apply Hi.
    apply (addr_inj y cs i j a Hnd); [|done]. rewrite Hb, (surjective_pairing a), (surjective_pairing b). congruence.
Qed.

(** ** The pipe and its numbered slots *)

(** The pointer [a] is the one to slot number [n]. *)
Definition at_slot y (cs : list nat) (fr : nat) (a : ptr) (n : nat) : Prop :=
  (fr ≤ n)%nat ∧ addr y cs (n - fr) = Some a.

Record pipe_rel (cs : list nat) (p : cpipe_t) (q : ypipe_t T) : Prop := mkPipeRel {
  pr_rep : yq_rep (cqueue p) cs (S (length (slots q)));
  pr_val j : (j < length (slots q))%nat → val_at (cqueue p) cs j = slots q !! j;
  pr_w : at_slot (cqueue p) cs (front q) (cw p) (yw q);
  pr_f : at_slot (cqueue p) cs (front q) (cf p) (yf q);
  pr_r : option_Forall2 (at_slot (cqueue p) cs (front q)) (cr p) (yr q);
  pr_c : option_Forall2 (at_slot (cqueue p) cs (front q)) (cc p) (yc q)
}.

(** Addresses are compared for slot numbers. *)
Lemma at_eq y cs len fr a b n m : yq_rep y cs len → at_slot y cs fr a n → at_slot y cs fr b m → a = b ↔ n = m.
Proof.
  intros Hr [Hn Ha] [Hm Hb]. split; intros He; [|congruence]. subst b.
  pose proof (addr_inj _ _ _ _ _ (rep_nodup_cs _ _ _ Hr) Ha Hb). lia.
Qed.

Lemma at_eq_opt y cs len fr o o' a n : yq_rep y cs len → option_Forall2 (at_slot y cs fr) o o' → at_slot y cs fr a n →
  (o = Some a ↔ o' = Some n) ∧ (o = None ↔ o' = None).
Proof.
  intros Hr Ho Ha. destruct Ho as [b m Hb|]; [|done]. pose proof (at_eq _ _ _ _ _ _ _ _ Hr Hb Ha) as He.
  split; [|done]. split; intros [= ?]; f_equal; by apply He.
Qed.

Lemma at_front cs p q : pipe_rel cs p q → at_slot (cqueue p) cs (front q) (yq_front (cqueue p)) (front q).
Proof. intros []. split; [done|]. rewrite Nat.sub_diag. by eapply rep_front. Qed.

Lemma at_back cs p q : pipe_rel cs p q → ∃ b, yq_back (cqueue p) = Ok b ∧ at_slot (cqueue p) cs (front q) b (back q).
Proof.
  intros []. destruct (rep_back_ptr _ _ _ pr_rep0 ltac:(lia)) as (a & Hb & Ha). exists a. split; [done|].
  unfold back. split; [lia|]. by replace (front q + length (slots q) - front q)%nat with (S (length (slots q)) - 1)%nat by lia.
Qed.

(** The pointers stay with their slots. *)
Lemma move_rel cs p q y cs' l fr : pipe_rel cs p q → yq_rep y cs' (S (length l)) →
  (∀ j, (j < length l)%nat → val_at y cs' j = l !! j) →
  (∀ a n, n = yw q ∨ n = yf q ∨ yr q = Some n ∨ yc q = Some n → at_slot (cqueue p) cs (front q) a n → at_slot y cs' fr a n) →
  pipe_rel cs' (set_queue y p) (mkYpipe l fr (yw q) (yf q) (yr q) (yc q)).
Proof.
  intros [Hr Hv Hw Hf Hyr Hyc] Hr' Hv' Hat. constructor; simpl; [done|done|by apply Hat; auto|by apply Hat; auto|..].
  - destruct Hyr; constructor. by apply Hat; auto.
  - destruct Hyc; constructor. by apply Hat; auto.
Qed.

(** Pointers are to slots from [front] to [f]. *)
Lemma ptr_slot q n : ypipe_wf q → n = yw q ∨ n = yf q ∨ yr q = Some n ∨ yc q = Some n → (front q ≤ n ≤ yf q)%nat.
Proof.
  intros [Hw Hb Hc Hr] [->|[->|[Hn|Hn]]]; [lia|lia|apply Hr in Hn; lia|].
  destruct Hc as [Hc|[Hc _]]; [|congruence]. assert (n = yw q) as -> by congruence. lia.
Qed.

Lemma cpipe_new_rel : ∃ p cs, cpipe_new = Ok p ∧ pipe_rel cs p ypipe_new.
Proof.
  unfold cpipe_new. destruct (yq_push_spec _ _ _ yq_new_rep) as (y & cs & -> & Hr & _). cbn [mbind res_bind].
  destruct (rep_back_ptr _ _ _ Hr ltac:(lia)) as (b & -> & Hb). cbn [mbind res_bind]. eexists _, cs. split; [done|].
  constructor; simpl; [done|lia|..]; try constructor; done.
Qed.

Lemma cwrite_rel x i cs p q : ypipe_wf q → pipe_rel cs p q →
  ∃ p' cs', cwrite x i p = Ok p' ∧ pipe_rel cs' p' (ywrite x i q).
Proof.
  intros Hwf Hp. pose proof Hp as []. destruct (at_back _ _ _ Hp) as (b & Hb & Hab). unfold cwrite. rewrite Hb. cbn [mbind res_bind].
  destruct Hab as [_ Hab]. unfold back in Hab. rewrite Nat.add_comm, Nat.add_sub in Hab.
  destruct (yq_write_spec _ _ _ _ _ x pr_rep0 Hab) as (y1 & -> & Hr1 & Ha1 & Hv1). cbn [mbind res_bind].
  destruct (yq_push_spec _ _ _ Hr1) as (y2 & cs2 & -> & Hr2 & H2). cbn [mbind res_bind].
  assert (pipe_rel cs2 (set_queue y2 p) (ywrite x true q)) as Hrel.
  { apply (move_rel cs p q); [done|by rewrite length_app, Nat.add_1_r|..].
    - rewrite length_app. simpl. intros j Hj. rewrite (proj2 (H2 j ltac:(lia))), Hv1. case_decide as He.
      + subst j. by rewrite list_lookup_middle.
      + rewrite lookup_app_l by lia. apply pr_val0. lia.
    - intros a n Hn [Hfr Ha]. split; [done|]. pose proof (ptr_slot q n Hwf Hn). pose proof (wf_back _ Hwf) as Hbk. unfold back in Hbk.
      by rewrite (proj1 (H2 (n - front q)%nat ltac:(lia))), Ha1. }
  destruct i; [by exists (set_queue y2 p), cs2|]. destruct (at_back _ _ _ Hrel) as (b' & Hb' & Hab').
  simpl in Hb'. rewrite Hb'. cbn [mbind res_bind]. eexists _, cs2. split; [done|]. by destruct Hrel; constructor.
Qed.

Lemma cunwrite_rel cs p q : ypipe_wf q → pipe_rel cs p q →
  ∃ o p' cs', (yunwrite q).1 = Ok o ∧ cunwrite p = Ok (o, p') ∧ pipe_rel cs' p' (yunwrite q).2.
Proof.
  intros Hwf Hp. pose proof Hp as []. destruct (at_back _ _ _ Hp) as (b & Hb & Hab). unfold cunwrite, yunwrite. rewrite Hb.
  cbn [mbind res_bind]. pose proof (at_eq _ _ _ _ _ _ _ _ pr_rep0 pr_f0 Hab) as He. pose proof Hwf as [Hw Hbk _ _].
  destruct (decide (cf p = b)) as [H1|H1], (decide (yf q = back q)) as [H2|H2]; [by exists None, p, cs|naive_solver..|].
  unfold back in *. assert (1 ≤ length (slots q))%nat as Hlen by lia.
  destruct (last (slots q)) as [x|] eqn:Hx; [|apply last_None in Hx; rewrite Hx in Hlen; simpl in Hlen; lia].
  destruct (yq_unpush_spec _ _ _ pr_rep0 ltac:(lia)) as (y & cs' & -> & Hr & Hk). cbn [mbind res_bind].
  replace (S (length (slots q)) - 1)%nat with (length (slots q)) in * by lia.
  destruct (rep_back_ptr _ _ _ Hr ltac:(lia)) as (b' & -> & Hb'). cbn [mbind res_bind].
  rewrite (read_val _ _ _ _ x Hb'); last first.
  { rewrite (proj2 (Hk (length (slots q) - 1)%nat ltac:(lia))), pr_val0 by lia. by rewrite Nat.sub_1_r, <-last_lookup. }
  cbn [mbind res_bind]. eexists _, _, cs'. split; [done|]. split; [done|]. simpl. apply (move_rel cs p q); [done|..].
  - rewrite length_take. by replace (S ((length (slots q) - 1) `min` length (slots q))) with (length (slots q)) by lia.
  - rewrite length_take. intros j Hj. rewrite (proj2 (Hk j ltac:(lia))), lookup_take_lt by lia. apply pr_val0. lia.
  - intros a n Hn [Hfr Ha]. split; [done|]. pose proof (ptr_slot q n Hwf Hn). by rewrite (proj1 (Hk (n - front q)%nat ltac:(lia))).
Qed.

Lemma cflush_rel cs p q : pipe_rel cs p q → (cflush p).1 = (yflush q).1 ∧ pipe_rel cs (cflush p).2 (yflush q).2.
Proof.
  intros Hp. pose proof Hp as []. unfold cflush, yflush. pose proof (at_eq _ _ _ _ _ _ _ _ pr_rep0 pr_w0 pr_f0) as He.
  pose proof (at_eq_opt _ _ _ _ _ _ _ _ pr_rep0 pr_c0 pr_w0) as [Hc _].
  destruct (decide (cw p = cf p)), (decide (yw q = yf q)); [done|naive_solver..|]. simpl.
  split; [by apply bool_decide_ext|]. constructor; simpl; try done. by constructor.
Qed.

Lemma ccheck_read_rel cs p q : pipe_rel cs p q →
  (ccheck_read p).1 = (ycheck_read q).1 ∧ pipe_rel cs (ccheck_read p).2 (ycheck_read q).2.
Proof.
  intros Hp. pose proof Hp as []. unfold ccheck_read, ycheck_read. pose proof (at_front _ _ _ Hp) as Hf.
  pose proof (at_eq_opt _ _ _ _ _ _ _ _ pr_rep0 pr_r0 Hf) as [Hr Hrn].
  pose proof (at_eq_opt _ _ _ _ _ _ _ _ pr_rep0 pr_c0 Hf) as [Hc Hcn].
  rewrite (decide_ext (cr p ≠ Some (yq_front (cqueue p)) ∧ cr p ≠ None) (yr q ≠ Some (front q) ∧ yr q ≠ None)) by (by rewrite Hr, Hrn).
  case_decide; [done|]. simpl. split; [apply bool_decide_ext; by rewrite Hc, Hcn|].
  constructor; simpl; try done.
  rewrite (decide_ext (cc p = Some (yq_front (cqueue p))) (yc q = Some (front q))) by done. by case_decide; [constructor|done].
Qed.

(** The first slot, when there is something to read. *)
Lemma front_item cs p q : ypipe_wf q → pipe_rel cs p q → (ycheck_read q).1 = true →
  ∃ x l, slots (ycheck_read q).2 = x :: l ∧ yq_read (yq_front (cqueue (ccheck_read p).2)) (cqueue (ccheck_read p).2) = Ok x ∧
  let q1 := (ycheck_read q).2 in
  (∀ n, n = yw q1 ∨ n = yf q1 ∨ yr q1 = Some n ∨ yc q1 = Some n → (S (front q1) ≤ n ≤ S (front q1) + length l)%nat).
Proof.
  intros Hwf Hp Hok. destruct (ccheck_read_rel _ _ _ Hp) as [_ Hrel]. pose proof (ycheck_read_spec q Hwf) as Hs.
  pose proof (flushed_nil q Hwf) as Hn. destruct (ycheck_read q) as [ok q1]. simpl in *.
  destruct Hs as (Hwf1 & Hsl & Hfr & Hw & Hf & Hb & _ & Hne). specialize (Hne Hok). rewrite Hok in Hb. clear Hok. symmetry in Hb. rename Hb into Hok.
  apply bool_decide_eq_true in Hok. rewrite Hn, <-Hw, <-Hfr in Hok. pose proof Hwf1 as [H1 H2 H3 H4]. unfold back in H2.
  destruct (slots q1) as [|x l] eqn:Hl; [simpl in H2; lia|]. exists x, l. split; [done|]. split.
  - apply (read_val _ cs 0); [by eapply rep_front, Hrel|]. rewrite (pr_val _ _ _ Hrel) by (rewrite Hl; simpl; lia). by rewrite Hl.
  - intros n Hnn. pose proof (ptr_slot q1 n Hwf1 Hnn). simpl in H2.
    assert (n ≠ front q1); [|lia]. intros ->. destruct Hnn as [?|[?|[?|?]]]; [congruence|lia|congruence|].
    destruct H3 as [H3|[H3 _]]; congruence.
Qed.

Lemma cread_rel cs p q : ypipe_wf q → pipe_rel cs p q →
  ∃ o p' cs', (yread q).1 = Ok o ∧ cread p = Ok (o, p') ∧ pipe_rel cs' p' (yread q).2.
Proof.
  intros Hwf Hp. pose proof (ccheck_read_rel _ _ _ Hp) as [Hok Hrel]. pose proof (front_item _ _ _ Hwf Hp) as Hfi. unfold cread, yread.
  destruct (ccheck_read p) as [b1 p1], (ycheck_read q) as [b q1]. simpl in *. subst b1.
  destruct b; [|by exists None, p1, cs]. destruct (Hfi eq_refl) as (x & l & Hl & -> & Hptr). clear Hfi. cbn [mbind res_bind].
  pose proof Hrel as []. rewrite Hl in pr_rep0, pr_val0. simpl in pr_rep0, pr_val0.
  destruct (yq_pop_spec _ _ _ pr_rep0 ltac:(lia)) as (y & cs' & -> & Hr & Hk). cbn [mbind res_bind]. rewrite Hl.
  eexists _, _, cs'. split; [done|]. split; [done|]. simpl in *. rewrite ?Nat.sub_0_r in *. apply (move_rel cs p1 q1); [done|done|..].
  - intros j Hj. rewrite (proj2 (Hk j ltac:(lia))). apply (pr_val0 (S j)). lia.
  - intros a n Hn [Hfr Ha]. specialize (Hptr n Hn). split; [lia|]. rewrite (proj1 (Hk (n - S (front q1))%nat ltac:(lia))).
    by replace (S (n - S (front q1))) with (n - front q1)%nat by lia.
Qed.

Lemma cprobe_rel cs p q : ypipe_wf q → pipe_rel cs p q →
  match (yprobe q).1 with
  | Ok x => ∃ p', cprobe p = Ok (x, p') ∧ pipe_rel cs p' (yprobe q).2
  | Throw e => e = Aborted "rc" ∧ cprobe p = Throw e
  end.
Proof.
  intros Hwf Hp. pose proof (ccheck_read_rel _ _ _ Hp) as [Hok Hrel]. pose proof (front_item _ _ _ Hwf Hp) as Hfi. unfold cprobe, yprobe.
  destruct (ccheck_read p) as [b1 p1], (ycheck_read q) as [b q1]. simpl in *. subst b1.
  destruct b; [|done]. destruct (Hfi eq_refl) as (x & l & -> & -> & _). cbn. by exists p1.
Qed.

Lemma ystep_wf op q o q' : ypipe_wf q → ystep op q = Ok (o, q') → ypipe_wf q'.
Proof.
  intros Hwf. destruct op as [x i| | | | |]; simpl.
  - intros [= _ <-]. by apply ywrite_spec.
  - pose proof (yunwrite_spec q Hwf) as H. destruct (yunwrite q) as [[] ?]; simpl; [|done]. intros [= _ <-]. by destruct H.
  - pose proof (yflush_spec q Hwf) as H. destruct (yflush q). intros [= _ <-]. by destruct H.
  - pose proof (ycheck_read_spec q Hwf) as H. destruct (ycheck_read q). intros [= _ <-]. by destruct H.
  - pose proof (yread_spec q Hwf) as H. destruct (yread q) as [[] ?]; simpl; [|done]. intros [= _ <-]. by destruct H.
  - unfold yprobe. pose proof (ycheck_read_spec q Hwf) as H. destruct (ycheck_read q) as [[] q1]; [|done].
    cbn. destruct (slots q1); [done|]. intros [= _ <-]. by destruct H.
Qed.

(** Each operation on the chunks does what the one on the slots does. *)
Lemma step_sim op cs p q : ypipe_wf q → pipe_rel cs p q →
  match ystep op q with
  | Ok (o, q') => ∃ p' cs', cstep op p = Ok (o, p') ∧ pipe_rel cs' p' q'
  | Throw e => e = Aborted "rc" ∧ cstep op p = Throw e
  end.
Proof.
  intros Hwf Hp. destruct op as [x i| | | | |]; simpl.
  - destruct (cwrite_rel x i cs p q Hwf Hp) as (p' & cs' & -> & H). by exists p', cs'.
  - destruct (cunwrite_rel cs p q Hwf Hp) as (o & p' & cs' & H1 & -> & H). destruct (yunwrite q). simpl in *. subst. by exists p', cs'.
  - pose proof (cflush_rel cs p q Hp) as [H1 H]. destruct (yflush q), (cflush p). simpl in *. subst. by eexists _, cs.
  - pose proof (ccheck_read_rel cs p q Hp) as [H1 H]. destruct (ycheck_read q), (ccheck_read p). simpl in *. subst. by eexists _, cs.
  - destruct (cread_rel cs p q Hwf Hp) as (o & p' & cs' & H1 & -> & H). destruct (yread q). simpl in *. subst. by exists p', cs'.
  - pose proof (cprobe_rel cs p q Hwf Hp) as H. destruct (yprobe q) as [[x|e] q']; simpl in *.
    + destruct H as (p' & -> & H). by exists p', cs.
    + by destruct H as [-> ->].
Qed.

Lemma run_sim ops : ∀ cs p q, ypipe_wf q → pipe_rel cs p q →
  match run_ops ystep ops q with
  | Ok (os, q') => ∃ p' cs', run_ops cstep ops p = Ok (os, p') ∧ pipe_rel cs' p' q'
  | Throw e => e = Aborted "rc" ∧ run_ops cstep ops p = Throw e
  end.
Proof.
  induction ops as [|op ops IH]; intros cs p q Hwf Hp; [by exists p, cs|].
  pose proof (step_sim op cs p q Hwf Hp) as Hs. cbn [run_ops].
  destruct (ystep op q) as [[o q1]|e] eqn:Hy; [|by destruct Hs as [-> ->]].
  destruct Hs as (p1 & cs1 & -> & Hp1). cbn [mbind res_bind]. specialize (IH cs1 p1 q1 (ystep_wf _ _ _ _ Hwf Hy) Hp1).
  destruct (run_ops ystep ops q1) as [[os q2]|e]; cbn [mbind res_bind]; [|by destruct IH as [-> ->]].
  destruct IH as (p2 & cs2 & -> & Hp2). by exists p2, cs2.
Qed.

End yqueue.
Arguments yop : clear implicits.
Arguments yout : clear implicits.

(** C16: For every chunk size and every allocator that returns addresses that are not in
    use, a sequence of operations on a pipe whose items are in linked chunks, with freed
    chunks used again, gives the same results as on a pipe whose slots have numbers that
    are never used again; no freed or unset memory is used, it aborts only where a probe
    finds nothing, at most the chunks that the items need and three more are allocated, and
    destroying the queue frees every one of them. *)
Theorem ypipe_refines {T} (N : nat) (malloc : gset nat → nat) (ops : list (yop T)) :
  (0 < N)%nat → (∀ X, malloc X ∉ X) →
  match yrun ops with
  | Ok (outs, q) => ∃ p, crun N malloc ops = Ok (outs, p) ∧
      (size (chunks (cqueue p)) ≤ 3 + length (slots q) / N)%nat ∧ yq_destroy (cqueue p) = Ok ∅
  | Throw e => e = Aborted "rc" ∧ crun N malloc ops = Throw e
  end.
Proof.
  intros HN Hm. unfold crun, yrun. destruct (cpipe_new_rel N malloc HN Hm (T := T)) as (p & cs & -> & Hp).
  pose proof (run_sim N malloc HN Hm ops cs p ypipe_new ypipe_new_wf Hp) as Hs. cbn [mbind res_bind].
  destruct (run_ops ystep ops ypipe_new) as [[outs q]|e]; [|done]. destruct Hs as (p' & cs' & -> & Hp').
  exists p'. pose proof (pr_rep _ _ _ _ Hp'). split; [done|]. split; [by eapply rep_bound|by eapply yq_destroy_spec].
Qed.

(** Chunks of two: the third write takes a second chunk, the reads free the first one
    for the spare, and an incomplete item that filled a chunk is taken back. *)
Definition sample_ops : list (yop nat) :=
  [YWrite 1 false; YWrite 2 false; YFlush; YRead; YProbe; YRead; YRead; YWrite 3 false; YWrite 4 true; YWrite 5 true;
   YUnwrite; YUnwrite; YUnwrite; YFlush; YCheckRead; YRead]%nat.

Lemma ypipe_refines_witness : ∃ p, crun 2 fresh sample_ops =
  Ok ([YDone; YDone; YFlag true; YItem (Some 1); YItem (Some 2); YItem (Some 2); YItem None; YDone; YDone; YDone;
       YItem (Some 5); YItem (Some 4); YItem None; YFlag false; YFlag true; YItem (Some 3)]%nat, p) ∧
  (size (chunks (cqueue p)) ≤ 3)%nat ∧ yq_destroy (cqueue p) = Ok ∅.
Proof. exact (ypipe_refines 2 fresh sample_ops ltac:(lia) is_fresh). Defined.
