(* ===== verification/ZmqPipe.v ===== *)
(** * Pipes between sockets

    [zmq::pipe_t] (zeromq-4.0.4/src/pipe.cpp): one end of a connection inside the
    library, with a queue in each direction.  The two ends run in different
    threads and tell each other by commands that there is something to read, that
    there is room to write, and when to shut down.  The queues are in a heap,
    because the ends share them and replace them; what an end sends and the
    events it raises are lists. *)

From S2P Require Import Prelude Monad ZmqNode ZmqYpipe.

(** What is in a queue: frames of messages, and the delimiter at the end. *)
Inductive item := Frame (data : string) (more : bool) | Delimiter.

#[global] Instance item_eq_dec : EqDecision item.
Proof. solve_decision. Defined.

Inductive pipe_state :=
  active | delimiter_received | waiting_for_delimiter | term_ack_sent | term_req_sent1 | term_req_sent2.

#[global] Instance pipe_state_eq_dec : EqDecision pipe_state.
Proof. solve_decision. Defined.

Inductive command :=
  | activate_read | activate_write (msgs_read : Z) | hiccup_cmd (pipe : nat) | pipe_term | pipe_term_ack.

#[global] Instance command_eq_dec : EqDecision command.
Proof. solve_decision. Defined.

(** [i_pipe_events] *)
Inductive pipe_event := read_activated | write_activated | hiccuped | pipe_terminated.

Record pipe_t := mkPipe {
  inpipe : option nat;
  outpipe : option nat;
  in_active : bool;
  out_active : bool;
  hwm : Z;
  lwm : Z;
  msgs_read : Z;                  (** the counters are [uint64_t] *)
  msgs_written : Z;
  peers_msgs_read : Z;
  state : pipe_state;
  delay : bool
}.

Definition u64 (z : Z) : Z := z mod 2 ^ 64.

Definition set_in_active (b : bool) (p : pipe_t) : pipe_t :=
  mkPipe (inpipe p) (outpipe p) b (out_active p) (hwm p) (lwm p) (msgs_read p) (msgs_written p)
    (peers_msgs_read p) (state p) (delay p).
Definition set_out_active (b : bool) (p : pipe_t) : pipe_t :=
  mkPipe (inpipe p) (outpipe p) (in_active p) b (hwm p) (lwm p) (msgs_read p) (msgs_written p)
    (peers_msgs_read p) (state p) (delay p).
Definition set_inpipe (q : option nat) (p : pipe_t) : pipe_t :=
  mkPipe q (outpipe p) (in_active p) (out_active p) (hwm p) (lwm p) (msgs_read p) (msgs_written p)
    (peers_msgs_read p) (state p) (delay p).
Definition set_outpipe (q : option nat) (p : pipe_t) : pipe_t :=
  mkPipe (inpipe p) q (in_active p) (out_active p) (hwm p) (lwm p) (msgs_read p) (msgs_written p)
    (peers_msgs_read p) (state p) (delay p).
Definition set_state (s : pipe_state) (p : pipe_t) : pipe_t :=
  mkPipe (inpipe p) (outpipe p) (in_active p) (out_active p) (hwm p) (lwm p) (msgs_read p) (msgs_written p)
    (peers_msgs_read p) s (delay p).
Definition set_delay (b : bool) (p : pipe_t) : pipe_t :=
  mkPipe (inpipe p) (outpipe p) (in_active p) (out_active p) (hwm p) (lwm p) (msgs_read p) (msgs_written p)
    (peers_msgs_read p) (state p) b.
Definition set_marks (h l : Z) (p : pipe_t) : pipe_t :=
  mkPipe (inpipe p) (outpipe p) (in_active p) (out_active p) h l (msgs_read p) (msgs_written p)
    (peers_msgs_read p) (state p) (delay p).
Definition set_counters (r w pr : Z) (p : pipe_t) : pipe_t :=
  mkPipe (inpipe p) (outpipe p) (in_active p) (out_active p) (hwm p) (lwm p) r w pr (state p) (delay p).

(** What an end of a pipe works on. *)
Record penv := mkPenv {
  queues : gmap nat (ypipe_t item);
  self : pipe_t;
  sent : list command;
  events : list pipe_event
}.

Definition on_self (f : pipe_t → pipe_t) : M penv unit :=
  modify (λ s, mkPenv (queues s) (f (self s)) (sent s) (events s)).
Definition send (c : command) : M penv unit :=
  modify (λ s, mkPenv (queues s) (self s) (sent s ++ [c]) (events s)).
Definition raise (e : pipe_event) : M penv unit :=
  modify (λ s, mkPenv (queues s) (self s) (sent s) (events s ++ [e])).

(** A call on a queue through a pointer. *)
Definition on_queue {A} (ptr : option nat) (f : ypipe_t item → res A * ypipe_t item) : M penv A := λ s,
  match ptr with
  | None => (null_pointer, s)
  | Some l =>
      match queues s !! l with
      | None => (Throw (UndefinedBehaviour "use of a deleted queue"), s)
      | Some q => let '(r, q) := f q in (r, mkPenv (<[l := q]> (queues s)) (self s) (sent s) (events s))
      end
  end.

Definition qcheck_read (ptr : option nat) : M penv bool :=
  on_queue ptr (λ q, let '(b, q) := ycheck_read q in (Ok b, q)).
Definition qread (ptr : option nat) : M penv (option item) := on_queue ptr yread.
Definition qprobe (ptr : option nat) : M penv item := on_queue ptr yprobe.
Definition qwrite (ptr : option nat) (x : item) (incomplete : bool) : M penv unit :=
  on_queue ptr (λ q, (Ok (), ywrite x incomplete q)).
Definition qunwrite (ptr : option nat) : M penv (option item) := on_queue ptr yunwrite.
Definition qflush (ptr : option nat) : M penv bool :=
  on_queue ptr (λ q, let '(b, q) := yflush q in (Ok b, q)).

Definition qdelete (ptr : option nat) : M penv unit := λ s,
  match ptr with
  | None => (Ok (), s)
  | Some l => (Ok (), mkPenv (delete l (queues s)) (self s) (sent s) (events s))
  end.

Definition qnew : M penv nat := λ s,
  let l := fresh (dom (queues s)) in
  (Ok l, mkPenv (<[l := ypipe_new]> (queues s)) (self s) (sent s) (events s)).

(** ** Water marks *)

Definition max_wm_delta : Z := 1024.

Definition compute_lwm (hwm : Z) : Z :=
  if max_wm_delta * 2 <? hwm then hwm - max_wm_delta else Z.quot (hwm + 1) 2.

Definition set_hwms (inhwm outhwm : Z) : M penv unit := on_self (set_marks outhwm (compute_lwm inhwm)).

Definition pipe_new (inpipe outpipe : nat) (inhwm outhwm : Z) : pipe_t :=
  mkPipe (Some inpipe) (Some outpipe) true true outhwm (compute_lwm inhwm) 0 0 0 active true.

(** ** Reading *)

Definition process_delimiter : M penv unit :=
  s ← gets (λ e, state (self e));
  _ ← lift (zmq_assert "state == active || state == waiting_for_delimiter"
        (bool_decide (s = active ∨ s = waiting_for_delimiter)));
  if decide (s = active) then on_self (set_state delimiter_received)
  else
    _ ← on_self (set_outpipe None);
    _ ← send pipe_term_ack;
    on_self (set_state term_ack_sent).

Definition readable (p : pipe_t) : bool :=
  in_active p && bool_decide (state p = active ∨ state p = waiting_for_delimiter).

Definition pipe_check_read : M penv bool :=
  p ← gets self;
  if negb (readable p) then mret false
  else
    ok ← qcheck_read (inpipe p);
    if negb ok then _ ← on_self (set_in_active false); mret false
    else
      x ← qprobe (inpipe p);
      if decide (x = Delimiter) then
        r ← qread (inpipe p);
        _ ← lift (zmq_assert "ok" (bool_decide (is_Some r)));
        _ ← process_delimiter;
        mret false
      else mret true.

(** The frame that was read. *)
Definition pipe_read : M penv (option (string * bool)) :=
  p ← gets self;
  if negb (readable p) then mret None
  else
    r ← qread (inpipe p);
    match r with
    | None => _ ← on_self (set_in_active false); mret None
    | Some Delimiter => _ ← process_delimiter; mret None
    | Some (Frame d more) =>
        _ ← (if more then mret ()
             else on_self (λ p, set_counters (u64 (msgs_read p + 1)) (msgs_written p) (peers_msgs_read p) p));
        p ← gets self;
        _ ← (if (0 <? lwm p) && (msgs_read p mod lwm p =? 0) then send (activate_write (msgs_read p)) else mret ());
        mret (Some (d, more))
    end.

(** ** Writing *)

Definition pipe_check_write : M penv bool :=
  p ← gets self;
  if negb (out_active p) || negb (bool_decide (state p = active)) then mret false
  else
    let full := (0 <? hwm p) && (u64 (msgs_written p - peers_msgs_read p) =? u64 (hwm p)) in
    if full then _ ← on_self (set_out_active false); mret false
    else mret true.

Definition pipe_write (d : string) (more : bool) : M penv bool :=
  ok ← pipe_check_write;
  if negb ok then mret false
  else
    p ← gets self;
    _ ← qwrite (outpipe p) (Frame d more) more;
    _ ← (if more then mret ()
         else on_self (λ p, set_counters (msgs_read p) (u64 (msgs_written p + 1)) (peers_msgs_read p) p));
    mret true.

(** Dropping the frames of an unfinished message; [fuel] bounds their number. *)
Fixpoint rollback_loop (fuel : nat) (ptr : option nat) : M penv unit :=
  match fuel with
  | O => throw OutOfFuel
  | S fuel =>
      r ← qunwrite ptr;
      match r with
      | None => mret ()
      | Some x =>
          _ ← lift (zmq_assert "msg.flags () & msg_t::more" (if x is Frame _ true then true else false));
          rollback_loop fuel ptr
      end
  end.

Definition queue_length (s : penv) (ptr : option nat) : nat :=
  from_option (λ q : ypipe_t item, length (slots q)) 0%nat (l ← ptr; queues s !! l).

Definition rollback : M penv unit :=
  p ← gets self;
  if outpipe p is None then mret ()
  else fuel ← gets (λ s, S (queue_length s (outpipe p))); rollback_loop fuel (outpipe p).

Definition pipe_flush : M penv unit :=
  p ← gets self;
  if decide (state p = term_ack_sent) then mret ()
  else if outpipe p is None then mret ()
  else
    ok ← qflush (outpipe p);
    if negb ok then send activate_read else mret ().

(** ** Commands from the other end *)

Definition process_activate_read : M penv unit :=
  p ← gets self;
  if negb (in_active p) && bool_decide (state p = active ∨ state p = waiting_for_delimiter) then
    _ ← on_self (set_in_active true);
    raise read_activated
  else mret ().

Definition process_activate_write (n : Z) : M penv unit :=
  _ ← on_self (λ p, set_counters (msgs_read p) (msgs_written p) n p);
  p ← gets self;
  if negb (out_active p) && bool_decide (state p = active) then
    _ ← on_self (set_out_active true);
    raise write_activated
  else mret ().

(** Emptying a queue before it is deleted. *)
Fixpoint drain_loop (fuel : nat) (ptr : option nat) : M penv unit :=
  match fuel with
  | O => throw OutOfFuel
  | S fuel =>
      r ← qread ptr;
      if r is None then mret () else drain_loop fuel ptr
  end.

Definition drain (ptr : option nat) : M penv unit :=
  fuel ← gets (λ s, S (queue_length s ptr)); drain_loop fuel ptr.

(** The other end created a new queue for what this end writes. *)
Definition process_hiccup (pipe : nat) : M penv unit :=
  p ← gets self;
  _ ← lift (zmq_assert "outpipe" (bool_decide (is_Some (outpipe p))));
  _ ← qflush (outpipe p);
  _ ← drain (outpipe p);
  _ ← qdelete (outpipe p);
  _ ← on_self (λ p, set_out_active true (set_outpipe (Some pipe) p));
  if decide (state p = active) then raise hiccuped else mret ().

Definition send_term_ack (s : pipe_state) : M penv unit :=
  _ ← on_self (λ p, set_outpipe None (set_state s p));
  send pipe_term_ack.

Definition process_pipe_term : M penv unit :=
  p ← gets self;
  match state p with
  | active =>
      if negb (delay p) then send_term_ack term_ack_sent
      else on_self (set_state waiting_for_delimiter)
  | delimiter_received => send_term_ack term_ack_sent
  | term_req_sent1 => send_term_ack term_req_sent2
  | _ => lift (zmq_assert "false" false)
  end.

(** The end of this side of the pipe: its object is deleted. *)
Definition process_pipe_term_ack : M penv unit :=
  _ ← raise pipe_terminated;
  p ← gets self;
  _ ← (if decide (state p = term_req_sent1) then
         _ ← on_self (set_outpipe None);
         send pipe_term_ack
       else lift (zmq_assert "state == term_ack_sent || state == term_req_sent2"
                    (bool_decide (state p = term_ack_sent ∨ state p = term_req_sent2))));
  _ ← drain (inpipe p);
  qdelete (inpipe p).

(** ** Termination and reconnection *)

Definition set_nodelay : M penv unit := on_self (set_delay false).

Definition terminate (delay_ : bool) : M penv unit :=
  _ ← on_self (set_delay delay_);
  p ← gets self;
  match state p with
  | term_req_sent1 | term_req_sent2 | term_ack_sent => mret ()
  | s =>
      _ ← (match s with
           | waiting_for_delimiter =>
               if negb delay_ then
                 _ ← on_self (set_outpipe None);
                 _ ← send pipe_term_ack;
                 on_self (set_state term_ack_sent)
               else mret ()
           | _ => _ ← send pipe_term; on_self (set_state term_req_sent1)
           end);
      _ ← on_self (set_out_active false);
      p ← gets self;
      if outpipe p is None then mret ()
      else
        _ ← rollback;
        _ ← qwrite (outpipe p) Delimiter false;
        pipe_flush
  end.

Definition hiccup : M penv unit :=
  p ← gets self;
  if negb (bool_decide (state p = active)) then mret ()
  else
    q ← qnew;
    _ ← on_self (λ p, set_in_active true (set_inpipe (Some q) p));
    send (hiccup_cmd q).

(** A command that arrived. *)
Definition process_command (c : command) : M penv unit :=
  match c with
  | activate_read => process_activate_read
  | activate_write n => process_activate_write n
  | hiccup_cmd q => process_hiccup q
  | pipe_term => process_pipe_term
  | pipe_term_ack => process_pipe_term_ack
  end.
