(* ===== verification/ZmqPipeSpec.v ===== *)
(** * What a pipe guarantees

    The two ends of a pipe in two threads, with a mailbox for each: any
    interleaving of writes, flushes and reads at both ends and of the commands
    that the ends process.  Frames are read in the order they were written, the
    number of messages on the way stays within the high water mark, and neither
    end waits for the other without a reason. *)

From S2P Require Import Prelude Monad ZmqNode ZmqYpipe ZmqPipe.

(** The two ends, [false] and [true]. *)
Record pair := mkPair {
  pqueues : gmap nat (ypipe_t item);
  ends : bool → pipe_t;
  mail : bool → list command;       (** commands for an end *)
  wrote : bool → list item;         (** frames an end has written *)
  got : bool → list item            (** frames an end has read *)
}.

Definition upd {A} (f : bool → A) (a : bool) (x : A) : bool → A := λ b, if decide (b = a) then x else f b.

(** [pipepair]: queue 0 for what end [false] writes, queue 1 for the other. *)
Definition pipepair (hwms : bool → Z) : pair :=
  mkPair (<[0%nat := ypipe_new]> (<[1%nat := ypipe_new]> ∅))
    (λ a, if a then pipe_new 0 1 (hwms false) (hwms true) else pipe_new 1 0 (hwms true) (hwms false))
    (λ _, []) (λ _, []) (λ _, []).

(** A call at end [a]. *)
Definition call {A} (a : bool) (m : M penv A) (s : pair) : res A * pair :=
  let '(r, e) := m (mkPenv (pqueues s) (ends s a) [] []) in
  (r, mkPair (queues e) (upd (ends s) a (self e)) (upd (mail s) (negb a) (mail s (negb a) ++ sent e))
        (wrote s) (got s)).

Definition note_wrote (a : bool) (x : item) (s : pair) : pair :=
  mkPair (pqueues s) (ends s) (mail s) (upd (wrote s) a (wrote s a ++ [x])) (got s).
Definition note_got (a : bool) (x : item) (s : pair) : pair :=
  mkPair (pqueues s) (ends s) (mail s) (wrote s) (upd (got s) a (got s a ++ [x])).
Definition set_mail (a : bool) (l : list command) (s : pair) : pair :=
  mkPair (pqueues s) (ends s) (upd (mail s) a l) (wrote s) (got s).

(** What can happen while the connection is up. *)
Inductive pipe_step : pair → pair → Prop :=
  | step_write a d more s b s' : call a (pipe_write d more) s = (Ok b, s') →
      pipe_step s (if b : bool then note_wrote a (Frame d more) s' else s')
  | step_flush a s s' : call a pipe_flush s = (Ok (), s') → pipe_step s s'
  | step_read a s r s' : call a pipe_read s = (Ok r, s') →
      pipe_step s (match r with Some (d, more) => note_got a (Frame d more) s' | None => s' end)
  | step_check_read a s b s' : call a pipe_check_read s = (Ok b, s') → pipe_step s s'
  | step_command a c l s s' : mail s a = c :: l →
      call a (process_command c) (set_mail a l s) = (Ok (), s') → pipe_step s s'.

(** ** The invariant, for one direction *)

(** Whether a frame ends a message. *)
Definition final (x : item) : bool := if x is Frame _ true then false else true.

Definition messages (l : list item) : Z := Z.of_nat (length (filter (λ x, final x = true) l)).

(** The number of read messages that the writer was told last.  Counters wrap
    around: a counter [k] stands for the first such number from [n] on. *)
Definition told (n : Z) (m : list command) : Z :=
  foldl (λ n c, if c is activate_write k then n + u64 (k - n) else n) n m.

Definition data_command (c : command) : bool :=
  match c with activate_read | activate_write _ => true | _ => false end.

Record dir_inv (pw pr : pipe_t) (q : ypipe_t item) (mw mr : list command) (hw hr : list item) : Prop := mkDir {
  dir_wf : ypipe_wf q;
  dir_states : state pw = active ∧ state pr = active;
  dir_hist : hr ++ slots q = hw;
  dir_frames : ∀ x, x ∈ slots q → x ≠ Delimiter;
  dir_complete : ∃ l, slots q = complete q ++ l ∧ (∀ x, x ∈ l → final x = false) ∧
    (complete q = [] ∨ ∃ x, last (complete q) = Some x ∧ final x = true);
  dir_flushed : flushed q = [] ∨ ∃ x, last (flushed q) = Some x ∧ final x = true;
  dir_written : msgs_written pw = u64 (messages hw);
  dir_read : msgs_read pr = u64 (messages hr);
  dir_lwm : lwm pr = compute_lwm (hwm pw) ∧ 0 ≤ hwm pw < 2 ^ 31;
  dir_range : ∀ n, activate_write n ∈ mw → n = u64 n;
  (** [n] messages are known to have been read; every number that has to be told was. *)
  dir_known : ∃ n, peers_msgs_read pw = u64 n ∧
    (0 < hwm pw → 0 ≤ n ∧ told n mw ≤ messages hr ∧ (∀ j, told n mw < j ≤ messages hr → u64 j mod lwm pr ≠ 0) ∧
                  messages hw - n ≤ hwm pw) ∧
    (out_active pw = false → 0 < hwm pw ∧ messages hw - n = hwm pw);
  dir_asleep : in_active pr = false → asleep q = true ∨ activate_read ∈ mr
}.

Definition qid (a : bool) : nat := if a then 1%nat else 0%nat.

Record pair_inv (s : pair) : Prop := mkPairInv {
  pair_pipes : ∀ a, outpipe (ends s a) = Some (qid a) ∧ inpipe (ends s a) = Some (qid (negb a));
  pair_dir : ∀ a, ∃ q, pqueues s !! qid a = Some q ∧
    dir_inv (ends s a) (ends s (negb a)) q (mail s a) (mail s (negb a)) (wrote s a) (got s (negb a));
  pair_mail : ∀ a c, c ∈ mail s a → data_command c = true
}.

(** ** Facts on counts and marks *)

Lemma messages_app l1 l2 : messages (l1 ++ l2) = messages l1 + messages l2.
Proof. unfold messages. rewrite filter_app, length_app. lia. Qed.

Lemma messages_one x : messages [x] = if final x then 1 else 0.
Proof. unfold messages. rewrite filter_cons. simpl. by destruct (final x). Qed.

Lemma messages_none l : (∀ x, x ∈ l → final x = false) → messages l = 0.
Proof.
  induction l as [|x l IH]; intros Hl; [done|]. change (x :: l) with ([x] ++ l).
  rewrite messages_app, messages_one, Hl by set_solver. apply IH. set_solver.
Qed.

Lemma messages_nonneg l : 0 ≤ messages l.
Proof. unfold messages. lia. Qed.

Lemma compute_lwm_spec h : 0 ≤ h → (0 < h ↔ 0 < compute_lwm h) ∧ compute_lwm h ≤ h.
Proof.
  intros Hh. unfold compute_lwm, max_wm_delta. rewrite Z.quot_div_nonneg by lia.
  destruct (Z.ltb_spec (1024 * 2) h); [lia|]. pose proof (Z.div_mod (h + 1) 2 ltac:(lia)).
  pose proof (Z.mod_pos_bound (h + 1) 2 ltac:(lia)). lia.
Qed.

Lemma told_app n m1 m2 : told n (m1 ++ m2) = told (told n m1) m2.
Proof. apply foldl_app. Qed.

Lemma u64_range z : 0 ≤ u64 z < 2 ^ 64.
Proof. by apply Z.mod_pos_bound. Qed.

Lemma u64_id z : 0 ≤ z < 2 ^ 64 → u64 z = z.
Proof. apply Z.mod_small. Qed.

Lemma u64_add_l x y : u64 (u64 x + y) = u64 (x + y).
Proof. apply Z.add_mod_idemp_l. lia. Qed.

Lemma u64_sub x y : u64 (u64 x - u64 y) = u64 (x - y).
Proof. unfold u64. by rewrite <-Zminus_mod. Qed.

Lemma u64_u64 x : u64 (u64 x) = u64 x.
Proof. apply Z.mod_mod. lia. Qed.

Lemma told_ge n m : n ≤ told n m.
Proof.
  revert n. induction m as [|c m IH]; intros n; [done|].
  change (told n (c :: m)) with (told (if c is activate_write k then n + u64 (k - n) else n) m).
  destruct c as [|k| | |]; try apply IH. pose proof (IH (n + u64 (k - n))). pose proof (u64_range (k - n)). lia.
Qed.

(** A multiple of the low water mark is never far: the counter starts again at 0. *)
Lemma next_mark k n : 0 < k → ∃ j, n < j ≤ n + k ∧ u64 j mod k = 0.
Proof.
  intros Hk. pose proof (u64_range n) as Hr. pose proof (Z.div_mod (u64 n) k ltac:(lia)) as Hd.
  pose proof (Z.mod_pos_bound (u64 n) k Hk) as Hm. set (m := k * (u64 n / k + 1)).
  assert (u64 n < m ≤ u64 n + k) as Hmb by (subst m; lia).
  destruct (Z.lt_ge_cases m (2 ^ 64)) as [Hlt|Hge].
  - exists (n + (m - u64 n)). split; [lia|].
    rewrite <-u64_add_l, u64_id by lia. replace (u64 n + (m - u64 n)) with (k * (u64 n / k + 1)) by (subst m; lia).
    rewrite Z.mul_comm. by apply Z.mod_mul; lia.
  - exists (n + (2 ^ 64 - u64 n)). split; [lia|]. rewrite <-u64_add_l.
    replace (u64 n + (2 ^ 64 - u64 n)) with (2 ^ 64) by lia. done.
Qed.

(** The numbers behind the counters when there is a high water mark. *)
Lemma dir_numbers pw pr q mw mr hw hr n : dir_inv pw pr q mw mr hw hr → 0 < hwm pw →
  told n mw ≤ messages hr → (∀ j, told n mw < j ≤ messages hr → u64 j mod lwm pr ≠ 0) →
  0 < lwm pr ≤ hwm pw ∧ n ≤ told n mw ∧ messages hr < told n mw + lwm pr ∧ messages hr ≤ messages hw.
Proof.
  intros [] Hh Ht Hj. destruct dir_lwm0 as [Hl Hb]. destruct (compute_lwm_spec (hwm pw)) as [Hl1 Hl2]; [lia|].
  rewrite <-Hl in *. split; [lia|]. split; [apply told_ge|]. split.
  - destruct (next_mark (lwm pr) (told n mw)) as (j & Hjb & Hj0); [lia|].
    destruct (Z.lt_ge_cases (messages hr) (told n mw + lwm pr)) as [|Hge]; [done|]. destruct (Hj j); [lia|done].
  - rewrite <-dir_hist0, messages_app. pose proof (messages_nonneg (slots q)). lia.
Qed.

Lemma dir_messages pw pr q mw mr hw hr : dir_inv pw pr q mw mr hw hr →
  messages hw = messages hr + messages (slots q).
Proof. intros []. by rewrite <-dir_hist0, messages_app. Qed.

(** Of a reader the invariant has its state, its marks and its flag, of a writer
    the rest. *)
Lemma dir_inv_reader pw pr pr' q mw mr hw hr : dir_inv pw pr q mw mr hw hr →
  state pr' = state pr → msgs_read pr' = msgs_read pr → lwm pr' = lwm pr → in_active pr' = in_active pr →
  dir_inv pw pr' q mw mr hw hr.
Proof. intros [] Hs Hr Hl Hi. constructor; rewrite ?Hs, ?Hr, ?Hl, ?Hi; done. Qed.

Lemma dir_inv_writer pw pw' pr q mw mr hw hr : dir_inv pw pr q mw mr hw hr →
  state pw' = state pw → msgs_written pw' = msgs_written pw → peers_msgs_read pw' = peers_msgs_read pw →
  hwm pw' = hwm pw → out_active pw' = out_active pw →
  dir_inv pw' pr q mw mr hw hr.
Proof. intros [] Hs Hw Hp Hh Ho. constructor; rewrite ?Hs, ?Hw, ?Hp, ?Hh, ?Ho; done. Qed.

(** Commands about the other direction. *)
Lemma dir_inv_mail_w pw pr q mw mr hw hr : dir_inv pw pr q mw mr hw hr →
  dir_inv pw pr q (mw ++ [activate_read]) mr hw hr.
Proof.
  intros []. constructor; try done.
  - intros n [Hn|[=]%list_elem_of_singleton]%elem_of_app. by apply dir_range0.
  - destruct dir_known0 as (n & Hk). exists n. rewrite told_app. done.
Qed.

Lemma dir_inv_mail_r pw pr q mw mr hw hr n : dir_inv pw pr q mw mr hw hr →
  dir_inv pw pr q mw (mr ++ [activate_write n]) hw hr.
Proof.
  intros []. constructor; try done. intros Hi. destruct (dir_asleep0 Hi); [by left|right; set_solver].
Qed.

(** ** The operations *)

Lemma flushed_same (q q' : ypipe_t item) : slots q' = slots q → front q' = front q → yw q' = yw q → yf q' = yf q →
  flushed q' = flushed q ∧ complete q' = complete q.
Proof. unfold flushed, complete. by intros -> -> -> ->. Qed.

Lemma flushed_head {T} (q : ypipe_t T) : flushed q ≠ [] → ∃ x l, slots q = x :: l ∧ head (flushed q) = Some x.
Proof.
  unfold flushed. destruct (slots q) as [|x l]; [by rewrite take_nil|].
  destruct (yw q - front q)%nat; [done|]. intros _. by exists x, l.
Qed.

Section run.
Context (e : penv) (l : nat) (q : ypipe_t item).
Context (Hq : queues e !! l = Some q).
Implicit Types (p : pipe_t).

Definition is_full p : bool :=
  (0 <? hwm p) && (u64 (msgs_written p - peers_msgs_read p) =? u64 (hwm p)).

Lemma pipe_write_run d more : outpipe (self e) = Some l → state (self e) = active →
  pipe_write d more e =
  if negb (out_active (self e)) then (Ok false, e)
  else if is_full (self e) then
    (Ok false, mkPenv (queues e) (set_out_active false (self e)) (sent e) (events e))
  else
    (Ok true, mkPenv (<[l := ywrite (Frame d more) more q]> (queues e))
       (if more then self e
        else set_counters (msgs_read (self e)) (u64 (msgs_written (self e) + 1)) (peers_msgs_read (self e)) (self e))
       (sent e) (events e)).
Proof.
  intros Ho Hs. unfold pipe_write, pipe_check_write, mbind, M_bind, gets, on_self, modify, mret, M_ret.
  cbn [self]. rewrite Hs. rewrite bool_decide_true by done. rewrite orb_false_r. fold (is_full (self e)).
  destruct (out_active (self e)); simpl; [|done]. destruct (is_full (self e)); [done|]. simpl.
  rewrite Ho. unfold qwrite, on_queue. rewrite Hq. by destruct more.
Qed.

Lemma pipe_flush_run : outpipe (self e) = Some l → state (self e) = active →
  pipe_flush e =
  (Ok (), mkPenv (<[l := (yflush q).2]> (queues e)) (self e)
     (if (yflush q).1 then sent e else sent e ++ [activate_read]) (events e)).
Proof.
  intros Ho Hs. unfold pipe_flush, mbind, M_bind, gets, mret, M_ret.
  rewrite Hs, decide_False by done. rewrite Ho. unfold qflush, on_queue. rewrite Hq.
  destruct (yflush q) as [[] q']; done.
Qed.

Lemma pipe_read_run : inpipe (self e) = Some l → state (self e) = active →
  pipe_read e =
  if negb (in_active (self e)) then (Ok None, e)
  else
    match yread q with
    | (Ok None, q') =>
        (Ok None, mkPenv (<[l := q']> (queues e)) (set_in_active false (self e)) (sent e) (events e))
    | (Ok (Some (Frame d more)), q') =>
        let r := if more then msgs_read (self e) else u64 (msgs_read (self e) + 1) in
        (Ok (Some (d, more)),
         mkPenv (<[l := q']> (queues e))
           (if more then self e else set_counters r (msgs_written (self e)) (peers_msgs_read (self e)) (self e))
           (if (0 <? lwm (self e)) && (r mod lwm (self e) =? 0) then sent e ++ [activate_write r] else sent e)
           (events e))
    | (Ok (Some Delimiter), q') =>
        (Ok None, mkPenv (<[l := q']> (queues e)) (set_state delimiter_received (self e)) (sent e) (events e))
    | (Throw x, q') => (Throw x, mkPenv (<[l := q']> (queues e)) (self e) (sent e) (events e))
    end.
Proof.
  intros Hi Hs. unfold pipe_read, readable, mbind, M_bind, gets, mret, M_ret.
  rewrite Hs, bool_decide_true, andb_true_r by naive_solver.
  destruct (in_active (self e)); simpl; [|done]. rewrite Hi. unfold qread, on_queue. rewrite Hq.
  destruct (yread q) as [[[[d more|]|]|] q']; try done.
  - destruct more; simpl; by destruct (_ && _).
  - unfold process_delimiter, mbind, M_bind, gets, lift. cbn [self]. by rewrite Hs.
Qed.

(** [check_read] returns whether there is a frame; the queue it leaves holds the same. *)
Lemma pipe_check_read_run : inpipe (self e) = Some l → state (self e) = active → ypipe_wf q → Delimiter ∉ flushed q →
  if negb (in_active (self e)) then pipe_check_read e = (Ok false, e)
  else ∃ q', pipe_check_read e = (Ok (bool_decide (flushed q ≠ [])), mkPenv (<[l := q']> (queues e))
      (set_in_active (bool_decide (flushed q ≠ [])) (self e)) (sent e) (events e)) ∧
    ypipe_wf q' ∧ slots q' = slots q ∧ flushed q' = flushed q ∧ complete q' = complete q ∧
    (flushed q = [] → asleep q' = true).
Proof.
  intros Hi Hst Hwf Hnd. unfold pipe_check_read, readable, mbind, M_bind, gets, mret, M_ret.
  rewrite Hst, bool_decide_true, andb_true_r by naive_solver.
  destruct (in_active (self e)) eqn:Hia; cbn [negb]; [|done].
  unfold qcheck_read, on_queue. rewrite Hi, Hq. pose proof (ycheck_read_spec q Hwf) as Hy.
  destruct (ycheck_read q) as [ok q1]. destruct Hy as (Hw1 & Hs1 & Hfr1 & Hyw1 & Hyf1 & -> & Ha1 & _).
  destruct (flushed_same q q1 Hs1 Hfr1 Hyw1 Hyf1) as [Hf1 Hc1].
  destruct (bool_decide_reflect (flushed q ≠ [])) as [Hne|Hne]; cbn [negb].
  - unfold qprobe, on_queue, yprobe. cbn [queues self]. rewrite lookup_insert_eq.
    pose proof (ycheck_read_spec q1 Hw1) as Hy. destruct (ycheck_read q1) as [ok2 q2].
    destruct Hy as (Hw2 & Hs2 & Hfr2 & Hyw2 & Hyf2 & -> & Ha2 & _).
    destruct (flushed_same q1 q2 Hs2 Hfr2 Hyw2 Hyf2) as [Hf2 Hc2].
    rewrite bool_decide_true by congruence. cbn [zmq_assert mbind res_bind].
    destruct (flushed_head q2) as (x & r & Hx & Hhd); [congruence|]. rewrite Hx.
    assert (x ≠ Delimiter).
    { intros ->. apply Hnd. rewrite <-Hf1, <-Hf2. destruct (flushed q2); [done|]. injection Hhd as ->. by left. }
    cbn [queues self sent events]. rewrite decide_False, insert_insert_eq by done. exists q2.
    assert (set_in_active true (self e) = self e) as -> by (rewrite <-Hia; by destruct (self e)).
    by split_and!; try congruence.
  - exists q1. assert (flushed q = []) by (by destruct (flushed q); [|exfalso; apply Hne]).
    split_and!; try congruence; [done|intros; by apply Ha1].
Qed.

End run.

(** ** Each operation keeps the invariant of its direction *)

(** What a reader tells after a frame. *)
Lemma told_more n r k mw c c' : 0 < k < 2 ^ 32 → c' = c ∨ c' = c + 1 → r = u64 c' →
  told n mw ≤ c < told n mw + k → (∀ j, told n mw < j ≤ c → u64 j mod k ≠ 0) →
  let mw' := if (0 <? k) && (r mod k =? 0) then mw ++ [activate_write r] else mw in
  told n mw' ≤ c' ∧ ∀ j, told n mw' < j ≤ c' → u64 j mod k ≠ 0.
Proof.
  intros Hk Hc Hr Ht Hj. rewrite (proj2 (Z.ltb_lt _ _)) by lia. cbn [andb].
  destruct (Z.eqb_spec (r mod k) 0) as [H0|H0]; cbn zeta.
  - assert (told n (mw ++ [activate_write r]) = c') as ->; [|split; [done|intros; lia]].
    rewrite told_app. cbn. rewrite Hr. set (t := told n mw) in *.
    replace (u64 (u64 c' - t)) with (u64 (c' - t)) by (unfold u64; by rewrite Zminus_mod_idemp_l).
    rewrite u64_id by lia. lia.
  - split; [lia|]. intros j Hjb. destruct (decide (j = c')) as [->|Hne]; [congruence|]. apply Hj. lia.
Qed.

Section dir.
Context (pw pr : pipe_t) (q : ypipe_t item) (mw mr : list command) (hw hr : list item).
Context (Hinv : dir_inv pw pr q mw mr hw hr).

Lemma is_full_spec n : peers_msgs_read pw = u64 n →
  (0 < hwm pw → 0 ≤ n ∧ told n mw ≤ messages hr ∧ (∀ j, told n mw < j ≤ messages hr → u64 j mod lwm pr ≠ 0) ∧
                messages hw - n ≤ hwm pw) →
  is_full pw = true ↔ 0 < hwm pw ∧ messages hw - n = hwm pw.
Proof.
  intros Hn Hh. unfold is_full. rewrite Hn, (dir_written _ _ _ _ _ _ _ Hinv), u64_sub.
  destruct (Z.ltb_spec 0 (hwm pw)) as [Hp|Hp]; cbn [andb]; [|split; [done|lia]]. destruct (Hh Hp) as (Hn0 & Ht & Hj & Hr).
  pose proof (dir_numbers _ _ _ _ _ _ _ n Hinv Hp Ht Hj). pose proof (dir_lwm _ _ _ _ _ _ _ Hinv) as [_ Hb].
  rewrite !u64_id by lia. rewrite Z.eqb_eq. split; [done|by intros []].
Qed.

Lemma dir_write d (more : bool) : out_active pw = true → is_full pw = false →
  dir_inv (if more then pw
           else set_counters (msgs_read pw) (u64 (msgs_written pw + 1)) (peers_msgs_read pw) pw)
    pr (ywrite (Frame d more) more q) mw mr (hw ++ [Frame d more]) hr.
Proof.
  intros Ho Hf. pose proof is_full_spec as Hfs. rewrite Hf in Hfs.
  pose proof Hinv as []. destruct (ywrite_spec (Frame d more) more q dir_wf0) as (Hw & Hfl & Ha & Hs & Hc).
  constructor; rewrite ?Hs, ?Ha.
  - done.
  - by destruct more.
  - by rewrite app_assoc, dir_hist0.
  - intros x [Hx| ->%list_elem_of_singleton]%elem_of_app; [by apply dir_frames0|done].
  - rewrite Hc. destruct more.
    + destruct dir_complete0 as (l & Hl & Hfin & Hlast). exists (l ++ [Frame d true]).
      rewrite Hl at 1. rewrite app_assoc. split; [done|]. split; [|done].
      intros x [Hx| ->%list_elem_of_singleton]%elem_of_app; [by apply Hfin|done].
    + exists []. rewrite app_nil_r. split; [done|]. split; [by intros x []%elem_of_nil|]. right.
      exists (Frame d false). by rewrite last_snoc.
  - by rewrite Hfl.
  - rewrite messages_app, messages_one. destruct more; cbn; rewrite dir_written0; [by rewrite Z.add_0_r|apply u64_add_l].
  - done.
  - by destruct more.
  - done.
  - destruct dir_known0 as (n & Hn & Hh & _). exists n. specialize (Hfs n Hn Hh).
    split; [by destruct more|]. split; [|destruct more; simpl; congruence].
    replace (hwm (if more then _ else _)) with (hwm pw) by (by destruct more). intros Hp.
    destruct (Hh Hp) as (Hn0 & Ht & Hj & Hr). do 3 (split; [done|]). rewrite messages_app, messages_one.
    assert (messages hw - n ≠ hwm pw) by (intros He; enough (false = true) by done; by apply Hfs). destruct more; cbn; lia.
  - done.
Qed.

Lemma dir_stop : is_full pw = true → dir_inv (set_out_active false pw) pr q mw mr hw hr.
Proof.
  intros Hf. pose proof is_full_spec as Hfs. destruct Hinv. constructor; try done.
  destruct dir_known0 as (n & Hn & Hh & _). exists n. split; [done|]. split; [done|]. intros _. by apply Hfs.
Qed.

Lemma dir_flush : dir_inv pw pr (yflush q).2 mw (if (yflush q).1 then mr else mr ++ [activate_read]) hw hr.
Proof.
  pose proof Hinv as []. pose proof (yflush_spec q dir_wf0) as Hs. destruct (yflush q) as [b q'].
  destruct Hs as (Hw & Hsl & Hfl & Hc & Hb & Ha). constructor; simpl; rewrite ?Hsl, ?Hc; try done.
  { rewrite Hfl. by destruct dir_complete0 as (l & _ & _ & Hlast). }
  intros Hi. destruct (dir_asleep0 Hi) as [Has|Hin].
  - destruct b; [|right; set_solver]. left. apply Ha. split; [done|].
    destruct (complete q); [done|]. exfalso. enough (true = false) by done. by apply Hb.
  - right. destruct b; set_solver.
Qed.

(** The reader's view of the queue changed, not its contents. *)
Lemma dir_same q' b : ypipe_wf q' → slots q' = slots q → complete q' = complete q → flushed q' = flushed q →
  (b = false → asleep q' = true) → (asleep q = true → asleep q' = true) → (b = true → in_active pr = true) →
  dir_inv pw (set_in_active b pr) q' mw mr hw hr.
Proof.
  intros Hw Hs Hc Hfl Ha Hk Hb. destruct Hinv. constructor; simpl; rewrite ?Hs, ?Hc, ?Hfl; try done.
  intros ->. left. auto.
Qed.

Lemma dir_take d (more : bool) q' : yread q = (Ok (Some (Frame d more)), q') → in_active pr = true →
  let r := if more then msgs_read pr else u64 (msgs_read pr + 1) in
  dir_inv pw (if more then pr else set_counters r (msgs_written pr) (peers_msgs_read pr) pr) q'
    (if (0 <? lwm pr) && (r mod lwm pr =? 0) then mw ++ [activate_write r] else mw) mr
    hw (hr ++ [Frame d more]).
Proof.
  intros Hy Hi r. pose proof (dir_messages _ _ _ _ _ _ _ Hinv) as Hm. pose proof Hinv as [].
  pose proof (yread_spec q dir_wf0) as Hs. rewrite Hy in Hs.
  destruct Hs as (Hw & [= Hh] & Hfl & Hc & Hsl & _). destruct (flushed q) as [|x fl] eqn:Hf; [done|].
  injection Hh as <-. assert (slots q = Frame d more :: slots q') as Hsq.
  { unfold flushed in Hf. destruct (slots q); [by rewrite take_nil in Hf|].
    destruct (yw q - front q)%nat; [done|]. injection Hf as ->. by rewrite Hsl. }
  assert (complete q = Frame d more :: complete q') as Hcq.
  { rewrite Hc. unfold complete in *. rewrite Hsq. destruct dir_wf0 as [Hb _ _ _].
    unfold flushed in Hf. destruct (yf q - front q)%nat eqn:He; [|done].
    replace (yw q - front q)%nat with 0%nat in Hf by lia. done. }
  assert (messages (hr ++ [Frame d more]) = messages hr + (if more then 0 else 1)) as Hmm
    by (rewrite messages_app, messages_one; by destruct more).
  assert (r = u64 (messages (hr ++ [Frame d more]))) as Hr.
  { subst r. rewrite Hmm, dir_read0. destruct more; [by rewrite Z.add_0_r|apply u64_add_l]. }
  constructor.
  - done.
  - by destruct more.
  - rewrite <-app_assoc. simpl. by rewrite <-Hsq.
  - intros x Hx. apply dir_frames0. rewrite Hsq. by right.
  - destruct dir_complete0 as (l & Hl & Hfin & Hlast). exists l.
    rewrite Hsq, Hcq in Hl. injection Hl as Hl. split; [done|]. split; [done|].
    destruct Hlast as [Hn|(x & Hx & Hfx)]; [congruence|]. rewrite Hcq in Hx.
    destruct (complete q') as [|y c']; [by left|]. right. exists x. by rewrite last_cons_cons in Hx.
  - rewrite Hfl. destruct dir_flushed0 as [?|(x & Hx & Hfx)]; [done|].
    destruct fl as [|y fl]; [by left|]. right. exists x. by rewrite last_cons_cons in Hx.
  - done.
  - by rewrite <-Hr; destruct more.
  - by destruct more.
  - intros n. destruct (_ && _); [|apply dir_range0]. intros [Hn|[= ->]%list_elem_of_singleton]%elem_of_app; [by apply dir_range0|].
    by rewrite Hr, u64_u64.
  - destruct dir_known0 as (n & Hn & Hh & Hfull). exists n. split; [done|]. split; [|done]. intros Hp.
    destruct (Hh Hp) as (Hn0 & Ht & Hj & Hrm). split; [done|].
    replace (lwm (if more then _ else _)) with (lwm pr) by (by destruct more).
    pose proof (dir_numbers _ _ _ _ _ _ _ n Hinv Hp Ht Hj) as (Hl & Hge & Hlt & _).
    destruct (told_more n r (lwm pr) mw (messages hr) (messages (hr ++ [Frame d more]))) as [Ht' Hj'];
      [lia|rewrite Hmm; destruct more; lia|done|done|done|]. by split_and!.
  - destruct more; simpl; by rewrite Hi.
Qed.

(** Processing a command. *)
Lemma dir_woken mr' : mr = activate_read :: mr' → dir_inv pw (set_in_active true pr) q mw mr' hw hr.
Proof. intros Hm. destruct Hinv. by constructor. Qed.

Lemma dir_room_known n mw' : mw = activate_write n :: mw' →
  dir_inv (set_out_active true (set_counters (msgs_read pw) (msgs_written pw) n pw)) pr q mw' mr hw hr.
Proof.
  intros Hm. destruct Hinv. subst mw. constructor; try done.
  - intros k Hk. apply dir_range0. by right.
  - destruct dir_known0 as (k & Hk & Hh & _). exists (k + u64 (n - k)). split; [|split; [|done]].
    + cbn. rewrite (dir_range0 n) at 1 by left. unfold u64. rewrite Z.add_mod_idemp_r by lia. f_equal. lia.
    + cbn. intros Hp. destruct (Hh Hp) as (Hn0 & Ht & Hj & Hr). pose proof (u64_range (n - k)). split_and!; [lia|done|done|lia].
Qed.

(** Commands of the other direction are processed. *)
Lemma dir_other_w mw' : mw = activate_read :: mw' → dir_inv pw pr q mw' mr hw hr.
Proof.
  intros Hm. destruct Hinv. rewrite Hm in *. constructor; try done. intros n Hn. apply dir_range0. by right.
Qed.

Lemma dir_other_r n mr' : mr = activate_write n :: mr' → dir_inv pw pr q mw mr' hw hr.
Proof.
  intros Hm. destruct Hinv. rewrite Hm in *. constructor; try done.
  intros Hi. destruct (dir_asleep0 Hi) as [|Hin]; [by left|]. right. set_solver.
Qed.

End dir.

(** ** The two ends together *)

Lemma upd_same {A} (f : bool → A) a x : upd f a x a = x.
Proof. unfold upd. by rewrite decide_True. Qed.
Lemma upd_other {A} (f : bool → A) a x : upd f a x (negb a) = f (negb a).
Proof. unfold upd. rewrite decide_False; [done|]. by destruct a. Qed.
Lemma upd_other' {A} (f : bool → A) a x : upd f (negb a) x a = f a.
Proof. unfold upd. rewrite decide_False; [done|]. by destruct a. Qed.

(** It is enough to look at the direction from an end and at the one to it. *)
Lemma pair_inv_intro a s q q' :
  (∀ b, outpipe (ends s b) = Some (qid b) ∧ inpipe (ends s b) = Some (qid (negb b))) →
  pqueues s !! qid a = Some q → pqueues s !! qid (negb a) = Some q' →
  dir_inv (ends s a) (ends s (negb a)) q (mail s a) (mail s (negb a)) (wrote s a) (got s (negb a)) →
  dir_inv (ends s (negb a)) (ends s a) q' (mail s (negb a)) (mail s a) (wrote s (negb a)) (got s a) →
  (∀ b c, c ∈ mail s b → data_command c = true) → pair_inv s.
Proof.
  intros Hp Hq Hq' Ha Hna Hm. constructor; [done| |done]. intros b.
  destruct (decide (b = a)) as [->|Hb]; [eauto|].
  assert (b = negb a) as -> by (by destruct a, b). exists q'. by rewrite negb_involutive.
Qed.

Lemma qid_ne a : qid a ≠ qid (negb a).
Proof. by destruct a. Qed.

Lemma pair_inv_elim a s : pair_inv s → ∃ q q',
  (outpipe (ends s a) = Some (qid a) ∧ inpipe (ends s a) = Some (qid (negb a))) ∧
  (outpipe (ends s (negb a)) = Some (qid (negb a)) ∧ inpipe (ends s (negb a)) = Some (qid a)) ∧
  pqueues s !! qid a = Some q ∧ pqueues s !! qid (negb a) = Some q' ∧
  dir_inv (ends s a) (ends s (negb a)) q (mail s a) (mail s (negb a)) (wrote s a) (got s (negb a)) ∧
  dir_inv (ends s (negb a)) (ends s a) q' (mail s (negb a)) (mail s a) (wrote s (negb a)) (got s a) ∧
  (∀ b c, c ∈ mail s b → data_command c = true).
Proof.
  intros [Hp Hd Hm]. destruct (Hd a) as (q & Hq & Ha). destruct (Hd (negb a)) as (q' & Hq' & Ha').
  pose proof (Hp (negb a)) as Hp'. rewrite negb_involutive in *. exists q, q'. auto 10.
Qed.

Lemma pair_inv_build a s qs p m w g q q' : pair_inv s →
  outpipe p = outpipe (ends s a) → inpipe p = inpipe (ends s a) →
  qs !! qid a = Some q → qs !! qid (negb a) = Some q' →
  dir_inv p (ends s (negb a)) q (mail s a) m (w a) (g (negb a)) →
  dir_inv (ends s (negb a)) p q' m (mail s a) (w (negb a)) (g a) →
  (∀ c, c ∈ m → data_command c = true) →
  pair_inv (mkPair qs (upd (ends s) a p) (upd (mail s) (negb a) m) w g).
Proof.
  intros (_ & _ & Hp & Hp' & _ & _ & _ & _ & Hm)%(pair_inv_elim a) Ho Hi Hq Hq' Hd Hd' Hm'.
  apply (pair_inv_intro a _ q q'); simpl; rewrite ?upd_same, ?upd_other, ?upd_other'; try done.
  - intros b. destruct (decide (b = a)) as [->|Hb]; [by rewrite upd_same, Ho, Hi|].
    assert (b = negb a) as -> by (by destruct a, b). rewrite upd_other, negb_involutive. done.
  - intros b c. destruct (decide (b = a)) as [->|Hb]; [rewrite upd_other'; apply Hm|].
    assert (b = negb a) as -> by (by destruct a, b). rewrite upd_same. apply Hm'.
Qed.

(** The operations return, and keep the invariant. *)
Lemma write_inv a d more s : pair_inv s → ∃ b s', call a (pipe_write d more) s = (Ok b, s') ∧
  pair_inv (if b : bool then note_wrote a (Frame d more) s' else s').
Proof.
  intros Hs. destruct (pair_inv_elim a s Hs) as (q & q' & [Ho Hi] & [Ho' Hi'] & Hq & Hq' & Hd & Hd' & Hm).
  unfold call. set (e := mkPenv _ _ _ _). assert (state (ends s a) = active) as Hst by apply Hd.
  rewrite (pipe_write_run e (qid a) q Hq d more Ho Hst). subst e. cbn [self queues sent events].
  destruct (out_active (ends s a)) eqn:Hoa; cbn [negb].
  - destruct (is_full (ends s a)) eqn:Hf; eexists _, _; (split; [done|]); cbn [self queues sent].
    + rewrite app_nil_r. eapply pair_inv_build; [done..| | |by intros c ?%Hm].
      * by apply dir_stop.
      * by eapply dir_inv_reader.
    + unfold note_wrote. cbn [pqueues ends mail wrote got]. rewrite app_nil_r.
      eapply pair_inv_build; [done|by destruct more|by destruct more|by rewrite lookup_insert_eq| | | |by intros c ?%Hm].
      * rewrite lookup_insert_ne; [done|apply qid_ne].
      * rewrite upd_same. by apply dir_write; auto.
      * rewrite upd_other. by eapply dir_inv_reader; [done|destruct more..].
  - eexists _, _. split; [done|]. cbn [self queues sent]. rewrite app_nil_r.
    by eapply pair_inv_build; [done..|intros c ?%Hm].
Qed.

Lemma flush_inv a s : pair_inv s → ∃ s', call a pipe_flush s = (Ok (), s') ∧ pair_inv s'.
Proof.
  intros Hs. destruct (pair_inv_elim a s Hs) as (q & q' & [Ho Hi] & [Ho' Hi'] & Hq & Hq' & Hd & Hd' & Hm).
  unfold call. set (e := mkPenv _ _ _ _). assert (state (ends s a) = active) as Hst by apply Hd.
  rewrite (pipe_flush_run e (qid a) q Hq Ho Hst). subst e. cbn [self queues sent events].
  eexists. split; [done|]. eapply pair_inv_build; [done..|by rewrite lookup_insert_eq| | | |].
  - rewrite lookup_insert_ne; [done|apply qid_ne].
  - pose proof (dir_flush _ _ _ _ _ _ _ Hd) as Hf. revert Hf.
    destruct (yflush q).1; [by rewrite app_nil_r|done].
  - destruct (yflush q).1; [by rewrite app_nil_r|by apply dir_inv_mail_w].
  - intros c. destruct (yflush q).1; [rewrite app_nil_r; apply Hm|].
    intros [Hc| ->%list_elem_of_singleton]%elem_of_app; [by eapply Hm|done].
Qed.

(** What a reader does not find. *)
Lemma no_delimiter pw pr q mw mr hw hr : dir_inv pw pr q mw mr hw hr → Delimiter ∉ flushed q.
Proof.
  intros [] Hin. apply (dir_frames0 Delimiter); [|done]. unfold flushed in Hin.
  rewrite <-(take_drop (yw q - front q) (slots q)). apply elem_of_app. by left.
Qed.

Lemma read_inv a s : pair_inv s → ∃ r s',
  call a pipe_read s = (Ok r, s') ∧
  pair_inv (match r with Some (d, more) => note_got a (Frame d more) s' | None => s' end).
Proof.
  intros Hs. destruct (pair_inv_elim a s Hs) as (q & q' & [Ho Hi] & [Ho' Hi'] & Hq & Hq' & Hd & Hd' & Hm).
  unfold call. set (e := mkPenv _ _ _ _). assert (state (ends s a) = active) as Hst by apply Hd.
  rewrite (pipe_read_run e (qid (negb a)) q' Hq' Hi Hst). subst e. cbn [self queues sent events].
  destruct (in_active (ends s a)) eqn:Hia; cbn [negb]; last first.
  { eexists _, _. split; [done|]. cbn [self queues sent]. rewrite app_nil_r.
    by eapply pair_inv_build; [done..|intros c ?%Hm]. }
  pose proof (dir_wf _ _ _ _ _ _ _ Hd') as Hwf. pose proof (yread_spec q' Hwf) as Hy.
  pose proof (no_delimiter _ _ _ _ _ _ _ Hd') as Hnd.
  destruct (yread q') as [r q1] eqn:Hr. destruct Hy as (Hw1 & -> & Hf1 & Hc1 & Hs1 & Ha1).
  destruct (flushed q') as [|[d more|] fl] eqn:Hfl; cbn [head] in *.
  - eexists _, _. split; [done|]. cbn [self queues sent]. rewrite app_nil_r.
    eapply pair_inv_build; [done..| |by rewrite lookup_insert_eq| | |by intros c ?%Hm].
    + rewrite lookup_insert_ne; [done|symmetry; apply qid_ne].
    + by eapply dir_inv_writer.
    + cbn in Hf1. apply dir_same with (q := q'); auto; congruence.
  - eexists _, _. split; [done|]. cbn [self queues sent]. unfold note_got. cbn [pqueues ends mail wrote got].
    eapply pair_inv_build; [done|by destruct more|by destruct more| |by rewrite lookup_insert_eq| | |].
    + rewrite lookup_insert_ne; [done|symmetry; apply qid_ne].
    + rewrite upd_other. eapply dir_inv_writer; [|by destruct more..].
      case_match; [by apply dir_inv_mail_r|by rewrite app_nil_r].
    + rewrite upd_same. pose proof (dir_take _ _ _ _ _ _ _ Hd' d more q1 Hr Hia) as Ht. revert Ht.
      cbv zeta. destruct (_ && _); [done|by rewrite app_nil_r].
    + intros c. case_match; [|rewrite app_nil_r; apply Hm].
      intros [Hc| ->%list_elem_of_singleton]%elem_of_app; [by eapply Hm|done].
  - by destruct Hnd; left.
Qed.

Lemma check_read_inv a s : pair_inv s → ∃ b s', call a pipe_check_read s = (Ok b, s') ∧ pair_inv s'.
Proof.
  intros Hs. destruct (pair_inv_elim a s Hs) as (q & q' & [Ho Hi] & [Ho' Hi'] & Hq & Hq' & Hd & Hd' & Hm).
  pose proof (no_delimiter _ _ _ _ _ _ _ Hd') as Hnd.
  pose proof (dir_wf _ _ _ _ _ _ _ Hd') as Hwf. assert (state (ends s a) = active) as Hst by apply Hd.
  unfold call. pose proof (pipe_check_read_run (mkPenv (pqueues s) (ends s a) [] []) (qid (negb a)) q' Hq' Hi Hst Hwf Hnd) as Hrun.
  cbn [self queues sent events] in Hrun. destruct (in_active (ends s a)) eqn:Hia; cbn [negb] in Hrun; last first.
  { rewrite Hrun. eexists _, _. split; [done|]. cbn [self queues sent]. rewrite app_nil_r.
    by eapply pair_inv_build; [done..|intros c ?%Hm]. }
  destruct Hrun as (q1 & -> & Hw1 & Hs1 & Hf1 & Hc1 & Ha1). eexists _, _. split; [done|]. cbn [self queues sent].
  rewrite app_nil_r. eapply pair_inv_build; [done..| |by rewrite lookup_insert_eq|by eapply dir_inv_writer| |by intros c ?%Hm].
  - rewrite lookup_insert_ne; [done|symmetry; apply qid_ne].
  - apply dir_same with (q := q'); try done.
    + rewrite bool_decide_eq_false. intros Hn. apply Ha1. by destruct (flushed q'); [|destruct Hn].
    + intros Has. apply Ha1. destruct Hwf as [? ? Hc ?]. unfold asleep in Has. apply bool_decide_eq_true in Has.
      unfold flushed. destruct Hc as [?|[_ ->]]; [congruence|]. by rewrite Nat.sub_diag.
Qed.

(** The state after end [a] processed a command. *)
Lemma pair_inv_command a c l s p q q' : pair_inv s → mail s a = c :: l →
  outpipe p = outpipe (ends s a) → inpipe p = inpipe (ends s a) →
  pqueues s !! qid a = Some q → pqueues s !! qid (negb a) = Some q' →
  dir_inv p (ends s (negb a)) q l (mail s (negb a)) (wrote s a) (got s (negb a)) →
  dir_inv (ends s (negb a)) p q' (mail s (negb a)) l (wrote s (negb a)) (got s a) →
  pair_inv (mkPair (pqueues s) (upd (ends s) a p)
    (upd (upd (mail s) a l) (negb a) (upd (mail s) a l (negb a) ++ [])) (wrote s) (got s)).
Proof.
  intros (_ & _ & Hp & Hp' & _ & _ & _ & _ & Hm)%(pair_inv_elim a) Hml Ho Hi Hq Hq' Hd Hd'.
  apply (pair_inv_intro a _ q q'); simpl; rewrite ?upd_same, ?upd_other, ?upd_other', ?upd_same, ?app_nil_r; try done.
  - intros b. destruct (decide (b = a)) as [->|Hb]; [by rewrite upd_same, Ho, Hi|].
    assert (b = negb a) as -> by (by destruct a, b). rewrite upd_other, negb_involutive. done.
  - intros b c'. destruct (decide (b = a)) as [->|Hb].
    + rewrite upd_other', upd_same. intros Hc. apply (Hm a). rewrite Hml. by right.
    + assert (b = negb a) as -> by (by destruct a, b). rewrite upd_same. apply Hm.
Qed.

Lemma command_inv a c l s : pair_inv s → mail s a = c :: l → ∃ s',
  call a (process_command c) (set_mail a l s) = (Ok (), s') ∧ pair_inv s'.
Proof.
  intros Hs Hml. destruct (pair_inv_elim a s Hs) as (q & q' & [Ho Hi] & [Ho' Hi'] & Hq & Hq' & Hd & Hd' & Hm).
  assert (state (ends s a) = active) as Hst by apply Hd.
  assert (data_command c = true) as Hc by (apply (Hm a); rewrite Hml; by left).
  unfold call. destruct c as [|n| | |]; try done; cbn [process_command].
  - unfold process_activate_read, mbind, M_bind, gets, mret, M_ret. cbn [self set_mail ends pqueues].
    rewrite Hst, bool_decide_true, andb_true_r by naive_solver. rewrite Hml in Hd, Hd'.
    pose proof (dir_other_w _ _ _ _ _ _ _ Hd l eq_refl) as Hd1.
    pose proof (dir_woken _ _ _ _ _ _ _ Hd' l eq_refl) as Hd1'.
    assert (in_active (ends s a) = true → set_in_active true (ends s a) = ends s a) as Hsame
      by (intros <-; by destruct (ends s a)).
    destruct (in_active (ends s a)); cbn [negb]; eexists; (split; [done|]);
      cbn [pqueues ends mail wrote got set_mail queues self sent].
    + rewrite Hsame in Hd1' by done. by eapply pair_inv_command.
    + eapply pair_inv_command; [done..| |done]. by eapply dir_inv_writer.
  - unfold process_activate_write, on_self, modify, mbind, M_bind, gets, mret, M_ret.
    cbn [self set_mail ends pqueues out_active state set_counters].
    rewrite Hst, bool_decide_true, andb_true_r by done. rewrite Hml in Hd, Hd'.
    pose proof (dir_room_known _ _ _ _ _ _ _ Hd n l eq_refl) as Hd1.
    pose proof (dir_other_r _ _ _ _ _ _ _ Hd' n l eq_refl) as Hd1'.
    assert (out_active (ends s a) = true → ∀ r w, set_out_active true (set_counters r w n (ends s a)) =
      set_counters r w n (ends s a)) as Hsame by (intros <-; by destruct (ends s a)).
    destruct (out_active (ends s a)); cbn [negb]; eexists; (split; [done|]);
      cbn [pqueues ends mail wrote got set_mail queues self sent].
    + rewrite Hsame in Hd1 by done. eapply pair_inv_command; [done..|]. by eapply dir_inv_reader.
    + eapply pair_inv_command; [done..|]. by eapply dir_inv_reader.
Qed.

Lemma pipepair_inv hwms : (∀ a, 0 ≤ hwms a < 2 ^ 31) → pair_inv (pipepair hwms).
Proof.
  intros Hh. assert (∀ pw pr, state pw = active → state pr = active → 0 ≤ hwm pw < 2 ^ 31 →
    lwm pr = compute_lwm (hwm pw) → msgs_written pw = 0 → msgs_read pr = 0 → peers_msgs_read pw = 0 →
    out_active pw = true → in_active pr = true → dir_inv pw pr ypipe_new [] [] [] []) as Hd.
  { intros pw pr Hs Hs' Hb Hl Hw Hr Hp Ho Hi. constructor; try done.
    - apply ypipe_new_wf.
    - by intros x []%elem_of_nil.
    - exists []. split; [done|]. split; [by intros x []%elem_of_nil|by left].
    - by left.
    - by intros n []%elem_of_nil.
    - exists 0. split; [done|]. split; [|congruence]. intros Hp0. unfold messages. simpl. split_and!; try done; lia.
    - congruence. }
  apply (pair_inv_intro false _ ypipe_new ypipe_new); [by intros []|done|done| | |by intros b c []%elem_of_nil]; by apply Hd; simpl; auto.
Qed.

Lemma pipe_step_inv s s' : pipe_step s s' → pair_inv s → pair_inv s'.
Proof.
  intros Hstep Hs. destruct Hstep as [a d more s b s' Hr|a s s' Hr|a s r s' Hr|a s r s' Hr|a c l s s' Hml Hr].
  - destruct (write_inv a d more s Hs) as (b1 & s1 & Hr1 & Hi). rewrite Hr in Hr1. by injection Hr1 as <- <-.
  - destruct (flush_inv a s Hs) as (s1 & Hr1 & Hi). rewrite Hr in Hr1. by injection Hr1 as <-.
  - destruct (read_inv a s Hs) as (r1 & s1 & Hr1 & Hi). rewrite Hr in Hr1. by injection Hr1 as <- <-.
  - destruct (check_read_inv a s Hs) as (r1 & s1 & Hr1 & Hi). rewrite Hr in Hr1. by injection Hr1 as <- <-.
  - destruct (command_inv a c l s Hs Hml) as (s1 & Hr1 & Hi). rewrite Hr in Hr1. by injection Hr1 as <-.
Qed.

Lemma pipe_reachable_inv hwms s : (∀ a, 0 ≤ hwms a < 2 ^ 31) → rtc pipe_step (pipepair hwms) s → pair_inv s.
Proof.
  intros Hh Hr. assert (pair_inv (pipepair hwms)) as H0 by (by apply pipepair_inv).
  revert H0. induction Hr as [|s s1 s2 H1 H2 IH]; intros H0; [done|]. by eapply IH, pipe_step_inv.
Qed.

(** ** The water marks do not change *)

Definition keeps_marks {A} (m : M penv A) : Prop := ∀ h, preserves (λ e, hwm (self e) = h) m.

Lemma marks_on_queue {A} ptr (f : ypipe_t item → res A * ypipe_t item) : keeps_marks (on_queue ptr f).
Proof.
  intros h e He. unfold wp, on_queue, null_pointer. destruct ptr as [l|]; [|done].
  destruct (queues e !! l) as [q|]; [|done]. by destruct (f q) as [[] q'].
Qed.

Lemma marks_on_self f : (∀ p, hwm (f p) = hwm p) → keeps_marks (on_self f).
Proof. intros Hf h. apply preserves_modify. intros e He. simpl. by rewrite Hf. Qed.

Lemma marks_send c : keeps_marks (send c).
Proof. intros h. by apply preserves_modify. Qed.

Lemma marks_raise c : keeps_marks (raise c).
Proof. intros h. by apply preserves_modify. Qed.

Ltac marks :=
  intros h; preserves_auto;
  try first [apply marks_on_queue | apply marks_send | apply marks_raise | by apply marks_on_self; intros []].

Lemma marks_process_delimiter : keeps_marks process_delimiter.
Proof. unfold process_delimiter. marks. Qed.

Lemma marks_pipe_write d more : keeps_marks (pipe_write d more).
Proof. unfold pipe_write, pipe_check_write, qwrite. marks. Qed.
Lemma marks_pipe_flush : keeps_marks pipe_flush.
Proof. unfold pipe_flush, qflush. marks. Qed.
Lemma marks_pipe_read : keeps_marks pipe_read.
Proof. unfold pipe_read, qread. marks. all: apply marks_process_delimiter. Qed.
Lemma marks_pipe_check_read : keeps_marks pipe_check_read.
Proof. unfold pipe_check_read, qread, qcheck_read, qprobe. marks. all: apply marks_process_delimiter. Qed.
Lemma marks_data_command c : data_command c = true → keeps_marks (process_command c).
Proof. destruct c; [intros _..| | |]; try done; cbn; unfold process_activate_read, process_activate_write; marks. Qed.

Lemma call_marks {A} a (m : M penv A) s r s' b : keeps_marks m → call a m s = (r, s') →
  hwm (ends s' b) = hwm (ends s b).
Proof.
  unfold call. intros Hm. specialize (Hm (hwm (ends s a)) (mkPenv (pqueues s) (ends s a) [] []) eq_refl).
  unfold wp in Hm. destruct (m _) as [r1 e]. intros [= <- <-]. simpl. unfold upd. case_decide; [|done].
  subst. by destruct r1.
Qed.

Lemma pipe_step_marks s s' b : pipe_step s s' → pair_inv s → hwm (ends s' b) = hwm (ends s b).
Proof.
  intros Hstep Hs. destruct Hstep as [a d more s r s' Hr|a s s' Hr|a s r s' Hr|a s r s' Hr|a c l s s' Hml Hr].
  - destruct r; simpl; apply (call_marks _ _ _ _ _ _ (marks_pipe_write _ _) Hr).
  - apply (call_marks _ _ _ _ _ _ marks_pipe_flush Hr).
  - destruct r as [[]|]; simpl; apply (call_marks _ _ _ _ _ _ marks_pipe_read Hr).
  - apply (call_marks _ _ _ _ _ _ marks_pipe_check_read Hr).
  - rewrite (call_marks _ _ _ _ _ b (marks_data_command c ltac:(eapply pair_mail; [done|]; rewrite Hml; by left)) Hr).
    done.
Qed.

Lemma pipe_reachable_marks hwms s b : (∀ a, 0 ≤ hwms a < 2 ^ 31) → rtc pipe_step (pipepair hwms) s →
  hwm (ends s b) = hwms b.
Proof.
  intros Hh Hr. assert (pair_inv (pipepair hwms)) as H0 by (by apply pipepair_inv).
  assert (hwm (ends (pipepair hwms) b) = hwms b) as Hb by (by destruct b).
  revert H0 Hb. induction Hr as [|s s1 s2 H1 H2 IH]; intros H0 Hh0; [done|].
  apply IH; [by eapply pipe_step_inv|by rewrite (pipe_step_marks _ _ b H1)].
Qed.

(** ** What follows *)

(** C13: whatever the two ends of a pipe do, in whatever order: an end reads the
    frames that the other has written, in that order and without gaps, and the
    messages that were written and not read are never more than the high water
    mark, if one is set. *)
Theorem pipe_fifo (hwms : bool → Z) (s : pair) (a : bool) :
  (∀ b, 0 ≤ hwms b < 2 ^ 31) → rtc pipe_step (pipepair hwms) s →
  got s (negb a) `prefix_of` wrote s a ∧
  (0 < hwms a → messages (wrote s a) - messages (got s (negb a)) ≤ hwms a).
Proof.
  intros Hh Hr. pose proof (pipe_reachable_marks hwms s a Hh Hr) as Hm.
  destruct (pair_dir s (pipe_reachable_inv hwms s Hh Hr) a) as (q & Hq & Hd).
  rewrite <-Hm. split; [exists (slots q); symmetry; apply Hd|]. intros Hp.
  destruct (dir_known _ _ _ _ _ _ _ Hd) as (n & _ & Hk & _). destruct (Hk Hp) as (Hn & Ht & Hj & Hrm).
  pose proof (dir_numbers _ _ _ _ _ _ _ n Hd Hp Ht Hj). lia.
Qed.

Lemma pipe_read_frame s a : pair_inv s → in_active (ends s a) = true →
  (∀ q, pqueues s !! qid (negb a) = Some q → flushed q ≠ []) →
  ∃ d more s', call a pipe_read s = (Ok (Some (d, more)), s').
Proof.
  intros Hs Hia Hfl.
  destruct (pair_inv_elim a s Hs) as (q & q' & [Ho Hi] & _ & Hq & Hq' & Hd & Hd' & _).
  specialize (Hfl q' Hq'). unfold call. set (e := mkPenv _ _ _ _).
  assert (state (ends s a) = active) as Hst by apply Hd.
  rewrite (pipe_read_run e (qid (negb a)) q' Hq' Hi Hst). subst e. cbn [self]. rewrite Hia. cbn [negb].
  pose proof (yread_spec q' (dir_wf _ _ _ _ _ _ _ Hd')) as Hy. destruct (yread q') as [r q1].
  destruct Hy as (_ & -> & _). pose proof (no_delimiter _ _ _ _ _ _ _ Hd') as Hnd.
  destruct (flushed q') as [|[d more|] fl]; [done| |by destruct Hnd; left]. simpl. by eexists _, _, _.
Qed.

(** C14: the ends do not wait for each other for ever.  When no command is under
    way, an end that has gone to sleep has nothing to read; and when the other end
    has stopped writing because of the high water mark and has flushed, there is a
    frame to read, so that room will be made. *)
Theorem pipe_keeps_going (hwms : bool → Z) (s : pair) (a : bool) :
  (∀ b, 0 ≤ hwms b < 2 ^ 31) → rtc pipe_step (pipepair hwms) s →
  (∀ b, mail s b = []) →
  ∃ q, pqueues s !! qid a = Some q ∧
  (in_active (ends s (negb a)) = false → flushed q = []) ∧
  (out_active (ends s a) = false → flushed q = complete q →
   ∃ d more s', call (negb a) pipe_read s = (Ok (Some (d, more)), s')).
Proof.
  intros Hh Hr Hml. pose proof (pipe_reachable_inv hwms s Hh Hr) as Hs.
  destruct (pair_dir s Hs a) as (q & Hq & Hd). exists q. split; [done|].
  assert (in_active (ends s (negb a)) = false → flushed q = []) as Hsleep.
  { intros Hi. destruct (dir_asleep _ _ _ _ _ _ _ Hd Hi) as [Has|Hin].
    - destruct (dir_wf _ _ _ _ _ _ _ Hd) as [_ _ Hc _]. unfold asleep in Has.
      apply bool_decide_eq_true in Has. unfold flushed. destruct Hc as [?|[_ ->]]; [congruence|].
      by rewrite Nat.sub_diag.
    - rewrite Hml in Hin. by apply elem_of_nil in Hin. }
  split; [done|]. intros Ho Hfc.
  assert (flushed q ≠ []) as Hne.
  { pose proof (dir_messages _ _ _ _ _ _ _ Hd) as Hmm. pose proof Hd as [].
    destruct dir_known0 as (n & _ & Hk & Hf). destruct (Hf Ho) as [Hp Hfull]. destruct (Hk Hp) as (_ & Ht & Hj & _).
    pose proof (dir_numbers _ _ _ _ _ _ _ n Hd Hp Ht Hj). rewrite Hml in *. cbn in *.
    destruct dir_complete0 as (l & Hsl & Hfin & _). rewrite Hfc. intros Hn. rewrite Hn in Hsl. simpl in Hsl.
    assert (messages (slots q) = 0); [|lia]. rewrite Hsl. by apply messages_none. }
  apply pipe_read_frame; [done| |].
  - destruct (in_active (ends s (negb a))); [done|]. by destruct (Hne (Hsleep eq_refl)).
  - intros q0. rewrite negb_involutive, Hq. by intros [= <-].
Qed.

(** A pipe with room for one message, full: the next write stops. *)
Definition full_pair : pair :=
  let s := pipepair (λ _, 1) in
  let s := note_wrote false (Frame "a" false) (call false (pipe_write "a" false) s).2 in
  let s := (call false pipe_flush s).2 in
  (call false (pipe_write "b" false) s).2.

Lemma full_pair_reachable : rtc pipe_step (pipepair (λ _, 1)) full_pair.
Proof.
  eapply rtc_l; [apply (step_write false "a" false _ true); reflexivity|].
  eapply rtc_l; [apply (step_flush false); reflexivity|].
  eapply rtc_l; [apply (step_write false "b" false _ false); reflexivity|]. done.
Qed.

Lemma pipe_fifo_witness :
  got full_pair true `prefix_of` wrote full_pair false ∧
  (0 < 1 → messages (wrote full_pair false) - messages (got full_pair true) ≤ 1).
Proof.
  apply (pipe_fifo (λ _, 1) full_pair false); [lia|apply full_pair_reachable].
Defined.

Lemma pipe_keeps_going_witness :
  out_active (ends full_pair false) = false ∧
  ∃ q, pqueues full_pair !! qid false = Some q ∧
  (in_active (ends full_pair true) = false → flushed q = []) ∧
  (out_active (ends full_pair false) = false → flushed q = complete q →
   ∃ d more s', call true pipe_read full_pair = (Ok (Some (d, more)), s')).
Proof.
  split; [done|].
  apply (pipe_keeps_going (λ _, 1) full_pair false); [lia|apply full_pair_reachable|by intros []].
Defined.
