(* ===== verification/ZmqPipeTerm.v ===== *)
(** * How a pipe ends

    Either end of a pipe, or both, can ask to end it, at any time and in the middle
    of anything (pipe.cpp).  The ends agree by the commands [pipe_term] and
    [pipe_term_ack] and by a delimiter in the queues, and each deletes one of the
    queues.  Whatever the order, no assertion fails, nobody uses a deleted queue, no
    command is sent to an end that is gone, and once one end has asked both are
    gone after a bounded number of steps. *)

From S2P Require Import Prelude Monad ZmqNode ZmqYpipe ZmqPipe ZmqPipeSpec.

(** ** Steps *)

(** What the owner of an end can do with it. *)
Inductive pipe_op :=
  | DoWrite (d : string) (more : bool) | DoFlush | DoRollback | DoCheckWrite | DoRead | DoCheckRead
  | DoTerminate (delay_ : bool) | DoNodelay.

Definition do_op (o : pipe_op) : M penv unit :=
  match o with
  | DoWrite d more => _ ← pipe_write d more; mret ()
  | DoFlush => pipe_flush
  | DoRollback => rollback
  | DoCheckWrite => _ ← pipe_check_write; mret ()
  | DoRead => _ ← pipe_read; mret ()
  | DoCheckRead => _ ← pipe_check_read; mret ()
  | DoTerminate delay_ => terminate delay_
  | DoNodelay => set_nodelay
  end.

(** The pair, and which ends are deleted. *)
Record tstate := mkT { tpair : pair; gone : bool → bool }.

Definition tnew (hwms : bool → Z) : tstate := mkT (pipepair hwms) (λ _, false).

(** An end is deleted by the last command it processes. *)
Inductive command_step (a : bool) : tstate → tstate → Prop :=
  | step_process c l s p : mail (tpair s) a = c :: l → gone s a = false →
      call a (process_command c) (set_mail a l (tpair s)) = (Ok (), p) →
      command_step a s (mkT p (if decide (c = pipe_term_ack) then upd (gone s) a true else gone s)).

Inductive op_step (a : bool) (o : pipe_op) : tstate → tstate → Prop :=
  | step_do s p : gone s a = false → call a (do_op o) (tpair s) = (Ok (), p) → op_step a o s (mkT p (gone s)).

Inductive term_step : tstate → tstate → Prop :=
  | term_command a s s' : command_step a s s' → term_step s s'
  | term_op a o s s' : op_step a o s s' → term_step s s'.

(** Steps that go on without the owners, and the reads of an owner that is told to. *)
Inductive wind_step : tstate → tstate → Prop :=
  | wind_command a s s' : command_step a s s' → wind_step s s'
  | wind_read a s s' : state (ends (tpair s) a) = waiting_for_delimiter → in_active (ends (tpair s) a) = true →
      op_step a DoRead s s' → wind_step s s'.

(** ** The protocol *)

Definition ctl (m : list command) : list command := filter (λ c, data_command c = false) m.

(** An end that has sent its [pipe_term_ack]. *)
Definition acked (st : pipe_state) : bool := bool_decide (st = term_ack_sent ∨ st = term_req_sent2).

Definition reads (st : pipe_state) : Prop := st = active ∨ st = waiting_for_delimiter.

(** The states of two ends, [None] when deleted, and the control commands for each. *)
Inductive phase : option pipe_state → option pipe_state → list command → list command → Prop :=
  | phase_up : phase (Some active) (Some active) [] []
  | phase_asked st : st = active ∨ st = delimiter_received → phase (Some term_req_sent1) (Some st) [] [pipe_term]
  | phase_waiting : phase (Some term_req_sent1) (Some waiting_for_delimiter) [] []
  | phase_answered : phase (Some term_req_sent1) (Some term_ack_sent) [pipe_term_ack] []
  | phase_left : phase None (Some term_ack_sent) [] [pipe_term_ack]
  | phase_both : phase (Some term_req_sent1) (Some term_req_sent1) [pipe_term] [pipe_term]
  | phase_first : phase (Some term_req_sent1) (Some term_req_sent2) [pipe_term; pipe_term_ack] []
  | phase_second : phase (Some term_req_sent2) (Some term_req_sent2) [pipe_term_ack] [pipe_term_ack]
  | phase_half : phase None (Some term_req_sent2) [] [pipe_term_ack]
  | phase_gone : phase None None [] [].

Definition proto x y cx cy : Prop := phase x y cx cy ∨ phase y x cy cx.

Lemma proto_sym x y cx cy : proto x y cx cy → proto y x cy cx.
Proof. unfold proto. tauto. Qed.

(** What an operation of the owner does to it. *)
Inductive local : pipe_state → pipe_state → list command → Prop :=
  | local_quiet st : local st st []
  | local_delim : local active delimiter_received []
  | local_ack : local waiting_for_delimiter term_ack_sent [pipe_term_ack]
  | local_term st : st = active ∨ st = delimiter_received → local st term_req_sent1 [pipe_term].

Create HintDb proto.
#[local] Hint Constructors phase : proto.
#[local] Hint Extern 1 (_ ∨ _) => (left; reflexivity) || (right; reflexivity) : proto.

Ltac proto_cases :=
  repeat match goal with
    | H : proto _ _ _ _ |- _ => destruct H
    | H : phase _ _ _ _ |- _ => inversion H; clear H; subst; try done
    | H : local _ _ _ |- _ => inversion H; clear H; subst; try done
    | H : ?st = _ ∨ ?st = _ |- _ => destruct H; subst; try done
    end.

Lemma proto_local st st' y cx cy ds : proto (Some st) y cx cy → local st st' ds →
  (st' = delimiter_received → st = delimiter_received ∨ y ≠ Some active) →
  proto (Some st') y cx (cy ++ ds).
Proof.
  intros Hp Hl Hd. inversion Hl; subst; [by rewrite app_nil_r|..].
  - destruct (Hd eq_refl) as [?|Hy]; [done|]. proto_cases; right; auto with proto.
  - proto_cases; right; auto with proto.
  - proto_cases; first [left; by auto with proto | right; by auto with proto].
Qed.

Ltac proto_done := first [left; solve [auto with proto] | right; solve [auto with proto]].

(** Processing a control command. *)
Lemma proto_term st y cx cy : proto (Some st) y (pipe_term :: cx) cy →
  (st = active ∧ proto (Some waiting_for_delimiter) y cx cy ∧ proto (Some term_ack_sent) y cx (cy ++ [pipe_term_ack])) ∨
  (st = delimiter_received ∧ proto (Some term_ack_sent) y cx (cy ++ [pipe_term_ack])) ∨
  (st = term_req_sent1 ∧ proto (Some term_req_sent2) y cx (cy ++ [pipe_term_ack])).
Proof.
  intros Hp. proto_cases; first
    [left; split_and!; [done|proto_done..] | right; left; split; [done|proto_done] | right; right; split; [done|proto_done]].
Qed.

Lemma proto_ack st y cx cy : proto (Some st) y (pipe_term_ack :: cx) cy → cx = [] ∧
  ((st = term_req_sent1 ∧ proto None y [] (cy ++ [pipe_term_ack])) ∨ (acked st = true ∧ proto None y [] cy)).
Proof.
  intros Hp. proto_cases; (split; [done|]); first [left; split; [done|proto_done] | right; split; [done|proto_done]].
Qed.

Lemma proto_commands x y cx cy c : proto x y cx cy → c ∈ cx → c = pipe_term ∨ c = pipe_term_ack.
Proof. intros Hp Hc. proto_cases; set_solver. Qed.

(** What the state of an end says about the other. *)
Lemma proto_gone y cx cy : proto None y cx cy → cx = [] ∧ ∀ st, y = Some st → acked st = true.
Proof. intros Hp. proto_cases; (split; [done|]); intros ? [= <-]; done. Qed.

Lemma proto_ack_from x y cx cy : proto x y cx cy → pipe_term_ack ∈ cx → ∀ st, y = Some st → acked st = true.
Proof. intros Hp Hc st ->. proto_cases; set_solver. Qed.

(** An end that can still read, when the other has asked. *)
Lemma proto_reads st st' cx cy : proto (Some st) (Some st') cx cy → reads st → st' ≠ active → st' ≠ delimiter_received →
  st' = term_req_sent1.
Proof. intros Hp Hr H1 H2. unfold reads in Hr. proto_cases. Qed.

Lemma proto_delim st y cx cy : proto (Some st) y cx cy → st = waiting_for_delimiter ∨ st = delimiter_received → 
  y = Some term_req_sent1.
Proof. intros Hp Hs. proto_cases. Qed.

(** Without commands under way. *)
Lemma proto_quiet x y : proto x y [] [] →
  (x = Some active ∧ y = Some active) ∨ (x = None ∧ y = None) ∨
  (x = Some waiting_for_delimiter) ∨ (y = Some waiting_for_delimiter).
Proof. intros Hp. proto_cases; auto. Qed.

(** ** The queues *)

(** What is not complete are frames with more to come. *)
Definition qgood (q : ypipe_t item) : Prop :=
  ypipe_wf q ∧ ∃ l, slots q = complete q ++ l ∧ ∀ x, x ∈ l → final x = false.

Lemma qgood_new : qgood ypipe_new.
Proof. split; [apply ypipe_new_wf|]. exists []. by split; [|intros x ?%elem_of_nil]. Qed.

Lemma flushed_slots (q : ypipe_t item) x : x ∈ flushed q → x ∈ slots q.
Proof. apply subseteq_take. Qed.

Lemma asleep_flushed (q : ypipe_t item) : ypipe_wf q → asleep q = true → flushed q = [].
Proof.
  intros Hq Ha. apply (flushed_nil _ Hq). destruct Hq as [_ _ [Hc|[_ Hc]] _]; [|done].
  apply bool_decide_eq_true in Ha. congruence.
Qed.

Lemma complete_nil (q : ypipe_t item) : ypipe_wf q → complete q = [] → flushed q = [].
Proof.
  intros [Hw Hf _ _] Hc. unfold complete, flushed, back in *. destruct (slots q); [by rewrite take_nil|].
  simpl in *. destruct (yf q - front q)%nat eqn:He; [|done]. by replace (yw q - front q)%nat with 0%nat by lia.
Qed.

(** The queue an end reads from, before and after; [st] is the state it is in then. *)
Definition taken_from (st : pipe_state) (was now : bool) (q q' : ypipe_t item) : Prop :=
  qgood q' ∧ (∀ x, x ∈ slots q' → x ∈ slots q) ∧
  (reads st → Delimiter ∈ flushed q → Delimiter ∈ flushed q') ∧
  (now = false → asleep q' = true ∨ (was = false ∧ q' = q)).

(** The queue it writes to, when it has sent [ds]. *)
Definition added_to (st : pipe_state) (ds : list command) (q q' : ypipe_t item) : Prop :=
  qgood q' ∧ (Delimiter ∈ slots q' → Delimiter ∈ slots q ∨ (st ≠ active ∧ st ≠ delimiter_received)) ∧
  (Delimiter ∈ flushed q → Delimiter ∈ flushed q') ∧
  (asleep q = true → asleep q' = true ∨ activate_read ∈ ds).

Lemma taken_same st was now q : qgood q → (now = false → was = false) → taken_from st was now q q.
Proof. intros Hq Hn. unfold taken_from. naive_solver. Qed.

Lemma added_same st ds q : qgood q → added_to st ds q q.
Proof. unfold added_to. naive_solver. Qed.

(** Looking whether there is something, and taking it. *)
Lemma qgood_check q : qgood q →
  let '(ok, q') := ycheck_read q in
  ok = bool_decide (flushed q ≠ []) ∧ qgood q' ∧ slots q' = slots q ∧ flushed q' = flushed q ∧
  (flushed q = [] → asleep q' = true).
Proof.
  intros [Hw (l & Hl & Hf)]. pose proof (ycheck_read_spec q Hw) as Hy. destruct (ycheck_read q) as [ok q'].
  destruct Hy as (Hw' & Hs & Hfr & Hyw & Hyf & -> & Ha & _).
  destruct (flushed_same q q' Hs Hfr Hyw Hyf) as [Hf' Hc']. split; [done|].
  split; [split; [done|]; exists l; by rewrite Hs, Hc'|]. split; [done|]. split; [done|]. apply Ha.
Qed.

Lemma qgood_probe q x : qgood q → head (flushed q) = Some x → ∃ q',
  yprobe q = (Ok x, q') ∧ qgood q' ∧ slots q' = slots q ∧ flushed q' = flushed q.
Proof.
  intros Hq Hx. unfold yprobe. pose proof (qgood_check q Hq) as Hy. destruct (ycheck_read q) as [ok q'].
  destruct Hy as (-> & Hg & Hs & Hf & _). exists q'. split; [|done].
  destruct (flushed_head q') as (y & l & Hy & Hh); [rewrite Hf; by destruct (flushed q)|].
  rewrite Hf, Hx in Hh. injection Hh as <-. rewrite bool_decide_true by (by destruct (flushed q)). simpl. by rewrite Hy.
Qed.

Lemma qgood_read q : qgood q →
  let '(r, q') := yread q in
  r = Ok (head (flushed q)) ∧ qgood q' ∧ flushed q' = tail (flushed q) ∧
  match flushed q with [] => slots q' = slots q ∧ asleep q' = true | x :: _ => slots q = x :: slots q' end.
Proof.
  intros [Hw (l & Hl & Hf)]. pose proof (yread_spec q Hw) as Hy. destruct (yread q) as [r q'].
  destruct Hy as (Hw' & -> & Hfl & Hc & Hs & Ha). split; [done|]. destruct (flushed q) as [|x fl] eqn:Hq.
  - split; [split; [done|]; exists l; by rewrite Hs, Hc|]. auto.
  - assert (slots q = x :: slots q') as Hx.
    { destruct (flushed_head q) as (y & t & Ht & Hy); [by rewrite Hq|]. rewrite Hq in Hy. injection Hy as ->.
      by rewrite Hs, Ht. }
    split; [|done]. split; [done|]. exists l. split; [|done]. rewrite Hc.
    destruct (complete q) as [|y c] eqn:Hcq; [by rewrite (complete_nil q Hw Hcq) in Hq|].
    rewrite Hl in Hx. simpl in Hx. by injection Hx as -> Hx.
Qed.

Lemma taken_read st q : qgood q → (head (flushed q) = Some Delimiter → ¬ reads st) →
  taken_from st true (bool_decide (flushed q ≠ [])) q (yread q).2.
Proof.
  intros Hq Hd. pose proof (qgood_read q Hq) as Hy. destruct (yread q) as [r q'].
  destruct Hy as (_ & Hg & Hf & Hs). unfold taken_from. simpl. rewrite Hf.
  destruct (flushed q) as [|x fl] eqn:Hfl; simpl.
  - destruct Hs as [-> Ha]. naive_solver.
  - split; [done|]. split; [intros y Hy; rewrite Hs; by right|]. split; [|done].
    intros Hr [Hx|?]%elem_of_cons; [|done]. destruct (Hd ltac:(simpl; congruence) Hr).
Qed.

(** Writing, flushing and dropping what is incomplete. *)
Lemma qgood_write d more q : qgood q → qgood (ywrite (Frame d more) more q).
Proof.
  intros [Hw (l & Hl & Hf)]. destruct (ywrite_spec (Frame d more) more q Hw) as (Hw' & _ & _ & Hs & Hc).
  split; [done|]. destruct more.
  - exists (l ++ [Frame d true]). rewrite Hs, Hc, app_assoc. split; [by rewrite Hl at 1|].
    intros x [Hx| ->%list_elem_of_singleton]%elem_of_app; [by apply Hf|done].
  - exists []. rewrite Hs, Hc, app_nil_r. by split; [|intros x ?%elem_of_nil].
Qed.

Lemma added_write st ds d more q : qgood q → added_to st ds q (ywrite (Frame d more) more q).
Proof.
  intros Hq. split; [by apply qgood_write|]. destruct Hq as [Hw _].
  destruct (ywrite_spec (Frame d more) more q Hw) as (_ & Hfl & Ha & Hs & _). rewrite Hfl, Ha, Hs.
  split; [set_solver|]. auto.
Qed.

Lemma qgood_flush q : qgood q → qgood (yflush q).2 ∧ slots (yflush q).2 = slots q ∧ flushed (yflush q).2 = complete q ∧
  (asleep q = true → asleep (yflush q).2 = true ∨ (yflush q).1 = false).
Proof.
  intros [Hw (l & Hl & Hf)]. pose proof (yflush_spec q Hw) as Hy. destruct (yflush q) as [b q']. simpl.
  destruct Hy as (Hw' & Hs & Hfl & Hc & Hb & Ha). split; [split; [done|]; exists l; by rewrite Hs, Hc|].
  do 2 (split; [done|]). intros Has. destruct (complete q); [left; by apply Ha|right; by apply Hb].
Qed.

Lemma flushed_complete (q : ypipe_t item) x : ypipe_wf q → x ∈ flushed q → x ∈ complete q.
Proof.
  intros [Hw _ _ _]. unfold flushed, complete. replace (yf q - front q)%nat with ((yw q - front q) + (yf q - yw q))%nat by lia.
  rewrite <-(take_take_drop (slots q)). set_solver.
Qed.

Lemma added_flush st q : qgood q →
  added_to st (if (yflush q).1 then [] else [activate_read]) q (yflush q).2.
Proof.
  intros Hq. pose proof (qgood_flush q Hq) as (Hg & Hs & Hfl & Ha). split; [done|]. rewrite Hs, Hfl.
  split; [auto|]. split; [by apply flushed_complete, Hq|]. intros Has. destruct (Ha Has) as [?| ->]; [auto|right; set_solver].
Qed.

Lemma added_trans st ds1 ds2 q1 q2 q3 : added_to st ds1 q1 q2 → added_to st ds2 q2 q3 → added_to st (ds1 ++ ds2) q1 q3.
Proof. unfold added_to. set_solver. Qed.

(** ** What the owner's calls do *)

Section owner.
Context (li lo : nat) (Hne : li ≠ lo).
Implicit Types (e : penv) (p : pipe_t) (q : ypipe_t item).

(** An end that is not deleted; the queue to the other end is dropped with the acknowledgement. *)
Record can_run e : Prop := mkCanRun {
  run_in : inpipe (self e) = Some li;
  run_out : outpipe (self e) = if acked (state (self e)) then None else Some lo;
  run_qi : ∃ q, queues e !! li = Some q ∧ qgood q;
  run_qo : acked (state (self e)) = false → ∃ q, queues e !! lo = Some q ∧ qgood q;
  run_sent : sent e = []
}.

Record op_post (R : pipe_state → pipe_state → list command → Prop) e e' : Prop := mkOpPost {
  post_local : R (state (self e)) (state (self e')) (ctl (sent e'));
  post_in : inpipe (self e') = Some li;
  post_out : outpipe (self e') = if acked (state (self e')) then None else Some lo;
  post_last : pipe_term_ack ∈ sent e' → sent e' = [pipe_term_ack];
  post_silent : acked (state (self e)) = true → sent e' = [];
  post_qi q : queues e !! li = Some q → qgood q → ∃ q', queues e' !! li = Some q' ∧
    taken_from (state (self e')) (in_active (self e)) (in_active (self e')) q q' ∧
    (state (self e') = delimiter_received → state (self e) = delimiter_received ∨ Delimiter ∈ slots q);
  post_qo q : queues e !! lo = Some q → qgood q → ∃ q', queues e' !! lo = Some q' ∧
    added_to (state (self e')) (sent e') q q' ∧
    (state (self e') = term_req_sent1 → state (self e) = term_req_sent1 ∨ Delimiter ∈ flushed q');
  post_dom l : queues e !! l = None → queues e' !! l = None
}.

(** The queues are the same. *)
Lemma post_still R e p ds ev : can_run e → R (state (self e)) (state p) (ctl ds) →
  inpipe p = Some li → outpipe p = (if acked (state p) then None else Some lo) →
  (pipe_term_ack ∈ ds → ds = [pipe_term_ack]) → (acked (state (self e)) = true → ds = []) →
  (in_active p = false → in_active (self e) = false) →
  (state p = delimiter_received → state (self e) = delimiter_received) →
  (state p = term_req_sent1 → state (self e) = term_req_sent1) →
  op_post R e (mkPenv (queues e) p ds ev).
Proof.
  intros He HR Hi Ho Hl Hs Ha Hd Hr. constructor; simpl; try done.
  - intros q Hq Hg. exists q. split; [done|]. split; [by apply taken_same|auto].
  - intros q Hq Hg. exists q. split; [done|]. split; [by apply added_same|auto].
Qed.

(** Nothing but flags and counters changed. *)
Lemma post_flags e p ev : can_run e →
  state p = state (self e) → inpipe p = inpipe (self e) → outpipe p = outpipe (self e) →
  (in_active p = false → in_active (self e) = false) →
  op_post local e (mkPenv (queues e) p [] ev).
Proof.
  intros He Hs Hpi Hpo Hpa. pose proof He as [Hi Ho _ _ _].
  apply post_still; rewrite ?Hs, ?Hpi, ?Hpo; try done; [constructor|set_solver].
Qed.

Lemma post_refl e : can_run e → op_post local e e.
Proof. intros He. pose proof (run_sent _ He) as Hs. destruct e as [? p ? ev]. simpl in Hs. subst. by apply post_flags. Qed.

(** It read. *)
Lemma post_reader e q q' p ds ev : can_run e → queues e !! li = Some q → acked (state (self e)) = false →
  taken_from (state p) (in_active (self e)) (in_active p) q q' →
  inpipe p = Some li → outpipe p = (if acked (state p) then None else Some lo) →
  local (state (self e)) (state p) (ctl ds) → (pipe_term_ack ∈ ds → ds = [pipe_term_ack]) →
  (state p = delimiter_received → state (self e) = delimiter_received ∨ Delimiter ∈ slots q) →
  (state p = term_req_sent1 → state (self e) = term_req_sent1) →
  op_post local e (mkPenv (<[li := q']> (queues e)) p ds ev).
Proof.
  intros He Hq Hna Ht Hi Ho Hl Hd Hdel Hr. constructor; simpl; try done; [congruence|..].
  - intros q1 Hq1 _. rewrite Hq in Hq1. injection Hq1 as <-. exists q'. by rewrite lookup_insert_eq.
  - intros q1 Hq1 Hg. exists q1. rewrite lookup_insert_ne by done. split; [done|]. split; [by apply added_same|auto].
  - intros l Hl'. rewrite lookup_insert_None. split; congruence.
Qed.

(** It wrote. *)
Lemma post_writer e q q' p ds ev : can_run e → queues e !! lo = Some q → acked (state (self e)) = false →
  added_to (state p) ds q q' →
  in_active p = in_active (self e) → inpipe p = Some li → outpipe p = (if acked (state p) then None else Some lo) →
  local (state (self e)) (state p) (ctl ds) → pipe_term_ack ∉ ds →
  (state p = delimiter_received → state (self e) = delimiter_received) →
  (state p = term_req_sent1 → state (self e) = term_req_sent1 ∨ Delimiter ∈ flushed q') →
  op_post local e (mkPenv (<[lo := q']> (queues e)) p ds ev).
Proof.
  intros He Hq Hna Ha Hia Hi Ho Hl Hd Hdel Hr. constructor; simpl; try done; [congruence|..].
  - intros q1 Hq1 Hg. exists q1. rewrite lookup_insert_ne by done. split; [done|].
    split; [apply taken_same; [done|by rewrite Hia]|auto].
  - intros q1 Hq1 _. rewrite Hq in Hq1. injection Hq1 as <-. exists q'. by rewrite lookup_insert_eq.
  - intros l Hl'. rewrite lookup_insert_None. split; congruence.
Qed.

Lemma reads_not_acked st : reads st → acked st = false.
Proof. by intros [-> | ->]. Qed.

Lemma readable_reads p : readable p = true → in_active p = true ∧ reads (state p).
Proof. unfold readable. rewrite andb_true_iff, bool_decide_eq_true. done. Qed.

(** The delimiter is read. *)
Lemma post_delimiter e q q' : can_run e → queues e !! li = Some q → readable (self e) = true →
  taken_from term_req_sent2 (in_active (self e)) (in_active (self e)) q q' → Delimiter ∈ slots q →
  ∃ e', process_delimiter (mkPenv (<[li := q']> (queues e)) (self e) (sent e) (events e)) = (Ok (), e') ∧ op_post local e e'.
Proof.
  intros He Hq [Hia Hr]%readable_reads (Hg & Hs & _ & Hal) Hd. pose proof He as [Hi Ho _ _ Hse].
  unfold process_delimiter, mbind, M_bind, gets, lift. simpl. rewrite bool_decide_true by done. simpl.
  case_decide as Hst; eexists; (split; [reflexivity|]); simpl; rewrite Hse; apply (post_reader e q); simpl;
    rewrite ?Hst; try done; try (by apply reads_not_acked).
  - rewrite Hia in *. split; [done|]. split; [done|]. split; [by intros [?|?]|done].
  - by rewrite Ho, (reads_not_acked _ Hr).
  - constructor.
  - set_solver.
  - auto.
  - rewrite Hia in *. split; [done|]. split; [done|]. split; [by intros [?|?]|done].
  - destruct Hr as [?| ->]; [done|constructor].
Qed.

Lemma head_flushed q x : head (flushed q) = Some x → x ∈ slots q.
Proof. intros Hx. apply flushed_slots. destruct (flushed q); [done|]. injection Hx as ->. by left. Qed.

Lemma flushed_not_nil q : bool_decide (flushed q ≠ []) = if head (flushed q) is Some _ then true else false.
Proof. by destruct (flushed q). Qed.

(** What follows on reading a frame. *)
Definition count_read (more : bool) p : pipe_t :=
  if more then p else set_counters (u64 (msgs_read p + 1)) (msgs_written p) (peers_msgs_read p) p.
Definition tell_read p : list command :=
  if (0 <? lwm p) && (msgs_read p mod lwm p =? 0) then [activate_write (msgs_read p)] else [].

Lemma read_frame_run (d : string) (more : bool) e :
  (_ ← (if more then mret ()
        else on_self (λ p, set_counters (u64 (msgs_read p + 1)) (msgs_written p) (peers_msgs_read p) p));
   p ← gets self;
   _ ← (if (0 <? lwm p) && (msgs_read p mod lwm p =? 0) then send (activate_write (msgs_read p)) else mret ());
   mret (Some (d, more))) e =
  (Ok (Some (d, more)), mkPenv (queues e) (count_read more (self e))
     (sent e ++ tell_read (count_read more (self e))) (events e)).
Proof.
  unfold tell_read, count_read. destruct e as [qs p ds ev]. destruct more; unfold mbind, M_bind, gets; simpl;
    destruct (_ && _); simpl; by rewrite ?app_nil_r.
Qed.

Lemma ctl_tell p : ctl (tell_read p) = [] ∧ pipe_term_ack ∉ tell_read p.
Proof. unfold tell_read. destruct (_ && _); split; try done; set_solver. Qed.

Lemma pipe_read_ok e : can_run e → ∃ r e', pipe_read e = (Ok r, e') ∧ op_post local e e'.
Proof.
  intros He. pose proof He as [Hi Ho (q & Hq & Hg) _ Hse]. unfold pipe_read. rewrite run_gets.
  destruct (readable (self e)) eqn:Hr; [|exists None, e; split; [done|by apply post_refl]].
  pose proof (readable_reads _ Hr) as [Hia Hre]. pose proof (reads_not_acked _ Hre) as Hna.
  assert (Hqr : qread (Some li) e = ((yread q).1, mkPenv (<[li := (yread q).2]> (queues e)) (self e) (sent e) (events e))).
  { unfold qread, on_queue. rewrite Hq. by destruct (yread q). }
  pose proof (qgood_read q Hg) as Hy. pose proof (λ st, taken_read st q Hg) as Ht. rewrite flushed_not_nil in Ht.
  destruct (yread q) as [r q']. destruct Hy as (-> & _ & _ & _). cbn [fst snd] in Hqr, Ht.
  cbn [negb]. rewrite Hi, (bind_Ok _ _ _ _ _ Hqr). pose proof (head_flushed q) as Hin.
  destruct (head (flushed q)) as [[d more|]|].
  - eexists _, _. split; [apply read_frame_run|]. cbn [queues self sent events]. rewrite Hse.
    destruct (ctl_tell (count_read more (self e))) as [Hc Hnt]. simpl. set (ds := tell_read _) in *.
    apply (post_reader e q); try (by destruct more); try done.
    + destruct more; simpl; rewrite Hia; by apply Ht.
    + rewrite Hc. destruct more; constructor.
    + destruct more; auto.
  - destruct (post_delimiter e q q' He Hq Hr) as (e' & Hp & Hpost); [|by apply Hin|].
    + rewrite Hia. apply Ht. by intros _ [?|?].
    + exists None, e'. by rewrite (bind_Ok _ _ _ _ _ Hp).
  - eexists _, _. split; [reflexivity|]. simpl. rewrite Hse. apply (post_reader e q); simpl; try done.
    + rewrite Hia. by apply Ht.
    + constructor.
    + set_solver.
    + auto.
Qed.

(** [check_read] is a read when it meets the delimiter, and else changes only what it knows of
    the queue. *)
Lemma pipe_check_read_ok e : can_run e → ∃ b e', pipe_check_read e = (Ok b, e') ∧ op_post local e e'.
Proof.
  intros He. pose proof He as [Hi Ho (q & Hq & Hg) _ Hse]. unfold pipe_check_read. rewrite run_gets.
  destruct (readable (self e)) eqn:Hr; [|exists false, e; split; [done|by apply post_refl]].
  pose proof (readable_reads _ Hr) as [Hia Hre]. pose proof (reads_not_acked _ Hre) as Hna.
  cbn [negb]. rewrite Hi. unfold qcheck_read, qprobe, qread, on_queue. unfold mbind at 1, M_bind at 1. rewrite Hq.
  pose proof (qgood_check q Hg) as Hy. destruct (ycheck_read q) as [ok q1].
  destruct Hy as (-> & Hg1 & Hs1 & Hf1 & Ha1). rewrite flushed_not_nil. pose proof (head_flushed q) as Hin.
  destruct (head (flushed q)) as [x|] eqn:Hx; cbn [negb].
  - destruct (qgood_probe q1 x Hg1) as (q2 & Hp & Hg2 & Hs2 & Hf2); [congruence|].
    unfold mbind at 1, M_bind at 1. cbn [queues]. rewrite lookup_insert_eq, Hp. cbn [queues self sent events].
    assert (taken_from (state (self e)) true true q q2) as Ht2.
    { split; [done|]. rewrite Hs2, Hs1, Hf2, Hf1. by split_and!. }
    case_decide as Hd.
    + unfold mbind at 1, M_bind at 1. cbn [queues]. rewrite insert_insert_eq, lookup_insert_eq.
      pose proof (qgood_read q2 Hg2) as Hy. pose proof (taken_read term_req_sent2 q2 Hg2) as Ht3.
      destruct (yread q2) as [r q3]. destruct Hy as (-> & _). rewrite Hf2, Hf1, Hx. cbn [queues self sent events].
      unfold mbind at 1, M_bind at 1. rewrite bool_decide_true by done. simpl. rewrite insert_insert_eq.
      destruct (post_delimiter e q q3 He Hq Hr) as (e' & Hpd & Hpost).
      * rewrite Hia. destruct Ht3 as (Hg3 & Hin3 & _ & Ha3); [by intros _ [?|?]|]. rewrite Hs2, Hs1 in Hin3.
        split; [done|]. split; [done|]. split; [by intros [?|?]|done].
      * apply Hin. congruence.
      * exists false, e'. by rewrite (bind_Ok _ _ _ _ _ Hpd).
    + rewrite insert_insert_eq. eexists true, _. split; [reflexivity|]. rewrite Hse.
      apply (post_reader e q); try done; [by rewrite Hia|constructor|set_solver|auto].
  - eexists false, _. split; [reflexivity|]. simpl. rewrite Hse.
    assert (flushed q = []) as Hn by (by destruct (flushed q)).
    apply (post_reader e q); simpl; try done; [|constructor|set_solver|auto].
    split; [done|]. rewrite Hs1, Hf1. auto.
Qed.

(** ** Writing *)

Lemma pipe_check_write_ok e : can_run e → ∃ b p, pipe_check_write e = (Ok b, mkPenv (queues e) p [] (events e)) ∧
  state p = state (self e) ∧ inpipe p = inpipe (self e) ∧ outpipe p = outpipe (self e) ∧ in_active p = in_active (self e) ∧
  (b = true → state (self e) = active).
Proof.
  intros He. pose proof (run_sent _ He) as Hse. unfold pipe_check_write. rewrite run_gets.
  destruct e as [qs p ds ev]. simpl in *. subst ds.
  destruct (_ || _) eqn:Hb; [by exists false, p|]. destruct (_ && _); [by exists false, (set_out_active false p)|].
  exists true, p. split_and!; try done. intros _. apply orb_false_iff in Hb as [_ Hb%negb_false_iff].
  by apply bool_decide_eq_true in Hb.
Qed.

Lemma pipe_write_ok d more e : can_run e → ∃ b e', pipe_write d more e = (Ok b, e') ∧ op_post local e e'.
Proof.
  intros He. unfold pipe_write. destruct (pipe_check_write_ok e He) as (b & p & Hc & Hs & Hi & Ho & Hia & Hb).
  rewrite (bind_Ok _ _ _ _ _ Hc). destruct b; cbn [negb]; [|eexists false, _; split; [done|by apply post_flags; rewrite ?Hia]].
  specialize (Hb eq_refl). pose proof He as [Hi' Ho' _ Hqo _]. rewrite Hb in Hqo, Ho'. destruct (Hqo eq_refl) as (q & Hq & Hg).
  rewrite run_gets. unfold qwrite, on_queue. unfold mbind at 1, M_bind at 1. cbn [self queues]. rewrite Ho, Ho'. simpl. rewrite Hq.
  exists true, (mkPenv (<[lo := ywrite (Frame d more) more q]> (queues e))
    (if more then p else set_counters (msgs_read p) (u64 (msgs_written p + 1)) (peers_msgs_read p) p) [] (events e)).
  split; [by destruct more|]. apply (post_writer e q); try done; try (by destruct more; simpl; congruence).
  - by rewrite Hb.
  - by apply added_write.
  - destruct more; simpl; rewrite ?Hs, Hb, ?Ho; done.
  - destruct more; simpl; rewrite Hs; constructor.
  - set_solver.
Qed.

Lemma pipe_flush_ok e : can_run e → ∃ e', pipe_flush e = (Ok (), e') ∧ op_post local e e'.
Proof.
  intros He. pose proof He as [Hi Ho _ Hqo Hse]. unfold pipe_flush. rewrite run_gets.
  case_decide as Hst; [exists e; split; [done|by apply post_refl]|]. rewrite Ho.
  destruct (acked (state (self e))) eqn:Ha; [exists e; split; [done|by apply post_refl]|].
  destruct (Hqo eq_refl) as (q & Hq & Hg). pose proof (added_flush (state (self e)) q Hg) as Hf.
  unfold qflush, on_queue, mbind, M_bind. rewrite Hq. destruct (yflush q) as [b q'].
  exists (mkPenv (<[lo := q']> (queues e)) (self e) (if b then [] else [activate_read]) (events e)).
  split; [destruct b; simpl; by rewrite Hse|]. apply (post_writer e q); try done.
  - by rewrite Ha.
  - destruct b; constructor.
  - destruct b; set_solver.
  - auto.
Qed.

(** Dropping the incomplete frames. *)
Lemma rollback_loop_ok fuel q e : queues e !! lo = Some q → qgood q → (length (slots q) < fuel)%nat → ∃ q',
  rollback_loop fuel (Some lo) e = (Ok (), mkPenv (<[lo := q']> (queues e)) (self e) (sent e) (events e)) ∧
  qgood q' ∧ slots q' = complete q ∧ flushed q' = flushed q ∧ asleep q' = asleep q.
Proof.
  revert q e. induction fuel as [|fuel IH]; intros q e Hq [Hw (l & Hl & Hf)] Hlen; [lia|]. simpl.
  unfold qunwrite, on_queue. unfold mbind, M_bind at 1. rewrite Hq. pose proof (yunwrite_spec q Hw) as Hy.
  destruct (yunwrite q) as [r q1]. destruct Hy as (Hw1 & Hf1 & Hc1 & Ha1 & [(Hs & -> & ->)|(x & -> & Hs)]).
  { exists q. split; [done|]. split; [by split; [|exists l]|]. done. }
  assert (∃ l', slots q1 = complete q1 ++ l' ∧ l = l' ++ [x]) as (l' & Hs1 & ->).
  { rewrite Hl in Hs. rewrite Hc1. destruct l as [|y l' _] using rev_ind.
    - apply (f_equal length) in Hs. rewrite app_nil_r, <-Hc1, length_app in Hs. simpl in Hs.
      unfold complete in Hs. rewrite length_take in Hs. lia.
    - rewrite app_assoc in Hs. apply app_inj_tail in Hs as [<- ->]. by exists l'. }
  assert (final x = false) as Hfx by (apply Hf; set_solver). destruct x as [d []|]; try done. simpl.
  destruct (IH q1 (mkPenv (<[lo := q1]> (queues e)) (self e) (sent e) (events e))) as (q2 & Hr & Hg2 & Hs2 & Hf2 & Ha2).
  - apply lookup_insert_eq.
  - split; [done|]. exists l'. split; [done|]. intros x Hx. apply Hf. set_solver.
  - rewrite Hs, length_app in Hlen. simpl in Hlen. lia.
  - exists q2. split; [etrans; [exact Hr|simpl; by rewrite insert_insert_eq]|]. split; [done|]. split_and!; congruence.
Qed.

Lemma rollback_run e q : outpipe (self e) = Some lo → queues e !! lo = Some q → qgood q → ∃ q',
  rollback e = (Ok (), mkPenv (<[lo := q']> (queues e)) (self e) (sent e) (events e)) ∧
  qgood q' ∧ slots q' = complete q ∧ flushed q' = flushed q ∧ asleep q' = asleep q.
Proof.
  intros Ho Hq Hg. unfold rollback. rewrite run_gets, Ho, run_gets. apply rollback_loop_ok; [done..|].
  unfold queue_length. simpl. rewrite Hq. simpl. lia.
Qed.

Lemma added_rollback st ds q q' : qgood q' → slots q' = complete q → flushed q' = flushed q → asleep q' = asleep q →
  added_to st ds q q'.
Proof.
  intros Hg Hs Hf Ha. split; [done|]. rewrite Hs, Hf, Ha. split; [|auto].
  intros Hd. left. by apply (subseteq_take _ _ _ Hd).
Qed.

Lemma rollback_ok e : can_run e → ∃ e', rollback e = (Ok (), e') ∧ op_post local e e'.
Proof.
  intros He. pose proof He as [Hi Ho _ Hqo Hse]. destruct (acked (state (self e))) eqn:Ha.
  { exists e. split; [|by apply post_refl]. unfold rollback. by rewrite run_gets, Ho. }
  destruct (Hqo eq_refl) as (q & Hq & Hg). destruct (rollback_run e q Ho Hq Hg) as (q' & Hr & Hg' & Hs & Hf & Hal).
  eexists. split; [exact Hr|]. rewrite Hse. apply (post_writer e q); try done.
  - by apply added_rollback.
  - by rewrite Ha.
  - constructor.
  - set_solver.
  - auto.
Qed.

(** ** Ending *)

(** The delimiter goes after the complete messages, and the reader is told. *)
Lemma delimiter_run e q : outpipe (self e) = Some lo → state (self e) ≠ term_ack_sent →
  queues e !! lo = Some q → qgood q → ∃ q' b,
  (_ ← rollback; _ ← qwrite (outpipe (self e)) Delimiter false; pipe_flush) e =
    (Ok (), mkPenv (<[lo := q']> (queues e)) (self e) (sent e ++ if b : bool then [] else [activate_read]) (events e)) ∧
  qgood q' ∧ Delimiter ∈ flushed q' ∧
  ∀ st, st ≠ active → st ≠ delimiter_received → added_to st (if b then [] else [activate_read]) q q'.
Proof.
  intros Ho Hst Hq Hg. destruct (rollback_run e q Ho Hq Hg) as (q1 & Hr & Hg1 & Hs1 & Hf1 & Ha1).
  rewrite (bind_Ok _ _ _ _ _ Hr). rewrite Ho. unfold qwrite, on_queue. unfold mbind at 1, M_bind at 1. cbn [queues].
  rewrite lookup_insert_eq. cbn [self sent events]. rewrite insert_insert_eq.
  set (q2 := ywrite Delimiter false q1).
  destruct (ywrite_spec Delimiter false q1 (proj1 Hg1)) as (Hw2 & Hf2 & Ha2 & Hs2 & Hc2). fold q2 in Hw2, Hf2, Ha2, Hs2, Hc2.
  assert (qgood q2) as Hg2.
  { split; [done|]. exists []. rewrite app_nil_r, Hs2, Hc2. by split; [|intros x ?%elem_of_nil]. }
  pose proof (qgood_flush q2 Hg2) as (Hg3 & Hs3 & Hf3 & _). pose proof (λ st, added_flush st q2 Hg2) as Hadd.
  unfold pipe_flush. rewrite run_gets. cbn [self]. rewrite decide_False, Ho by done.
  unfold qflush, on_queue, mbind, M_bind. cbn [queues]. rewrite lookup_insert_eq.
  destruct (yflush q2) as [b q3]. simpl in *. exists q3, b.
  split; [destruct b; simpl; by rewrite insert_insert_eq, ?app_nil_r|]. split; [done|].
  assert (Delimiter ∈ flushed q3) as Hd by (rewrite Hf3, Hc2; set_solver). split; [done|].
  intros st H1 H2. destruct (Hadd st) as (_ & _ & _ & Hal). split; [done|]. split; [auto|]. split; [done|].
  intros Has. apply Hal. by rewrite Ha2, Ha1.
Qed.

(** It acknowledged. *)
Lemma post_acked e p ev : can_run e → state (self e) = waiting_for_delimiter → state p = term_ack_sent →
  inpipe p = inpipe (self e) → outpipe p = None → in_active p = in_active (self e) →
  op_post local e (mkPenv (queues e) p [pipe_term_ack] ev).
Proof.
  intros He Hw Hs Hpi Hpo Hpa. pose proof (run_in _ He) as Hi.
  apply post_still; rewrite ?Hs, ?Hpi, ?Hpo, ?Hpa, ?Hw; try done. constructor.
Qed.

(** It wrote the delimiter, having sent [ds]. *)
Lemma post_delimited e p ds : can_run e → acked (state (self e)) = false →
  inpipe p = Some li → outpipe p = Some lo → in_active p = in_active (self e) → acked (state p) = false →
  state p ≠ active → state p ≠ delimiter_received → local (state (self e)) (state p) (ctl ds) → pipe_term_ack ∉ ds →
  ∃ e', (_ ← rollback; _ ← qwrite (Some lo) Delimiter false; pipe_flush) (mkPenv (queues e) p ds (events e)) = (Ok (), e') ∧
    op_post local e e'.
Proof.
  intros He Hna Hi Ho Hia Hap H1 H2 Hl Hds. destruct (run_qo _ He Hna) as (q & Hq & Hg).
  destruct (delimiter_run (mkPenv (queues e) p ds (events e)) q) as (q' & b & Hr & Hg' & Hd & Hadd); try done.
  { simpl. by intros Hs; rewrite Hs in Hap. }
  simpl in Hr. rewrite Ho in Hr. eexists. split; [exact Hr|]. apply (post_writer e q); try done.
  - destruct (Hadd (state p) H1 H2) as (? & ? & ? & Hal). split_and!; try done.
    intros Has. destruct (Hal Has); [by left|right; set_solver].
  - by rewrite Hap.
  - unfold ctl in *. rewrite filter_app. destruct b; simpl; by rewrite app_nil_r.
  - destruct b; set_solver.
  - auto.
Qed.

Lemma terminate_ok d e : can_run e → ∃ e', terminate d e = (Ok (), e') ∧ op_post local e e'.
Proof.
  intros He. pose proof He as [Hi Ho _ _ Hse]. unfold terminate, on_self, send.
  destruct e as [qs p ds ev]. simpl in *. subst ds. rewrite run_modify, run_gets. cbn [self set_delay state].
  destruct (state p) eqn:Hst; try (eexists; split; [reflexivity|]; by apply post_flags).
  all: assert (outpipe p = Some lo) as Ho' by (by rewrite Ho); clear Ho; rename Ho' into Ho.
  - erewrite bind_Ok by reflexivity. rewrite run_modify, run_gets. cbn [self outpipe set_delay set_out_active set_state]. rewrite Ho.
    apply (post_delimited (mkPenv qs p [] ev)
             (set_out_active false (set_state term_req_sent1 (set_delay d p))) [pipe_term]); simpl; rewrite ?Hst; try done.
    + by constructor; left.
    + set_solver.
  - erewrite bind_Ok by reflexivity. rewrite run_modify, run_gets. cbn [self outpipe set_delay set_out_active set_state]. rewrite Ho.
    apply (post_delimited (mkPenv qs p [] ev)
             (set_out_active false (set_state term_req_sent1 (set_delay d p))) [pipe_term]); simpl; rewrite ?Hst; try done.
    + by constructor; right.
    + set_solver.
  - destruct d; cbn [negb].
    + rewrite run_ret, run_modify, run_gets. cbn [self outpipe set_delay set_out_active]. rewrite Ho.
      apply (post_delimited (mkPenv qs p [] ev) (set_out_active false (set_delay true p)) []); simpl; rewrite ?Hst; try done.
      * constructor.
      * set_solver.
    + erewrite bind_Ok by reflexivity. rewrite run_modify, run_gets. eexists. split; [reflexivity|]. simpl.
      by apply (post_acked (mkPenv qs p [] ev)).
Qed.

Lemma do_op_ok o e : can_run e → ∃ e', do_op o e = (Ok (), e') ∧ op_post local e e'.
Proof.
  intros He. destruct o as [d more| | | | | |d|]; simpl.
  - destruct (pipe_write_ok d more e He) as (b & e' & Hr & Hp). exists e'. by rewrite (bind_Ok _ _ _ _ _ Hr).
  - by apply pipe_flush_ok.
  - by apply rollback_ok.
  - destruct (pipe_check_write_ok e He) as (b & p & Hr & ? & ? & ? & Hia & _). eexists.
    rewrite (bind_Ok _ _ _ _ _ Hr). split; [done|]. by apply post_flags; rewrite ?Hia.
  - destruct (pipe_read_ok e He) as (r & e' & Hr & Hp). exists e'. by rewrite (bind_Ok _ _ _ _ _ Hr).
  - destruct (pipe_check_read_ok e He) as (b & e' & Hr & Hp). exists e'. by rewrite (bind_Ok _ _ _ _ _ Hr).
  - by apply terminate_ok.
  - pose proof (run_sent _ He) as Hse. destruct e as [qs p ds ev]. simpl in Hse. subst ds.
    eexists. split; [reflexivity|]. by apply post_flags.
Qed.
End owner.

(** ** The commands *)

(** How an end answers [pipe_term]. *)
Inductive answers : pipe_state → pipe_state → list command → Prop :=
  | answer_wait : answers active waiting_for_delimiter []
  | answer_ack st : st = active ∨ st = delimiter_received → answers st term_ack_sent [pipe_term_ack]
  | answer_both : answers term_req_sent1 term_req_sent2 [pipe_term_ack].

Lemma process_data_run c e : data_command c = true → ∃ p ev,
  process_command c e = (Ok (), mkPenv (queues e) p (sent e) ev) ∧
  state p = state (self e) ∧ inpipe p = inpipe (self e) ∧ outpipe p = outpipe (self e) ∧
  (in_active p = false → in_active (self e) = false) ∧
  (c = activate_read → reads (state (self e)) → in_active p = true).
Proof.
  intros Hc. destruct e as [qs p ds ev], c as [|n| | |]; try done; simpl.
  - unfold process_activate_read. rewrite run_gets. cbn [self]. destruct (_ && _) eqn:Hb.
    + by eexists _, _.
    + exists p, ev. split_and!; try done. intros _ Hr. apply andb_false_iff in Hb as [Hb%negb_false_iff|Hb]; [done|].
      by apply bool_decide_eq_false in Hb.
  - unfold process_activate_write, on_self. rewrite run_modify, run_gets. destruct (_ && _); by eexists _, _.
Qed.

Lemma process_term_run li lo e : can_run li lo e →
  state (self e) = active ∨ state (self e) = delimiter_received ∨ state (self e) = term_req_sent1 → ∃ p ds,
  process_pipe_term e = (Ok (), mkPenv (queues e) p ds (events e)) ∧ answers (state (self e)) (state p) ds ∧
  inpipe p = Some li ∧ outpipe p = (if acked (state p) then None else Some lo) ∧ in_active p = in_active (self e).
Proof.
  intros [Hi Ho _ _ Hse] Hs. unfold process_pipe_term. rewrite run_gets. destruct e as [qs p ds ev]. simpl in *. subst ds.
  destruct Hs as [Hs|[Hs|Hs]]; rewrite Hs in *; cbn; [destruct (delay p)|..]; cbn;
    eexists _, _; (split; [reflexivity|]); split_and!; try done; try constructor; auto.
Qed.

(** Emptying a queue. *)
Lemma drain_loop_ok fuel l q e : queues e !! l = Some q → qgood q → (length (slots q) < fuel)%nat → ∃ q',
  drain_loop fuel (Some l) e = (Ok (), mkPenv (<[l := q']> (queues e)) (self e) (sent e) (events e)).
Proof.
  revert q e. induction fuel as [|fuel IH]; intros q e Hq Hg Hlen; [lia|]. simpl. unfold qread, on_queue, mbind, M_bind.
  rewrite Hq. pose proof (qgood_read q Hg) as Hy. destruct (yread q) as [r q1]. destruct Hy as (-> & Hg1 & _ & Hs).
  destruct (flushed q) as [|x fl]; simpl; [by eexists|].
  destruct (IH q1 (mkPenv (<[l := q1]> (queues e)) (self e) (sent e) (events e))) as (q2 & Hr);
    [apply lookup_insert_eq|done|rewrite Hs in Hlen; simpl in Hlen; lia|].
  exists q2. etrans; [exact Hr|]. simpl. by rewrite insert_insert_eq.
Qed.

Lemma process_ack_run li lo e : can_run li lo e → state (self e) = term_req_sent1 ∨ acked (state (self e)) = true → ∃ p ev,
  process_pipe_term_ack e =
    (Ok (), mkPenv (delete li (queues e)) p (if acked (state (self e)) then [] else [pipe_term_ack]) ev) ∧
  state p = state (self e).
Proof.
  intros [Hi Ho (q & Hq & Hg) _ Hse] Hs. destruct e as [qs p ds ev]. simpl in *. subst ds.
  unfold process_pipe_term_ack, raise. rewrite run_modify, run_gets. cbn [self].
  set (p1 := if acked (state p) then p else set_outpipe None p).
  set (ds := if acked (state p) then [] else [pipe_term_ack]).
  rewrite (bind_Ok _ _ _ () (mkPenv qs p1 ds (ev ++ [pipe_terminated]))).
  2: { subst p1 ds. destruct Hs as [Hs|Hs]; [by rewrite Hs|]. rewrite decide_False by (by intros He; rewrite He in Hs).
       unfold acked in Hs |- *. by rewrite Hs. }
  unfold ZmqPipe.drain. rewrite Hi.
  destruct (drain_loop_ok (S (length (slots q))) li q (mkPenv qs p1 ds (ev ++ [pipe_terminated]))) as (q' & Hr); [done..|lia|].
  rewrite (bind_Ok _ _ _ () (mkPenv (<[li := q']> qs) p1 ds (ev ++ [pipe_terminated]))).
  2: { rewrite run_gets. unfold queue_length. simpl. by rewrite Hq. }
  eexists p1, _. split; [unfold qdelete; simpl; by rewrite delete_insert_eq|]. subst p1. by destruct (acked _).
Qed.

(** ** The invariant *)

Definition view (s : tstate) (a : bool) : option pipe_state :=
  if gone s a then None else Some (state (ends (tpair s) a)).

(** A queue whose writer is in state [st]. *)
Record tdir (st : pipe_state) (pr : pipe_t) (mr : list command) (q : ypipe_t item) : Prop := mkTdir {
  tdir_good : qgood q;
  tdir_delim : Delimiter ∈ slots q → st ≠ active ∧ st ≠ delimiter_received;
  tdir_asked : st = term_req_sent1 → reads (state pr) → Delimiter ∈ flushed q;
  tdir_asleep : reads (state pr) → in_active pr = false → asleep q = true ∨ activate_read ∈ mr
}.

(** Nothing comes after an acknowledgement. *)
Definition ack_last (m : list command) : Prop := ∀ l1 l2, m = l1 ++ pipe_term_ack :: l2 → l2 = [].

Record tinv (s : tstate) : Prop := mkTinv {
  tinv_proto a : proto (view s a) (view s (negb a)) (ctl (mail (tpair s) a)) (ctl (mail (tpair s) (negb a)));
  tinv_ends a : gone s a = false → inpipe (ends (tpair s) a) = Some (qid (negb a)) ∧
    outpipe (ends (tpair s) a) = if acked (state (ends (tpair s) a)) then None else Some (qid a);
  tinv_last a : ack_last (mail (tpair s) a);
  tinv_mail a : gone s a = true → mail (tpair s) a = [];
  tinv_queue a : if gone s (negb a) then pqueues (tpair s) !! qid a = None
    else ∃ q, pqueues (tpair s) !! qid a = Some q ∧
         tdir (state (ends (tpair s) a)) (ends (tpair s) (negb a)) (mail (tpair s) (negb a)) q;
  tinv_dom l : (∀ a, l ≠ qid a) → pqueues (tpair s) !! l = None
}.

Lemma tnew_inv hwms : tinv (tnew hwms).
Proof.
  constructor.
  - intros []; left; constructor.
  - by intros [].
  - by intros a [] l2.
  - done.
  - intros a. exists ypipe_new. split; [by destruct a|]. constructor.
    + apply qgood_new.
    + by intros ?%elem_of_nil.
    + by destruct a.
    + by destruct a.
  - intros l Hl. simpl. rewrite !lookup_insert_ne; [done|apply not_eq_sym, (Hl true)|apply not_eq_sym, (Hl false)].
Qed.

Lemma not_negb (a b : bool) : b ≠ a → b = negb a.
Proof. by destruct a, b. Qed.

Lemma ack_last_app m ds : ack_last m → (pipe_term_ack ∈ m → ds = []) → (pipe_term_ack ∈ ds → ds = [pipe_term_ack]) →
  ack_last (m ++ ds).
Proof.
  intros Hm Hd Hds l1 l2 He. destruct (decide (pipe_term_ack ∈ m)) as [Hin|Hin].
  - rewrite (Hd Hin), app_nil_r in He. by eapply Hm.
  - assert (pipe_term_ack ∈ ds) as Ha.
    { assert (pipe_term_ack ∈ m ++ ds) as [?|?]%elem_of_app by (rewrite He; set_solver); done. }
    rewrite (Hds Ha) in He. destruct l2 as [|c l2 _] using rev_ind; [done|].
    rewrite app_comm_cons, app_assoc in He. apply app_inj_tail in He as [He _]. subst m. set_solver.
Qed.

Lemma ack_last_tail c m : ack_last (c :: m) → ack_last m.
Proof. intros Hm l1 l2 ->. by apply (Hm (c :: l1)). Qed.

Lemma ctl_app m1 m2 : ctl (m1 ++ m2) = ctl m1 ++ ctl m2.
Proof. apply filter_app. Qed.

Lemma ctl_ack m : pipe_term_ack ∈ m → pipe_term_ack ∈ ctl m.
Proof. intros Hm. by apply list_elem_of_filter. Qed.

Lemma tdir_mail st pr mr ds q : tdir st pr mr q → tdir st pr (mr ++ ds) q.
Proof. intros []. constructor; try done. intros Hr Hi. destruct (tdir_asleep0 Hr Hi); [by left|right; set_solver]. Qed.

(** What an end works on. *)
Definition env_of (s : tstate) (a : bool) : penv := mkPenv (pqueues (tpair s)) (ends (tpair s) a) [] [].

Lemma tinv_can_run s a : tinv s → gone s a = false → can_run (qid (negb a)) (qid a) (env_of s a).
Proof.
  intros Hs Ha. destruct (tinv_ends s Hs a Ha) as [Hi Ho]. constructor; simpl; try done.
  - pose proof (tinv_queue s Hs (negb a)) as Hq. rewrite negb_involutive, Ha in Hq. destruct Hq as (q & Hq & []). by exists q.
  - intros Hna. pose proof (tinv_queue s Hs a) as Hq. destruct (gone s (negb a)) eqn:Hg.
    + pose proof (tinv_proto s Hs a) as Hp. unfold view in Hp. rewrite Ha, Hg in Hp.
      destruct (proto_gone _ _ _ (proto_sym _ _ _ _ Hp)) as [_ Hk]. by rewrite (Hk _ eq_refl) in Hna.
    + destruct Hq as (q & Hq & []). by exists q.
Qed.

(** The pair after a call at [a] with mailboxes [m] that left [e]. *)
Definition after (s : tstate) (a : bool) (m : bool → list command) (e : penv) : pair :=
  mkPair (queues e) (upd (ends (tpair s)) a (self e)) (upd m (negb a) (m (negb a) ++ sent e)) (wrote (tpair s)) (got (tpair s)).

Lemma after_view s a m e g b : g (negb a) = gone s (negb a) →
  view (mkT (after s a m e) g) b = if decide (b = a) then (if g a then None else Some (state (self e))) else view s b.
Proof.
  intros Hg. unfold view. simpl. unfold upd. case_decide as Hb; [by subst b|]. apply not_negb in Hb as ->. by rewrite Hg.
Qed.

(** An end has asked, or is deleted. *)
Definition down (s : tstate) (a : bool) : Prop := view s a ≠ Some active.

Lemma down_after s a m e g : g (negb a) = gone s (negb a) → gone s a = false →
  (state (ends (tpair s) a) ≠ active → state (self e) ≠ active) → ∀ b, down s b → down (mkT (after s a m e) g) b.
Proof.
  intros Hg Ha Hst b Hb. unfold down in *. rewrite after_view by done. case_decide as Hba; [|done]. subst b.
  unfold view in Hb. rewrite Ha in Hb. destruct (g a); [done|]. intros [= He]. apply Hst; congruence.
Qed.

(** What the steps of an end have in common. *)
Definition tame_step (R : pipe_state → pipe_state → list command → Prop) : Prop := ∀ st st' ds, R st st' ds →
  (reads st' → reads st) ∧ (st ≠ active ∧ st ≠ delimiter_received → st' ≠ active ∧ st' ≠ delimiter_received) ∧
  (st ≠ active → st' ≠ active).

Section keep.
Context (R : pipe_state → pipe_state → list command → Prop) (HR : tame_step R).
Context (s : tstate) (a : bool) (c : list command) (m : bool → list command) (e : penv).
Context (Hs : tinv s) (Ha : gone s a = false).
Context (Hm : mail (tpair s) a = c ++ m a) (Hm' : m (negb a) = mail (tpair s) (negb a)).
Context (Hpost : op_post (qid (negb a)) (qid a) R (env_of s a) e).
Context (Hc : activate_read ∈ c → reads (state (self e)) → in_active (self e) = true).
Context (Hproto : proto (Some (state (self e))) (view s (negb a)) (ctl (m a)) (ctl (mail (tpair s) (negb a)) ++ ctl (sent e))).

(** The queue it writes to. *)
Lemma keep_out : if gone s (negb a) then queues e !! qid a = None
  else ∃ q, queues e !! qid a = Some q ∧
    tdir (state (self e)) (ends (tpair s) (negb a)) (mail (tpair s) (negb a) ++ sent e) q.
Proof.
  pose proof (tinv_queue s Hs a) as Hq. destruct (gone s (negb a)); [by apply Hpost|]. destruct Hq as (q & Hq & [Hg Hd Hk Hal]).
  destruct (post_qo _ _ _ _ _ Hpost q Hq Hg) as (q' & Hq' & (Hg' & Hd' & Hf' & Hal') & Hreq). exists q'. split; [done|].
  destruct (HR _ _ _ (post_local _ _ _ _ _ Hpost)) as (_ & Haway & _). simpl in *. constructor; [done|..].
  - intros Hin. destruct (Hd' Hin) as [Hold|]; [by apply Haway, Hd|done].
  - intros Hst Hr. destruct (Hreq Hst) as [Hst'|]; [by apply Hf', Hk|done].
  - intros Hr Hi. destruct (Hal Hr Hi) as [Has|Has]; [|right; set_solver].
    destruct (Hal' Has); [by left|right; set_solver].
Qed.

(** The queue it reads from. *)
Lemma keep_in : ∃ q, queues e !! qid (negb a) = Some q ∧ tdir (state (ends (tpair s) (negb a))) (self e) (m a) q.
Proof.
  pose proof (tinv_queue s Hs (negb a)) as Hq. rewrite negb_involutive, Ha in Hq. destruct Hq as (q & Hq & [Hg Hd Hk Hal]).
  destruct (post_qi _ _ _ _ _ Hpost q Hq Hg) as (q' & Hq' & (Hg' & Hs' & Hf' & Hal') & _). exists q'. split; [done|].
  destruct (HR _ _ _ (post_local _ _ _ _ _ Hpost)) as (Hre & _ & _). simpl in *. constructor; [done|auto|auto|].
  intros Hr Hi. destruct (Hal' Hi) as [?|[Hwas ->]]; [by left|]. destruct (Hal (Hre Hr) Hwas) as [?|Hin]; [by left|].
  right. rewrite Hm in Hin. apply elem_of_app in Hin as [Hin|?]; [|done]. by rewrite (Hc Hin Hr) in Hi.
Qed.

(** It has nothing to say to an end that is deleted or has its acknowledgement. *)
Lemma keep_silent : gone s (negb a) = true ∨ pipe_term_ack ∈ mail (tpair s) (negb a) → sent e = [].
Proof.
  intros Hx. apply (post_silent _ _ _ _ _ Hpost). simpl. pose proof (proto_sym _ _ _ _ (tinv_proto s Hs a)) as Hp.
  unfold view in Hp. rewrite Ha in Hp. destruct Hx as [Hg|Hin%ctl_ack].
  - rewrite Hg in Hp. by eapply proto_gone.
  - by eapply proto_ack_from.
Qed.

Lemma keep_post : tinv (mkT (after s a m e) (gone s)).
Proof.
  constructor.
  - intros b. rewrite !after_view, Ha by done. destruct (decide (b = a)) as [->|Hb].
    + rewrite decide_False by (by destruct a). simpl. by rewrite upd_other', upd_same, ctl_app, Hm'.
    + apply not_negb in Hb as ->. rewrite negb_involutive, decide_True by done. simpl.
      rewrite upd_same, upd_other', ctl_app, Hm'. by apply proto_sym.
  - intros b Hb. simpl in *. destruct (decide (b = a)) as [->|Hn]; [rewrite upd_same; split; apply Hpost|].
    apply not_negb in Hn as ->. rewrite upd_other. by apply tinv_ends.
  - intros b. simpl. destruct (decide (b = a)) as [->|Hn].
    + rewrite upd_other'. pose proof (tinv_last s Hs a) as Hl. rewrite Hm in Hl. clear -Hl.
      induction c as [|x c' IH]; [done|]. by apply ack_last_tail, IH in Hl.
    + apply not_negb in Hn as ->. rewrite upd_same, Hm'. apply ack_last_app; [by apply tinv_last|auto using keep_silent|apply Hpost].
  - intros b Hb. simpl in *. destruct (decide (b = a)) as [->|Hn]; [congruence|].
    apply not_negb in Hn as ->. rewrite upd_same, Hm', (tinv_mail s Hs _ Hb). simpl. auto using keep_silent.
  - intros b. simpl. destruct (decide (b = a)) as [->|Hn].
    + rewrite upd_same, upd_other, upd_same, Hm'. apply keep_out.
    + apply not_negb in Hn as ->. rewrite negb_involutive, Ha, upd_other, upd_same, upd_other'. apply keep_in.
  - intros k Hk. simpl. apply (post_dom _ _ _ _ _ Hpost), (tinv_dom s Hs k Hk).
Qed.
End keep.

(** ** Every step is possible and keeps the invariant *)

Lemma local_tame : tame_step local.
Proof. intros st st' ds []; unfold reads; naive_solver. Qed.

Lemma answers_tame : tame_step answers.
Proof. intros st st' ds []; unfold reads; naive_solver. Qed.

Lemma op_keeps s a o : tinv s → gone s a = false → ∃ p, call a (do_op o) (tpair s) = (Ok (), p) ∧
  tinv (mkT p (gone s)) ∧ ∀ b, down s b → down (mkT p (gone s)) b.
Proof.
  intros Hs Ha. pose proof (tinv_can_run s a Hs Ha) as He.
  destruct (do_op_ok _ _ (not_eq_sym (qid_ne a)) o _ He) as (e & Hr & Hpost). exists (after s a (mail (tpair s)) e).
  split; [unfold call; fold (env_of s a); by rewrite Hr|].
  pose proof (local_tame _ _ _ (post_local _ _ _ _ _ Hpost)) as (_ & _ & Hdown). simpl in Hdown.
  split; [|by apply down_after].
  apply (keep_post local local_tame s a []); try done; [set_solver|]. pose proof (tinv_proto s Hs a) as Hp.
  assert (view s a = Some (state (ends (tpair s) a))) as Hv by (unfold view; by rewrite Ha). rewrite Hv in Hp.
  apply (proto_local _ _ _ _ _ _ Hp (post_local _ _ _ _ _ Hpost)). intros Hd.
  pose proof (tinv_queue s Hs (negb a)) as Hq. rewrite negb_involutive, Ha in Hq. destruct Hq as (q & Hq & []).
  destruct (post_qi _ _ _ _ _ Hpost q Hq tdir_good0) as (q' & _ & _ & Hdel). destruct (Hdel Hd) as [?|Hin]; [by left|right].
  unfold view. destruct (gone s (negb a)); [done|]. intros [= He']. by destruct (tdir_delim0 Hin).
Qed.

(** ** How much is left to do *)

Definition rank (x : option pipe_state) : nat :=
  match x with
  | Some active => 3
  | Some delimiter_received | Some waiting_for_delimiter | Some term_req_sent1 => 2
  | Some term_ack_sent | Some term_req_sent2 => 1
  | None => 0
  end.

Definition qsize (qs : gmap nat (ypipe_t item)) (a : bool) : nat :=
  from_option (λ q : ypipe_t item, length (slots q)) 0%nat (qs !! qid a).

(** The progress of the ends, the commands under way and what is in the queues. *)
Definition share (s : tstate) (a : bool) : nat :=
  (rank (view s a) + length (mail (tpair s) a) + 2 * qsize (pqueues (tpair s)) a)%nat.
Definition work (s : tstate) : nat := (share s false + share s true)%nat.

Lemma work_split s a : work s = (share s a + share s (negb a))%nat.
Proof. unfold work. destruct a; simpl; lia. Qed.

(** A step at [a] that leaves the other end as it is. *)
Lemma work_after s a m e g : m (negb a) = mail (tpair s) (negb a) → g (negb a) = gone s (negb a) →
  (rank (if g a then None else Some (state (self e))) + length (m a) + length (sent e) +
     2 * (qsize (queues e) a + qsize (queues e) (negb a)) <
   rank (view s a) + length (mail (tpair s) a) +
     2 * (qsize (pqueues (tpair s)) a + qsize (pqueues (tpair s)) (negb a)))%nat →
  (work (mkT (after s a m e) g) < work s)%nat.
Proof.
  intros Hm Hg Hl. rewrite !(work_split _ a). unfold share, view in *. simpl in *.
  rewrite upd_same, upd_other, upd_same, upd_other', Hm, Hg, length_app. lia.
Qed.

(** ** The commands keep the invariant *)

Lemma ctl_cons_data c m : data_command c = true → ctl (c :: m) = ctl m.
Proof. intros Hc. unfold ctl. by rewrite filter_cons_False by congruence. Qed.
Lemma ctl_cons c m : data_command c = false → ctl (c :: m) = c :: ctl m.
Proof. intros Hc. unfold ctl. by rewrite filter_cons_True. Qed.

Lemma set_mail_call {A} a (f : M penv A) s l r e :
  f (env_of s a) = (r, e) → call a f (set_mail a l (tpair s)) = (r, after s a (upd (mail (tpair s)) a l) e).
Proof. intros Hr. unfold call. simpl. unfold env_of in Hr. by rewrite Hr. Qed.

Lemma answers_facts st st' ds : answers st st' ds → ctl ds = ds ∧ (pipe_term_ack ∈ ds → ds = [pipe_term_ack]) ∧
  acked st = false ∧ st' ≠ delimiter_received ∧ st' ≠ term_req_sent1 ∧ (rank (Some st') + length ds ≤ rank (Some st))%nat.
Proof. intros [|st1 [-> | ->]|]; split_and!; try done; simpl; (lia || set_solver). Qed.

Lemma proto_answers st st' y cx cy ds : proto (Some st) y (pipe_term :: cx) cy → answers st st' ds →
  proto (Some st') y cx (cy ++ ds).
Proof.
  intros Hp%proto_term Ha. destruct Ha as [|st Hst|]; rewrite ?app_nil_r; naive_solver.
Qed.

Section commands.
Context (s : tstate) (a : bool) (l : list command) (Hs : tinv s) (Ha : gone s a = false).

Lemma view_alive : view s a = Some (state (ends (tpair s) a)).
Proof. unfold view. by rewrite Ha. Qed.

(** What a command gives. *)
Definition processed (c : command) (g : bool → bool) : Prop := ∃ p,
  call a (process_command c) (set_mail a l (tpair s)) = (Ok (), p) ∧ tinv (mkT p g) ∧ (work (mkT p g) < work s)%nat ∧
  ∀ b, down s b → down (mkT p g) b.

Lemma data_keeps c : mail (tpair s) a = c :: l → data_command c = true → processed c (gone s).
Proof.
  intros Hm Hc. pose proof (tinv_can_run s a Hs Ha) as He.
  destruct (process_data_run c (env_of s a) Hc) as (p & ev & Hr & Hst & Hi & Ho & Hia & Hact). eexists.
  split; [by apply set_mail_call|]. split_and!.
  - apply (keep_post local local_tame s a [c]); rewrite ?upd_same, ?upd_other; simpl; try done.
    + by apply (post_flags _ _ (not_eq_sym (qid_ne a)) (env_of s a)).
    + intros Hin%list_elem_of_singleton Hre. apply Hact; [done|]. by rewrite <-Hst.
    + pose proof (tinv_proto s Hs a) as Hp. rewrite view_alive, Hm, (ctl_cons_data _ _ Hc) in Hp. by rewrite Hst, app_nil_r.
  - apply work_after; rewrite ?upd_same, ?upd_other; simpl; rewrite ?Ha, ?view_alive, ?Hst, ?Hm; simpl; try done; lia.
  - apply down_after; try done. simpl. by rewrite Hst.
Qed.

Lemma term_keeps : mail (tpair s) a = pipe_term :: l → processed pipe_term (gone s).
Proof.
  intros Hm. pose proof (tinv_can_run s a Hs Ha) as He. pose proof (tinv_proto s Hs a) as Hp.
  rewrite view_alive, Hm, ctl_cons in Hp by done. pose proof (proto_term _ _ _ _ Hp) as Ht.
  destruct (process_term_run _ _ (env_of s a) He) as (p & ds & Hr & Han & Hi & Ho & Hia); [naive_solver|].
  simpl in Han, Hia. destruct (answers_facts _ _ _ Han) as (Hctl & Hack & Hna & H1 & H2 & Hrank).
  eexists. split; [by apply set_mail_call|]. split_and!.
  - apply (keep_post answers answers_tame s a [pipe_term]); rewrite ?upd_same, ?upd_other; simpl; rewrite ?Hctl; try done.
    + apply post_still; simpl; rewrite ?Hctl; try done; congruence.
    + set_solver.
    + by apply (proto_answers _ _ _ _ _ _ Hp).
  - apply work_after; rewrite ?upd_same, ?upd_other; simpl; rewrite ?Ha, ?view_alive, ?Hm; simpl in *; try done; lia.
  - apply down_after; try done. by apply (answers_tame _ _ _ Han).
Qed.

(** The last command: the end and the queue it read from are deleted. *)
Lemma leave_inv p ds ev m : m a = [] → m (negb a) = mail (tpair s) (negb a) → state p = state (ends (tpair s) a) →
  (gone s (negb a) = true ∨ pipe_term_ack ∈ mail (tpair s) (negb a) → ds = []) →
  (pipe_term_ack ∈ ds → ds = [pipe_term_ack]) →
  proto None (view s (negb a)) [] (ctl (mail (tpair s) (negb a)) ++ ctl ds) →
  tinv (mkT (after s a m (mkPenv (delete (qid (negb a)) (pqueues (tpair s))) p ds ev)) (upd (gone s) a true)).
Proof.
  intros Hma Hm Hsp Hsil Hack Hp. set (s' := mkT _ _).
  constructor.
  - intros b. subst s'. rewrite !after_view, upd_same by (by rewrite upd_other). destruct (decide (b = a)) as [->|Hb].
    + rewrite decide_False by (by destruct a). simpl. by rewrite upd_other', upd_same, ctl_app, Hma, Hm.
    + apply not_negb in Hb as ->. rewrite negb_involutive, decide_True by done. simpl.
      rewrite upd_same, upd_other', ctl_app, Hma, Hm. by apply proto_sym.
  - intros b. simpl. destruct (decide (b = a)) as [->|Hb]; [by rewrite upd_same|]. apply not_negb in Hb as ->.
    rewrite !upd_other. by apply tinv_ends.
  - intros b. simpl. destruct (decide (b = a)) as [->|Hb]; [rewrite upd_other', Hma; by intros [] l2|].
    apply not_negb in Hb as ->. rewrite upd_same, Hm. apply ack_last_app; [by apply tinv_last|auto|done].
  - intros b. simpl. destruct (decide (b = a)) as [->|Hb]; [by rewrite upd_other', Hma|]. apply not_negb in Hb as ->.
    rewrite upd_other, upd_same, Hm. intros Hg. rewrite (tinv_mail s Hs _ Hg). simpl. auto.
  - intros b. simpl. destruct (decide (b = a)) as [->|Hb].
    + rewrite upd_other, !upd_same, upd_other, Hm, Hsp, lookup_delete_ne by (apply not_eq_sym, qid_ne).
      pose proof (tinv_queue s Hs a) as Hq. destruct (gone s (negb a)); [done|]. destruct Hq as (q & Hq & Hd).
      exists q. split; [done|]. by apply tdir_mail.
    + apply not_negb in Hb as ->. rewrite negb_involutive, upd_same. apply lookup_delete_eq.
  - intros k Hk. simpl. apply lookup_delete_None. right. by apply (tinv_dom s Hs).
Qed.

(** An end that acknowledged before has nothing to say to one that is deleted or will be. *)
Lemma ack_silent : gone s (negb a) = true ∨ pipe_term_ack ∈ mail (tpair s) (negb a) →
  acked (state (ends (tpair s) a)) = true.
Proof.
  pose proof (proto_sym _ _ _ _ (tinv_proto s Hs a)) as Hp. intros [Hg|Hin%ctl_ack].
  - unfold view in Hp at 1. rewrite Hg in Hp. eapply proto_gone; [done|apply view_alive].
  - eapply proto_ack_from; [done..|apply view_alive].
Qed.

Lemma ack_keeps : mail (tpair s) a = pipe_term_ack :: l → processed pipe_term_ack (upd (gone s) a true).
Proof.
  intros Hm. pose proof (tinv_can_run s a Hs Ha) as He. pose proof (tinv_proto s Hs a) as Hp.
  assert (l = []) as Hl by (apply (tinv_last s Hs a []); by rewrite Hm).
  rewrite view_alive, Hm, ctl_cons in Hp by done. destruct (proto_ack _ _ _ _ Hp) as [_ Hst].
  destruct (process_ack_run _ _ (env_of s a) He) as (p & ev & Hr & Hsp); [naive_solver|]. simpl in Hr, Hsp.
  eexists. split; [by apply set_mail_call|]. set (ds := if acked _ then [] else _). split_and!.
  - apply leave_inv; rewrite ?upd_same, ?upd_other; try done.
    + intros Hx. subst ds. by rewrite ack_silent.
    + subst ds. destruct (acked _); set_solver.
    + subst ds. destruct Hst as [[Hst Hp']|[Hst Hp']]; rewrite Hst; simpl; by rewrite ?app_nil_r.
  - apply work_after; rewrite ?upd_same, ?upd_other; simpl; try done.
    unfold qsize. rewrite lookup_delete_eq, lookup_delete_ne by (apply not_eq_sym, qid_ne).
    rewrite Hm, Hl, view_alive. subst ds. destruct Hst as [[-> _]|[Hst _]]; simpl; [lia|]. rewrite Hst.
    destruct (state _); done || (simpl; lia).
  - apply down_after; rewrite ?upd_other; try done. simpl. by rewrite Hsp.
Qed.
End commands.

Lemma command_keeps s a c l : tinv s → mail (tpair s) a = c :: l →
  gone s a = false ∧ processed s a l c (if decide (c = pipe_term_ack) then upd (gone s) a true else gone s).
Proof.
  intros Hs Hm. assert (gone s a = false) as Ha.
  { destruct (gone s a) eqn:Hg; [|done]. by rewrite (tinv_mail s Hs a Hg) in Hm. }
  split; [done|]. destruct (data_command c) eqn:Hc.
  - rewrite decide_False by (by intros ->). by apply data_keeps.
  - assert (c = pipe_term ∨ c = pipe_term_ack) as [-> | ->].
    { eapply proto_commands; [apply (tinv_proto s Hs a)|]. apply list_elem_of_filter. rewrite Hm. set_solver. }
    + by apply term_keeps.
    + by apply ack_keeps.
Qed.

(** ** Reading on to the delimiter *)

Lemma waiting_read_run li e q : inpipe (self e) = Some li → queues e !! li = Some q → qgood q → flushed q ≠ [] →
  state (self e) = waiting_for_delimiter → in_active (self e) = true → sent e = [] → ∃ q' p ds,
  do_op DoRead e = (Ok (), mkPenv (<[li := q']> (queues e)) p ds (events e)) ∧
  length (slots q) = S (length (slots q')) ∧ (rank (Some (state p)) + length ds ≤ 3)%nat.
Proof.
  intros Hi Hq Hg Hne Hst Hia Hse. simpl. unfold pipe_read, readable. unfold mbind at 1, M_bind at 1.
  rewrite run_gets, Hst, Hia. simpl. rewrite Hi. unfold qread, on_queue. unfold mbind at 1, M_bind at 1. rewrite Hq.
  pose proof (qgood_read q Hg) as Hy. destruct (yread q) as [r q']. destruct Hy as (-> & _ & _ & Hs).
  destruct (flushed q) as [|[d more|] fl]; [done|..]; simpl.
  - rewrite read_frame_run. simpl. rewrite Hse. eexists q', _, _. split; [reflexivity|]. rewrite Hs. split; [done|].
    unfold tell_read. assert (state (count_read more (self e)) = waiting_for_delimiter) as -> by (by destruct more).
    destruct (_ && _); simpl; lia.
  - unfold process_delimiter, mbind, M_bind, gets, lift. simpl. rewrite Hst. simpl. rewrite Hse.
    eexists q', _, _. split; [reflexivity|]. rewrite Hs. split; [done|simpl; lia].
Qed.

Lemma read_works s a : tinv s → gone s a = false → state (ends (tpair s) a) = waiting_for_delimiter →
  ∃ q, pqueues (tpair s) !! qid (negb a) = Some q ∧ ypipe_wf q ∧ flushed q ≠ [] ∧
  (in_active (ends (tpair s) a) = true → ∃ p, call a (do_op DoRead) (tpair s) = (Ok (), p) ∧
     (work (mkT p (gone s)) < work s)%nat).
Proof.
  intros Hs Ha Hst. pose proof (tinv_proto s Hs a) as Hp. unfold view in Hp. rewrite Ha, Hst in Hp.
  pose proof (proto_delim _ _ _ _ Hp (or_introl eq_refl)) as Hv. destruct (gone s (negb a)) eqn:Hg; [done|]. injection Hv as Hv.
  pose proof (tinv_queue s Hs (negb a)) as Hq. rewrite negb_involutive, Ha in Hq. destruct Hq as (q & Hq & [Hgq _ Hask _]).
  specialize (Hask Hv ltac:(by right)). assert (flushed q ≠ []) as Hne by (intros Hn; rewrite Hn in Hask; set_solver).
  exists q. split; [done|]. split; [apply Hgq|]. split; [done|]. intros Hia.
  destruct (tinv_ends s Hs a Ha) as [Hi _].
  destruct (waiting_read_run (qid (negb a)) (env_of s a) q) as (q' & p & ds & Hr & Hlen & Hrk); try done.
  exists (after s a (mail (tpair s)) (mkPenv (<[qid (negb a) := q']> (pqueues (tpair s))) p ds [])).
  split; [unfold call; fold (env_of s a); by rewrite Hr|]. apply work_after; try done. unfold view, qsize.
  cbn [queues self sent]. rewrite Ha, Hst, lookup_insert_eq, lookup_insert_ne, Hq by (apply not_eq_sym, qid_ne).
  simpl in *. lia.
Qed.

(** ** The theorem *)

Lemma term_step_inv s s' : term_step s s' → tinv s → tinv s' ∧ ∀ b, down s b → down s' b.
Proof.
  intros [a s1 s2 [c l s0 p Hm Ha Hr]|a o s1 s2 [s0 p Ha Hr]] Hs.
  - destruct (command_keeps _ _ _ _ Hs Hm) as [_ (p' & Hr' & Hi & _ & Hd)]. rewrite Hr in Hr'. by injection Hr' as <-.
  - destruct (op_keeps _ _ o Hs Ha) as (p' & Hr' & Hi & Hd). rewrite Hr in Hr'. by injection Hr' as <-.
Qed.

Lemma reachable_tinv hwms s : rtc term_step (tnew hwms) s → tinv s.
Proof.
  revert s. apply rtc_ind_r; [apply tnew_inv|]. intros y z _ Hy Hi. by eapply term_step_inv.
Qed.

Lemma wind_term s s' : wind_step s s' → term_step s s'.
Proof. intros [a s1 s2 H|a s1 s2 _ _ H]; [by eapply term_command|by eapply term_op]. Qed.

Lemma wind_works s s' : wind_step s s' → tinv s → (work s' < work s)%nat.
Proof.
  intros [a s1 s2 [c l s0 p Hm Ha Hr]|a s1 s2 Hw Hia Hr] Hs; [|inversion Hr as [s0 p Ha Hr0]; subst; clear Hr; rename Hr0 into Hr].
  - destruct (command_keeps _ _ _ _ Hs Hm) as [_ (p' & Hr' & _ & Hlt & _)]. rewrite Hr in Hr'. by injection Hr' as <-.
  - destruct (read_works _ _ Hs Ha Hw) as (q & _ & _ & _ & Hx). destruct (Hx Hia) as (p' & Hr' & Hlt).
    rewrite Hr in Hr'. by injection Hr' as <-.
Qed.

Lemma wind_stuck s : tinv s → (∃ a, down s a) → (∀ s', ¬ wind_step s s') →
  (∀ a, gone s a = true) ∧ pqueues (tpair s) = ∅.
Proof.
  intros Hs [a0 He] Hno.
  assert (∀ a, mail (tpair s) a = []) as Hmail.
  { intros a. destruct (mail (tpair s) a) as [|c l] eqn:Hm; [done|]. destruct (command_keeps s a c l Hs Hm) as [Ha (p & Hr & _)].
    destruct (Hno _ (wind_command a s _ (step_process a c l s p Hm Ha Hr))). }
  assert (∀ a, view s a ≠ Some waiting_for_delimiter) as Hnw.
  { intros a Hv. unfold view in Hv. destruct (gone s a) eqn:Ha; [done|]. injection Hv as Hst.
    destruct (read_works s a Hs Ha Hst) as (q & Hq & Hw & Hne & Hx).
    assert (in_active (ends (tpair s) a) = true) as Hia.
    { destruct (in_active _) eqn:Hia; [done|]. pose proof (tinv_queue s Hs (negb a)) as Hq'.
      rewrite negb_involutive, Ha in Hq'. destruct Hq' as (q1 & Hq1 & [_ _ _ Hal]). rewrite Hq in Hq1. injection Hq1 as <-.
      destruct (Hal (or_intror Hst) Hia) as [Has|Hin]; [by destruct Hne; apply asleep_flushed|].
      rewrite Hmail in Hin. set_solver. }
    destruct (Hx Hia) as (p & Hr & _). destruct (Hno _ (wind_read a s _ Hst Hia (step_do a DoRead s p Ha Hr))). }
  pose proof (tinv_proto s Hs a0) as Hp. rewrite !Hmail in Hp.
  assert (∀ a, gone s a = true) as Hg.
  { destruct (proto_quiet _ _ Hp) as [[? _]|[[H1 H2]|[?|?]]]; [done| |by destruct (Hnw _ ltac:(done))..].
    unfold view in H1, H2. intros a. destruct (decide (a = a0)) as [->|Ha%not_negb]; [by destruct (gone s a0)|].
    subst a. by destruct (gone s (negb a0)). }
  split; [done|]. apply map_empty. intros k. destruct (decide (k = qid false)) as [->|H1].
  { pose proof (tinv_queue s Hs false) as Hq. by rewrite Hg in Hq. }
  destruct (decide (k = qid true)) as [->|H2]; [pose proof (tinv_queue s Hs true) as Hq; by rewrite Hg in Hq|].
  apply (tinv_dom s Hs). by intros [].
Qed.

(** C15: Whatever the two owners of a pipe do with it, short of [hiccup], in whatever order the commands are
    processed: every call and every command succeeds, without a failed assertion or the use of a deleted queue, and a deleted
    end gets no command.  Once an end has asked for the pipe to end, processing the commands, and reading at an
    end that still waits for the delimiter, stops after at most [work s] steps, and then both ends and both queues
    are deleted. *)
Theorem pipe_ends (hwms : bool → Z) (s : tstate) : rtc term_step (tnew hwms) s →
  (∀ a o, gone s a = false → ∃ p, call a (do_op o) (tpair s) = (Ok (), p)) ∧
  (∀ a c l, mail (tpair s) a = c :: l → gone s a = false ∧
     ∃ p, call a (process_command c) (set_mail a l (tpair s)) = (Ok (), p)) ∧
  ((∃ a, down s a) → ∀ n s', nsteps wind_step n s s' → (n ≤ work s)%nat ∧
     ((∀ s'', ¬ wind_step s' s'') → (∀ a, gone s' a = true) ∧ pqueues (tpair s') = ∅)).
Proof.
  intros Hr%reachable_tinv. split; [|split].
  - intros a o Ha. destruct (op_keeps s a o Hr Ha) as (p & Hc & _). by exists p.
  - intros a c l Hm. destruct (command_keeps s a c l Hr Hm) as [Ha (p & Hc & _)]. split; [done|by exists p].
  - intros He n s' Hn. assert (tinv s' ∧ (∃ a, down s' a) ∧ (n + work s' ≤ work s)%nat) as (Hi' & He' & Hw).
    { clear -Hr He Hn. induction Hn as [s|n s s1 s' Hst Hn IH]; [split_and!; [done..|lia]|].
      destruct (term_step_inv _ _ (wind_term _ _ Hst) Hr) as [Hr1 Hd]. pose proof (wind_works _ _ Hst Hr).
      destruct IH as (? & ? & ?); [done| |split_and!; [done..|lia]]. destruct He as [a Ha]. exists a. by apply Hd. }
    split; [lia|]. by apply wind_stuck.
Qed.

(** Both ends write a message, one asks, the other answers after reading what is left. *)
Lemma pipe_ends_witness : ∃ s, rtc term_step (tnew (λ _, 10)) s ∧ down s false ∧
  ∀ n s', nsteps wind_step n s s' → (n ≤ work s)%nat ∧
    ((∀ s'', ¬ wind_step s' s'') → (∀ a, gone s' a = true) ∧ pqueues (tpair s') = ∅).
Proof.
  assert (∃ s, rtc term_step (tnew (λ _, 10)) s ∧ down s false) as (s & Hr & Hd).
  { eexists. split.
    - eapply rtc_l; [apply (term_op false (DoWrite "a" false)), step_do; [done|vm_compute; reflexivity]|].
      eapply rtc_l; [apply (term_op true (DoWrite "b" true)), step_do; [done|vm_compute; reflexivity]|].
      eapply rtc_l; [apply (term_op false (DoTerminate true)), step_do; [done|vm_compute; reflexivity]|]. apply rtc_refl.
    - done. }
  exists s. split; [done|]. split; [done|]. destruct (pipe_ends (λ _, 10) s Hr) as (_ & _ & H). apply H. by exists false.
Defined.

(** [hiccup] is not among the operations above, and with it the pipe may not end: an end
    replaces its queue while the other asks; the delimiter was written to the old queue,
    which is deleted with it. *)
Definition hiccup_run : pair :=
  let s := (call false hiccup (pipepair (λ _, 10))).2 in
  let s := (call true (terminate true) s).2 in
  let deliver a s :=
    match mail s a with c :: l => (call a (process_command c) (set_mail a l s)).2 | [] => s end in
  (call false pipe_read (deliver false (deliver true s))).2.

Lemma hiccup_strands : mail hiccup_run false = [] ∧ mail hiccup_run true = [] ∧
  state (ends hiccup_run false) = waiting_for_delimiter ∧ state (ends hiccup_run true) = term_req_sent1 ∧
  (call false pipe_read hiccup_run).1 = Ok None ∧ (call true pipe_read hiccup_run).1 = Ok None.
Proof. split_and!; vm_compute; reflexivity. Qed.
