(* ===== verification/ZmqArray.v ===== *)
(** * Arrays of pipes

    [zmq::array_t] (zeromq-4.0.4/src/array.hpp): a vector of pointers in which
    every item knows its index, so that it is found, swapped and erased without a
    search.  The sockets divide their pipes into groups by position. *)

From S2P Require Import Prelude ZmqNode ZmqMtrie.

(** The vector, and the [array_index] of the items. *)
Record array_t := mkArray { items : list pipe_id; array_index : gmap pipe_id nat }.

Definition array_new : array_t := mkArray [] ∅.

Definition asize (a : array_t) : nat := length (items a).

Definition out_of_range {A} : res A := Throw (UndefinedBehaviour "index of a vector").

Definition aget (a : array_t) (i : nat) : res pipe_id :=
  if items a !! i is Some p then Ok p else out_of_range.

(** An item that was never in the array has index -1. *)
Definition aindex (a : array_t) (p : pipe_id) : res nat :=
  if array_index a !! p is Some i then Ok i else out_of_range.

Definition apush_back (p : pipe_id) (a : array_t) : array_t :=
  mkArray (items a ++ [p]) (<[p := length (items a)]> (array_index a)).

Definition aerase (p : pipe_id) (a : array_t) : res array_t :=
  i ← aindex a p;
  match last (items a) with
  | None => out_of_range
  | Some b =>
      _ ← aget a i;
      Ok (mkArray (take (length (items a) - 1) (<[i := b]> (items a))) (<[b := i]> (array_index a)))
  end.

Definition aswap (i j : nat) (a : array_t) : res array_t :=
  x ← aget a i;
  y ← aget a j;
  Ok (mkArray (<[i := y]> (<[j := x]> (items a))) (<[y := i]> (<[x := j]> (array_index a)))).

(** ** The index of an item is where it is *)

Record array_wf (a : array_t) : Prop := mkArrayWf {
  array_nodup : NoDup (items a);
  array_at : ∀ i p, items a !! i = Some p → array_index a !! p = Some i
}.

Lemma array_new_wf : array_wf array_new.
Proof. constructor; [constructor|done]. Qed.

Lemma aindex_spec a i p : array_wf a → items a !! i = Some p → aindex a p = Ok i.
Proof. intros [_ Ha] Hi. unfold aindex. by rewrite (Ha i p Hi). Qed.

Lemma aindex_elem a p : array_wf a → p ∈ items a → ∃ i, items a !! i = Some p ∧ aindex a p = Ok i.
Proof. intros Ha [i Hi]%list_elem_of_lookup. eauto using aindex_spec. Qed.

Lemma apush_back_wf a p : array_wf a → p ∉ items a → array_wf (apush_back p a).
Proof.
  intros [Hnd Ha] Hp. constructor; simpl.
  - apply NoDup_app. split; [done|]. split; [|apply NoDup_singleton]. intros x Hx ->%list_elem_of_singleton. done.
  - intros i x Hi. destruct (decide (x = p)) as [->|Hx].
    + rewrite lookup_insert_eq. f_equal. apply lookup_app_Some in Hi as [Hi|[Hl Hi]].
      * destruct Hp. by eapply list_elem_of_lookup_2.
      * destruct (i - length (items a))%nat eqn:He; simpl in Hi; [lia|done].
    + rewrite lookup_insert_ne by done. apply Ha. apply lookup_app_Some in Hi as [Hi|[Hl Hi]]; [done|].
      apply list_lookup_singleton_Some in Hi as [_ ?]. done.
Qed.

(** Where a pipe of the array is. *)
Definition idx (a : array_t) (p : pipe_id) : nat := default 0%nat (array_index a !! p).

Lemma idx_lookup a p i : array_wf a → items a !! i = Some p ↔ p ∈ items a ∧ idx a p = i.
Proof.
  intros Ha. split.
  - intros Hi. split; [by eapply list_elem_of_lookup_2|]. unfold idx. by rewrite (array_at a Ha i p Hi).
  - intros [[j Hj]%list_elem_of_lookup <-]. unfold idx. by rewrite (array_at a Ha j p Hj).
Qed.

Lemma idx_lt a p : array_wf a → p ∈ items a → (idx a p < asize a)%nat.
Proof.
  intros Ha Hp. assert (items a !! idx a p = Some p) as Hi by (by apply idx_lookup).
  by eapply lookup_lt_Some.
Qed.

Lemma idx_inj a p q : array_wf a → p ∈ items a → q ∈ items a → idx a p = idx a q → p = q.
Proof.
  intros Ha Hp Hq He. assert (items a !! idx a p = Some p) as Hi by (by apply idx_lookup).
  assert (items a !! idx a q = Some q) as Hj by (by apply idx_lookup). congruence.
Qed.

Lemma aindex_idx a p : array_wf a → p ∈ items a → aindex a p = Ok (idx a p).
Proof. intros Ha Hp. apply aindex_spec; [done|]. by apply idx_lookup. Qed.

Lemma aget_idx a i : array_wf a → (i < asize a)%nat → ∃ p, aget a i = Ok p ∧ p ∈ items a ∧ idx a p = i.
Proof.
  intros Ha Hi. destruct (lookup_lt_is_Some_2 (items a) i) as [p Hp]; [done|]. exists p.
  unfold aget. rewrite Hp. split; [done|]. by apply idx_lookup.
Qed.

(** The exchange of two positions. *)
Definition exchange (i j k : nat) : nat := if decide (k = i) then j else if decide (k = j) then i else k.

Lemma exchange_invol i j k : exchange i j (exchange i j k) = k.
Proof. unfold exchange. repeat case_decide; congruence. Qed.

Lemma array_wf_intro a : (∀ i p, items a !! i = Some p → array_index a !! p = Some i) → array_wf a.
Proof.
  intros Ha. constructor; [|done]. apply NoDup_alt. intros i j p Hi Hj.
  apply Ha in Hi, Hj. congruence.
Qed.

Lemma aswap_spec a i j : array_wf a → (i < asize a)%nat → (j < asize a)%nat → ∃ a',
  aswap i j a = Ok a' ∧ array_wf a' ∧ asize a' = asize a ∧
  ∀ k, items a' !! k = items a !! exchange i j k.
Proof.
  intros Ha Hi Hj. unfold aswap, aget, asize in *.
  destruct (lookup_lt_is_Some_2 (items a) i Hi) as [x Hx].
  destruct (lookup_lt_is_Some_2 (items a) j Hj) as [y Hy]. rewrite Hx, Hy. cbn [mbind res_bind].
  set (a' := mkArray _ _). exists a'. split; [done|].
  assert (∀ k, items a' !! k = items a !! exchange i j k) as Hl.
  { intros k. unfold a', exchange. cbn [items]. destruct (decide (k = i)) as [->|].
    - by rewrite list_lookup_insert_eq by (by rewrite length_insert).
    - rewrite list_lookup_insert_ne by done. destruct (decide (k = j)) as [->|].
      + by rewrite list_lookup_insert_eq.
      + by rewrite list_lookup_insert_ne. }
  split; [|split; [unfold a'; cbn [items]; by rewrite !length_insert|done]].
  apply array_wf_intro. intros k p. rewrite Hl. intros Hp. unfold a'. cbn [array_index].
  assert (∀ k, items a !! k = Some p → array_index a !! p = Some k) as Hat by (intros ?; apply Ha).
  unfold exchange in Hp. destruct (decide (k = i)) as [->|].
  { assert (p = y) as -> by congruence. by rewrite lookup_insert_eq. }
  destruct (decide (k = j)) as [->|].
  - assert (p = x) as -> by congruence.
    destruct (decide (x = y)) as [->|]; [|by rewrite lookup_insert_ne, lookup_insert_eq].
    rewrite lookup_insert_eq. f_equal. apply Hat in Hx. pose proof (Hat j Hy). congruence.
  - assert (p ≠ x ∧ p ≠ y) as [Hpx Hpy].
    { split; intros ->; apply Hat in Hp; [apply Hat in Hx|apply Hat in Hy]; congruence. }
    rewrite !lookup_insert_ne by done. by apply Ha.
Qed.

(** In terms of the pipes. *)
Lemma aswap_idx a i j : array_wf a → (i < asize a)%nat → (j < asize a)%nat → ∃ a',
  aswap i j a = Ok a' ∧ array_wf a' ∧ asize a' = asize a ∧ (∀ p, p ∈ items a' ↔ p ∈ items a) ∧
  ∀ p, p ∈ items a → idx a' p = exchange i j (idx a p).
Proof.
  intros Ha Hi Hj. destruct (aswap_spec a i j Ha Hi Hj) as (a' & Hr & Ha' & Hs & Hl).
  exists a'. do 3 (split; [done|]).
  assert (∀ p, p ∈ items a → items a' !! exchange i j (idx a p) = Some p) as Hmove.
  { intros p Hp. rewrite Hl, exchange_invol. by apply idx_lookup. }
  split.
  - intros p. split.
    + intros [k Hk]%list_elem_of_lookup. rewrite Hl in Hk. by eapply list_elem_of_lookup_2.
    + intros Hp%Hmove. by eapply list_elem_of_lookup_2.
  - intros p Hp%Hmove. by apply idx_lookup in Hp as [_ Hp].
Qed.

(** Erasing moves the last pipe to the place of the erased one. *)
Lemma aerase_spec a p : array_wf a → p ∈ items a → ∃ a',
  aerase p a = Ok a' ∧ array_wf a' ∧ asize a = S (asize a') ∧ (∀ q, q ∈ items a' ↔ q ∈ items a ∧ q ≠ p) ∧
  ∀ q, q ∈ items a → q ≠ p → idx a' q = if decide (idx a q = asize a') then idx a p else idx a q.
Proof.
  intros Ha Hp. unfold aerase. rewrite aindex_idx by done. cbn [mbind res_bind].
  assert (items a !! idx a p = Some p) as Hip by (by apply idx_lookup).
  pose proof (idx_lt a p Ha Hp) as Hlt. unfold asize in Hlt.
  destruct (last (items a)) as [b|] eqn:Hb; last first.
  { apply last_None in Hb. rewrite Hb in Hlt. simpl in Hlt. lia. }
  rewrite last_lookup in Hb. unfold aget. rewrite Hip. cbn [mbind res_bind].
  set (n := (length (items a) - 1)%nat). replace (pred (length (items a))) with n in Hb by lia.
  set (a' := mkArray _ _). exists a'. split; [done|].
  assert (asize a = S (asize a')) as Hsz.
  { unfold asize, a'. cbn [items]. rewrite length_take, length_insert. lia. }
  assert (asize a' = n) as Hn by (unfold asize in *; lia).
  assert (∀ k, (k < n)%nat → items a' !! k = if decide (k = idx a p) then Some b else items a !! k) as Hl.
  { intros k Hk. unfold a'. cbn [items]. rewrite lookup_take_lt by done. case_decide as Hd.
    - subst k. rewrite list_lookup_insert_eq; [done|lia].
    - by rewrite list_lookup_insert_ne. }
  assert (∀ k x, items a' !! k = Some x → (k < n)%nat ∧ items a !! (if decide (k = idx a p) then n else k) = Some x) as Hl'.
  { intros k x Hk. assert (k < n)%nat as Hkn by (rewrite <-Hn; by eapply lookup_lt_Some). split; [done|].
    rewrite Hl in Hk by done. case_decide; congruence. }
  assert (∀ q, q ∈ items a → q ≠ p →
    items a' !! (if decide (idx a q = n) then idx a p else idx a q) = Some q) as Hmove.
  { intros q Hq Hne. assert (items a !! idx a q = Some q) as Hiq by (by apply idx_lookup).
    pose proof (idx_lt a q Ha Hq) as Hql. unfold asize in Hql. case_decide as Hd.
    - assert (b = q) as -> by congruence. rewrite Hl; [by rewrite decide_True|].
      destruct (decide (idx a p = n)); [|lia]. destruct Hne. by apply (idx_inj a q p); [..|congruence].
    - rewrite Hl by lia. rewrite decide_False; [done|]. intros He. by apply Hne, (idx_inj a q p). }
  assert (array_wf a') as Ha'.
  { apply array_wf_intro. intros k x Hk. destruct (Hl' k x Hk) as [Hkn Hx]. unfold a'. cbn [array_index].
    destruct (decide (x = b)) as [->|Hxb].
    - rewrite lookup_insert_eq. f_equal. case_decide; [done|].
      assert (k = n); [|lia]. by eapply NoDup_lookup; [apply Ha|done..].
    - rewrite lookup_insert_ne by done. case_decide; [congruence|]. by apply Ha. }
  split; [done|]. split; [done|]. split.
  - intros q. split.
    + intros [k Hk]%list_elem_of_lookup. destruct (Hl' k q Hk) as [Hkn Hx].
      split; [by eapply list_elem_of_lookup_2|]. intros ->.
      assert ((if decide (k = idx a p) then n else k) = idx a p) as He by (by eapply NoDup_lookup; [apply Ha|done..]).
      case_decide; lia.
    + intros [Hq Hne]. by eapply list_elem_of_lookup_2, Hmove.
  - intros q Hq Hne. rewrite Hn. specialize (Hmove q Hq Hne). by apply idx_lookup in Hmove as [_ <-].
Qed.

Lemma apush_back_spec a p : array_wf a → p ∉ items a →
  array_wf (apush_back p a) ∧ asize (apush_back p a) = S (asize a) ∧
  (∀ q, q ∈ items (apush_back p a) ↔ q ∈ items a ∨ q = p) ∧ idx (apush_back p a) p = asize a ∧
  ∀ q, q ≠ p → idx (apush_back p a) q = idx a q.
Proof.
  intros Ha Hp. split; [by apply apush_back_wf|]. unfold asize, idx. simpl. rewrite length_app, lookup_insert_eq.
  split; [simpl; lia|]. split; [intros q; by rewrite elem_of_app, list_elem_of_singleton|]. split; [done|].
  intros q Hq. by rewrite lookup_insert_ne.
Qed.
