(* ===== verification/ZmqDist.v ===== *)
(** * Sending to many pipes

    [zmq::dist_t] (zeromq-4.0.4/src/dist.cpp), used by publishers for messages and
    by subscribers for subscriptions.  The pipes are in one array, in four groups
    by position: matching, other active, other eligible, passive.  A pipe that is
    full leaves the first three; one that is attached or gets room in the middle
    of a message becomes active after it.  Pipes are reached through an interface,
    so that what holds of sending holds for every implementation of it. *)

From S2P Require Import Prelude Monad ZmqNode ZmqMtrie ZmqArray.

(** A frame and whether more follow. *)
Abbreviation frame_t := (string * bool)%type.

(** What sockets do with their pipes ([pipe_t]). *)
Class PipeIO (S : Type) := {
  pread : pipe_id → M S (option frame_t);
  pcheck_read : pipe_id → M S bool;
  pcheck_write : pipe_id → M S bool;
  pwrite : pipe_id → string → bool → M S bool;
  pflush : pipe_id → M S unit
}.

(** Frames of complete messages, the first one possibly begun. *)
Definition whole (l : list frame_t) : Prop := ∀ f, last l = Some f → f.2 = false.

(** What they rely on.  [avail]: the frames that can be read now.  [room]: whether
    a write is accepted; it stays so until the message is complete.  [written]: the
    frames that were accepted. *)
Class PipeLaws (S : Type) `{PipeIO S} := {
  valid : S → pipe_id → Prop;
  avail : S → pipe_id → list frame_t;
  room : S → pipe_id → bool;
  written : S → pipe_id → list frame_t;
  avail_whole : ∀ s p, valid s p → whole (avail s p);
  pread_law : ∀ s p, valid s p → ∃ s', pread p s = (Ok (head (avail s p)), s') ∧
    avail s' p = tail (avail s p) ∧ (∀ q, q ≠ p → avail s' q = avail s q) ∧
    ∀ q, (valid s q → valid s' q) ∧ room s' q = room s q ∧ written s' q = written s q;
  pcheck_read_law : ∀ s p, valid s p → ∃ s', pcheck_read p s = (Ok (bool_decide (avail s p ≠ [])), s') ∧
    ∀ q, (valid s q → valid s' q) ∧ avail s' q = avail s q ∧ room s' q = room s q ∧ written s' q = written s q;
  pcheck_write_law : ∀ s p, valid s p → ∃ s', pcheck_write p s = (Ok (room s p), s') ∧
    ∀ q, (valid s q → valid s' q) ∧ avail s' q = avail s q ∧ room s' q = room s q ∧ written s' q = written s q;
  pwrite_law : ∀ s p d more, valid s p → ∃ s', pwrite p d more s = (Ok (room s p), s') ∧
    written s' p = (if room s p then written s p ++ [(d, more)] else written s p) ∧
    (room s p = false ∨ more = true → room s' p = room s p) ∧
    (∀ q, q ≠ p → room s' q = room s q ∧ written s' q = written s q) ∧
    ∀ q, (valid s q → valid s' q) ∧ avail s' q = avail s q;
  pflush_law : ∀ s p, valid s p → ∃ s', pflush p s = (Ok (), s') ∧
    ∀ q, (valid s q → valid s' q) ∧ avail s' q = avail s q ∧ room s' q = room s q ∧ written s' q = written s q
}.

Record dist_t := mkDist {
  dpipes : array_t;
  matching : nat;
  dactive : nat;
  eligible : nat;
  dmore : bool
}.

Definition dist_new : dist_t := mkDist array_new 0 0 0 false.

Definition dist_attach (p : pipe_id) (d : dist_t) : res dist_t :=
  let a := apush_back p (dpipes d) in
  if dmore d then
    a ← aswap (eligible d) (asize a - 1) a;
    Ok (mkDist a (matching d) (dactive d) (S (eligible d)) (dmore d))
  else
    a ← aswap (dactive d) (asize a - 1) a;
    Ok (mkDist a (matching d) (S (dactive d)) (S (eligible d)) (dmore d)).

Definition dist_match (p : pipe_id) (d : dist_t) : res dist_t :=
  i ← aindex (dpipes d) p;
  if (i <? matching d)%nat then Ok d
  else if (eligible d <=? i)%nat then Ok d
  else
    a ← aswap i (matching d) (dpipes d);
    Ok (mkDist a (S (matching d)) (dactive d) (eligible d) (dmore d)).

Definition dist_unmatch (d : dist_t) : dist_t :=
  mkDist (dpipes d) 0 (dactive d) (eligible d) (dmore d).

(** Moving a pipe out of the group of the first [n] pipes, if it is in it. *)
Definition leave_group (p : pipe_id) (a : array_t) (n : nat) : res (array_t * nat) :=
  i ← aindex a p;
  if (i <? n)%nat then a ← aswap i (n - 1) a; Ok (a, (n - 1)%nat)
  else Ok (a, n).

Definition dist_pipe_terminated (p : pipe_id) (d : dist_t) : res dist_t :=
  '(a, m) ← leave_group p (dpipes d) (matching d);
  '(a, ac) ← leave_group p a (dactive d);
  '(a, e) ← leave_group p a (eligible d);
  a ← aerase p a;
  Ok (mkDist a m ac e (dmore d)).

Definition dist_activated (p : pipe_id) (d : dist_t) : res dist_t :=
  i ← aindex (dpipes d) p;
  a ← aswap i (eligible d) (dpipes d);
  let e := S (eligible d) in
  if dmore d then Ok (mkDist a (matching d) (dactive d) e (dmore d))
  else
    a ← aswap (e - 1) (dactive d) a;
    Ok (mkDist a (matching d) (S (dactive d)) e (dmore d)).

Section dist.
Context {S : Type} `{PipeIO S}.

(** [write]: a pipe without room becomes passive. *)
Definition dist_write (p : pipe_id) (data : string) (more : bool) (d : dist_t) : M S (bool * dist_t) :=
  ok ← pwrite p data more;
  if negb ok then
    d ← lift (
      i ← aindex (dpipes d) p;
      a ← aswap i (matching d - 1) (dpipes d);
      i ← aindex a p;
      a ← aswap i (dactive d - 1) a;
      a ← aswap (dactive d - 1) (eligible d - 1) a;
      Ok (mkDist a (matching d - 1) (dactive d - 1) (eligible d - 1) (dmore d)));
    mret (false, d)
  else
    _ ← (if more then mret () else pflush p);
    mret (true, d).

(** The loop over the matching pipes.  It returns the number of pipes that did not
    take the frame. *)
Fixpoint distribute_loop (fuel : nat) (i : nat) (failed : nat) (data : string) (more : bool) (d : dist_t) :
    M S (nat * dist_t) :=
  match fuel with
  | O => throw OutOfFuel
  | Datatypes.S fuel =>
      if (i <? matching d)%nat then
        p ← lift (aget (dpipes d) i);
        '(ok, d) ← dist_write p data more d;
        if ok : bool then distribute_loop fuel (Datatypes.S i) failed data more d
        else distribute_loop fuel i (Datatypes.S failed) data more d
      else mret (failed, d)
  end.

Definition distribute (data : string) (more : bool) (d : dist_t) : M S (nat * dist_t) :=
  if (matching d =? 0)%nat then mret (0%nat, d)
  else distribute_loop (Datatypes.S (matching d)) 0 0 data more d.

Definition send_to_matching (data : string) (more : bool) (d : dist_t) : M S dist_t :=
  '(_, d) ← distribute data more d;
  mret (mkDist (dpipes d) (matching d) (if more then dactive d else eligible d) (eligible d) more).

Definition send_to_all (data : string) (more : bool) (d : dist_t) : M S dist_t :=
  send_to_matching data more (mkDist (dpipes d) (dactive d) (dactive d) (eligible d) (dmore d)).

End dist.

(** ** The groups *)

Record dist_wf (d : dist_t) : Prop := mkDistWf {
  dist_array : array_wf (dpipes d);
  dist_groups : (matching d ≤ dactive d ≤ eligible d)%nat;
  dist_size : (eligible d ≤ asize (dpipes d))%nat;
  dist_idle : dmore d = false → dactive d = eligible d
}.

Definition in_group (d : dist_t) (n : nat) (p : pipe_id) : Prop := p ∈ items (dpipes d) ∧ (idx (dpipes d) p < n)%nat.
Definition matched (d : dist_t) : pipe_id → Prop := in_group d (matching d).
Definition activep (d : dist_t) : pipe_id → Prop := in_group d (dactive d).
Definition eligiblep (d : dist_t) : pipe_id → Prop := in_group d (eligible d).

Lemma exchange_lt i j k x : (i < k ↔ j < k)%nat → (exchange i j x < k ↔ x < k)%nat.
Proof. intros Hk. unfold exchange. repeat case_decide; subst; naive_solver. Qed.

(** A swap inside a group, or outside of it, does not change the group. *)
Lemma aswap_group a i j a' : array_wf a → (i < asize a)%nat → (j < asize a)%nat → aswap i j a = Ok a' →
  ∀ k p, (i < k ↔ j < k)%nat → p ∈ items a → (idx a' p < k ↔ idx a p < k)%nat.
Proof.
  intros Ha Hi Hj Hr k p Hk Hp. destruct (aswap_idx a i j Ha Hi Hj) as (a1 & Hr1 & _ & _ & _ & Hx).
  rewrite Hr in Hr1. injection Hr1 as <-. rewrite Hx by done. by apply exchange_lt.
Qed.

Lemma leave_group_spec p a n : array_wf a → p ∈ items a → (n ≤ asize a)%nat → ∃ a',
  leave_group p a n = Ok (a', if decide (idx a p < n)%nat then (n - 1)%nat else n) ∧
  array_wf a' ∧ asize a' = asize a ∧ (∀ q, q ∈ items a' ↔ q ∈ items a) ∧
  (idx a' p = if decide (idx a p < n)%nat then (n - 1)%nat else idx a p) ∧
  (∀ q, q ∈ items a → q ≠ p →
     idx a' q < (if decide (idx a p < n) then n - 1 else n) ↔ idx a q < n)%nat ∧
  (∀ q k, q ∈ items a → (n ≤ k ∨ (k ≤ idx a p ∧ k < n))%nat → (idx a' q < k ↔ idx a q < k)%nat).
Proof.
  intros Ha Hp Hn. unfold leave_group. rewrite aindex_idx by done. cbn [mbind res_bind].
  destruct (Nat.ltb_spec (idx a p) n) as [Hlt|Hge].
  - rewrite !decide_True by done. pose proof (idx_lt a p Ha Hp).
    destruct (aswap_idx a (idx a p) (n - 1) Ha) as (a' & Hr & Ha' & Hs & Hm & Hx); [done|lia|].
    rewrite Hr. exists a'. split; [done|]. do 3 (split; [done|]). split; [|split].
    + rewrite Hx by done. unfold exchange. by rewrite decide_True.
    + intros q Hq Hne. rewrite Hx by done. unfold exchange.
      assert (idx a q ≠ idx a p) by (intros He; by apply Hne, (idx_inj a q p)). repeat case_decide; lia.
    + intros q k Hq Hk. eapply aswap_group; [done| |  |done| |done]; lia.
  - rewrite !decide_False by lia. exists a. done.
Qed.

(** The pipe leaves all groups. *)
Lemma leave_groups_spec p d : dist_wf d → p ∈ items (dpipes d) → ∃ a m ac e,
  ('(a, m) ← leave_group p (dpipes d) (matching d);
   '(a, ac) ← leave_group p a (dactive d);
   '(a, e) ← leave_group p a (eligible d);
   Ok (a, m, ac, e)) = Ok (a, m, ac, e) ∧
  array_wf a ∧ asize a = asize (dpipes d) ∧ (∀ q, q ∈ items a ↔ q ∈ items (dpipes d)) ∧
  (m ≤ ac ≤ e ∧ e ≤ idx a p)%nat ∧ (dactive d = eligible d → ac = e) ∧
  ∀ q, q ∈ items (dpipes d) → q ≠ p →
    (idx a q < m ↔ idx (dpipes d) q < matching d)%nat ∧
    (idx a q < ac ↔ idx (dpipes d) q < dactive d)%nat ∧
    (idx a q < e ↔ idx (dpipes d) q < eligible d)%nat ∧
    ∀ k, (k ≤ idx (dpipes d) p < matching d → idx a q < k ↔ idx (dpipes d) q < k)%nat.
Proof.
  intros [Ha Hg Hs _] Hp. destruct d as [a0 m0 ac0 e0 mo]. cbn [dpipes matching dactive eligible] in *.
  destruct (leave_group_spec p a0 m0 Ha Hp) as (a1 & -> & Ha1 & Hs1 & Hm1 & Hp1 & Hq1 & Hk1); [lia|].
  cbn [mbind res_bind].
  destruct (leave_group_spec p a1 ac0 Ha1) as (a2 & -> & Ha2 & Hs2 & Hm2 & Hp2 & Hq2 & Hk2); [by apply Hm1|lia|].
  cbn [mbind res_bind].
  destruct (leave_group_spec p a2 e0 Ha2) as (a3 & -> & Ha3 & Hs3 & Hm3 & Hp3 & Hq3 & Hk3); [by apply Hm2, Hm1|lia|].
  cbn [mbind res_bind]. eexists _, _, _, _. split; [done|]. split; [done|]. split; [congruence|].
  split; [intros q; by rewrite Hm3, Hm2, Hm1|].
  split; [repeat case_decide; lia|]. split; [intros ->; repeat case_decide; lia|].
  intros q Hq Hne. assert (q ∈ items a1) as Hqa by (by apply Hm1). assert (q ∈ items a2) as Hqb by (by apply Hm2).
  split_and!.
  - rewrite Hk3, Hk2, Hq1 by (done || (repeat case_decide; lia)). done.
  - rewrite Hk3, Hq2 by (done || (repeat case_decide; lia)). by rewrite Hk1 by (done || lia).
  - rewrite Hq3 by done. rewrite Hk2 by (done || lia). by rewrite Hk1 by (done || lia).
  - intros k Hk. rewrite Hk3, Hk2, Hk1 by (done || (repeat case_decide; lia)). done.
Qed.

(** A full pipe becomes passive. *)
Lemma dist_fail_spec p d : dist_wf d → matched d p → ∃ d',
  (i ← aindex (dpipes d) p;
   a ← aswap i (matching d - 1) (dpipes d);
   i ← aindex a p;
   a ← aswap i (dactive d - 1) a;
   a ← aswap (dactive d - 1) (eligible d - 1) a;
   Ok (mkDist a (matching d - 1) (dactive d - 1) (eligible d - 1) (dmore d))) = Ok d' ∧
  dist_wf d' ∧ dmore d' = dmore d ∧ matching d' = (matching d - 1)%nat ∧
  (∀ q, q ∈ items (dpipes d') ↔ q ∈ items (dpipes d)) ∧ ¬ eligiblep d' p ∧
  ∀ q, q ∈ items (dpipes d) → q ≠ p →
    (matched d' q ↔ matched d q) ∧ (activep d' q ↔ activep d q) ∧ (eligiblep d' q ↔ eligiblep d q) ∧
    ∀ k, (k ≤ idx (dpipes d) p → idx (dpipes d') q < k ↔ idx (dpipes d) q < k)%nat.
Proof.
  intros Hd [Hp Hlt]. pose proof (leave_groups_spec p d Hd Hp) as (a & m & ac & e & Hr & Ha & Hs & Hm & Hb & Hi & Hq).
  destruct Hd as [Ha0 Hg0 Hs0 Hi0]. unfold leave_group in Hr. rewrite aindex_idx in * by done. cbn [mbind res_bind] in *.
  destruct (Nat.ltb_spec (idx (dpipes d) p) (matching d)) as [_|]; [|lia].
  destruct (aswap_idx (dpipes d) (idx (dpipes d) p) (matching d - 1)) as (a1 & Hr1 & Ha1 & Hs1 & Hm1 & Hx1);
    [done|by apply idx_lt|lia|]. rewrite Hr1 in *. cbn [mbind res_bind] in *.
  assert (p ∈ items a1) as Hp1 by (by apply Hm1). rewrite aindex_idx in * by done. cbn [mbind res_bind] in *.
  assert (idx a1 p = matching d - 1)%nat as Hi1 by (rewrite Hx1 by done; unfold exchange; by rewrite decide_True).
  destruct (Nat.ltb_spec (idx a1 p) (dactive d)) as [_|]; [|lia].
  destruct (aswap_idx a1 (idx a1 p) (dactive d - 1)) as (a2 & Hr2 & Ha2 & Hs2 & Hm2 & Hx2); [done|lia|lia|].
  rewrite Hr2 in *. cbn [mbind res_bind] in *.
  assert (p ∈ items a2) as Hp2 by (by apply Hm2). rewrite aindex_idx in Hr by done. cbn [mbind res_bind] in *.
  assert (idx a2 p = dactive d - 1)%nat as Hi2 by (rewrite Hx2 by done; unfold exchange; by rewrite decide_True).
  destruct (Nat.ltb_spec (idx a2 p) (eligible d)) as [_|]; [|lia]. rewrite Hi2 in Hr.
  destruct (aswap (dactive d - 1) (eligible d - 1) a2) as [a3|]; [|done]. injection Hr as -> <- <- <-.
  eexists. split; [done|]. split; [constructor; simpl; [done|lia|lia|intros Hmo; specialize (Hi0 Hmo); lia]|].
  split; [done|]. split; [done|]. split; [done|]. unfold matched, activep, eligiblep, in_group. simpl.
  split; [lia|]. intros q Hqi Hne. specialize (Hq q Hqi Hne). rewrite Hm. split_and!; [naive_solver..|].
  intros k Hk. apply Hq. lia.
Qed.

(** ** Distributing a frame *)

Section distribute.
Context {S : Type} `{HP : PipeLaws S}.
Implicit Types (s : S) (d : dist_t).

Definition all_valid s d : Prop := ∀ p, p ∈ items (dpipes d) → valid s p.

(** What happened to a pipe that the frame was for ([todo]) or not. *)
Definition sent_frame (data : string) (more : bool) (todo : Prop) s d s' d' (q : pipe_id) : Prop :=
  (todo → room s q = true → written s' q = written s q ++ [(data, more)]) ∧
  (¬ todo ∨ room s q = false → written s' q = written s q) ∧
  (¬ todo ∨ room s q = false ∨ more = true → room s' q = room s q) ∧
  avail s' q = avail s q ∧
  (matched d' q ↔ matched d q ∧ (todo → room s q = true)) ∧
  (activep d' q ↔ activep d q ∧ (todo → room s q = true)) ∧
  (eligiblep d' q ↔ eligiblep d q ∧ (todo → room s q = true)).

Lemma dist_write_spec p data more s d : dist_wf d → all_valid s d → matched d p → ∃ d' s',
  dist_write p data more d s = (Ok (room s p, d'), s') ∧ dist_wf d' ∧ all_valid s' d' ∧ dmore d' = dmore d ∧
  (∀ q, q ∈ items (dpipes d') ↔ q ∈ items (dpipes d)) ∧
  (if room s p then d' = d else matching d' = matching d - 1)%nat ∧
  (∀ q k, q ∈ items (dpipes d) → q ≠ p → (k ≤ idx (dpipes d) p)%nat →
     (idx (dpipes d') q < k ↔ idx (dpipes d) q < k)%nat) ∧
  ∀ q, q ∈ items (dpipes d) → sent_frame data more (q = p) s d s' d' q.
Proof.
  intros Hd Hv Hp. unfold dist_write. destruct (pwrite_law s p data more (Hv p (proj1 Hp))) as (s1 & Hw & Hw1 & Hr1 & Ho1 & Ha1).
  rewrite (bind_Ok _ _ _ _ _ Hw). destruct (room s p) eqn:Hrm; cbn [negb].
  - assert (∃ s2, (if more then mret () else pflush p) s1 = (Ok (), s2) ∧
      ∀ q, (valid s1 q → valid s2 q) ∧ avail s2 q = avail s1 q ∧ room s2 q = room s1 q ∧ written s2 q = written s1 q)
      as (s2 & Hf & Hs2).
    { destruct more; [by exists s1|]. apply pflush_law. apply Ha1. by apply Hv, Hp. }
    rewrite (bind_Ok _ _ _ _ _ Hf). exists d, s2. split; [done|]. split; [done|].
    split; [intros q Hq; apply Hs2, Ha1; by apply Hv|]. do 4 (split; [done|]).
    intros q Hq. unfold sent_frame. destruct (Hs2 q) as (_ & -> & -> & ->).
    destruct (decide (q = p)) as [->|Hne].
    + rewrite Hrm, Hw1. split_and!; try done; [naive_solver|naive_solver|apply Ha1|naive_solver..].
    + destruct (Ho1 q Hne) as [-> ->]. split_and!; try done; [apply Ha1|naive_solver..].
  - destruct (dist_fail_spec p d Hd Hp) as (d' & Hf & Hd' & Hmo & Hmt & Hit & Hel & Hq).
    rewrite Hf, run_lift_Ok. exists d', s1. split; [done|]. split; [done|].
    split; [intros q Hqi; apply Ha1, Hv; by apply Hit|]. do 2 (split; [done|]). split; [done|].
    split; [intros q k Hqi Hne Hk; by apply Hq|].
    intros q Hqi. unfold sent_frame. destruct (decide (q = p)) as [->|Hne].
    + rewrite Hw1, Hr1 by naive_solver. rewrite Hrm. split_and!; try done; [apply Ha1|..].
      all: split; [intros Hx; exfalso; apply Hel|intros [_ Hx]; by specialize (Hx eq_refl)].
      all: destruct Hx as [? ?]; split; [done|]; destruct Hd' as [_ ? _ _]; lia.
    + destruct (Hq q Hqi Hne) as (H1 & H2 & H3 & _). destruct (Ho1 q Hne) as [-> ->].
      split_and!; try done; [apply Ha1|naive_solver..].
Qed.

(** One after the other. *)
Lemma sent_frame_trans data more (t1 t2 t : Prop) s d s1 d1 s2 d2 q :
  (t1 ∧ ¬ t2 ∧ t) ∨ (¬ t1 ∧ (t2 ↔ t)) →
  sent_frame data more t1 s d s1 d1 q → sent_frame data more t2 s1 d1 s2 d2 q →
  sent_frame data more t s d s2 d2 q.
Proof.
  intros Ht (W1 & W1' & R1 & A1 & M1 & C1 & E1) (W2 & W2' & R2 & A2 & M2 & C2 & E2).
  destruct Ht as [(T1 & T2 & T)|(T1 & T2)].
  - unfold sent_frame. split_and!.
    + intros _ Hr. rewrite W2' by auto. auto.
    + intros [?|Hr]; [done|]. rewrite W2', W1' by auto. done.
    + intros [?|Hr]; [done|]. rewrite R2, R1 by auto. done.
    + congruence.
    + rewrite M2, M1. naive_solver.
    + rewrite C2, C1. naive_solver.
    + rewrite E2, E1. naive_solver.
  - assert (room s1 q = room s q) as Hr by auto. assert (written s1 q = written s q) as Hw by auto.
    unfold sent_frame. rewrite <-T2, <-Hr, <-Hw, <-A1. split_and!; try done.
    + rewrite M2, M1. naive_solver.
    + rewrite C2, C1. naive_solver.
    + rewrite E2, E1. naive_solver.
Qed.

Lemma sent_frame_iff data more (t t' : Prop) s d s' d' q : (t ↔ t') →
  sent_frame data more t s d s' d' q → sent_frame data more t' s d s' d' q.
Proof. unfold sent_frame. intros Ht. by rewrite Ht. Qed.

Lemma sent_frame_none data more (t : Prop) s d q : ¬ t → sent_frame data more t s d s d q.
Proof. unfold sent_frame. naive_solver. Qed.

Lemma distribute_loop_spec fuel i failed data more d s :
  dist_wf d → all_valid s d → (matching d - i < fuel)%nat → (i ≤ matching d)%nat → ∃ failed' d' s',
  distribute_loop fuel i failed data more d s = (Ok (failed', d'), s') ∧ dist_wf d' ∧ all_valid s' d' ∧
  dmore d' = dmore d ∧ (∀ q, q ∈ items (dpipes d') ↔ q ∈ items (dpipes d)) ∧
  (failed' + matching d' = failed + matching d)%nat ∧
  ∀ q, q ∈ items (dpipes d) → sent_frame data more (i ≤ idx (dpipes d) q < matching d)%nat s d s' d' q.
Proof.
  revert i failed d s. induction fuel as [|fuel IH]; intros i failed d s Hd Hv Hf Hi; [lia|].
  cbn [distribute_loop]. destruct (Nat.ltb_spec i (matching d)) as [Hlt|Hge]; last first.
  { exists failed, d, s. split; [done|]. do 5 (split; [done|]). intros q _. apply sent_frame_none. lia. }
  pose proof Hd as [Ha Hg Hs _].
  destruct (aget_idx (dpipes d) i Ha) as (p & Hget & Hp & Hpi); [lia|]. rewrite Hget, run_lift_Ok.
  destruct (dist_write_spec p data more s d Hd Hv) as (d1 & s1 & Hw & Hd1 & Hv1 & Hmo & Hit & Hk & Hidx & Hq).
  { split; [done|lia]. }
  rewrite (bind_Ok _ _ _ _ _ Hw). destruct (room s p) eqn:Hrm.
  - subst d1. destruct (IH (Datatypes.S i) failed d s1 Hd Hv1) as (f' & d' & s' & Hr & Hd' & Hv' & Hmo' & Hit' & Hfl & Hq');
      [lia..|]. exists f', d', s'. split; [done|]. do 5 (split; [done|]). intros q Hqi.
    eapply sent_frame_trans; [|by apply Hq|by apply Hq'].
    destruct (decide (q = p)) as [->|Hne]; [left; lia|right]. split; [done|].
    assert (idx (dpipes d) q ≠ i) by (intros <-; apply Hne; by apply (idx_inj (dpipes d))). lia.
  - destruct (IH i (Datatypes.S failed) d1 s1 Hd1 Hv1) as (f' & d' & s' & Hr & Hd' & Hv' & Hmo' & Hit' & Hfl & Hq');
      [lia..|]. exists f', d', s'. split; [done|]. do 2 (split; [done|]). split; [congruence|].
    split; [intros q; by rewrite Hit', Hit|]. split; [lia|]. intros q Hqi.
    eapply sent_frame_trans; [|by apply Hq|apply Hq'; by apply Hit].
    destruct (Hq q Hqi) as (_ & _ & _ & _ & Hm & _). unfold matched, in_group in Hm. rewrite Hit in Hm.
    destruct (decide (q = p)) as [->|Hne]; [left|right; split; [done|]].
    + split; [done|]. split; [|lia]. intros [_ Hx]. destruct (proj1 Hm (conj Hp Hx)) as [_ Hr']. specialize (Hr' eq_refl). congruence.
    + rewrite !Nat.le_ngt. rewrite Hidx by (done || lia). clear -Hm Hqi Hne. naive_solver.
Qed.

(** A frame goes to the matching pipes that have room, and to no other; the
    matching pipes without room become passive. *)
Lemma distribute_spec data more d s : dist_wf d → all_valid s d → ∃ failed d' s',
  distribute data more d s = (Ok (failed, d'), s') ∧ dist_wf d' ∧ all_valid s' d' ∧
  dmore d' = dmore d ∧ (∀ q, q ∈ items (dpipes d') ↔ q ∈ items (dpipes d)) ∧
  (failed + matching d' = matching d)%nat ∧
  ∀ q, q ∈ items (dpipes d) → sent_frame data more (matched d q) s d s' d' q.
Proof.
  intros Hd Hv. unfold distribute. destruct (Nat.eqb_spec (matching d) 0) as [H0|H0].
  - exists 0%nat, d, s. split; [done|]. do 5 (split; [done|]). intros q _. apply sent_frame_none.
    unfold matched, in_group. lia.
  - destruct (distribute_loop_spec (Datatypes.S (matching d)) 0 0 data more d s Hd Hv) as
      (f' & d' & s' & Hr & Hd' & Hv' & Hmo & Hit & Hf & Hq); [lia..|].
    exists f', d', s'. split; [done|]. do 5 (split; [done|]). intros q Hqi.
    eapply sent_frame_iff; [|by apply Hq]. unfold matched, in_group. split; [|lia]. intros ?. split; [done|lia].
Qed.

End distribute.

(** ** Marking, attaching, activating, terminating *)

(** The groups after an operation on pipe [p]. *)
Lemma aswap_matched d i : dist_wf d → (matching d ≤ i < dactive d)%nat → ∃ a,
  aswap i (matching d) (dpipes d) = Ok a ∧ array_wf a ∧ asize a = asize (dpipes d) ∧
  (∀ q, q ∈ items a ↔ q ∈ items (dpipes d)) ∧
  ∀ q, q ∈ items (dpipes d) →
    (idx a q < Datatypes.S (matching d) ↔ idx (dpipes d) q < matching d ∨ idx (dpipes d) q = i)%nat ∧
    (idx a q < dactive d ↔ idx (dpipes d) q < dactive d)%nat ∧
    (idx a q < eligible d ↔ idx (dpipes d) q < eligible d)%nat.
Proof.
  intros [Ha Hg Hs _] Hi.
  destruct (aswap_idx (dpipes d) i (matching d) Ha) as (a & Hr & Ha' & Hsz & Hm & Hx); [lia..|].
  exists a. do 4 (split; [done|]). intros q Hq. rewrite Hx by done.
  split; [unfold exchange; repeat case_decide; lia|]. split; apply exchange_lt; lia.
Qed.

Lemma dist_match_spec p d : dist_wf d → dmore d = false → p ∈ items (dpipes d) → ∃ d',
  dist_match p d = Ok d' ∧ dist_wf d' ∧ dmore d' = false ∧
  (∀ q, q ∈ items (dpipes d') ↔ q ∈ items (dpipes d)) ∧
  ∀ q, (matched d' q ↔ matched d q ∨ (q = p ∧ eligiblep d q)) ∧
    (activep d' q ↔ activep d q) ∧ (eligiblep d' q ↔ eligiblep d q).
Proof.
  intros Hd Hmo Hp. pose proof Hd as [Ha Hg Hs Hid]. specialize (Hid Hmo).
  unfold dist_match. rewrite aindex_idx by done. cbn [mbind res_bind].
  unfold matched, activep, eligiblep, in_group.
  destruct (Nat.ltb_spec (idx (dpipes d) p) (matching d)) as [Hlt|Hge].
  { exists d. do 4 (split; [done|]). intros q. split; [|done]. split; [by left|]. by intros [?|[-> ?]]. }
  destruct (Nat.leb_spec (eligible d) (idx (dpipes d) p)) as [Hle|Hlt].
  { exists d. do 4 (split; [done|]). intros q. split; [|done]. split; [by left|]. intros [?|[-> [_ ?]]]; [done|]. lia. }
  destruct (aswap_matched d (idx (dpipes d) p) Hd) as (a & Hr & Ha' & Hsz & Hit & Hq); [lia|].
  rewrite Hr. cbn [mbind res_bind]. eexists. split; [done|]. cbn [dpipes matching dactive eligible dmore].
  split; [constructor; cbn [dpipes matching dactive eligible dmore]; [done|lia|lia|done]|].
  split; [done|]. split; [done|]. intros q. rewrite Hit.
  destruct (decide (q ∈ items (dpipes d))) as [Hqi|Hqi]; [|naive_solver].
  destruct (Hq q Hqi) as (-> & -> & ->). split; [|done].
  assert (idx (dpipes d) q = idx (dpipes d) p ↔ q = p) as Hqp
    by (split; [by apply idx_inj|by intros ->]).
  rewrite Hqp. split; [|naive_solver]. intros [_ [?| ->]]; [by left|]. right. split; [done|]. split; [done|lia].
Qed.

(** Marking the pipes that a trie signals. *)
Fixpoint dist_match_all (l : list pipe_id) (d : dist_t) : res dist_t :=
  match l with
  | [] => Ok d
  | p :: l => d ← dist_match p d; dist_match_all l d
  end.

Lemma dist_match_all_spec l d : dist_wf d → dmore d = false → (∀ p, p ∈ l → p ∈ items (dpipes d)) → ∃ d',
  dist_match_all l d = Ok d' ∧ dist_wf d' ∧ dmore d' = false ∧
  (∀ q, q ∈ items (dpipes d') ↔ q ∈ items (dpipes d)) ∧
  ∀ q, (matched d' q ↔ matched d q ∨ (q ∈ l ∧ eligiblep d q)) ∧
    (activep d' q ↔ activep d q) ∧ (eligiblep d' q ↔ eligiblep d q).
Proof.
  revert d. induction l as [|p l IH]; intros d Hd Hmo Hl.
  { exists d. do 4 (split; [done|]). intros q. split; [|done]. split; [by left|].
    intros [?|[?%elem_of_nil _]]; done. }
  cbn [dist_match_all]. destruct (dist_match_spec p d Hd Hmo) as (d1 & -> & Hd1 & Hmo1 & Hit1 & Hq1); [apply Hl; by left|].
  cbn [mbind res_bind]. destruct (IH d1 Hd1 Hmo1) as (d2 & -> & Hd2 & Hmo2 & Hit2 & Hq2).
  { intros q Hq. apply Hit1, Hl. by right. }
  exists d2. do 3 (split; [done|]). split; [intros q; by rewrite Hit2, Hit1|]. intros q.
  destruct (Hq1 q) as (M1 & C1 & E1). destruct (Hq2 q) as (M2 & C2 & E2).
  rewrite M2, M1, C2, C1, E2, E1. split; [|done]. rewrite elem_of_cons. clear. naive_solver.
Qed.

Lemma dist_unmatch_wf d : dist_wf d → dist_wf (dist_unmatch d).
Proof. intros []. constructor; simpl; [done|lia|done|done]. Qed.

Lemma dist_terminated_spec p d : dist_wf d → p ∈ items (dpipes d) → ∃ d',
  dist_pipe_terminated p d = Ok d' ∧ dist_wf d' ∧ dmore d' = dmore d ∧
  (∀ q, q ∈ items (dpipes d') ↔ q ∈ items (dpipes d) ∧ q ≠ p) ∧
  ∀ q, q ≠ p → (matched d' q ↔ matched d q) ∧ (activep d' q ↔ activep d q) ∧ (eligiblep d' q ↔ eligiblep d q).
Proof.
  intros Hd Hp. destruct (leave_groups_spec p d Hd Hp) as (a & m & ac & e & Hr & Ha & Hs & Hm & Hb & Hi & Hq).
  unfold dist_pipe_terminated.
  destruct (leave_group p (dpipes d) (matching d)) as [[a1 m1]|]; [|done]. cbn [mbind res_bind] in *.
  destruct (leave_group p a1 (dactive d)) as [[a2 ac2]|]; [|done]. cbn [mbind res_bind] in *.
  destruct (leave_group p a2 (eligible d)) as [[a3 e3]|]; [|done]. cbn [mbind res_bind] in *.
  injection Hr as -> -> -> ->.
  destruct (aerase_spec a p Ha) as (a' & -> & Ha' & Hs' & Hit' & Hx'); [by apply Hm|]. cbn [mbind res_bind].
  assert (p ∈ items a) as Hpa by (by apply Hm). pose proof (idx_lt a p Ha Hpa).
  eexists. split; [done|]. split; [constructor; cbn; [done|lia|lia|]|].
  { intros Hmo. apply Hi. by apply Hd. }
  split; [done|]. cbn. split; [intros q; by rewrite Hit', Hm|].
  intros q Hne. unfold matched, activep, eligiblep, in_group. cbn. rewrite Hit', Hm.
  destruct (decide (q ∈ items (dpipes d))) as [Hqi|Hqi]; [|clear -Hqi; naive_solver].
  destruct (Hq q Hqi Hne) as (Q1 & Q2 & Q3 & _). rewrite <-Q1, <-Q2, <-Q3.
  assert (q ∈ items a) as Hqa by (by apply Hm). pose proof (idx_lt a q Ha Hqa).
  rewrite Hx' by done. assert (idx a q ≠ idx a p) by (intros He; by apply Hne, (idx_inj a)).
  case_decide; split_and!; split; intros [? ?]; repeat split; try done; lia.
Qed.

Lemma dist_attach_spec p d : dist_wf d → p ∉ items (dpipes d) → ∃ d',
  dist_attach p d = Ok d' ∧ dist_wf d' ∧ dmore d' = dmore d ∧
  (∀ q, q ∈ items (dpipes d') ↔ q ∈ items (dpipes d) ∨ q = p) ∧
  ∀ q, (matched d' q ↔ matched d q) ∧ (activep d' q ↔ activep d q ∨ (q = p ∧ dmore d = false)) ∧
    (eligiblep d' q ↔ eligiblep d q ∨ q = p).
Proof.
  intros [Ha Hg Hs Hid] Hp. unfold dist_attach.
  destruct (apush_back_spec (dpipes d) p Ha Hp) as (Hb & Hbs & Hbi & Hbp & Hbq).
  set (b := apush_back p (dpipes d)) in *.
  assert (∀ i, (i ≤ asize (dpipes d))%nat → ∃ a, aswap i (asize b - 1) b = Ok a ∧ array_wf a ∧ asize a = asize b ∧
    (∀ q, q ∈ items a ↔ q ∈ items (dpipes d) ∨ q = p) ∧ idx a p = i ∧
    ∀ q k, q ∈ items (dpipes d) → (k ≤ i → idx a q < k ↔ idx (dpipes d) q < k)%nat ∧
      (idx a q < Datatypes.S i ↔ idx (dpipes d) q < i)%nat) as Hswap.
  { intros i Hi. destruct (aswap_idx b i (asize b - 1) Hb) as (a & Hr & Ha' & Hsz & Hm & Hx); [lia..|].
    exists a. split; [done|]. do 2 (split; [done|]). split; [intros q; by rewrite Hm, Hbi|].
    split; [rewrite Hx, Hbp by (apply Hbi; by right); unfold exchange; repeat case_decide; lia|].
    intros q k Hq. assert (q ≠ p) by (by intros ->). rewrite Hx, Hbq by (done || (apply Hbi; by left)).
    pose proof (idx_lt (dpipes d) q Ha Hq). unfold exchange. repeat case_decide; lia. }
  assert (∀ k q, in_group d k q → q ∈ items (dpipes d)) as Hin by (by intros k q [? _]).
  destruct (dmore d) eqn:Hmo.
  - destruct (Hswap (eligible d)) as (a & -> & Ha' & Hsz & Hm & Hx & Hq); [lia|]. cbn [mbind res_bind].
    eexists. split; [done|]. split; [constructor; cbn; [done|lia|lia|done]|]. split; [done|]. split; [done|].
    intros q. unfold matched, activep, eligiblep, in_group. cbn. rewrite Hm.
    destruct (decide (q = p)) as [->|Hne].
    + rewrite Hx. split_and!; split; intros; try lia; naive_solver lia.
    + destruct (decide (q ∈ items (dpipes d))) as [Hqi|Hqi]; [|clear -Hqi Hne; naive_solver].
      rewrite (proj1 (Hq q (matching d) Hqi)), (proj1 (Hq q (dactive d) Hqi)), (proj2 (Hq q 0%nat Hqi)) by lia.
      clear -Hqi Hne. naive_solver.
  - specialize (Hid eq_refl). destruct (Hswap (dactive d)) as (a & -> & Ha' & Hsz & Hm & Hx & Hq); [lia|]. cbn [mbind res_bind].
    eexists. split; [done|]. split; [constructor; cbn; [done|lia|lia|lia]|]. split; [done|]. split; [done|].
    intros q. unfold matched, activep, eligiblep, in_group. cbn. rewrite Hm, <-Hid.
    destruct (decide (q = p)) as [->|Hne].
    + rewrite Hx. split_and!; split; intros; try lia; naive_solver lia.
    + destruct (decide (q ∈ items (dpipes d))) as [Hqi|Hqi]; [|clear -Hqi Hne; naive_solver].
      rewrite (proj1 (Hq q (matching d) Hqi)), (proj2 (Hq q 0%nat Hqi)) by lia.
      clear -Hqi Hne. naive_solver.
Qed.

Lemma dist_activated_spec p d : dist_wf d → p ∈ items (dpipes d) → ¬ eligiblep d p → ∃ d',
  dist_activated p d = Ok d' ∧ dist_wf d' ∧ dmore d' = dmore d ∧
  (∀ q, q ∈ items (dpipes d') ↔ q ∈ items (dpipes d)) ∧
  ∀ q, (matched d' q ↔ matched d q) ∧ (activep d' q ↔ activep d q ∨ (q = p ∧ dmore d = false)) ∧
    (eligiblep d' q ↔ eligiblep d q ∨ q = p).
Proof.
  intros [Ha Hg Hs Hid] Hp Hne. unfold dist_activated. rewrite aindex_idx by done. cbn [mbind res_bind].
  assert (eligible d ≤ idx (dpipes d) p)%nat as Hle.
  { destruct (decide (idx (dpipes d) p < eligible d)%nat); [|lia]. by destruct Hne. }
  pose proof (idx_lt (dpipes d) p Ha Hp).
  destruct (aswap_idx (dpipes d) (idx (dpipes d) p) (eligible d) Ha) as (a & -> & Ha' & Hsz & Hm & Hx); [lia..|].
  cbn [mbind res_bind].
  assert (∀ q k, q ∈ items (dpipes d) → (k ≤ eligible d → idx a q < k ↔ idx (dpipes d) q < k)%nat) as Hk.
  { intros q k Hq Hk. rewrite Hx by done. apply exchange_lt. lia. }
  assert (∀ q, q ∈ items (dpipes d) →
    (idx a q < Datatypes.S (eligible d) ↔ idx (dpipes d) q < eligible d ∨ q = p)%nat) as He.
  { intros q Hq. rewrite Hx by done. assert (idx (dpipes d) q = idx (dpipes d) p ↔ q = p) as <-
      by (split; [by apply idx_inj|by intros ->]). unfold exchange. repeat case_decide; lia. }
  destruct (dmore d) eqn:Hmo.
  - eexists. split; [done|]. split; [constructor; cbn; [done|lia|lia|done]|]. split; [done|]. split; [done|].
    intros q. unfold matched, activep, eligiblep, in_group. cbn. rewrite Hm.
    destruct (decide (q ∈ items (dpipes d))) as [Hqi|Hqi]; [|clear -Hqi Hp; naive_solver].
    rewrite !Hk, He by (done || lia). clear -Hqi. naive_solver.
  - specialize (Hid eq_refl). rewrite Nat.sub_succ, Nat.sub_0_r.
    destruct (aswap_idx a (eligible d) (dactive d) Ha') as (a2 & -> & Ha2 & Hsz2 & Hm2 & Hx2); [lia..|].
    cbn [mbind res_bind]. assert (∀ q, q ∈ items (dpipes d) → idx a2 q = idx a q) as Hsame.
    { intros q Hq. rewrite Hx2 by (by apply Hm). unfold exchange. rewrite Hid. repeat case_decide; congruence. }
    eexists. split; [done|]. split; [constructor; cbn; [done|lia|lia|lia]|]. split; [done|].
    split; [intros q; by rewrite <-Hm|].
    intros q. unfold matched, activep, eligiblep, in_group. cbn. rewrite Hm2, Hm, Hid.
    destruct (decide (q ∈ items (dpipes d))) as [Hqi|Hqi]; [|clear -Hqi Hp; naive_solver].
    rewrite Hsame, !Hk, He by (done || lia). clear -Hqi. naive_solver.
Qed.

(** ** Sending messages *)

#[global] Instance in_group_dec d n p : Decision (in_group d n p).
Proof. unfold in_group. apply _. Defined.
#[global] Instance eligiblep_dec d p : Decision (eligiblep d p) := in_group_dec d (eligible d) p.

(** The frames of a message. *)
Fixpoint frames (m : list string) : list frame_t :=
  match m with
  | [] => []
  | [f] => [(f, false)]
  | f :: m => (f, true) :: frames m
  end.

Section send.
Context {S : Type} `{HP : PipeLaws S}.
Implicit Types (s : S) (d : dist_t).

Lemma send_to_matching_spec data more d s : dist_wf d → all_valid s d → ∃ d' s',
  send_to_matching data more d s = (Ok d', s') ∧ dist_wf d' ∧ all_valid s' d' ∧ dmore d' = more ∧
  (∀ q, q ∈ items (dpipes d') ↔ q ∈ items (dpipes d)) ∧
  ∀ q, q ∈ items (dpipes d) →
    (matched d q → room s q = true → written s' q = written s q ++ [(data, more)]) ∧
    (¬ matched d q ∨ room s q = false → written s' q = written s q) ∧
    (¬ matched d q ∨ room s q = false ∨ more = true → room s' q = room s q) ∧
    avail s' q = avail s q ∧
    (matched d' q ↔ matched d q ∧ room s q = true) ∧
    (eligiblep d' q ↔ eligiblep d q ∧ (matched d q → room s q = true)) ∧
    (activep d' q ↔ if more then activep d q ∧ (matched d q → room s q = true) else eligiblep d' q).
Proof.
  intros Hd Hv. unfold send_to_matching.
  destruct (distribute_spec data more d s Hd Hv) as (f & d1 & s1 & Hr & Hd1 & Hv1 & Hmo & Hit & Hf & Hq).
  rewrite (bind_Ok _ _ _ _ _ Hr). eexists _, s1. split; [done|].
  pose proof Hd1 as [Ha Hg Hs Hid].
  split; [constructor; cbn; [done|destruct more; lia|done|intros ->; done]|].
  split; [done|]. split; [done|]. split; [done|]. intros q Hqi.
  destruct (Hq q Hqi) as (W & W' & R & A & M & C & E).
  unfold matched, activep, eligiblep, in_group in M, C, E |- *. cbn. split_and!; try done.
  - rewrite M. clear. naive_solver.
  - destruct more; [done|]. done.
Qed.

(** A message of one frame to all pipes. *)
Lemma send_to_all_spec data d s : dist_wf d → dmore d = false → all_valid s d → ∃ d' s',
  send_to_all data false d s = (Ok d', s') ∧ dist_wf d' ∧ all_valid s' d' ∧ dmore d' = false ∧
  (∀ q, q ∈ items (dpipes d') ↔ q ∈ items (dpipes d)) ∧
  ∀ q, q ∈ items (dpipes d) →
    written s' q = written s q ++ (if decide (eligiblep d q ∧ room s q = true) then [(data, false)] else []) ∧
    avail s' q = avail s q ∧ (eligiblep d' q ↔ eligiblep d q ∧ room s q = true).
Proof.
  intros Hd Hmo Hv. unfold send_to_all. pose proof Hd as [Ha Hg Hs Hid]. specialize (Hid Hmo).
  destruct (send_to_matching_spec data false (mkDist (dpipes d) (dactive d) (dactive d) (eligible d) (dmore d)) s)
    as (d' & s' & Hr & Hd' & Hv' & Hmo' & Hit & Hq); [constructor; cbn; [done|lia|done|done]|done|].
  exists d', s'. split; [done|]. do 4 (split; [done|]). intros q Hqi.
  destruct (Hq q Hqi) as (W & W' & _ & A & _ & E & _).
  assert (matched (mkDist (dpipes d) (dactive d) (dactive d) (eligible d) (dmore d)) q ↔ eligiblep d q) as Hm
    by (unfold matched, eligiblep, in_group; cbn; by rewrite Hid).
  rewrite Hm in *. split; [|split; [done|]].
  - case_decide as Hc; [apply W; apply Hc|]. rewrite app_nil_r. apply W'.
    destruct (room s q); [left|by right]. by intros ?; apply Hc.
  - rewrite E. unfold eligiblep, in_group. cbn. clear. tauto.
Qed.

(** The frames of a message, one after the other. *)
Fixpoint send_frames (m : list string) (d : dist_t) : M S dist_t :=
  match m with
  | [] => mret d
  | f :: m => d ← send_to_matching f (bool_decide (m ≠ [])) d; send_frames m d
  end.

(** A message goes as a whole to the matching pipes that have room when it starts,
    and not at all to others. *)
Lemma send_frames_spec m d s : m ≠ [] → dist_wf d → all_valid s d → ∃ d' s',
  send_frames m d s = (Ok d', s') ∧ dist_wf d' ∧ all_valid s' d' ∧ dmore d' = false ∧
  (∀ q, q ∈ items (dpipes d') ↔ q ∈ items (dpipes d)) ∧
  ∀ q, q ∈ items (dpipes d) →
    (matched d q → room s q = true → written s' q = written s q ++ frames m) ∧
    (¬ matched d q ∨ room s q = false → written s' q = written s q) ∧
    avail s' q = avail s q ∧
    (eligiblep d' q ↔ eligiblep d q ∧ (matched d q → room s q = true)).
Proof.
  revert d s. induction m as [|f m IH]; intros d s Hne Hd Hv; [done|]. cbn [send_frames].
  destruct (send_to_matching_spec f (bool_decide (m ≠ [])) d s Hd Hv) as (d1 & s1 & Hr & Hd1 & Hv1 & Hmo & Hit & Hq).
  rewrite (bind_Ok _ _ _ _ _ Hr). destruct m as [|f2 m].
  - exists d1, s1. do 4 (split; [done|]). split; [done|]. intros q Hqi.
    destruct (Hq q Hqi) as (W & W' & R & A & M & E & _). done.
  - destruct (IH d1 s1) as (d2 & s2 & Hr2 & Hd2 & Hv2 & Hmo2 & Hit2 & Hq2); [done..|].
    rewrite bool_decide_true in Hq by done.
    exists d2, s2. do 4 (split; [done|]). split; [intros q; by rewrite Hit2, Hit|]. intros q Hqi.
    destruct (Hq q Hqi) as (W & W' & R & A & M & E & _).
    destruct (Hq2 q) as (W2 & W2' & A2 & E2); [by apply Hit|].
    assert (room s1 q = room s q) as Hrm by (apply R; auto). rewrite Hrm in *. split_and!.
    + intros Hm Hr'. rewrite W2, W by (try done; by apply M). by rewrite <-app_assoc.
    + intros Hm. rewrite W2', W' by (try done; rewrite M; clear -Hm; destruct (room s q); naive_solver). done.
    + congruence.
    + rewrite E2, E, M. clear. naive_solver.
Qed.

End send.
