(* ===== verification/ZmqFq.v ===== *)
(** * Receiving from many pipes

    [zmq::fq_t] (zeromq-4.0.4/src/fq.cpp): a subscriber reads messages from its
    publishers in turn.  Active pipes come first in the array; a pipe that has
    nothing to read becomes passive until its writer wakes it.  The frames of a
    message are read one after the other, and a pipe with messages is not passed
    over: [turn] bounds the messages that are read before its own. *)

From S2P Require Import Prelude Monad ZmqNode ZmqMtrie ZmqArray ZmqDist.

Record fq_t := mkFq {
  fpipes : array_t;
  factive : nat;
  fcurrent : nat;
  fmore : bool
}.

Definition fq_new : fq_t := mkFq array_new 0 0 false.

Definition fq_attach (p : pipe_id) (d : fq_t) : res fq_t :=
  let a := apush_back p (fpipes d) in
  a ← aswap (factive d) (asize a - 1) a;
  Ok (mkFq a (S (factive d)) (fcurrent d) (fmore d)).

(** An active pipe is moved behind the active ones. *)
Definition fq_deactivate (i : nat) (d : fq_t) : res fq_t :=
  let n := (factive d - 1)%nat in
  a ← aswap i n (fpipes d);
  Ok (mkFq a n (if (fcurrent d =? n)%nat then 0 else fcurrent d)%nat (fmore d)).

Definition fq_pipe_terminated (p : pipe_id) (d : fq_t) : res fq_t :=
  i ← aindex (fpipes d) p;
  d ← (if (i <? factive d)%nat then fq_deactivate i d else Ok d);
  a ← aerase p (fpipes d);
  Ok (mkFq a (factive d) (fcurrent d) (fmore d)).

Definition fq_activated (p : pipe_id) (d : fq_t) : res fq_t :=
  i ← aindex (fpipes d) p;
  a ← aswap i (factive d) (fpipes d);
  Ok (mkFq a (S (factive d)) (fcurrent d) (fmore d)).

Section fq.
Context {S : Type} `{PipeIO S}.

(** [recvpipe]: the pipe and the frame. *)
Fixpoint fq_recv_loop (fuel : nat) (d : fq_t) : M S (option (pipe_id * frame_t) * fq_t) :=
  match fuel with
  | O => throw OutOfFuel
  | Datatypes.S fuel =>
      if (0 <? factive d)%nat then
        p ← lift (aget (fpipes d) (fcurrent d));
        fetched ← pread p;
        match fetched with
        | Some (data, more) =>
            let current := if more : bool then fcurrent d else ((fcurrent d + 1) mod factive d)%nat in
            mret (Some (p, (data, more)), mkFq (fpipes d) (factive d) current more)
        | None =>
            _ ← lift (zmq_assert "!more" (negb (fmore d)));
            d ← lift (fq_deactivate (fcurrent d) d);
            fq_recv_loop fuel d
        end
      else mret (None, d)
  end.

Definition fq_recvpipe (d : fq_t) : M S (option (pipe_id * frame_t) * fq_t) :=
  fq_recv_loop (Datatypes.S (factive d)) d.

Fixpoint fq_has_in_loop (fuel : nat) (d : fq_t) : M S (bool * fq_t) :=
  match fuel with
  | O => throw OutOfFuel
  | Datatypes.S fuel =>
      if (0 <? factive d)%nat then
        p ← lift (aget (fpipes d) (fcurrent d));
        ready ← pcheck_read p;
        if ready : bool then mret (true, d)
        else d ← lift (fq_deactivate (fcurrent d) d); fq_has_in_loop fuel d
      else mret (false, d)
  end.

Definition fq_has_in (d : fq_t) : M S (bool * fq_t) :=
  if fmore d then mret (true, d) else fq_has_in_loop (Datatypes.S (factive d)) d.

End fq.

(** ** Well-formed queues *)

Record fq_wf (d : fq_t) : Prop := mkFqWf {
  fq_array : array_wf (fpipes d);
  fq_size : (factive d ≤ asize (fpipes d))%nat;
  fq_current : (fcurrent d < factive d ∨ fcurrent d = 0 ∧ factive d = 0)%nat
}.

Definition reading (d : fq_t) (p : pipe_id) : Prop := p ∈ items (fpipes d) ∧ (idx (fpipes d) p < factive d)%nat.

(** How many active pipes come before this one. *)
Definition turn (d : fq_t) (p : pipe_id) : nat :=
  let i := idx (fpipes d) p in
  if decide (fcurrent d ≤ i)%nat then (i - fcurrent d)%nat else (i + factive d - fcurrent d)%nat.

Lemma fq_new_wf : fq_wf fq_new.
Proof. constructor; cbn; [apply array_new_wf|lia|lia]. Qed.

Lemma turn_0 d p : fq_wf d → reading d p → turn d p = 0%nat → idx (fpipes d) p = fcurrent d.
Proof. intros [_ _ Hc] [_ Hi]. unfold turn. case_decide; lia. Qed.

Lemma fq_attach_spec p d : fq_wf d → p ∉ items (fpipes d) → ∃ d',
  fq_attach p d = Ok d' ∧ fq_wf d' ∧ fmore d' = fmore d ∧
  (∀ q, q ∈ items (fpipes d') ↔ q ∈ items (fpipes d) ∨ q = p) ∧
  (∀ q, reading d' q ↔ reading d q ∨ q = p) ∧
  (∀ q, reading d q → idx (fpipes d') q = idx (fpipes d) q) ∧ fcurrent d' = fcurrent d.
Proof.
  intros [Ha Hs Hc] Hp. unfold fq_attach.
  destruct (apush_back_spec (fpipes d) p Ha Hp) as (Ha1 & Hs1 & Hm1 & Hip & Hiq).
  destruct (aswap_idx (apush_back p (fpipes d)) (factive d) (asize (apush_back p (fpipes d)) - 1) Ha1)
    as (a & -> & Ha' & Hs' & Hm & Hx); [lia..|].
  eexists. split; [done|]. split; [constructor; cbn; [done|lia|lia]|]. cbn.
  assert (∀ q, q ∈ items (fpipes d) → q ≠ p) as Hne by (intros q ? ->; done).
  assert (∀ q, q ∈ items a ↔ q ∈ items (fpipes d) ∨ q = p) as Hmem by (intros q; by rewrite Hm, Hm1).
  split; [done|]. split; [done|]. unfold reading. cbn. split; [|split; [|done]].
  - intros q. rewrite Hmem. destruct (decide (q = p)) as [->|Hq].
    + split; [by right|]. intros _. split; [by right|]. rewrite Hx, Hip by (apply Hm1; by right).
      unfold exchange. repeat case_decide; lia.
    + split.
      * intros [[Hi| ->] Hlt]; [|done]. left. split; [done|]. rewrite Hx, Hiq in Hlt by (done || apply Hm1; by left).
        pose proof (idx_lt _ q Ha Hi). unfold exchange in Hlt. repeat case_decide; lia.
      * intros [[Hi Hlt]| ->]; [|done]. split; [by left|]. rewrite Hx, Hiq by (done || apply Hm1; by left).
        unfold exchange. repeat case_decide; lia.
  - intros q [Hi Hlt]. rewrite Hx, Hiq by (apply Hne in Hi as ?; done || apply Hm1; by left).
    pose proof (idx_lt _ q Ha Hi). unfold exchange. repeat case_decide; lia.
Qed.

(** Any pipe can be deactivated; the others keep their place or come closer to
    their turn when it is the current one. *)
Lemma fq_deactivate_spec i d : fq_wf d → (i < factive d)%nat → ∃ d',
  fq_deactivate i d = Ok d' ∧ fq_wf d' ∧ fmore d' = fmore d ∧ factive d' = (factive d - 1)%nat ∧
  asize (fpipes d') = asize (fpipes d) ∧
  (∀ q, q ∈ items (fpipes d') ↔ q ∈ items (fpipes d)) ∧
  (∀ q, q ∈ items (fpipes d) → idx (fpipes d) q = i → idx (fpipes d') q = factive d') ∧
  (∀ q, reading d' q ↔ reading d q ∧ idx (fpipes d) q ≠ i) ∧
  (i = fcurrent d → ∀ q, reading d' q → (turn d' q ≤ turn d q)%nat).
Proof.
  intros [Ha Hs Hc] Hi. unfold fq_deactivate.
  destruct (aswap_idx (fpipes d) i (factive d - 1) Ha) as (a & -> & Ha' & Hs' & Hm & Hx); [lia..|].
  cbn [mbind res_bind]. eexists. split; [done|].
  assert ((if (fcurrent d =? factive d - 1)%nat then 0 else fcurrent d) < factive d - 1 ∨
    (if (fcurrent d =? factive d - 1)%nat then 0 else fcurrent d) = 0 ∧ factive d - 1 = 0)%nat as Hc'.
  { case (Nat.eqb_spec (fcurrent d) (factive d - 1)); lia. }
  split; [constructor; cbn; [done|lia|done]|]. cbn. do 4 (split; [done|]).
  assert (∀ q, reading (mkFq a (factive d - 1) (if (fcurrent d =? factive d - 1)%nat then 0%nat else fcurrent d)
    (fmore d)) q ↔ reading d q ∧ idx (fpipes d) q ≠ i) as Hrd.
  { intros q. unfold reading. cbn. rewrite Hm. split.
    - intros [Hq Hlt]. rewrite Hx in Hlt by done. unfold exchange in Hlt. repeat case_decide; split_and!; try done; lia.
    - intros [[Hq Hlt] Hne]. split; [done|]. rewrite Hx by done. unfold exchange. repeat case_decide; lia. }
  split; [|split; [exact Hrd|]].
  - intros q Hq He. rewrite Hx by done. unfold exchange. repeat case_decide; lia.
  - intros -> q [[Hq Hlt] Hne]%Hrd. unfold turn. cbn. rewrite Hx by done. unfold exchange.
    case (Nat.eqb_spec (fcurrent d) (factive d - 1)); intros; repeat case_decide; lia.
Qed.

Lemma fq_erase_spec p d : fq_wf d → p ∈ items (fpipes d) → (factive d ≤ idx (fpipes d) p)%nat → ∃ a,
  aerase p (fpipes d) = Ok a ∧ fq_wf (mkFq a (factive d) (fcurrent d) (fmore d)) ∧
  (∀ q, q ∈ items a ↔ q ∈ items (fpipes d) ∧ q ≠ p) ∧
  ∀ q, reading (mkFq a (factive d) (fcurrent d) (fmore d)) q ↔ reading d q.
Proof.
  intros [Ha Hs Hc] Hp Hi. destruct (aerase_spec (fpipes d) p Ha Hp) as (a & -> & Ha' & Hsz & Hm & Hx).
  pose proof (idx_lt _ p Ha Hp). exists a. split; [done|]. split; [constructor; cbn; [done|lia|done]|].
  split; [done|]. intros q. unfold reading. cbn. rewrite Hm. split.
  - intros [[Hq Hne] Hlt]. split; [done|]. rewrite Hx in Hlt by done. case_decide; lia.
  - intros [Hq Hlt]. assert (q ≠ p) by (intros ->; lia). split; [done|]. rewrite Hx by done. case_decide; lia.
Qed.

Lemma fq_terminated_spec p d : fq_wf d → p ∈ items (fpipes d) → ∃ d',
  fq_pipe_terminated p d = Ok d' ∧ fq_wf d' ∧ fmore d' = fmore d ∧
  (∀ q, q ∈ items (fpipes d') ↔ q ∈ items (fpipes d) ∧ q ≠ p) ∧
  ∀ q, reading d' q ↔ reading d q ∧ q ≠ p.
Proof.
  intros Hd Hp. unfold fq_pipe_terminated. rewrite aindex_idx by (apply Hd || done). cbn [mbind res_bind].
  assert (∀ q, q ∈ items (fpipes d) → idx (fpipes d) q = idx (fpipes d) p ↔ q = p) as Hinj.
  { intros q Hq. split; [by apply idx_inj; [apply Hd|..]|by intros ->]. }
  destruct (Nat.ltb_spec (idx (fpipes d) p) (factive d)) as [Hlt|Hge].
  - destruct (fq_deactivate_spec (idx (fpipes d) p) d Hd Hlt) as (d1 & -> & Hd1 & Hmo & _ & _ & Hm & Hlast & Hr & _).
    cbn [mbind res_bind]. destruct (fq_erase_spec p d1 Hd1) as (a & -> & Hw & Hm' & Hr'); [by apply Hm|by rewrite Hlast|].
    eexists. split; [done|]. split; [done|]. split; [done|]. cbn.
    split; [intros q; by rewrite Hm', Hm|]. intros q. rewrite Hr', Hr.
    split; intros [[Hq ?] Hne]; (split; [done|]); by rewrite Hinj in *.
  - cbn [mbind res_bind]. destruct (fq_erase_spec p d Hd Hp Hge) as (a & -> & Hw & Hm' & Hr').
    eexists. split; [done|]. split; [done|]. split; [done|]. split; [done|]. intros q. rewrite Hr'.
    split; [|by intros []]. intros [Hq Hlt]. split; [done|]. intros ->. lia.
Qed.

Lemma fq_activated_spec p d : fq_wf d → p ∈ items (fpipes d) → ¬ reading d p → ∃ d',
  fq_activated p d = Ok d' ∧ fq_wf d' ∧ fmore d' = fmore d ∧
  (∀ q, q ∈ items (fpipes d') ↔ q ∈ items (fpipes d)) ∧
  (∀ q, reading d' q ↔ reading d q ∨ q = p) ∧
  (∀ q, reading d q → idx (fpipes d') q = idx (fpipes d) q) ∧ fcurrent d' = fcurrent d.
Proof.
  intros [Ha Hs Hc] Hp Hn. unfold fq_activated. rewrite aindex_idx by done. cbn [mbind res_bind].
  pose proof (idx_lt _ p Ha Hp). assert (factive d ≤ idx (fpipes d) p)%nat as Hge.
  { destruct (decide (idx (fpipes d) p < factive d)%nat); [by destruct Hn|lia]. }
  destruct (aswap_idx (fpipes d) (idx (fpipes d) p) (factive d) Ha) as (a & -> & Ha' & Hs' & Hm & Hx); [lia..|].
  eexists. split; [done|]. split; [constructor; cbn; [done|lia|lia]|]. split; [done|]. split; [done|].
  unfold reading. cbn. split; [|split; [|done]].
  - intros q. rewrite Hm. assert (q ∈ items (fpipes d) → idx (fpipes d) q = idx (fpipes d) p ↔ q = p) as Hinj
      by (intros Hq; split; [by apply idx_inj|by intros ->]). split.
    + intros [Hq Hlt]. rewrite Hx in Hlt by done. rewrite <-(Hinj Hq). unfold exchange in Hlt.
      repeat case_decide; [by right|..]; left; (split; [done|lia]).
    + intros [[Hq Hlt]| ->]; (split; [done|]); rewrite Hx by done; unfold exchange; repeat case_decide; lia.
  - intros q [Hq Hlt]. rewrite Hx by done. unfold exchange. repeat case_decide; lia.
Qed.

(** ** What is read *)

(** The frames of one pipe in a list of frames read. *)
Definition of_pipe {A} (q : pipe_id) (l : list (pipe_id * A)) : list A := (filter (λ x, x.1 = q) l).*2.

Lemma of_pipe_app {A} q (l l' : list (pipe_id * A)) : of_pipe q (l ++ l') = of_pipe q l ++ of_pipe q l'.
Proof. unfold of_pipe. by rewrite filter_app, fmap_app. Qed.

Lemma of_pipe_here {A} q (x : A) l : of_pipe q ((q, x) :: l) = x :: of_pipe q l.
Proof. unfold of_pipe. by rewrite filter_cons_True. Qed.

Lemma of_pipe_other {A} q p (x : A) l : p ≠ q → of_pipe q ((p, x) :: l) = of_pipe q l.
Proof. intros. unfold of_pipe. by rewrite filter_cons_False. Qed.

Lemma of_pipe_fmap {A} q p (l : list A) : of_pipe q (pair p <$> l) = if decide (p = q) then l else [].
Proof.
  induction l as [|x l IH]; [by destruct (decide _)|]. rewrite fmap_cons. case_decide as Hp.
  - subst. by rewrite of_pipe_here, IH.
  - by rewrite of_pipe_other, IH.
Qed.

Section recv.
Context {S : Type} `{HP : PipeLaws S}.
Implicit Types (s : S) (d : fq_t).

(** These frames, in this order, were taken from the pipes; nothing else changed. *)
Definition taken (l : list (pipe_id * frame_t)) s s' : Prop := ∀ q,
  (valid s q → valid s' q) ∧ room s' q = room s q ∧ written s' q = written s q ∧
  avail s q = of_pipe q l ++ avail s' q.

Lemma taken_nil s : taken [] s s.
Proof. done. Qed.

Lemma taken_app l l' s s1 s2 : taken l s s1 → taken l' s1 s2 → taken (l ++ l') s s2.
Proof.
  intros H1 H2 q. destruct (H1 q) as (V1 & R1 & W1 & A1), (H2 q) as (V2 & R2 & W2 & A2).
  split; [auto|]. split; [congruence|]. split; [congruence|]. by rewrite of_pipe_app, A1, A2, app_assoc.
Qed.

Lemma pread_taken s p : valid s p → ∃ s', pread p s = (Ok (head (avail s p)), s') ∧
  taken (match head (avail s p) with Some f => [(p, f)] | None => [] end) s s'.
Proof.
  intros Hv. destruct (pread_law s p Hv) as (s' & Hr & Hp & Ho & Hq). exists s'. split; [done|].
  intros q. destruct (Hq q) as (V & R & W). split_and!; [done..|].
  destruct (decide (q = p)) as [->|Hne].
  - rewrite Hp. destruct (avail s p) as [|f l]; [done|]. simpl. by rewrite of_pipe_here.
  - rewrite (Ho q Hne). destruct (avail s p) as [|f l]; [done|]. simpl. by rewrite of_pipe_other.
Qed.

Definition fq_valid s d : Prop := ∀ p, p ∈ items (fpipes d) → valid s p.

(** The pipe a message is being read from. *)
Definition at_pipe d p : Prop := reading d p ∧ idx (fpipes d) p = fcurrent d.

(** What a call gives. *)
Definition fq_result d s (r : option (pipe_id * frame_t)) d' s' : Prop :=
  fq_wf d' ∧ (∀ q, q ∈ items (fpipes d') ↔ q ∈ items (fpipes d)) ∧ fq_valid s' d' ∧
  taken (match r with Some x => [x] | None => [] end) s s' ∧
  (∀ q, reading d' q → reading d q) ∧
  (∀ q, reading d q → avail s q ≠ [] → reading d' q) ∧
  match r with
  | None => fmore d' = fmore d ∧ ∀ q, reading d q → avail s q = []
  | Some (p, (data, more)) => reading d p ∧ fmore d' = more ∧ (more = true → at_pipe d' p) ∧
      ((∃ c, at_pipe d c ∧ avail s c ≠ []) → at_pipe d p) ∧
      ∀ q, reading d' q → q ≠ p → (turn d' q + (if more then 0 else 1) ≤ turn d q)%nat
  end.

Lemma turn_next a n c p q : array_wf a → p ∈ items a → q ∈ items a → q ≠ p → idx a p = c → (c < n)%nat →
  (idx a q < n)%nat → (turn (mkFq a n ((c + 1) mod n) false) q + 1 ≤ turn (mkFq a n c false) q)%nat.
Proof.
  intros Ha Hp Hq Hne Hc Hlt Hi. unfold turn. cbn [fpipes factive fcurrent].
  assert (idx a q ≠ c) by (intros He; apply Hne, (idx_inj a q p Ha Hq Hp); congruence).
  destruct (decide (c + 1 = n)%nat) as [He|He].
  - rewrite He, Nat.Div0.mod_same. repeat case_decide; lia.
  - rewrite Nat.mod_small by lia. repeat case_decide; lia.
Qed.

Lemma fq_recv_loop_spec fuel d s : fq_wf d → fq_valid s d → (factive d < fuel)%nat →
  (fmore d = true → ∃ c, at_pipe d c ∧ avail s c ≠ []) → ∃ r d' s',
  fq_recv_loop fuel d s = (Ok (r, d'), s') ∧ fq_result d s r d' s'.
Proof.
  revert d s. induction fuel as [|fuel IH]; intros d s Hd Hv Hf Hmore; [lia|]. cbn [fq_recv_loop].
  pose proof Hd as [Ha Hs Hc]. destruct (Nat.ltb_spec 0 (factive d)) as [Hpos|Hz]; last first.
  { exists None, d, s. split; [done|]. split_and!; try done. intros q [_ ?]. lia. }
  destruct (aget_idx (fpipes d) (fcurrent d) Ha) as (p & -> & Hp & Hip); [lia|]. rewrite run_lift_Ok.
  destruct (pread_taken s p (Hv p Hp)) as (s1 & Hr & Ht). rewrite (bind_Ok _ _ _ _ _ Hr).
  destruct (avail s p) as [|[data more] rest] eqn:Hav; cbn [head] in Ht |- *.
  - assert (fmore d = false) as Hmo.
    { destruct (fmore d) eqn:Hm; [|done]. destruct (Hmore eq_refl) as (c & [[Hci _] Hcc] & Hca).
      destruct Hca. rewrite (idx_inj _ c p Ha Hci Hp) by congruence. done. }
    rewrite Hmo. cbn [negb zmq_assert]. rewrite run_lift_Ok.
    destruct (fq_deactivate_spec (fcurrent d) d Hd) as (d1 & -> & Hd1 & Hmo1 & Ha1 & _ & Hm1 & _ & Hr1 & Ht1); [lia|].
    rewrite run_lift_Ok.
    assert (∀ q, avail s1 q = avail s q) as Hsame by (intros q; by destruct (Ht q) as (_ & _ & _ & ->)).
    assert (∀ q, reading d q → avail s q ≠ [] → reading d1 q) as Hstay.
    { intros q Hq Hne. apply Hr1. split; [done|]. intros He. apply Hne.
      rewrite (idx_inj _ q p Ha (proj1 Hq) Hp) by congruence. done. }
    destruct (IH d1 s1) as (r & d2 & s2 & -> & Hd2 & Hm2 & Hv2 & Ht2 & Hrd & Hkeep & Hres); [done| |lia|congruence|].
    { intros q Hq. apply Ht, Hv. by apply Hm1. }
    exists r, d2, s2. split; [done|]. split_and!; try done.
    + intros q. by rewrite Hm2, Hm1.
    + apply (taken_app [] _ s s1 s2 Ht Ht2).
    + intros q Hq. by apply Hr1, Hrd.
    + intros q Hq Hne. apply Hkeep; [by apply Hstay|by rewrite Hsame].
    + destruct r as [[p' [data more]]|].
      * destruct Hres as (Hp' & Hmo' & Hat & _ & Hturn). split; [by apply Hr1|]. split; [done|]. split; [done|].
        split.
        { intros (c & [Hcr Hcc] & Hca). apply Hstay in Hca; [|done]. apply Hr1 in Hca as [_ ?]. done. }
        intros q Hq Hne. etrans; [by apply Hturn|]. apply Ht1; [done|]. by apply Hrd.
      * destruct Hres as (Hmo' & Hnone). split; [congruence|]. intros q Hq.
        destruct (avail s q) eqn:He; [done|]. rewrite <-He, <-Hsame. apply Hnone, Hstay; [done|by rewrite He].
  - exists (Some (p, (data, more))). eexists _, s1. split; [done|].
    assert (reading d p) as Hpr by (split; [done|lia]). split_and!; try done.
    + constructor; cbn; [done|done|]. left. destruct more; [lia|]. apply Nat.mod_upper_bound. lia.
    + intros q Hq. apply Ht. by apply Hv.
    + intros ->. split; [done|by cbn].
    + intros q Hq Hne. destruct more; [unfold turn; cbn; lia|]. destruct Hq as [Hq1 Hq2].
      apply (turn_next _ _ _ p q); try done. lia.
Qed.

Lemma fq_recvpipe_spec d s : fq_wf d → fq_valid s d →
  (fmore d = true → ∃ c, at_pipe d c ∧ avail s c ≠ []) → ∃ r d' s',
  fq_recvpipe d s = (Ok (r, d'), s') ∧ fq_result d s r d' s'.
Proof. intros. apply fq_recv_loop_spec; [done..|lia|done]. Qed.

(** The queue and its pipes between two calls. *)
Record fq_inv d s : Prop := mkFqInv {
  fq_inv_wf : fq_wf d;
  fq_inv_valid : fq_valid s d;
  fq_inv_more : fmore d = true → ∃ c, at_pipe d c ∧ avail s c ≠ []
}.

Lemma fq_result_inv d s r d' s' : fq_valid s d → fq_result d s r d' s' → fmore d' = true →
  (fmore d = true → ∃ c, at_pipe d c ∧ avail s c ≠ []) → ∃ c, at_pipe d' c ∧ avail s' c ≠ [].
Proof.
  intros Hv (Hd' & Hm & Hv' & Ht & _ & _ & Hr) Hmo' Hmo. destruct r as [[p [data more]]|].
  - destruct Hr as (Hp & Hfm & Hat & _). exists p. split; [apply Hat; congruence|].
    destruct (Ht p) as (_ & _ & _ & Ha). rewrite of_pipe_here in Ha. intros He. rewrite He in Ha.
    pose proof (avail_whole s p (Hv p (proj1 Hp))) as Hw. specialize (Hw (data, more)). rewrite Ha in Hw.
    specialize (Hw eq_refl). simpl in Hw. congruence.
  - destruct Hr as (Hfm & Hnone). destruct Hmo as (c & [Hc _] & Hca); [congruence|]. destruct Hca. by apply Hnone.
Qed.

(** Receiving never fails and keeps the invariant. *)
Lemma fq_recv_inv d s : fq_inv d s → ∃ r d' s',
  fq_recvpipe d s = (Ok (r, d'), s') ∧ fq_result d s r d' s' ∧ fq_inv d' s'.
Proof.
  intros [Hd Hv Hm]. destruct (fq_recvpipe_spec d s Hd Hv Hm) as (r & d' & s' & Hr & Hres).
  exists r, d', s'. split; [done|]. split; [done|].
  constructor; [apply Hres|apply Hres|]. intros Hmo. by eapply fq_result_inv.
Qed.

(** In the middle of a message the next frame is the next one of its pipe. *)
Lemma fq_recv_rest d s p : fq_inv d s → fmore d = true → at_pipe d p → ∃ f d' s',
  fq_recvpipe d s = (Ok (Some (p, f), d'), s') ∧ taken [(p, f)] s s' ∧ fq_result d s (Some (p, f)) d' s' ∧ fq_inv d' s'.
Proof.
  intros Hi Hmo Hp. pose proof Hi as [Hd Hv Hm].
  destruct (fq_recv_inv d s Hi) as (r & d' & s' & Hr & Hres & Hi').
  assert (∃ c, at_pipe d c ∧ avail s c ≠ []) as Hc by auto.
  destruct Hres as (Hd' & Hm' & Hv' & Ht & Hrd & Hkeep & Hx). destruct r as [[p' [data more]]|]; last first.
  { destruct Hc as (c & [Hc _] & Hne). destruct Hne. by apply Hx. }
  assert (p' = p) as ->.
  { destruct Hx as (_ & _ & _ & Hat & _). destruct (Hat Hc) as [[Hpi _] He], Hp as [[Hpi' _] He'].
    apply (idx_inj (fpipes d)); [apply Hd|done|done|congruence]. }
  exists (data, more), d', s'. done.
Qed.

Lemma fq_has_in_loop_spec fuel d s : fq_wf d → fq_valid s d → (factive d < fuel)%nat → ∃ b d' s',
  fq_has_in_loop fuel d s = (Ok (b, d'), s') ∧ fq_wf d' ∧ (∀ q, q ∈ items (fpipes d') ↔ q ∈ items (fpipes d)) ∧
  taken [] s s' ∧ fmore d' = fmore d ∧ (∀ q, reading d' q → reading d q) ∧
  (∀ q, reading d q → avail s q ≠ [] → reading d' q) ∧ (b = true ↔ ∃ q, reading d q ∧ avail s q ≠ []).
Proof.
  revert d s. induction fuel as [|fuel IH]; intros d s Hd Hv Hf; [lia|]. cbn [fq_has_in_loop].
  pose proof Hd as [Ha Hs Hc]. destruct (Nat.ltb_spec 0 (factive d)) as [Hpos|Hz]; last first.
  { exists false, d, s. split_and!; try done. split; [done|]. intros (q & [_ ?] & _). lia. }
  destruct (aget_idx (fpipes d) (fcurrent d) Ha) as (p & -> & Hp & Hip); [lia|]. rewrite run_lift_Ok.
  destruct (pcheck_read_law s p (Hv p Hp)) as (s1 & Hr & Hq). rewrite (bind_Ok _ _ _ _ _ Hr).
  assert (taken [] s s1) as Ht by (intros q; destruct (Hq q) as (? & -> & -> & ->); done).
  case_bool_decide as Hav.
  - exists true, d, s1. split_and!; try done. split; [|done]. intros _. exists p. split; [split; [done|lia]|done].
  - destruct (fq_deactivate_spec (fcurrent d) d Hd) as (d1 & -> & Hd1 & Hmo1 & Ha1 & _ & Hm1 & _ & Hr1 & _); [lia|].
    rewrite run_lift_Ok. assert (∀ q, reading d q → avail s q ≠ [] → reading d1 q) as Hstay.
    { intros q Hqr Hne. apply Hr1. split; [done|]. intros He. apply Hne.
      rewrite (idx_inj _ q p Ha (proj1 Hqr) Hp) by congruence. done. }
    destruct (IH d1 s1) as (b & d2 & s2 & -> & Hd2 & Hm2 & Ht2 & Hmo2 & Hrd & Hkeep & Hb); [done| |lia|].
    { intros q Hqi. apply Ht, Hv. by apply Hm1. }
    assert (∀ q, avail s1 q = avail s q) as Hsame by (intros q; apply Hq).
    exists b, d2, s2. split_and!; try done; [intros q; by rewrite Hm2, Hm1|by eapply (taken_app [] [])|congruence|..].
    + intros q Hqr. by apply Hr1, Hrd.
    + intros q Hqr Hne. apply Hkeep; [by apply Hstay|by rewrite Hsame].
    + rewrite Hb. split; intros (q & Hqr & Hne); exists q; rewrite Hsame in *; [split; [by apply Hr1|done]|auto].
Qed.

Lemma fq_has_in_spec d s : fq_inv d s → ∃ b d' s', fq_has_in d s = (Ok (b, d'), s') ∧ taken [] s s' ∧ fq_wf d' ∧
  (∀ q, q ∈ items (fpipes d') ↔ q ∈ items (fpipes d)) ∧ fmore d' = fmore d ∧
  (∀ q, reading d q → avail s q ≠ [] → reading d' q) ∧ (b = true ↔ ∃ q, reading d q ∧ avail s q ≠ []).
Proof.
  intros [Hd Hv Hm]. unfold fq_has_in. destruct (fmore d) eqn:Hmo.
  - exists true, d, s. split_and!; try done. split; [|done]. intros _.
    destruct (Hm eq_refl) as (c & [Hc _] & Ha). eauto.
  - destruct (fq_has_in_loop_spec (Datatypes.S (factive d)) d s Hd Hv) as
      (b & d' & s' & -> & Hd' & Hm' & Ht & Hf & _ & Hk & Hb); [lia|]. exists b, d', s'. split_and!; try done. congruence.
Qed.

(** Calls in a row: what they took, and that only empty pipes became passive. *)
Definition fq_step (l : list (pipe_id * frame_t)) d s d' s' : Prop :=
  (∀ q, q ∈ items (fpipes d') ↔ q ∈ items (fpipes d)) ∧ taken l s s' ∧
  (∀ q, reading d' q → reading d q) ∧ (∀ q, reading d q → avail s' q ≠ [] → reading d' q).

Lemma fq_step_nil d s : fq_step [] d s d s.
Proof. by split_and!. Qed.

Lemma fq_step_app l l' d s d1 s1 d2 s2 : fq_step l d s d1 s1 → fq_step l' d1 s1 d2 s2 →
  fq_step (l ++ l') d s d2 s2.
Proof.
  intros (I1 & T1 & R1 & K1) (I2 & T2 & R2 & K2).
  split; [intros q; by rewrite I2, I1|]. split; [by eapply taken_app|]. split; [auto|].
  intros q Hq Hne. apply K2; [|done]. apply K1; [done|]. destruct (T2 q) as (_ & _ & _ & ->).
  intros [_ ?]%app_eq_nil. done.
Qed.

Lemma fq_result_step d s r d' s' : fq_result d s r d' s' →
  fq_step (match r with Some x => [x] | None => [] end) d s d' s'.
Proof.
  intros (_ & I & _ & T & R & K & _). split; [done|]. split; [done|]. split; [done|].
  intros q Hq Hne. apply K; [done|]. destruct (T q) as (_ & _ & _ & ->). intros [_ ?]%app_eq_nil. done.
Qed.

(** The number of frames that can be read. *)
Definition waiting d s : nat := sum_list_with (λ p, length (avail s p)) (items (fpipes d)).

Lemma waiting_items d d' s : fq_wf d → fq_wf d' → (∀ q, q ∈ items (fpipes d') ↔ q ∈ items (fpipes d)) →
  waiting d' s = waiting d s.
Proof.
  intros [Ha _ _] [Ha' _ _] Hm. unfold waiting.
  by rewrite (NoDup_Permutation _ _ (array_nodup _ Ha') (array_nodup _ Ha) Hm).
Qed.

Lemma waiting_taken1 p f d s d' s' : fq_wf d → fq_wf d' → p ∈ items (fpipes d) → fq_step [(p, f)] d s d' s' →
  waiting d s = Datatypes.S (waiting d' s').
Proof.
  intros Hd Hd' Hp (Hm & Ht & _ & _). rewrite (waiting_items d d' s' Hd Hd' Hm). unfold waiting.
  pose proof (array_nodup _ (fq_array d Hd)) as Hnd.
  apply list_elem_of_split in Hp as (l1 & l2 & Hl). rewrite Hl in *.
  assert (∀ l : list pipe_id, p ∉ l → sum_list_with (λ q, length (avail s q)) l = sum_list_with (λ q, length (avail s' q)) l)
    as Hsame.
  { induction l as [|q l IH]; [done|]. intros [Hq Hn]%not_elem_of_cons. cbn. rewrite (IH Hn).
    destruct (Ht q) as (_ & _ & _ & ->). by rewrite of_pipe_other. }
  apply NoDup_app in Hnd as (_ & Hn1 & Hn2). apply NoDup_cons in Hn2 as [Hn2 _].
  rewrite !sum_list_with_app. cbn. rewrite Hsame, (Hsame l2) by (done || intros Hin; apply (Hn1 p Hin); left).
  destruct (Ht p) as (_ & _ & _ & ->). rewrite of_pipe_here. cbn. lia.
Qed.

(** Frames received by [n] calls in a row. *)
Fixpoint fq_run (n : nat) d : M S (list (pipe_id * frame_t) * fq_t) :=
  match n with
  | O => mret ([], d)
  | Datatypes.S n =>
      '(r, d) ← fq_recvpipe d;
      match r with
      | None => mret ([], d)
      | Some x => '(l, d) ← fq_run n d; mret (x :: l, d)
      end
  end.

(** Complete messages among them. *)
Definition finished (l : list (pipe_id * frame_t)) : nat := length (filter (λ x, x.2.2 = false) l).

Lemma fq_run_ok n d s : fq_inv d s → ∃ l d' s', fq_run n d s = (Ok (l, d'), s').
Proof.
  revert d s. induction n as [|n IH]; intros d s Hi; cbn [fq_run]; [by eexists _, _, _|].
  destruct (fq_recv_inv d s Hi) as (r & d1 & s1 & Hr & _ & Hi1). rewrite (bind_Ok _ _ _ _ _ Hr).
  destruct r; [|by eexists _, _, _]. destruct (IH d1 s1 Hi1) as (l & d' & s' & Hn).
  rewrite (bind_Ok _ _ _ _ _ Hn). by eexists _, _, _.
Qed.

(** No pipe with messages waits for more than [turn] messages of the others. *)
Lemma fq_run_fair n d s p : fq_inv d s → reading d p → avail s p ≠ [] → ∃ l d' s',
  fq_run n d s = (Ok (l, d'), s') ∧ (of_pipe p l = [] → length l = n ∧ (finished l ≤ turn d p)%nat).
Proof.
  revert d s. induction n as [|n IH]; intros d s Hi Hp Ha; cbn [fq_run].
  { exists [], d, s. split; [done|]. intros _. split; [done|]. cbn. lia. }
  destruct (fq_recv_inv d s Hi) as (r & d1 & s1 & Hr & (_ & _ & _ & Ht & _ & Hkeep & Hx) & Hi1).
  rewrite (bind_Ok _ _ _ _ _ Hr). destruct r as [[q [data more]]|]; last first.
  { destruct Hx as [_ Hx]. by rewrite Hx in Ha. }
  destruct (decide (q = p)) as [->|Hne].
  - destruct (fq_run_ok n d1 s1 Hi1) as (l & d' & s' & Hn).
    rewrite (bind_Ok _ _ _ _ _ Hn). eexists _, d', s'. split; [done|]. by rewrite of_pipe_here.
  - destruct Hx as (_ & _ & _ & _ & Hturn). specialize (Hkeep p Hp Ha).
    destruct (IH d1 s1 Hi1 Hkeep) as (l & d' & s' & Hn & Hl).
    { destruct (Ht p) as (_ & _ & _ & Hav). rewrite of_pipe_other in Hav by done. simpl in Hav. by rewrite <-Hav. }
    rewrite (bind_Ok _ _ _ _ _ Hn). eexists _, d', s'. split; [done|].
    rewrite of_pipe_other by done. intros [Hlen Hle]%Hl. split; [simpl; congruence|].
    specialize (Hturn p Hkeep (not_eq_sym Hne)). unfold finished in *. rewrite filter_cons. cbn [fst snd].
    destruct more; case_decide; try done; simpl; lia.
Qed.

End recv.

(** A pipe that terminates while a message of another one is being read can make
    the queue continue with a third one: the current index is reset although the
    current pipe was moved into the place of the terminated one. *)
Lemma fq_terminated_mixes p c d : fq_wf d → fmore d = true → at_pipe d c → reading d p →
  fcurrent d = (factive d - 1)%nat → (0 < idx (fpipes d) p < fcurrent d)%nat → ∃ d' o,
  fq_pipe_terminated p d = Ok d' ∧ fmore d' = true ∧ reading d' c ∧ at_pipe d' o ∧ o ≠ c.
Proof.
  intros Hd Hmo [Hc Hcc] Hp Hlast Hi. pose proof Hd as [Ha Hs _].
  destruct (fq_terminated_spec p d Hd (proj1 Hp)) as (d' & Hr & Hd' & Hmo' & Hm & Hrd).
  destruct (aget_idx (fpipes d) 0 Ha) as (o & _ & Ho & Hoi); [lia|].
  assert (c ≠ p ∧ o ≠ p ∧ o ≠ c) as (Hcp & Hop & Hoc) by (split_and!; intros ->; lia).
  exists d', o. split; [done|]. split; [congruence|]. split; [by apply Hrd|]. split; [|done].
  split; [apply Hrd; split; [split; [done|lia]|done]|].
  revert Hr. unfold fq_pipe_terminated, fq_deactivate. rewrite aindex_idx by (done || apply Hp). cbn [mbind res_bind].
  rewrite (proj2 (Nat.ltb_lt _ _)) by (by destruct Hp). rewrite (proj2 (Nat.eqb_eq _ _) Hlast).
  destruct (aswap_idx (fpipes d) (idx (fpipes d) p) (factive d - 1) Ha) as (a & -> & Ha1 & Hs1 & Hm1 & Hx1); [lia..|].
  cbn [mbind res_bind fpipes factive fcurrent fmore].
  destruct (aerase_spec a p Ha1) as (a' & -> & _ & Hs2 & _ & Hx2); [by apply Hm1; destruct Hp|].
  cbn [mbind res_bind]. intros [= <-]. cbn [fpipes fcurrent].
  rewrite Hx2, !Hx1, Hoi by (done || by apply Hm1 || by destruct Hp). unfold exchange. repeat case_decide; lia.
Qed.
