(* ===== verification/ZmqXsub.v ===== *)
(** * Subscriber sockets

    [zmq::xsub_t] and [zmq::sub_t] (zeromq-4.0.4/src/xsub.cpp, sub.cpp): a trie of
    subscriptions, which are sent to every publisher, and the messages of the
    publishers, of which the ones that no subscription matches are dropped whole.
    The loops of [xrecv] and [xhas_in] run until a message matches; their fuel is
    the number of frames that can be read. *)

From S2P Require Import Prelude Bytes Monad ZmqNode ZmqTrie ZmqMtrie ZmqArray ZmqDist ZmqFq.

Record xsub_t := mkXsub {
  subscriptions : trie_t;
  xfq : fq_t;
  xdist : dist_t;
  has_message : bool;
  message : frame_t;
  xmore : bool;
  xfilter : bool    (** [options.filter] *)
}.

Inductive errno := errEAGAIN | errEINVAL | errENOTSUP.

Definition empty_msg : frame_t := ("", false).

Definition xsub_new : xsub_t := mkXsub trie_new fq_new dist_new false empty_msg false false.
Definition sub_new : xsub_t := mkXsub trie_new fq_new dist_new false empty_msg false true.

Definition set_fq (q : fq_t) (x : xsub_t) : xsub_t :=
  mkXsub (subscriptions x) q (xdist x) (has_message x) (message x) (xmore x) (xfilter x).
Definition set_dist (d : dist_t) (x : xsub_t) : xsub_t :=
  mkXsub (subscriptions x) (xfq x) d (has_message x) (message x) (xmore x) (xfilter x).
Definition set_subscriptions (t : trie_t) (x : xsub_t) : xsub_t :=
  mkXsub t (xfq x) (xdist x) (has_message x) (message x) (xmore x) (xfilter x).
Definition set_message (h : bool) (m : frame_t) (x : xsub_t) : xsub_t :=
  mkXsub (subscriptions x) (xfq x) (xdist x) h m (xmore x) (xfilter x).
Definition set_xmore (b : bool) (x : xsub_t) : xsub_t :=
  mkXsub (subscriptions x) (xfq x) (xdist x) (has_message x) (message x) b (xfilter x).

Definition xsub_match (x : xsub_t) (data : string) : res bool := trie_check data (subscriptions x).

(** The first byte of a message to the publishers. *)
Definition unsubscribe_byte : ascii := byte_of 0.
Definition subscribe_byte : ascii := byte_of 1.

Section xsub.
Context {S : Type} `{PipeIO S}.

(** A subscription that finds no room is dropped. *)
Definition send_subscription (p : pipe_id) (data : string) (arg : M S unit) : M S unit :=
  _ ← arg; _ ← pwrite p (String subscribe_byte data) false; mret ().

Definition send_subscriptions (p : pipe_id) (t : trie_t) : M S unit :=
  send ← lift (trie_apply (send_subscription p) t (mret ()));
  _ ← send; pflush p.

Definition xsub_xattach_pipe (p : pipe_id) (x : xsub_t) : M S xsub_t :=
  q ← lift (fq_attach p (xfq x));
  d ← lift (dist_attach p (xdist x));
  _ ← send_subscriptions p (subscriptions x);
  mret (set_dist d (set_fq q x)).

Definition xsub_xread_activated (p : pipe_id) (x : xsub_t) : res xsub_t :=
  q ← fq_activated p (xfq x); Ok (set_fq q x).

Definition xsub_xwrite_activated (p : pipe_id) (x : xsub_t) : res xsub_t :=
  d ← dist_activated p (xdist x); Ok (set_dist d x).

Definition xsub_xpipe_terminated (p : pipe_id) (x : xsub_t) : res xsub_t :=
  q ← fq_pipe_terminated p (xfq x);
  d ← dist_pipe_terminated p (xdist x);
  Ok (set_dist d (set_fq q x)).

Definition xsub_xhiccuped (p : pipe_id) (x : xsub_t) : M S unit := send_subscriptions p (subscriptions x).

(** A message to the publishers; it always returns 0. *)
Definition xsub_xsend (data : string) (more : bool) (x : xsub_t) : M S xsub_t :=
  let to_all x := d ← send_to_all data more (xdist x); mret (set_dist d x) in
  match data with
  | String c rest =>
      if decide (c = subscribe_byte) then
        '(_, t) ← lift (trie_add rest (subscriptions x));
        to_all (set_subscriptions t x)
      else if decide (c = unsubscribe_byte) then
        '(removed, t) ← lift (trie_rm rest (subscriptions x));
        let x := set_subscriptions t x in
        if removed : bool then to_all x else mret x
      else to_all x
  | EmptyString => to_all x
  end.

(** The rest of a message is read and dropped. *)
Fixpoint skip_rest (fuel : nat) (more : bool) (q : fq_t) : M S fq_t :=
  match fuel with
  | O => throw OutOfFuel
  | Datatypes.S fuel =>
      if more then
        '(r, q) ← fq_recvpipe q;
        match r with
        | Some (_, (_, more)) => skip_rest fuel more q
        | None => throw (Aborted "rc == 0")
        end
      else mret q
  end.

(** The loop of [xrecv] and [xhas_in].  [pass]: the frame continues a message. *)
Fixpoint xsub_fetch (fuel : nat) (pass : bool) (x : xsub_t) : M S (option (pipe_id * frame_t) * xsub_t) :=
  match fuel with
  | O => throw OutOfFuel
  | Datatypes.S fuel =>
      '(r, q) ← fq_recvpipe (xfq x);
      match r with
      | None => mret (None, set_fq q x)
      | Some (p, (data, more)) =>
          matches ← (if pass || negb (xfilter x) then mret true else lift (xsub_match x data));
          if matches : bool then mret (Some (p, (data, more)), set_fq q x)
          else
            q ← skip_rest fuel more q;
            xsub_fetch fuel pass (set_fq q x)
      end
  end.

Definition xsub_xrecv (fuel : nat) (x : xsub_t) : M S ((errno + frame_t) * xsub_t) :=
  if has_message x then
    mret (inr (message x), set_xmore (message x).2 (set_message false empty_msg x))
  else
    '(r, x) ← xsub_fetch fuel (xmore x) x;
    match r with
    | None => mret (inl errEAGAIN, x)
    | Some (_, f) => mret (inr f, set_xmore f.2 x)
    end.

Definition xsub_xhas_in (fuel : nat) (x : xsub_t) : M S (bool * xsub_t) :=
  if xmore x then mret (true, x)
  else if has_message x then mret (true, x)
  else
    '(r, x) ← xsub_fetch fuel false x;
    match r with
    | None => mret (false, set_message (has_message x) empty_msg x)
    | Some (_, f) => mret (true, set_message true f x)
    end.

Definition xsub_xhas_out (x : xsub_t) : bool := true.

(** *** [sub_t] *)

Inductive sub_option := ZMQ_SUBSCRIBE | ZMQ_UNSUBSCRIBE | other_option.

Definition sub_xsetsockopt (opt : sub_option) (optval : string) (x : xsub_t) : M S (option errno * xsub_t) :=
  match opt with
  | other_option => mret (Some errEINVAL, x)
  | ZMQ_SUBSCRIBE => x ← xsub_xsend (String subscribe_byte optval) false x; mret (None, x)
  | ZMQ_UNSUBSCRIBE => x ← xsub_xsend (String unsubscribe_byte optval) false x; mret (None, x)
  end.

Definition sub_xsend (data : string) (more : bool) (x : xsub_t) : M S (errno * xsub_t) := mret (errENOTSUP, x).

Definition sub_xhas_out (x : xsub_t) : bool := false.

End xsub.

(** ** Receiving *)

(** A subscription matches. *)
Definition subscribed (t : trie_t) (data : string) : Prop := ∃ p, is_prefix p data ∧ refs p t ≠ 0.

(** Messages taken from pipes, as frames. *)
Definition from_pipes (ms : list (pipe_id * list string)) : list (pipe_id * frame_t) :=
  ms ≫= λ pm, (pair pm.1) <$> frames pm.2.

Lemma frames_cons f m : frames (f :: m) = (f, bool_decide (m ≠ [])) :: frames m.
Proof. by destruct m. Qed.

(** What is left of the frames of a publisher when the messages whose first frame
    does not [pass] are dropped. *)
Inductive mode := Start | Pass | Drop.

Fixpoint visible (pass : string → bool) (md : mode) (l : list frame_t) : list frame_t :=
  match l with
  | [] => []
  | (f, more) :: l =>
      let keep := match md with Start => pass f | Pass => true | Drop => false end in
      let rest := visible pass (if more : bool then if keep then Pass else Drop else Start) l in
      if keep then (f, more) :: rest else rest
  end.

Lemma visible_dropped pass f m l : pass f = false → visible pass Start (frames (f :: m) ++ l) = visible pass Start l.
Proof.
  intros Hf. rewrite frames_cons. cbn [app visible]. rewrite Hf. case_bool_decide as Hm; last first.
  { by subst. }
  clear Hf. induction m as [|f' m IH]; [done|]. rewrite frames_cons. cbn [app visible].
  case_bool_decide as Hm'; [by apply IH|by subst].
Qed.

(** Whether the socket lets a message pass. *)
Definition passes (x : xsub_t) (f : string) : bool :=
  negb (xfilter x) || match xsub_match x f with Ok b => b | Throw _ => false end.

Lemma passes_spec x f : trie_wf (subscriptions x) →
  passes x f = true ↔ (xfilter x = true → subscribed (subscriptions x) f).
Proof.
  intros Ht. destruct (trie_check_spec f _ Ht) as (b & Hb & Hbs). unfold passes, xsub_match. rewrite Hb.
  destruct (xfilter x), b; cbn; naive_solver.
Qed.

#[global] Instance reading_dec d p : Decision (reading d p).
Proof. unfold reading. apply _. Defined.
#[global] Instance at_pipe_dec d p : Decision (at_pipe d p).
Proof. unfold at_pipe. apply _. Defined.

Section spec.
Context {S : Type} `{HP : PipeLaws S}.
Implicit Types (s : S) (q : fq_t) (x : xsub_t).

Lemma skip_rest_spec fuel more q s p : fq_inv q s → fmore q = more → (more = true → at_pipe q p) →
  (waiting q s < fuel)%nat → ∃ m q' s', skip_rest fuel more q s = (Ok q', s') ∧
  fq_step (pair p <$> frames m) q s q' s' ∧ fq_inv q' s' ∧ fmore q' = false ∧ more = bool_decide (m ≠ []).
Proof.
  revert more q s. induction fuel as [|fuel IH]; intros more q s Hi Hmo Hat Hf; [lia|]. cbn [skip_rest].
  destruct more; last first.
  { exists [], q, s. split; [done|]. split; [apply fq_step_nil|]. done. }
  destruct (fq_recv_rest q s p Hi Hmo (Hat eq_refl)) as ([data more] & q1 & s1 & Hr & _ & Hres & Hi1).
  rewrite (bind_Ok _ _ _ _ _ Hr). apply fq_result_step in Hres as Hst.
  destruct Hres as (Hq1 & _ & _ & _ & _ & _ & (Hp & Hmo1 & Hat1 & _)).
  pose proof (waiting_taken1 p _ q s q1 s1 (fq_inv_wf _ _ Hi) Hq1 (proj1 Hp) Hst).
  destruct (IH more q1 s1 Hi1 Hmo1 Hat1) as (m & q2 & s2 & Hr2 & Hst2 & Hi2 & Hmo2 & ->); [lia|].
  exists (data :: m), q2, s2. split; [done|]. split; [|done]. rewrite frames_cons.
  apply (fq_step_app _ _ _ _ _ _ _ _ Hst Hst2).
Qed.

Lemma waiting_step l q s q' s' : fq_wf q → fq_wf q' → fq_step l q s q' s' → (waiting q' s' ≤ waiting q s)%nat.
Proof.
  intros Hq Hq' (Hm & Ht & _). rewrite (waiting_items q q' s' Hq Hq' Hm). unfold waiting. clear -Ht.
  induction (items (fpipes q)) as [|p ps IH]; cbn; [done|].
  destruct (Ht p) as (_ & _ & _ & ->). rewrite length_app. lia.
Qed.

(** What the loop of [xrecv] and [xhas_in] does between two messages: it drops whole messages that no
    subscription matches, up to a frame that one matches or until nothing is left. *)
Definition fetched x s (ms : list (pipe_id * list string)) (r : option (pipe_id * frame_t)) q s' : Prop :=
  fq_step (from_pipes ms ++ match r with Some f => [f] | None => [] end) (xfq x) s q s' ∧ fq_inv q s' ∧
  Forall (λ pm, ∃ f m, pm.2 = f :: m ∧ passes x f = false) ms ∧
  match r with
  | Some (p, (data, more)) => passes x data = true ∧ fmore q = more ∧ (more = true → at_pipe q p) ∧ reading (xfq x) p
  | None => fmore q = false ∧ ∀ p, reading (xfq x) p → avail s' p = []
  end.

Lemma fetched_skip x s p f m q1 s1 ms r q s' : passes x f = false →
  fq_step (pair p <$> frames (f :: m)) (xfq x) s q1 s1 → fetched (set_fq q1 x) s1 ms r q s' →
  fetched x s ((p, f :: m) :: ms) r q s'.
Proof.
  intros Hn Hst (Hst2 & Hi & Hms & Hr). split; [|split; [done|split]].
  - cbn [from_pipes mbind list_bind]. rewrite <-app_assoc. eapply fq_step_app; [exact Hst|exact Hst2].
  - constructor; [by exists f, m|done].
  - destruct r as [[p' [data more]]|].
    { destruct Hr as (H1 & H2 & H3 & H4). split_and!; try done. by apply Hst. }
    destruct Hr as [Hmo Hnone]. split; [done|].
    intros p' Hp'. destruct (avail s' p') eqn:He; [done|]. rewrite <-He. apply Hnone.
    cbn. apply Hst; [done|]. destruct Hst2 as (_ & Ht2 & _). destruct (Ht2 p') as (_ & _ & _ & ->). rewrite He.
    by intros [_ ?]%app_eq_nil.
Qed.

Lemma xsub_fetch_spec fuel x s : trie_wf (subscriptions x) → fq_inv (xfq x) s → fmore (xfq x) = false →
  (waiting (xfq x) s < fuel)%nat → ∃ ms r q s',
  xsub_fetch fuel false x s = (Ok (r, set_fq q x), s') ∧ fetched x s ms r q s'.
Proof.
  revert x s. induction fuel as [|fuel IH]; intros x s Ht Hi Hmo Hf; [lia|]. cbn [xsub_fetch].
  destruct (fq_recv_inv (xfq x) s Hi) as (r & q1 & s1 & Hr & Hres & Hi1). rewrite (bind_Ok _ _ _ _ _ Hr).
  apply fq_result_step in Hres as Hst. destruct Hres as (Hq1 & _ & _ & _ & _ & _ & Hx).
  destruct r as [[p [data more]]|]; last first.
  { destruct Hx as [Hm Hnone]. exists [], None, q1, s1. split; [done|]. split_and!; try done; [congruence|].
    intros p Hp. specialize (Hnone p Hp). destruct Hst as (_ & Htk & _). destruct (Htk p) as (_ & _ & _ & He).
    by rewrite Hnone in He. }
  destruct Hx as (Hp & Hmo1 & Hat & _). cbn [orb].
  assert ((if negb (xfilter x) then mret true else lift (xsub_match x data)) s1 = (Ok (passes x data), s1)) as Hb.
  { unfold passes, xsub_match. destruct (trie_check_spec data _ Ht) as (b & -> & _). by destruct (xfilter x). }
  rewrite (bind_Ok _ _ _ _ _ Hb). destruct (passes x data) eqn:Hps.
  { exists [], (Some (p, (data, more))), q1, s1. split; [done|]. by split_and!. }
  pose proof (waiting_taken1 p _ _ s q1 s1 (fq_inv_wf _ _ Hi) Hq1 (proj1 Hp) Hst).
  destruct (skip_rest_spec fuel more q1 s1 p Hi1 Hmo1 Hat) as (m & q2 & s2 & Hr2 & Hst2 & Hi2 & Hmo2 & ->); [lia|].
  rewrite (bind_Ok _ _ _ _ _ Hr2).
  pose proof (waiting_step _ _ _ _ _ Hq1 (fq_inv_wf _ _ Hi2) Hst2).
  destruct (IH (set_fq q2 x) s2) as (ms & r & q3 & s3 & Hr3 & Hf3); [done..|cbn; lia|].
  exists ((p, data :: m) :: ms), r, q3, s3. split; [done|]. apply (fetched_skip x s p data m q2 s2); [done| |done].
  rewrite frames_cons. apply (fq_step_app _ _ _ _ _ _ _ _ Hst Hst2).
Qed.

(** The frames the application will see of a publisher.  [g] is the publisher of the
    message that was prepared by [xhas_in]. *)
Definition pipe_mode q p : mode := if decide (fmore q = true ∧ at_pipe q p) then Pass else Start.
Definition view x s (g p : pipe_id) : list frame_t :=
  (if has_message x then of_pipe p [(g, message x)] else []) ++
  visible (passes x) (pipe_mode (xfq x) p) (avail s p).

(** The socket between two calls. *)
Record xsub_inv x s (g : pipe_id) : Prop := mkXsubInv {
  xsub_trie : trie_wf (subscriptions x);
  xsub_fq : fq_inv (xfq x) s;
  xsub_more : fmore (xfq x) = if has_message x then (message x).2 else xmore x;
  xsub_message : has_message x = true → xmore x = false ∧ ((message x).2 = true → at_pipe (xfq x) g)
}.

Lemma at_pipe_inj q p p' : fq_wf q → at_pipe q p → at_pipe q p' → p = p'.
Proof. intros Hq [[? _] ?] [[? _] ?]. apply (idx_inj (fpipes q)); [apply Hq|done|done|congruence]. Qed.

Lemma pipe_mode_idle q p : fmore q = false → pipe_mode q p = Start.
Proof. intros Hm. unfold pipe_mode. rewrite decide_False; [done|]. rewrite Hm. by intros []. Qed.

Lemma fetched_visible x s ms r q s' p : fmore (xfq x) = false → fetched x s ms r q s' →
  visible (passes x) (pipe_mode (xfq x) p) (avail s p) =
  match r with Some f => of_pipe p [f] | None => [] end ++ visible (passes x) (pipe_mode q p) (avail s' p).
Proof.
  intros Hidle ((_ & Htk & _) & Hi & Hms & Hr). rewrite (pipe_mode_idle _ _ Hidle). destruct (Htk p) as (_ & _ & _ & ->). clear Htk.
  rewrite of_pipe_app, <-app_assoc. assert (∀ l, visible (passes x) Start (of_pipe p (from_pipes ms) ++ l) =
    visible (passes x) Start l) as ->.
  { intros l. induction Hms as [|[p' m'] ms (f & m & Hm & Hn) Hms IH]; [done|].
    cbn [from_pipes mbind list_bind]. rewrite of_pipe_app, <-app_assoc. cbn in Hm. subst m'. cbn [fst snd].
    rewrite of_pipe_fmap. case_decide; [by rewrite visible_dropped|done]. }
  destruct r as [[p' [data more]]|]; last first.
  { destruct Hr as [Hmo _]. by rewrite pipe_mode_idle. }
  destruct Hr as (Hsub & Hmo & Hat & _). unfold pipe_mode. rewrite Hmo. destruct (decide (p' = p)) as [->|Hne].
  - rewrite of_pipe_here. cbn [app visible of_pipe]. rewrite Hsub.
    f_equal. destruct more; [by rewrite decide_True by auto|by rewrite decide_False by (by intros [])].
  - rewrite of_pipe_other by done. cbn [app]. rewrite decide_False; [done|]. intros [-> Hp].
    apply Hne. eapply at_pipe_inj; [apply Hi|by apply Hat|done].
Qed.

(** In the middle of a message the loop returns the next frame at once. *)
Lemma xsub_fetch_rest fuel x s : fq_inv (xfq x) s → fmore (xfq x) = true → ∃ p f q s',
  xsub_fetch (Datatypes.S fuel) true x s = (Ok (Some (p, f), set_fq q x), s') ∧ at_pipe (xfq x) p ∧
  fq_step [(p, f)] (xfq x) s q s' ∧ fq_inv q s' ∧ fmore q = f.2 ∧ (f.2 = true → at_pipe q p).
Proof.
  intros Hi Hmo. destruct (fq_inv_more _ _ Hi Hmo) as (p & Hp & _).
  destruct (fq_recv_rest (xfq x) s p Hi Hmo Hp) as ([data more] & q & s' & Hr & _ & Hres & Hi').
  cbn [xsub_fetch]. rewrite (bind_Ok _ _ _ _ _ Hr). cbn [orb]. rewrite run_ret.
  exists p, (data, more), q, s'. apply fq_result_step in Hres as Hst.
  destruct Hres as (_ & _ & _ & _ & _ & _ & (_ & Hm & Ha & _)). done.
Qed.

Lemma rest_visible x s p f q s' p' : fq_wf (xfq x) → fmore (xfq x) = true → at_pipe (xfq x) p →
  fq_step [(p, f)] (xfq x) s q s' → fq_inv q s' → fmore q = f.2 → (f.2 = true → at_pipe q p) →
  visible (passes x) (pipe_mode (xfq x) p') (avail s p') =
  of_pipe p' [(p, f)] ++ visible (passes x) (pipe_mode q p') (avail s' p').
Proof.
  intros Hw Hmo Hp (_ & Ht & _) Hi Hm Ha. destruct (Ht p') as (_ & _ & _ & ->). unfold pipe_mode.
  rewrite Hm, Hmo. destruct f as [data more]. cbn [snd] in *. destruct (decide (p = p')) as [<-|Hne].
  - rewrite decide_True by done. rewrite of_pipe_here. cbn [app visible of_pipe]. f_equal.
    destruct more; [by rewrite decide_True by auto|by rewrite decide_False by (by intros [])].
  - rewrite of_pipe_other by done. cbn [app]. rewrite !decide_False; [done|..].
    + intros [-> Hp']. apply Hne. eapply at_pipe_inj; [apply Hi|by apply Ha|done].
    + intros [_ Hp']. by apply Hne, (at_pipe_inj (xfq x)).
Qed.

(** A call that receives changes nothing else. *)
Definition received x s x' s' : Prop :=
  subscriptions x' = subscriptions x ∧ xfilter x' = xfilter x ∧ xdist x' = xdist x ∧
  (∃ l, fq_step l (xfq x) s (xfq x') s') ∧ (waiting (xfq x') s' ≤ waiting (xfq x) s)%nat.

Lemma received_step l q x s b f m s' : fq_wf (xfq x) → fq_wf q → fq_step l (xfq x) s q s' →
  received x s (mkXsub (subscriptions x) q (xdist x) b f m (xfilter x)) s'.
Proof. intros Hx Hq Hst. split_and!; [done..|by exists l|]. by eapply waiting_step. Qed.

(** [xrecv]: the next frame the application sees of some publisher.  A message that was
    begun is continued; when there is nothing, nothing is left to see. *)
Lemma xsub_xrecv_spec fuel x s g : xsub_inv x s g → (waiting (xfq x) s < fuel)%nat → ∃ r x' s',
  xsub_xrecv fuel x s = (Ok (r, x'), s') ∧ xsub_inv x' s' g ∧ has_message x' = false ∧ received x s x' s' ∧
  match r with
  | inr f => xmore x' = f.2 ∧ ∃ p, (p = g ∨ reading (xfq x) p) ∧ (xmore x = true → at_pipe (xfq x) p) ∧ (f.2 = true → at_pipe (xfq x') p) ∧
      ∀ p', view x s g p' = of_pipe p' [(p, f)] ++ view x' s' g p'
  | inl e => e = errEAGAIN ∧ has_message x = false ∧ xmore x = false ∧ xmore x' = false ∧ (∀ p, view x' s' g p = view x s g p) ∧
      ∀ p, reading (xfq x) p → view x s g p = []
  end.
Proof.
  intros [Ht Hi Hmo Hmsg] Hf. unfold xsub_xrecv, view. destruct (has_message x) eqn:Hh.
  - destruct (Hmsg eq_refl) as [Hx Hg]. eexists (inr (message x)), _, s. split; [done|]. split; [by constructor|].
    split; [done|]. split; [split_and!; [done..|exists []; apply fq_step_nil|done]|]. split; [done|]. exists g. rewrite Hx.
    split; [by left|]. split; [done|]. by split.
  - destruct (xmore x) eqn:Hx.
    + destruct fuel as [|fuel]; [lia|]. destruct (xsub_fetch_rest fuel x s Hi Hmo) as (p & f & q & s' & Hr & Hp & Hst & Hi' & Hm & Ha).
      rewrite (bind_Ok _ _ _ _ _ Hr). exists (inr f), (set_xmore f.2 (set_fq q x)), s'. split; [done|].
      split; [constructor; cbn; rewrite ?Hh; done|]. split; [done|].
      split; [by apply (received_step _ _ _ _ _ _ _ _ (fq_inv_wf _ _ Hi) (fq_inv_wf _ _ Hi') Hst)|]. split; [done|].
      exists p. split; [right; apply Hp|]. split; [done|]. split; [done|]. intros p'. cbn. rewrite Hh. cbn [app].
      apply (rest_visible x); [apply Hi|done..].
    + destruct (xsub_fetch_spec fuel x s Ht Hi Hmo Hf) as (ms & r & q & s' & Hr & Hft).
      rewrite (bind_Ok _ _ _ _ _ Hr). pose proof (λ p', fetched_visible x s ms r q s' p' Hmo Hft) as Hv.
      destruct Hft as (Hst & Hi' & _ & Hres).
      pose proof (λ b f m, received_step _ _ _ _ b f m _ (fq_inv_wf _ _ Hi) (fq_inv_wf _ _ Hi') Hst) as Hw.
      destruct r as [[p [data more]]|].
      * destruct Hres as (_ & Hm & Ha & Hp). eexists (inr (data, more)), _, s'. split; [done|].
        split; [constructor; cbn; rewrite ?Hh; done|]. split; [done|]. split; [apply Hw|]. split; [done|].
        exists p. split; [by right|]. split; [done|]. split; [done|]. intros p'. cbn. by rewrite Hh, Hv.
      * destruct Hres as (Hm & Hn). eexists (inl errEAGAIN), _, s'. split; [done|].
        split; [constructor; cbn; rewrite ?Hh; congruence|]. split; [done|]. split; [apply Hw|]. split; [done|].
        do 3 (split; [done|]). cbn. rewrite Hh. split; [intros p; by rewrite Hv|].
        intros p Hp. rewrite Hv, (Hn p Hp). done.
Qed.

(** [xhas_in] says whether [xrecv] has a frame, and changes nothing the application sees. *)
Lemma xsub_xhas_in_spec fuel x s g : xsub_inv x s g → (waiting (xfq x) s < fuel)%nat → ∃ b x' s' g',
  xsub_xhas_in fuel x s = (Ok (b, x'), s') ∧ xsub_inv x' s' g' ∧ received x s x' s' ∧
  (g' = g ∨ reading (xfq x) g') ∧ (∀ p, view x' s' g' p = view x s g p) ∧
  if b then ∃ p, (p = g ∨ reading (xfq x) p) ∧ view x s g p ≠ []
  else has_message x = false ∧ ∀ p, reading (xfq x) p → view x s g p = [].
Proof.
  intros Hinv Hf. pose proof Hinv as [Ht Hi Hmo Hmsg]. unfold xsub_xhas_in.
  assert (received x s x s) as Hrec by (split_and!; [done..|exists []; apply fq_step_nil|done]).
  destruct (xmore x) eqn:Hx.
  - exists true, x, s, g. do 3 (split; [done|]). split; [by left|]. split; [done|]. destruct (has_message x) eqn:Hh; [by destruct (Hmsg eq_refl)|].
    destruct (fq_inv_more _ _ Hi Hmo) as (c & Hc & Hne). exists c. split; [right; apply Hc|]. unfold view, pipe_mode.
    rewrite Hh, decide_True by done. by destruct (avail s c) as [|[]].
  - destruct (has_message x) eqn:Hh.
    { exists true, x, s, g. do 3 (split; [done|]). split; [by left|]. split; [done|]. exists g. split; [by left|]. unfold view. rewrite Hh. by rewrite of_pipe_here. }
    destruct (xsub_fetch_spec fuel x s Ht Hi Hmo Hf) as (ms & r & q & s' & Hr & Hft).
    rewrite (bind_Ok _ _ _ _ _ Hr). pose proof (λ p', fetched_visible x s ms r q s' p' Hmo Hft) as Hv.
    destruct Hft as (Hst & Hi' & _ & Hres).
    pose proof (λ b f m, received_step _ _ _ _ b f m _ (fq_inv_wf _ _ Hi) (fq_inv_wf _ _ Hi') Hst) as Hw.
    unfold view. rewrite Hh. destruct r as [[p [data more]]|].
    + destruct Hres as (_ & Hm & Ha & Hp). eexists true, _, s', p. split; [done|]. split; [by constructor|].
      split; [apply Hw|]. split; [by right|]. cbn. split; [intros p'; by rewrite Hv|]. exists p. split; [by right|]. rewrite Hv. by rewrite of_pipe_here.
    + destruct Hres as (Hm & Hn). eexists false, _, s', g. split; [done|].
      split; [constructor; cbn; rewrite ?Hh; congruence|]. split; [apply Hw|]. split; [by left|]. cbn. rewrite Hh.
      split; [intros p; by rewrite Hv|]. split; [done|]. intros p Hp. rewrite Hv, (Hn p Hp). done.
Qed.

(** ** Subscribing *)

(** The publishers that a message to all of them reaches. *)
Definition reached x s p : Prop := eligiblep (xdist x) p ∧ room s p = true.

#[global] Instance reached_dec x s p : Decision (reached x s p).
Proof. unfold reached. apply _. Defined.

Record sub_dist x s : Prop := mkSubDist {
  sub_dist_wf : dist_wf (xdist x);
  sub_dist_valid : all_valid s (xdist x);
  sub_dist_idle : dmore (xdist x) = false
}.

(** [setsockopt(ZMQ_SUBSCRIBE)]: one more subscription, announced to the publishers that have room. *)
Lemma sub_subscribe_spec prefix x s : trie_wf (subscriptions x) → refs prefix (subscriptions x) < 2 ^ 32 - 1 →
  sub_dist x s → ∃ t d s',
  let x' := set_dist d (set_subscriptions t x) in
  sub_xsetsockopt ZMQ_SUBSCRIBE prefix x s = (Ok (None, x'), s') ∧ trie_wf t ∧ sub_dist x' s' ∧
  (∀ q : pipe_id, q ∈ items (dpipes d) ↔ q ∈ items (dpipes (xdist x))) ∧
  (∀ p', refs p' t = if decide (p' = prefix) then refs prefix (subscriptions x) + 1
                                       else refs p' (subscriptions x)) ∧
  ∀ q : pipe_id, q ∈ items (dpipes (xdist x)) → avail s' q = avail s q ∧
    written s' q = written s q ++ if decide (reached x s q) then [(String subscribe_byte prefix, false)] else [].
Proof.
  intros Ht Hr [Hd Hv Hi]. destruct (trie_add_spec prefix _ Ht Hr) as (t & Ha & Ht' & Hrefs).
  destruct (send_to_all_spec (String subscribe_byte prefix) (xdist x) s Hd Hi Hv) as (d & s' & Hs & Hd' & Hv' & Hi' & Hit & Hq).
  exists t, d, s'. split.
  { unfold sub_xsetsockopt, xsub_xsend. rewrite decide_True by done. rewrite Ha.
    etrans; [eapply bind_Ok|done]. rewrite run_lift_Ok. cbn [xdist set_subscriptions]. by rewrite (bind_Ok _ _ _ _ _ Hs). }
  split; [done|]. split; [by constructor|]. do 2 (split; [done|]). intros q Hqi. destruct (Hq q Hqi) as (W & A & _). split; [done|]. rewrite W.
  f_equal.
Qed.

(** [setsockopt(ZMQ_UNSUBSCRIBE)]: one less; the publishers hear of the last one only. *)
Lemma sub_unsubscribe_spec prefix x s : trie_wf (subscriptions x) → sub_dist x s → ∃ t d s',
  let x' := set_dist d (set_subscriptions t x) in
  sub_xsetsockopt ZMQ_UNSUBSCRIBE prefix x s = (Ok (None, x'), s') ∧ trie_wf t ∧ sub_dist x' s' ∧
  (∀ q : pipe_id, q ∈ items (dpipes d) ↔ q ∈ items (dpipes (xdist x))) ∧
  (∀ p', refs p' t = if decide (p' = prefix) then Z.max 0 (refs prefix (subscriptions x) - 1)
                                       else refs p' (subscriptions x)) ∧
  ∀ q : pipe_id, q ∈ items (dpipes (xdist x)) → avail s' q = avail s q ∧
    written s' q = written s q ++ if decide (reached x s q ∧ refs prefix (subscriptions x) = 1)
                                  then [(String unsubscribe_byte prefix, false)] else [].
Proof.
  intros Ht [Hd Hv Hi]. destruct (trie_rm_spec prefix _ Ht) as (t & Ha & Ht' & Hrefs).
  unfold sub_xsetsockopt, xsub_xsend. rewrite decide_False, decide_True by done. rewrite Ha.
  case_bool_decide as H1.
  - destruct (send_to_all_spec (String unsubscribe_byte prefix) (xdist x) s Hd Hi Hv) as (d & s' & Hs & Hd' & Hv' & Hi' & Hit & Hq).
    exists t, d, s'. split.
    { etrans; [eapply bind_Ok|done]. rewrite run_lift_Ok. cbn [xdist set_subscriptions]. by rewrite (bind_Ok _ _ _ _ _ Hs). }
    split; [done|]. split; [by constructor|]. do 2 (split; [done|]). intros q Hqi. destruct (Hq q Hqi) as (W & A & _). split; [done|]. rewrite W.
    f_equal. apply decide_ext. unfold reached. tauto.
  - exists t, (xdist x), s. split; [done|]. split; [done|]. split; [by constructor|]. do 2 (split; [done|]). intros q Hqi. split; [done|].
    rewrite decide_False by (by intros []). by rewrite app_nil_r.
Qed.

Definition subscription (prefix : string) : frame_t := (String subscribe_byte prefix, false).

Lemma send_all_spec p l s : valid s p → ∃ k s',
  foldl (λ st prefix, send_subscription p prefix st) (mret ()) l s = (Ok (), s') ∧
  written s' p = written s p ++ take k (subscription <$> l) ∧ (room s' p = true → k = length l) ∧ (k ≤ length l)%nat ∧
  ∀ q : pipe_id, (valid s q → valid s' q) ∧ avail s' q = avail s q ∧ (q ≠ p → written s' q = written s q).
Proof.
  intros Hv. induction l as [|prefix l IH] using rev_ind.
  { exists 0%nat, s. split; [done|]. cbn. by rewrite app_nil_r. }
  destruct IH as (k & s1 & Hr & Hw & Hk & Hle & Hq). rewrite foldl_snoc.
  destruct (pwrite_law s1 p (String subscribe_byte prefix) false) as (s2 & Hr2 & Hw2 & Hrm & Ho & Ha); [by apply Hq|].
  exists (if room s1 p then Datatypes.S (length l) else k), s2. split.
  { unfold send_subscription at 1. rewrite (bind_Ok _ _ _ _ _ Hr), (bind_Ok _ _ _ _ _ Hr2). done. }
  rewrite fmap_app, length_app. split; [|split; [|split]].
  - rewrite Hw2, Hw. destruct (room s1 p).
    + rewrite Hk by done. rewrite !firstn_all2 by (rewrite ?length_app, ?length_fmap; simpl; lia). by rewrite app_assoc.
    + by rewrite take_app_le by (by rewrite length_fmap).
  - destruct (room s1 p); [simpl; lia|]. rewrite Hrm by auto. done.
  - destruct (room s1 p); simpl; lia.
  - intros q. destruct (Hq q) as (V & A & W), (Ha q) as (V' & A'). split; [auto|]. split; [congruence|].
    intros Hne. rewrite (proj2 (Ho q Hne)). auto.
Qed.

(** A new publisher is sent the prefixes that are subscribed to, each once, as long as there is room. *)
Lemma send_subscriptions_spec p t s : trie_wf t → valid s p → ∃ l k s',
  send_subscriptions p t s = (Ok (), s') ∧ NoDup l ∧ (∀ prefix, prefix ∈ l ↔ refs prefix t ≠ 0) ∧
  written s' p = written s p ++ take k (subscription <$> l) ∧
  (room s' p = true → k = length l) ∧
  ∀ q : pipe_id, (valid s q → valid s' q) ∧ avail s' q = avail s q ∧ (q ≠ p → written s' q = written s q).
Proof.
  intros Ht Hv. destruct (trie_apply_spec t Ht) as (l & Hnd & Hl & Happ).
  unfold send_subscriptions. rewrite Happ, run_lift_Ok.
  destruct (send_all_spec p l s Hv) as (k & s1 & Hr & Hw & Hk & _ & Hq).
  destruct (pflush_law s1 p) as (s2 & Hf & Hs2); [by apply Hq|]. exists l, k, s2.
  rewrite (bind_Ok _ _ _ _ _ Hr). split; [done|]. do 2 (split; [done|]).
  destruct (Hs2 p) as (_ & _ & -> & ->). do 2 (split; [done|]).
  intros q. destruct (Hs2 q) as (V & A & _ & ->), (Hq q) as (V' & A' & W). split; [auto|]. split; [congruence|done].
Qed.

(** ** Publishers come and go *)

(** Changes of the pipes and the queue that leave alone the message that is being read. *)
Lemma xsub_inv_fq x s g q s' : xsub_inv x s g → fq_wf q → fq_valid s' q → fmore q = fmore (xfq x) →
  (fmore q = true → ∀ c, at_pipe (xfq x) c → at_pipe q c ∧ avail s' c = avail s c) → xsub_inv (set_fq q x) s' g.
Proof.
  intros [Ht [Hq Hv Hm] Hmo Hmsg] Hq' Hv' Hf Hat. constructor; cbn; [done| |by rewrite Hf|].
  - constructor; [done|done|]. intros Hfm. destruct Hm as (c & Hc & Hne); [congruence|]. exists c.
    destruct (Hat Hfm c Hc) as [? ->]. done.
  - intros Hh. destruct (Hmsg Hh) as [Hx Hg]. split; [done|]. intros H2. apply Hat; [|by apply Hg].
    rewrite Hf, Hmo, Hh. done.
Qed.

(** A new publisher can be read from, and is told the subscriptions. *)
Lemma xsub_attach_spec p x s g : xsub_inv x s g → sub_dist x s → p ∉ items (fpipes (xfq x)) →
  p ∉ items (dpipes (xdist x)) → valid s p → ∃ q d s',
  xsub_xattach_pipe p x s = (Ok (set_dist d (set_fq q x)), s') ∧ xsub_inv (set_dist d (set_fq q x)) s' g ∧
  sub_dist (set_dist d (set_fq q x)) s' ∧
  (∀ p' : pipe_id, p' ∈ items (fpipes q) ↔ p' ∈ items (fpipes (xfq x)) ∨ p' = p) ∧
  (∀ p' : pipe_id, p' ∈ items (dpipes d) ↔ p' ∈ items (dpipes (xdist x)) ∨ p' = p) ∧
  (∀ p' : pipe_id, reading q p' ↔ reading (xfq x) p' ∨ p' = p) ∧
  ∀ p' : pipe_id, (valid s p' → valid s' p') ∧ avail s' p' = avail s p'.
Proof.
  intros Hi [Hd Hdv Hdi] Hp Hpd Hv. pose proof Hi as [Ht [Hq Hqv Hm] _ _]. unfold xsub_xattach_pipe.
  destruct (fq_attach_spec p (xfq x) Hq Hp) as (q & -> & Hq' & Hmo & Hit & Hrd & Hidx & Hcur). rewrite run_lift_Ok.
  destruct (dist_attach_spec p (xdist x) Hd Hpd) as (d & -> & Hd' & Hdm & Hdit & _). rewrite run_lift_Ok.
  destruct (send_subscriptions_spec p (subscriptions x) s Ht Hv) as (l & k & s' & Hr & _ & _ & _ & _ & Hsame).
  rewrite (bind_Ok _ _ _ _ _ Hr). exists q, d, s'. split; [done|]. split; [|split; [|split_and!; try done]].
  - assert (xsub_inv (set_fq q x) s' g) as []; [|by constructor]. apply (xsub_inv_fq x s); try done.
    + intros p' [Hin| ->]%Hit; apply Hsame; [by apply Hqv|done].
    + intros _ c [Hc Hcc]. split; [|apply Hsame]. split; [apply Hrd; by left|]. by rewrite Hidx, Hcur.
  - constructor; cbn; [done| |congruence]. intros p' [Hin| ->]%Hdit; apply Hsame; [by apply Hdv|done].
  - intros p'. destruct (Hsame p') as (? & ? & _). done.
Qed.

(** A publisher that has messages again. *)
Lemma xsub_activated_spec p x s s' g : xsub_inv x s g → p ∈ items (fpipes (xfq x)) → ¬ reading (xfq x) p →
  fq_valid s' (xfq x) → (∀ c, reading (xfq x) c → avail s' c = avail s c) → ∃ q,
  xsub_xread_activated p x = Ok (set_fq q x) ∧ xsub_inv (set_fq q x) s' g ∧
  (∀ p' : pipe_id, p' ∈ items (fpipes q) ↔ p' ∈ items (fpipes (xfq x))) ∧
  ∀ p' : pipe_id, reading q p' ↔ reading (xfq x) p' ∨ p' = p.
Proof.
  intros Hi Hp Hn Hv' Hsame. pose proof Hi as [Ht [Hq Hqv Hm] _ _]. unfold xsub_xread_activated.
  destruct (fq_activated_spec p (xfq x) Hq Hp Hn) as (q & -> & Hq' & Hmo & Hit & Hrd & Hidx & Hcur).
  exists q. split; [done|]. split; [|done]. apply (xsub_inv_fq x s); try done.
  - intros p' Hp'. by apply Hv', Hit.
  - intros _ c [Hc Hcc]. split; [|by apply Hsame]. split; [apply Hrd; by left|]. by rewrite Hidx, Hcur.
Qed.

(** A publisher that is gone, between two messages. *)
Lemma xsub_terminated_spec p x s g : xsub_inv x s g → sub_dist x s → p ∈ items (fpipes (xfq x)) →
  p ∈ items (dpipes (xdist x)) → fmore (xfq x) = false → ∃ q d,
  xsub_xpipe_terminated p x = Ok (set_dist d (set_fq q x)) ∧ xsub_inv (set_dist d (set_fq q x)) s g ∧
  sub_dist (set_dist d (set_fq q x)) s ∧
  (∀ p' : pipe_id, p' ∈ items (fpipes q) ↔ p' ∈ items (fpipes (xfq x)) ∧ p' ≠ p) ∧
  ∀ p' : pipe_id, reading q p' ↔ reading (xfq x) p' ∧ p' ≠ p.
Proof.
  intros Hi [Hd Hdv Hdi] Hp Hpd Hf. pose proof Hi as [Ht [Hq Hqv Hm] _ _]. unfold xsub_xpipe_terminated.
  destruct (fq_terminated_spec p (xfq x) Hq Hp) as (q & -> & Hq' & Hmo & Hit & Hrd). cbn [mbind res_bind].
  destruct (dist_terminated_spec p (xdist x) Hd Hpd) as (d & -> & Hd' & Hdm & Hdit & _). cbn [mbind res_bind].
  exists q, d. split; [done|]. split; [|split; [|done]].
  - assert (xsub_inv (set_fq q x) s g) as []; [|by constructor]. apply (xsub_inv_fq x s); try done; [|congruence].
    intros p' [Hp' _]%Hit. by apply Hqv.
  - constructor; cbn; [done| |congruence]. intros p' [Hp' _]%Hdit. by apply Hdv.
Qed.

Lemma sub_new_inv t s g : trie_wf t → xsub_inv (set_subscriptions t sub_new) s g ∧ sub_dist (set_subscriptions t sub_new) s.
Proof.
  intros Ht. split; [constructor; cbn; [done| |done|done]; constructor; [apply fq_new_wf|by intros ? ?%elem_of_nil|done]|].
  constructor; cbn; [constructor; cbn; [apply array_new_wf|lia|lia|done]|by intros ? ?%elem_of_nil|done].
Qed.

End spec.
