(* ===== verification/ZmqXpub.v ===== *)
(** * Publisher sockets

    [zmq::xpub_t] and [zmq::pub_t] (zeromq-4.0.4/src/xpub.cpp, pub.cpp): the
    subscriptions of the peers in a trie, and the distribution of a message to the
    pipes whose subscriptions match its first frame.  Subscriptions arrive as
    messages; an XPUB socket passes them on to the application. *)

From S2P Require Import Prelude Bytes Monad ZmqNode ZmqTrie ZmqMtrie ZmqArray ZmqDist ZmqXsub.

Record xpub_t := mkXpub {
  psubs : mtrie_t;
  pdist : dist_t;
  verbose : bool;
  pmore : bool;
  pending : list (string * bool);   (** [pending_data] and [pending_flags] *)
  is_xpub : bool                    (** [options.type == ZMQ_XPUB] *)
}.

Definition xpub_new : xpub_t := mkXpub mtrie_new dist_new false false [] true.
Definition pub_new : xpub_t := mkXpub mtrie_new dist_new false false [] false.

Definition set_psubs (t : mtrie_t) (x : xpub_t) : xpub_t :=
  mkXpub t (pdist x) (verbose x) (pmore x) (pending x) (is_xpub x).
Definition set_pdist (d : dist_t) (x : xpub_t) : xpub_t :=
  mkXpub (psubs x) d (verbose x) (pmore x) (pending x) (is_xpub x).
Definition set_pmore (b : bool) (x : xpub_t) : xpub_t :=
  mkXpub (psubs x) (pdist x) (verbose x) b (pending x) (is_xpub x).
Definition add_pending (m : string * bool) (x : xpub_t) : xpub_t :=
  mkXpub (psubs x) (pdist x) (verbose x) (pmore x) (pending x ++ [m]) (is_xpub x).

(** One message of a peer. *)
Definition xpub_apply (p : pipe_id) (data : string) (more : bool) (x : xpub_t) : res xpub_t :=
  match data with
  | String c rest =>
      if decide (c = unsubscribe_byte ∨ c = subscribe_byte) then
        '(unique, t) ← (if decide (c = unsubscribe_byte) then mtrie_rm rest p (psubs x) else mtrie_add rest p (psubs x));
        let x := set_psubs t x in
        if is_xpub x && (unique || (negb (bool_decide (c = unsubscribe_byte)) && verbose x))
        then Ok (add_pending (data, false) x) else Ok x
      else Ok (add_pending (data, more) x)
  | EmptyString => Ok (add_pending (data, more) x)
  end.

(** [send_unsubscription]. *)
Definition send_unsubscription (data : string) (x : xpub_t) : xpub_t :=
  if is_xpub x then add_pending (String unsubscribe_byte data, false) x else x.

Definition xpub_xwrite_activated (p : pipe_id) (x : xpub_t) : res xpub_t :=
  d ← dist_activated p (pdist x); Ok (set_pdist d x).

(** The option ZMQ_XPUB_VERBOSE has an [int] as its value. *)
Definition xpub_xsetsockopt (is_verbose : bool) (value optvallen : Z) (x : xpub_t) :
    option errno * xpub_t :=
  if negb is_verbose then (Some errEINVAL, x)
  else if negb (optvallen =? 4) || (value <? 0) then (Some errEINVAL, x)
  else (None, mkXpub (psubs x) (pdist x) (negb (value =? 0)) (pmore x) (pending x) (is_xpub x)).

Definition xpub_xpipe_terminated (p : pipe_id) (x : xpub_t) : res xpub_t :=
  '(t, x) ← mtrie_rm_pipe send_unsubscription p (psubs x) x;
  d ← dist_pipe_terminated p (pdist x);
  Ok (set_pdist d (set_psubs t x)).

Definition xpub_xrecv (x : xpub_t) : (errno + frame_t) * xpub_t :=
  match pending x with
  | [] => (inl errEAGAIN, x)
  | m :: rest => (inr m, mkXpub (psubs x) (pdist x) (verbose x) (pmore x) rest (is_xpub x))
  end.

Definition xpub_xhas_in (x : xpub_t) : bool := bool_decide (pending x ≠ []).
Definition xpub_xhas_out (x : xpub_t) : bool := true.

Definition pub_xrecv (x : xpub_t) : (errno + frame_t) * xpub_t := (inl errENOTSUP, x).
Definition pub_xhas_in (x : xpub_t) : bool := false.

Section xpub.
Context {S : Type} `{PipeIO S}.

Fixpoint xpub_xread_activated (fuel : nat) (p : pipe_id) (x : xpub_t) : M S xpub_t :=
  match fuel with
  | O => throw OutOfFuel
  | Datatypes.S fuel =>
      r ← pread p;
      match r with
      | None => mret x
      | Some (data, more) => x ← lift (xpub_apply p data more x); xpub_xread_activated fuel p x
      end
  end.

Definition xpub_xattach_pipe (fuel : nat) (p : pipe_id) (subscribe_to_all : bool) (x : xpub_t) : M S xpub_t :=
  d ← lift (dist_attach p (pdist x));
  t ← lift (if subscribe_to_all then snd <$> mtrie_add "" p (psubs x) else Ok (psubs x));
  xpub_xread_activated fuel p (set_psubs t (set_pdist d x)).

Definition xpub_xsend (data : string) (more : bool) (x : xpub_t) : M S xpub_t :=
  d ← lift (if pmore x then Ok (pdist x)
            else ps ← mtrie_match data (psubs x); dist_match_all ps (pdist x));
  d ← send_to_matching data more d;
  mret (set_pmore more (set_pdist (if more then d else dist_unmatch d) x)).

End xpub.

(** ** Publishing *)

(** A pipe wants a message that starts with this frame. *)
Definition wants (t : mtrie_t) (p : pipe_id) (f : string) : Prop := ∃ pre, is_prefix pre f ∧ p ∈ subs pre t.

(** Subscriptions are of pipes the socket has. *)
Record xpub_wf (x : xpub_t) : Prop := mkXpubWf {
  xpub_trie : mtrie_wf (psubs x);
  xpub_dist : dist_wf (pdist x);
  xpub_pipes : ∀ pre p, p ∈ subs pre (psubs x) → p ∈ items (dpipes (pdist x));
  xpub_more : dmore (pdist x) = pmore x;
  xpub_unmatched : pmore x = false → matching (pdist x) = 0%nat
}.

Lemma matched_none d : dist_wf d → matching d = 0%nat ↔ ∀ q, ¬ matched d q.
Proof.
  intros [Ha Hg Hs _]. split; [intros He q [_ Hq]; lia|]. intros Hn.
  destruct (decide (matching d = 0%nat)) as [|Hne]; [done|].
  destruct (aget_idx (dpipes d) 0 Ha) as (q & _ & Hq & Hi); [lia|]. destruct (Hn q). split; [done|lia].
Qed.

(** Changes that match no further pipe. *)
Lemma matched_mono d d' : dist_wf d → dist_wf d' → (∀ q, matched d' q → matched d q) →
  matching d = 0%nat → matching d' = 0%nat.
Proof. intros Hd Hd' Hm. rewrite !matched_none by done. intros Hn q Hq. by apply (Hn q), Hm. Qed.

Lemma dist_wf_new : dist_wf dist_new.
Proof. constructor; cbn; [apply array_new_wf|lia|lia|done]. Qed.

Lemma xpub_new_wf b v : xpub_wf (mkXpub mtrie_new dist_new v false [] b).
Proof.
  constructor; cbn; [apply mtrie_new_wf|apply dist_wf_new| |done|done].
  intros pre p. rewrite subs_new. set_solver.
Qed.

(** ** Subscriptions *)

(** What a message of a peer does to the set of its subscriptions. *)
Definition command_set (own : gset string) (data : string) : gset string :=
  match data with
  | String c pre =>
      if decide (c = subscribe_byte) then {[pre]} ∪ own
      else if decide (c = unsubscribe_byte) then own ∖ {[pre]} else own
  | EmptyString => own
  end.

(** A peer unsubscribes from what it subscribed to. *)
Definition disciplined1 (own : gset string) (data : string) : Prop :=
  match data with
  | String c pre => c = unsubscribe_byte → pre ∈ own
  | EmptyString => True
  end.

Fixpoint disciplined (own : gset string) (l : list frame_t) : Prop :=
  match l with
  | [] => True
  | (data, _) :: l => disciplined1 own data ∧ disciplined (command_set own data) l
  end.

Definition owns (t : mtrie_t) (p : pipe_id) (own : gset string) : Prop := ∀ pre, pre ∈ own ↔ p ∈ subs pre t.

Lemma xpub_wf_subs t x : xpub_wf x → mtrie_wf t →
  (∀ pre p, p ∈ subs pre t → p ∈ items (dpipes (pdist x))) → xpub_wf (set_psubs t x).
Proof. intros [] ??. by constructor. Qed.

Lemma owns_add t t' p pre own : owns t p own →
  (∀ s', subs s' t' = if decide (s' = pre) then {[p]} ∪ subs pre t else subs s' t) → owns t' p ({[pre]} ∪ own).
Proof.
  intros Ho Hs pre'. rewrite Hs, elem_of_union, elem_of_singleton. case_decide as He.
  - rewrite elem_of_union, elem_of_singleton. split; by left.
  - rewrite (Ho pre'). split; [intros [?|?]; done|by right].
Qed.

Lemma owns_rm t t' p pre own : owns t p own →
  (∀ s', subs s' t' = if decide (s' = pre) then subs pre t ∖ {[p]} else subs s' t) → owns t' p (own ∖ {[pre]}).
Proof.
  intros Ho Hs pre'. rewrite Hs, elem_of_difference, elem_of_singleton. case_decide as He.
  - rewrite elem_of_difference, elem_of_singleton. split; intros []; done.
  - rewrite (Ho pre'). split; [by intros []|done].
Qed.

Lemma xpub_trie_spec p c pre t own : mtrie_wf t → owns t p own → c = unsubscribe_byte ∨ c = subscribe_byte →
  (c = unsubscribe_byte → pre ∈ own) → ∃ u t',
  (if decide (c = unsubscribe_byte) then mtrie_rm pre p t else mtrie_add pre p t) = Ok (u, t') ∧ mtrie_wf t' ∧
  owns t' p (command_set own (String c pre)) ∧ ∀ pre' q, q ≠ p → q ∈ subs pre' t' ↔ q ∈ subs pre' t.
Proof.
  intros Ht Ho Hc Hdis. cbn [command_set]. destruct (decide (c = unsubscribe_byte)) as [Hu|Hu].
  - destruct (mtrie_rm_spec pre p t Ht) as (t' & Hr & Ht' & Hs); [by apply Ho, Hdis|].
    eexists _, t'. split; [exact Hr|]. split; [done|]. rewrite decide_False by (subst; done).
    split; [by eapply owns_rm|]. intros pre' q Hne. rewrite Hs. destruct (decide (pre' = pre)) as [->|]; [|done].
    rewrite elem_of_difference, elem_of_singleton. split; [by intros []|done].
  - destruct (mtrie_add_spec pre p t Ht) as (t' & Hr & Ht' & Hs).
    eexists _, t'. split; [exact Hr|]. split; [done|]. rewrite decide_True by tauto.
    split; [by eapply owns_add|]. intros pre' q Hne. rewrite Hs. destruct (decide (pre' = pre)) as [->|]; [|done].
    rewrite elem_of_union, elem_of_singleton. split; [by intros []|by right].
Qed.

Lemma xpub_apply_spec p data more x own : xpub_wf x → p ∈ items (dpipes (pdist x)) → owns (psubs x) p own →
  disciplined1 own data → ∃ x',
  xpub_apply p data more x = Ok x' ∧ xpub_wf x' ∧ pdist x' = pdist x ∧ owns (psubs x') p (command_set own data) ∧
  ∀ pre q, q ≠ p → q ∈ subs pre (psubs x') ↔ q ∈ subs pre (psubs x).
Proof.
  intros Hx Hp Ho Hdis. pose proof Hx as [Ht Hd Hps Hmm Hun].
  assert (∃ x', xpub_wf x' ∧ pdist x' = pdist x ∧ psubs x' = psubs x ∧ add_pending (data, more) x = x') as Hpend.
  { exists (add_pending (data, more) x). split_and!; [by constructor|done..]. }
  destruct data as [|c pre]; cbn [xpub_apply command_set].
  { destruct Hpend as (x' & ? & ? & Hs & ->). exists x'. rewrite Hs. by split_and!. }
  cbn in Hdis. destruct (decide (c = unsubscribe_byte ∨ c = subscribe_byte)) as [Hc|Hc]; last first.
  { destruct Hpend as (x' & ? & ? & Hs & ->). exists x'. rewrite Hs, !decide_False by tauto. by split_and!. }
  destruct (xpub_trie_spec p c pre (psubs x) own Ht Ho Hc Hdis) as (u & t & -> & Ht' & Ho' & Hq).
  cbn [mbind res_bind]. assert (xpub_wf (set_psubs t x)) as Hx'.
  { apply xpub_wf_subs; [done..|]. intros pre' q Hin. destruct (decide (q = p)) as [->|Hne]; [done|].
    apply (Hps pre'). by apply Hq. }
  destruct Hx'. case_match; eexists; (split; [done|]); (split; [by constructor|]); done.
Qed.

(** A peer that unsubscribes from what only others subscribed to makes the
    publisher abort. *)
Lemma xpub_foreign_unsubscribe p pre more x : xpub_wf x → p ∉ subs pre (psubs x) → subs pre (psubs x) ≠ ∅ →
  xpub_apply p (String unsubscribe_byte pre) more x = Throw (Aborted "erased == 1").
Proof.
  intros [Ht _ _ _ _] Hp Hne. cbn [xpub_apply]. rewrite decide_True by auto. rewrite decide_True by done.
  by rewrite (mtrie_rm_aborts pre p _ Ht Hp Hne).
Qed.

Definition unsubscriptions (x : xpub_t) (l : list string) : list frame_t :=
  if is_xpub x then (λ pre, (String unsubscribe_byte pre, false)) <$> l else [].

Lemma send_unsubscriptions l x : foldl (λ x pre, send_unsubscription pre x) x l =
  mkXpub (psubs x) (pdist x) (verbose x) (pmore x) (pending x ++ unsubscriptions x l) (is_xpub x).
Proof.
  revert x. induction l as [|pre l IH]; intros [t d v m pn b]; cbn [foldl].
  { unfold unsubscriptions. cbn. destruct b; by rewrite app_nil_r. }
  rewrite IH. unfold send_unsubscription, unsubscriptions. destruct b; cbn; [by rewrite <-app_assoc|done].
Qed.

(** A pipe that is gone has no subscriptions; an XPUB socket reports the prefixes
    that nobody is subscribed to any more, each once. *)
Lemma xpub_terminated_spec p x : xpub_wf x → p ∈ items (dpipes (pdist x)) → ∃ x' l,
  xpub_xpipe_terminated p x = Ok x' ∧ xpub_wf x' ∧ pmore x' = pmore x ∧
  (∀ q, q ∈ items (dpipes (pdist x')) ↔ q ∈ items (dpipes (pdist x)) ∧ q ≠ p) ∧
  (∀ pre, subs pre (psubs x') = subs pre (psubs x) ∖ {[p]}) ∧
  NoDup l ∧ (∀ pre, pre ∈ l ↔ subs pre (psubs x) = {[p]}) ∧
  pending x' = pending x ++ unsubscriptions x l.
Proof.
  intros [Ht Hd Hps Hmm Hun] Hp. unfold xpub_xpipe_terminated.
  destruct (mtrie_rm_pipe_spec p (psubs x) Ht) as (t & l & Ht' & Hs & Hnd & Hl & Hrun). rewrite Hrun.
  rewrite send_unsubscriptions. cbn [mbind res_bind pdist].
  destruct (dist_terminated_spec p (pdist x) Hd Hp) as (d & -> & Hd' & Hmo & Hit & Hq). cbn [mbind res_bind].
  eexists _, l. split; [done|]. split; [|split_and!; done].
  constructor; cbn; [done|done| |congruence|].
  - intros pre q. rewrite Hs, elem_of_difference, elem_of_singleton. intros [Hq' Hne]. apply Hit. split; [by eapply Hps|done].
  - intros Hx. apply (matched_mono (pdist x)); [done..| |by apply Hun]. intros q Hm. pose proof Hm as [Hqi%Hit _].
    by apply (Hq q (proj2 Hqi)).
Qed.

Section publish.
Context {S : Type} `{HP : PipeLaws S}.
Implicit Types (s : S) (x : xpub_t).

Lemma xpub_read_spec l fuel p x s own : xpub_wf x → all_valid s (pdist x) → p ∈ items (dpipes (pdist x)) →
  avail s p = l → owns (psubs x) p own → disciplined own l → (length l < fuel)%nat → ∃ x' s',
  xpub_xread_activated fuel p x s = (Ok x', s') ∧ xpub_wf x' ∧ all_valid s' (pdist x') ∧ pdist x' = pdist x ∧
  owns (psubs x') p (foldl command_set own l.*1) ∧
  (∀ pre q, q ≠ p → q ∈ subs pre (psubs x') ↔ q ∈ subs pre (psubs x)) ∧
  avail s' p = [] ∧ (∀ q, q ≠ p → avail s' q = avail s q) ∧ ∀ q, room s' q = room s q ∧ written s' q = written s q.
Proof.
  revert fuel x s own. induction l as [|[data more] l IH]; intros fuel x s own Hx Hv Hp Hl Ho Hdis Hf;
    (destruct fuel as [|fuel]; [simpl in Hf; lia|]); cbn [xpub_xread_activated];
    destruct (pread_law s p (Hv p Hp)) as (s1 & Hr & Hp1 & Ho1 & Hq1); rewrite (bind_Ok _ _ _ _ _ Hr), Hl; cbn [head].
  - exists x, s1. split; [done|]. split; [done|]. split; [intros q Hq; by apply Hq1, Hv|]. rewrite Hl in Hp1.
    split_and!; try done. intros q. apply Hq1.
  - destruct Hdis as [Hd1 Hdis]. destruct (xpub_apply_spec p data more x own Hx Hp Ho Hd1) as (x1 & -> & Hx1 & Hpd & Ho' & Hq').
    rewrite run_lift_Ok. destruct (IH fuel x1 s1 (command_set own data)) as
      (x2 & s2 & -> & Hx2 & Hv2 & Hpd2 & Ho2 & Hqs & Ha2 & Hoa & Hrw); try done.
    + intros q Hq. rewrite Hpd in Hq. by apply Hq1, Hv.
    + by rewrite Hpd.
    + by rewrite Hp1, Hl.
    + simpl in Hf. lia.
    + exists x2, s2. split; [done|]. split; [done|]. split; [done|]. split; [congruence|]. split; [done|].
      split; [intros pre q Hne; by rewrite Hqs, Hq'|]. split; [done|].
      split; [intros q Hne; by rewrite Hoa, Ho1|]. intros q. destruct (Hrw q) as [-> ->]. apply Hq1.
Qed.

(** A new pipe: it gets messages, and its first subscriptions are read. *)
Lemma xpub_attach_spec l fuel p (all : bool) x s : xpub_wf x → all_valid s (pdist x) → p ∉ items (dpipes (pdist x)) → valid s p →
  avail s p = l → disciplined (if all then {[""]} else ∅) l → (length l < fuel)%nat → ∃ x' s',
  xpub_xattach_pipe fuel p all x s = (Ok x', s') ∧ xpub_wf x' ∧ all_valid s' (pdist x') ∧
  (∀ q, q ∈ items (dpipes (pdist x')) ↔ q ∈ items (dpipes (pdist x)) ∨ q = p) ∧ eligiblep (pdist x') p ∧
  owns (psubs x') p (foldl command_set (if all then {[""]} else ∅) l.*1) ∧
  ∀ pre q, q ≠ p → q ∈ subs pre (psubs x') ↔ q ∈ subs pre (psubs x).
Proof.
  intros Hx Hv Hp Hvp Hl Hdis Hf. pose proof Hx as [Ht Hd Hps Hmm Hun]. unfold xpub_xattach_pipe.
  destruct (dist_attach_spec p (pdist x) Hd Hp) as (d & -> & Hd' & Hmo & Hit & Hq). rewrite run_lift_Ok.
  assert (∀ pre, p ∉ subs pre (psubs x)) as Hnone by (intros pre Hin; by apply Hp, (Hps pre)).
  assert (∃ t, (if all then snd <$> mtrie_add "" p (psubs x) else Ok (psubs x)) = Ok t ∧ mtrie_wf t ∧
    owns t p (if all then {[""]} else ∅) ∧ ∀ pre q, q ≠ p → q ∈ subs pre t ↔ q ∈ subs pre (psubs x))
    as (t & -> & Ht' & Ho & Hsub).
  { assert (owns (psubs x) p ∅) as Ho0.
    { intros pre. split; [by intros ?%elem_of_empty|]. intros Hin. by apply Hnone in Hin. }
    destruct all; [|by exists (psubs x)]. destruct (xpub_trie_spec p subscribe_byte "" (psubs x) ∅ Ht Ho0)
      as (u & t & Hr & Ht' & Ho & Hsub); [by right|done|]. rewrite decide_False in Hr by done. exists t. rewrite Hr.
    by rewrite <-(union_empty_r_L {[""]}). }
  rewrite run_lift_Ok.
  destruct (xpub_read_spec l fuel p (set_psubs t (set_pdist d x)) s (if all then {[""]} else ∅)) as
    (x' & s' & Hr & Hx' & Hv' & Hpd & Ho' & Hq' & _); try done.
  - constructor; cbn; [done|done| |congruence|].
    + intros pre q Hin. apply Hit. destruct (decide (q = p)) as [->|Hne]; [by right|]. left. apply (Hps pre). by apply Hsub.
    + intros Hx0. apply (matched_mono (pdist x)); [done..| |by apply Hun]. intros q. apply Hq.
  - intros q [Hin| ->]%Hit; [by apply Hv|done].
  - apply Hit. by right.
  - exists x', s'. split; [done|]. split; [done|]. split; [done|]. rewrite Hpd. cbn. split_and!; try done.
    + apply Hq. by right.
    + intros pre q Hne. by rewrite Hq', <-Hsub.
Qed.

(** The parts of a message, sent one after the other. *)
Fixpoint xpub_send_parts (m : list string) x : M S xpub_t :=
  match m with
  | [] => mret x
  | f :: m => x ← xpub_xsend f (bool_decide (m ≠ [])) x; xpub_send_parts m x
  end.

(** Parts after the first go to the pipes it matched. *)
Lemma xpub_rest_parts m x s d s' : m ≠ [] → pmore x = true → send_frames m (pdist x) s = (Ok d, s') →
  xpub_send_parts m x s = (Ok (set_pmore false (set_pdist (dist_unmatch d) x)), s').
Proof.
  revert x s. induction m as [|f m IH]; intros x s Hne Hmo; [done|]. cbn [xpub_send_parts send_frames].
  unfold xpub_xsend at 1. rewrite Hmo.
  destruct (send_to_matching f (bool_decide (m ≠ [])) (pdist x) s) as [[d1|e] s1] eqn:Hs; last first.
  { by rewrite (bind_Throw _ _ _ _ _ Hs). }
  rewrite (bind_Ok _ _ _ _ _ Hs). intros Hr. etrans.
  { eapply bind_Ok. rewrite run_lift_Ok. by rewrite (bind_Ok _ _ _ _ _ Hs). }
  destruct m as [|f2 m]; [by injection Hr as -> ->|]. rewrite bool_decide_true by done.
  by rewrite (IH (set_pmore true (set_pdist d1 x)) s1).
Qed.

(** The first part. *)
Lemma xpub_parts x m f s l d1 d2 s2 : pmore x = false → mtrie_match f (psubs x) = Ok l →
  dist_match_all l (pdist x) = Ok d1 → send_frames (f :: m) d1 s = (Ok d2, s2) →
  xpub_send_parts (f :: m) x s = (Ok (set_pmore false (set_pdist (dist_unmatch d2) x)), s2).
Proof.
  intros Hmo Hl Hd1. cbn [xpub_send_parts send_frames]. unfold xpub_xsend at 1. rewrite Hmo, Hl.
  cbn [mbind res_bind]. rewrite Hd1.
  destruct (send_to_matching f (bool_decide (m ≠ [])) d1 s) as [[d|e] s1] eqn:Hs; last first.
  { by rewrite (bind_Throw _ _ _ _ _ Hs). }
  rewrite (bind_Ok _ _ _ _ _ Hs). intros Hr. etrans.
  { eapply bind_Ok. rewrite run_lift_Ok. by rewrite (bind_Ok _ _ _ _ _ Hs). }
  destruct m as [|f2 m]; [by injection Hr as -> ->|]. rewrite bool_decide_true by done.
  by rewrite (xpub_rest_parts _ (set_pmore true (set_pdist d x)) s1 d2 s2).
Qed.

(** A message goes, as a whole, to the pipes that want it, are not full and have
    not been found full; other pipes get nothing of it. *)
Lemma xpub_publish_spec f m x s : xpub_wf x → pmore x = false → all_valid s (pdist x) → ∃ x' s',
  xpub_send_parts (f :: m) x s = (Ok x', s') ∧ xpub_wf x' ∧ pmore x' = false ∧ all_valid s' (pdist x') ∧
  psubs x' = psubs x ∧ pending x' = pending x ∧
  (∀ p, p ∈ items (dpipes (pdist x')) ↔ p ∈ items (dpipes (pdist x))) ∧
  ∀ p, p ∈ items (dpipes (pdist x)) →
    (wants (psubs x) p f ∧ eligiblep (pdist x) p ∧ room s p = true → written s' p = written s p ++ frames (f :: m)) ∧
    (¬ (wants (psubs x) p f ∧ eligiblep (pdist x) p ∧ room s p = true) → written s' p = written s p) ∧
    avail s' p = avail s p ∧
    (eligiblep (pdist x') p ↔ eligiblep (pdist x) p ∧ (wants (psubs x) p f → room s p = true)).
Proof.
  intros [Ht Hd Hps Hmm Hun] Hmo Hv. rewrite Hmo in Hmm. specialize (Hun Hmo).
  destruct (mtrie_match_spec f (psubs x) Ht) as (l & Hl & Hlp).
  destruct (dist_match_all_spec l (pdist x) Hd Hmm) as (d1 & Hm1 & Hd1 & Hmo1 & Hit1 & Hq1).
  { intros p (pre & _ & Hp)%Hlp. by eapply Hps. }
  assert (∀ p, matched d1 p ↔ wants (psubs x) p f ∧ eligiblep (pdist x) p) as Hmat.
  { intros p. rewrite (proj1 (Hq1 p)), Hlp. unfold matched at 1, in_group. rewrite Hun. unfold wants. clear. intuition lia. }
  destruct (send_frames_spec (f :: m) d1 s) as (d2 & s2 & Hs & Hd2 & Hv2 & Hmo2 & Hit2 & Hq2); [done|done| |].
  { intros p Hp. by apply Hv, Hit1. }
  eexists _, s2. split; [by eapply xpub_parts|]. split; [constructor; cbn; try done; [by apply dist_unmatch_wf|]|].
  { intros pre p Hp. apply Hit2, Hit1. by eapply Hps. }
  do 4 (split; [done|]). split; [intros p; cbn; by rewrite Hit2, Hit1|]. intros p Hp.
  destruct (Hq2 p) as (W & W' & A & E); [by apply Hit1|]. specialize (Hmat p). destruct (Hq1 p) as (_ & _ & E1).
  split; [|split; [|split; [done|]]].
  - intros (H1 & H2 & H3). apply W; [by apply Hmat|done].
  - intros Hn. apply W'. rewrite Hmat. destruct (room s p); [left; tauto|by right].
  - transitivity (eligiblep d2 p); [done|]. rewrite E, Hmat, E1. clear. tauto.
Qed.

End publish.
