(* ===== verification/ZmqLb.v ===== *)
(** * Pipelines

    [zmq::lb_t] (zeromq-4.0.4/src/lb.cpp) and the sockets PUSH and PULL (push.cpp,
    pull.cpp), which mongos and the database events use.  A message goes as a whole
    to one pipe that has room, the pipes taking turns; when none has room the
    caller is told to try again. *)

From S2P Require Import Prelude Monad ZmqNode ZmqMtrie ZmqArray ZmqDist ZmqFq ZmqXsub.

(** The pipes, [active], [current] and [more] are as in [fq_t]. *)
Record lb_t := mkLb { lq : fq_t; dropping : bool }.

Definition lb_new : lb_t := mkLb fq_new false.

Definition lb_activated (p : pipe_id) (d : lb_t) : res lb_t :=
  q ← fq_activated p (lq d); Ok (mkLb q (dropping d)).

Definition lb_attach (p : pipe_id) (d : lb_t) : res lb_t :=
  let q := lq d in
  lb_activated p (mkLb (mkFq (apush_back p (fpipes q)) (factive q) (fcurrent q) (fmore q)) (dropping d)).

Definition lb_pipe_terminated (p : pipe_id) (d : lb_t) : res lb_t :=
  i ← aindex (fpipes (lq d)) p;
  let drop := if (i =? fcurrent (lq d))%nat && fmore (lq d) then true else dropping d in
  q ← fq_pipe_terminated p (lq d);
  Ok (mkLb q drop).

(** The current pipe is full. *)
Definition lb_deactivate (q : fq_t) : res fq_t :=
  let n := (factive q - 1)%nat in
  if (fcurrent q <? n)%nat then
    a ← aswap (fcurrent q) n (fpipes q); Ok (mkFq a n (fcurrent q) (fmore q))
  else Ok (mkFq (fpipes q) n 0 (fmore q)).

Section lb.
Context {S : Type} `{PipeIO S}.

(** The loop of [sendpipe]: the pipe that took the frame. *)
Fixpoint lb_send_loop (fuel : nat) (data : string) (more : bool) (q : fq_t) : M S (option pipe_id * fq_t) :=
  match fuel with
  | O => throw OutOfFuel
  | Datatypes.S fuel =>
      if (0 <? factive q)%nat then
        p ← lift (aget (fpipes q) (fcurrent q));
        ok ← pwrite p data more;
        if ok : bool then mret (Some p, q)
        else
          _ ← lift (zmq_assert "!more" (negb (fmore q)));
          q ← lift (lb_deactivate q);
          lb_send_loop fuel data more q
      else mret (None, q)
  end.

Definition lb_sendpipe (data : string) (more : bool) (d : lb_t) : M S ((errno + option pipe_id) * lb_t) :=
  let q := lq d in
  if dropping d then mret (inr None, mkLb (mkFq (fpipes q) (factive q) (fcurrent q) more) more)
  else
    '(r, q) ← lb_send_loop (Datatypes.S (factive q)) data more q;
    if (factive q =? 0)%nat then mret (inl errEAGAIN, mkLb q (dropping d))
    else if more then mret (inr r, mkLb (mkFq (fpipes q) (factive q) (fcurrent q) more) (dropping d))
    else
      p ← lift (aget (fpipes q) (fcurrent q));
      _ ← pflush p;
      mret (inr r, mkLb (mkFq (fpipes q) (factive q) ((fcurrent q + 1) mod factive q)%nat more) (dropping d)).

Fixpoint lb_has_out_loop (fuel : nat) (q : fq_t) : M S (bool * fq_t) :=
  match fuel with
  | O => throw OutOfFuel
  | Datatypes.S fuel =>
      if (0 <? factive q)%nat then
        p ← lift (aget (fpipes q) (fcurrent q));
        ok ← pcheck_write p;
        if ok : bool then mret (true, q)
        else q ← lift (fq_deactivate (fcurrent q) q); lb_has_out_loop fuel q
      else mret (false, q)
  end.

Definition lb_has_out (d : lb_t) : M S (bool * lb_t) :=
  if fmore (lq d) then mret (true, d)
  else '(b, q) ← lb_has_out_loop (Datatypes.S (factive (lq d))) (lq d); mret (b, mkLb q (dropping d)).

(** *** [push_t] and [pull_t] *)

Definition push_xattach_pipe : pipe_id → lb_t → res lb_t := lb_attach.
Definition push_xwrite_activated : pipe_id → lb_t → res lb_t := lb_activated.
Definition push_xpipe_terminated : pipe_id → lb_t → res lb_t := lb_pipe_terminated.
Definition push_xhas_out : lb_t → M S (bool * lb_t) := lb_has_out.

Definition push_xsend (data : string) (more : bool) (d : lb_t) : M S (option errno * lb_t) :=
  '(r, d) ← lb_sendpipe data more d;
  mret (if r is inl e then Some e else None, d).

Definition pull_xattach_pipe : pipe_id → fq_t → res fq_t := fq_attach.
Definition pull_xread_activated : pipe_id → fq_t → res fq_t := fq_activated.
Definition pull_xpipe_terminated : pipe_id → fq_t → res fq_t := fq_pipe_terminated.
Definition pull_xhas_in : fq_t → M S (bool * fq_t) := fq_has_in.

Definition pull_xrecv (q : fq_t) : M S ((errno + frame_t) * fq_t) :=
  '(r, q) ← fq_recvpipe q;
  mret (match r with Some (_, f) => inr f | None => inl errEAGAIN end, q).

End lb.

(** ** A message goes to one pipe *)

Lemma aswap_same i a : array_wf a → (i < asize a)%nat → aswap i i a = Ok a.
Proof.
  intros [_ Ha] Hi. unfold aswap, aget. destruct (lookup_lt_is_Some_2 (items a) i Hi) as [p Hp]. rewrite Hp.
  cbn [mbind res_bind]. rewrite !(list_insert_id (items a) i p Hp), !(insert_id (array_index a) p i) by auto. by destruct a.
Qed.

Lemma aswap_comm i j a : array_wf a → aswap i j a = aswap j i a.
Proof.
  intros Ha. destruct (decide (i = j)) as [->|Hne]; [done|]. unfold aswap, aget.
  destruct (items a !! i) as [x|] eqn:Hi, (items a !! j) as [y|] eqn:Hj; try done. cbn [mbind res_bind].
  assert (x ≠ y) by (intros ->; apply Hne; eapply NoDup_lookup; [apply Ha|done..]).
  by rewrite list_insert_insert_ne, insert_insert_ne.
Qed.

(** A new pipe of a PUSH socket is attached like one of a PULL socket. *)
Lemma lb_attach_fq p d : fq_wf (lq d) → p ∉ items (fpipes (lq d)) →
  lb_attach p d = (q ← fq_attach p (lq d); Ok (mkLb q (dropping d))).
Proof.
  intros [Ha _ _] Hp. unfold lb_attach, lb_activated, fq_activated, fq_attach. cbn [lq fpipes factive fcurrent fmore dropping].
  destruct (apush_back_spec (fpipes (lq d)) p Ha Hp) as (Ha' & Hs & Hm & Hi & _).
  rewrite aindex_idx by (done || apply Hm; by right). cbn [mbind res_bind]. rewrite Hi, Hs, Nat.sub_succ, Nat.sub_0_r.
  by rewrite aswap_comm.
Qed.

Lemma lb_deactivate_fq q : fq_wf q → (0 < factive q)%nat → lb_deactivate q = fq_deactivate (fcurrent q) q.
Proof.
  intros [Ha Hs Hc] Hpos. unfold lb_deactivate, fq_deactivate.
  destruct (Nat.ltb_spec (fcurrent q) (factive q - 1)) as [Hlt|Hge].
  - by rewrite (proj2 (Nat.eqb_neq _ _)) by lia.
  - assert (fcurrent q = factive q - 1)%nat as -> by lia. rewrite Nat.eqb_refl, aswap_same by (done || lia). done.
Qed.

Section send.
Context {S : Type} `{HP : PipeLaws S}.
Implicit Types (s : S) (q : fq_t) (d : lb_t).

(** What a frame changed: it was written to one pipe, or to none. *)
Definition put (r : option pipe_id) (data : string) (more : bool) s s' : Prop := ∀ p,
  (valid s p → valid s' p) ∧ avail s' p = avail s p ∧ (r ≠ Some p ∨ more = true → room s' p = room s p) ∧
  written s' p = written s p ++ if decide (r = Some p) then [(data, more)] else [].

Lemma put_Some p data more s s' : put (Some p) data more s s' → ∀ p',
  avail s' p' = avail s p' ∧ written s' p' = written s p' ++ if decide (p = p') then [(data, more)] else [].
Proof.
  intros Hput p'. destruct (Hput p') as (_ & A & _ & ->). split; [done|]. f_equal. apply decide_ext.
  split; [by intros [= ->]|by intros ->].
Qed.

Lemma lb_send_loop_spec fuel data more q s : fq_wf q → fq_valid s q → (factive q < fuel)%nat →
  (fmore q = true → ∃ c, at_pipe q c ∧ room s c = true) → ∃ r q' s',
  lb_send_loop fuel data more q s = (Ok (r, q'), s') ∧ fq_wf q' ∧ fmore q' = fmore q ∧ put r data more s s' ∧
  (∀ p, p ∈ items (fpipes q') ↔ p ∈ items (fpipes q)) ∧
  (∀ p, reading q' p → reading q p) ∧ (∀ p, reading q p → room s p = true → reading q' p) ∧
  match r with
  | Some p => at_pipe q' p ∧ room s p = true ∧ ((∃ c, at_pipe q c ∧ room s c = true) → at_pipe q p)
  | None => factive q' = 0%nat
  end.
Proof.
  revert q s. induction fuel as [|fuel IH]; intros q s Hq Hv Hf Hmore; [lia|]. cbn [lb_send_loop].
  pose proof Hq as [Ha Hs Hc]. destruct (Nat.ltb_spec 0 (factive q)) as [Hpos|Hz]; last first.
  { exists None, q, s. split; [done|]. split_and!; try done; [|lia]. intros p. rewrite decide_False by done.
    by rewrite app_nil_r. }
  destruct (aget_idx (fpipes q) (fcurrent q) Ha) as (p & -> & Hp & Hip); [lia|]. rewrite run_lift_Ok.
  destruct (pwrite_law s p data more (Hv p Hp)) as (s1 & Hr & Hw & Hrm & Ho & Hav). rewrite (bind_Ok _ _ _ _ _ Hr).
  assert (at_pipe q p) as Hat by (split; [split; [done|lia]|done]).
  assert (put (if room s p then Some p else None) data more s s1) as Hput.
  { intros p'. destruct (Hav p') as [V A]. split; [done|]. split; [done|].
    destruct (decide (p' = p)) as [->|Hne].
    - rewrite Hw. destruct (room s p) eqn:Hroom.
      + rewrite decide_True by done. split; [|done]. intros [?|?]; [done|]. rewrite <-Hroom in *. auto.
      + rewrite decide_False, app_nil_r by done. split; [|done]. intros _. rewrite Hrm; auto.
    - destruct (Ho p' Hne) as [-> ->]. split; [done|]. rewrite decide_False, app_nil_r; [done|].
      destruct (room s p); congruence. }
  destruct (room s p) eqn:Hroom.
  { exists (Some p), q, s1. by split_and!. }
  assert (fmore q = false) as Hmo.
  { destruct (fmore q) eqn:Hm; [|done]. destruct (Hmore eq_refl) as (c & Hcat & Hcr).
    rewrite (at_pipe_inj q c p Hq Hcat Hat) in Hcr. congruence. }
  rewrite Hmo. cbn [negb zmq_assert]. rewrite run_lift_Ok, lb_deactivate_fq by (done || lia).
  destruct (fq_deactivate_spec (fcurrent q) q Hq) as (q1 & -> & Hq1 & Hmo1 & Ha1 & _ & Hm1 & _ & Hr1 & _); [lia|].
  rewrite run_lift_Ok. assert (∀ p', room s1 p' = room s p') as Hsame.
  { intros p'. apply Hput. by left. }
  assert (∀ p', reading q p' → room s p' = true → reading q1 p') as Hstay.
  { intros p' Hp' Hr'. apply Hr1. split; [done|]. intros He.
    rewrite (idx_inj _ p' p Ha (proj1 Hp') Hp) in Hr' by congruence. congruence. }
  destruct (IH q1 s1) as (r & q2 & s2 & -> & Hq2 & Hmo2 & Hput2 & Hm2 & Hrd & Hkeep & Hres); [done| |lia|congruence|].
  { intros p' Hp'. apply Hput, Hv. by apply Hm1. }
  exists r, q2, s2. split; [done|]. split; [done|]. split; [congruence|]. split; [|split; [|split; [|split]]].
  - intros p'. destruct (Hput p') as (V & A & _ & W), (Hput2 p') as (V2 & A2 & R2 & W2).
    split; [auto|]. split; [congruence|]. split; [intros Hx; rewrite R2 by done; apply Hsame|].
    rewrite W2, W. rewrite (decide_False (P:=None = Some p')) by done. by rewrite app_nil_r.
  - intros p'. by rewrite Hm2, Hm1.
  - intros p' Hp'. by apply Hr1, Hrd.
  - intros p' Hp' Hr'. apply Hkeep; [by apply Hstay|by rewrite Hsame].
  - destruct r as [p'|]; [|done]. destruct Hres as (Hat' & Hr' & _). rewrite Hsame in Hr'. split; [done|]. split; [done|].
    intros (c & Hc1 & Hc2). rewrite (at_pipe_inj q c p Hq Hc1 Hat) in Hc2. congruence.
Qed.

(** The pipes and the queue between two frames. *)
Record lb_inv d s : Prop := mkLbInv {
  lb_wf : fq_wf (lq d);
  lb_valid : fq_valid s (lq d);
  lb_more : fmore (lq d) = true → dropping d = true ∨ ∃ c, at_pipe (lq d) c ∧ room s c = true
}.

(** A frame is dropped, or written to a pipe that has room, the same one for all
    frames of a message; the caller is told when there is none. *)
Lemma lb_sendpipe_spec data more d s : lb_inv d s → ∃ r d' s',
  lb_sendpipe data more d s = (Ok (r, d'), s') ∧
  (∀ p, p ∈ items (fpipes (lq d')) ↔ p ∈ items (fpipes (lq d))) ∧ lb_inv d' s' ∧
  match r with
  | inl e => e = errEAGAIN ∧ dropping d = false ∧ dropping d' = false ∧ fmore (lq d') = fmore (lq d) ∧
      fmore (lq d) = false ∧ put None data more s s' ∧ ∀ p, reading (lq d) p → room s p = false
  | inr None => dropping d = true ∧ dropping d' = more ∧ fmore (lq d') = more ∧ s' = s
  | inr (Some p) => dropping d = false ∧ dropping d' = false ∧ fmore (lq d') = more ∧ put (Some p) data more s s' ∧
      reading (lq d) p ∧ room s p = true ∧ (fmore (lq d) = true → at_pipe (lq d) p) ∧ (more = true → at_pipe (lq d') p)
  end.
Proof.
  intros [Hq Hv Hm]. unfold lb_sendpipe. destruct (dropping d) eqn:Hdr.
  { eexists (inr None), _, s. split; [done|]. split; [done|]. split; [|done].
    constructor; cbn; [by destruct Hq|done|]. intros ->. by left. }
  assert (fmore (lq d) = true → ∃ c, at_pipe (lq d) c ∧ room s c = true) as Hm'.
  { intros Hx. destruct (Hm Hx) as [?|?]; done. }
  destruct (lb_send_loop_spec (Datatypes.S (factive (lq d))) data more (lq d) s Hq Hv) as
    (r & q & s1 & Hr & Hq1 & Hmo & Hput & Hit & Hrd & Hkeep & Hres); [lia|done|].
  assert (fq_valid s1 q) as Hv1 by (intros p Hp; apply Hput, Hv; by apply Hit).
  rewrite (bind_Ok _ _ _ _ _ Hr). pose proof Hq1 as [Ha Hs Hc]. destruct r as [p|]; last first.
  { rewrite Hres. cbn [Nat.eqb]. assert (∀ p, reading (lq d) p → room s p = false) as Hno.
    { intros p Hp. destruct (room s p) eqn:Hrp; [|done]. destruct (Hkeep p Hp Hrp) as [_ ?]. lia. }
    assert (fmore (lq d) = false) as Hf.
    { destruct (fmore (lq d)); [|done]. destruct Hm' as (c & [Hc1 _] & Hc2); [done|]. rewrite Hno in Hc2; done. }
    eexists (inl errEAGAIN), _, s1. split; [done|]. split; [done|]. split; [|by split_and!].
    constructor; cbn; [done|done|]. congruence. }
  destruct Hres as (Hat & Hrp & Hsame). pose proof Hat as [[Hpi Hlt] Hcur].
  rewrite (proj2 (Nat.eqb_neq _ _)) by lia. destruct more.
  - eexists (inr (Some p)), _, s1. split; [done|]. split; [done|]. split; [|do 3 (split; [done|]); split_and!; auto; try by apply Hrd].
    constructor; cbn; [done|done|]. intros _. right. exists p. split; [done|]. rewrite <-Hrp. apply Hput. by right.
  - assert (aget (fpipes q) (fcurrent q) = Ok p) as ->.
    { unfold aget. by rewrite (proj2 (idx_lookup (fpipes q) p (fcurrent q) Ha)). }
    rewrite run_lift_Ok. destruct (pflush_law s1 p (Hv1 p Hpi)) as (s2 & Hf & Hs2). rewrite (bind_Ok _ _ _ _ _ Hf).
    eexists (inr (Some p)), _, s2. split; [done|]. split; [done|]. split.
    + constructor; cbn; [|intros p' Hp'; apply Hs2; by apply Hv1|done].
      constructor; cbn; [done|done|]. left. apply Nat.mod_upper_bound. lia.
    + do 3 (split; [done|]). split; [|split_and!; [by apply Hrd|done|auto|done]]. intros p'. destruct (Hput p') as (V & A & R & W), (Hs2 p') as (V2 & -> & -> & ->).
      split_and!; auto.
Qed.

(** The parts of a message, one after the other; the caller gives up when there is no room. *)
Fixpoint push_parts (m : list string) d : M S (option errno * lb_t) :=
  match m with
  | [] => mret (None, d)
  | f :: m =>
      '(e, d) ← push_xsend f (bool_decide (m ≠ [])) d;
      if e is Some e then mret (Some e, d) else push_parts m d
  end.

(** Once a part was written, the others follow on the same pipe. *)
Lemma push_rest m d s p : m ≠ [] → lb_inv d s → dropping d = false → fmore (lq d) = true → at_pipe (lq d) p → ∃ d' s',
  push_parts m d s = (Ok (None, d'), s') ∧ lb_inv d' s' ∧ dropping d' = false ∧ fmore (lq d') = false ∧
  ∀ p', avail s' p' = avail s p' ∧ written s' p' = written s p' ++ if decide (p = p') then frames m else [].
Proof.
  revert d s. induction m as [|f m IH]; intros d s Hne Hi Hdr Hmo Hat; [done|]. cbn [push_parts].
  unfold push_xsend. destruct (lb_sendpipe_spec f (bool_decide (m ≠ [])) d s Hi) as (r & d1 & s1 & Hr & _ & Hi1 & Hres).
  destruct r as [e|[p1|]]; [by destruct Hres as (_ & _ & _ & _ & ? & _); congruence| |by destruct Hres; congruence].
  destruct Hres as (_ & Hdr1 & Hmo1 & Hput & _ & _ & Hsame & Hnext).
  assert (p1 = p) as -> by (eapply (at_pipe_inj (lq d)); [apply Hi|by apply Hsame|done]).
  pose proof (put_Some _ _ _ _ _ Hput) as Hw.
  erewrite bind_Ok by (by rewrite (bind_Ok _ _ _ _ _ Hr)). cbn beta iota. destruct m as [|f2 m].
  - exists d1, s1. by split_and!.
  - rewrite bool_decide_true in * by done. destruct (IH d1 s1) as (d2 & s2 & -> & Hi2 & Hdr2 & Hmo2 & Hw2); auto.
    exists d2, s2. split_and!; try done. intros p'. destruct (Hw p') as (A & W), (Hw2 p') as (A2 & W2).
    split; [congruence|]. rewrite W2, W, <-app_assoc. by destruct (decide (p = p')).
Qed.

(** A message is written as a whole to one pipe that has room, or not at all, and
    then no active pipe has room. *)
Lemma push_message_spec f m d s : lb_inv d s → dropping d = false → fmore (lq d) = false → ∃ r d' s',
  push_parts (f :: m) d s = (Ok (r, d'), s') ∧ lb_inv d' s' ∧ dropping d' = false ∧ fmore (lq d') = false ∧
  (∀ p, avail s' p = avail s p) ∧
  match r with
  | None => ∃ p, reading (lq d) p ∧ room s p = true ∧
      ∀ p', written s' p' = written s p' ++ if decide (p = p') then frames (f :: m) else []
  | Some e => e = errEAGAIN ∧ (∀ p, reading (lq d) p → room s p = false) ∧ ∀ p, written s' p = written s p
  end.
Proof.
  intros Hi Hdr Hmo. cbn [push_parts]. unfold push_xsend at 1.
  destruct (lb_sendpipe_spec f (bool_decide (m ≠ [])) d s Hi) as (r & d1 & s1 & Hr & _ & Hi1 & Hres).
  erewrite bind_Ok by (by rewrite (bind_Ok _ _ _ _ _ Hr)). cbn beta iota.
  destruct r as [e|[p|]]; [| |by destruct Hres; congruence].
  - destruct Hres as (-> & _ & Hdr1 & Hmo1 & _ & Hput & Hno). exists (Some errEAGAIN), d1, s1.
    split_and!; try done; [congruence|intros p; by destruct (Hput p) as (_ & ? & _)|].
    intros p. destruct (Hput p) as (_ & _ & _ & ->). rewrite decide_False by done. apply app_nil_r.
  - destruct Hres as (_ & Hdr1 & Hmo1 & Hput & Hrd & Hrm & _ & Hnext).
    pose proof (put_Some _ _ _ _ _ Hput) as Hw.
    destruct m as [|f2 m].
    + exists None, d1, s1. split_and!; try done; [intros p'; apply Hw|]. exists p. split_and!; try done. intros p'. apply Hw.
    + rewrite bool_decide_true in * by done. destruct (push_rest (f2 :: m) d1 s1 p) as (d2 & s2 & -> & Hi2 & Hdr2 & Hmo2 & Hw2); auto.
      exists None, d2, s2. split_and!; try done; [intros p'; destruct (Hw p') as [<- _]; apply Hw2|].
      exists p. split_and!; try done. intros p'. destruct (Hw p') as (_ & W), (Hw2 p') as (_ & W2).
      rewrite W2, W, <-app_assoc. by destruct (decide (p = p')).
Qed.

(** When the pipe of a message that is being written goes away, the rest of the
    message is dropped. *)
Lemma lb_terminated_spec p d s : lb_inv d s → p ∈ items (fpipes (lq d)) →
  fmore (lq d) = false ∨ dropping d = true ∨ at_pipe (lq d) p → ∃ d',
  lb_pipe_terminated p d = Ok d' ∧ lb_inv d' s ∧ fmore (lq d') = fmore (lq d) ∧
  dropping d' = dropping d || fmore (lq d) ∧
  (∀ p', p' ∈ items (fpipes (lq d')) ↔ p' ∈ items (fpipes (lq d)) ∧ p' ≠ p) ∧
  ∀ p', reading (lq d') p' ↔ reading (lq d) p' ∧ p' ≠ p.
Proof.
  intros [Hq Hv Hm] Hp Hc. unfold lb_pipe_terminated. rewrite aindex_idx by (done || apply Hq). cbn [mbind res_bind].
  destruct (fq_terminated_spec p (lq d) Hq Hp) as (q & -> & Hq' & Hmo & Hit & Hrd). cbn [mbind res_bind].
  assert ((if (idx (fpipes (lq d)) p =? fcurrent (lq d))%nat && fmore (lq d) then true else dropping d) =
    dropping d || fmore (lq d)) as ->.
  { destruct Hc as [->|[->|[_ ->]]]; [by rewrite andb_false_r, orb_false_r|by case_match|].
    rewrite Nat.eqb_refl. by destruct (dropping d), (fmore (lq d)). }
  eexists. split; [done|]. split; [|by split_and!]. constructor; cbn; [done|intros q' Hq1; by apply Hv, Hit|].
  rewrite Hmo. intros ->. left. apply orb_true_r.
Qed.

End send.
