(* ===== verification/ZmqNet.v ===== *)
(** * Pipes as sockets use them

    The pipes of a socket, each with its other end, are an implementation of the
    interface of [ZmqDist]: the laws that the sockets' theorems rely on hold of
    the queues, the counters and the commands of [ZmqPipe]. *)

From S2P Require Import Prelude Monad ZmqNode ZmqYpipe ZmqPipe ZmqPipeSpec ZmqMtrie ZmqDist.

(** ** What one end sees *)

Definition frame_of (x : item) : option frame_t := if x is Frame d more then Some (d, more) else None.

Definition end_avail (a : bool) (c : pair) : list frame_t :=
  if in_active (ends c a) then
    match pqueues c !! qid (negb a) with Some q => omap frame_of (flushed q) | None => [] end
  else [].
Definition end_room (a : bool) (c : pair) : bool := out_active (ends c a) && negb (is_full (ends c a)).
Definition end_written (a : bool) (c : pair) : list frame_t := omap frame_of (wrote c a).

(** The calls of a socket, with the record of what was read and written. *)
Definition end_read (a : bool) (c : pair) : res (option frame_t) * pair :=
  let '(r, c) := call a pipe_read c in
  (r, match r with Ok (Some (d, more)) => note_got a (Frame d more) c | _ => c end).
Definition end_check_read (a : bool) (c : pair) : res bool * pair := call a pipe_check_read c.
Definition end_check_write (a : bool) (c : pair) : res bool * pair := call a pipe_check_write c.
Definition end_write (a : bool) (d : string) (more : bool) (c : pair) : res bool * pair :=
  let '(r, c) := call a (pipe_write d more) c in
  (r, match r with Ok true => note_wrote a (Frame d more) c | _ => c end).
Definition end_flush (a : bool) (c : pair) : res unit * pair := call a pipe_flush c.

Lemma end_write_spec a d more c : pair_inv c → ∃ c', end_write a d more c = (Ok (end_room a c), c') ∧ pair_inv c' ∧
  end_avail a c' = end_avail a c ∧ (end_room a c = false ∨ more = true → end_room a c' = end_room a c) ∧
  end_written a c' = if end_room a c then end_written a c ++ [(d, more)] else end_written a c.
Proof.
  intros Hc. destruct (write_inv a d more c Hc) as (b & c1 & Hr & Hi). unfold end_write. rewrite Hr.
  revert Hr. destruct (pair_inv_elim a c Hc) as (q & q' & [Ho _] & _ & Hq & Hq' & Hd & _ & _).
  unfold call, end_room. set (e := mkPenv _ _ _ _). assert (state (ends c a) = active) as Hst by apply Hd.
  rewrite (pipe_write_run e (qid a) q Hq d more Ho Hst). subst e. cbn [self queues sent events].
  destruct (out_active (ends c a)) eqn:Hoa; cbn [negb andb]; [destruct (is_full (ends c a)) eqn:Hf; cbn [negb]|];
    intros [= <- <-]; eexists; (split; [done|]); (split; [done|]); unfold end_avail, end_written; cbn;
    rewrite ?upd_same.
  - split; [|done]. done.
  - split_and!.
    + rewrite lookup_insert_ne by apply qid_ne. by destruct more.
    + intros [?| ->]; [done|]. by rewrite Hoa, Hf.
    + by rewrite omap_app.
  - rewrite Hoa. done.
Qed.

Lemma end_check_write_spec a c : pair_inv c → ∃ c', end_check_write a c = (Ok (end_room a c), c') ∧ pair_inv c' ∧
  end_avail a c' = end_avail a c ∧ end_room a c' = end_room a c ∧ end_written a c' = end_written a c.
Proof.
  intros Hc. destruct (pair_inv_elim a c Hc) as (q & q' & [Ho Hi] & _ & Hq & Hq' & Hd & Hd' & Hm).
  assert (state (ends c a) = active) as Hst by apply Hd.
  assert (pair_inv (mkPair (pqueues c) (upd (ends c) a (ends c a)) (upd (mail c) (negb a) (mail c (negb a) ++ []))
    (wrote c) (got c))) as Hsame.
  { rewrite app_nil_r. by eapply pair_inv_build; [done..|intros x ?%Hm]. }
  unfold end_check_write, call, pipe_check_write, end_room, mbind, M_bind, gets, mret, M_ret, on_self, modify. cbn [self].
  rewrite Hst, bool_decide_true, orb_false_r by done. fold (is_full (ends c a)).
  destruct (out_active (ends c a)) eqn:Hoa; cbn [negb andb].
  - destruct (is_full (ends c a)) eqn:Hf; cbn [negb]; eexists; (split; [done|]);
      unfold end_avail, end_written; cbn [ends pqueues wrote self queues sent events]; rewrite !upd_same.
    + split; [|done]. rewrite app_nil_r. eapply pair_inv_build; [done..| | |by intros x ?%Hm].
      * by apply dir_stop.
      * by eapply dir_inv_reader.
    + split; [done|]. by rewrite Hoa, Hf.
  - eexists. split; [done|]. unfold end_avail, end_written. cbn [ends pqueues wrote self queues sent events].
    rewrite !upd_same, Hoa. done.
Qed.

Lemma end_flush_spec a c : pair_inv c → ∃ c', end_flush a c = (Ok (), c') ∧ pair_inv c' ∧
  end_avail a c' = end_avail a c ∧ end_room a c' = end_room a c ∧ end_written a c' = end_written a c.
Proof.
  intros Hc. destruct (flush_inv a c Hc) as (c1 & Hr & Hi). exists c1. split; [done|]. split; [done|].
  revert Hr. destruct (pair_inv_elim a c Hc) as (q & q' & [Ho _] & _ & Hq & Hq' & Hd & _ & _).
  unfold call. set (e := mkPenv _ _ _ _). assert (state (ends c a) = active) as Hst by apply Hd.
  rewrite (pipe_flush_run e (qid a) q Hq Ho Hst). subst e. intros [= <-].
  unfold end_avail, end_room, end_written. cbn. rewrite !upd_same, lookup_insert_ne by apply qid_ne. done.
Qed.

Lemma end_read_spec a c : pair_inv c → ∃ c', end_read a c = (Ok (head (end_avail a c)), c') ∧ pair_inv c' ∧
  end_avail a c' = tail (end_avail a c) ∧ end_room a c' = end_room a c ∧ end_written a c' = end_written a c.
Proof.
  intros Hc. destruct (read_inv a c Hc) as (r & c1 & Hr & Hi). unfold end_read. rewrite Hr. revert Hr.
  destruct (pair_inv_elim a c Hc) as (q & q' & [_ Hin] & _ & Hq & Hq' & _ & Hd' & _).
  unfold call, end_avail at 1 3. set (e := mkPenv _ _ _ _).
  assert (state (ends c a) = active) as Hst by apply Hd'. rewrite (pipe_read_run e (qid (negb a)) q' Hq' Hin Hst).
  subst e. cbn [self queues sent events]. rewrite Hq'.
  destruct (in_active (ends c a)) eqn:Hia; cbn [negb]; last first.
  { intros [= <- <-]. eexists. split; [done|]. split; [done|]. unfold end_avail, end_room, end_written. cbn.
    by rewrite !upd_same, Hia. }
  pose proof (yread_spec q' (dir_wf _ _ _ _ _ _ _ Hd')) as Hy. pose proof (no_delimiter _ _ _ _ _ _ _ Hd') as Hnd.
  destruct (yread q') as [r1 q1] eqn:Hr1. destruct Hy as (_ & -> & Hf1 & _).
  destruct (flushed q') as [|[d more|] fl] eqn:Hfl; cbn [head tail] in *; [| |by destruct Hnd; left];
    intros [= <- <-]; eexists; (split; [done|]); (split; [done|]); unfold end_avail, end_room, end_written; cbn;
    rewrite !upd_same, ?lookup_insert_eq, ?Hf1; cbn; destruct more || idtac; cbn; rewrite ?Hia; done.
Qed.

Lemma end_check_read_spec a c : pair_inv c → ∃ c',
  end_check_read a c = (Ok (bool_decide (end_avail a c ≠ [])), c') ∧ pair_inv c' ∧
  end_avail a c' = end_avail a c ∧ end_room a c' = end_room a c ∧ end_written a c' = end_written a c.
Proof.
  intros Hc. destruct (check_read_inv a c Hc) as (b & c1 & Hr & Hi). unfold end_check_read. rewrite Hr. revert Hr.
  destruct (pair_inv_elim a c Hc) as (q & q' & [_ Hin] & _ & Hq & Hq' & _ & Hd' & _).
  assert (state (ends c a) = active) as Hst by apply Hd'. pose proof (no_delimiter _ _ _ _ _ _ _ Hd') as Hnd.
  pose proof (pipe_check_read_run (mkPenv (pqueues c) (ends c a) [] []) (qid (negb a)) q' Hq' Hin Hst
    (dir_wf _ _ _ _ _ _ _ Hd') Hnd) as Hrun. unfold call, end_avail. rewrite Hq'. cbn [self queues sent events] in Hrun.
  destruct (in_active (ends c a)) eqn:Hia; cbn [negb] in Hrun; last first.
  { rewrite Hrun. intros [= <- <-]. eexists. split; [done|]. split; [done|]. unfold end_room, end_written. cbn.
    by rewrite !upd_same, Hia. }
  destruct Hrun as (q1 & -> & _ & _ & Hf1 & _). intros [= <- <-]. eexists.
  assert (bool_decide (omap frame_of (flushed q') ≠ []) = bool_decide (flushed q' ≠ [])) as ->.
  { apply bool_decide_ext. destruct (flushed q') as [|[d more|] fl]; [done..|]. by destruct Hnd; left. }
  split; [done|]. split; [done|]. unfold end_room, end_written. cbn. rewrite !upd_same, lookup_insert_eq, Hf1. cbn.
  by destruct (bool_decide_reflect (flushed q' ≠ [])) as [|Hn]; [|destruct (flushed q'); [|destruct Hn]].
Qed.

Lemma end_flush_inv a c : pair_inv c → pair_inv (end_flush a c).2.
Proof. intros Hc. by destruct (end_flush_spec a c Hc) as (c' & -> & ? & _). Qed.
Lemma end_write_inv a d more c : pair_inv c → pair_inv (end_write a d more c).2.
Proof. intros Hc. by destruct (end_write_spec a d more c Hc) as (c' & -> & ? & _). Qed.

(** Pipes with the default high water mark. *)
Lemma default_pair_inv : pair_inv (pipepair (λ _, 1000)).
Proof. apply pipepair_inv. lia. Qed.

Lemma end_avail_whole a c : pair_inv c → whole (end_avail a c).
Proof.
  intros Hc f Hl. destruct (pair_inv_elim a c Hc) as (q & q' & _ & _ & _ & Hq' & _ & Hd' & _).
  pose proof (no_delimiter _ _ _ _ _ _ _ Hd') as Hnd. unfold end_avail in Hl. destruct (in_active _); [|done]. rewrite Hq' in Hl.
  destruct (dir_flushed _ _ _ _ _ _ _ Hd') as [Hn|(x & Hx & Hfin)]; [by rewrite Hn in Hl|].
  apply last_Some in Hx as [l Hfl]. rewrite Hfl, omap_app in Hl. destruct x as [d []|]; [done| |].
  - cbn in Hl. rewrite last_snoc in Hl. by injection Hl as <-.
  - destruct Hnd. rewrite Hfl. apply elem_of_app. right. by left.
Qed.

(** ** The pipes of a socket *)

(** Which end is the socket's, and the pipe. *)
Abbreviation net := (gmap pipe_id (bool * pair)).

Definition on_pipe {A} (p : pipe_id) (f : bool → pair → res A * pair) : M net A := λ s,
  match s !! p with
  | Some (a, c) => let '(r, c) := f a c in (r, <[p := (a, c)]> s)
  | None => (Throw (UndefinedBehaviour "pipe"), s)
  end.

#[global] Instance net_io : PipeIO net := {|
  pread p := on_pipe p end_read;
  pcheck_read p := on_pipe p end_check_read;
  pcheck_write p := on_pipe p end_check_write;
  pwrite p d more := on_pipe p (λ a, end_write a d more);
  pflush p := on_pipe p end_flush
|}.

Definition seen {A} (none : A) (f : bool → pair → A) (s : net) (p : pipe_id) : A :=
  match s !! p with Some (a, c) => f a c | None => none end.
Definition net_valid (s : net) (p : pipe_id) : Prop := ∃ a c, s !! p = Some (a, c) ∧ pair_inv c.
Definition net_avail : net → pipe_id → list frame_t := seen [] end_avail.
Definition net_room : net → pipe_id → bool := seen false end_room.
Definition net_written : net → pipe_id → list frame_t := seen [] end_written.

(** A call on one pipe does not concern the others. *)
Lemma on_pipe_spec {A} p (f : bool → pair → res A * pair) s a c r c' :
  s !! p = Some (a, c) → pair_inv c → f a c = (r, c') → pair_inv c' → ∃ s',
  on_pipe p f s = (r, s') ∧ s' !! p = Some (a, c') ∧ (∀ q, net_valid s q → net_valid s' q) ∧
  ∀ q, q ≠ p → net_avail s' q = net_avail s q ∧ net_room s' q = net_room s q ∧ net_written s' q = net_written s q.
Proof.
  intros Hp Hc Hf Hc'. unfold on_pipe. rewrite Hp, Hf. eexists. split; [done|]. split; [by rewrite lookup_insert_eq|].
  split.
  - intros q (a1 & c1 & Hq & Hi). destruct (decide (q = p)) as [->|Hne].
    + exists a, c'. by rewrite lookup_insert_eq.
    + exists a1, c1. by rewrite lookup_insert_ne.
  - intros q Hne. unfold net_avail, net_room, net_written, seen. by rewrite !lookup_insert_ne.
Qed.

Lemma net_seen s p a c : s !! p = Some (a, c) →
  net_avail s p = end_avail a c ∧ net_room s p = end_room a c ∧ net_written s p = end_written a c.
Proof. intros Hp. unfold net_avail, net_room, net_written, seen. by rewrite Hp. Qed.

(** A call that changes nothing a socket sees. *)
Lemma on_pipe_same {A} p (f : bool → pair → res A * pair) (r : bool → pair → A) s : net_valid s p →
  (∀ a c, pair_inv c → ∃ c', f a c = (Ok (r a c), c') ∧ pair_inv c' ∧ end_avail a c' = end_avail a c ∧
    end_room a c' = end_room a c ∧ end_written a c' = end_written a c) →
  ∃ s' a c, on_pipe p f s = (Ok (r a c), s') ∧ s !! p = Some (a, c) ∧
  ∀ q, (net_valid s q → net_valid s' q) ∧ net_avail s' q = net_avail s q ∧ net_room s' q = net_room s q ∧
    net_written s' q = net_written s q.
Proof.
  intros (a & c & Hp & Hc) Hf. destruct (Hf a c Hc) as (c' & Hr & Hc' & HA & HR & HW).
  destruct (on_pipe_spec p f s a c _ c' Hp Hc Hr Hc') as (s' & Hrun & Hp' & Hv & Ho).
  exists s', a, c. split; [done|]. split; [done|]. intros q. split; [apply Hv|].
  destruct (decide (q = p)) as [->|Hne]; [|by apply Ho].
  unfold net_avail, net_room, net_written, seen. by rewrite Hp, Hp'.
Qed.

#[global, refine] Instance net_laws : PipeLaws net := {|
  valid := net_valid;
  avail := net_avail;
  room := net_room;
  written := net_written
|}.
Proof.
  - intros s p (a & c & Hp & Hc). unfold net_avail, seen. rewrite Hp. by apply end_avail_whole.
  - intros s p (a & c & Hp & Hc). destruct (end_read_spec a c Hc) as (c' & Hr & Hc' & HA & HR & HW).
    destruct (on_pipe_spec p end_read s a c _ c' Hp Hc Hr Hc') as (s' & Hrun & Hp' & Hv & Ho).
    destruct (net_seen s p a c Hp) as (A & R & W), (net_seen s' p a c' Hp') as (A' & R' & W').
    exists s'. rewrite A, A'. do 2 (split; [done|]). split; [intros q Hq; by apply Ho|]. intros q. split; [apply Hv|].
    destruct (decide (q = p)) as [->|Hne]; [split; congruence|by apply Ho].
  - intros s p Hv. destruct (on_pipe_same p end_check_read (λ a c, bool_decide (end_avail a c ≠ [])) s Hv
      (λ a c, end_check_read_spec a c)) as (s' & a & c & Hr & Hp & Hs).
    exists s'. split; [|done]. unfold net_avail, seen. by rewrite Hp.
  - intros s p Hv. destruct (on_pipe_same p end_check_write end_room s Hv (λ a c, end_check_write_spec a c))
      as (s' & a & c & Hr & Hp & Hs).
    exists s'. split; [|done]. unfold net_room, seen. by rewrite Hp.
  - intros s p d more (a & c & Hp & Hc). destruct (end_write_spec a d more c Hc) as (c' & Hr & Hc' & HA & HR & HW).
    destruct (on_pipe_spec p (λ a, end_write a d more) s a c _ c' Hp Hc Hr Hc') as (s' & Hrun & Hp' & Hv & Ho).
    destruct (net_seen s p a c Hp) as (A & R & W), (net_seen s' p a c' Hp') as (A' & R' & W').
    exists s'. rewrite R, R', W, W'. do 3 (split; [done|]).
    split; [intros q Hq; by apply Ho|]. intros q. split; [apply Hv|]. destruct (decide (q = p)) as [->|Hne]; [congruence|by apply Ho].
  - intros s p Hv. destruct (on_pipe_same p end_flush (λ _ _, ()) s Hv (λ a c, end_flush_spec a c))
      as (s' & a & c & Hr & Hp & Hs). by exists s'.
Defined.

(** ** What the peers do *)

(** Something happened to a pipe. *)
Definition net_change (p : pipe_id) (f : bool → pair → pair) (s : net) : net :=
  match s !! p with
  | Some (a, c) => <[p := (a, f a c)]> s
  | None => s
  end.

Lemma net_change_valid p f s q : (∀ a c, pair_inv c → pair_inv (f a c)) → net_valid s q → net_valid (net_change p f s) q.
Proof.
  intros Hf (a & c & Hq & Hc). unfold net_change. destruct (s !! p) as [[a1 c1]|] eqn:Hp; [|by exists a, c].
  destruct (decide (q = p)) as [->|Hne].
  - rewrite Hp in Hq. injection Hq as -> ->. eexists a, _. split; [by rewrite lookup_insert_eq|]. by apply Hf.
  - exists a, c. by rewrite lookup_insert_ne.
Qed.

(** The peer sends a frame. *)
Definition peer_sends (d : string) (more : bool) (a : bool) (c : pair) : pair :=
  (end_flush (negb a) (end_write (negb a) d more c).2).2.

Lemma peer_sends_inv d more a c : pair_inv c → pair_inv (peer_sends d more a c).
Proof. intros Hc. by apply end_flush_inv, end_write_inv. Qed.

(** The socket's end processes a command. *)
Definition end_command (a : bool) (c : pair) : pair :=
  match mail c a with
  | cmd :: l => (call a (process_command cmd) (set_mail a l c)).2
  | [] => c
  end.

Lemma end_command_inv a c : pair_inv c → pair_inv (end_command a c).
Proof.
  intros Hc. unfold end_command. destruct (mail c a) as [|cmd l] eqn:Hm; [done|].
  by destruct (command_inv a cmd l c Hc Hm) as (c' & -> & ?).
Qed.
