(* ===== verification/ZmqRefine.v ===== *)
(** * The library implements the sockets of the model

    A SUB socket of the library with one publisher behaves like the SUB socket of
    [Zmq]: the messages whose first frame a subscription matches are received in
    order, frame by frame, and nothing else is.  The subscriptions of [Zmq] are a
    list, those of the library a trie; [Zmq] filters messages when they arrive,
    the library when they are read. *)

From S2P Require Import Prelude StdMap Bytes Monad Zmq ZmqNode ZmqTrie ZmqYpipe ZmqPipe ZmqPipeSpec ZmqMtrie ZmqArray ZmqDist ZmqFq ZmqXsub ZmqXpub ZmqNet.

(** ** Messages and frames *)

Definition all_frames (ms : list zmsg) : list frame_t := ms ≫= frames.

Lemma all_frames_cons m ms : all_frames (m :: ms) = frames m ++ all_frames ms.
Proof. done. Qed.
Lemma all_frames_app ms ms' : all_frames (ms ++ ms') = all_frames ms ++ all_frames ms'.
Proof. apply bind_app. Qed.

Lemma visible_app pass md l l' : whole l → l ≠ [] ∨ md = Start →
  visible pass md (l ++ l') = visible pass md l ++ visible pass Start l'.
Proof.
  revert md. induction l as [|[f more] l IH]; intros md Hw Hne; [by destruct Hne as [| ->]|]. cbn [app visible].
  set (keep := match md with Start => _ | Pass => _ | Drop => _ end).
  assert (whole l ∧ (l ≠ [] ∨ (if more then if keep then Pass else Drop else Start) = Start)) as [Hw' Hne'].
  { split.
    - intros g Hg. apply Hw. destruct l; [done|]. by rewrite last_cons_cons.
    - destruct l as [|g l]; [|by left]. right. specialize (Hw (f, more) eq_refl). cbn in Hw. by subst more. }
  rewrite (IH _ Hw' Hne'). by destruct keep.
Qed.

Lemma visible_kept pass f m l : pass f = true →
  visible pass Start (frames (f :: m) ++ l) = frames (f :: m) ++ visible pass Start l.
Proof.
  intros Hf. rewrite frames_cons. cbn [app visible]. rewrite Hf. f_equal. clear Hf.
  case_bool_decide as Hm; [|by subst]. induction m as [|g m IH]; [done|]. rewrite frames_cons. cbn [app visible].
  f_equal. case_bool_decide as Hm'; [by apply IH|by subst].
Qed.

Lemma whole_app l l' : whole l' → l' ≠ [] → whole (l ++ l').
Proof.
  intros Hw Hne f Hf. apply Hw. rewrite last_app in Hf. destruct (last l') eqn:Hl; [done|]. by apply last_None in Hl.
Qed.

Lemma frames_nil m : frames m = [] ↔ m = [].
Proof. destruct m; [done|]. by rewrite frames_cons. Qed.

Lemma frames_whole m : whole (frames m).
Proof.
  induction m as [|f m IH]; [done|]. intros g. rewrite frames_cons. destruct m as [|f2 m].
  - cbn. by intros [= <-].
  - rewrite bool_decide_true by done. destruct (frames (f2 :: m)) eqn:He; [by apply frames_nil in He|].
    rewrite last_cons_cons. apply IH.
Qed.

(** ** The simulation *)

(** The subscriptions agree. *)
Definition same_filters (z : socket_t) (t : trie_t) : Prop := ∀ pre, pre ∈ filters z ↔ refs pre t ≠ 0.

Section sim.
Context {S : Type} `{HP : PipeLaws S}.
Implicit Types (s : S) (x : xsub_t) (z : socket_t).

(** The socket [z], and [x] with its one pipe [p]. *)
Record sub_sim z x s (p : pipe_id) : Prop := mkSubSim {
  sim_type : stype z = ZMQ_SUB ∧ isopen z = true;
  sim_filter : xfilter x = true;
  sim_subs : same_filters z (subscriptions x);
  sim_inv : xsub_inv x s p;
  sim_one : ∀ q, q ∈ items (fpipes (xfq x)) ↔ q = p;
  sim_dist : sub_dist x s ∧ ∀ q, q ∈ items (dpipes (xdist x)) ↔ q = p;
  sim_awake : avail s p ≠ [] → reading (xfq x) p;
  sim_messages : Forall (λ m, m ≠ []) (inbox z);
  sim_view : view x s p p = frames (partial z) ++ all_frames (inbox z)
}.

(** Taking a frame from either. *)
Lemma sock_take_frames z : Forall (λ m, m ≠ []) (inbox z) →
  let '(r, z') := sock_take z in
  (stype z' = stype z ∧ isopen z' = isopen z ∧ filters z' = filters z) ∧ Forall (λ m, m ≠ []) (inbox z') ∧
  match r, frames (partial z) ++ all_frames (inbox z) with
  | Some f, (g, _) :: l => f = g ∧ l = frames (partial z') ++ all_frames (inbox z')
  | None, [] => z' = z
  | _, _ => False
  end.
Proof.
  intros Hm. unfold sock_take. destruct (partial z) as [|f m] eqn:Hp.
  - destruct (inbox z) as [|[|f m] i] eqn:Hi; [by rewrite Hi|by inversion Hm|]. apply Forall_cons in Hm as [_ Hm].
    split; [done|]. split; [done|]. cbn [partial inbox]. by rewrite all_frames_cons, frames_cons.
  - split; [done|]. split; [done|]. rewrite frames_cons. done.
Qed.

(** Calls that receive keep everything but the queue. *)
Lemma sim_received z z' x s x' s' p : sub_sim z x s p → received x s x' s' → xsub_inv x' s' p →
  stype z' = stype z ∧ isopen z' = isopen z ∧ filters z' = filters z → Forall (λ m, m ≠ []) (inbox z') →
  view x' s' p p = frames (partial z') ++ all_frames (inbox z') → sub_sim z' x' s' p.
Proof.
  intros [[Hty Hop] Hfl Hsu Hi Hone [[Hd Hdv Hdi] Hdone] Haw _ _] (Hsb & Hxf & Hxd & (l & Hst) & _) Hi' (Hty' & Hop' & Hfi') Hm Hv.
  constructor; try done; [split; congruence|congruence| | | |].
  - rewrite Hsb. unfold same_filters. by rewrite Hfi'.
  - intros q. rewrite <-(Hone q). apply Hst.
  - rewrite Hxd. split; [|done]. constructor; rewrite Hxd; [done| |done]. intros q Hq. destruct Hst as (_ & Htk & _).
    apply Htk. by apply Hdv.
  - intros Hne. apply Hst; [|done]. apply Haw. destruct Hst as (_ & Htk & _). destruct (Htk p) as (_ & _ & _ & ->).
    by intros [_ ?]%app_eq_nil.
Qed.

(** Reading a frame. *)
Lemma sub_recv_sim fuel z x s p : sub_sim z x s p → (waiting (xfq x) s < fuel)%nat → ∃ r x' s',
  xsub_xrecv fuel x s = (Ok (r, x'), s') ∧ sub_sim (sock_take z).2 x' s' p ∧
  (sock_take z).1 = match r with inr f => Some f.1 | inl _ => None end.
Proof.
  intros Hs Hf. pose proof Hs as [_ _ _ Hi Hone _ Haw Hms Hvw].
  destruct (xsub_xrecv_spec fuel x s p Hi Hf) as (r & x' & s' & Hr & Hi' & _ & Hrec & Hres).
  exists r, x', s'. split; [done|]. pose proof (sock_take_frames z Hms) as Ht. destruct (sock_take z) as [o z'].
  destruct Ht as (Hz & Hms' & Ht). cbn [fst snd]. rewrite <-Hvw in Ht.
  pose proof (sim_received z z' x s x' s' p Hs Hrec Hi' Hz Hms') as Hsim. destruct r as [e|f].
  - destruct Hres as (-> & Hh & _ & _ & Hv & Hnone). rewrite Hv in Hsim. destruct (view x s p p) as [|[g mo] v] eqn:He.
    + destruct o; [done|]. subst z'. split; [|done]. apply Hsim. congruence.
    + exfalso. assert (reading (xfq x) p) as Hrd; [|by rewrite Hnone in He].
      destruct (decide (avail s p = [])) as [Hn|Hn]; [|by apply Haw]. unfold view in He. by rewrite Hh, Hn in He.
  - destruct Hres as (_ & p' & Hp' & _ & _ & Hv).
    assert (p' = p) as -> by (destruct Hp' as [?|[Hp' _]]; [done|by apply Hone]).
    rewrite (Hv p), of_pipe_here in Ht. destruct f as [g mo]. cbn in Ht. destruct o; [|done]. destruct Ht as [-> Ht].
    split; [by apply Hsim|done].
Qed.

(** Asking whether there is one. *)
Lemma sub_ready_sim fuel z x s p : sub_sim z x s p → (waiting (xfq x) s < fuel)%nat → ∃ x' s',
  xsub_xhas_in fuel x s = (Ok (sock_ready z, x'), s') ∧ sub_sim z x' s' p.
Proof.
  intros Hs Hf. pose proof Hs as [_ _ _ Hi Hone _ Haw Hms Hvw].
  destruct (xsub_xhas_in_spec fuel x s p Hi Hf) as (b & x' & s' & g & Hr & Hi' & Hrec & Hg & Hv & Hb).
  assert (g = p) as -> by (destruct Hg as [?|[Hg _]]; [done|by apply Hone]).
  exists x', s'. split; [|eapply sim_received; try done; by rewrite Hv].
  rewrite Hr. do 3 f_equal. assert (sock_ready z = true ↔ view x s p p ≠ []) as Hz.
  { rewrite Hvw. unfold sock_ready. destruct (partial z) as [|f m]; [|by rewrite frames_cons].
    destruct (inbox z) as [|[|f m] i]; [done|by inversion Hms|]. by rewrite all_frames_cons, frames_cons. }
  destruct b.
  - destruct Hb as (q & Hq & Hne). symmetry. apply Hz.
    assert (q = p) as -> by (destruct Hq as [?|[Hq _]]; [done|by apply Hone]). done.
  - destruct (sock_ready z) eqn:Hrd; [|done]. exfalso. destruct Hb as [Hh Hb]. apply (proj1 Hz eq_refl).
    destruct (decide (avail s p = [])) as [Hn|Hn]; [unfold view; by rewrite Hh, Hn|by apply Hb, Haw].
Qed.

(** ** Arrivals and subscriptions *)

Lemma accepts_passes z x f m : same_filters z (subscriptions x) → trie_wf (subscriptions x) → xfilter x = true →
  stype z = ZMQ_SUB → isopen z = true → accepts z (f :: m) = passes x f.
Proof.
  intros Hsu Ht Hfl Hty Hop. apply eq_true_iff_eq. rewrite passes_spec by done. unfold accepts. rewrite Hty, Hop, Hfl.
  cbn [andb]. rewrite existsb_exists. split.
  - intros (pre & Hin%list_elem_of_In & Hp%StringData_startsWith_spec) _. exists pre. split; [done|]. by apply Hsu.
  - intros Hsub. destruct (Hsub eq_refl) as (pre & Hp & Hr). exists pre. split; [apply list_elem_of_In; by apply Hsu|].
    by apply StringData_startsWith_spec.
Qed.

Definition deliver_all (ms : list zmsg) z : socket_t := foldl (λ z m, deliver m z) z ms.

Lemma deliver_all_spec ms z : 
  let z' := deliver_all ms z in
  (stype z' = stype z ∧ isopen z' = isopen z ∧ filters z' = filters z) ∧ partial z' = partial z ∧
  inbox z' = inbox z ++ filter (λ m, accepts z m = true) ms.
Proof.
  unfold deliver_all. revert z. induction ms as [|m ms IH]; intros z; cbn [foldl]; [by rewrite app_nil_r|].
  destruct (IH (deliver m z)) as ((H1 & H2 & H3) & H4 & H5). cbn zeta. rewrite H1, H2, H3, H4, H5. clear.
  assert (∀ m', accepts (deliver m z) m' = accepts z m') as Ha by (intros m'; unfold deliver; by destruct (accepts z m)).
  rewrite filter_cons. assert (filter (λ m', accepts (deliver m z) m' = true) ms = filter (λ m', accepts z m' = true) ms) as ->.
  { apply list_filter_iff. intros m'. by rewrite Ha. }
  unfold deliver. destruct (accepts z m) eqn:He; case_decide; try done. cbn. by rewrite <-app_assoc.
Qed.

Lemma visible_messages z x ms : same_filters z (subscriptions x) → trie_wf (subscriptions x) → xfilter x = true →
  stype z = ZMQ_SUB → isopen z = true → Forall (λ m, m ≠ []) ms →
  visible (passes x) Start (all_frames ms) = all_frames (filter (λ m, accepts z m = true) ms).
Proof.
  intros Hsu Ht Hfl Hty Hop. induction 1 as [|[|f m] ms Hm Hms IH]; [done|done|].
  rewrite all_frames_cons.
  rewrite filter_cons, (accepts_passes z x f m) by done. destruct (passes x f) eqn:Hp.
  - rewrite decide_True by done. by rewrite all_frames_cons, visible_kept, IH.
  - rewrite decide_False by done. by rewrite visible_dropped.
Qed.

(** Messages become readable; a pipe that had nothing to read is activated. *)
Definition arrive (p : pipe_id) (ms : list zmsg) x s x' s' : Prop :=
  Forall (λ m, m ≠ []) ms ∧ valid s' p ∧ avail s' p = avail s p ++ all_frames ms ∧
  if decide (reading (xfq x) p) then x' = x else xsub_xread_activated p x = Ok x'.

Lemma arrive_wf p ms x s x' s' z : sub_sim z x s p → arrive p ms x s x' s' → ∃ q,
  x' = set_fq q x ∧ fq_wf q ∧ (∀ q', q' ∈ items (fpipes q) ↔ q' = p) ∧ reading q p ∧ fmore q = fmore (xfq x) ∧
  (fmore q = true → q = xfq x).
Proof.
  intros [_ _ _ Hi Hone _ Haw _ _] (_ & _ & _ & Hx). pose proof (xsub_fq _ _ _ Hi) as [Hq Hv Hmo].
  case_decide as Hrd.
  - exists (xfq x). subst x'. split; [by destruct x|]. by split_and!.
  - destruct (fq_activated_spec p (xfq x) Hq) as (q & Hr & Hq' & Hmo' & Hit & Hre & _); [by apply Hone|done|].
    unfold xsub_xread_activated in Hx. rewrite Hr in Hx. injection Hx as <-. exists q. split_and!; try done.
    + intros q'. by rewrite Hit.
    + apply Hre. by right.
    + rewrite Hmo'. intros Hf. destruct (Hmo Hf) as (c & [[Hc%Hone _] _] & Hne). subst c. by destruct Hrd; apply Haw.
Qed.

Lemma sub_arrive_sim p ms z x s x' s' : sub_sim z x s p → arrive p ms x s x' s' →
  sub_sim (deliver_all ms z) x' s' p.
Proof.
  intros Hs Har. destruct (arrive_wf p ms x s x' s' z Hs Har) as (q & -> & Hq & Hone & Hrd & Hmo & Hsame).
  destruct Har as (Hms & Hv & Hav & _). pose proof Hs as [[Hty Hop] Hfl Hsu Hi Hone0 [[Hd Hdv Hdi] Hdone] Haw Hbox Hvw].
  pose proof Hi as [Ht [Hwf Hval Hfm] Hxm Hmsg].
  destruct (deliver_all_spec ms z) as ((Hty' & Hop' & Hfi') & Hpa' & Hin').
  assert (xsub_inv (set_fq q x) s' p) as Hi'.
  { constructor; [done| |by cbn; rewrite Hmo|].
    - constructor; [done|intros q' ->%Hone; done|]. cbn. intros Hf. rewrite (Hsame Hf). rewrite Hmo in Hf.
      destruct (Hfm Hf) as (c & Hc & Hne). exists c. split; [done|]. assert (c = p) as -> by (apply Hone0, Hc).
      rewrite Hav. by intros [? _]%app_eq_nil.
    - cbn. intros Hh. destruct (Hmsg Hh) as [Hx Hm]. split; [done|]. intros Hm2. rewrite Hsame; [by apply Hm|].
      rewrite Hmo, Hxm, Hh. done. }
  constructor; try done; [split; congruence|unfold same_filters; cbn; by rewrite Hfi'| | |].
  - split; [|done]. constructor; cbn; [done| |done]. intros q' ->%Hdone. done.
  - rewrite Hin'. apply Forall_app. split; [done|].
    apply Forall_forall. intros m [_ Hm]%list_elem_of_filter. by eapply Forall_forall in Hms.
  - rewrite Hpa', Hin', all_frames_app, app_assoc, <-Hvw. unfold view. cbn [has_message message set_fq xfq].
    change (passes (set_fq q x)) with (passes x). rewrite Hav, <-app_assoc. f_equal.
    rewrite <-(visible_messages z x ms) by done.
    assert (pipe_mode q p = pipe_mode (xfq x) p) as ->.
    { unfold pipe_mode. rewrite Hmo. destruct (fmore (xfq x)) eqn:Hf; [by rewrite Hsame by congruence|].
      by rewrite !decide_False by (by intros []). }
    apply visible_app; [apply avail_whole, Hval; by apply Hone0|].
    destruct (avail s p) eqn:Ha; [|by left]. right. apply pipe_mode_idle. destruct (fmore (xfq x)) eqn:Hf; [|done].
    destruct (Hfm eq_refl) as (c & [[Hc%Hone0 _] _] & Hne). by subst c.
Qed.

(** Which messages can be seen depends only on the frames that wait. *)
Lemma visible_ext pass pass' md l : (∀ f more, (f, more) ∈ l → pass f = pass' f) →
  visible pass md l = visible pass' md l.
Proof.
  revert md. induction l as [|[f more] l IH]; intros md Hl; [done|]. cbn [visible].
  rewrite (Hl f more) by (by left). rewrite IH; [done|]. intros g mo Hg. apply (Hl g mo). by right.
Qed.

(** No message that waits is one that only the prefix [pre] lets through. *)
Definition nothing_new (pre : string) x s (p : pipe_id) : Prop :=
  ∀ f more, (f, more) ∈ avail s p → StringData_startsWith f pre = true → passes x f = true.

(** A subscription that lets none of the messages that wait through. *)
Lemma sub_subscribe_sim pre z x s p : sub_sim z x s p → nothing_new pre x s p →
  refs pre (subscriptions x) < 2 ^ 32 - 1 → ∃ z' x' s',
  sub_xsetsockopt ZMQ_SUBSCRIBE pre x s = (Ok (None, x'), s') ∧ sock_subscribe pre z = Ok z' ∧ sub_sim z' x' s' p.
Proof.
  intros [[Hty Hop] Hfl Hsu Hi Hone [Hsd Hdone] Haw Hbox Hvw] Hnew Hb. pose proof Hi as [Ht [Hwf Hval Hfm] Hxm Hmsg].
  destruct (sub_subscribe_spec pre x s Ht Hb Hsd) as (t & d & s' & Hr & Ht' & Hsd' & Hit & Hrefs & Hq).
  destruct (Hq p) as [Hav' _]; [by apply Hdone|].
  eexists _, _, s'. split; [exact Hr|]. unfold sock_subscribe. rewrite Hop, Hty. cbn [negb]. rewrite decide_True by done.
  split; [done|]. pose proof (refs_range pre _ Ht) as Hpos. constructor; cbn [isopen stype filters inbox partial]; try done.
  - intros q. cbn. rewrite elem_of_app, list_elem_of_singleton, (Hsu q), Hrefs.
    case_decide as He; [subst; split; [lia|by right]|]. split; [intros [?|?]; done|by left].
  - constructor; cbn; [done| |done|done]. constructor; [done| |].
    + intros q ->%Hone. destruct Hsd' as [_ Hv' _]. apply Hv'. cbn. by apply Hit, Hdone.
    + intros Hf. destruct (Hfm Hf) as (c & Hc & Hne). exists c. split; [done|].
      assert (c = p) as -> by (apply Hone, Hc). by rewrite Hav'.
  - split; [done|]. intros q. by rewrite Hit.
  - rewrite Hav'. done.
  - rewrite <-Hvw. unfold view. cbn [has_message message set_dist set_subscriptions xfq]. rewrite Hav'. f_equal.
    apply visible_ext. intros f more Hin. apply eq_true_iff_eq. rewrite passes_spec by done.
    split; intros Hp; [|rewrite passes_spec in Hp by done].
    + destruct (Hp Hfl) as (q & Hpf & Hrf). cbn in Hrf. rewrite Hrefs in Hrf. case_decide as He.
      * subst q. apply (Hnew f more Hin). by apply StringData_startsWith_spec.
      * apply passes_spec; [done|]. intros _. by exists q.
    + intros _. destruct (Hp Hfl) as (q & Hpf & Hrf). exists q. split; [done|]. cbn. rewrite Hrefs.
      case_decide; [lia|done].
Qed.

(** A new socket with its first publisher. *)
Lemma sub_attach_sim p s : valid s p → avail s p = [] → ∃ x s',
  xsub_xattach_pipe p sub_new s = (Ok x, s') ∧ sub_sim (new_socket ZMQ_SUB) x s' p.
Proof.
  intros Hv Ha. unfold xsub_xattach_pipe.
  destruct (fq_attach_spec p (xfq sub_new) fq_new_wf) as (q & -> & Hq & Hmo & Hit & Hrd & _); [by intros ?%elem_of_nil|].
  rewrite run_lift_Ok.
  destruct (dist_attach_spec p (xdist sub_new) dist_wf_new) as (d & -> & Hd & Hdm & Hdit & _); [by intros ?%elem_of_nil|].
  rewrite run_lift_Ok. destruct (send_subscriptions_spec p (subscriptions sub_new) s trie_new_wf Hv) as
    (l & k & s' & Hr & _ & _ & _ & _ & Hsame). rewrite (bind_Ok _ _ _ _ _ Hr). eexists _, s'. split; [done|].
  destruct (Hsame p) as (Hv' & Ha' & _). specialize (Hv' Hv). rewrite Ha in Ha'. cbn [xfq xdist sub_new] in *.
  assert (∀ q', q' ∈ items (fpipes q) ↔ q' = p) as Hone.
  { intros q'. rewrite Hit. split; [by intros [?%elem_of_nil|]|by right]. }
  assert (∀ q', q' ∈ items (dpipes d) ↔ q' = p) as Hdone.
  { intros q'. rewrite Hdit. split; [by intros [?%elem_of_nil|]|by right]. }
  constructor; [done|done| | |done| | |constructor|unfold view; cbn; by rewrite Ha'].
  - intros pre. cbn. split; [by intros ?%elem_of_nil|]. intros Hx. destruct Hx. apply refs_new.
  - constructor; cbn; [apply trie_new_wf| |done|done]. constructor; [done|by intros q' ->%Hone|by rewrite Hmo].
  - split; [|done]. constructor; cbn; [done| |done]. by intros q' ->%Hdone.
  - intros _. apply Hrd. by right.
Qed.

(** ** Runs *)

Inductive sub_event := Recv | Ready | Subscribe (prefix : string) | Arrive (ms : list zmsg).
Inductive sub_out := Got (f : option string) | IsReady (b : bool) | Done.

(** What the library does.  A subscription lets none of the messages that wait
    through: the library looks at the subscriptions when it reads a message, [Zmq]
    when it arrives.  The server subscribes each of its sockets before it connects it
    and never takes a subscription back. *)
Inductive lib_step (p : pipe_id) : xsub_t * S → sub_event → sub_out → xsub_t * S → Prop :=
  | lib_recv x s r x' s' : xsub_xrecv (Datatypes.S (waiting (xfq x) s)) x s = (Ok (r, x'), s') →
      lib_step p (x, s) Recv (Got (match r with inr f => Some f.1 | inl _ => None end)) (x', s')
  | lib_ready x s b x' s' : xsub_xhas_in (Datatypes.S (waiting (xfq x) s)) x s = (Ok (b, x'), s') →
      lib_step p (x, s) Ready (IsReady b) (x', s')
  | lib_subscribe pre x s e x' s' : nothing_new pre x s p → refs pre (subscriptions x) < 2 ^ 32 - 1 →
      sub_xsetsockopt ZMQ_SUBSCRIBE pre x s = (Ok (e, x'), s') → lib_step p (x, s) (Subscribe pre) Done (x', s')
  | lib_arrive ms x s x' s' : arrive p ms x s x' s' → lib_step p (x, s) (Arrive ms) Done (x', s').

Inductive lib_run (p : pipe_id) : xsub_t * S → list sub_event → list sub_out → xsub_t * S → Prop :=
  | lib_run_nil st : lib_run p st [] [] st
  | lib_run_cons st ev out st' evs outs st'' :
      lib_step p st ev out st' → lib_run p st' evs outs st'' → lib_run p st (ev :: evs) (out :: outs) st''.

(** What the sockets of [Zmq] do. *)
Definition zmq_step (ev : sub_event) z : sub_out * socket_t :=
  match ev with
  | Recv => let '(o, z) := sock_take z in (Got o, z)
  | Ready => (IsReady (sock_ready z), z)
  | Subscribe pre => (Done, match sock_subscribe pre z with Ok z => z | Throw _ => z end)
  | Arrive ms => (Done, deliver_all ms z)
  end.

Fixpoint zmq_outs (evs : list sub_event) z : list sub_out :=
  match evs with
  | [] => []
  | ev :: evs => let '(o, z) := zmq_step ev z in o :: zmq_outs evs z
  end.

Lemma lib_step_sim p z x s ev out st' : sub_sim z x s p → lib_step p (x, s) ev out st' →
  (zmq_step ev z).1 = out ∧ sub_sim (zmq_step ev z).2 st'.1 st'.2 p.
Proof.
  intros Hs Hst. inversion Hst as [? ? r x' s' Hr|? ? b x' s' Hr|pre ? ? e x' s' Hn Hb Hr|ms ? ? x' s' Hr]; subst; cbn.
  - destruct (sub_recv_sim _ z x s p Hs (Nat.lt_succ_diag_r _)) as (r1 & x1 & s1 & Hr1 & Hs1 & Ho).
    rewrite Hr in Hr1. injection Hr1 as <- <- <-. destruct (sock_take z) as [o z']. cbn in *. by subst o.
  - destruct (sub_ready_sim _ z x s p Hs (Nat.lt_succ_diag_r _)) as (x1 & s1 & Hr1 & Hs1).
    rewrite Hr in Hr1. injection Hr1 as <- <- <-. done.
  - destruct (sub_subscribe_sim pre z x s p Hs Hn Hb) as (z' & x1 & s1 & Hr1 & -> & Hs1).
    rewrite Hr in Hr1. injection Hr1 as _ <- <-. done.
  - split; [done|]. by eapply sub_arrive_sim.
Qed.

Lemma lib_run_sim p z st evs outs st' : sub_sim z st.1 st.2 p → lib_run p st evs outs st' →
  outs = zmq_outs evs z ∧ ∃ z', sub_sim z' st'.1 st'.2 p.
Proof.
  intros Hs Hr. revert z Hs. induction Hr as [st|[x s] ev out st' evs outs st'' Hst Hr IH]; intros z Hs; [eauto|].
  destruct (lib_step_sim p z x s ev out st' Hs Hst) as [Ho Hs']. cbn [zmq_outs].
  destruct (zmq_step ev z) as [o z']. cbn in *. subst o. destruct (IH z' Hs') as [-> Hz]. done.
Qed.

End sim.

(** C11: a SUB socket of the library that is attached to a publisher gives, for every sequence of
    receives, readiness checks, arriving messages, and subscriptions that let none of the
    messages through that wait already, the results that the SUB socket of the model gives;
    and a receive or a check in any state it reaches returns.  The server only makes
    subscriptions before it connects the socket, when no message can wait. *)
Theorem sub_refines {S : Type} `{PipeLaws S} (p : pipe_id) (s s0 : S) (x : xsub_t) evs outs st :
  valid s p → avail s p = [] → xsub_xattach_pipe p sub_new s = (Ok x, s0) → lib_run p (x, s0) evs outs st →
  outs = zmq_outs evs (new_socket ZMQ_SUB) ∧ ∀ ev, ev = Recv ∨ ev = Ready → ∃ out st', lib_step p st ev out st'.
Proof.
  intros Hv Ha Hr Hrun. destruct (sub_attach_sim p s Hv Ha) as (x1 & s1 & Hr1 & Hs). rewrite Hr in Hr1.
  injection Hr1 as <- <-. destruct (lib_run_sim p _ (x, s0) evs outs st Hs Hrun) as [-> [z Hz]]. split; [done|].
  destruct st as [x' s']. cbn in Hz. intros ev [-> | ->].
  - destruct (sub_recv_sim _ z x' s' p Hz (Nat.lt_succ_diag_r _)) as (r & x2 & s2 & Hr2 & _).
    eexists _, _. by apply lib_recv.
  - destruct (sub_ready_sim _ z x' s' p Hz (Nat.lt_succ_diag_r _)) as (x2 & s2 & Hr2 & _).
    eexists _, _. by apply lib_ready.
Qed.

(** A subscriber at one end of a pipe; the other end sends two messages. *)
Definition demo_net : net := {[0%nat := (true, pipepair (λ _, 1000))]}.
Definition demo_sub : xsub_t * net :=
  match xsub_xattach_pipe 0 sub_new demo_net with (Ok x, s) => (x, s) | (_, s) => (sub_new, s) end.
Definition demo_subscribed : xsub_t * net :=
  match sub_xsetsockopt ZMQ_SUBSCRIBE "a" demo_sub.1 demo_sub.2 with
  | (Ok (_, x), s) => (x, s)
  | (_, s) => (sub_new, s)
  end.
Definition demo_send (d : string) (more : bool) : net → net := net_change 0 (peer_sends d more).
Definition demo_arrived : net := demo_send "d" false (demo_send "ab" true (demo_send "bc" false demo_subscribed.2)).

Lemma demo_send_valid d more s : net_valid s 0 → net_valid (demo_send d more s) 0.
Proof. apply net_change_valid, peer_sends_inv. Qed.

Lemma demo_subscribed_valid : net_valid demo_subscribed.2 0.
Proof.
  exists true, (end_flush true (end_write true (String subscribe_byte "a") false (end_flush true (pipepair (λ _, 1000))).2).2).2.
  split; [vm_compute; reflexivity|]. apply end_flush_inv, end_write_inv, end_flush_inv, default_pair_inv.
Qed.

Lemma demo_arrived_valid : net_valid demo_arrived 0.
Proof. apply demo_send_valid, demo_send_valid, demo_send_valid, demo_subscribed_valid. Qed.

Lemma sub_refines_witness :
  [Done; Done; IsReady true; Got (Some "ab"); Got (Some "d"); Got None] =
  zmq_outs [Subscribe "a"; Arrive [["bc"]; ["ab"; "d"]]; Ready; Recv; Recv; Recv] (new_socket ZMQ_SUB) ∧
  ∀ ev, ev = Recv ∨ ev = Ready → ∃ out st', lib_step (S := net) 0 (demo_subscribed.1, demo_arrived) ev out st'.
Proof.
  split; [by vm_compute|].
  eapply (sub_refines 0 demo_net demo_sub.2 demo_sub.1 [Subscribe "a"; Arrive [["bc"]; ["ab"; "d"]]] [Done; Done]).
  - exists true, (pipepair (λ _, 1000)). split; [done|]. apply default_pair_inv.
  - by vm_compute.
  - vm_compute. reflexivity.
  - eapply lib_run_cons; [eapply lib_subscribe; [by intros ? ? ?%elem_of_nil|by vm_compute|vm_compute; reflexivity]|].
    eapply lib_run_cons; [|apply lib_run_nil]. apply lib_arrive. split; [repeat constructor; done|].
    split; [apply demo_arrived_valid|]. split; [by vm_compute|]. by vm_compute.
Defined.

(** Otherwise the two differ: a message that arrived before the subscription that
    matches it is received from the library, and is lost in the model. *)
Lemma late_subscription_differs :
  match sub_xsetsockopt ZMQ_SUBSCRIBE "b" demo_sub.1 (demo_send "bc" false demo_sub.2) with
  | (Ok (_, x), s) => match xsub_xrecv 2 x s with (Ok (r, _), _) => Some r | _ => None end
  | _ => None
  end = Some (inr ("bc", false)) ∧
  zmq_outs [Arrive [["bc"]]; Subscribe "b"; Recv] (new_socket ZMQ_SUB) = [Done; Done; Got None].
Proof. split; by vm_compute. Qed.
