(* ===== verification/ZmqSockets.v ===== *)
(** * What the sockets of the library guarantee

    Publishers, subscribers of several publishers and pipelines, over any pipes
    that obey the laws of [ZmqDist]; the examples run on the pipes of [ZmqPipe]. *)

From S2P Require Import Prelude Bytes Monad ZmqNode ZmqTrie ZmqYpipe ZmqPipe ZmqPipeSpec ZmqMtrie ZmqArray ZmqDist ZmqFq ZmqXsub ZmqXpub ZmqLb ZmqNet.

(** ** Publishers *)

Section publisher.
Context {S : Type} `{HP : PipeLaws S}.

(** What happens to a publisher.  Peers unsubscribe only from what they subscribed to; between the
    calls they do anything to the pipes. *)
Inductive pub_step : xpub_t * S → xpub_t * S → Prop :=
  | pub_attach fuel p x s x' s' : p ∉ items (dpipes (pdist x)) → valid s p → disciplined ∅ (avail s p) →
      (length (avail s p) < fuel)%nat → xpub_xattach_pipe fuel p false x s = (Ok x', s') → pub_step (x, s) (x', s')
  | pub_read fuel p own x s x' s' : p ∈ items (dpipes (pdist x)) → owns (psubs x) p own → disciplined own (avail s p) →
      (length (avail s p) < fuel)%nat → xpub_xread_activated fuel p x s = (Ok x', s') → pub_step (x, s) (x', s')
  | pub_room p x s x' : p ∈ items (dpipes (pdist x)) → ¬ eligiblep (pdist x) p → xpub_xwrite_activated p x = Ok x' →
      pub_step (x, s) (x', s)
  | pub_gone p x s x' : p ∈ items (dpipes (pdist x)) → xpub_xpipe_terminated p x = Ok x' → pub_step (x, s) (x', s)
  | pub_send f m x s x' s' : xpub_send_parts (f :: m) x s = (Ok x', s') → pub_step (x, s) (x', s')
  | pub_peers x s s' : all_valid s' (pdist x) → pub_step (x, s) (x, s').

Record pub_ok (st : xpub_t * S) : Prop := mkPubOk {
  pub_ok_wf : xpub_wf st.1;
  pub_ok_idle : pmore st.1 = false;
  pub_ok_valid : all_valid st.2 (pdist st.1)
}.

Lemma pub_room_ok p x x' : xpub_wf x → pmore x = false → p ∈ items (dpipes (pdist x)) → ¬ eligiblep (pdist x) p →
  xpub_xwrite_activated p x = Ok x' →
  xpub_wf x' ∧ pmore x' = false ∧ ∀ q, q ∈ items (dpipes (pdist x')) ↔ q ∈ items (dpipes (pdist x)).
Proof.
  intros [Ht Hd Hps Hmm Hun] Hmo Hp He. unfold xpub_xwrite_activated.
  destruct (dist_activated_spec p (pdist x) Hd Hp He) as (d & -> & Hd' & Hmo' & Hit & Hq). intros [= <-].
  split; [|done]. constructor; cbn; [done|done| |congruence|].
  - intros pre q Hin. apply Hit. by eapply Hps.
  - intros Hm. apply (matched_mono (pdist x)); [done..| |by apply Hun]. intros q. apply Hq.
Qed.

(** Messages of peers are not part of one that is being sent. *)
Lemma xpub_apply_more p data more x x' : xpub_apply p data more x = Ok x' → pmore x' = pmore x.
Proof.
  unfold xpub_apply. destruct data as [|c rest]; [by intros [= <-]|]. case_decide; [|by intros [= <-]].
  destruct (if decide _ then _ else _) as [[u t]|e]; [|done]. cbn [mbind res_bind]. by case_match; intros [= <-].
Qed.

Lemma xpub_read_more fuel p x s x' s' : xpub_xread_activated fuel p x s = (Ok x', s') → pmore x' = pmore x.
Proof.
  revert x s. induction fuel as [|fuel IH]; intros x s; [done|]. cbn [xpub_xread_activated].
  destruct (pread p s) as [[[[data more]|]|e] s1] eqn:Hr; [..|by rewrite (bind_Throw _ _ _ _ _ Hr)];
    rewrite (bind_Ok _ _ _ _ _ Hr); [|by intros [= <- _]].
  destruct (xpub_apply p data more x) as [x1|e] eqn:Ha; [|done]. rewrite run_lift_Ok. intros Hx%IH.
  by rewrite Hx, (xpub_apply_more _ _ _ _ _ Ha).
Qed.

Lemma xpub_attach_more fuel p x s x' s' : xpub_xattach_pipe fuel p false x s = (Ok x', s') → pmore x' = pmore x.
Proof.
  unfold xpub_xattach_pipe. destruct (dist_attach p (pdist x)) as [d|e]; [|done]. rewrite !run_lift_Ok.
  by intros ->%xpub_read_more.
Qed.

Lemma pub_step_ok st st' : pub_step st st' → pub_ok st → pub_ok st'.
Proof.
  intros Hst [Hx Hmo Hv].
  destruct Hst as [fuel p x s x' s' Hp Hvp Hdis Hf Hr|fuel p own x s x' s' Hp Ho Hdis Hf Hr|p x s x' Hp He Hr|p x s x' Hp Hr
    |f m x s x' s' Hr|x s s' Hv']; cbn [fst snd] in *.
  - destruct (xpub_attach_spec _ fuel p false x s Hx Hv Hp Hvp eq_refl Hdis Hf) as (x1 & s1 & Hr1 & Hx1 & Hv1 & _).
    pose proof (xpub_attach_more _ _ _ _ _ _ Hr). rewrite Hr in Hr1. injection Hr1 as <- <-. constructor; cbn; [done|congruence|done].
  - destruct (xpub_read_spec _ fuel p x s own Hx Hv Hp eq_refl Ho Hdis Hf) as (x1 & s1 & Hr1 & Hx1 & Hv1 & _).
    pose proof (xpub_read_more _ _ _ _ _ _ Hr). rewrite Hr in Hr1. injection Hr1 as <- <-. constructor; cbn; [done|congruence|done].
  - destruct (pub_room_ok p x x' Hx Hmo Hp He Hr) as (Hx' & Hmo' & Hit). constructor; cbn; [done..|].
    intros q Hq. by apply Hv, Hit.
  - destruct (xpub_terminated_spec p x Hx Hp) as (x1 & l & Hr1 & Hx1 & Hmo1 & Hit & _). rewrite Hr in Hr1. injection Hr1 as <-.
    constructor; cbn; [done|congruence|]. intros q Hq. by apply Hv, Hit.
  - destruct (xpub_publish_spec f m x s Hx Hmo Hv) as (x1 & s1 & Hr1 & Hx1 & Hmo1 & Hv1 & _). rewrite Hr in Hr1.
    injection Hr1 as <- <-. by constructor.
  - by constructor.
Qed.

Lemma pub_reachable_ok st st' : rtc pub_step st st' → pub_ok st → pub_ok st'.
Proof. induction 1; eauto using pub_step_ok. Qed.

Lemma pub_new_ok b s : pub_ok (mkXpub mtrie_new dist_new false false [] b, s).
Proof. constructor; [apply xpub_new_wf|done|by intros p ?%elem_of_nil]. Qed.

End publisher.

(** C12: whatever happened to a publisher before, a message of any number of parts that it sends
    goes as a whole to every peer with a subscription that starts its first part, if there is room
    in the pipe and the pipe has not been found full since; nobody else gets any of it. *)
Theorem pub_delivers {S : Type} `{PipeLaws S} (xpub : bool) (s0 : S) (x : xpub_t) (s : S) (f : string) (m : list string) :
  rtc pub_step (if xpub then xpub_new else pub_new, s0) (x, s) → ∃ x' s',
  xpub_send_parts (f :: m) x s = (Ok x', s') ∧
  ∀ p, p ∈ items (dpipes (pdist x)) →
    (wants (psubs x) p f ∧ eligiblep (pdist x) p ∧ room s p = true → written s' p = written s p ++ frames (f :: m)) ∧
    (¬ (wants (psubs x) p f ∧ eligiblep (pdist x) p ∧ room s p = true) → written s' p = written s p).
Proof.
  intros Hr. assert (pub_ok (x, s)) as [Hx Hmo Hv].
  { eapply pub_reachable_ok; [exact Hr|]. destruct xpub; apply pub_new_ok. }
  destruct (xpub_publish_spec f m x s Hx Hmo Hv) as (x' & s' & Hs & _ & _ & _ & _ & _ & _ & Hq).
  exists x', s'. split; [done|]. intros p Hp. destruct (Hq p Hp) as (H1 & H2 & _). done.
Qed.

(** Two peers of a publisher, of which the first subscribes to what starts with "a". *)
Definition peers_net : net :=
  {[0%nat := (true, (end_flush false (end_write false (String subscribe_byte "a") false (pipepair (λ _, 1000))).2).2);
    1%nat := (true, pipepair (λ _, 1000))]}.

Definition after_call (r : res xpub_t * net) : xpub_t * net :=
  match r with (Ok x, s) => (x, s) | (Throw _, s) => (pub_new, s) end.
Definition returns (r : res xpub_t * net) : bool := if r.1 is Ok _ then true else false.

Lemma after_call_eq r : returns r = true → r = (Ok (after_call r).1, (after_call r).2).
Proof. by destruct r as [[] s]. Qed.

Definition peers_one : xpub_t * net := after_call (xpub_xattach_pipe 9 0 false pub_new peers_net).
Definition peers_two : xpub_t * net := after_call (xpub_xattach_pipe 9 1 false peers_one.1 peers_one.2).

Lemma peers_one_step : pub_step (pub_new, peers_net) (peers_one.1, peers_one.2).
Proof.
  apply (pub_attach 9 0); [by intros ?%elem_of_nil| | | |].
  - eexists true, _. split; [reflexivity|]. apply end_flush_inv, end_write_inv, default_pair_inv.
  - vm_compute. split; [discriminate|done].
  - vm_compute. lia.
  - apply after_call_eq. vm_compute. reflexivity.
Qed.

Lemma peers_two_step : pub_step (peers_one.1, peers_one.2) (peers_two.1, peers_two.2).
Proof.
  apply (pub_attach 9 1).
  - apply (bool_decide_unpack (1%nat ∉ items (dpipes (pdist peers_one.1)))). vm_compute. done.
  - exists true, (pipepair (λ _, 1000)). split; [vm_compute; reflexivity|]. apply default_pair_inv.
  - vm_compute. done.
  - vm_compute. lia.
  - apply after_call_eq. vm_compute. reflexivity.
Qed.

Lemma peers_two_reachable : rtc pub_step (pub_new, peers_net) (peers_two.1, peers_two.2).
Proof. eapply rtc_l; [apply peers_one_step|]. eapply rtc_once. apply peers_two_step. Qed.

Lemma peers_wants p : wants (psubs peers_two.1) p "ab" ↔ p = 0%nat.
Proof.
  assert (pub_ok (peers_two.1, peers_two.2)) as [[Ht _ _ _ _] _ _].
  { eapply pub_reachable_ok; [apply peers_two_reachable|apply pub_new_ok]. }
  destruct (mtrie_match_spec "ab" (psubs peers_two.1) Ht) as (l & Hl & Hlp).
  assert (mtrie_match "ab" (psubs peers_two.1) = Ok [0%nat]) as He by (vm_compute; reflexivity).
  rewrite He in Hl. injection Hl as <-. unfold wants. rewrite <-Hlp. apply list_elem_of_singleton.
Qed.

Lemma pub_delivers_witness : ∃ x' s',
  xpub_send_parts ["ab"; "c"] peers_two.1 peers_two.2 = (Ok x', s') ∧
  written s' 0 = written peers_two.2 0 ++ [("ab", true); ("c", false)] ∧ written s' 1 = written peers_two.2 1.
Proof.
  destruct (pub_delivers (S := net) false peers_net peers_two.1 peers_two.2 "ab" ["c"] peers_two_reachable) as (x' & s' & Hr & Hq).
  exists x', s'. split; [exact Hr|]. split.
  - apply (Hq 0%nat).
    + apply (bool_decide_unpack (0%nat ∈ items (dpipes (pdist peers_two.1)))). vm_compute. done.
    + split; [by apply peers_wants|]. split; [|vm_compute; reflexivity].
      refine (bool_decide_eq_true_1 _ _). vm_compute. reflexivity.
  - apply (Hq 1%nat).
    + apply (bool_decide_unpack (1%nat ∈ items (dpipes (pdist peers_two.1)))). vm_compute. done.
    + by intros [?%peers_wants _].
Defined.

(** ** A peer can make a publisher abort *)

(** C39: a peer that unsubscribes from a prefix it has not subscribed to, and another peer has, makes
    the process of the publisher abort. *)
Theorem unsubscribe_aborts {S : Type} `{PipeLaws S} (xpub : bool) (s0 : S) (x : xpub_t) (s : S) (fuel : nat)
    (p q : pipe_id) (pre : string) (rest : list frame_t) :
  rtc pub_step (if xpub then xpub_new else pub_new, s0) (x, s) → p ∈ items (dpipes (pdist x)) →
  p ∉ subs pre (psubs x) → q ∈ subs pre (psubs x) →
  avail s p = (String unsubscribe_byte pre, false) :: rest → ∃ s',
  xpub_xread_activated (Datatypes.S fuel) p x s = (Throw (Aborted "erased == 1"), s').
Proof.
  intros Hr Hp Hn Hq Ha. assert (pub_ok (x, s)) as [Hx _ Hv].
  { eapply pub_reachable_ok; [exact Hr|]. destruct xpub; apply pub_new_ok. }
  cbn [xpub_xread_activated]. destruct (pread_law s p (Hv p Hp)) as (s1 & Hrd & _). rewrite Ha in Hrd.
  rewrite (bind_Ok _ _ _ _ _ Hrd). cbn [head]. exists s1.
  rewrite (xpub_foreign_unsubscribe p pre false x Hx Hn); [done|]. intros He. by rewrite He in Hq.
Qed.

(** The second peer of the example unsubscribes from what the first has subscribed to. *)
Definition peers_bad : net :=
  net_change 1 end_command (net_change 1 (peer_sends (String unsubscribe_byte "a") false) peers_two.2).

Lemma peers_bad_step : pub_step (peers_two.1, peers_two.2) (peers_two.1, peers_bad).
Proof.
  apply pub_peers. assert (pub_ok (peers_two.1, peers_two.2)) as [_ _ Hv].
  { eapply pub_reachable_ok; [apply peers_two_reachable|apply pub_new_ok]. }
  intros q Hq. apply net_change_valid; [apply end_command_inv|]. apply net_change_valid; [apply peer_sends_inv|].
  exact (Hv q Hq).
Qed.

Lemma unsubscribe_aborts_witness : ∃ s',
  xpub_xread_activated 9 1 peers_two.1 peers_bad = (Throw (Aborted "erased == 1"), s').
Proof.
  apply (unsubscribe_aborts (S := net) false peers_net peers_two.1 peers_bad 8 1 0 "a" []).
  - eapply rtc_r; [apply peers_two_reachable|apply peers_bad_step].
  - apply (bool_decide_unpack (1%nat ∈ items (dpipes (pdist peers_two.1)))). vm_compute. done.
  - apply (bool_decide_unpack (1%nat ∉ subs "a" (psubs peers_two.1))). vm_compute. done.
  - apply (bool_decide_unpack (0%nat ∈ subs "a" (psubs peers_two.1))). vm_compute. done.
  - vm_compute. reflexivity.
Defined.

(** ** Subscribers of several publishers *)

Section subscriber.
Context {S : Type} `{HP : PipeLaws S}.

(** Receiving until nothing is left, at most [n] times. *)
Fixpoint recv_run (n : nat) (x : xsub_t) : M S (list frame_t * xsub_t) := λ s,
  match n with
  | O => (Ok ([], x), s)
  | Datatypes.S n =>
      ('(r, x) ← xsub_xrecv (Datatypes.S (waiting (xfq x) s)) x;
       match r with
       | inl _ => mret ([], x)
       | inr f => '(l, x) ← recv_run n x; mret (f :: l, x)
       end) s
  end.

(** The frames of a message are not mixed with others. *)
Definition unmixed (l : list (pipe_id * frame_t)) : Prop :=
  ∀ i p f y, l !! i = Some (p, (f, true)) → l !! Datatypes.S i = Some y → y.1 = p.

Lemma recv_run_spec n x s g : xsub_inv x s g → ∃ l x' s',
  recv_run n x s = (Ok (l.*2, x'), s') ∧ xsub_inv x' s' g ∧ unmixed l ∧
  (xmore x = true → ∀ y, head l = Some y → at_pipe (xfq x) y.1) ∧
  (∀ p, view x s g p = of_pipe p l ++ view x' s' g p) ∧
  ((length l < n)%nat → ∀ p, reading (xfq x) p → view x' s' g p = []).
Proof.
  revert x s. induction n as [|n IH]; intros x s Hi.
  { exists [], x, s. split_and!; try done. cbn. lia. }
  cbn [recv_run]. destruct (xsub_xrecv_spec _ x s g Hi (Nat.lt_succ_diag_r _)) as (r & x1 & s1 & Hr & Hi1 & Hh1 & Hrec & Hres).
  rewrite (bind_Ok _ _ _ _ _ Hr). destruct r as [e|[f more]].
  { destruct Hres as (_ & _ & _ & _ & Hv & Hn). exists [], x1, s1. split_and!; try done.
    - intros p. by rewrite Hv.
    - intros _ p Hp. by rewrite Hv, Hn. }
  destruct Hres as (Hm & p & _ & Hp & Hp1 & Hv). cbn in Hm, Hp1.
  destruct (IH x1 s1 Hi1) as (l & x2 & s2 & Hr2 & Hi2 & Hun & Hhd & Hv2 & Hend). rewrite (bind_Ok _ _ _ _ _ Hr2).
  exists ((p, (f, more)) :: l), x2, s2. split; [done|]. split; [done|]. split; [|split; [|split]].
  - intros [|i] p' f' y; cbn [lookup list_lookup]; [|apply Hun]. intros [= <- <- ->] Hy.
    destruct l as [|y' l]; [done|]. injection Hy as ->. symmetry. apply (at_pipe_inj (xfq x1)); [apply Hi1|by apply Hp1|].
    by apply Hhd.
  - intros Hx y [= <-]. by apply Hp.
  - intros q. rewrite Hv, Hv2. destruct (decide (p = q)) as [->|Hne].
    + by rewrite !of_pipe_here.
    + by rewrite !of_pipe_other.
  - cbn. intros Hlt q Hq. destruct Hrec as (_ & _ & _ & (l1 & Hst) & _).
    destruct (decide (reading (xfq x1) q)) as [Hq1|Hq1]; [apply Hend; [lia|done]|].
    assert (view x1 s1 g q = []) as He; [|by rewrite Hv2 in He; apply app_eq_nil in He as [_ ?]].
    unfold view. rewrite Hh1. destruct (avail s1 q) eqn:Ha; [done|]. destruct Hq1. apply Hst; [done|]. by rewrite Ha.
Qed.

End subscriber.

(** C18: a subscriber of any number of publishers receives, of each of them, exactly the messages that
    its subscriptions match, in the order they were sent; the frames of a message come one after the
    other; and it reports that there is nothing only when nothing of the kind is left. *)
Theorem sub_merges {S : Type} `{PipeLaws S} (n : nat) (x : xsub_t) (s : S) (g : pipe_id) : xsub_inv x s g → ∃ l x' s',
  recv_run n x s = (Ok (l.*2, x'), s') ∧ unmixed l ∧
  (∀ p, view x s g p = of_pipe p l ++ view x' s' g p) ∧
  ((length l < n)%nat → ∀ p, reading (xfq x) p → view x' s' g p = []).
Proof.
  intros Hi. destruct (recv_run_spec n x s g Hi) as (l & x' & s' & Hr & _ & Hu & _ & Hv & He). by exists l, x', s'.
Qed.

(** Two publishers; the subscriber wants what starts with "a". *)
Definition two_net : net := {[0%nat := (true, pipepair (λ _, 1000)); 1%nat := (true, pipepair (λ _, 1000))]}.
Definition two_new : xsub_t :=
  set_subscriptions (match trie_add "a" trie_new with Ok (_, t) => t | Throw _ => trie_new end) sub_new.
Definition attached (p : pipe_id) (st : xsub_t * net) : xsub_t * net :=
  match xsub_xattach_pipe p st.1 st.2 with (Ok x, s) => (x, s) | (Throw _, s) => (st.1, s) end.
Definition two_sub : xsub_t * net := attached 1 (attached 0 (two_new, two_net)).
Definition two_sent : net :=
  net_change 1 (peer_sends "ac" false) (net_change 0 (peer_sends "b" false) (net_change 0 (peer_sends "ab" false) two_sub.2)).

(** What attaching keeps. *)
Definition sub_good (st : xsub_t * net) (ps : list pipe_id) : Prop :=
  xsub_inv st.1 st.2 0 ∧ sub_dist st.1 st.2 ∧ (∀ p, p ∈ items (fpipes (xfq st.1)) ↔ p ∈ ps) ∧
  (∀ p, p ∈ items (dpipes (xdist st.1)) ↔ p ∈ ps) ∧ ∀ p, net_valid two_net p → net_valid st.2 p.

Lemma attached_good p st ps : sub_good st ps → p ∉ ps → net_valid two_net p → sub_good (attached p st) (p :: ps).
Proof.
  intros (Hi & Hd & Hit & Hdit & Hv) Hp Hvp. unfold attached.
  destruct (xsub_attach_spec p st.1 st.2 0 Hi Hd) as (q & d & s' & -> & Hi' & Hd' & Hit' & Hdit' & Hrd & Hav);
    [by rewrite Hit|by rewrite Hdit|by apply Hv|].
  split_and!; try done; cbn.
  - intros p'. rewrite Hit', Hit, elem_of_cons. clear. tauto.
  - intros p'. rewrite Hdit', Hdit, elem_of_cons. clear. tauto.
  - intros p' Hp'. by apply Hav, Hv.
Qed.

Lemma two_sub_good : sub_good two_sub [1%nat; 0%nat].
Proof.
  assert (∀ p, p = 0%nat ∨ p = 1%nat → net_valid two_net p) as Hv.
  { intros p Hp. exists true, (pipepair (λ _, 1000)). split; [|apply default_pair_inv]. by destruct Hp as [-> | ->]. }
  apply attached_good; [apply attached_good| |]; [|by intros ?%elem_of_nil|by apply Hv; left| |by apply Hv; right].
  - destruct (trie_add_spec "a" trie_new trie_new_wf) as (t & Hr & Ht & _); [by rewrite refs_new|].
    assert (two_new = set_subscriptions t sub_new) as He by (unfold two_new; by rewrite Hr).
    destruct (sub_new_inv t two_net 0 Ht) as [Hi Hd]. unfold sub_good. cbn [fst snd]. rewrite He. by split_and!.
  - apply (bool_decide_unpack (1%nat ∉ [0%nat])). vm_compute. done.
Qed.

Lemma two_sent_inv : xsub_inv two_sub.1 two_sent 0.
Proof.
  destruct two_sub_good as (Hi & _ & Hit & _ & Hv). assert (set_fq (xfq two_sub.1) two_sub.1 = two_sub.1) as <- by by destruct (two_sub.1).
  apply (xsub_inv_fq two_sub.1 two_sub.2); [done|apply Hi| |done|].
  - intros p Hp. repeat (apply net_change_valid; [apply peer_sends_inv|]). by apply Hi.
  - assert (fmore (xfq two_sub.1) = false) as -> by (vm_compute; reflexivity). done.
Qed.

Lemma sub_merges_witness : ∃ l x' s',
  recv_run 5 two_sub.1 two_sent = (Ok (l.*2, x'), s') ∧ unmixed l ∧
  (∀ p, view two_sub.1 two_sent 0 p = of_pipe p l ++ view x' s' 0 p) ∧
  ((length l < 5)%nat → ∀ p, reading (xfq two_sub.1) p → view x' s' 0 p = []).
Proof. apply (sub_merges (S := net)), two_sent_inv. Defined.

(** C19: no publisher is starved: however many frames are read, a publisher with messages that has its
    turn after [k] others is read from before more than [k] messages of the others are complete. *)
Theorem queue_fair {S : Type} `{PipeLaws S} (n : nat) (d : fq_t) (s : S) (p : pipe_id) :
  fq_inv d s → reading d p → avail s p ≠ [] → ∃ l d' s',
  fq_run n d s = (Ok (l, d'), s') ∧ (turn d p < factive d)%nat ∧
  (of_pipe p l = [] → length l = n ∧ (finished l ≤ turn d p)%nat).
Proof.
  intros Hd Hp Ha. destruct (fq_run_fair n d s p Hd Hp Ha) as (l & d' & s' & Hr & Hl). exists l, d', s'. split; [done|].
  split; [|done]. destruct (fq_inv_wf _ _ Hd) as [_ _ Hc], Hp as [_ Hi]. unfold turn. case_decide; lia.
Qed.

Lemma queue_fair_witness : ∃ l d' s',
  fq_run 3 (xfq two_sub.1) two_sent = (Ok (l, d'), s') ∧ (turn (xfq two_sub.1) 1 < factive (xfq two_sub.1))%nat ∧
  (of_pipe 1 l = [] → length l = 3%nat ∧ (finished l ≤ turn (xfq two_sub.1) 1)%nat).
Proof.
  apply (queue_fair (S := net)).
  - apply two_sent_inv.
  - apply (bool_decide_unpack (reading (xfq two_sub.1) 1)). vm_compute. done.
  - vm_compute. discriminate.
Defined.

(** ** Pipelines *)

(** C21: a message of any number of parts that is pushed goes, as a whole, to one peer that has room, and
    to nobody else; when there is none, the caller is told and nothing was written. *)
Theorem push_to_one {S : Type} `{PipeLaws S} (f : string) (m : list string) (d : lb_t) (s : S) :
  lb_inv d s → dropping d = false → fmore (lq d) = false → ∃ r d' s',
  push_parts (f :: m) d s = (Ok (r, d'), s') ∧ lb_inv d' s' ∧ dropping d' = false ∧ fmore (lq d') = false ∧
  match r with
  | None => ∃ p, reading (lq d) p ∧ room s p = true ∧
      ∀ p', written s' p' = written s p' ++ if decide (p = p') then frames (f :: m) else []
  | Some e => e = errEAGAIN ∧ (∀ p, reading (lq d) p → room s p = false) ∧ ∀ p, written s' p = written s p
  end.
Proof.
  intros Hi Hd Hm. destruct (push_message_spec f m d s Hi Hd Hm) as (r & d' & s' & Hr & Hi' & Hd' & Hm' & _ & Hres).
  by exists r, d', s'.
Qed.

Definition two_push : lb_t :=
  match lb_attach 0 lb_new with
  | Ok d => match lb_attach 1 d with Ok d => d | Throw _ => lb_new end
  | Throw _ => lb_new
  end.

Lemma lb_attach_spec p d : fq_wf (lq d) → p ∉ items (fpipes (lq d)) → ∃ d',
  lb_attach p d = Ok d' ∧ fq_wf (lq d') ∧ fmore (lq d') = fmore (lq d) ∧ dropping d' = dropping d ∧
  ∀ q, q ∈ items (fpipes (lq d')) ↔ q ∈ items (fpipes (lq d)) ∨ q = p.
Proof.
  intros Hq Hp. rewrite lb_attach_fq by done. destruct (fq_attach_spec p (lq d) Hq Hp) as (q & -> & Hq' & Hm & Hit & _).
  cbn [mbind res_bind]. eexists. split; [done|]. done.
Qed.

Lemma two_push_inv : lb_inv two_push two_net ∧ dropping two_push = false ∧ fmore (lq two_push) = false.
Proof.
  unfold two_push. destruct (lb_attach_spec 0 lb_new fq_new_wf) as (d1 & -> & Hq1 & Hm1 & Hd1 & Hi1); [by intros ?%elem_of_nil|].
  assert (∀ q, q ∈ items (fpipes (lq d1)) → q = 0%nat) as H1 by (by intros q [?%elem_of_nil|]%Hi1).
  destruct (lb_attach_spec 1 d1 Hq1) as (d2 & -> & Hq2 & Hm2 & Hd2 & Hi2); [by intros ?%H1|].
  cbn in Hm1, Hd1. split; [|split; congruence]. constructor; [done| |congruence].
  intros q Hq. exists true, (pipepair (λ _, 1000)). split; [|apply default_pair_inv].
  apply Hi2 in Hq as [->%H1| ->]; done.
Qed.

Lemma push_to_one_witness : ∃ r d' s',
  push_parts ["a"; "b"] two_push two_net = (Ok (r, d'), s') ∧ lb_inv d' s' ∧ dropping d' = false ∧ fmore (lq d') = false ∧
  match r with
  | None => ∃ p, reading (lq two_push) p ∧ room two_net p = true ∧
      ∀ p', written s' p' = written two_net p' ++ if decide (p = p') then frames ["a"; "b"] else []
  | Some e => e = errEAGAIN ∧ (∀ p, reading (lq two_push) p → room two_net p = false) ∧
      ∀ p, written s' p = written two_net p
  end.
Proof. destruct two_push_inv as (Hi & Hd & Hm). apply (push_to_one (S := net) "a" ["b"] two_push two_net Hi Hd Hm). Defined.
