(* ===== verification/World.v ===== *)
(** * The process: static state of the publish/subscribe code

    The static members of [PubSub] (db/pubsub.h) and [PubSubSendSocket]
    (db/pubsub_sendsock.h), the server parameters and what the process has of
    the system (clock, identifier counter, calls into ZeroMQ).  A subscription
    is shared between the map and the polls that hold it (a [shared_ptr]), so
    subscriptions live in a heap and are referred to by location.  The matcher
    and the projection are used through the interfaces below. *)

From S2P Require Import Prelude Monad StdMap Bytes Oid Doubles Bson BsonBytes HostPort Zmq.

(** ** Interfaces *)

(** What a subscription's filter offers: construction from a query, which
    rejects malformed ones, and matching. *)
Class MatcherOps (Mt : Type) := {
  matcher_new : BSONObj → res Mt;
  matcher_matches : Mt → BSONObj → res bool
}.

(** What a subscription's projection offers. *)
Class ProjectionOps (Pt : Type) := {
  projection_init : BSONObj → res Pt;
  projection_transform : Pt → BSONObj → res BSONObj
}.

(** ** Data *)

Abbreviation SubscriptionId := OID (only parsing).

(** A store into an [int : 1] bit field: the values are 0 and -1. *)
Definition bitfield (z : Z) : Z := to_signed 1 z.
Definition flag (z : Z) : bool := negb (z =? 0).

Record SubscriptionInfo (Mt Pt : Type) := mkInfo {
  sock : socket_t;
  inUse : Z;
  shouldUnsub : Z;
  polledRecently : Z;
  filter_ : option Mt;
  projection_ : option Pt
}.
Arguments mkInfo {Mt Pt}.
Arguments sock {Mt Pt}. Arguments inUse {Mt Pt}. Arguments shouldUnsub {Mt Pt}.
Arguments polledRecently {Mt Pt}. Arguments filter_ {Mt Pt}. Arguments projection_ {Mt Pt}.

(** The address of a [SubscriptionInfo]. *)
Abbreviation loc := nat (only parsing).

Inductive Thread := ThreadProxyExtToInt | ThreadProxyPullToPub | ThreadCleanup.

#[global] Instance Thread_eq_dec : EqDecision Thread.
Proof. solve_decision. Defined.

(** Command line and configuration, fixed while the process runs. *)
Record Params := {
  p_isMongos : bool;
  p_configsvr : bool;
  p_port : Z;
  p_configdbs : list string;
  p_useDebugTimeout : bool;
  p_machine : MachineAndPid
}.

Record World (Mt Pt : Type) := mkWorld {
  (* server parameters *)
  pubsubEnabled : bool;
  publishDataEvents : bool;
  (* PubSub *)
  maxTimeoutMillis : Z;
  subscriptions : list (SubscriptionId * loc);
  heap : list (SubscriptionInfo Mt Pt);
  intPubSocket : socket_t;
  extRecvSocket : option socket_t;
  (* PubSubSendSocket *)
  extSendSocket : option socket_t;
  dbEventSocket : option socket_t;
  rsMembers : list ((string * Z) * bool);
  (* the system *)
  threads : list Thread;
  oidInc : Z;
  clockSec : Z;
  clockMicros : Z;
  zmqCalls : nat
}.
Arguments mkWorld {Mt Pt}.
Arguments pubsubEnabled {Mt Pt}. Arguments publishDataEvents {Mt Pt}.
Arguments maxTimeoutMillis {Mt Pt}. Arguments subscriptions {Mt Pt}. Arguments heap {Mt Pt}.
Arguments intPubSocket {Mt Pt}. Arguments extRecvSocket {Mt Pt}.
Arguments extSendSocket {Mt Pt}. Arguments dbEventSocket {Mt Pt}. Arguments rsMembers {Mt Pt}.
Arguments threads {Mt Pt}. Arguments oidInc {Mt Pt}. Arguments clockSec {Mt Pt}.
Arguments clockMicros {Mt Pt}. Arguments zmqCalls {Mt Pt}.

(** ** Updates *)

Section updates.
Context {Mt Pt : Type}.
Implicit Types (w : World Mt Pt) (i : SubscriptionInfo Mt Pt).

Definition set_sock (s : socket_t) i :=
  mkInfo s (inUse i) (shouldUnsub i) (polledRecently i) (filter_ i) (projection_ i).
Definition set_inUse (b : Z) i :=
  mkInfo (sock i) (bitfield b) (shouldUnsub i) (polledRecently i) (filter_ i) (projection_ i).
Definition set_shouldUnsub (b : Z) i :=
  mkInfo (sock i) (inUse i) (bitfield b) (polledRecently i) (filter_ i) (projection_ i).
Definition set_polledRecently (b : Z) i :=
  mkInfo (sock i) (inUse i) (shouldUnsub i) (bitfield b) (filter_ i) (projection_ i).

Definition set_flags (enabled events : bool) w :=
  mkWorld enabled events (maxTimeoutMillis w) (subscriptions w) (heap w) (intPubSocket w)
    (extRecvSocket w) (extSendSocket w) (dbEventSocket w) (rsMembers w) (threads w)
    (oidInc w) (clockSec w) (clockMicros w) (zmqCalls w).
Definition set_maxTimeoutMillis (z : Z) w :=
  mkWorld (pubsubEnabled w) (publishDataEvents w) z (subscriptions w) (heap w) (intPubSocket w)
    (extRecvSocket w) (extSendSocket w) (dbEventSocket w) (rsMembers w) (threads w)
    (oidInc w) (clockSec w) (clockMicros w) (zmqCalls w).
Definition set_subscriptions (m : list (SubscriptionId * loc)) w :=
  mkWorld (pubsubEnabled w) (publishDataEvents w) (maxTimeoutMillis w) m (heap w)
    (intPubSocket w) (extRecvSocket w) (extSendSocket w) (dbEventSocket w) (rsMembers w)
    (threads w) (oidInc w) (clockSec w) (clockMicros w) (zmqCalls w).
Definition set_heap (h : list (SubscriptionInfo Mt Pt)) w :=
  mkWorld (pubsubEnabled w) (publishDataEvents w) (maxTimeoutMillis w) (subscriptions w) h
    (intPubSocket w) (extRecvSocket w) (extSendSocket w) (dbEventSocket w) (rsMembers w)
    (threads w) (oidInc w) (clockSec w) (clockMicros w) (zmqCalls w).
Definition set_intPubSocket (s : socket_t) w :=
  mkWorld (pubsubEnabled w) (publishDataEvents w) (maxTimeoutMillis w) (subscriptions w) (heap w)
    s (extRecvSocket w) (extSendSocket w) (dbEventSocket w) (rsMembers w)
    (threads w) (oidInc w) (clockSec w) (clockMicros w) (zmqCalls w).
Definition set_extRecvSocket (s : option socket_t) w :=
  mkWorld (pubsubEnabled w) (publishDataEvents w) (maxTimeoutMillis w) (subscriptions w) (heap w)
    (intPubSocket w) s (extSendSocket w) (dbEventSocket w) (rsMembers w)
    (threads w) (oidInc w) (clockSec w) (clockMicros w) (zmqCalls w).
Definition set_extSendSocket (s : option socket_t) w :=
  mkWorld (pubsubEnabled w) (publishDataEvents w) (maxTimeoutMillis w) (subscriptions w) (heap w)
    (intPubSocket w) (extRecvSocket w) s (dbEventSocket w) (rsMembers w)
    (threads w) (oidInc w) (clockSec w) (clockMicros w) (zmqCalls w).
Definition set_dbEventSocket (s : option socket_t) w :=
  mkWorld (pubsubEnabled w) (publishDataEvents w) (maxTimeoutMillis w) (subscriptions w) (heap w)
    (intPubSocket w) (extRecvSocket w) (extSendSocket w) s (rsMembers w)
    (threads w) (oidInc w) (clockSec w) (clockMicros w) (zmqCalls w).
Definition set_rsMembers (m : list ((string * Z) * bool)) w :=
  mkWorld (pubsubEnabled w) (publishDataEvents w) (maxTimeoutMillis w) (subscriptions w) (heap w)
    (intPubSocket w) (extRecvSocket w) (extSendSocket w) (dbEventSocket w) m
    (threads w) (oidInc w) (clockSec w) (clockMicros w) (zmqCalls w).
Definition add_thread (t : Thread) w :=
  mkWorld (pubsubEnabled w) (publishDataEvents w) (maxTimeoutMillis w) (subscriptions w) (heap w)
    (intPubSocket w) (extRecvSocket w) (extSendSocket w) (dbEventSocket w) (rsMembers w)
    (threads w ++ [t]) (oidInc w) (clockSec w) (clockMicros w) (zmqCalls w).
Definition set_oidInc (z : Z) w :=
  mkWorld (pubsubEnabled w) (publishDataEvents w) (maxTimeoutMillis w) (subscriptions w) (heap w)
    (intPubSocket w) (extRecvSocket w) (extSendSocket w) (dbEventSocket w) (rsMembers w)
    (threads w) z (clockSec w) (clockMicros w) (zmqCalls w).
Definition set_zmqCalls (n : nat) w :=
  mkWorld (pubsubEnabled w) (publishDataEvents w) (maxTimeoutMillis w) (subscriptions w) (heap w)
    (intPubSocket w) (extRecvSocket w) (extSendSocket w) (dbEventSocket w) (rsMembers w)
    (threads w) (oidInc w) (clockSec w) (clockMicros w) n.

(** A write through the shared pointer to the subscription at [l]. *)
Definition upd_info (l : loc) (f : SubscriptionInfo Mt Pt → SubscriptionInfo Mt Pt) w :=
  set_heap (alter f l (heap w)) w.
End updates.

(** ** Running a C++ function *)

(** The system outside the process: which ZeroMQ calls fail, at which of them no peer
    of a PUSH socket has room, whether an address is this process, and what other
    threads do while a poll waits.  The
    interference is an arbitrary change of the process state per wait. *)
Record System (Mt Pt : Type) := {
  params :> Params;
  zmq_fails : nat → option string;
  push_full : nat → bool;
  isSelf : HostAndPort → bool;
  others : nat → World Mt Pt → World Mt Pt
}.
Arguments zmq_fails {Mt Pt}. Arguments push_full {Mt Pt}. Arguments isSelf {Mt Pt}. Arguments others {Mt Pt}.
Arguments params {Mt Pt}.

Section calls.
Context {Mt Pt : Type} (sys : System Mt Pt).

Definition zcall : M (World Mt Pt) unit := zmq_call zmqCalls set_zmqCalls (zmq_fails sys).

(** A call on a socket value: fails by the oracle or by the socket's state. *)
Definition on_socket (op : socket_t → res socket_t) (s : socket_t) : M (World Mt Pt) socket_t :=
  _ ← zcall; lift (op s).

Definition zmq_socket (t : SocketType) : M (World Mt Pt) socket_t :=
  _ ← zcall; mret (new_socket t).

(** A call on a socket of the heap, the subscription's own. *)
Definition on_info_socket (l : loc) (op : socket_t → res socket_t) : M (World Mt Pt) unit :=
  _ ← zcall;
  o ← gets (λ w, heap w !! l);
  match o with
  | None => throw (UndefinedBehaviour "dangling subscription")
  | Some i => s ← lift (op (sock i)); modify (upd_info l (set_sock s))
  end.

(** A call through a socket pointer of the class; [NULL] cannot be called. *)
Definition on_ptr (get : World Mt Pt → option socket_t)
    (put : option socket_t → World Mt Pt → World Mt Pt) (op : socket_t → res socket_t) :
    M (World Mt Pt) unit :=
  o ← gets get;
  match o with
  | None => throw (UndefinedBehaviour "null socket")
  | Some s => s' ← on_socket op s; modify (put (Some s'))
  end.

(** A frame on such a socket. *)
Definition send_ptr (get : World Mt Pt → option socket_t)
    (put : option socket_t → World Mt Pt → World Mt Pt) (f : string) (sndmore : bool) : M (World Mt Pt) unit :=
  n ← gets zmqCalls; on_ptr get put (sock_send (push_full sys n) f sndmore).

(** What the calls from the state [w] to the state [w'] met: a failure, or a PUSH socket
    without room. *)
Definition call_failed (w w' : World Mt Pt) : Prop :=
  ∃ n what, (zmqCalls w ≤ n < zmqCalls w')%nat ∧ zmq_fails sys n = Some what.
Definition call_waits (s : socket_t) (w w' : World Mt Pt) : Prop :=
  ∃ n, (zmqCalls w ≤ n < zmqCalls w')%nat ∧ sock_waits (push_full sys n) s = true.

(** A call either succeeds or throws a ZeroMQ error; only the call counter moves. *)
Lemma wp_zcall (Q : unit → World Mt Pt → Prop) E w :
  Q () (set_zmqCalls (zmqCalls w + 1) w) →
  (∀ what, zmq_fails sys (zmqCalls w) = Some what →
     E (ZmqError what) (set_zmqCalls (zmqCalls w + 1) w)) →
  wp zcall Q E w.
Proof.
  intros HQ HE. unfold wp, zcall, zmq_call.
  destruct (zmq_fails sys (zmqCalls w)) eqn:Hf; [by apply HE|done].
Qed.
End calls.

(** ** Publications *)

(** What crosses the sockets: a channel, a document and a time, in three frames. *)
Record publication := mkPub { pub_channel : string; pub_message : BSONObj; pub_time : Z }.

Definition pub_frames (p : publication) : list string :=
  [appendStr (pub_channel p); objdata (pub_message p); le_bytes 8 (pub_time p)].

Definition pub_wf (p : publication) : Prop :=
  no_nul (pub_channel p) ∧ obj_wf (pub_message p) ∧ uint64 (pub_time p).
