(* ===== verification/FilterOps.v ===== *)
(** * The filters and projections of subscriptions

    The interfaces the subscriptions use, implemented by the matcher of
    db/matcher/ and the projection of db/projection.cpp, as the members [filter]
    and [projection] of [SubscriptionInfo] are (db/pubsub.h). *)

From S2P Require Import Prelude Monad StdMap Bytes Oid Doubles Bson BsonCompare MatchExpr MatchSpec MatchParser Projection.
From S2P Require Import World.

#[global] Instance Matcher2_ops `{ParserEnv} : MatcherOps Matcher2 := {|
  matcher_new := Matcher2_new;
  matcher_matches := Matcher2_matches
|}.

#[global] Instance Projection_ops `{ParserEnv} : ProjectionOps Projection := {|
  projection_init := Projection_init;
  projection_transform := transform
|}.
