(* ===== verification/SendSock.v ===== *)
(** * Publishing and cluster membership: db/pubsub_sendsock.cpp

    [PubSubSendSocket]: publishing on the external socket (and, for database
    events in a sharded cluster, on the config server's queue), connecting to
    the config server, and following the members of the replica set. *)

From S2P Require Import Prelude Monad StdMap Bytes Oid Doubles Bson BsonBytes HostPort Zmq World.

Section sendsock.
Context {Mt Pt : Type} (sys : System Mt Pt).
Abbreviation W := (World Mt Pt).
Implicit Types (w : W).

Definition kEventsChannel : string := "$events".

(** The two sockets of the class. *)
Definition ext_send (op : socket_t → res socket_t) : M W unit :=
  on_ptr sys extSendSocket set_extSendSocket op.
Definition db_event (op : socket_t → res socket_t) : M W unit :=
  on_ptr sys dbEventSocket set_dbEventSocket op.
Definition ext_frame (f : string) (sndmore : bool) : M W unit :=
  send_ptr sys extSendSocket set_extSendSocket f sndmore.
Definition db_frame (f : string) (sndmore : bool) : M W unit :=
  send_ptr sys dbEventSocket set_dbEventSocket f sndmore.

(** ** Publishing *)

Definition publish (channel : string) (message : BSONObj) : M W bool :=
  enabled ← gets pubsubEnabled;
  _ ← lift (uassert 18560 "PubSub should be enabled on all calls to publish!" enabled);
  timestamp ← gets clockMicros;
  try_zmq
    (w ← getS;
     _ ← (if negb (p_configsvr sys) && bool_decide (is_Some (dbEventSocket w))
             && (channel =? kEventsChannel)%string && publishDataEvents w
          then
            _ ← db_frame (appendStr channel) true;
            _ ← db_frame (objdata message) true;
            db_frame (le_bytes 8 timestamp) false
          else mret ());
     _ ← ext_frame (appendStr channel) true;
     _ ← ext_frame (objdata message) true;
     _ ← ext_frame (le_bytes 8 timestamp) false;
     mret true)
    (λ _, mret false).

(** ** Config servers *)

(** The config server with the greatest port. *)
Fixpoint maxConfig_loop (configdbs : list string) (maxConfigHP : HostAndPort) : res HostAndPort :=
  match configdbs with
  | [] => Ok maxConfigHP
  | it :: configdbs =>
      configHP ← HostAndPort_of_string it;
      maxConfig_loop configdbs
        (if port maxConfigHP <? port configHP then configHP else maxConfigHP)
  end.

Definition tcp_endpoint (h : HostAndPort) : string := "tcp://" +:+ hp_toString h true.

(** [port() + k], an [int] addition. *)
Definition port_plus (p k : Z) : res Z :=
  if p + k <? 2 ^ 31 then Ok (p + k) else Throw (UndefinedBehaviour "signed overflow").

Definition initSharding (configServers : string) : M W unit :=
  enabled ← gets pubsubEnabled;
  if negb enabled then mret ()
  else
    let configdbs := splitStringDelim configServers "," in
    maxConfigHP ← lift (maxConfig_loop configdbs (setPort HostAndPort_empty 0));
    configPullPort ← lift (port_plus (port maxConfigHP) 1234);
    configPullEndpoint ← lift (HostAndPort_make (host maxConfigHP) configPullPort);
    try_zmq
      (s ← zmq_socket sys ZMQ_PUSH;
       _ ← modify (set_dbEventSocket (Some s));
       db_event (sock_connect (tcp_endpoint configPullEndpoint)))
      (λ _, w ← getS; modify (set_flags (pubsubEnabled w) false)).

(** ** Replica set members *)

Definition member_endpoint (k : string * Z) : res string :=
  p ← port_plus k.2 1234; Ok ("tcp://" +:+ k.1 +:+ ":" +:+ numStr p).

(** [rsMembers] is keyed by what [operator<] of [HostAndPort] looks at; an
    iterator at [end()] must not be dereferenced. *)
Definition updateReplSetMember (hp : HostAndPort) : M W unit :=
  enabled ← gets pubsubEnabled;
  if negb enabled then mret ()
  else
    member ← gets (λ w, map_find (hp_key hp) (rsMembers w));
    if negb (isSelf sys hp) && bool_decide (member = None) then
      endpoint ← lift (member_endpoint (hp_key hp));
      _ ← try_zmq (ext_send (sock_connect endpoint)) (λ _, mret ());
      modify (λ w, set_rsMembers (map_insert (hp_key hp) true (rsMembers w)) w)
    else
      match member with
      | None => throw (UndefinedBehaviour "dereference of end()")
      | Some _ => modify (λ w, set_rsMembers (map_modify (hp_key hp) (λ _, true) (rsMembers w)) w)
      end.

(** The loop increments the iterator it has just erased. *)
Fixpoint prune_loop (entries : list ((string * Z) * bool)) : M W unit :=
  match entries with
  | [] => mret ()
  | (k, live) :: entries =>
      if negb live then
        endpoint ← lift (member_endpoint k);
        _ ← try_zmq (ext_send (sock_disconnect endpoint)) (λ _, mret ());
        _ ← modify (λ w, set_rsMembers (map_erase k (rsMembers w)) w);
        throw (UndefinedBehaviour "increment of an erased iterator")
      else
        _ ← modify (λ w, set_rsMembers (map_modify k (λ _, false) (rsMembers w)) w);
        prune_loop entries
  end.

Definition pruneReplSetMembers : M W unit :=
  enabled ← gets pubsubEnabled;
  if negb enabled then mret ()
  else entries ← gets rsMembers; prune_loop entries.

(** What loading a configuration of the replica set does to the table: the calls
    of [initFromConfig] in db/repl/rs.cpp, given the addresses of its members. *)
Definition initFromConfig_members (members : list HostAndPort) : M W unit :=
  _ ← forM_ members updateReplSetMember; pruneReplSetMembers.

(** ** Sending a publication: lemmas *)

(** A socket with nothing half sent. *)
Definition idle (s : socket_t) : Prop := isopen s = true ∧ sending s = [].

Definition with_out (s : socket_t) (se : list string) (ou : list (list string)) : socket_t :=
  mkSocket (stype s) (isopen s) (filters s) (sndhwm s) (rcvhwm s) (connected s) (bound s)
    (inbox s) (partial s) se ou.

(** The socket after a whole message, and after only some frames of one. *)
Definition sent (fs : list string) (s : socket_t) : socket_t := with_out s [] (outbox s ++ [fs]).
Definition half_sent (fs : list string) (s : socket_t) : socket_t := with_out s fs (outbox s).

Section ptr.
Context (get : W → option socket_t) (put : option socket_t → W → W).
Hypothesis get_put : ∀ o w, get (put o w) = o.
Hypothesis put_put : ∀ o o' w, put o (put o' w) = put o w.
Hypothesis get_calls : ∀ n w, get (set_zmqCalls n w) = get w.
Hypothesis put_calls : ∀ o n w, set_zmqCalls n (put o w) = put o (set_zmqCalls n w).
Hypothesis calls_put : ∀ o w, zmqCalls (put o w) = zmqCalls w.
Hypothesis put_get : ∀ w, put (get w) w = w.

Lemma calls_calls n n' w : set_zmqCalls n (set_zmqCalls n' w) = set_zmqCalls n w.
Proof. done. Qed.

Lemma wp_ptr_send (f : string) (more : bool) (s : socket_t) (Qp : unit → W → Prop)
    (E : exn → W → Prop) w :
  get w = Some s → isopen s = true →
  Qp () (put (Some (with_out s (if more then sending s ++ [f] else [])
     (if more then outbox s else outbox s ++ [sending s ++ [f]]))) (set_zmqCalls (zmqCalls w + 1) w)) →
  (∀ what, zmq_fails sys (zmqCalls w) = Some what → E (ZmqError what) (set_zmqCalls (zmqCalls w + 1) w)) →
  (sock_waits (push_full sys (zmqCalls w)) s = true → E (Blocks "send") (set_zmqCalls (zmqCalls w + 1) w)) →
  wp (send_ptr sys get put f more) Qp E w.
Proof.
  intros Hs Ho HQ HE HB. unfold send_ptr, on_ptr, on_socket. do 4 wp_step. rewrite Hs. do 2 wp_step.
  apply wp_zcall; [|done]. unfold sock_send. rewrite Ho. cbn [negb].
  destruct (sock_waits (push_full sys (zmqCalls w)) s) eqn:Hwait.
  { apply wp_lift; [done|]. intros e [= <-]. by apply HB. }
  apply wp_lift_Ok. wp_steps. unfold with_out in HQ. by rewrite Ho in HQ.
Qed.

Definition send3 (a b c : string) : M W unit :=
  _ ← send_ptr sys get put a true;
  _ ← send_ptr sys get put b true;
  send_ptr sys get put c false.

Lemma wp_send3 a b c (s : socket_t) (Qp : unit → W → Prop) (E : exn → W → Prop) w :
  get w = Some s → idle s →
  Qp () (put (Some (sent [a; b; c] s)) (set_zmqCalls (zmqCalls w + 3) w)) →
  (∀ k what, (k < 3)%nat → zmq_fails sys (zmqCalls w + k) = Some what →
     E (ZmqError what)
       (put (Some (half_sent (take k [a; b; c]) s)) (set_zmqCalls (zmqCalls w + S k) w))) →
  (sock_waits (push_full sys (zmqCalls w)) s = true → E (Blocks "send") (set_zmqCalls (zmqCalls w + 1) w)) →
  wp (send3 a b c) Qp E w.
Proof.
  intros Hs [Ho Hse] HQ HE HB. unfold send3. wp_step.
  assert (half_sent [] s = s) as Hnil by (unfold half_sent, with_out; rewrite <-Hse; by destruct s).
  assert (∀ full l ou, l ≠ [] → sock_waits full (with_out s l ou) ≠ true) as Hmid
    by (intros full l ou Hl; by rewrite sock_waits_sending).
  eapply wp_ptr_send; [done|done| | |done].
  2:{ intros what Hf. specialize (HE 0%nat what). simpl in HE. rewrite Nat.add_0_r in HE.
      rewrite Hnil, <-Hs, <-(get_calls (zmqCalls w + 1)), put_get in HE. apply HE; [lia|done]. }
  wp_step. eapply wp_ptr_send; [apply get_put|done| | |intros Hw; exfalso; revert Hw; apply Hmid; by rewrite Hse].
  2:{ intros what. rewrite calls_put, put_calls, calls_calls. simpl. intros Hf.
      specialize (HE 1%nat what). unfold half_sent in HE. simpl in HE. rewrite Hse.
      replace (zmqCalls w + 1 + 1)%nat with (zmqCalls w + 2)%nat by lia. apply HE; [lia|done]. }
  rewrite calls_put, put_calls, put_put, calls_calls. cbn [with_out sending outbox].
  eapply wp_ptr_send; [apply get_put|done| | |intros Hw; exfalso; revert Hw; apply Hmid; by rewrite Hse].
  - rewrite calls_put, put_calls, put_put, calls_calls. cbn [with_out sending outbox zmqCalls set_zmqCalls].
    rewrite Hse. unfold sent in HQ.
    by replace (zmqCalls w + 1 + 1 + 1)%nat with (zmqCalls w + 3)%nat by lia.
  - intros what. rewrite calls_put, put_calls, calls_calls. cbn [zmqCalls set_zmqCalls]. intros Hf.
    specialize (HE 2%nat what). unfold half_sent in HE. cbn [take] in HE. rewrite Hse.
    replace (zmqCalls w + 1 + 1)%nat with (zmqCalls w + 2)%nat in * by lia.
    replace (zmqCalls w + 2 + 1)%nat with (zmqCalls w + 3)%nat by lia. apply HE; [lia|done].
Qed.
End ptr.

(** The two uses. *)
Lemma wp_send_ext a b c (s : socket_t) (Qp : unit → W → Prop) (E : exn → W → Prop) w :
  extSendSocket w = Some s → idle s →
  Qp () (set_extSendSocket (Some (sent [a; b; c] s)) (set_zmqCalls (zmqCalls w + 3) w)) →
  (∀ k what, (k < 3)%nat → zmq_fails sys (zmqCalls w + k) = Some what →
     E (ZmqError what) (set_extSendSocket (Some (half_sent (take k [a; b; c]) s))
       (set_zmqCalls (zmqCalls w + S k) w))) →
  (sock_waits (push_full sys (zmqCalls w)) s = true → E (Blocks "send") (set_zmqCalls (zmqCalls w + 1) w)) →
  wp (send3 extSendSocket set_extSendSocket a b c) Qp E w.
Proof. by apply wp_send3; try done; intros []. Qed.

Lemma wp_send_db a b c (s : socket_t) (Qp : unit → W → Prop) (E : exn → W → Prop) w :
  dbEventSocket w = Some s → idle s →
  Qp () (set_dbEventSocket (Some (sent [a; b; c] s)) (set_zmqCalls (zmqCalls w + 3) w)) →
  (∀ k what, (k < 3)%nat → zmq_fails sys (zmqCalls w + k) = Some what →
     E (ZmqError what) (set_dbEventSocket (Some (half_sent (take k [a; b; c]) s))
       (set_zmqCalls (zmqCalls w + S k) w))) →
  (sock_waits (push_full sys (zmqCalls w)) s = true → E (Blocks "send") (set_zmqCalls (zmqCalls w + 1) w)) →
  wp (send3 dbEventSocket set_dbEventSocket a b c) Qp E w.
Proof. by apply wp_send3; try done; intros []. Qed.

Lemma wp_send3_then {A} get put a b c (k : M W A) Qp E w :
  wp (_ ← send3 get put a b c; k) Qp E w →
  wp (_ ← send_ptr sys get put a true;
      _ ← send_ptr sys get put b true;
      _ ← send_ptr sys get put c false; k) Qp E w.
Proof.
  unfold send3, wp, mbind, M_bind. destruct (send_ptr sys get put a true w) as [[[]|] w1]; [|done].
  by destruct (send_ptr sys get put b true w1) as [[[]|] w2].
Qed.

(** The state in which only the sockets and the call counter may have moved. *)
Definition same_but_sockets w w' : Prop :=
  subscriptions w' = subscriptions w ∧ heap w' = heap w ∧ rsMembers w' = rsMembers w
  ∧ pubsubEnabled w' = pubsubEnabled w ∧ publishDataEvents w' = publishDataEvents w
  ∧ extRecvSocket w' = extRecvSocket w.

(** Whether a publication also goes to the config server's queue. *)
Definition to_config w (channel : string) : bool :=
  negb (p_configsvr sys) && bool_decide (is_Some (dbEventSocket w))
  && (channel =? kEventsChannel)%string && publishDataEvents w.

(** The sockets after a publication: sent once to the others and, for a database
    event of a shard, once to the config server. *)
Definition published (p : publication) w w' : Prop :=
  extSendSocket w' = sent (pub_frames p) <$> extSendSocket w ∧
  dbEventSocket w' = (if to_config w (pub_channel p)
                      then sent (pub_frames p) <$> dbEventSocket w else dbEventSocket w).

(** The sockets a publication goes to. *)
Definition goes_to w (channel : string) (d : socket_t) : Prop :=
  extSendSocket w = Some d ∨ to_config w channel = true ∧ dbEventSocket w = Some d.

(** What a publication ends with: its answer, or waiting for room. *)
Definition publish_post c m w (b : bool) w' : Prop :=
  same_but_sockets w w' ∧
  if b then published (mkPub c m (clockMicros w)) w w' else call_failed sys w w'.
Definition publish_waits c w (e : exn) w' : Prop :=
  e = Blocks "send" ∧ same_but_sockets w w' ∧ ∃ d, goes_to w c d ∧ call_waits sys d w w'.

Lemma wp_publish c m w s :
  pubsubEnabled w = true → extSendSocket w = Some s → idle s →
  (∀ d, dbEventSocket w = Some d → idle d) →
  wp (publish c m) (publish_post c m w) (publish_waits c w) w.
Proof.
  intros Hen Hs Hi Hd. unfold publish. do 2 wp_step. rewrite Hen. do 7 wp_step.
  fold (to_config w c). wp_step.
  assert (∀ w1, extSendSocket w1 = Some s → same_but_sockets w w1 → (zmqCalls w ≤ zmqCalls w1)%nat →
    dbEventSocket w1 = (if to_config w c then
       sent (pub_frames (mkPub c m (clockMicros w))) <$> dbEventSocket w else dbEventSocket w) →
    wp (_ ← ext_frame (appendStr c) true;
        _ ← ext_frame (objdata m) true;
        _ ← ext_frame (le_bytes 8 (clockMicros w)) false;
        mret true)
      (publish_post c m w)
      (λ e w', match e with
       | ZmqError what => wp (mret false) (publish_post c m w) (publish_waits c w) w'
       | _ => publish_waits c w e w' end) w1) as Hext.
  { intros w1 Hs1 Hsame Hcalls Hdb. apply wp_send3_then. wp_step. eapply wp_send_ext; [done|done| | |].
    - wp_steps. split; [done|]. split; [by rewrite Hs|done].
    - intros k what Hk Hf. apply wp_ret. split; [done|]. exists (zmqCalls w1 + k)%nat, what.
      split; [simpl; lia|done].
    - intros Hw. split; [done|]. split; [done|]. exists s. split; [by left|].
      exists (zmqCalls w1). split; [simpl; lia|done]. }
  destruct (to_config w c) eqn:Hc.
  - assert (is_Some (dbEventSocket w)) as [d Hdb].
    { unfold to_config in Hc. by destruct (negb (p_configsvr sys)), (bool_decide_reflect (is_Some (dbEventSocket w))). }
    eapply (wp_send_db _ _ _ d); [done|by apply Hd| | |].
    + apply Hext; [done|done|simpl; lia|]. by rewrite Hdb.
    + intros k what Hk Hf. apply wp_ret. split; [done|]. exists (zmqCalls w + k)%nat, what. split; [simpl; lia|done].
    + intros Hw. split; [done|]. split; [done|]. exists d. split; [by right|].
      exists (zmqCalls w). split; [simpl; lia|done].
  - apply wp_ret, Hext; [done|done|done|done].
Qed.

(** Nothing waits where only PUB sockets send, and where every peer has room. *)
Definition has_room w : Prop :=
  ∀ d, extSendSocket w = Some d ∨ dbEventSocket w = Some d →
    stype d ≠ ZMQ_PUSH ∨ (∀ n, push_full sys n = false) ∧ (connected d ≠ [] ∨ bound d ≠ []).

Lemma room_no_wait w c e w' : has_room w → ¬ publish_waits c w e w'.
Proof.
  intros Hr (_ & _ & d & Hd & n & _ & Hw). unfold sock_waits in Hw.
  apply andb_prop in Hw as [[Ht%bool_decide_eq_true _]%andb_prop Hf].
  destruct (Hr d) as [?|[Hfull Hc]]; [destruct Hd as [?|[_ ?]]; auto|done|].
  rewrite Hfull in Hf. apply bool_decide_eq_true in Hf as [??]. naive_solver.
Qed.

(** With room a publication returns. *)
Lemma publish_returns c m w s :
  pubsubEnabled w = true → extSendSocket w = Some s → idle s →
  (∀ d, dbEventSocket w = Some d → idle d) → has_room w →
  ∃ b w', publish c m w = (Ok b, w') ∧ publish_post c m w b w'.
Proof.
  intros Hen Hs Hi Hd Hr. pose proof (wp_publish c m w s Hen Hs Hi Hd) as Hp. unfold wp in Hp.
  destruct (publish c m w) as [[b|e] w']; [by exists b, w'|by destruct (room_no_wait w c e w')].
Qed.
End sendsock.
