(* ===== verification/Events.v ===== *)
(** * Database events: db/catalog/collection.cpp, db/ops/update.cpp

    The writes of a collection that are published on the channel [$events].  The
    record store, the indexes and the caches of a collection are used through the
    interface [CollectionStore]; the order of the calls, the early returns and the
    handlers are those of the code.  The state is that of the collection next to
    that of the process. *)

From S2P Require Import Prelude Monad StdMap Bytes Oid Doubles Bson BsonBytes Namespace HostPort Zmq World SendSock.

(** ** Statuses: base/status.h, util/assert_util.cpp *)

Inductive StatusWithLoc (L : Type) :=
| Location (loc : L)
| Failed (code : Z) (reason : string).
Arguments Location {L}. Arguments Failed {L}.

Definition exception_toString (x : Z * string) : string := numStr x.1 +:+ " " +:+ x.2.

Definition toStatus {L} (context : string) (x : Z * string) : StatusWithLoc L :=
  Failed (convertExceptionCode x.1) (context +:+ " :: caused by :: " +:+ exception_toString x).

(** [try { m } catch (AssertionException& e) { h(e) }] *)
Definition try_assertion {S A} (m : M S A) (h : Z * string → M S A) : M S A := λ s,
  match m s with
  | (Throw e, s') => match assertion_of e with Some x => h x s' | None => (Throw e, s') end
  | r => r
  end.

(** ** Collections *)

(** What a collection asks of its record store ([insertRecord], [deleteRecord],
    [recordFor]), its indexes and its caches. *)
Class CollectionStore (St L : Type) := {
  hasIdIndex : St → bool;
  isCapped : St → bool;
  checkNoIndexConflicts : BSONObj → M St (option (Z * string));
  touch_keys : M St unit;
  insertRecord : BSONObj → M St (StatusWithLoc L);
  deleteRecord : L → M St unit;
  docFor : L → M St BSONObj;
  indexRecord : BSONObj → L → M St unit;
  unindexRecord : BSONObj → L → M St unit;
  block_insert : BSONObj → L → M St (option (Z * string));
  invalidateDocument : L → M St unit;
  notifyOfWriteOp : M St unit;
  paddingFits : M St unit
}.

Section collection.
Context {St L Mt Pt : Type} `{CollectionStore St L}.
Context (sys : System Mt Pt) (ns : string).

(** A call into the collection's parts, and one into publish/subscribe. *)
Definition on_store {A} (m : M St A) : M (St * World Mt Pt) A :=
  λ s, let '(r, st) := m s.1 in (r, (st, s.2)).
Definition on_world {A} (m : M (World Mt Pt) A) : M (St * World Mt Pt) A :=
  λ s, let '(r, w) := m s.2 in (r, (s.1, w)).

(** [BSON("db" << .. << "collection" << .. << "type" << .. << "doc" << ..)] *)
Definition event (type : string) (doc : BSONObj) : BSONObj :=
  let n := NamespaceString_of ns in
  [("db", VString (ns_db n)); ("collection", VString (ns_coll n)); ("type", VString type); ("doc", VObject doc)].

(** A failure is only logged. *)
Definition publish_event (type : string) (doc : BSONObj) : M (World Mt Pt) unit :=
  w ← getS;
  if pubsubEnabled w && publishDataEvents w then
    _ ← publish sys kEventsChannel (event type doc); mret ()
  else mret ().

(** [_insertDocument]; [preGen] tells whether keys were generated before. *)
Definition insertDocument_ (docToInsert : BSONObj) (preGen : bool) : M St (StatusWithLoc L) :=
  _ ← (if preGen then touch_keys else mret ());
  loc ← insertRecord docToInsert;
  match loc with
  | Failed _ _ => mret loc
  | Location l =>
      _ ← notifyOfWriteOp;
      try_assertion (_ ← indexRecord docToInsert l; mret loc)
        (λ x, capped ← gets isCapped;
              if capped : bool then
                mret (Failed InternalError ("unexpected index insertion failure on capped collection"
                        +:+ exception_toString x +:+ " - collection and its index will not match"))
              else _ ← deleteRecord l; mret (toStatus "insertDocument" x))
  end.

Definition insertDocument (docToInsert : BSONObj) (preGen : bool) : M (St * World Mt Pt) (StatusWithLoc L) :=
  s ← getS;
  if hasIdIndex s.1 && eoo (getField docToInsert "_id") then
    mret (Failed InternalError ("Collection::insertDocument got document without _id for ns:" +:+ ns))
  else
    ret ← (if isCapped s.1 then on_store (checkNoIndexConflicts docToInsert) else mret None);
    match ret with
    | Some x => mret (Failed x.1 x.2)
    | None =>
        status ← on_store (insertDocument_ docToInsert preGen);
        match status with
        | Location _ =>
            _ ← on_store paddingFits;
            _ ← on_world (publish_event "insert" docToInsert);
            mret status
        | Failed _ _ => mret status
        end
    end.

(** [insertDocument] while indexes are built. *)
Definition insertDocument_block (doc : BSONObj) : M (St * World Mt Pt) (StatusWithLoc L) :=
  loc ← on_store (insertRecord doc);
  match loc with
  | Failed _ _ => mret loc
  | Location l =>
      status ← on_store (block_insert doc l);
      match status with
      | Some x => mret (Failed x.1 x.2)
      | None => _ ← on_world (publish_event "insert" doc); mret loc
      end
  end.

(** [deleteDocument]: the [_id] of the document, wrapped in an object, when the
    caller asks for it. *)
Definition deleteDocument (loc : L) (cappedOK wantId : bool) : M (St * World Mt Pt) (option BSONObj) :=
  s ← getS;
  if isCapped s.1 && negb cappedOK then throw (UserException 10089 "cannot remove from a capped collection")
  else
    doc ← on_store (docFor loc);
    _ ← on_world (publish_event "remove" doc);
    let e := getField doc "_id" in
    let deletedId := if wantId && negb (eoo e) then Some [e] else None in
    _ ← on_store (invalidateDocument loc);
    _ ← on_store (unindexRecord doc loc);
    _ ← on_store (deleteRecord loc);
    _ ← on_store notifyOfWriteOp;
    mret deletedId.

(** What [update] publishes for a document it went over, whether it changed it or
    not. *)
Definition publish_update (oldObj newObj : BSONObj) : M (World Mt Pt) unit :=
  publish_event "update" [("old", VObject oldObj); ("new", VObject newObj)].
End collection.
