(* ===== verification/PubSub.v ===== *)
(** * Subscriptions: db/pubsub.cpp

    [PubSub::subscribe], [poll], [unsubscribe] and their helpers, one definition
    per function, over the process state of World.v.  Loops carry fuel that is
    shown to be enough.  While [zmq::poll] waits, other threads change the state
    arbitrarily ([others]); the rest of a function runs undisturbed here, and
    PubSubConc.v treats the interleavings of the locked regions. *)

From S2P Require Import Prelude Monad StdMap Bytes Oid Doubles Bson BsonBytes HostPort Zmq World.

(** ** Messages *)

Record SubscriptionMessage := mkMessage {
  subscriptionId : OID;
  channel : string;
  message : BSONObj;
  timestamp : Z
}.

(** [operator<] on messages: in a priority queue the greatest identifier comes
    out first, then the greatest channel, then the earliest time. *)
Definition message_ltb (m1 m2 : SubscriptionMessage) : bool :=
  if subscriptionId m1 <?k subscriptionId m2 then true
  else if OID_eqb (subscriptionId m1) (subscriptionId m2) && (channel m1 <?k channel m2)
  then true
  else OID_eqb (subscriptionId m1) (subscriptionId m2)
       && StringData_eqb (channel m1) (channel m2) && (timestamp m2 <? timestamp m1).

(** [std::priority_queue]: which of several greatest elements [top] gives is not
    specified, so the queue is an interface.  [pq_elems] is its contents. *)
Class PriorityQueue (Q : Type) := {
  pq_new : Q;
  pq_push : SubscriptionMessage → Q → Q;
  pq_top : Q → option SubscriptionMessage;
  pq_pop : Q → Q;
  pq_elems : Q → list SubscriptionMessage
}.

Class PriorityQueueLaws (Q : Type) `{PriorityQueue Q} : Prop := {
  pq_new_elems : pq_elems pq_new = [];
  pq_push_elems m q : pq_elems (pq_push m q) ≡ₚ m :: pq_elems q;
  pq_top_None q : pq_top q = None ↔ pq_elems q = [];
  pq_top_Some q m : pq_top q = Some m →
    pq_elems q ≡ₚ m :: pq_elems (pq_pop q) ∧ ∀ m', m' ∈ pq_elems q → message_ltb m m' = false
}.

(** ** Constants and results *)

Definition kMaxTimeoutMillis : Z := 1000 * 60 * 10.
Definition kDebugTimeoutMillis : Z := 100.
Definition maxPollInterval : Z := 1000.
Definition kIntPubSubEndpoint : string := "inproc://pubsub".

Abbreviation Errors := (list (OID * string)) (only parsing).

(** What [poll] returns: the messages and its three output arguments. *)
Record PollResult (Q : Type) := mkPoll {
  pr_messages : Q;
  pr_millisPolled : Z;
  pr_pollAgain : bool;
  pr_errors : Errors
}.
Arguments mkPoll {Q}. Arguments pr_messages {Q}. Arguments pr_millisPolled {Q}.
Arguments pr_pollAgain {Q}. Arguments pr_errors {Q}.

Section pubsub.
Context {Mt Pt Q : Type} `{MatcherOps Mt} `{ProjectionOps Pt} `{PriorityQueue Q}.
Context (sys : System Mt Pt).
Abbreviation W := (World Mt Pt).
Abbreviation SubscriptionVector := (list (OID * loc)).

(** ** Socket set-up *)

Definition turn_off : M W unit := modify (set_flags false false).

Definition initSendSocket : M W (option socket_t) :=
  try_zmq
    (s ← zmq_socket sys (if p_isMongos sys then ZMQ_PUSH else ZMQ_PUB);
     s ← on_socket sys (sock_rcvhwm 0) s;
     mret (Some s))
    (λ _, _ ← turn_off; mret None).

Definition initRecvSocket : M W (option socket_t) :=
  try_zmq
    (s ← zmq_socket sys (if p_configsvr sys then ZMQ_PULL else ZMQ_SUB);
     s ← (if negb (p_configsvr sys) then on_socket sys (sock_subscribe "") s else mret s);
     mret (Some s))
    (λ _, _ ← turn_off; mret None).

(** ** Subscribing *)

(** [subscriptionId.init()]. *)
Definition gen_oid : M W OID :=
  w ← getS;
  let '(o, inc) := OID_init (clockSec w) (p_machine sys) (oidInc w) in
  _ ← modify (set_oidInc inc); mret o.

Definition subscribe (channel : string) (filter projection : BSONObj) : M W OID :=
  subscriptionId ← gen_oid;
  subSocket ← try_zmq
    (s ← zmq_socket sys ZMQ_SUB;
     s ← on_socket sys (sock_subscribe channel) s;
     s ← on_socket sys (sock_rcvhwm 0) s;
     on_socket sys (sock_connect kIntPubSubEndpoint) s)
    (λ what, throw (UserException 18539 what));
  f ← (if negb (isEmpty filter) then m ← lift (matcher_new filter); mret (Some m)
       else mret None);
  p ← (if negb (isEmpty projection) then p ← lift (projection_init projection); mret (Some p)
       else mret None);
  let s := mkInfo subSocket (bitfield 0) (bitfield 0) (bitfield 1) f p in
  _ ← modify (λ w, set_subscriptions (map_insert subscriptionId (length (heap w)) (subscriptions w))
                     (set_heap (heap w ++ [s]) w));
  mret subscriptionId.

(** ** Unsubscribing *)

Definition unsubscribe (subscriptionId : OID) (errors : Errors) (force : bool) : M W Errors :=
  w ← getS;
  match map_find subscriptionId (subscriptions w) with
  | None => mret (map_insert subscriptionId "Subscription not found." errors)
  | Some l =>
      match heap w !! l with
      | None => throw (UndefinedBehaviour "dangling subscription")
      | Some s =>
          if negb force && flag (inUse s) then
            _ ← modify (upd_info l (set_shouldUnsub 1)); mret errors
          else
            _ ← modify (upd_info l (λ s, set_sock (sock_close (sock s)) s));
            _ ← modify (λ w, set_subscriptions (map_erase subscriptionId (subscriptions w)) w);
            mret errors
      end
  end.

(** ** Checking sockets out and in *)

(** The errors of [checkoutSocket] are the left values. *)
Definition checkoutSocket (subscriptionId : OID) : M W (string + loc) :=
  w ← getS;
  match map_find subscriptionId (subscriptions w) with
  | None => mret (inl "Subscription not found.")
  | Some l =>
      match heap w !! l with
      | None => throw (UndefinedBehaviour "dangling subscription")
      | Some s =>
          if flag (shouldUnsub s) then mret (inl "Subscription not found.")
          else if flag (inUse s) then mret (inl "Poll currently active.")
          else _ ← modify (upd_info l (set_inUse 1)); mret (inr l)
      end
  end.

Definition checkinSocket (l : loc) : M W unit :=
  _ ← modify (upd_info l (set_polledRecently 1));
  modify (upd_info l (set_inUse 0)).

Definition endCurrentPolls (subs : SubscriptionVector) : M W unit :=
  forM_ subs (λ s, checkinSocket s.2).

(** The pollitem of a subscription holds the raw pointer of its open socket. *)
Definition pollitem (l : loc) : M W loc :=
  o ← gets (λ w, heap w !! l);
  match o with
  | Some i => if isopen (sock i) then mret l else throw (UndefinedBehaviour "poll on a closed socket")
  | None => throw (UndefinedBehaviour "dangling subscription")
  end.

Definition getSubscriptions (subscriptionIds : list OID) (errors : Errors) :
    M W (list loc * SubscriptionVector * Errors) :=
  foldM (λ '(items, subs, errors) subscriptionId,
    r ← checkoutSocket subscriptionId;
    match r with
    | inl errmsg => mret (items, subs, map_insert subscriptionId errmsg errors)
    | inr s =>
        pollItem ← pollitem s;
        mret (items ++ [pollItem], subs ++ [(subscriptionId, s)], errors)
    end) ([], [], errors) subscriptionIds.

(** ** Receiving *)

(** [recv(&msg, ZMQ_DONTWAIT)] on the subscription's socket: [None] is [false]. *)
Definition recv_dontwait (l : loc) : M W (option string) :=
  _ ← zcall sys;
  o ← gets (λ w, heap w !! l);
  match o with
  | None => throw (UndefinedBehaviour "dangling subscription")
  | Some i =>
      if negb (isopen (sock i)) then throw ENOTSOCK
      else
        let '(f, s) := sock_take (sock i) in
        _ ← modify (upd_info l (set_sock s)); mret f
  end.

(** [recv(&msg)] waits when nothing has arrived. *)
Definition recv_wait (l : loc) : M W string :=
  f ← recv_dontwait l;
  match f with Some f => mret f | None => throw (Blocks "recv") end.

(** The body of the receive loop after the first frame: [None] when the filter
    rejects the message. *)
Definition recv_rest (subscriptionId : OID) (l : loc) (f1 : string) :
    M W (option SubscriptionMessage) :=
  n ← lift (strlen f1);
  let channel := str_take n f1 in
  f2 ← recv_wait l;
  message ← lift (BSONObj_of_bytes f2);
  f3 ← recv_wait l;
  timestamp ← lift (read_ulong f3);
  o ← gets (λ w, heap w !! l);
  match o with
  | None => throw (UndefinedBehaviour "dangling subscription")
  | Some s =>
      b ← match filter_ s with
          | Some m => lift (matcher_matches m message)
          | None => mret true
          end;
      if negb b then mret None
      else
        message ← match projection_ s with
                  | Some p => lift (projection_transform p message)
                  | None => mret message
                  end;
        mret (Some (mkMessage subscriptionId channel message timestamp))
  end.

(** The receive loop of one subscription.  The messages pushed so far survive a
    ZeroMQ error, so the loop returns the outbox with the error, if any. *)
Fixpoint recv_loop (fuel : nat) (subscriptionId : OID) (l : loc) (outbox : Q) :
    M W (Q * option string) :=
  match fuel with
  | O => throw OutOfFuel
  | S fuel =>
      r ← try_zmq
        (f ← recv_dontwait l;
         match f with
         | None => mret None
         | Some f1 => m ← recv_rest subscriptionId l f1; mret (Some (inr m))
         end)
        (λ what, mret (Some (inl what)));
      match r with
      | None => mret (outbox, None)
      | Some (inl what) => mret (outbox, Some what)
      | Some (inr None) => recv_loop fuel subscriptionId l outbox
      | Some (inr (Some m)) => recv_loop fuel subscriptionId l (pq_push m outbox)
      end
  end.

(** The frames waiting on the subscription's socket bound the loop. *)
Definition pending (i : SubscriptionInfo Mt Pt) : nat :=
  (length (partial (sock i)) + sum_list ((λ m, 1 `max` length m) <$> inbox (sock i)))%nat.

(** The body of the loop of [recvMessages] over the subscriptions. *)
Definition recv_sub (acc : Q * Errors) (sub : OID * loc) : M W (Q * Errors) :=
  let '(outbox, errors) := acc in
  fuel ← gets (λ w, match heap w !! sub.2 with Some i => S (pending i) | None => 1%nat end);
  r ← recv_loop fuel sub.1 sub.2 outbox;
  let errors' := match r.2 with
                 | Some _ => map_insert sub.1 "Error receiving messages from zmq socket." errors
                 | None => errors
                 end in
  _ ← checkinSocket sub.2;
  mret (r.1, errors').

Definition recvMessages (subs : SubscriptionVector) (errors : Errors) : M W (Q * Errors) :=
  foldM recv_sub (pq_new, errors) subs.

(** ** Polling *)

Definition item_open (w : W) (l : loc) : bool :=
  match heap w !! l with Some i => isopen (sock i) | None => false end.
Definition item_ready (w : W) (l : loc) : bool :=
  match heap w !! l with Some i => sock_ready (sock i) | None => false end.

(** [zmq::poll]: the number of items with a message, after the wait.  A socket
    that was closed in the meantime must not be polled. *)
Definition zmq_poll (items : list loc) : M W Z :=
  n ← gets zmqCalls;
  _ ← zcall sys;
  _ ← modify (others sys n);
  w ← getS;
  if forallb (item_open w) items
  then mret (Z.of_nat (length (filter (λ l, item_ready w l = true) items)))
  else throw (UndefinedBehaviour "poll on a closed socket").

Definition size_t_mod : Z := 2 ^ 64.

(** [v.erase(v.begin() + i)]. *)
Definition erase_at {A} (i : nat) (l : list A) : list A := take i l ++ drop (S i) l.

(** The loop over [subs] that drops the subscriptions that were unsubscribed.
    The index is a [size_t]: [i--] at 0 wraps around and the [i++] of the loop
    wraps it back. *)
Fixpoint drop_unsubscribed (fuel : nat) (i : Z) (items : list loc)
    (subs : SubscriptionVector) (errors : Errors) :
    M W (list loc * SubscriptionVector * Errors) :=
  match fuel with
  | O => throw OutOfFuel
  | S fuel =>
      match subs !! Z.to_nat i with
      | None => mret (items, subs, errors)
      | Some (subscriptionId, l) =>
          o ← gets (λ w, heap w !! l);
          match o with
          | None => throw (UndefinedBehaviour "dangling subscription")
          | Some s =>
              if flag (shouldUnsub s) then
                let errors := map_insert subscriptionId "Poll interrupted by unsubscribe." errors in
                let items := erase_at (Z.to_nat i) items in
                let subs := erase_at (Z.to_nat i) subs in
                errors ← unsubscribe subscriptionId errors true;
                let i := (i - 1) mod size_t_mod in
                drop_unsubscribed fuel ((i + 1) mod size_t_mod) items subs errors
              else drop_unsubscribed fuel ((i + 1) mod size_t_mod) items subs errors
          end
      end
  end.

(** How the polling loop is left. *)
Inductive LoopExit :=
| Returned (millisPolled : Z) (pollAgain : bool) (errors : Errors)
| Finished (pollRuntime : Z) (subs : SubscriptionVector) (errors : Errors).

(** One turn of the [while] per unit of fuel; a turn waits [currPollInterval],
    at least a millisecond, so the timeout in milliseconds bounds the turns. *)
Fixpoint poll_loop (fuel : nat) (items : list loc) (subs : SubscriptionVector)
    (errors : Errors) (timeout pollRuntime currPollInterval : Z) (pollAgain : bool) :
    M W LoopExit :=
  match fuel with
  | O => throw OutOfFuel
  | S fuel =>
      if negb (0 <? timeout) then mret (Finished pollRuntime subs errors)
      else
        n ← try_zmq (zmq_poll items)
          (λ what, _ ← endCurrentPolls subs; throw (UserException 18547 what));
        if negb (n =? 0) then mret (Finished pollRuntime subs errors)
        else
          '(items, subs, errors) ← drop_unsubscribed (S (length subs)) 0 items subs errors;
          if (length items =? 0)%nat then mret (Returned pollRuntime pollAgain errors)
          else
            let timeout := timeout - currPollInterval in
            let pollRuntime := pollRuntime + currPollInterval in
            max ← gets maxTimeoutMillis;
            if max <=? pollRuntime then
              _ ← endCurrentPolls subs;
              mret (Returned pollRuntime true errors)
            else
              poll_loop fuel items subs errors timeout pollRuntime
                (Z.min maxPollInterval timeout) pollAgain
  end.

Definition poll (subscriptionIds : list OID) (timeout millisPolled : Z) (pollAgain : bool)
    (errors : Errors) : M W (PollResult Q) :=
  '(items, subs, errors) ← getSubscriptions subscriptionIds errors;
  if (length items =? 0)%nat then mret (mkPoll pq_new millisPolled pollAgain errors)
  else
    max ← gets maxTimeoutMillis;
    let timeout := if (max <? timeout) || (timeout <? 0) then max else timeout in
    x ← poll_loop (S (Z.to_nat timeout)) items subs errors timeout 0
          (Z.min maxPollInterval timeout) pollAgain;
    match x with
    | Returned millis again errors => mret (mkPoll pq_new millis again errors)
    | Finished pollRuntime subs errors =>
        '(messages, errors) ← recvMessages subs errors;
        mret (mkPoll messages pollRuntime pollAgain errors)
    end.

(** ** Background threads *)

(** One pass of [subscriptionCleanup] over the map.  After [erase(it)] the loop
    increments the erased iterator, which is undefined. *)
Fixpoint cleanup_pass (entries : list (OID * loc)) : M W unit :=
  match entries with
  | [] => mret ()
  | (id, l) :: entries =>
      o ← gets (λ w, heap w !! l);
      match o with
      | None => throw (UndefinedBehaviour "dangling subscription")
      | Some s =>
          if flag (polledRecently s) then
            _ ← modify (upd_info l (set_polledRecently 0)); cleanup_pass entries
          else
            _ ← modify (upd_info l (λ s, set_sock (sock_close (sock s)) s));
            _ ← modify (λ w, set_subscriptions (map_erase id (subscriptions w)) w);
            throw (UndefinedBehaviour "increment of an erased iterator")
      end
  end.

(** The entry of the thread, and its endless loop up to [n] passes. *)
Definition cleanup_start : M W unit :=
  if p_useDebugTimeout sys then modify (set_maxTimeoutMillis kDebugTimeoutMillis) else mret ().

Definition subscriptionCleanup_pass : M W unit :=
  entries ← gets subscriptions; cleanup_pass entries.

(** One message through [zmq::proxy] from the external socket to the clients. *)
Definition proxy_step : M W unit :=
  o ← gets extRecvSocket;
  match o with
  | None => throw (UndefinedBehaviour "null socket")
  | Some s =>
      match inbox s with
      | [] => mret ()
      | m :: rest =>
          _ ← modify (set_extRecvSocket (Some
                 (mkSocket (stype s) (isopen s) (filters s) (sndhwm s) (rcvhwm s) (connected s)
                    (bound s) rest (partial s) (sending s) (outbox s))));
          modify (λ w, set_heap ((λ i, set_sock (deliver m (sock i)) i) <$> heap w) w)
      end
  end.
End pubsub.
