(* ===== verification/PQueue.v ===== *)
(** * The order of messages and a priority queue

    [operator<] of [SubscriptionMessage] is a strict weak order, as
    [std::priority_queue] requires, and a queue kept sorted implements the
    interface of PubSub.v. *)

From S2P Require Import Prelude Monad StdMap Bytes Oid Doubles Bson BsonBytes HostPort Zmq.
From S2P Require Import World PubSub.

Implicit Types (m : SubscriptionMessage).

(** [operator<] is lexicographic: identifier, channel, then the later time. *)
Lemma message_ltb_lex m1 m2 : message_ltb m1 m2 = true ↔
  (subscriptionId m1 <?k subscriptionId m2) = true ∨
  subscriptionId m1 = subscriptionId m2 ∧
    ((channel m1 <?k channel m2) = true ∨
     channel m1 = channel m2 ∧ timestamp m2 < timestamp m1).
Proof.
  unfold message_ltb. destruct (subscriptionId m1 <?k subscriptionId m2) eqn:Hi; [by split; [left|]|].
  rewrite <-OID_eqb_eq. destruct (OID_eqb _ _) eqn:He; simpl; [|naive_solver].
  rewrite <-StringData_eqb_eq. destruct (channel m1 <?k channel m2) eqn:Hc; [naive_solver|].
  rewrite andb_true_iff, Z.ltb_lt. naive_solver.
Qed.

Lemma trichotomy `{OpLtLaws K} (x y : K) : (x <?k y) = true ∨ x = y ∨ (y <?k x) = true.
Proof.
  destruct (x <?k y) eqn:Hxy; [by left|]. destruct (y <?k x) eqn:Hyx; [by right; right|].
  right. left. by apply oplt_total.
Qed.

Lemma message_ltb_irrefl m : message_ltb m m = false.
Proof.
  apply not_true_iff_false. rewrite message_ltb_lex, !oplt_irrefl.
  intros [?|[_ [?|[_ ?]]]]; [done|done|lia].
Qed.

Lemma message_ltb_trans m1 m2 m3 :
  message_ltb m1 m2 = true → message_ltb m2 m3 = true → message_ltb m1 m3 = true.
Proof.
  rewrite !message_ltb_lex.
  intros [Ha|[Ha [Hb|[Hb Hc]]]] [Ha'|[Ha' [Hb'|[Hb' Hc']]]];
    first [left; congruence | left; by eapply oplt_trans | right; split; [congruence|]];
    first [left; congruence | left; by eapply oplt_trans | right; split; [congruence|lia]].
Qed.

(** Incomparable messages agree on everything [operator<] looks at. *)
Lemma message_ltb_incomparable m1 m2 :
  message_ltb m1 m2 = false → message_ltb m2 m1 = false →
  subscriptionId m1 = subscriptionId m2 ∧ channel m1 = channel m2 ∧ timestamp m1 = timestamp m2.
Proof.
  rewrite <-!not_true_iff_false, !message_ltb_lex. intros Hn1 Hn2.
  destruct (trichotomy (subscriptionId m1) (subscriptionId m2)) as [?|[Hi|?]]; [naive_solver| |naive_solver].
  destruct (trichotomy (channel m1) (channel m2)) as [?|[Hc|?]]; [naive_solver| |naive_solver].
  destruct (Z.lt_trichotomy (timestamp m1) (timestamp m2)) as [?|[?|?]]; naive_solver.
Qed.

Lemma message_ltb_neg_trans m1 m2 m3 :
  message_ltb m1 m2 = false → message_ltb m2 m3 = false → message_ltb m1 m3 = false.
Proof.
  intros H12 H23. destruct (message_ltb m1 m3) eqn:H13; [|done].
  destruct (message_ltb m2 m1) eqn:H21.
  - by rewrite (message_ltb_trans m2 m1 m3) in H23.
  - destruct (message_ltb_incomparable m1 m2 H12 H21) as (Hi & Hc & Ht).
    rewrite <-H23, <-H13. unfold message_ltb. by rewrite Hi, Hc, Ht.
Qed.

(** ** A sorted queue *)

Fixpoint sorted_push m (q : list SubscriptionMessage) : list SubscriptionMessage :=
  match q with
  | [] => [m]
  | x :: q' => if message_ltb x m then m :: x :: q' else x :: sorted_push m q'
  end.

Definition queue_sorted (q : list SubscriptionMessage) : Prop :=
  StronglySorted (λ x y, message_ltb x y = false) q.

Lemma sorted_push_perm m q : sorted_push m q ≡ₚ m :: q.
Proof.
  induction q as [|x q IH]; simpl; [done|]. case_match; [done|]. rewrite IH. apply Permutation_swap.
Qed.

Lemma sorted_push_sorted m q : queue_sorted q → queue_sorted (sorted_push m q).
Proof.
  induction 1 as [|x q Hs IH Hx]; simpl; [repeat constructor|].
  destruct (message_ltb x m) eqn:Hxm.
  - assert (message_ltb m x = false) as Hmx.
    { apply not_true_iff_false. intros Hmx. pose proof (message_ltb_trans _ _ _ Hxm Hmx).
      by rewrite message_ltb_irrefl in *. }
    constructor; [by constructor|]. constructor; [done|].
    eapply Forall_impl; [exact Hx|]. intros y. by apply message_ltb_neg_trans.
  - constructor; [done|]. rewrite sorted_push_perm. by constructor.
Qed.

(** A queue is a sorted list; the proof travels with it. *)
Record queue := mkQueue { q_list : list SubscriptionMessage; q_sorted : queue_sorted q_list }.

#[global] Instance queue_pq : PriorityQueue queue := {|
  pq_new := mkQueue [] (SSorted_nil _);
  pq_push m q := mkQueue (sorted_push m (q_list q)) (sorted_push_sorted m _ (q_sorted q));
  pq_top q := head (q_list q);
  pq_pop q := match q with
              | mkQueue [] H => mkQueue [] H
              | mkQueue (x :: l) H => mkQueue l (proj1 (StronglySorted_inv H))
              end;
  pq_elems q := q_list q
|}.

#[global] Instance queue_laws : PriorityQueueLaws queue.
Proof.
  split; simpl.
  - done.
  - intros m q. apply sorted_push_perm.
  - intros [[|x l] Hs]; done.
  - intros [[|x l] Hs] m; simpl; [done|]. intros [= ->]. split; [done|].
    intros m' [->|Hin]%elem_of_cons; [apply message_ltb_irrefl|].
    apply StronglySorted_inv in Hs as [_ Hx]. by eapply Forall_forall in Hx.
Qed.
