(* ===== verification/PubSubInv.v ===== *)
(** * Invariant of the subscription table

    What every operation of PubSub.v keeps of the process state, whatever
    ZeroMQ calls fail, and that the loops end.  The map is ordered, its entries
    are distinct live subscriptions with an open socket, and the bit fields hold
    a bit. *)

From S2P Require Import Prelude Monad StdMap Bytes Oid Doubles Bson BsonBytes HostPort Zmq.
From S2P Require Import World PubSub.

Definition is_bit (z : Z) : Prop := z = 0 ∨ z = -1.

Section invariant.
Context {Mt Pt Q : Type} `{MatcherOps Mt} `{ProjectionOps Pt} `{PriorityQueue Q}.
Context (sys : System Mt Pt).
Abbreviation W := (World Mt Pt).
Implicit Types (w : W) (i : SubscriptionInfo Mt Pt) (l : nat).

Definition info_ok i : Prop :=
  is_bit (inUse i) ∧ is_bit (shouldUnsub i) ∧ is_bit (polledRecently i).

Record world_wf w : Prop := {
  wf_sorted : map_sorted (subscriptions w);
  wf_live id l : (id, l) ∈ subscriptions w →
    ∃ i, heap w !! l = Some i ∧ isopen (sock i) = true;
  wf_distinct : NoDup (subscriptions w).*2;
  wf_bits : Forall info_ok (heap w)
}.

(** Only the table and the heap matter. *)
Lemma wf_same w w' : subscriptions w' = subscriptions w → heap w' = heap w →
  world_wf w → world_wf w'.
Proof. intros Hs Hh [????]. split; by rewrite ?Hs, ?Hh. Qed.

(** ** Bits *)

Lemma bitfield_bit b : is_bit (bitfield b).
Proof.
  unfold bitfield, to_signed, is_bit. change (2 ^ 1) with 2. change (2 ^ (1 - 1)) with 1.
  pose proof (Z.mod_pos_bound b 2 ltac:(lia)). case_match; lia.
Qed.

Lemma flag_bitfield_1 : flag (bitfield 1) = true.
Proof. done. Qed.
Lemma flag_bitfield_0 : flag (bitfield 0) = false.
Proof. done. Qed.

Lemma info_ok_sock s i : info_ok i → info_ok (set_sock s i).
Proof. done. Qed.
Lemma info_ok_inUse b i : info_ok i → info_ok (set_inUse b i).
Proof. intros (?&?&?). split_and!; simpl; auto using bitfield_bit. Qed.
Lemma info_ok_shouldUnsub b i : info_ok i → info_ok (set_shouldUnsub b i).
Proof. intros (?&?&?). split_and!; simpl; auto using bitfield_bit. Qed.
Lemma info_ok_polledRecently b i : info_ok i → info_ok (set_polledRecently b i).
Proof. intros (?&?&?). split_and!; simpl; auto using bitfield_bit. Qed.

(** ** Updates *)

(** A write to a subscription that leaves its socket as open as it was. *)
Lemma wf_upd_info l f w :
  (∀ i, info_ok i → info_ok (f i)) →
  (∀ i, heap w !! l = Some i → isopen (sock i) = true → isopen (sock (f i)) = true) →
  world_wf w → world_wf (upd_info l f w).
Proof.
  intros Hok Hopen [Hs Hl Hd Hb]. split; simpl; try done.
  - intros id l' Hin. destruct (Hl id l' Hin) as (i & Hi & Ho).
    destruct (decide (l' = l)) as [->|Hne].
    + exists (f i). rewrite list_lookup_alter_eq, Hi. auto.
    + exists i. by rewrite list_lookup_alter_ne.
  - by apply Forall_alter; [|intros i _ ?; apply Hok].
Qed.

(** Closing a socket and erasing its entry, as both removals do. *)
Lemma wf_close_erase id l f w :
  (∀ i, info_ok i → info_ok (f i)) → map_find id (subscriptions w) = Some l →
  world_wf w →
  world_wf (set_subscriptions (map_erase id (subscriptions w)) (upd_info l f w)).
Proof.
  intros Hok Hf [Hs Hl Hd Hb]. pose proof (map_erase_perm _ _ _ Hs Hf) as Hp.
  assert (NoDup ((id, l) :: map_erase id (subscriptions w)).*2) as [Hnl Hnd]%NoDup_cons
    by (by rewrite <-Hp).
  split; simpl; [by apply map_erase_sorted| |done|].
  - intros id' l' Hin. destruct (Hl id' l' (map_erase_subset _ _ _ Hin)) as (i & Hi & Ho).
    exists i. rewrite list_lookup_alter_ne; [done|]. intros <-.
    apply Hnl, list_elem_of_fmap. by exists (id', l).
  - by apply Forall_alter; [|intros i _ ?; apply Hok].
Qed.

Lemma find_live w id l : world_wf w → map_find id (subscriptions w) = Some l →
  ∃ i, heap w !! l = Some i ∧ isopen (sock i) = true.
Proof. intros Hw Hf. eapply wf_live; [done|]. apply map_find_elem; [by apply wf_sorted|done]. Qed.

(** ** Primitive steps *)

Lemma preserves_zcall : preserves world_wf (zcall sys).
Proof. intros w Hw. apply wp_zcall; intros; by apply (wf_same w). Qed.

Lemma preserves_on_socket op s : preserves world_wf (on_socket sys op s).
Proof. unfold on_socket. pose proof preserves_zcall. preserves_auto. Qed.

Lemma preserves_zmq_socket t : preserves world_wf (zmq_socket sys t).
Proof. unfold zmq_socket. pose proof preserves_zcall. preserves_auto. Qed.

Lemma preserves_gen_oid : preserves world_wf (gen_oid sys).
Proof.
  unfold gen_oid. preserves_auto. apply preserves_modify. intros w. by apply (wf_same w).
Qed.

(** ** Subscribing *)

(** The socket of a new subscription. *)
Definition client_socket (channel : string) : socket_t :=
  mkSocket ZMQ_SUB true [channel] kDefaultHwm 0 [kIntPubSubEndpoint] [] [] [] [] [].

Definition new_info channel f p : SubscriptionInfo Mt Pt :=
  mkInfo (client_socket channel) (bitfield 0) (bitfield 0) (bitfield 1) f p.

Lemma wp_client_socket c (Qp : socket_t → W → Prop) (E : exn → W → Prop) w :
  (∀ n, Qp (client_socket c) (set_zmqCalls n w)) →
  (∀ n what, E (UserException 18539 what) (set_zmqCalls n w)) →
  wp (try_zmq
    (s ← zmq_socket sys ZMQ_SUB;
     s ← on_socket sys (sock_subscribe c) s;
     s ← on_socket sys (sock_rcvhwm 0) s;
     on_socket sys (sock_connect kIntPubSubEndpoint) s)
    (λ what, throw (UserException 18539 what))) Qp E w.
Proof.
  intros HQ HE. unfold zmq_socket, on_socket. wp_steps.
  do 4 (apply wp_zcall; [|intros; apply HE]; wp_steps). apply HQ.
Qed.

(** The state after a successful [subscribe]. *)
Definition subscribed id i w : W :=
  set_subscriptions (map_insert id (length (heap w)) (subscriptions w)) (set_heap (heap w ++ [i]) w).

Definition next_oid w : OID := fst (OID_init (clockSec w) (p_machine sys) (oidInc w)).

(** The optional matcher or projection: built from a document that is not empty. *)
Definition optional {A} (mk : BSONObj → res A) (d : BSONObj) : res (option A) :=
  if isEmpty d then Ok None else a ← mk d; Ok (Some a).

(** [subscribe] ends in one of four ways: the subscription is in the table with
    a fresh socket; a ZeroMQ call failed; the filter or the projection was
    rejected.  Nothing but counters changes when it throws. *)
Lemma wp_subscribe c f p (Qp : OID → W → Prop) (E : exn → W → Prop) w :
  (∀ n mt pt, optional matcher_new f = Ok mt → optional projection_init p = Ok pt →
     let w' := set_zmqCalls n (set_oidInc (to_unsigned 32 (oidInc w + 1)) w) in
     Qp (next_oid w) (subscribed (next_oid w) (new_info c mt pt) w')) →
  (∀ n e, (∃ what, e = UserException 18539 what) ∨ optional matcher_new f = Throw e
        ∨ optional projection_init p = Throw e →
     E e (set_zmqCalls n (set_oidInc (to_unsigned 32 (oidInc w + 1)) w))) →
  wp (subscribe sys c f p) Qp E w.
Proof.
  intros HQ HE. unfold subscribe, gen_oid, OID_init. fold (next_oid w).
  do 3 wp_step. apply wp_bind, wp_modify, wp_ret, wp_bind, wp_client_socket;
    [|intros; apply HE; eauto]. intros n.
  assert (∀ {A} (mk : BSONObj → res A) d (K : option A → M W OID) (w0 : W),
    (∀ a, optional mk d = Ok a → wp (K a) Qp E w0) →
    (∀ e, optional mk d = Throw e → E e w0) →
    wp ((if negb (isEmpty d) then m ← lift (mk d); mret (Some m) else mret None) ≫= K) Qp E w0)
    as Hopt.
  { intros A mk d K w0. unfold optional. destruct (isEmpty d); simpl; intros HK HK'; [by apply HK|].
    do 2 apply wp_bind. apply wp_lift; intros x Hx; rewrite Hx in HK, HK'; [|by apply HK'].
    wp_steps. by apply HK. }
  apply Hopt; [intros mt Hmt|intros e He; apply HE; eauto].
  apply Hopt; [intros pt Hpt|intros e He; apply HE; eauto].
  wp_steps. by apply HQ.
Qed.

Lemma wf_subscribed id i w : info_ok i → isopen (sock i) = true → world_wf w →
  world_wf (subscribed id i w).
Proof.
  intros Hok Ho [Hs Hl Hd Hb]. split; simpl.
  - by apply map_insert_sorted.
  - intros id' l' [[= -> ->]|Hin]%map_insert_keys.
    + exists i. split; [by apply list_lookup_middle|done].
    + destruct (Hl _ _ Hin) as (i' & Hi & ?). exists i'. split; [|done].
      by apply lookup_app_l_Some.
  - destruct (map_find id (subscriptions w)) as [l|] eqn:Hf.
    + by erewrite map_insert_Some.
    + rewrite map_insert_perm by done. simpl. constructor; [|done].
      intros ([id' l'] & Heq & Hin)%list_elem_of_fmap. simpl in *.
      destruct (Hl _ _ Hin) as (i' & Hi & _). apply lookup_lt_Some in Hi. lia.
  - apply Forall_app. split; [done|]. by constructor.
Qed.

Lemma new_info_ok c f p : info_ok (new_info c f p).
Proof. split_and!; simpl; apply bitfield_bit. Qed.

Lemma preserves_subscribe c f p : preserves world_wf (subscribe sys c f p).
Proof.
  intros w Hw. apply wp_subscribe.
  - intros n mt pt _ _. apply wf_subscribed; [apply new_info_ok|done|].
    by apply (wf_same w).
  - intros n e _. by apply (wf_same w).
Qed.

(** ** Unsubscribing *)

Definition closed_info i : SubscriptionInfo Mt Pt := set_sock (sock_close (sock i)) i.

(** The state after a subscription is closed and removed. *)
Definition removed id l w : W :=
  set_subscriptions (map_erase id (subscriptions w)) (upd_info l closed_info w).

(** [unsubscribe] on every branch.  It throws only on a table that points
    outside the heap. *)
Lemma wp_unsubscribe id errors force (Qp : list (OID * string) → W → Prop) E w :
  world_wf w →
  (map_find id (subscriptions w) = None →
     Qp (map_insert id "Subscription not found." errors) w) →
  (∀ l i, map_find id (subscriptions w) = Some l → heap w !! l = Some i →
     if negb force && flag (inUse i) then Qp errors (upd_info l (set_shouldUnsub 1) w)
     else Qp errors (removed id l w)) →
  wp (unsubscribe id errors force) Qp E w.
Proof.
  intros Hw HN HS. unfold unsubscribe. wp_steps.
  destruct (map_find id (subscriptions w)) as [l|] eqn:Hf; [|wp_steps; auto].
  destruct (find_live _ _ _ Hw Hf) as (i & Hi & _). rewrite Hi.
  specialize (HS l i eq_refl Hi).
  destruct (negb force && flag (inUse i)); wp_steps; exact HS.
Qed.

Lemma preserves_unsubscribe id errors force :
  preserves world_wf (unsubscribe (Mt:=Mt) (Pt:=Pt) id errors force).
Proof.
  intros w Hw. apply wp_unsubscribe; [done|done|]. intros l i Hf Hi.
  case_match.
  - apply wf_upd_info; [apply info_ok_shouldUnsub|done|done].
  - by apply wf_close_erase.
Qed.

(** ** Checking sockets out and in *)

(** [checkoutSocket] on every branch. *)
Lemma wp_checkoutSocket id (Qp : string + nat → W → Prop) E w :
  world_wf w →
  (map_find id (subscriptions w) = None → Qp (inl "Subscription not found.") w) →
  (∀ l i, map_find id (subscriptions w) = Some l → heap w !! l = Some i →
     if flag (shouldUnsub i) then Qp (inl "Subscription not found.") w
     else if flag (inUse i) then Qp (inl "Poll currently active.") w
     else Qp (inr l) (upd_info l (set_inUse 1) w)) →
  wp (checkoutSocket id) Qp E w.
Proof.
  intros Hw HN HS. unfold checkoutSocket. wp_steps.
  destruct (map_find id (subscriptions w)) as [l|] eqn:Hf; [|wp_steps; auto].
  destruct (find_live _ _ _ Hw Hf) as (i & Hi & _). rewrite Hi.
  specialize (HS l i eq_refl Hi).
  destruct (flag (shouldUnsub i)); [by wp_steps|].
  destruct (flag (inUse i)); by wp_steps.
Qed.

Lemma preserves_checkoutSocket id : preserves world_wf (checkoutSocket (Mt:=Mt) (Pt:=Pt) id).
Proof.
  intros w Hw. apply wp_checkoutSocket; [done|done|]. intros l i Hf Hi.
  repeat case_match; try done. apply wf_upd_info; [apply info_ok_inUse|done|done].
Qed.

Lemma preserves_checkinSocket l : preserves world_wf (checkinSocket (Mt:=Mt) (Pt:=Pt) l).
Proof.
  unfold checkinSocket. apply preserves_bind; intros; apply preserves_modify; intros w.
  - apply wf_upd_info; [apply info_ok_polledRecently|done].
  - apply wf_upd_info; [apply info_ok_inUse|done].
Qed.

Lemma preserves_endCurrentPolls subs :
  preserves world_wf (endCurrentPolls (Mt:=Mt) (Pt:=Pt) subs).
Proof. apply preserves_forM. intros. apply preserves_checkinSocket. Qed.

#[local] Hint Resolve preserves_zcall preserves_unsubscribe preserves_checkoutSocket
  preserves_checkinSocket preserves_endCurrentPolls : preserves.

Lemma preserves_getSubscriptions ids errors :
  preserves world_wf (getSubscriptions (Mt:=Mt) (Pt:=Pt) ids errors).
Proof. unfold getSubscriptions, pollitem. preserves_auto. Qed.

(** ** Receiving *)

Lemma sock_take_open s : isopen (sock_take s).2 = isopen s.
Proof. unfold sock_take. destruct (partial s); [|done]. by destruct (inbox s) as [|[]]. Qed.

Lemma preserves_recv_dontwait l : preserves world_wf (recv_dontwait sys l).
Proof.
  unfold recv_dontwait. apply preserves_bind; [apply preserves_zcall|intros _].
  intros w Hw. do 2 wp_step. destruct (heap w !! l) as [i|] eqn:Hi; [|by wp_steps].
  destruct (negb (isopen (sock i))); [by wp_steps|].
  pose proof (sock_take_open (sock i)) as Ho. destruct (sock_take (sock i)) as [f s].
  wp_steps. apply wf_upd_info; [by intros; apply info_ok_sock| |done].
  intros i' Hi' Ho'. simplify_eq. simpl in *. congruence.
Qed.

#[local] Hint Resolve preserves_recv_dontwait : preserves.

Lemma preserves_recv_rest id l f : preserves world_wf (recv_rest sys id l f).
Proof. unfold recv_rest, recv_wait. preserves_auto. Qed.

#[local] Hint Resolve preserves_recv_rest : preserves.

Lemma preserves_recv_loop fuel id l (q : Q) : preserves world_wf (recv_loop sys fuel id l q).
Proof.
  revert q. induction fuel as [|fuel IH]; intros q; cbn [recv_loop]; preserves_auto.
Qed.

#[local] Hint Resolve preserves_recv_loop : preserves.

Lemma preserves_recvMessages subs errors :
  preserves world_wf (recvMessages (Q:=Q) sys subs errors).
Proof. unfold recvMessages, recv_sub. preserves_auto. Qed.

#[local] Hint Resolve preserves_recvMessages preserves_getSubscriptions : preserves.

(** ** Polling *)

Lemma preserves_drop_unsubscribed fuel (i : Z) items subs errors :
  preserves world_wf (drop_unsubscribed (Mt:=Mt) (Pt:=Pt) fuel i items subs errors).
Proof.
  revert i items subs errors. induction fuel as [|fuel IH]; intros; cbn [drop_unsubscribed];
    preserves_auto.
Qed.

#[local] Hint Resolve preserves_drop_unsubscribed : preserves.

(** Other threads keep the invariant while a poll waits. *)
Definition others_ok : Prop := ∀ n w, world_wf w → world_wf (others sys n w).

Lemma preserves_zmq_poll items : others_ok → preserves world_wf (zmq_poll sys items).
Proof.
  intros Ho. unfold zmq_poll. preserves_auto. apply preserves_modify. apply Ho.
Qed.

Lemma preserves_poll_loop fuel items subs errors t r c again : others_ok →
  preserves world_wf (poll_loop sys fuel items subs errors t r c again).
Proof.
  intros Ho. pose proof (λ items, preserves_zmq_poll items Ho). revert items subs errors t r c.
  induction fuel as [|fuel IH]; intros; cbn [poll_loop]; preserves_auto.
Qed.

Lemma preserves_poll ids t millis again errors : others_ok →
  preserves world_wf (poll (Q:=Q) sys ids t millis again errors).
Proof.
  intros Ho. unfold poll. pose proof (λ f it s e t r c a, preserves_poll_loop f it s e t r c a Ho).
  preserves_auto.
Qed.

(** ** Background threads *)

Lemma cleanup_pass_wf entries w : world_wf w → (∀ e, e ∈ entries → e ∈ subscriptions w) →
  NoDup entries →
  wp (cleanup_pass entries) (λ _, world_wf) (λ _, world_wf) w.
Proof.
  revert w. induction entries as [|[id l] entries IH]; intros w Hw Hsub Hnd; [done|].
  cbn [cleanup_pass]. do 2 wp_step.
  assert (map_find id (subscriptions w) = Some l) as Hf
    by (apply map_find_elem; [by apply wf_sorted|apply Hsub; set_solver]).
  destruct (find_live _ _ _ Hw Hf) as (i & Hi & _). rewrite Hi.
  apply NoDup_cons in Hnd as [_ Hnd].
  destruct (flag (polledRecently i)).
  - do 2 wp_step. apply IH; [|intros e He; simpl; apply Hsub; set_solver|done].
    apply wf_upd_info; [apply info_ok_polledRecently|done|done].
  - wp_steps. by apply (wf_close_erase id l closed_info w).
Qed.

Lemma preserves_cleanup : preserves world_wf (subscriptionCleanup_pass (Mt:=Mt) (Pt:=Pt)).
Proof.
  intros w Hw. unfold subscriptionCleanup_pass. do 2 wp_step. apply cleanup_pass_wf; [done|done|].
  apply (NoDup_fmap_1 fst), map_sorted_NoDup. by apply wf_sorted.
Qed.

Lemma deliver_open m s : isopen (deliver m s) = isopen s.
Proof. unfold deliver. by case_match. Qed.

Lemma preserves_proxy_step : preserves world_wf (proxy_step (Mt:=Mt) (Pt:=Pt)).
Proof.
  unfold proxy_step. preserves_auto; apply preserves_modify; intros w; [by apply (wf_same w)|].
  intros [Hs Hl Hd Hb]. split; simpl; try done.
  - intros id l' Hin. destruct (Hl _ _ Hin) as (i & Hi & Ho).
    eexists. rewrite list_lookup_fmap, Hi. split; [done|]. simpl. by rewrite deliver_open.
  - apply Forall_fmap. eapply Forall_impl; [done|]. intros i Hi. apply info_ok_sock, Hi.
Qed.
End invariant.
