(* ===== verification/Sample.v ===== *)
(** * A small process

    Concrete values for the interfaces and the process state: matchers and
    projections with a regular expression engine that looks for the pattern
    literally, a mongod with two subscriptions, [a] on channel "A" and [b] on "B"
    with a filter.  The theorems about processes are applied to it. *)

From S2P Require Import Prelude Monad StdMap Bytes Oid Doubles Bson BsonBytes HostPort Zmq World.
From S2P Require Import MatchExpr MatchSpec MatchParser Projection FilterOps PubSub PQueue PubSubInv.

(** ** Interfaces *)

Definition process_env : ParserEnv := default_env literal_env.
#[local] Existing Instance process_env.

Definition SMatcher : Type := Matcher2.
Definition SProjection : Type := Projection.

#[global] Instance SMatcher_ops : MatcherOps SMatcher := Matcher2_ops.
#[global] Instance SProjection_ops : ProjectionOps SProjection := Projection_ops.

Abbreviation SWorld := (World SMatcher SProjection).
Abbreviation SSystem := (System SMatcher SProjection).

(** The matcher of the query [{x: 2}]. *)
Definition filter_b : SMatcher := mkMatcher2 [("x", VInt 2)] (COMPARISON EQ "x" ("x", VInt 2)).

Lemma filter_b_new : matcher_new [("x", VInt 2)] = Ok filter_b.
Proof. by vm_compute. Qed.

(** ** The process *)

Definition sample_machine : MachineAndPid := machine_of_int64 1.

Definition sample_params : Params := {|
  p_isMongos := false; p_configsvr := false; p_port := 27017; p_configdbs := [];
  p_useDebugTimeout := false; p_machine := sample_machine
|}.

(** Nothing fails and no other thread runs. *)
Definition quiet : SSystem := {|
  params := sample_params; zmq_fails _ := None; push_full _ := false; isSelf _ := false; others _ w := w
|}.

Definition oid_of (n : Z) : OID := (OID_init 1 sample_machine n).1.

Definition pub_a : publication := mkPub "A" [("x", VInt 1)] 10.
Definition pub_b1 : publication := mkPub "B" [("x", VInt 1)] 20.
Definition pub_b2 : publication := mkPub "B" [("x", VInt 2)] 30.

Definition sub_socket (channel : string) (pubs : list publication) : socket_t :=
  mkSocket ZMQ_SUB true [channel] kDefaultHwm 0 [kIntPubSubEndpoint] [] (pub_frames <$> pubs) [] [] [].

Definition sample_info (channel : string) (pubs : list publication) (f : option SMatcher) :
    SubscriptionInfo SMatcher SProjection :=
  mkInfo (sub_socket channel pubs) 0 0 (-1) f None.

Definition sample_world (enabled : bool) (subs : list (OID * nat))
    (infos : list (SubscriptionInfo SMatcher SProjection)) : SWorld :=
  mkWorld enabled true kMaxTimeoutMillis subs infos (new_socket ZMQ_PUB)
    (Some (new_socket ZMQ_SUB)) (Some (new_socket ZMQ_PUB)) None [] [] 100 1 1000000 0.

(** Before any subscription. *)
Definition fresh_world : SWorld := sample_world true [] [].

(** Two subscriptions with messages waiting. *)
Definition two_subs : SWorld :=
  sample_world true [(oid_of 1, 0%nat); (oid_of 2, 1%nat)]
    [sample_info "A" [pub_a] None;
     sample_info "B" [pub_b1; pub_b2] (Some filter_b)].

(** The same with subscription [a] checked out by some poll. *)
Definition one_in_use : SWorld := upd_info 0 (set_inUse 1) two_subs.

Lemma two_subs_wf : world_wf two_subs.
Proof.
  split.
  - repeat constructor.
  - intros id l Hin. apply elem_of_cons in Hin as [[= -> ->]|Hin]; [by eexists|].
    apply list_elem_of_singleton in Hin as [= -> ->]. by eexists.
  - apply (bool_decide_unpack _). by vm_compute.
  - repeat (constructor; [split_and!; (by left) || (by right)|]). constructor.
Qed.

Lemma fresh_wf : world_wf fresh_world.
Proof. split; [constructor|by intros ?? ?%elem_of_nil|constructor|constructor]. Qed.

(** Decides well-formedness of a concrete document. *)
Ltac solve_wf := repeat split;
  first [by vm_compute | apply (bool_decide_unpack _); by vm_compute].

Lemma pub_a_wf : pub_wf pub_a.
Proof. solve_wf. Qed.
Lemma pub_b1_wf : pub_wf pub_b1.
Proof. solve_wf. Qed.
Lemma pub_b2_wf : pub_wf pub_b2.
Proof. solve_wf. Qed.
