(* ===== verification/EventSpec.v ===== *)
(** * What writes publish

    Every write of a collection does to the collection what the same write without
    publish/subscribe does, and its event is published when it should be. *)

From S2P Require Import Prelude Monad StdMap Bytes Oid Doubles Bson Namespace BsonBytes HostPort Zmq World SendSock Events Sample.

Section writes.
Context {St L : Type} `{CollectionStore St L}.

(** ** The writes alone *)

Definition write_insert (doc : BSONObj) (preGen : bool) (ns : string) : M St (StatusWithLoc L) :=
  st ← getS;
  if hasIdIndex st && eoo (getField doc "_id") then
    mret (Failed InternalError ("Collection::insertDocument got document without _id for ns:" +:+ ns))
  else
    ret ← (if isCapped st then checkNoIndexConflicts doc else mret None);
    match ret with
    | Some x => mret (Failed x.1 x.2)
    | None =>
        status ← insertDocument_ doc preGen;
        match status with
        | Location _ => _ ← paddingFits; mret status
        | Failed _ _ => mret status
        end
    end.

Definition write_remove (loc : L) (cappedOK wantId : bool) : M St (option BSONObj) :=
  st ← getS;
  if isCapped st && negb cappedOK then throw (UserException 10089 "cannot remove from a capped collection")
  else
    doc ← docFor loc;
    _ ← invalidateDocument loc;
    _ ← unindexRecord doc loc;
    _ ← deleteRecord loc;
    _ ← notifyOfWriteOp;
    mret (if wantId && negb (eoo (getField doc "_id")) then Some [getField doc "_id"] else None).

Context {Mt Pt : Type} (sys : System Mt Pt) (ns : string).
Implicit Types (w : World Mt Pt).

(** The sockets are there, with no message sent in part. *)
Definition sender_ready w : Prop :=
  (∃ s, extSendSocket w = Some s ∧ idle s) ∧ ∀ d, dbEventSocket w = Some d → idle d.

(** The event was sent, or a ZeroMQ call failed. *)
Definition event_sent (type : string) (doc : BSONObj) w w' : Prop :=
  if pubsubEnabled w && publishDataEvents w then
    same_but_sockets w w' ∧
    (published sys (mkPub kEventsChannel (event ns type doc) (clockMicros w)) w w' ∨ call_failed sys w w')
  else w' = w.

(** Events are on, and a socket the event goes to has no peer with room. *)
Definition event_waits w w' : Prop :=
  pubsubEnabled w = true ∧ publishDataEvents w = true ∧ same_but_sockets w w' ∧
  ∃ d, goes_to sys w kEventsChannel d ∧ call_waits sys d w w'.

Lemma publish_event_run type doc w : sender_ready w → ∃ w',
  publish_event sys ns type doc w = (Ok (), w') ∧ event_sent type doc w w' ∨
  publish_event sys ns type doc w = (Throw (Blocks "send"), w') ∧ ¬ has_room sys w ∧ event_waits w w'.
Proof.
  intros [(s & Hs & Hi) Hd]. unfold publish_event, event_sent. rewrite run_getS.
  destruct (pubsubEnabled w) eqn:He, (publishDataEvents w) eqn:Hev; cbn [andb]; eauto.
  pose proof (wp_publish sys kEventsChannel (event ns type doc) w s He Hs Hi Hd) as Hp. unfold wp in Hp.
  destruct (publish sys _ _ w) as [[b|e] w'] eqn:Hrun; exists w'.
  - left. destruct Hp as [Hsame Hb]. rewrite (bind_Ok _ _ _ _ _ Hrun). split; [done|]. split; [done|]. destruct b; eauto.
  - right. pose proof (λ Hr, room_no_wait sys w kEventsChannel e w' Hr Hp) as Hno.
    destruct Hp as (-> & Hsame & Hw). rewrite (bind_Throw _ _ _ _ _ Hrun). done.
Qed.

(** A computation on the collection and the process that does to the collection
    what [m0] does, and to the process what [R] says of the outcome, or waits for room
    in states that [B] describes. *)
Definition writes_as {A} (m : M (St * World Mt Pt) A) (m0 : M St A) (R : res A → World Mt Pt → Prop)
    (B : St → World Mt Pt → Prop) st w : Prop :=
  ∃ w', m (st, w) = (let '(r, st') := m0 st in (r, (st', w'))) ∧ R (m0 st).1 w' ∨
    ∃ st', m (st, w) = (Throw (Blocks "send"), (st', w')) ∧ B st' w'.

Lemma writes_store {A B} (m : M St A) (f : A → M (St * World Mt Pt) B) f0 (R : res B → World Mt Pt → Prop) Bl st w :
  (∀ a st', m st = (Ok a, st') → writes_as (f a) (f0 a) R Bl st' w) →
  (∀ e st', m st = (Throw e, st') → R (Throw e) w) →
  writes_as (on_store m ≫= f) (m ≫= f0) R Bl st w.
Proof.
  intros Hf He. unfold writes_as, on_store, mbind, M_bind in *. cbn [fst snd].
  destruct (m st) as [[a|e] st']; [apply Hf; done|]. exists w. left. split; [done|by eapply He].
Qed.

Lemma writes_getS {A} (f : St * World Mt Pt → M (St * World Mt Pt) A) f0 (R : res A → World Mt Pt → Prop) Bl st w :
  writes_as (f (st, w)) (f0 st) R Bl st w → writes_as (getS ≫= f) (getS ≫= f0) R Bl st w.
Proof. done. Qed.

Lemma writes_if {A B} (b : bool) (m : M St A) a (f : A → M (St * World Mt Pt) B) f0 (R : res B → World Mt Pt → Prop) Bl st w :
  writes_as (on_store (if b then m else mret a) ≫= f) ((if b then m else mret a) ≫= f0) R Bl st w →
  writes_as ((if b then on_store m else mret a) ≫= f) ((if b then m else mret a) ≫= f0) R Bl st w.
Proof. by destruct b. Qed.

Lemma writes_ret {A} (a : A) (R : res A → World Mt Pt → Prop) Bl st w : R (Ok a) w → writes_as (mret a) (mret a) R Bl st w.
Proof. intros HR. exists w. by left. Qed.

Lemma writes_event {A} type doc (f : unit → M (St * World Mt Pt) A) m0 (R : res A → World Mt Pt → Prop)
    (Bl : St → World Mt Pt → Prop) st w :
  sender_ready w → (∀ w', event_sent type doc w w' → writes_as (f ()) m0 R Bl st w') →
  (∀ w', ¬ has_room sys w → event_waits w w' → Bl st w') →
  writes_as (on_world (publish_event sys ns type doc) ≫= f) m0 R Bl st w.
Proof.
  intros Hr Hf HB. destruct (publish_event_run type doc w Hr) as (w' & [[Hrun He]|(Hrun & Hno & Hw)]).
  - destruct (Hf w' He) as (w2 & Hw2). exists w2. revert Hw2. unfold on_world, mbind, M_bind. cbn [fst snd]. by rewrite Hrun.
  - exists w'. right. exists st. split; [|auto]. unfold on_world, mbind, M_bind. cbn [fst snd]. by rewrite Hrun.
Qed.

(** C35: An insert does to the collection, and answers, what it does and answers
    without publish/subscribe, also when ZeroMQ calls fail; if it inserted the
    document and events are on it sent the insert event, unless one of the calls
    failed, and otherwise it touched nothing of publish/subscribe.  The exception is
    an insert whose event goes to a PUSH socket without room: the document is in the
    collection and the insert waits. *)
Theorem insert_event doc preGen st w : sender_ready w → ∃ w',
  insertDocument sys ns doc preGen (st, w) = (let '(r, st') := write_insert doc preGen ns st in (r, (st', w'))) ∧
    match (write_insert doc preGen ns st).1 with Ok (Location _) => event_sent "insert" doc w w' | _ => w' = w end ∨
  insertDocument sys ns doc preGen (st, w) = (Throw (Blocks "send"), ((write_insert doc preGen ns st).2, w')) ∧
    (∃ l, (write_insert doc preGen ns st).1 = Ok (Location l)) ∧ ¬ has_room sys w ∧ event_waits w w'.
Proof.
  intros Hr.
  assert (writes_as (insertDocument sys ns doc preGen) (write_insert doc preGen ns)
    (λ r w', match r with Ok (Location _) => event_sent "insert" doc w w' | _ => w' = w end)
    (λ st' w', (∃ l, write_insert doc preGen ns st = (Ok (Location l), st')) ∧ ¬ has_room sys w ∧ event_waits w w') st w)
    as (w' & [?|(st' & Hrun & (l & Hl) & Hw)]).
  - unfold insertDocument, write_insert. apply writes_getS. cbn [fst]. rewrite run_getS.
    destruct (hasIdIndex st && _); [by apply writes_ret|].
    apply writes_if, writes_store; [|done]. intros [x|] st1 H1; [by apply writes_ret|]. rewrite (bind_Ok _ _ _ _ _ H1).
    apply writes_store; [|done]. intros [l|c m] st2 H2; [|by apply writes_ret]. rewrite (bind_Ok _ _ _ _ _ H2).
    apply writes_store; [|done]. intros [] st3 H3. rewrite (bind_Ok _ _ _ _ _ H3).
    apply writes_event; [done|intros w' He; by apply writes_ret|]. intros w' Hno Hw. split; [by exists l|done].
  - exists w'. by left.
  - exists w'. right. rewrite Hl. split; [done|]. split; [by exists l|done].
Qed.

(** The same while indexes are built. *)
Lemma insert_block_event doc st w : sender_ready w →
  writes_as (insertDocument_block sys ns doc)
    (loc ← insertRecord doc;
     match loc with
     | Failed _ _ => mret loc
     | Location l =>
         status ← block_insert doc l;
         match status with Some x => mret (Failed x.1 x.2) | None => mret loc end
     end)
    (λ r w', match r with Ok (Location _) => event_sent "insert" doc w w' | _ => w' = w end)
    (λ _ w', ¬ has_room sys w ∧ event_waits w w') st w.
Proof.
  intros Hr. unfold insertDocument_block.
  apply writes_store; [|done]. intros [l|c m] st1 _; [|by apply writes_ret].
  apply writes_store; [|done]. intros [x|] st2 _; [by apply writes_ret|].
  apply writes_event; [done| |done]. intros w' He. by apply writes_ret.
Qed.

(** A removal does to the collection, and answers, what it does and answers
    without publish/subscribe.  Unless it is refused because the collection is
    capped, or the document cannot be read, its event with the whole document is
    sent, if events are on; that happens before anything is removed, so the event
    is out also when the removal then fails, and a removal whose event waits for room
    has not removed anything. *)
Lemma remove_event loc cappedOK wantId st w : sender_ready w →
  writes_as (deleteDocument sys ns loc cappedOK wantId) (write_remove loc cappedOK wantId)
    (λ _ w', if isCapped st && negb cappedOK then w' = w
             else match (docFor loc st).1 with
                  | Ok doc => event_sent "remove" doc w w'
                  | Throw _ => w' = w
                  end)
    (λ st' w', st' = (docFor loc st).2 ∧ ¬ has_room sys w ∧ event_waits w w') st w.
Proof.
  intros Hr. unfold deleteDocument, write_remove. apply writes_getS. cbn [fst].
  destruct (isCapped st && _); [exists w; by left|].
  apply writes_store; intros doc st1 ->; [|done]. cbn [fst snd].
  apply writes_event; [done| |done]. intros w' He.
  do 4 (apply writes_store; [intros [] ? _|done]). by apply writes_ret.
Qed.

End writes.

(** ** A small collection *)

(** Documents in the order of insertion, [None] where one was removed, with a
    unique index on [_id]. *)
Definition Docs : Type := list (option BSONObj).

#[local] Instance docs_store : CollectionStore Docs nat := {|
  hasIdIndex _ := true;
  isCapped _ := false;
  checkNoIndexConflicts _ := mret None;
  touch_keys := mret ();
  insertRecord doc := st ← getS; _ ← modify (λ st, st ++ [Some doc]); mret (Location (length st));
  deleteRecord l := modify (<[l := None]>);
  docFor l := st ← getS;
    match st !! l with Some (Some doc) => mret doc | _ => throw (UndefinedBehaviour "no record") end;
  indexRecord doc l := st ← getS;
    if existsb (λ d, match d with
                     | Some d => (objdata [getField d "_id"] =? objdata [getField doc "_id"])%string
                     | None => false
                     end) (take l st)
    then throw (UserException 11000 "E11000 duplicate key error") else mret ();
  unindexRecord _ _ := mret ();
  block_insert _ _ := mret None;
  invalidateDocument _ := mret ();
  notifyOfWriteOp := mret ();
  paddingFits := mret ()
|}.

Definition sample_doc : BSONObj := [("_id", VInt 1); ("x", VInt 5)].

Lemma fresh_ready : sender_ready fresh_world.
Proof. split; [by eexists|done]. Qed.

(** A second document with the same [_id] is taken out again. *)
Lemma duplicate_insert : (write_insert sample_doc false "test.c" [Some sample_doc]).1
  = Ok (Failed 11000 "insertDocument :: caused by :: 11000 E11000 duplicate key error").
Proof. by vm_compute. Qed.

Lemma insert_event_witness : ∃ w',
  insertDocument quiet "test.c" sample_doc false ([], fresh_world)
  = (Ok (Location 0%nat), ([Some sample_doc], w')) ∧
  event_sent quiet "test.c" "insert" sample_doc fresh_world w'.
Proof.
  destruct (insert_event quiet "test.c" sample_doc false [] fresh_world fresh_ready) as (w' & [H|(_ & _ & Hno & _)]);
    [by exists w'|]. destruct Hno. intros d [[= <-]|[=]]. by left.
Defined.

(** The comment in [publish] says that a write should not fail because
    publish/subscribe does not work.  On a shard whose config server takes no more
    events, an insert stores the document and never returns. *)
Definition stuck : SSystem := {|
  params := sample_params; zmq_fails _ := None; push_full _ := true; isSelf _ := false; others _ w := w
|}.

Definition sharded_world : SWorld :=
  set_dbEventSocket (Some (mkSocket ZMQ_PUSH true [] kDefaultHwm kDefaultHwm ["tcp://cfg:28253"] [] [] [] [] []))
    (set_flags true true fresh_world).

Lemma insert_hangs :
  (insertDocument stuck "test.c" sample_doc false ([], sharded_world)).1 = Throw (Blocks "send") ∧
  (insertDocument stuck "test.c" sample_doc false ([], sharded_world)).2.1 = [Some sample_doc].
Proof. by vm_compute. Qed.
