(* ===== verification/Sharding.v ===== *)
(** * Joining and leaving a cluster: s/d_state.cpp

    The part of a shard's state that tells which config servers the cluster has,
    how a command that comes in from a mongos sets it, and how a change of the
    replica set resets it.  [configServer.init],
    which looks up the servers, and the connection hooks are arguments. *)

From S2P Require Import Prelude Monad StdMap Bytes Oid Doubles Bson BsonBytes HostPort Zmq World SendSock Events Sample.

(** The flag and the config servers; the name of the shard and the metadata of its
    collections, which publish/subscribe does not use, are left out. *)
Record ShardingState := mkSharding { sharding_enabled : bool; configServer : string }.

Definition ShardingState_new : ShardingState := mkSharding false "".

(** [enable]: the flag is set before the checks. *)
Definition enable (server : string) : M ShardingState unit :=
  _ ← modify (λ st, mkSharding true (configServer st));
  _ ← lift (verify "server.size()" (negb (server =? "")%string));
  st ← getS;
  if (configServer st =? "")%string then modify (λ st, mkSharding (sharding_enabled st) server)
  else lift (verify "server == _configServer" (server =? configServer st)%string).

(** What a primary that steps down does ([ReplSetImpl::relinquish] in db/repl/rs.cpp).  The
    socket for events is not touched. *)
Definition resetShardingState : M ShardingState unit := modify (λ _, mkSharding false "").

Section sharding.
Context {Mt Pt : Type} (sys : System Mt Pt) (configServer_init : string → res bool).
Abbreviation SW := (ShardingState * World Mt Pt)%type.

(** The result of [configServer.init] is not looked at. *)
Definition initialize (server : string) : M SW unit :=
  _ ← on_store (enable server);
  _ ← lift (configServer_init server);
  on_world (initSharding sys server).

(** [checkConfigOrInit]: the answer, the error message and what is appended to the
    result. The call with the lock taken repeats the checks. *)
Definition checkConfigOrInit_with (init : M SW (bool * string * BSONObj)) (configdb : string) (authoritative : bool) :
    M SW (bool * string * BSONObj) :=
  if (configdb =? "")%string then mret (false, "no configdb", [])
  else
    st ← gets fst;
    if sharding_enabled st then
      if (configdb =? configServer st)%string then mret (true, "", [])
      else mret (false, "mongos specified a different config database string : stored : " +:+ configServer st
                   +:+ " vs given : " +:+ configdb,
                 [("configdb", VObject [("stored", VString (configServer st)); ("given", VString configdb)])])
    else if negb authoritative then mret (false, "first setShardVersion", [("need_authoritative", VBool true)])
    else init.

Definition checkConfigOrInit (configdb : string) (authoritative : bool) : M SW (bool * string * BSONObj) :=
  checkConfigOrInit_with
    (checkConfigOrInit_with (_ ← initialize configdb; mret (true, "", [])) configdb authoritative)
    configdb authoritative.

(** ** Where events go *)

(** The endpoint [initSharding] connects to. *)
Definition config_endpoint (configServers : string) : res string :=
  h ← maxConfig_loop (splitStringDelim configServers ",") (setPort HostAndPort_empty 0);
  p ← port_plus (port h) 1234;
  e ← HostAndPort_make (host h) p;
  Ok (tcp_endpoint e).

(** A socket for events that is connected to the config server of the list, or
    not at all. *)
Definition points_to (server : string) (d : socket_t) : Prop :=
  connected d = [] ∨ ∃ e, config_endpoint server = Ok e ∧ connected d = [e].

(** What can happen to them.  The list holds the config servers that resets took away. *)
Inductive shard_step : SW * list string → SW * list string → Prop :=
| step_initialize server x l : shard_step (x, l) ((initialize server x).2, l)
| step_check configdb authoritative x l : shard_step (x, l) ((checkConfigOrInit configdb authoritative x).2, l)
| step_reset x l : shard_step (x, l) ((on_store resetShardingState x).2, configServer x.1 :: l)
| step_publish channel message x l : shard_step (x, l) ((on_world (publish sys channel message) x).2, l)
| step_other st w w' l : dbEventSocket w' = dbEventSocket w → shard_step ((st, w), l) ((st, w'), l).

(** The socket for events is for the config servers, or for ones that were taken away. *)
Definition joined (xl : SW * list string) : Prop :=
  ∀ d, dbEventSocket xl.1.2 = Some d →
    ∃ server, (server = configServer xl.1.1 ∨ server ∈ xl.2) ∧ server ≠ "" ∧ points_to server d.

(** [initSharding] leaves the socket as it was or makes a new one. *)
Lemma initSharding_points server (w0 : World Mt Pt) :
  preserves (λ w : World Mt Pt, ∀ d, dbEventSocket w = Some d → dbEventSocket w0 = Some d ∨ points_to server d)
    (initSharding sys server).
Proof.
  intros w Hw. unfold initSharding. do 2 wp_step. destruct (negb (pubsubEnabled w)); [by wp_steps|].
  wp_step. apply wp_lift; [|by wp_steps]. intros h Hh.
  wp_step. apply wp_lift; [|by wp_steps]. intros p Hp.
  wp_step. apply wp_lift; [|by wp_steps]. intros e He. wp_step.
  assert (config_endpoint server = Ok (tcp_endpoint e)) as Hpull.
  { unfold config_endpoint. rewrite Hh. simpl. rewrite Hp. simpl. by rewrite He. }
  unfold zmq_socket. do 2 wp_step. apply wp_zcall; [|intros; by wp_steps]. do 3 wp_step.
  unfold db_event, on_ptr, on_socket. do 2 wp_step. cbn [dbEventSocket set_dbEventSocket]. do 2 wp_step.
  apply wp_zcall; [|intros what _; wp_steps; intros d [= <-]; right; by left].
  wp_steps. intros d [= <-]. right. right. by exists (tcp_endpoint e).
Qed.

(** With publish/subscribe on and ZeroMQ working it makes one. *)
Lemma initSharding_moves server w w' : pubsubEnabled w = true → (∀ n, zmq_fails sys n = None) →
  initSharding sys server w = (Ok (), w') →
  ∃ d e, dbEventSocket w' = Some d ∧ config_endpoint server = Ok e ∧ connected d = [e].
Proof.
  intros Hen Hz. unfold initSharding, config_endpoint. run. rewrite Hen. cbn [negb].
  destruct (maxConfig_loop _ _) as [h|]; [|done]. rewrite run_lift_Ok. cbn [mbind res_bind].
  destruct (port_plus _ _) as [p|]; [|done]. rewrite run_lift_Ok. cbn [mbind res_bind].
  destruct (HostAndPort_make _ _) as [e|]; [|done]. rewrite run_lift_Ok. cbn [mbind res_bind].
  unfold try_zmq, zmq_socket, db_event, on_ptr, on_socket, zcall, zmq_call, mbind, M_bind, modify, gets.
  rewrite !Hz. cbn. rewrite !Hz. cbn. intros [= <-]. eexists _, (tcp_endpoint e). by split.
Qed.

(** Publishing does not connect the socket for events. *)
Lemma publish_connected c channel message :
  preserves (λ w, connected <$> dbEventSocket w = c) (publish sys channel message).
Proof.
  assert (∀ f more, preserves (λ w, connected <$> dbEventSocket w = c) (db_frame sys f more)) as Hdb.
  { intros f more w Hw. unfold db_frame, send_ptr, on_ptr, on_socket. do 4 wp_step.
    destruct (dbEventSocket w) as [d|] eqn:Hd; [|by wp_steps; rewrite Hd]. do 2 wp_step.
    apply wp_zcall; [|intros; cbn; by rewrite Hd].
    unfold sock_send. destruct (negb (isopen d)); [apply wp_lift; [done|]; intros; cbn; by rewrite Hd|].
    destruct (sock_waits _ d); [apply wp_lift; [done|]; intros; cbn; by rewrite Hd|]. by wp_steps. }
  assert (∀ f more, preserves (λ w, connected <$> dbEventSocket w = c) (ext_frame sys f more)) as Hext.
  { intros f more w Hw. unfold ext_frame, send_ptr, on_ptr, on_socket. do 4 wp_step.
    destruct (extSendSocket w) as [s|]; [|by wp_steps]. do 2 wp_step. apply wp_zcall; [|by intros].
    apply wp_lift; intros; by wp_steps. }
  unfold publish. preserves_auto.
Qed.

Lemma preserves_run {S A} (P : S → Prop) (m : M S A) s : preserves P m → P s → P (m s).2.
Proof. intros Hm Hs. pose proof (Hm s Hs) as Hw. unfold wp in Hw. by destruct (m s) as [[]]. Qed.

(** [enable] answers normally only for the server that is set, or for the first one. *)
Lemma enable_run server en c :
  ∃ r, enable server (mkSharding en c) = (r, mkSharding true (if (c =? "")%string then server else c)) ∧
    (r = Ok () → server ≠ "" ∧ (c = "" ∨ c = server)).
Proof.
  unfold enable, mbind, M_bind, modify, lift, verify, getS. cbn [configServer sharding_enabled].
  destruct (String.eqb_spec server "") as [->|Hs]; cbn [negb].
  - eexists. split; [by destruct (String.eqb_spec c "") as [->|]|done].
  - cbn. destruct (String.eqb_spec c "") as [->|Hc]; [by eexists; split; [done|auto]|].
    destruct (String.eqb_spec server c); eexists; (split; [done|auto]). done.
Qed.

(** [initialize] keeps a server that is set, and the state and the socket together. *)
Lemma initialize_joined server x l : joined (x, l) →
  joined ((initialize server x).2, l) ∧
  (configServer x.1 ≠ "" → configServer (initialize server x).2.1 = configServer x.1).
Proof.
  destruct x as [[en c] w]. unfold joined, initialize, on_store, on_world, mbind, M_bind, lift. intros Hj.
  cbn [fst snd configServer] in *. destruct (enable_run server en c) as (r & -> & Hr).
  set (c' := if (c =? "")%string then server else c).
  assert (c ≠ "" → c' = c) as Hfix by (intros Hc; unfold c'; by rewrite (proj2 (String.eqb_neq _ _) Hc)).
  assert (∀ d, dbEventSocket w = Some d →
    ∃ server, (server = c' ∨ server ∈ l) ∧ server ≠ "" ∧ points_to server d) as Hold.
  { intros d Hd. destruct (Hj d Hd) as (sv & [->|Hin] & Hne & Hp); exists sv || exists c; naive_solver. }
  destruct r as [[]|e]; [|done]. destruct (Hr eq_refl) as [Hs Hcs].
  assert (c' = server) as Hcs' by (unfold c'; destruct (String.eqb_spec c ""); naive_solver).
  destruct (configServer_init server); [|done]. cbn [fst snd].
  pose proof (preserves_run _ _ w (initSharding_points server w) (λ d Hd, or_introl Hd)) as Hp'.
  destruct (initSharding sys server w) as [r w']. cbn [snd] in Hp'.
  assert (∀ d, dbEventSocket w' = Some d →
    ∃ server, (server = c' ∨ server ∈ l) ∧ server ≠ "" ∧ points_to server d) as Hnew.
  { intros d Hd. destruct (Hp' d Hd) as [?|?]; [auto|]. exists server. naive_solver. }
  by destruct r.
Qed.

Lemma check_joined configdb authoritative x l : joined (x, l) →
  joined ((checkConfigOrInit configdb authoritative x).2, l) ∧
  (configServer x.1 ≠ "" →
   configServer (checkConfigOrInit configdb authoritative x).2.1 = configServer x.1).
Proof.
  intros Hj. unfold checkConfigOrInit, checkConfigOrInit_with.
  destruct (configdb =? "")%string; [done|]. rewrite !run_gets.
  destruct (sharding_enabled x.1) eqn:Hen; [by destruct (configdb =? _)%string|].
  destruct authoritative; [|done]. cbn [negb]. rewrite !run_gets, Hen.
  destruct (initialize_joined configdb x l Hj) as [Hj' Hf']. unfold mbind, M_bind, mret, M_ret.
  by destruct (initialize configdb x) as [[]].
Qed.

(** Steps keep this, lengthen the list, and change the config servers only at a reset. *)
Lemma step_joined a b : shard_step a b → joined a →
  joined b ∧ (length a.2 ≤ length b.2)%nat ∧
  (length b.2 = length a.2 → configServer a.1.1 ≠ "" → configServer b.1.1 = configServer a.1.1).
Proof.
  intros Hs Hj. destruct Hs as [server x l|c a x l|x l|c m [st w] l|st w w' l Hw]; cbn [fst snd].
  - destruct (initialize_joined server x l Hj). naive_solver.
  - destruct (check_joined c a x l Hj). naive_solver.
  - split; [|simpl; split; [lia|intros; lia]]. intros d Hd. destruct x as [st w]. cbn in *.
    destruct (Hj d Hd) as (sv & Hin & Hne & Hp). exists sv. cbn in Hin. set_solver.
  - unfold on_world. cbn [fst snd].
    pose proof (preserves_run _ _ _ (publish_connected _ c m) (eq_refl (connected <$> dbEventSocket w))) as Hp.
    destruct (publish sys c m w) as [r w']. cbn [fst snd] in *. split; [|done].
    intros d' Hd'. cbn [fst snd] in Hd'. rewrite Hd' in Hp. destruct (dbEventSocket w) as [d|] eqn:Hd; [|done].
    injection Hp as Hp. destruct (Hj d Hd) as (sv & Hin & Hne & Hpt). exists sv. split; [done|]. split; [done|].
    unfold points_to. by rewrite Hp.
  - split; [|done]. intros d Hd. cbn [fst snd] in Hd. rewrite Hw in Hd. by apply Hj.
Qed.

Lemma steps_joined a b : rtc shard_step a b → joined a →
  joined b ∧ (length a.2 ≤ length b.2)%nat ∧
  (length b.2 = length a.2 → configServer a.1.1 ≠ "" → configServer b.1.1 = configServer a.1.1).
Proof.
  induction 1 as [|a b c Hs _ IH]; [done|]. intros Hj. destruct (step_joined _ _ Hs Hj) as (Hj' & Hl & Hf).
  destruct (IH Hj') as (Hj2 & Hl2 & Hf2). split; [done|]. split; [lia|]. intros He Hc.
  rewrite Hf2, Hf by (lia || (rewrite ?Hf by (lia || done); done)). done.
Qed.

(** C36: Whatever commands of the cluster, resets, publications and other things happen
    to a shard from its start: the socket for its events is connected to the process
    that the shard's list of config servers determines, or that a list determines which
    a reset took away, or not at all; between resets the list is never replaced; and
    joining a cluster, when it succeeds and ZeroMQ works, leaves the socket connected to
    the process that the new list determines. *)
Theorem events_to_own_config w x l :
  dbEventSocket w = None → rtc shard_step ((ShardingState_new, w), []) (x, l) →
  (∀ d, dbEventSocket x.2 = Some d →
     ∃ server, (server = configServer x.1 ∨ server ∈ l) ∧ server ≠ "" ∧ points_to server d) ∧
  (∀ y, rtc shard_step (x, l) (y, l) → configServer x.1 ≠ "" → configServer y.1 = configServer x.1) ∧
  (∀ server y, initialize server x = (Ok (), y) → pubsubEnabled x.2 = true → (∀ n, zmq_fails sys n = None) →
     configServer y.1 = server ∧
     ∃ d e, dbEventSocket y.2 = Some d ∧ config_endpoint server = Ok e ∧ connected d = [e]).
Proof.
  intros Hw Hx. destruct (steps_joined _ _ Hx) as (Hj & _); [intros d Hd; cbn in Hd; congruence|].
  split; [exact Hj|]. split.
  - intros y Hy. destruct (steps_joined _ _ Hy Hj) as (_ & _ & Hf). by apply Hf.
  - intros server y Hrun Hen Hz. destruct x as [[en c] v]. revert Hrun.
    unfold initialize, on_store, on_world, mbind, M_bind, lift. cbn [fst snd].
    destruct (enable_run server en c) as (r & -> & Hr). destruct r as [[]|]; [|done]. destruct (Hr eq_refl) as [_ Hc].
    destruct (configServer_init server); [|done]. cbn [fst snd].
    destruct (initSharding sys server v) as [r v'] eqn:Hi. intros [= -> <-]. cbn [fst snd configServer].
    split; [destruct (String.eqb_spec c ""); naive_solver|]. by apply (initSharding_moves server v).
Qed.
End sharding.

(** ** A shard that joins, steps down and joins again *)

Definition join (servers : string) (x : ShardingState * SWorld) : ShardingState * SWorld :=
  (checkConfigOrInit quiet (λ _, Ok true) servers true x).2.

Definition rejoined : ShardingState * SWorld :=
  join "new:27019" (on_store resetShardingState (join "cfg1:27019,cfg2:27020" (ShardingState_new, fresh_world))).2.

Lemma events_to_own_config_witness :
  ∃ d server, dbEventSocket rejoined.2 = Some d ∧ connected d = ["tcp://new:28253"] ∧
    (server = configServer rejoined.1 ∨ server ∈ ["cfg1:27019,cfg2:27020"]) ∧ server ≠ "" ∧ points_to server d.
Proof.
  edestruct (events_to_own_config quiet (λ _, Ok true) fresh_world rejoined ["cfg1:27019,cfg2:27020"]) as (H & _ & _).
  - reflexivity.
  - eapply rtc_l; [apply (step_check quiet (λ _, Ok true) "cfg1:27019,cfg2:27020" true)|].
    eapply rtc_l; [apply step_reset|]. apply rtc_once. apply (step_check quiet (λ _, Ok true) "new:27019" true).
  - edestruct (H _ eq_refl) as (server & Hs & Hne & Hp). eexists _, server. split; [reflexivity|]. done.
Defined.

(** A comment in pubsub_sendsock.cpp says that the socket for events is there if and only if
    the process is in a sharded environment, and one in rs.cpp that a primary that steps down
    is stripped of all sharding details.  It keeps the socket. *)
Lemma reset_keeps_socket (x : ShardingState * SWorld) :
  sharding_enabled (on_store resetShardingState x).2.1 = false ∧
  dbEventSocket (on_store resetShardingState x).2.2 = dbEventSocket x.2.
Proof. done. Qed.
