(* ===== verification/CodecSpec.v ===== *)
(** * Encodings

    Round trips and orders of the values that cross process boundaries: BSON
    documents, object identifiers, addresses, lists in strings, numbers. *)

From S2P Require Import Prelude Monad StdMap Bytes Oid Doubles Bson BsonBytes HostPort ParseNumber Zmq.
From S2P Require Import World PubSub PQueue PubSubInv Sample.

(** C32: Reading the bytes a builder wrote gives the document back, whatever
    follows it in the buffer, and two documents with the same bytes are the same:
    a published document arrives as it was sent. *)
Theorem bson_bytes_roundtrip o o' rest : obj_wf o → obj_wf o' →
  BSONObj_of_bytes (objdata o +:+ rest) = Ok o ∧ (objdata o = objdata o' → o = o').
Proof. intros Ho Ho'. split; [by apply BSONObj_roundtrip_app|by apply objdata_inj]. Qed.

(** The identifiers one process generates are pairwise distinct, up to 2^24
    of them, however the clock behaves. *)
Lemma oids_distinct m inc times : machine_wf m →
  Z.of_nat (length times) ≤ 2 ^ 24 → NoDup (OID_gen_run m inc times).
Proof. apply OID_gen_run_NoDup. Qed.

(** An identifier is read back from its hexadecimal form, the key under which
    poll reports its messages, and different identifiers have different keys. *)
Lemma oid_string_roundtrip o o' :
  OID_init_string (OID_toString o) = Ok o ∧ (OID_toString o = OID_toString o' → o = o').
Proof. split; [apply OID_string_roundtrip|apply OID_toString_inj]. Qed.

(** The smallest and the greatest identifier of a date bracket every
    identifier generated in its second. *)
Lemma oid_date_brackets m date inc : machine_wf m → 0 ≤ date →
  let o := fst (OID_init (date / 1000) m inc) in
  OID_compare (OID_init_date date false) o ≤ 0 ∧ OID_compare o (OID_init_date date true) ≤ 0.
Proof. apply OID_init_date_bounds. Qed.

(** An address with a port is parsed back from its text as an equal address. *)
Lemma address_roundtrip h : 0 < port h < 2 ^ 31 →
  ∃ h', HostAndPort_init (hp_toString h true) = Ok h' ∧ HostAndPort_eqb h' h = true.
Proof. apply HostAndPort_roundtrip. Qed.

(** Joining the pieces of a split string gives the string back. *)
Lemma split_join s delim : joinStringDelim (splitStringDelim s delim) delim = s.
Proof. apply join_split. Qed.

(** What a numeral denotes: sign, prefix and digits. *)
Definition denotes (s : string) (base v : Z) : Prop :=
  ∃ u, (extractBase (extractSign s).2 base).2 ≠ "" ∧
    digits_value (extractBase (extractSign s).2 base).1 0 (extractBase (extractSign s).2 base).2 = Some u ∧
    v = if (extractSign s).1 then - u else u.

Lemma extractBase_ge2 s base : 0 ≤ base → base ≠ 1 → 2 ≤ (extractBase s base).1.
Proof. intros ??. unfold extractBase. repeat case_match; simpl; lia. Qed.

Lemma digits_value_nonneg base acc s v : 2 ≤ base → 0 ≤ acc →
  digits_value base acc s = Some v → 0 ≤ v.
Proof.
  intros Hb. revert acc. induction s as [|c s IH]; intros acc Ha; cbn [digits_value]; [by intros [= <-]|].
  case_match; [done|]. apply IH. pose proof (digitValue_nonneg c). nia.
Qed.

(** Parsing a number accepts exactly the numerals whose value fits the type,
    and gives that value: no accepted numeral overflows, and none that fits is
    rejected.  (A type without negative values accepts no minus sign.) *)
Lemma parse_number_exact lo hi s base v :
  lo ≤ 0 ≤ hi → 0 ≤ base ≤ 36 → base ≠ 1 →
  parseNumberFromStringWithBase lo hi s base = inr v ↔
  denotes s base v ∧ lo ≤ v ≤ hi ∧ ((extractSign s).1 = true → lo < 0).
Proof.
  intros Hlim Hb Hb1. unfold parseNumberFromStringWithBase, denotes.
  rewrite (proj2 (Z.eqb_neq base 1)), (proj2 (Z.ltb_ge base 0)), (proj2 (Z.ltb_ge 36 base)) by lia. simpl.
  destruct (extractSign s) as [neg t]. pose proof (extractBase_ge2 t base ltac:(lia) Hb1) as Hge.
  cbn [fst snd]. destruct (extractBase t base) as [b d]. simpl in *.
  destruct (String.eqb_spec d "") as [->|Hd].
  { split; [done|]. intros [(u & Hne & _) _]. by destruct Hne. }
  destruct neg; [destruct (lo <? 0) eqn:Hlo|].
  - rewrite parse_neg_spec by lia. simpl. split.
    + intros (u & Hu & -> & Hle). pose proof (digits_value_nonneg b 0 d u Hge ltac:(lia) Hu).
      split_and!; [by exists u|lia|lia|lia].
    + intros [(u & _ & Hu & ->) [[Hle _] _]]. by exists u.
  - split; [done|]. intros (_ & _ & Hneg). specialize (Hneg eq_refl). lia.
  - rewrite parse_pos_spec by lia. split.
    + intros [Hu Hle]. pose proof (digits_value_nonneg b 0 d v Hge ltac:(lia) Hu).
      split_and!; [by exists v|lia|lia|done].
    + intros [(u & _ & Hu & ->) [[_ Hle] _]]. done.
Qed.

(** ** Instances *)

Lemma bson_bytes_roundtrip_witness :
  let o := [("x", VInt 1); ("y", VObject [("z", VString "text")])] in
  BSONObj_of_bytes (objdata o +:+ "rest") = Ok o ∧ (objdata o = objdata [] → o = []).
Proof.
  apply (bson_bytes_roundtrip [("x", VInt 1); ("y", VObject [("z", VString "text")])] [] "rest"); solve_wf.
Defined.

Lemma oids_distinct_witness : NoDup (OID_gen_run sample_machine 5 [10; 10; 9]).
Proof. apply oids_distinct; [done|done]. Defined.

Lemma oid_date_brackets_witness :
  let o := fst (OID_init (5000 / 1000) sample_machine 7) in
  OID_compare (OID_init_date 5000 false) o ≤ 0 ∧ OID_compare o (OID_init_date 5000 true) ≤ 0.
Proof. apply oid_date_brackets; [done|done]. Defined.

Lemma address_roundtrip_witness :
  ∃ h', HostAndPort_init (hp_toString (mkHostAndPort "db1" 27017) true) = Ok h' ∧
    HostAndPort_eqb h' (mkHostAndPort "db1" 27017) = true.
Proof. by apply address_roundtrip. Defined.

Lemma parse_number_exact_witness :
  parseNumberFromStringWithBase (- 2 ^ 31) (2 ^ 31 - 1) "-0x1f" 0 = inr (-31) ↔
  denotes "-0x1f" 0 (-31) ∧ - 2 ^ 31 ≤ -31 ≤ 2 ^ 31 - 1 ∧ ((extractSign "-0x1f").1 = true → - 2 ^ 31 < 0).
Proof. apply parse_number_exact; lia. Defined.
