(* ===== verification/SendSpec.v ===== *)
(** * What publishing and the membership code promise

    Properties of db/pubsub_sendsock.cpp: a publication leaves as one message of
    three frames, the config server with the greatest port is used, and the
    replica set members are connected once and kept while they report. *)

From S2P Require Import Prelude Monad StdMap Bytes Oid Doubles Bson BsonBytes HostPort Zmq World.
From S2P Require Import SendSock PubSub PQueue PubSubInv Sample.

Section spec.
Context {Mt Pt : Type} (sys : System Mt Pt).
Abbreviation W := (World Mt Pt).
Implicit Types (w : W).

(** ** Publishing *)

(** C31: Publishing throws nothing while publish/subscribe is enabled.  When it
    returns true the three frames of the publication left on the external socket
    as one message, and for a database event of a shard also on the socket of
    the config server; it returns false only when one of the ZeroMQ calls it made
    failed.  It does not return only when one of the sockets it sends on is a PUSH
    socket that has no peer with room at a call it makes.  Nothing else of the
    process changes. *)
Theorem publish_sends c m w s :
  pubsubEnabled w = true → extSendSocket w = Some s → idle s →
  (∀ d, dbEventSocket w = Some d → idle d) →
  wp (publish sys c m)
    (λ b w', same_but_sockets w w' ∧
       if b : bool then published sys (mkPub c m (clockMicros w)) w w' else call_failed sys w w')
    (λ e w', e = Blocks "send" ∧ same_but_sockets w w' ∧ ∃ d, goes_to sys w c d ∧ call_waits sys d w w') w.
Proof. apply wp_publish. Qed.

(** One frame on the external socket. *)
Definition framed (f : string) (more : bool) (s : socket_t) : socket_t :=
  with_out s (if more then sending s ++ [f] else [])
    (if more then outbox s else outbox s ++ [sending s ++ [f]]).

Lemma ext_send_run f more w s :
  extSendSocket w = Some s → isopen s = true → stype s = ZMQ_PUB → zmq_fails sys (zmqCalls w) = None →
  ext_frame sys f more w
  = (Ok (), set_extSendSocket (Some (framed f more s)) (set_zmqCalls (zmqCalls w + 1) w)).
Proof.
  intros Hs Ho Ht Hf. unfold ext_frame, send_ptr, on_ptr. run. rewrite Hs.
  unfold on_socket, zcall, zmq_call, mbind, M_bind. rewrite Hf. unfold sock_send, sock_waits, framed, with_out.
  by rewrite Ho, Ht.
Qed.

Lemma ext_send_fails f more w s what :
  extSendSocket w = Some s → zmq_fails sys (zmqCalls w) = Some what →
  ext_frame sys f more w = (Throw (ZmqError what), set_zmqCalls (zmqCalls w + 1) w).
Proof.
  intros Hs Hf. unfold ext_frame, send_ptr, on_ptr. run. rewrite Hs.
  unfold on_socket, zcall, zmq_call, mbind, M_bind. by rewrite Hf.
Qed.

Lemma publish_ext c m w : pubsubEnabled w = true → to_config sys w c = false →
  publish sys c m w
  = try_zmq (_ ← ext_frame sys (appendStr c) true;
             _ ← ext_frame sys (objdata m) true;
             _ ← ext_frame sys (le_bytes 8 (clockMicros w)) false;
             mret true) (λ _, mret false) w.
Proof.
  intros Hen Hc. unfold publish.
  run. rewrite Hen. run. unfold try_zmq. run.
  fold (to_config sys w c). by rewrite Hc.
Qed.

(** A publication that fails after some of its frames leaves them in the
    socket: the next publication, which reports success, is sent as one message
    that starts with the frames of the failed one. *)
Lemma publish_after_failure c m c' m' w w1 s what :
  pubsubEnabled w = true → to_config sys w c = false → to_config sys w c' = false →
  extSendSocket w = Some s → idle s → stype s = ZMQ_PUB →
  zmq_fails sys (zmqCalls w) = None → zmq_fails sys (zmqCalls w + 1) = Some what →
  (∀ n, (zmqCalls w + 1 < n)%nat → zmq_fails sys n = None) →
  publish sys c m w = (Ok false, w1) →
  ∃ w2 s2, publish sys c' m' w1 = (Ok true, w2) ∧ extSendSocket w2 = Some s2 ∧
    outbox s2 = outbox s ++ [appendStr c :: pub_frames (mkPub c' m' (clockMicros w))].
Proof.
  intros Hen Hc Hc' Hs [Ho Hse] Ht H0 H1 Hok. rewrite publish_ext by done. unfold try_zmq.
  rewrite (bind_Ok _ _ _ _ _ (ext_send_run _ true _ _ Hs Ho Ht H0)).
  erewrite bind_Throw by by eapply ext_send_fails. intros [= <-].
  set (w1 := set_zmqCalls _ _).
  assert (to_config sys w1 c' = false) as Hc1 by exact Hc'.
  rewrite (publish_ext c' m' w1 Hen Hc1). unfold try_zmq.
  erewrite (bind_Ok (ext_frame sys _ _)); [|apply ext_send_run; [done|done|done|apply Hok; simpl; lia]].
  erewrite (bind_Ok (ext_frame sys _ _)); [|apply ext_send_run; [done|done|done|apply Hok; simpl; lia]].
  erewrite (bind_Ok (ext_frame sys _ _)); [|apply ext_send_run; [done|done|done|apply Hok; simpl; lia]].
  eexists _, _. split_and!; [done|done|]. simpl. by rewrite Hse.
Qed.

(** ** Config servers *)

Lemma maxConfig_loop_spec dbs hs h0 :
  Forall2 (λ d h, HostAndPort_of_string d = Ok h) dbs hs →
  ∃ h, maxConfig_loop dbs h0 = Ok h ∧ (h = h0 ∨ h ∈ hs ∧ port h0 < port h) ∧ port h0 ≤ port h ∧
    ∀ h', h' ∈ hs → port h' ≤ port h.
Proof.
  intros Hp. revert h0. induction Hp as [|d h' dbs hs Hd _ IH]; intros h0.
  { exists h0. split_and!; [done|by left|lia|by intros ? ?%elem_of_nil]. }
  cbn [maxConfig_loop]. rewrite Hd. cbn [mbind res_bind].
  destruct (IH (if port h0 <? port h' then h' else h0)) as (h & Hr & Hin & Hle & Hmax).
  exists h. destruct (port h0 <? port h') eqn:Hlt; split_and!; try done; try lia.
  - right. destruct Hin as [->|[? ?]]; (split; [set_solver|lia]).
  - intros x [->|Hx]%elem_of_cons; [lia|auto].
  - destruct Hin as [->|[? ?]]; [by left|right]. split; [set_solver|lia].
  - intros x [->|Hx]%elem_of_cons; [lia|auto].
Qed.

(** When the cluster's config servers are given as a list of addresses,
    [initSharding] opens a push socket to exactly one of them, one with the
    greatest port, at that port plus 1234; if ZeroMQ fails it only turns
    database events off. *)
Lemma initSharding_connects dbs hs configServers w :
  pubsubEnabled w = true → splitStringDelim configServers "," = dbs →
  Forall2 (λ d h, HostAndPort_of_string d = Ok h) dbs hs →
  (∃ h, h ∈ hs ∧ 0 < port h) →
  (∀ h, h ∈ hs → port h + 1234 < 2 ^ 31 ∧ StringData_startsWith (host h) "#" = false) →
  wp (initSharding sys configServers)
    (λ _ w', ∃ h, h ∈ hs ∧ (∀ h', h' ∈ hs → port h' ≤ port h) ∧
       (option_map connected (dbEventSocket w') = Some ["tcp://" +:+ hp_toString
            (mkHostAndPort (host h) (port h + 1234)) true]
          ∧ publishDataEvents w' = publishDataEvents w
        ∨ publishDataEvents w' = false ∧ ∃ n what, zmq_fails sys n = Some what))
    (λ _ _, False) w.
Proof.
  intros Hen Hsp Hp (h1 & Hin1 & Hpos) Hmk. unfold initSharding. do 2 wp_step. rewrite Hen. simpl negb.
  cbv iota. destruct (maxConfig_loop_spec dbs hs (setPort HostAndPort_empty 0) Hp)
    as (h & Hr & Hin & _ & Hmax). rewrite Hsp, Hr. do 2 wp_step.
  assert (h ∈ hs) as Hh.
  { destruct Hin as [->|[? _]]; [|done]. specialize (Hmax h1 Hin1).
    unfold port in Hmax at 2. simpl in Hmax. lia. }
  destruct (Hmk h Hh) as [Hport Hhash]. unfold port_plus. rewrite (proj2 (Z.ltb_lt _ _) Hport).
  do 2 wp_step. unfold HostAndPort_make. rewrite Hhash. do 3 wp_step.
  assert (∀ w' what, (∃ n, zmq_fails sys n = Some what) →
    wp (w0 ← getS; modify (set_flags (pubsubEnabled w0) false))
      (λ _ w', ∃ h, h ∈ hs ∧ (∀ h', h' ∈ hs → port h' ≤ port h) ∧
       (option_map connected (dbEventSocket w') = Some ["tcp://" +:+ hp_toString
            (mkHostAndPort (host h) (port h + 1234)) true]
          ∧ publishDataEvents w' = publishDataEvents w
        ∨ publishDataEvents w' = false ∧ ∃ n what, zmq_fails sys n = Some what))
      (λ _ _, False) w') as Hfail.
  { intros w' what [n Hn]. wp_steps. exists h. split_and!; [done|done|right; eauto]. }
  unfold zmq_socket. do 2 wp_step. apply wp_zcall; [|eauto]. do 3 wp_step.
  unfold db_event, on_ptr, on_socket. do 2 wp_step. cbn [dbEventSocket set_dbEventSocket]. do 2 wp_step.
  apply wp_zcall; [|eauto]. wp_steps. exists h. split_and!; [done|done|by left].
Qed.

(** ** Replica set members *)

(** The process can reach its members: the socket is open, the table is a map. *)
Definition members_ok w : Prop :=
  pubsubEnabled w = true ∧ map_sorted (rsMembers w) ∧
  ∃ s, extSendSocket w = Some s ∧ isopen s = true.

Definition valid_port (p : Z) : Prop := p + 1234 < 2 ^ 31.

Lemma wp_connect e (Qp : unit → W → Prop) (E : exn → W → Prop) w s :
  extSendSocket w = Some s → isopen s = true →
  (∀ n s', isopen s' = true → connected s' = connected s ++ [e] →
     Qp () (set_extSendSocket (Some s') (set_zmqCalls n w))) →
  (∀ n, Qp () (set_zmqCalls n w)) →
  wp (try_zmq (ext_send sys (sock_connect e)) (λ _, mret ())) Qp E w.
Proof.
  intros Hs Ho HQ HF. wp_step. unfold ext_send, on_ptr, on_socket. do 2 wp_step. rewrite Hs. do 2 wp_step.
  apply wp_zcall; [|intros what _; apply wp_ret, HF].
  unfold sock_connect. rewrite Ho. simpl negb. cbv iota. wp_steps. by apply HQ.
Qed.

(** Another member's report is recorded; nobody else's changes. *)
Lemma wp_updateReplSetMember hp (Qp : unit → W → Prop) (E : exn → W → Prop) w :
  members_ok w → isSelf sys hp = false → valid_port (port hp) →
  (∀ w', members_ok w' → map_find (hp_key hp) (rsMembers w') = Some true →
     (∀ k, k ≠ hp_key hp → map_find k (rsMembers w') = map_find k (rsMembers w)) → Qp () w') →
  wp (updateReplSetMember sys hp) Qp E w.
Proof.
  intros (Hen & Hsort & s & Hs & Ho) Hself Hp HQ. unfold updateReplSetMember. do 2 wp_step. rewrite Hen.
  simpl negb. cbv iota. do 2 wp_step. rewrite Hself.
  destruct (map_find (hp_key hp) (rsMembers w)) as [b|] eqn:Hf.
  - rewrite bool_decide_false by done. simpl andb. cbv iota. wp_step. apply HQ.
    + split_and!; [done|by apply map_modify_sorted|by exists s].
    + simpl. by rewrite map_find_modify_eq, Hf.
    + intros k Hk. simpl. by rewrite map_find_modify_ne.
  - rewrite bool_decide_true by done. simpl andb. cbv iota.
    unfold member_endpoint, port_plus. cbn [hp_key snd]. rewrite (proj2 (Z.ltb_lt _ _) Hp).
    do 3 wp_step.
    eapply wp_connect; [done|done| |].
    + intros n s' Ho' _. wp_steps. apply HQ; simpl.
      * split_and!; [done|by apply map_insert_sorted|by exists s'].
      * by apply map_find_insert_None.
      * intros k Hk. by rewrite map_find_insert_ne.
    + intros n. wp_steps. apply HQ; simpl.
      * split_and!; [done|by apply map_insert_sorted|by exists s].
      * by apply map_find_insert_None.
      * intros k Hk. by rewrite map_find_insert_ne.
Qed.

Lemma prune_loop_live entries w : map_sorted (rsMembers w) →
  (∀ k b, (k, b) ∈ entries → b = true) → NoDup entries.*1 → entries.*1 ⊆ (rsMembers w).*1 →
  ∃ w', prune_loop sys entries w = (Ok (), w') ∧ map_sorted (rsMembers w') ∧
    (rsMembers w').*1 = (rsMembers w).*1 ∧
    (∀ k, map_find k (rsMembers w')
          = if decide (k ∈ entries.*1) then Some false else map_find k (rsMembers w)).
Proof.
  revert w. induction entries as [|[k b] entries IH]; intros w Hs Hall Hnd Hsub.
  { exists w. split_and!; done. }
  cbn [prune_loop]. rewrite (Hall k b) by set_solver. simpl negb. cbv iota.
  set (w1 := set_rsMembers (map_modify k (λ _, false) (rsMembers w)) w).
  change (∃ w', prune_loop sys entries w1 = (Ok (), w') ∧ map_sorted (rsMembers w') ∧
    (rsMembers w').*1 = (rsMembers w).*1 ∧
    (∀ k', map_find k' (rsMembers w')
          = if decide (k' ∈ ((k, b) :: entries).*1) then Some false else map_find k' (rsMembers w))).
  assert ((rsMembers w1).*1 = (rsMembers w).*1) as Hk1 by apply map_modify_keys.
  assert (map_sorted (rsMembers w1)) as Hs1 by by apply map_modify_sorted.
  apply NoDup_cons in Hnd as [Hk Hnd].
  destruct (IH w1 Hs1) as (w' & Hr & Hs' & Hkeys & Hfind).
  { intros k' b' Hin. apply (Hall k' b'). by right. }
  { done. }
  { rewrite Hk1. set_solver. }
  exists w'. split_and!; [done|done|by rewrite Hkeys|]. intros k'. rewrite Hfind. cbn [fmap list_fmap fst].
  destruct (decide (k' = k)) as [->|Hne].
  - rewrite decide_False by done. rewrite decide_True by set_solver. simpl. rewrite map_find_modify_eq.
    assert (is_Some (map_find k (rsMembers w))) as [x ->]; [|done].
    assert (k ∈ (rsMembers w).*1) as Hin by set_solver.
    apply list_elem_of_fmap in Hin as ([k0 v] & -> & Hin). exists v. by apply map_find_elem.
  - simpl. rewrite map_find_modify_ne by done.
    destruct (decide (k' ∈ entries.*1)); [rewrite decide_True by set_solver|rewrite decide_False by set_solver]; done.
Qed.

Lemma wp_updates hps (E : exn → W → Prop) w :
  members_ok w → Forall (λ hp, isSelf sys hp = false ∧ valid_port (port hp)) hps →
  wp (forM_ hps (updateReplSetMember sys))
    (λ _ w', members_ok w' ∧ (∀ k, k ∈ hp_key <$> hps → map_find k (rsMembers w') = Some true) ∧
       (∀ k, k ∉ hp_key <$> hps → map_find k (rsMembers w') = map_find k (rsMembers w))) E w.
Proof.
  intros Hok Hhps. revert w Hok. induction Hhps as [|hp hps [Hself Hp] _ IH]; intros w Hok; cbn [forM_].
  { apply wp_ret. split_and!; [done|by intros k ?%elem_of_nil|done]. }
  wp_step. apply wp_updateReplSetMember; [done|done|done|]. intros w1 Hok1 Hk1 Hoth1.
  eapply wp_mono; [| |by apply IH]; [|done]. intros [] w2 (Hok2 & Hrep2 & Hoth2).
  split_and!; [done| |].
  - intros k [->|Hk]%elem_of_cons; [|auto].
    destruct (decide (hp_key hp ∈ hp_key <$> hps)); [auto|]. by rewrite Hoth2.
  - intros k [Hne Hk]%not_elem_of_cons. rewrite Hoth2 by done. by apply Hoth1.
Qed.

(** When a configuration is loaded that has every member of the table, possibly
    new ones, and not this process itself, the pruning that follows removes nobody:
    afterwards the table holds exactly the members of the configuration, each to be
    reported again before the next pruning. *)
Theorem heartbeat_round hps w :
  members_ok w → Forall (λ hp, isSelf sys hp = false ∧ valid_port (port hp)) hps →
  (rsMembers w).*1 ⊆ hp_key <$> hps →
  wp (initFromConfig_members sys hps)
    (λ _ w', ∀ k, map_find k (rsMembers w') = if decide (k ∈ hp_key <$> hps) then Some false else None)
    (λ _ _, False) w.
Proof.
  intros Hok Hhps Hsub. unfold initFromConfig_members. wp_step.
  eapply wp_mono; [| |apply (wp_updates hps (λ _ _, False) w Hok Hhps)]; [|done].
  intros [] w' (Hok' & Hrep & Hoth). cbv beta. destruct Hok' as (Hen & Hs & _).
  unfold pruneReplSetMembers. do 2 wp_step. rewrite Hen. simpl negb. cbv iota. do 2 wp_step.
  destruct (prune_loop_live (rsMembers w') w' Hs) as (w2 & Hr & _ & _ & Hfind).
  { intros k b Hin. apply map_find_elem in Hin; [|done].
    destruct (decide (k ∈ hp_key <$> hps)) as [Hk|Hk]; [rewrite Hrep in Hin by done; congruence|].
    rewrite Hoth in Hin by done. apply map_find_elem in Hin; [|apply Hok].
    destruct Hk. apply Hsub, list_elem_of_fmap. by exists (k, b). }
  { by apply map_sorted_NoDup. }
  { done. }
  unfold wp. rewrite Hr. intros k. rewrite Hfind.
  destruct (decide (k ∈ hp_key <$> hps)) as [Hk|Hk].
  - rewrite decide_True; [done|]. apply list_elem_of_fmap. exists (k, true). split; [done|].
    apply map_find_elem; [done|]. by apply Hrep.
  - rewrite Hoth by done. assert (map_find k (rsMembers w) = None) as Hn.
    { destruct (map_find k (rsMembers w)) as [b|] eqn:Hf; [|done]. destruct Hk. apply Hsub.
      apply map_find_elem in Hf; [|apply Hok]. apply list_elem_of_fmap. by exists (k, b). }
    rewrite decide_False; [done|]. intros ([k' b] & -> & Hin)%list_elem_of_fmap.
    apply map_find_elem in Hin; [|done]. rewrite Hoth in Hin by done. simpl in *. congruence.
Qed.

Lemma wp_disconnect e (Qp : unit → W → Prop) (E : exn → W → Prop) w s :
  extSendSocket w = Some s → isopen s = true →
  (∀ w', Qp () w') → wp (try_zmq (ext_send sys (sock_disconnect e)) (λ _, mret ())) Qp E w.
Proof.
  intros Hs Ho HQ. wp_step. unfold ext_send, on_ptr, on_socket. do 2 wp_step. rewrite Hs. do 2 wp_step.
  apply wp_zcall; [|intros what _; by apply wp_ret].
  unfold sock_disconnect. rewrite Ho. simpl negb. cbv iota.
  destruct (decide _); [wp_steps; apply HQ|]. apply wp_lift; [done|]. intros e' [= <-]. by apply wp_ret.
Qed.

Lemma prune_loop_dead entries w : members_ok w →
  Forall (λ e : (string * Z) * bool, valid_port e.1.2) entries → (∃ k, (k, false) ∈ entries) →
  wp (prune_loop sys entries) (λ _ _, False)
    (λ e _, e = UndefinedBehaviour "increment of an erased iterator") w.
Proof.
  intros Hok Hp. revert w Hok. induction Hp as [|[k b] entries Hk _ IH]; intros w Hok [k' Hin].
  { by apply elem_of_nil in Hin. }
  cbn [prune_loop]. destruct b; simpl negb; cbv iota.
  - do 2 wp_step. apply IH.
    + destruct Hok as (? & ? & s & ? & ?). split_and!; [done|by apply map_modify_sorted|by exists s].
    + exists k'. by apply elem_of_cons in Hin as [[=]|].
  - unfold member_endpoint, port_plus. cbn [fst snd] in *. rewrite (proj2 (Z.ltb_lt _ _) Hk).
    destruct Hok as (_ & _ & s & Hs & Ho). do 3 wp_step.
    eapply wp_disconnect; [done|done|]. intros w'. by wp_steps.
Qed.

(** Pruning is undefined behaviour as soon as one member of the table did not
    report: after erasing it the loop increments the iterator that the erasure
    invalidated. *)
Lemma prune_undefined w : members_ok w →
  Forall (λ e : (string * Z) * bool, valid_port e.1.2) (rsMembers w) →
  (∃ k, map_find k (rsMembers w) = Some false) →
  (pruneReplSetMembers sys w).1 = Throw (UndefinedBehaviour "increment of an erased iterator").
Proof.
  intros Hok Hp [k Hk]. pose proof Hok as (Hen & Hs & _).
  assert (wp (pruneReplSetMembers sys) (λ _ _, False)
    (λ e _, e = UndefinedBehaviour "increment of an erased iterator") w) as Hwp.
  { unfold pruneReplSetMembers. do 2 wp_step. rewrite Hen. simpl negb. cbv iota. do 2 wp_step.
    apply prune_loop_dead; [done|done|]. exists k. by apply map_find_elem. }
  unfold wp in Hwp. destruct (pruneReplSetMembers sys w) as [[]]; [done|]. by subst.
Qed.

(** The process's own address, which is never put in the table, dereferences the
    end iterator. *)
Lemma update_self_undefined hp w :
  pubsubEnabled w = true → isSelf sys hp = true → map_find (hp_key hp) (rsMembers w) = None →
  updateReplSetMember sys hp w = (Throw (UndefinedBehaviour "dereference of end()"), w).
Proof.
  intros Hen Hself Hf. unfold updateReplSetMember, mbind, M_bind, gets. rewrite Hen. simpl. by rewrite Hf, Hself.
Qed.

(** Loading a configuration that this process is a member of, as it normally
    is, is undefined behaviour: the loop over the members hands the process its own
    address, which is not in the table, and the end iterator is written to. *)
Lemma config_undefined before self after w :
  members_ok w → Forall (λ hp, isSelf sys hp = false ∧ valid_port (port hp)) before →
  isSelf sys self = true → hp_key self ∉ hp_key <$> before → map_find (hp_key self) (rsMembers w) = None →
  (initFromConfig_members sys (before ++ self :: after) w).1
  = Throw (UndefinedBehaviour "dereference of end()").
Proof.
  intros Hok Hb Hself Hn Hf. unfold initFromConfig_members.
  pose proof (wp_updates before (λ _ _, False) w Hok Hb) as Hwp. unfold wp in Hwp.
  destruct (forM_ before _ w) as [[[]|e] w'] eqn:Hrun; [|done]. destruct Hwp as (Hok' & _ & Hoth).
  assert (forM_ (self :: after) (updateReplSetMember sys) w' = (Throw (UndefinedBehaviour "dereference of end()"), w'))
    as Hthrow.
  { cbn [forM_]. apply bind_Throw, update_self_undefined; [apply Hok'|done|]. by rewrite Hoth. }
  erewrite bind_Throw; [done|]. rewrite forM_app, (bind_Ok _ _ _ _ _ Hrun). exact Hthrow.
Qed.
End spec.

(** ** At a concrete process *)

(** The second ZeroMQ call fails. *)
Definition flaky : SSystem := {|
  params := sample_params;
  zmq_fails n := if (n =? 1)%nat then Some "Resource temporarily unavailable" else None;
  push_full _ := false;
  isSelf h := (host h =? "self")%string; others _ w := w
|}.

Lemma publish_sends_witness :
  wp (publish flaky "A" [("x", VInt 1)])
    (λ b w', same_but_sockets fresh_world w' ∧
       if b : bool then published flaky (mkPub "A" [("x", VInt 1)] 1000000) fresh_world w'
       else call_failed flaky fresh_world w')
    (λ e w', e = Blocks "send" ∧ same_but_sockets fresh_world w' ∧
       ∃ d, goes_to flaky fresh_world "A" d ∧ call_waits flaky d fresh_world w') fresh_world.
Proof. apply (publish_sends flaky "A" [("x", VInt 1)] fresh_world (new_socket ZMQ_PUB)); done. Defined.

Lemma publish_after_failure_witness :
  ∃ w2 s2, publish flaky "B" [("x", VInt 2)] (publish flaky "A" [("x", VInt 1)] fresh_world).2
           = (Ok true, w2) ∧ extSendSocket w2 = Some s2 ∧
    outbox s2 = [] ++ [appendStr "A" :: pub_frames (mkPub "B" [("x", VInt 2)] 1000000)].
Proof.
  apply (publish_after_failure flaky "A" [("x", VInt 1)] "B" [("x", VInt 2)] fresh_world _
    (new_socket ZMQ_PUB) "Resource temporarily unavailable"); try done.
  intros n Hn. simpl in *. by destruct n as [|[]]; [lia|lia|].
Defined.

Lemma initSharding_connects_witness :
  wp (initSharding flaky "a:29000,b:29001")
    (λ _ w', ∃ h, h ∈ [mkHostAndPort "a" 29000; mkHostAndPort "b" 29001] ∧
       (∀ h', h' ∈ [mkHostAndPort "a" 29000; mkHostAndPort "b" 29001] → port h' ≤ port h) ∧
       (option_map connected (dbEventSocket w') = Some ["tcp://" +:+ hp_toString
            (mkHostAndPort (host h) (port h + 1234)) true]
          ∧ publishDataEvents w' = publishDataEvents fresh_world
        ∨ publishDataEvents w' = false ∧ ∃ n what, zmq_fails flaky n = Some what))
    (λ _ _, False) fresh_world.
Proof.
  apply (initSharding_connects flaky ["a:29000"; "b:29001"]).
  - done.
  - by vm_compute.
  - repeat constructor.
  - eexists. split; [apply list_elem_of_here|done].
  - by intros h [->|[->|?%elem_of_nil]%elem_of_cons]%elem_of_cons.
Defined.

Definition with_members (m : list ((string * Z) * bool)) : SWorld := set_rsMembers m fresh_world.

Lemma with_members_ok m : map_sorted m → members_ok (with_members m).
Proof. intros Hm. split_and!; [done|done|by eexists]. Qed.

Lemma heartbeat_round_witness :
  wp (initFromConfig_members flaky [mkHostAndPort "a" 1; mkHostAndPort "b" 2])
    (λ _ w', ∀ k, map_find k (rsMembers w')
       = if decide (k ∈ hp_key <$> [mkHostAndPort "a" 1; mkHostAndPort "b" 2]) then Some false else None)
    (λ _ _, False) (with_members [(("a", 1), false)]).
Proof.
  apply (heartbeat_round flaky).
  - apply with_members_ok. repeat constructor.
  - repeat (constructor; [done|]). constructor.
  - by intros k ->%list_elem_of_singleton; left.
Defined.

Lemma prune_undefined_witness :
  (pruneReplSetMembers flaky (with_members [(("a", 1), true); (("b", 2), false)])).1
  = Throw (UndefinedBehaviour "increment of an erased iterator").
Proof.
  apply (prune_undefined flaky).
  - apply with_members_ok. repeat constructor.
  - repeat (constructor; [done|]). constructor.
  - by exists ("b", 2).
Defined.

Lemma config_undefined_witness :
  (initFromConfig_members flaky ([mkHostAndPort "a" 1] ++ mkHostAndPort "self" 27017 :: [mkHostAndPort "b" 2])
     fresh_world).1
  = Throw (UndefinedBehaviour "dereference of end()").
Proof.
  apply (config_undefined flaky [mkHostAndPort "a" 1] (mkHostAndPort "self" 27017) [mkHostAndPort "b" 2] fresh_world).
  - exact (with_members_ok [] (SSorted_nil _)).
  - repeat (constructor; [done|]). constructor.
  - done.
  - by intros ?%list_elem_of_singleton.
  - done.
Defined.
