(* ===== verification/Startup.v ===== *)
(** * Starting up: db/pubsub_d.cpp and db/pubsub_s.cpp

    The background job that a mongod, a config server or a mongos runs once: it
    opens and wires the process's sockets and starts the proxy and the cleanup
    thread, or turns publish/subscribe off when ZeroMQ fails. *)

From S2P Require Import Prelude Monad StdMap Bytes Oid Doubles Bson BsonBytes HostPort Zmq World.
From S2P Require Import SendSock PubSub PQueue PubSubInv Sample SendSpec.

Section startup.
Context {Mt Pt : Type} (sys : System Mt Pt).
Abbreviation W := (World Mt Pt).
Implicit Types (w : W).

(** Calls on the process's other sockets. *)
Definition ext_recv (op : socket_t → res socket_t) : M W unit :=
  on_ptr sys extRecvSocket set_extRecvSocket op.
Definition int_pub (op : socket_t → res socket_t) : M W unit :=
  s ← gets intPubSocket; s' ← on_socket sys op s; modify (set_intPubSocket s').

Definition endpoint (prefix : string) (p : Z) : string := prefix +:+ numStr p.

Definition start_thread (t : Thread) : M W unit := modify (add_thread t).

(** ** mongod *)

(** [PubSubCleanup::run] of a mongod: [false] when the job gave up. *)
Definition run_d : M W bool :=
  let port := p_port sys in
  s ← initSendSocket sys; _ ← modify (set_extSendSocket s);
  r ← initRecvSocket sys; _ ← modify (set_extRecvSocket r);
  enabled ← gets pubsubEnabled;
  if negb enabled then mret false
  else if p_configsvr sys then
    wired ← try_zmq
      (p ← lift (port_plus port 1234);
       _ ← ext_recv (sock_bind (endpoint "tcp://*:" p));
       p ← lift (port_plus port 2345);
       _ ← ext_send sys (sock_bind (endpoint "tcp://*:" p));
       mret true)
      (λ _, _ ← turn_off; mret false);
    if negb wired then mret false
    else _ ← start_thread ThreadProxyPullToPub; mret true
  else
    wired ← try_zmq
      (p ← lift (port_plus port 1234);
       _ ← ext_recv (sock_bind (endpoint "tcp://*:" p));
       p ← lift (port_plus port 1234);
       _ ← ext_send sys (sock_connect (endpoint "tcp://localhost:" p));
       _ ← int_pub (sock_bind kIntPubSubEndpoint);
       mret true)
      (λ _, _ ← turn_off; mret false);
    if negb wired then mret false
    else
      _ ← start_thread ThreadProxyExtToInt;
      _ ← start_thread ThreadCleanup; mret true.

Definition startPubsubBackgroundJob_d : M W bool :=
  enabled ← gets pubsubEnabled; if negb enabled then mret false else run_d.

(** ** mongos *)

(** The loop over the config servers: connect to each, remember the one with the
    greatest port. *)
Fixpoint config_loop (configServers : list string) (maxConfigHP : HostAndPort) : M W HostAndPort :=
  match configServers with
  | [] => mret maxConfigHP
  | it :: configServers =>
      configHP ← lift (HostAndPort_of_string it);
      let maxConfigHP := if port maxConfigHP <? port configHP then configHP else maxConfigHP in
      p ← lift (port_plus (port configHP) 2345);
      configPubEndpoint ← lift (HostAndPort_make (host configHP) p);
      _ ← ext_recv (sock_connect (tcp_endpoint configPubEndpoint));
      config_loop configServers maxConfigHP
  end.

Definition run_s : M W bool :=
  s ← initSendSocket sys; _ ← modify (set_extSendSocket s);
  r ← initRecvSocket sys; _ ← modify (set_extRecvSocket r);
  enabled ← gets pubsubEnabled;
  if negb enabled then mret false
  else
    wired ← try_zmq
      (maxConfigHP ← config_loop (p_configdbs sys) (setPort HostAndPort_empty 0);
       p ← lift (port_plus (port maxConfigHP) 1234);
       configPullEndpoint ← lift (HostAndPort_make (host maxConfigHP) p);
       _ ← ext_send sys (sock_connect (tcp_endpoint configPullEndpoint));
       _ ← int_pub (sock_bind kIntPubSubEndpoint);
       mret true)
      (λ _, _ ← turn_off; mret false);
    if negb wired then mret false
    else
      _ ← start_thread ThreadProxyExtToInt;
      _ ← start_thread ThreadCleanup; mret true.

Definition startPubsubBackgroundJob_s : M W bool :=
  enabled ← gets pubsubEnabled; if negb enabled then mret false else run_s.

(** ** What a started process looks like *)

Definition send_socket : socket_t :=
  mkSocket (if p_isMongos sys then ZMQ_PUSH else ZMQ_PUB) true [] kDefaultHwm 0 [] [] [] [] [] [].
Definition recv_socket : socket_t :=
  if p_configsvr sys then new_socket ZMQ_PULL
  else mkSocket ZMQ_SUB true [""] kDefaultHwm kDefaultHwm [] [] [] [] [] [].

(** The socket after connecting to, or binding, some more endpoints. *)
Definition wired (s : socket_t) (to at_ : list string) : socket_t :=
  mkSocket (stype s) (isopen s) (filters s) (sndhwm s) (rcvhwm s) (connected s ++ to) (bound s ++ at_)
    (inbox s) (partial s) (sending s) (outbox s).

(** One of the calls with a number from [a] to [b - 1] failed. *)
Definition failed_in (a b : nat) : Prop := ∃ k what, (a ≤ k < b)%nat ∧ zmq_fails sys k = Some what.

Lemma failed_first a b what : zmq_fails sys a = Some what → (a < b)%nat → failed_in a b.
Proof. intros Hf Hb. exists a, what. split; [lia|done]. Qed.

Lemma failed_mono a b a' b' : failed_in a b → (a' ≤ a)%nat → (b ≤ b')%nat → failed_in a' b'.
Proof. intros (k & what & Hk & Hf) Ha Hb. exists k, what. split; [lia|done]. Qed.

Lemma failed_lt a b : failed_in a b → (a < b)%nat.
Proof. intros (k & what & Hk & _). lia. Qed.

(** A ZeroMQ call failed, and everything is off. *)
Definition gave_up w w' : Prop :=
  call_failed sys w w' ∧ pubsubEnabled w' = false ∧ publishDataEvents w' = false ∧ threads w' = threads w.

Lemma wp_initSendSocket (Qp : option socket_t → W → Prop) (E : exn → W → Prop) w :
  (∀ n, (zmqCalls w ≤ n)%nat → Qp (Some send_socket) (set_zmqCalls n w)) →
  (∀ n, failed_in (zmqCalls w) n → Qp None (set_flags false false (set_zmqCalls n w))) → wp (initSendSocket sys) Qp E w.
Proof.
  intros HQ HN. unfold initSendSocket, zmq_socket, on_socket, turn_off. wp_steps.
  apply wp_zcall; [|intros what Hf; wp_steps; apply HN; eapply failed_first; [done|lia]]. wp_steps.
  apply wp_zcall; [wp_steps; apply HQ; simpl; lia|].
  intros what Hf. wp_steps. apply HN. eexists _, what. split; [|exact Hf]. simpl. lia.
Qed.

Lemma wp_initRecvSocket (Qp : option socket_t → W → Prop) (E : exn → W → Prop) w :
  (∀ n, (zmqCalls w ≤ n)%nat → Qp (Some recv_socket) (set_zmqCalls n w)) →
  (∀ n, failed_in (zmqCalls w) n → Qp None (set_flags false false (set_zmqCalls n w))) → wp (initRecvSocket sys) Qp E w.
Proof.
  intros HQ HN. unfold recv_socket in HQ. unfold initRecvSocket, zmq_socket, on_socket, turn_off. wp_steps.
  apply wp_zcall; [|intros what Hf; wp_steps; apply HN; eapply failed_first; [done|lia]]. wp_steps.
  destruct (p_configsvr sys); simpl negb; cbv iota; wp_steps; [apply HQ; simpl; lia|].
  apply wp_zcall; [wp_steps; apply HQ; simpl; lia|].
  intros what Hf. wp_steps. apply HN. eexists _, what. split; [|exact Hf]. simpl. lia.
Qed.

Lemma wp_on_ptr get put op s s' (Qp : unit → W → Prop) (E : exn → W → Prop) w :
  get w = Some s → op s = Ok s' → Qp () (put (Some s') (set_zmqCalls (zmqCalls w + 1) w)) →
  (∀ what, zmq_fails sys (zmqCalls w) = Some what → E (ZmqError what) (set_zmqCalls (zmqCalls w + 1) w)) →
  wp (on_ptr sys get put op) Qp E w.
Proof.
  intros Hs Hop HQ HE. unfold on_ptr, on_socket. do 2 wp_step. rewrite Hs. do 2 wp_step.
  apply wp_zcall; [|done]. rewrite Hop. wp_steps. apply HQ.
Qed.

Lemma recv_socket_open : isopen recv_socket = true.
Proof. unfold recv_socket. by destruct (p_configsvr sys). Qed.

Lemma sock_connect_wired e s : isopen s = true → sock_connect e s = Ok (wired s [e] []).
Proof. intros Ho. unfold sock_connect, wired. by rewrite Ho, app_nil_r. Qed.
Lemma sock_bind_wired e s : isopen s = true → sock_bind e s = Ok (wired s [] [e]).
Proof. intros Ho. unfold sock_bind, wired. by rewrite Ho, app_nil_r. Qed.

(** The sockets of a started mongod that is not a config server. *)
Definition mongod_up w w' : Prop :=
  let p := p_port sys + 1234 in
  extRecvSocket w' = Some (wired recv_socket [] [endpoint "tcp://*:" p]) ∧
  extSendSocket w' = Some (wired send_socket [endpoint "tcp://localhost:" p] []) ∧
  intPubSocket w' = wired (intPubSocket w) [] [kIntPubSubEndpoint] ∧
  threads w' = threads w ++ [ThreadProxyExtToInt; ThreadCleanup] ∧
  pubsubEnabled w' = pubsubEnabled w ∧ publishDataEvents w' = publishDataEvents w.

(** Of a started config server. *)
Definition configsvr_up w w' : Prop :=
  extRecvSocket w' = Some (wired recv_socket [] [endpoint "tcp://*:" (p_port sys + 1234)]) ∧
  extSendSocket w' = Some (wired send_socket [] [endpoint "tcp://*:" (p_port sys + 2345)]) ∧
  threads w' = threads w ++ [ThreadProxyPullToPub] ∧
  pubsubEnabled w' = pubsubEnabled w ∧ publishDataEvents w' = publishDataEvents w.

Lemma wp_sockets (K : M W bool) (Qp : bool → W → Prop) (E : exn → W → Prop) w :
  pubsubEnabled w = true →
  (∀ n, (zmqCalls w ≤ n)%nat → wp K Qp E (set_extRecvSocket (Some recv_socket) (set_extSendSocket (Some send_socket) (set_zmqCalls n w)))) →
  (∀ w', gave_up w w' → Qp false w') →
  wp (s ← initSendSocket sys; _ ← modify (set_extSendSocket s);
      r ← initRecvSocket sys; _ ← modify (set_extRecvSocket r);
      enabled ← gets pubsubEnabled;
      if negb enabled then mret false else K) Qp E w.
Proof.
  intros Hen HK HG. wp_step. apply wp_initSendSocket; intros n Hn; do 3 wp_step;
    apply wp_initRecvSocket; intros n' Hn'; do 4 wp_step; cbn [zmqCalls set_zmqCalls set_extSendSocket set_flags] in Hn'.
  - cbn [pubsubEnabled set_extRecvSocket set_extSendSocket set_zmqCalls]. rewrite Hen. apply (HK n'). lia.
  - wp_steps. apply HG. split; [|done]. eapply failed_mono; [done|lia|done].
  - wp_steps. apply HG. split; [|done]. eapply failed_mono; [done|lia|done].
  - wp_steps. apply HG. split; [|done]. apply failed_lt in Hn'. eapply failed_mono; [done|lia|simpl; lia].
Qed.

Lemma port_plus_Ok p k : p + k < 2 ^ 31 → port_plus p k = Ok (p + k).
Proof. intros Hp. unfold port_plus. by rewrite (proj2 (Z.ltb_lt _ _) Hp). Qed.

(** A failed ZeroMQ call while wiring turns everything off. *)
Lemma wp_turned_off (up : W → Prop) (E : exn → W → Prop) (K : bool → M W bool) w w1 k what :
  K false = mret false → zmq_fails sys k = Some what → (zmqCalls w ≤ k < zmqCalls w1)%nat → threads w1 = threads w →
  wp (_ ← turn_off; mret false)
    (λ b, wp (K b) (λ b w', if b : bool then up w' else gave_up w w') E) E w1.
Proof.
  intros HK Hf Hk Ht. unfold turn_off. wp_steps. rewrite HK. wp_steps. split; [|done]. by exists k, what.
Qed.

(** C37: A mongod that is not a config server ends its start-up in one of two
    ways.  Either it listens for publications on its port plus 1234, publishes
    to itself on that same port, serves its clients' sockets, and runs the proxy
    and the cleanup thread; or one of the ZeroMQ calls it made failed,
    publish/subscribe and database events are off, and no thread was started. *)
Theorem mongod_starts w :
  pubsubEnabled w = true → p_configsvr sys = false → p_port sys + 1234 < 2 ^ 31 →
  isopen (intPubSocket w) = true →
  wp startPubsubBackgroundJob_d
    (λ b w', if b : bool then mongod_up w w' else gave_up w w') (λ _ _, False) w.
Proof.
  intros Hen Hc Hp Ho. unfold startPubsubBackgroundJob_d, run_d. do 2 wp_step. rewrite Hen, Hc.
  simpl negb. cbv iota. rewrite (port_plus_Ok _ _ Hp).
  apply wp_sockets; [done| |done]. intros n Hn. do 5 wp_step.
  eapply wp_on_ptr; [done|by apply sock_bind_wired; rewrite recv_socket_open| |].
  2:{ intros what Hf. eapply wp_turned_off; [done|exact Hf|simpl; lia|done]. }
  do 3 wp_step.
  eapply wp_on_ptr; [done|by apply sock_connect_wired| |].
  2:{ intros what Hf. eapply wp_turned_off; [done|exact Hf|simpl; lia|done]. }
  wp_step. unfold int_pub, on_socket. do 4 wp_step.
  apply wp_zcall; [|intros what Hf; eapply wp_turned_off; [done|exact Hf|simpl; lia|done]].
  rewrite sock_bind_wired by done.
  unfold start_thread. wp_steps. split_and!; try done. simpl. by rewrite <-app_assoc.
Qed.

(** A config server's start-up: it pulls what the cluster's processes push on
    its port plus 1234, broadcasts on its port plus 2345, and runs the proxy
    between the two; or a call failed and everything is off. *)
Lemma configsvr_starts w :
  pubsubEnabled w = true → p_configsvr sys = true → p_port sys + 2345 < 2 ^ 31 →
  wp startPubsubBackgroundJob_d
    (λ b w', if b : bool then configsvr_up w w' else gave_up w w') (λ _ _, False) w.
Proof.
  intros Hen Hc Hp. unfold startPubsubBackgroundJob_d, run_d. do 2 wp_step. rewrite Hen, Hc.
  simpl negb. cbv iota. rewrite (port_plus_Ok _ 1234), (port_plus_Ok _ _ Hp) by lia.
  apply wp_sockets; [done| |done]. intros n Hn. do 5 wp_step.
  eapply wp_on_ptr; [done|by apply sock_bind_wired; rewrite recv_socket_open| |].
  2:{ intros what Hf. eapply wp_turned_off; [done|exact Hf|simpl; lia|done]. }
  do 3 wp_step.
  eapply wp_on_ptr; [done|by apply sock_bind_wired| |].
  2:{ intros what Hf. eapply wp_turned_off; [done|exact Hf|simpl; lia|done]. }
  unfold start_thread. wp_steps. by split_and!.
Qed.

(** ** mongos: lemmas *)

Definition pub_endpoint (h : HostAndPort) : string :=
  tcp_endpoint (mkHostAndPort (host h) (port h + 2345)).
Definition pull_endpoint (h : HostAndPort) : string :=
  tcp_endpoint (mkHostAndPort (host h) (port h + 1234)).

(** Addresses that can be shifted and rebuilt. *)
Definition plain (h : HostAndPort) : Prop :=
  port h + 2345 < 2 ^ 31 ∧ StringData_startsWith (host h) "#" = false.

Lemma HostAndPort_make_plain h p : StringData_startsWith h "#" = false →
  HostAndPort_make h p = Ok (mkHostAndPort h p).
Proof. intros Hh. unfold HostAndPort_make. by rewrite Hh. Qed.

(** The loop connects to every server and keeps the one [maxConfig_loop] finds. *)
Lemma wp_config_loop dbs hs h0 h s (Qp : HostAndPort → W → Prop) (E : exn → W → Prop) w :
  Forall2 (λ d h, HostAndPort_of_string d = Ok h) dbs hs → Forall plain hs →
  maxConfig_loop dbs h0 = Ok h →
  extRecvSocket w = Some s → isopen s = true →
  (∀ n, (zmqCalls w ≤ n)%nat → Qp h (set_extRecvSocket (Some (wired s (pub_endpoint <$> hs) [])) (set_zmqCalls n w))) →
  (∀ what s' n, failed_in (zmqCalls w) n → E (ZmqError what) (set_extRecvSocket s' (set_zmqCalls n w))) →
  wp (config_loop dbs h0) Qp E w.
Proof.
  intros Hp. revert h0 s w. induction Hp as [|d h' dbs hs Hd _ IH]; intros h0 s w Hpl Hmax Hs Ho HQ HE.
  { injection Hmax as ->. apply wp_ret. specialize (HQ (zmqCalls w) (le_n _)). unfold wired in HQ.
    rewrite !app_nil_r in HQ. destruct w, s. simpl in *. by subst. }
  apply Forall_cons in Hpl as [[Hport Hhash] Hpl].
  cbn [maxConfig_loop] in Hmax. rewrite Hd in Hmax. cbn [mbind res_bind] in Hmax.
  cbn [config_loop]. rewrite Hd. do 2 wp_step. rewrite port_plus_Ok by done. do 2 wp_step.
  rewrite HostAndPort_make_plain by done. do 3 wp_step.
  eapply wp_on_ptr; [done|by apply sock_connect_wired| |].
  2:{ intros what Hf. specialize (HE what (Some s) (zmqCalls w + 1)%nat). destruct w. simpl in *. subst.
      apply HE. eapply failed_first; [done|lia]. }
  apply (IH _ (wired s [pub_endpoint h'] []) _ Hpl Hmax); [done|done| |].
  - intros n' Hn'. simpl in Hn'. specialize (HQ n' ltac:(lia)). unfold wired in *. simpl in *.
    rewrite !app_nil_r, <-app_assoc in *. exact HQ.
  - intros what s' n' Hn'. apply (HE what s' n'). eapply failed_mono; [done|simpl; lia|done].
Qed.

(** A started mongos. *)
Definition mongos_up (hs : list HostAndPort) w w' : Prop :=
  extRecvSocket w' = Some (wired recv_socket (pub_endpoint <$> hs) []) ∧
  (∃ h, h ∈ hs ∧ (∀ h', h' ∈ hs → port h' ≤ port h) ∧
     extSendSocket w' = Some (wired send_socket [pull_endpoint h] [])) ∧
  intPubSocket w' = wired (intPubSocket w) [] [kIntPubSubEndpoint] ∧
  threads w' = threads w ++ [ThreadProxyExtToInt; ThreadCleanup] ∧
  pubsubEnabled w' = pubsubEnabled w ∧ publishDataEvents w' = publishDataEvents w.

(** A mongos's start-up: it subscribes to every config server on its port plus
    2345, pushes its publications to one of them, one with the greatest port, on
    that port plus 1234, serves its clients' sockets and runs both threads; or
    everything is off. *)
Lemma mongos_starts hs w :
  pubsubEnabled w = true → isopen (intPubSocket w) = true →
  Forall2 (λ d h, HostAndPort_of_string d = Ok h) (p_configdbs sys) hs → Forall plain hs →
  (∃ h, h ∈ hs ∧ 0 < port h) →
  wp startPubsubBackgroundJob_s
    (λ b w', if b : bool then mongos_up hs w w' else gave_up w w') (λ _ _, False) w.
Proof.
  intros Hen Ho Hp Hpl (h1 & Hin1 & Hpos).
  destruct (maxConfig_loop_spec _ hs (setPort HostAndPort_empty 0) Hp) as (h & Hr & Hin & _ & Hmax).
  assert (h ∈ hs) as Hh.
  { destruct Hin as [->|[? _]]; [|done]. specialize (Hmax h1 Hin1).
    unfold port in Hmax at 2. simpl in Hmax. lia. }
  eapply Forall_forall in Hpl as Hph; [|exact Hh]. destruct Hph as [Hport Hhash].
  unfold startPubsubBackgroundJob_s, run_s. do 2 wp_step. rewrite Hen. simpl negb. cbv iota.
  apply wp_sockets; [done| |done]. intros n Hn. do 3 wp_step.
  eapply wp_config_loop; [done|done|done|done|apply recv_socket_open| |].
  2:{ intros what s' n' (k & what' & Hk & Hf). simpl in Hk. eapply wp_turned_off; [done|exact Hf|simpl; lia|done]. }
  intros n1 Hn1. simpl in Hn1. wp_step. rewrite port_plus_Ok by lia. do 2 wp_step.
  rewrite HostAndPort_make_plain by done. do 2 wp_step.
  eapply wp_on_ptr; [done|by apply sock_connect_wired| |].
  2:{ intros what Hf. eapply wp_turned_off; [done|exact Hf|simpl; lia|done]. }
  wp_step. unfold int_pub, on_socket. do 4 wp_step.
  apply wp_zcall; [|intros what Hf; eapply wp_turned_off; [done|exact Hf|simpl; lia|done]].
  rewrite sock_bind_wired by done.
  unfold start_thread. wp_steps. split_and!; try done; [by exists h|].
  simpl. by rewrite <-app_assoc.
Qed.

(** With a working ZeroMQ the start-up comes up. *)
Lemma came_up (m : M W bool) (up : W → Prop) w : (∀ k, zmq_fails sys k = None) →
  wp m (λ b w', if b : bool then up w' else gave_up w w') (λ _ _, False) w →
  ∃ w', m w = (Ok true, w') ∧ up w'.
Proof.
  intros Hok H. unfold wp in H. destruct (m w) as [[[]|] w']; [by exists w'| |done].
  destruct H as [(k & what & _ & Hf) _]. by rewrite Hok in Hf.
Qed.
End startup.

(** ** At concrete processes *)

Definition with_params (mongos configsvr : bool) (configdbs : list string) : SSystem := {|
  params := {| p_isMongos := mongos; p_configsvr := configsvr; p_port := 27017;
               p_configdbs := configdbs; p_useDebugTimeout := false; p_machine := sample_machine |};
  zmq_fails _ := None; push_full _ := false; isSelf _ := false; others _ w := w
|}.

(** No call fails, so the process comes up. *)
Lemma mongod_starts_witness : ∃ w',
  startPubsubBackgroundJob_d (with_params false false []) fresh_world = (Ok true, w') ∧
  mongod_up (with_params false false []) fresh_world w'.
Proof.
  apply (came_up (with_params false false [])); [done|].
  by apply (mongod_starts (with_params false false [])).
Defined.

Lemma configsvr_starts_witness :
  wp (startPubsubBackgroundJob_d (with_params false true []))
    (λ b w', if b : bool then configsvr_up (with_params false true []) fresh_world w'
             else gave_up (with_params false true []) fresh_world w') (λ _ _, False) fresh_world.
Proof. by apply (configsvr_starts (with_params false true [])). Defined.

Definition sample_configs : list HostAndPort := [mkHostAndPort "a" 29000; mkHostAndPort "b" 29001].

Lemma mongos_starts_witness :
  let sys := with_params true false ["a:29000"; "b:29001"] in
  wp (startPubsubBackgroundJob_s sys)
    (λ b w', if b : bool then mongos_up sys sample_configs fresh_world w'
             else gave_up sys fresh_world w') (λ _ _, False) fresh_world.
Proof.
  apply (mongos_starts (with_params true false ["a:29000"; "b:29001"])); [done|done|..].
  - repeat constructor.
  - repeat (constructor; [done|]). constructor.
  - eexists. split; [apply list_elem_of_here|done].
Defined.
