(* ===== verification/PubSubPoll.v ===== *)
(** * Polling: db/pubsub.cpp, [poll] and its loops

    The index loop that drops interrupted subscriptions computes a filter, every
    poll ends within its time limit, what a poll hands out, and that it gives
    back every socket it took. *)

From S2P Require Import Prelude Monad StdMap Bytes Oid Doubles Bson BsonBytes HostPort Zmq.
From S2P Require Import World PubSub PubSubInv.

Section poll.
Context {Mt Pt Q : Type} `{MatcherOps Mt} `{ProjectionOps Pt} `{PriorityQueue Q}.
Context (sys : System Mt Pt).
Abbreviation W := (World Mt Pt).
Implicit Types (w : W) (i : SubscriptionInfo Mt Pt) (l : nat).

(** ** The loop over interrupted subscriptions *)

Definition unsub_flag w l : bool :=
  match heap w !! l with Some i => flag (shouldUnsub i) | None => false end.

(** What a forced unsubscribe does to the state. *)
Definition force_remove w (s : OID * nat) : W :=
  match map_find s.1 (subscriptions w) with None => w | Some l => removed s.1 l w end.

Definition interrupted (errors : list (OID * string)) (s : OID * nat) : list (OID * string) :=
  map_insert s.1 "Poll interrupted by unsubscribe." errors.

Definition in_heap w (subs : list (OID * nat)) : Prop :=
  Forall (λ s, (s.2 < length (heap w))%nat) subs.

Lemma unsubscribe_force id errors w : world_wf w →
  unsubscribe id (map_insert id "Poll interrupted by unsubscribe." errors) true w
  = (Ok (map_insert id "Poll interrupted by unsubscribe." errors), force_remove w (id, 0%nat)).
Proof.
  intros Hw. unfold unsubscribe, force_remove, mbind, M_bind, getS. simpl.
  destruct (map_find id (subscriptions w)) as [l|] eqn:Hf.
  - destruct (find_live _ _ _ Hw Hf) as (i & Hi & _). rewrite Hi. done.
  - unfold mret, M_ret. by rewrite map_insert_again.
Qed.

Lemma force_remove_wf w s : world_wf w → world_wf (force_remove w s).
Proof.
  intros Hw. unfold force_remove. case_match; [|done]. by apply wf_close_erase.
Qed.

Lemma force_remove_heap w s l :
  unsub_flag (force_remove w s) l = unsub_flag w l
  ∧ length (heap (force_remove w s)) = length (heap w).
Proof.
  unfold force_remove, unsub_flag.
  destruct (map_find s.1 (subscriptions w)) as [n|]; [|done]. simpl. rewrite length_alter.
  split; [|done]. destruct (decide (l = n)) as [->|].
  - rewrite list_lookup_alter_eq. by destruct (heap w !! n).
  - by rewrite list_lookup_alter_ne.
Qed.

Lemma erase_at_fmap {A B} (f : A → B) k (l : list A) : erase_at k (f <$> l) = f <$> erase_at k l.
Proof. unfold erase_at. by rewrite fmap_app, fmap_take, fmap_drop. Qed.

Lemma size_t_succ k : 0 ≤ k → k + 1 < size_t_mod → (k + 1) mod size_t_mod = k + 1.
Proof. intros. apply Z.mod_small. lia. Qed.

(** [i--] followed by [i++] is where it was, also from 0. *)
Lemma size_t_back k : 0 ≤ k < size_t_mod → ((k - 1) mod size_t_mod + 1) mod size_t_mod = k.
Proof. intros. rewrite Zplus_mod_idemp_l. replace (k - 1 + 1) with k by lia. by apply Z.mod_small. Qed.

Definition dropped w (subs : list (OID * nat)) := filter (λ s, unsub_flag w s.2 = true) subs.
Definition kept w (subs : list (OID * nat)) := filter (λ s, unsub_flag w s.2 = false) subs.

Lemma dropped_force_remove w s subs : dropped (force_remove w s) subs = dropped w subs.
Proof.
  apply list_filter_iff. intros x. by rewrite (proj1 (force_remove_heap w s x.2)).
Qed.
Lemma kept_force_remove w s subs : kept (force_remove w s) subs = kept w subs.
Proof.
  apply list_filter_iff. intros x. by rewrite (proj1 (force_remove_heap w s x.2)).
Qed.
Lemma in_heap_force_remove w s subs : in_heap w subs → in_heap (force_remove w s) subs.
Proof.
  intros Hh. eapply Forall_impl; [done|]. intros x.
  by rewrite (proj2 (force_remove_heap w s 0)).
Qed.

Lemma erase_at_take {A} k (l : list A) : (k ≤ length l)%nat → take k (erase_at k l) = take k l.
Proof. intros. unfold erase_at. rewrite take_app_le by (rewrite length_take; lia). by rewrite take_take, Nat.min_id. Qed.
Lemma erase_at_drop {A} k (l : list A) : (k ≤ length l)%nat → drop k (erase_at k l) = drop (S k) l.
Proof. intros. unfold erase_at. by rewrite drop_app_length' by (rewrite length_take; lia). Qed.
Lemma erase_at_length {A} k (l : list A) : (k < length l)%nat → length (erase_at k l) = (length l - 1)%nat.
Proof. intros. unfold erase_at. rewrite length_app, length_take, length_drop. lia. Qed.

(** From index [k] on, the loop keeps what is not flagged and removes the rest. *)
Lemma drop_unsubscribed_from fuel k subs errors w :
  world_wf w → in_heap w subs → (k ≤ length subs)%nat → (length subs - k < fuel)%nat →
  Z.of_nat (length subs) < size_t_mod →
  drop_unsubscribed fuel (Z.of_nat k) subs.*2 subs errors w
  = (Ok ((take k subs ++ kept w (drop k subs)).*2, take k subs ++ kept w (drop k subs),
         foldl interrupted errors (dropped w (drop k subs))),
     foldl force_remove w (dropped w (drop k subs))).
Proof.
  revert k subs errors w. induction fuel as [|fuel IH]; intros k subs errors w Hw Hh Hk Hf Hsz;
    [lia|]. cbn [drop_unsubscribed]. rewrite Nat2Z.id.
  destruct (subs !! k) as [[id l]|] eqn:Hl.
  2:{ apply lookup_ge_None in Hl. rewrite drop_ge, take_ge by lia. simpl. by rewrite app_nil_r. }
  pose proof (lookup_lt_Some _ _ _ Hl) as Hlt.
  rewrite (drop_S _ _ _ Hl). unfold dropped, kept. rewrite !filter_cons.
  fold (dropped w (drop (S k) subs)) (kept w (drop (S k) subs)). cbn [snd].
  assert (is_Some (heap w !! l)) as [i Hi].
  { apply lookup_lt_is_Some. eapply Forall_lookup_1 in Hh; [|done]. done. }
  assert (unsub_flag w l = flag (shouldUnsub i)) as Hflag by (unfold unsub_flag; by rewrite Hi).
  unfold mbind, M_bind, gets. rewrite Hi, Hflag. destruct (flag (shouldUnsub i)) eqn:Hs.
  - rewrite unsubscribe_force by done. rewrite size_t_back by (unfold size_t_mod in *; lia).
    pose proof (erase_at_length k subs Hlt) as Hel.
    rewrite erase_at_fmap, (IH k); [|by apply force_remove_wf| |lia|lia|lia].
    + rewrite erase_at_take, erase_at_drop, dropped_force_remove, kept_force_remove by lia. done.
    + apply in_heap_force_remove. apply Forall_app_2; [by apply Forall_take|by apply Forall_drop].
  - rewrite size_t_succ by (unfold size_t_mod in *; lia).
    replace (Z.of_nat k + 1) with (Z.of_nat (S k)) by lia.
    rewrite IH by (done || lia). rewrite (take_S_r _ _ _ Hl). simpl.
    by rewrite <-!app_assoc.
Qed.

(** The index loop of [poll] is a filter: the flagged subscriptions are removed
    from the table, closed and reported, the others stay in order. *)
Lemma drop_unsubscribed_filter subs errors w :
  world_wf w → in_heap w subs → Z.of_nat (length subs) < size_t_mod →
  drop_unsubscribed (S (length subs)) 0 subs.*2 subs errors w
  = (Ok ((kept w subs).*2, kept w subs, foldl interrupted errors (dropped w subs)),
     foldl force_remove w (dropped w subs)).
Proof. intros. by apply (drop_unsubscribed_from _ 0); try lia. Qed.

(** ** Receiving *)

(** What a subscription makes of a publication: nothing when its filter rejects
    it, otherwise the projected message. *)
Definition receive i (id : OID) (p : publication) : res (option SubscriptionMessage) :=
  b ← match filter_ i with Some m => matcher_matches m (pub_message p) | None => Ok true end;
  if negb b then Ok None
  else
    m ← match projection_ i with
        | Some pr => projection_transform pr (pub_message p)
        | None => Ok (pub_message p)
        end;
    Ok (Some (mkMessage id (pub_channel p) m (pub_time p))).

Definition push_one i id (q : Q) (p : publication) : Q :=
  match receive i id p with Ok (Some m) => pq_push m q | _ => q end.

Definition with_frames (ib : list (list string)) (pa : list string) (s : socket_t) : socket_t :=
  mkSocket (stype s) (isopen s) (filters s) (sndhwm s) (rcvhwm s) (connected s) (bound s)
    ib pa (sending s) (outbox s).

Lemma with_frames_same s ib pa : inbox s = ib → partial s = pa → with_frames ib pa s = s.
Proof. intros <- <-. by destruct s. Qed.

(** Some call into ZeroMQ fails with this text. *)
Definition failing (what : string) : Prop := ∃ n, zmq_fails sys n = Some what.

(** The state in which the subscription at [l] has [ib] and [pa] left to read. *)
Definition reading l s ib pa n w : W :=
  upd_info l (set_sock (with_frames ib pa s)) (set_zmqCalls n w).

Lemma reading_lookup l s ib pa n w i : heap w !! l = Some i →
  heap (reading l s ib pa n w) !! l = Some (set_sock (with_frames ib pa s) i).
Proof. intros Hi. simpl. by rewrite list_lookup_alter_eq, Hi. Qed.

Lemma reading_twice l s s' ib pa ib' pa' n n' w :
  reading l s' ib' pa' n' (reading l s ib pa n w) = reading l s' ib' pa' n' w.
Proof. unfold reading, upd_info, set_heap. simpl. by rewrite list_alter_alter_eq. Qed.

Lemma reading_same l s ib pa n w i : heap w !! l = Some i → sock i = s →
  inbox s = ib → partial s = pa → reading l s ib pa n w = set_zmqCalls n w.
Proof.
  intros Hi <- <- <-. unfold reading, upd_info, set_heap. simpl.
  rewrite (list_alter_same _ _ _ i); [by destruct w|done|].
  unfold set_sock, with_frames. destruct i as [[] ?????]. done.
Qed.

Lemma wp_recv_dontwait l i s f pa ib (Qp : option string → W → Prop) E w :
  heap w !! l = Some i → sock i = s → isopen s = true →
  (partial s = f :: pa ∧ inbox s = ib ∨ partial s = [] ∧ inbox s = (f :: pa) :: ib) →
  (∀ n, Qp (Some f) (reading l s ib pa n w)) →
  (∀ n what, failing what → E (ZmqError what) (set_zmqCalls n w)) →
  wp (recv_dontwait sys l) Qp E w.
Proof.
  intros Hi <- Ho Hs HQ HE. unfold recv_dontwait. wp_steps. apply wp_zcall; [|intros; apply HE; by eexists].
  do 2 wp_step. change (heap (set_zmqCalls _ w)) with (heap w). rewrite Hi, Ho. simpl negb.
  cbv iota. unfold sock_take.
  destruct Hs as [[-> ->]|[-> ->]]; wp_steps; apply HQ.
Qed.

Lemma wp_recv_wait l i s f pa ib (Qp : string → W → Prop) E w :
  heap w !! l = Some i → sock i = s → isopen s = true →
  (partial s = f :: pa ∧ inbox s = ib ∨ partial s = [] ∧ inbox s = (f :: pa) :: ib) →
  (∀ n, Qp f (reading l s ib pa n w)) →
  (∀ n what, failing what → E (ZmqError what) (set_zmqCalls n w)) →
  wp (recv_wait sys l) Qp E w.
Proof.
  intros Hi Hs Ho Hf HQ HE. unfold recv_wait. wp_step.
  by eapply wp_recv_dontwait; [..|intros; wp_steps; apply HQ|].
Qed.

Lemma str_take_appendStr c : no_nul c → lift (S:=W) (strlen (appendStr c)) = lift (Ok (String.length c)).
Proof. intros Hc. f_equal. rewrite <-(str_app_nil_r (appendStr c)). by apply strlen_app. Qed.

Lemma take_channel c : str_take (String.length c) (appendStr c) = c.
Proof. apply str_take_app. Qed.

Lemma read_time t : uint64 t → read_ulong (le_bytes 8 t) = Ok t.
Proof. intros Ht. rewrite <-(str_app_nil_r (le_bytes 8 t)). by apply read_ulong_app. Qed.

(** Reading the rest of a publication gives what the subscription makes of it;
    a ZeroMQ failure leaves the frames not read yet. *)
Lemma wp_recv_rest id l i s p ib (Qp : option SubscriptionMessage → W → Prop) E w :
  pub_wf p → heap w !! l = Some i → sock i = s → isopen s = true →
  partial s = tail (pub_frames p) → inbox s = ib →
  (∀ n r, receive i id p = Ok r → Qp r (reading l s ib [] n w)) →
  (∀ n e, receive i id p = Throw e → E e (reading l s ib [] n w)) →
  (∀ n pa what, failing what → E (ZmqError what) (reading l s ib pa n w)) →
  wp (recv_rest sys id l (appendStr (pub_channel p))) Qp E w.
Proof.
  intros (Hc & Ho & Ht) Hi Hs Hop Hpa <- HQ HE HZ. unfold recv_rest.
  rewrite str_take_appendStr by done. wp_steps. rewrite take_channel.
  eapply wp_recv_wait; [done|done|done|left; split; [by rewrite Hpa|done]| |].
  2:{ intros n what Hf. rewrite <-(reading_same l s (inbox s) (partial s) n w i) by done. by apply HZ. }
  intros n. rewrite <-(str_app_nil_r (objdata _)), BSONObj_roundtrip_app by done. wp_steps.
  eapply wp_recv_wait; [by apply reading_lookup|done|done|by left| |].
  2:{ intros n' what Hf. by apply (HZ n'). }
  intros n'. rewrite read_time by done. do 2 wp_step. rewrite reading_twice.
  do 2 wp_step. erewrite reading_lookup by done. cbn [filter_ projection_ set_sock].
  change (reading l (sock (set_sock _ i)) _ [] n' w) with (reading l s (inbox s) [] n' w).
  specialize (HQ n'). specialize (HE n'). unfold receive in HQ, HE. unfold wp, mbind, M_bind.
  destruct (filter_ i) as [m|]; [destruct (matcher_matches m _) as [[]|]|];
    (destruct (projection_ i) as [pr|]; [destruct (projection_transform pr _)|]); simpl in *; auto.
Qed.

(** One turn of the receive loop on a socket that holds a publication: it goes on
    with what the subscription makes of it, leaves with what the filter or the
    projection throws, or stops with the outbox at a ZeroMQ failure. *)
Lemma wp_recv_turn id l i s p pubs fuel (q : Q) (Qp : Q * option string → W → Prop) E w :
  pub_wf p → heap w !! l = Some i → sock i = s → isopen s = true →
  partial s = [] → inbox s = pub_frames <$> p :: pubs →
  (∀ n, is_Ok (receive i id p) = true →
     wp (recv_loop sys fuel id l (push_one i id q p)) Qp E (reading l s (pub_frames <$> pubs) [] n w)) →
  (∀ n e, receive i id p = Throw e → (∀ what, e ≠ ZmqError what) →
     E e (reading l s (pub_frames <$> pubs) [] n w)) →
  (∀ n ib pa what, failing what ∨ receive i id p = Throw (ZmqError what) →
     Qp (q, Some what) (reading l s ib pa n w)) →
  wp (recv_loop sys (S fuel) id l q) Qp E w.
Proof.
  intros Hp Hi Hs Ho Hpa Hib HQ HE HF. cbn [recv_loop]. do 3 wp_step.
  eapply wp_recv_dontwait; [done|done|done|right; split; [done|by rewrite Hib]| |].
  2:{ intros n what Hw. wp_steps.
      rewrite <-(reading_same l s (inbox s) (partial s) n w i) by done. apply HF. by left. }
  intros n. wp_step. set (w1 := reading l s (pub_frames <$> pubs) (tail (pub_frames p)) n w).
  assert (heap w1 !! l = Some (set_sock (with_frames (pub_frames <$> pubs) (tail (pub_frames p)) s) i)) as Hi1
    by by apply reading_lookup.
  eapply (wp_recv_rest id l); [done|exact Hi1|done|done|done|done| | |]; unfold w1.
  - intros n' r Hr. change (receive _ id p) with (receive i id p) in Hr. wp_steps. rewrite reading_twice.
    specialize (HQ n'). unfold push_one in HQ. rewrite Hr in HQ. destruct r; by apply HQ.
  - intros n' e He. change (receive _ id p) with (receive i id p) in He. rewrite reading_twice.
    destruct e; try (by apply HE). wp_steps. apply HF. by right.
  - intros n' pa what Hw. wp_steps. rewrite reading_twice. apply HF. by left.
Qed.

(** Why the loop reported an error: a failed call, or a filter that throws one. *)
Definition failed i id (pubs : list publication) (what : string) : Prop :=
  failing what ∨ ∃ p, p ∈ pubs ∧ receive i id p = Throw (ZmqError what).

(** What the receive loop leaves of a subscription whose socket held [pubs]. *)
Definition received i id l s pubs w (q : Q) (r : Q * option string) (w' : W) : Prop :=
  ∃ k ib pa n, w' = reading l s ib pa n w ∧ r.1 = foldl (push_one i id) q (take k pubs) ∧
    match r.2 with
    | None => k = length pubs ∧ ib = [] ∧ pa = []
    | Some what => failed i id pubs what
    end.

(** The receive loop of a subscription whose socket holds the publications
    [pubs]: it pushes what the subscription makes of them, in order, up to the
    first ZeroMQ failure, and leaves the socket empty without one.  Only the
    filter and the projection can make it throw. *)
Lemma wp_recv_loop pubs fuel id l i s (q : Q) w :
  Forall pub_wf pubs → heap w !! l = Some i → sock i = s → isopen s = true →
  partial s = [] → inbox s = pub_frames <$> pubs → (length pubs < fuel)%nat →
  wp (recv_loop sys fuel id l q) (received i id l s pubs w q)
    (λ e w', ∃ p ib pa n, w' = reading l s ib pa n w ∧ p ∈ pubs ∧ receive i id p = Throw e) w.
Proof.
  revert fuel i s q w. induction pubs as [|p pubs IH]; intros fuel i s q w Hwf Hi Hs Ho Hpa Hib Hf;
    (destruct fuel as [|fuel]; [simpl in Hf; lia|]).
  - cbn [recv_loop]. wp_steps. unfold recv_dontwait. wp_steps. apply wp_zcall.
    + do 2 wp_step. change (heap (set_zmqCalls _ w)) with (heap w).
      rewrite Hi, Hs, Ho. simpl negb. cbv iota. unfold sock_take. rewrite Hpa, Hib. simpl.
      wp_steps. exists 0%nat, [], [], (zmqCalls w + 1)%nat. split_and!; try done.
      unfold reading. by rewrite with_frames_same.
    + intros what Hw. wp_steps. exists 0%nat, [], [], (zmqCalls w + 1)%nat.
      rewrite (reading_same _ _ _ _ _ _ i) by done. split_and!; try done.
      left. by exists (zmqCalls w).
  - apply Forall_cons in Hwf as [Hp Hwf]. eapply wp_recv_turn; [done..| | |].
    + intros n Hr. set (w2 := reading l s (pub_frames <$> pubs) [] n w).
      assert (heap w2 !! l = Some (set_sock (with_frames (pub_frames <$> pubs) [] s) i)) as Hi2
        by by apply reading_lookup.
      eapply wp_mono; [| |by eapply (IH fuel); [..|simpl in Hf; lia]]; simpl.
      * intros [q' err] w' (k & ib & pa & m & -> & Hq & Herr). exists (S k), ib, pa, m.
        split; [apply (reading_twice l s s)|]. split; [done|]. unfold failed in *. destruct err; simpl; set_solver.
      * intros e w' (p' & ib & pa & m & -> & Hin & Hr'). exists p', ib, pa, m.
        split; [apply (reading_twice l s s)|]. split; [set_solver|done].
    + intros n e He _. exists p; eexists _, _, _; split; [done|]; split; [set_solver|done].
    + intros n ib pa what Hw. exists 0%nat, ib, pa, n. split_and!; [done|done|].
      destruct Hw; [by left|right; exists p; set_solver].
Qed.

(** ** Checking out *)

(** The answer of [checkoutSocket] as a function of the state. *)
Definition checkout w (id : OID) : string + nat :=
  match map_find id (subscriptions w) with
  | None => inl "Subscription not found."
  | Some l =>
      match heap w !! l with
      | None => inl ""
      | Some i =>
          if flag (shouldUnsub i) then inl "Subscription not found."
          else if flag (inUse i) then inl "Poll currently active." else inr l
      end
  end.

Definition take_one w (s : OID * nat) : W := upd_info s.2 (set_inUse 1) w.

Lemma checkoutSocket_eq id w : world_wf w →
  checkoutSocket id w
  = (Ok (checkout w id), match checkout w id with inr l => take_one w (id, l) | inl _ => w end).
Proof.
  intros Hw. unfold checkoutSocket, checkout, mbind, M_bind, getS. simpl.
  destruct (map_find id (subscriptions w)) as [l|] eqn:Hf; [|done].
  destruct (find_live _ _ _ Hw Hf) as (i & Hi & _). rewrite Hi.
  destruct (flag (shouldUnsub i)); [done|]. by destruct (flag (inUse i)).
Qed.

Lemma checkout_live w id l : world_wf w → checkout w id = inr l →
  map_find id (subscriptions w) = Some l ∧ ∃ i, heap w !! l = Some i ∧ isopen (sock i) = true
    ∧ flag (inUse i) = false ∧ flag (shouldUnsub i) = false.
Proof.
  intros Hw. unfold checkout. destruct (map_find id (subscriptions w)) as [l'|] eqn:Hf; [|done].
  destruct (find_live _ _ _ Hw Hf) as (i & Hi & Ho). rewrite Hi.
  destruct (flag (shouldUnsub i)) eqn:?; [done|]. destruct (flag (inUse i)) eqn:?; [done|].
  intros [= <-]. split; [done|]. by exists i.
Qed.

Lemma take_one_wf w s : world_wf w → world_wf (take_one w s).
Proof. intros Hw. apply wf_upd_info; [apply info_ok_inUse|done|done]. Qed.

(** Two identifiers never share a subscription. *)
Lemma find_inj w id id' l : world_wf w →
  map_find id (subscriptions w) = Some l → map_find id' (subscriptions w) = Some l → id = id'.
Proof.
  intros Hw Ha%map_find_elem Hb%map_find_elem; try apply Hw.
  pose proof (wf_distinct _ Hw) as Hnd.
  apply list_elem_of_lookup in Ha as [j1 Ha], Hb as [j2 Hb].
  assert (j1 = j2) as ->.
  { eapply NoDup_lookup; [exact Hnd| |]; rewrite list_lookup_fmap; [by rewrite Ha|by rewrite Hb]. }
  congruence.
Qed.

Lemma checkout_take_ne w id l id' : world_wf w → checkout w id = inr l → id ≠ id' →
  checkout (take_one w (id, l)) id' = checkout w id'.
Proof.
  intros Hw (Hf & _)%checkout_live Hne; [|done]. unfold checkout, take_one. simpl.
  destruct (map_find id' (subscriptions w)) as [l'|] eqn:Hf'; [|done].
  rewrite list_lookup_alter_ne; [done|]. intros ->. by apply Hne, (find_inj w id id' l').
Qed.

Definition checked_out w (ids : list OID) : list (OID * nat) :=
  omap (λ id, match checkout w id with inr l => Some (id, l) | inl _ => None end) ids.

Definition checkout_errors w (errors : list (OID * string)) (ids : list OID) : list (OID * string) :=
  foldl (λ e id, match checkout w id with inl m => map_insert id m e | inr _ => e end) errors ids.

Lemma pollitem_eq w id l : world_wf w → checkout w id = inr l →
  pollitem l (take_one w (id, l)) = (Ok l, take_one w (id, l)).
Proof.
  intros Hw (Hf & i & Hi & Ho & _)%checkout_live; [|done].
  unfold pollitem, mbind, M_bind, gets, take_one. simpl.
  rewrite list_lookup_alter_eq, Hi. simpl. by rewrite Ho.
Qed.

Lemma getSubscriptions_acc ids items subs errors w : world_wf w → NoDup ids →
  foldM (λ '(items, subs, errors) subscriptionId,
    r ← checkoutSocket subscriptionId;
    match r with
    | inl errmsg => mret (items, subs, map_insert subscriptionId errmsg errors)
    | inr s =>
        pollItem ← pollitem s;
        mret (items ++ [pollItem], subs ++ [(subscriptionId, s)], errors)
    end) (items, subs, errors) ids w
  = (Ok (items ++ (checked_out w ids).*2, subs ++ checked_out w ids, checkout_errors w errors ids),
     foldl take_one w (checked_out w ids)).
Proof.
  revert items subs errors w. induction ids as [|id ids IH]; intros items subs errors w Hw Hnd.
  { simpl. by rewrite !app_nil_r. }
  apply NoDup_cons in Hnd as [Hid Hnd]. cbn [foldM].
  unfold checked_out, checkout_errors. cbn [omap list_omap foldl].
  destruct (checkout w id) as [m|l] eqn:Hc.
  - erewrite bind_Ok by (rewrite (bind_Ok _ _ _ _ _ (checkoutSocket_eq id w Hw)), Hc; done).
    by rewrite IH.
  - erewrite bind_Ok by (rewrite (bind_Ok _ _ _ _ _ (checkoutSocket_eq id w Hw)), Hc;
      rewrite (bind_Ok _ _ _ _ _ (pollitem_eq w id l Hw Hc)); done).
    rewrite IH by (done || by apply take_one_wf).
    assert (∀ id', id' ∈ ids → checkout (take_one w (id, l)) id' = checkout w id') as Hsame
      by (intros id' ?; apply checkout_take_ne; [done|done|set_solver]).
    assert (checked_out (take_one w (id, l)) ids = checked_out w ids) as Hco
      by (unfold checked_out; apply list_omap_ext, Forall_Forall2_diag, Forall_forall;
          intros id' ?; by rewrite Hsame).
    assert (checkout_errors (take_one w (id, l)) errors ids = checkout_errors w errors ids) as Hce.
    { unfold checkout_errors. clear IH Hco Hid Hnd. revert errors.
      induction ids as [|id' ids IHi]; intros errors; [done|]. simpl.
      rewrite Hsame by set_solver. apply IHi. set_solver. }
    rewrite Hco, Hce. fold (checked_out w ids) (checkout_errors w errors ids). simpl.
    by rewrite <-!app_assoc.
Qed.

(** [getSubscriptions] takes exactly the subscriptions that are there, not being
    removed and not in use, and reports every other identifier. *)
Lemma getSubscriptions_eq ids errors w : world_wf w → NoDup ids →
  getSubscriptions ids errors w
  = (Ok ((checked_out w ids).*2, checked_out w ids, checkout_errors w errors ids),
     foldl take_one w (checked_out w ids)).
Proof. apply getSubscriptions_acc. Qed.
End poll.
