(* ===== verification/PubSubSafe.v ===== *)
(** * Polls end in time and give back their sockets

    Whatever other threads do while a poll waits, and whichever ZeroMQ calls
    fail, a poll ends within the time limit and leaves none of the
    subscriptions it took checked out. *)

From S2P Require Import Prelude Monad StdMap Bytes Oid Doubles Bson BsonBytes HostPort Zmq.
From S2P Require Import World PubSub PubSubInv PubSubPoll.

Section safe.
Context {Mt Pt Q : Type} `{MatcherOps Mt} `{ProjectionOps Pt} `{PriorityQueue Q}.
Context (sys : System Mt Pt).
Abbreviation W := (World Mt Pt).
Implicit Types (w : W) (i : SubscriptionInfo Mt Pt) (l : nat).

(** ** Giving back *)

Definition give_back w (s : OID * nat) : W :=
  upd_info s.2 (set_inUse 0) (upd_info s.2 (set_polledRecently 1) w).

Lemma checkinSocket_eq s w : checkinSocket s.2 w = (Ok (), give_back w s).
Proof. done. Qed.

Lemma endCurrentPolls_eq subs w : endCurrentPolls subs w = (Ok (), foldl give_back w subs).
Proof.
  unfold endCurrentPolls. revert w. induction subs as [|s subs IH]; intros w; [done|].
  cbn [forM_]. rewrite (bind_Ok _ _ _ _ _ (checkinSocket_eq s w)). apply IH.
Qed.

(** A subscription is settled when it is gone from the table or not in use. *)
Definition gone w (s : OID * nat) : Prop := map_find s.1 (subscriptions w) = None.
Definition free w (s : OID * nat) : Prop := ∀ i, heap w !! s.2 = Some i → flag (inUse i) = false.
Definition settled w (s : OID * nat) : Prop := gone w s ∨ free w s.

Lemma give_back_free w s s' : s'.2 = s.2 ∨ free w s' → free (give_back w s) s'.
Proof.
  unfold free, give_back. simpl. rewrite list_alter_alter_eq. intros Hs i.
  destruct (decide (s'.2 = s.2)) as [->|Hne].
  - rewrite list_lookup_alter_eq. destruct (heap w !! s.2); simpl; [|done]. by intros [= <-].
  - rewrite list_lookup_alter_ne by done. destruct Hs; [done|auto].
Qed.

Lemma give_back_all subs w s : s ∈ subs ∨ free w s → free (foldl give_back w subs) s.
Proof.
  revert w. induction subs as [|s' subs IH]; intros w; simpl.
  - intros [?%elem_of_nil|?]; done.
  - intros [[->|?]%elem_of_cons|?]; apply IH; eauto using give_back_free.
Qed.

Lemma give_back_table subs w : subscriptions (foldl give_back w subs) = subscriptions w.
Proof. revert w. induction subs as [|s subs IH]; intros w; [done|]. simpl. by rewrite IH. Qed.

Lemma settled_end (all subs : list (OID * nat)) w : (∀ s, s ∈ all → s ∈ subs ∨ settled w s) →
  ∀ s, s ∈ all → settled (foldl give_back w subs) s.
Proof.
  intros Hall s Hs. destruct (Hall s Hs) as [?|[?|?]].
  - right. apply give_back_all. by left.
  - left. unfold gone in *. by rewrite give_back_table.
  - right. apply give_back_all. by right.
Qed.

(** ** Removing *)

Lemma force_remove_gone w s : world_wf w → gone (force_remove w s) s.
Proof.
  intros Hw. unfold gone, force_remove. destruct (map_find s.1 (subscriptions w)) eqn:Hf; [|done].
  apply map_find_erase_eq, Hw.
Qed.

Lemma gone_force_remove w s s' : world_wf w → gone w s' → gone (force_remove w s) s'.
Proof.
  intros Hw Hg. unfold gone, force_remove in *.
  destruct (map_find s.1 (subscriptions w)) eqn:Hf; [|done]. simpl.
  rewrite map_find_erase_ne; [done|apply Hw|]. congruence.
Qed.

Lemma force_remove_all ds w : world_wf w →
  world_wf (foldl force_remove w ds) ∧ (∀ s, s ∈ ds ∨ gone w s → gone (foldl force_remove w ds) s)
  ∧ length (heap (foldl force_remove w ds)) = length (heap w)
  ∧ maxTimeoutMillis (foldl force_remove w ds) = maxTimeoutMillis w.
Proof.
  revert w. induction ds as [|d ds IH]; intros w Hw; simpl.
  { split_and!; try done. intros s [?%elem_of_nil|?]; done. }
  destruct (IH _ (force_remove_wf w d Hw)) as (Hw' & Hg & Hl & Hm). split_and!; [done| | |].
  - intros s [[->|?]%elem_of_cons|?]; apply Hg; eauto using force_remove_gone, gone_force_remove.
  - by rewrite Hl, (proj2 (force_remove_heap w d 0)).
  - rewrite Hm. unfold force_remove. by case_match.
Qed.

(** ** What other threads may do *)

(** They keep the invariant, free no subscription object, and never bring back
    an identifier that this poll asked for. *)
Record rely (ids : list OID) : Prop := {
  rely_wf : others_ok sys;
  rely_heap n w : (length (heap w) ≤ length (heap (others sys n w)))%nat;
  rely_gone n w s : s.1 ∈ ids → gone w s → gone (others sys n w) s
}.


(** A property [good] of the polled subscriptions that waiting and the removal
    of other subscriptions keep; the loop keeps it too. *)
Section loop.
Context (ids : list OID) (all : list (OID * nat)).
Hypothesis Hrely : rely ids.
Hypothesis Hall : ∀ s, s ∈ all → s.1 ∈ ids.
Context (good : W → OID * nat → Prop).
Hypothesis Hgood_calls : ∀ n w s, good w s → good (set_zmqCalls n w) s.
Hypothesis Hgood_others : ∀ n w s, s.1 ∈ ids → good w s → good (others sys n w) s.
Hypothesis Hgood_remove : ∀ w d s,
  world_wf w → good w d → good w s → d ≠ s → good (force_remove w d) s.

Definition loop_inv (subs : list (OID * nat)) w : Prop :=
  world_wf w ∧ in_heap w subs ∧ (∀ s, s ∈ all → s ∈ subs ∨ gone w s)
  ∧ NoDup subs ∧ Forall (λ s, s.1 ∈ ids ∧ good w s) subs.

Lemma loop_inv_others subs n w : loop_inv subs w → loop_inv subs (others sys n w).
Proof.
  intros (Hw & Hh & Hs & Hnd & Hg). split_and!.
  - by apply Hrely.
  - eapply Forall_impl; [exact Hh|]. intros s ?. pose proof (rely_heap _ Hrely n w). simpl in *. lia.
  - intros s Hin. destruct (Hs s Hin); [by left|right]. apply Hrely; auto.
  - done.
  - eapply Forall_impl; [exact Hg|]. intros s [??]. auto.
Qed.

Lemma good_force_remove_all ds w s : world_wf w → NoDup ds → Forall (good w) ds → s ∉ ds →
  good w s → good (foldl force_remove w ds) s.
Proof.
  revert w. induction ds as [|d ds IH]; intros w Hw Hnd Hds Hs Hg; [done|]. simpl.
  apply NoDup_cons in Hnd as [Hd Hnd]. apply Forall_cons in Hds as [Hgd Hds].
  apply not_elem_of_cons in Hs as [Hne Hs].
  apply IH; [by apply force_remove_wf|done| |done|by apply Hgood_remove].
  apply Forall_forall. intros d' Hd'. apply Hgood_remove; [done|done| |set_solver].
  by eapply Forall_forall in Hds.
Qed.

Lemma loop_inv_drop subs w : loop_inv subs w →
  loop_inv (kept w subs) (foldl force_remove w (dropped w subs)).
Proof.
  intros (Hw & Hh & Hs & Hnd & Hgd).
  destruct (force_remove_all (dropped w subs) w Hw) as (Hw' & Hg & Hl & _).
  split_and!; [done| | |by apply NoDup_filter|].
  - apply Forall_forall. intros s [_ Hin]%list_elem_of_filter.
    rewrite Hl. by eapply Forall_forall in Hh.
  - intros s Hin. destruct (Hs s Hin) as [Hi|?]; [|right; auto].
    destruct (unsub_flag w s.2) eqn:Hf.
    + right. apply Hg. left. by apply list_elem_of_filter.
    + left. by apply list_elem_of_filter.
  - rewrite Forall_forall in Hgd. apply Forall_forall. intros s [Hf Hin]%list_elem_of_filter.
    destruct (Hgd s Hin). split; [done|].
    apply good_force_remove_all; [done|by apply NoDup_filter| | |done].
    + apply Forall_forall. intros d [_ Hd]%list_elem_of_filter. by apply Hgd.
    + intros [Hf' _]%list_elem_of_filter. congruence.
Qed.

Lemma loop_inv_calls subs n w : loop_inv subs w → loop_inv subs (set_zmqCalls n w).
Proof.
  intros (Hw & ? & ? & ? & Hg). split_and!; [by apply (wf_same w)|done|done|done|].
  eapply Forall_impl; [exact Hg|]. intros s [??]. auto.
Qed.

Lemma loop_inv_settled subs w : loop_inv subs w → ∀ s, s ∈ all → settled (foldl give_back w subs) s.
Proof.
  intros (_ & _ & Hs & _). apply settled_end. intros s Hin. destruct (Hs s Hin); [by left|right; by left].
Qed.

Lemma give_back_max subs w : maxTimeoutMillis (foldl give_back w subs) = maxTimeoutMillis w.
Proof. revert w. induction subs as [|s subs IH]; intros w; [done|]. simpl. by rewrite IH. Qed.

Lemma wp_endCurrentPolls subs (Qp : unit → W → Prop) E w :
  Qp () (foldl give_back w subs) → wp (endCurrentPolls subs) Qp E w.
Proof. unfold wp. by rewrite endCurrentPolls_eq. Qed.

Lemma wp_zmq_poll items (Qp : Z → W → Prop) (E : exn → W → Prop) subs w :
  loop_inv subs w →
  (∀ n w', loop_inv subs w' → (n ≠ 0 → ∃ l, l ∈ items ∧ item_ready w' l = true) → Qp n w') →
  (∀ what w', failing sys what → loop_inv subs w' → E (ZmqError what) w') →
  (∀ w', loop_inv subs w' → forallb (item_open w') items = false →
     E (UndefinedBehaviour "poll on a closed socket") w') →
  wp (zmq_poll sys items) Qp E w.
Proof.
  intros Hinv HQ HZ HU. unfold zmq_poll. do 3 wp_step. apply wp_zcall.
  - do 4 wp_step. apply (loop_inv_calls _ (zmqCalls w + 1)), (loop_inv_others _ (zmqCalls w)) in Hinv.
    destruct (forallb _ _) eqn:Ho; wp_steps; [|by apply HU]. apply HQ; [done|]. intros Hne.
    destruct (filter _ items) as [|l ls] eqn:Hl; [done|]. exists l.
    assert (l ∈ filter (λ l, item_ready (others sys (zmqCalls w) (set_zmqCalls (zmqCalls w + 1) w)) l = true) items)
      as [??]%list_elem_of_filter by (rewrite Hl; by left). done.
  - intros what Hf. apply HZ; [by exists (zmqCalls w)|]. apply loop_inv_calls, Hinv.
Qed.

(** How the loop ends after [m] milliseconds.  By itself, when every subscription
    was removed or the time limit of the server is reached; or to receive, when the
    time is over before that limit or a subscription has something to read. *)
Definition loop_post subs (t r : Z) (again : bool) (x : LoopExit) w : Prop :=
  match x with
  | Returned m a e => r ≤ m ≤ r + t ∧
      (a = again ∧ (∀ s, s ∈ all → gone w s) ∨ a = true ∧ maxTimeoutMillis w ≤ m) ∧
      ∀ s, s ∈ all → settled w s
  | Finished m subs' e => r ≤ m ≤ r + t ∧
      (m = r + t ∧ (m = 0 ∨ m < maxTimeoutMillis w) ∨ ∃ s, s ∈ subs' ∧ item_ready w s.2 = true) ∧
      loop_inv subs' w ∧ subs' `sublist_of` subs
  end.

(** The exceptions of the loop: a failed ZeroMQ call, after which everything is
    settled, or the poll of a socket that another thread closed. *)
Definition loop_exn_post (e : exn) w : Prop :=
  (∃ what, e = UserException 18547 what ∧ failing sys what ∧ ∀ s, s ∈ all → settled w s) ∨
  (e = UndefinedBehaviour "poll on a closed socket" ∧
   ∃ s, s.1 ∈ ids ∧ good w s ∧ item_open w s.2 = false).

Lemma wp_poll_loop fuel subs errors t r again w :
  loop_inv subs w → 0 ≤ t → (Z.to_nat t < fuel)%nat → Z.of_nat (length subs) < size_t_mod →
  r = 0 ∨ r < maxTimeoutMillis w →
  wp (poll_loop sys fuel subs.*2 subs errors t r (Z.min maxPollInterval t) again)
    (loop_post subs t r again) loop_exn_post w.
Proof.
  revert subs errors t r w. induction fuel as [|fuel IH]; intros subs errors t r w Hinv Ht Hf Hsz Hr;
    [lia|]. cbn [poll_loop]. destruct (0 <? t) eqn:Htp; simpl negb; cbv iota.
  2:{ wp_steps. split_and!; [lia|lia| |done|done]. left. split; [lia|done]. }
  apply Z.ltb_lt in Htp. do 2 wp_step. eapply (wp_zmq_poll _ _ _ subs); [done| | |].
  - intros n w1 Hinv1 Hready. destruct (Z.eqb_spec n 0) as [_|Hn]; simpl negb; cbv iota.
    2:{ wp_steps. split_and!; [lia|lia| |done|done]. right.
        destruct (Hready Hn) as (l & (s & -> & Hs)%list_elem_of_fmap & Hl). by exists s. }
    wp_step. unfold wp at 1. pose proof Hinv1 as (Hw1 & Hh1 & _).
    rewrite drop_unsubscribed_filter by done.
    assert (loop_inv (kept w1 subs) (foldl force_remove w1 (dropped w1 subs))) as Hinv2
      by by apply loop_inv_drop.
    assert (kept w1 subs `sublist_of` subs) as Hsub by apply sublist_filter.
    set (w2 := foldl force_remove w1 _) in *. rewrite length_fmap.
    destruct (length (kept w1 subs) =? 0)%nat eqn:Hlen.
    + wp_steps. apply Nat.eqb_eq, nil_length_inv in Hlen.
      assert (∀ s, s ∈ all → gone w2 s) as Hgone.
      { intros s Hin. destruct Hinv2 as (_ & _ & Hs2 & _). rewrite Hlen in Hs2.
        destruct (Hs2 s Hin) as [?%elem_of_nil|?]; done. }
      split_and!; [lia|lia|by left|]. intros s Hin. left. auto.
    + set (c := Z.min maxPollInterval t).
      assert (0 < c ≤ t) as Hc by (unfold c, maxPollInterval; lia).
      do 2 wp_step. destruct (Z.leb_spec (maxTimeoutMillis w2) (r + c)) as [Hmax|Hmax].
      * wp_step. apply wp_endCurrentPolls. wp_steps. split_and!; [lia|lia| |].
        -- right. split; [done|]. rewrite give_back_max. lia.
        -- by apply loop_inv_settled.
      * eapply wp_mono; [| |apply (IH (kept w1 subs)); [done|lia|lia| |by right]].
        -- intros [m a e|m subs' e] w3; simpl; [naive_solver lia|].
           intros (? & Hend & ? & Hsub'). split_and!; [lia|lia| |done|by etrans].
           destruct Hend as [[-> ?]|?]; [left; split; [lia|done]|by right].
        -- done.
        -- apply sublist_length in Hsub. lia.
  - intros what w1 Hfail Hinv1. do 1 wp_step. apply wp_endCurrentPolls. wp_steps.
    left. exists what. split_and!; [done|done|]. by apply loop_inv_settled.
  - intros w1 (_ & _ & _ & _ & Hg1) Hopen. right. split; [done|].
    apply not_true_iff_false in Hopen. rewrite forallb_forall in Hopen.
    rewrite Forall_forall in Hg1.
    destruct (decide (Exists (λ s, item_open w1 s.2 = false) subs)) as [Hex|Hno].
    + apply Exists_exists in Hex as (s & Hin & Ho). exists s. naive_solver.
    + destruct Hopen. intros l Hl. apply list_elem_of_In, list_elem_of_fmap in Hl as (s & -> & Hin).
      apply not_false_iff_true. intros Ho. apply Hno, Exists_exists. eauto.
Qed.
End loop.

(** ** Receiving keeps the table and the flags *)

Definition use_state w : list (OID * nat) * list Z := (subscriptions w, inUse <$> heap w).

Lemma settled_use w w' s : use_state w = use_state w' → settled w s → settled w' s.
Proof.
  intros [= Hs Hu] [Hg|Hf]; [left; unfold gone; by rewrite <-Hs|right].
  intros i Hi. assert ((inUse <$> heap w) !! s.2 = Some (inUse i)) as Hl
    by (rewrite Hu, list_lookup_fmap, Hi; done).
  apply list_lookup_fmap_Some in Hl as (i' & Heq & Hi'). rewrite Heq. by apply Hf.
Qed.

Lemma preserves_use_recv l st : preserves (λ w, use_state w = st) (recv_dontwait sys l).
Proof.
  unfold recv_dontwait. apply preserves_bind; [|intros _].
  - intros w Hw. by apply wp_zcall.
  - preserves_auto. apply preserves_modify. intros w Hw. rewrite <-Hw.
    unfold use_state. simpl. by rewrite list_fmap_alter_inv.
Qed.

Lemma preserves_use_loop fuel id l (q : Q) st :
  preserves (λ w, use_state w = st) (recv_loop sys fuel id l q).
Proof.
  pose proof (λ l, preserves_use_recv l st). revert q.
  induction fuel as [|fuel IH]; intros q; cbn [recv_loop]; unfold recv_rest, recv_wait; preserves_auto.
Qed.

(** After [recvMessages] returns, every subscription it was given is free. *)
Lemma wp_recvMessages_settled (all subs : list (OID * nat)) errors w :
  (∀ s, s ∈ all → s ∈ subs ∨ settled w s) →
  wp (recvMessages (Q:=Q) sys subs errors) (λ _ w', ∀ s, s ∈ all → settled w' s) (λ _ _, True) w.
Proof.
  unfold recvMessages. generalize (pq_new (Q:=Q)) as q. revert errors w.
  induction subs as [|x subs IH]; intros errors w q Hs; cbn [foldM].
  { apply wp_ret. intros s Hin. destruct (Hs s Hin) as [?%elem_of_nil|?]; done. }
  wp_step. unfold recv_sub at 1. do 3 wp_step. eapply wp_mono; [| |by eapply (preserves_use_loop _ x.1 x.2 q (use_state w))]; [|done].
  intros [q' err] w1 Hu. cbv beta. wp_step. unfold wp at 1. rewrite checkinSocket_eq. wp_steps.
  apply IH. intros s Hin. destruct (Hs s Hin) as [[->|?]%elem_of_cons|Hset]; [|by left|].
  - right. right. apply give_back_free. by left.
  - right. apply (settled_use w w1) in Hset as [Hg|Hf]; [left|right|done].
    + exact Hg.
    + apply give_back_free. by right.
Qed.

(** ** The whole poll *)

Definition effective_timeout w (timeout : Z) : Z :=
  if (maxTimeoutMillis w <? timeout) || (timeout <? 0) then maxTimeoutMillis w else timeout.

Lemma checked_out_ids w ids s : s ∈ checked_out w ids → s.1 ∈ ids ∧ checkout w s.1 = inr s.2.
Proof.
  unfold checked_out. rewrite list_elem_of_omap. intros (id & Hin & Heq).
  destruct (checkout w id) eqn:Hc; [done|]. by simplify_eq/=.
Qed.

Lemma checked_out_NoDup w ids : NoDup ids → NoDup (checked_out w ids).
Proof.
  intros Hnd. apply (NoDup_fmap_1 fst). induction Hnd as [|id ids Hid _ IH]; [constructor|].
  unfold checked_out. simpl. destruct (checkout w id); [done|]. simpl. constructor; [|done].
  intros (s & -> & [Hs _]%checked_out_ids)%list_elem_of_fmap. done.
Qed.

Lemma checked_out_length w ids : (length (checked_out w ids) ≤ length ids)%nat.
Proof.
  unfold checked_out. induction ids as [|id ids IH]; [done|]. cbn [omap list_omap].
  destruct (checkout w id); cbn [length]; lia.
Qed.

(** The state after [getSubscriptions]: the taken subscriptions are marked. *)
Definition taken w ids : W := foldl take_one w (checked_out w ids).

Lemma take_all_facts subs w : world_wf w →
  world_wf (foldl take_one w subs) ∧ subscriptions (foldl take_one w subs) = subscriptions w
  ∧ length (heap (foldl take_one w subs)) = length (heap w)
  ∧ maxTimeoutMillis (foldl take_one w subs) = maxTimeoutMillis w.
Proof.
  revert w. induction subs as [|s subs IH]; intros w Hw; [done|]. simpl.
  destruct (IH _ (take_one_wf w s Hw)) as (? & -> & -> & ->). split_and!; try done.
  simpl. by rewrite length_alter.
Qed.

(** A poll in two parts: taking the subscriptions and waiting, then receiving. *)
Definition poll_waits (ids : list OID) (timeout millis : Z) (again : bool) (errors : list (OID * string)) :
    M W LoopExit :=
  '(items, subs, errors) ← getSubscriptions ids errors;
  if (length items =? 0)%nat then mret (Returned millis again errors)
  else
    max ← gets maxTimeoutMillis;
    let timeout := if (max <? timeout) || (timeout <? 0) then max else timeout in
    poll_loop sys (S (Z.to_nat timeout)) items subs errors timeout 0 (Z.min maxPollInterval timeout) again.

Definition poll_receives (again : bool) (x : LoopExit) : M W (PollResult Q) :=
  match x with
  | Returned millis again errors => mret (mkPoll pq_new millis again errors)
  | Finished pollRuntime subs errors =>
      '(messages, errors) ← recvMessages sys subs errors; mret (mkPoll messages pollRuntime again errors)
  end.

Lemma poll_split ids timeout millis again errors w :
  poll (Q:=Q) sys ids timeout millis again errors w
  = (x ← poll_waits ids timeout millis again errors; poll_receives again x) w.
Proof.
  unfold poll, poll_waits, mbind, M_bind, gets.
  destruct (getSubscriptions ids errors w) as [[[[items subs] e]|e] w1]; [|done].
  by destruct (length items =? 0)%nat.
Qed.

Section whole.
Context (ids : list OID) (w : W).
Hypothesis Hwf : world_wf w.
Hypothesis Hnd : NoDup ids.
Hypothesis Hlen : Z.of_nat (length ids) < size_t_mod.
Hypothesis Hmax : 0 ≤ maxTimeoutMillis w.
Hypothesis Hrely : rely ids.
Let subs := checked_out w ids.
Context (good : W → OID * nat → Prop).
Hypothesis Hgood_calls : ∀ n w s, good w s → good (set_zmqCalls n w) s.
Hypothesis Hgood_others : ∀ n w s, s.1 ∈ ids → good w s → good (others sys n w) s.
Hypothesis Hgood_remove : ∀ w d s,
  world_wf w → good w d → good w s → d ≠ s → good (force_remove w d) s.
Hypothesis Hgood_taken : ∀ s, s ∈ subs → good (taken w ids) s.

Lemma taken_inv : loop_inv ids subs good subs (taken w ids).
Proof.
  destruct (take_all_facts subs w Hwf) as (Hw & Hs & Hh & _).
  split_and!; [done| |by left|by apply checked_out_NoDup|].
  - apply Forall_forall. intros s [_ Hc]%checked_out_ids. unfold taken. fold subs. rewrite Hh.
    apply checkout_live in Hc as (_ & i & Hi & _); [|done]. by apply lookup_lt_Some in Hi.
  - apply Forall_forall. intros s Hin. split; [by apply checked_out_ids in Hin as []|auto].
Qed.

(** The part of a poll that waits: it runs the waiting loop to its end. *)
Lemma wp_poll_waits timeout millis again errors :
  subs ≠ [] →
  wp (poll_waits ids timeout millis again errors)
    (loop_post ids subs good subs (effective_timeout w timeout) 0 again)
    (loop_exn_post ids subs good) w.
Proof.
  intros Hne. unfold poll_waits. wp_step. unfold wp at 1. rewrite getSubscriptions_eq by done.
  fold subs. rewrite length_fmap. destruct (length subs =? 0)%nat eqn:Hl.
  { by apply Nat.eqb_eq, nil_length_inv in Hl. }
  do 2 wp_step. destruct (take_all_facts subs w Hwf) as (_ & _ & _ & Hm). rewrite Hm. fold (effective_timeout w timeout).
  assert (0 ≤ effective_timeout w timeout) by (unfold effective_timeout; case_match; lia).
  apply (wp_poll_loop ids subs Hrely); try done.
  - intros s Hin. by apply checked_out_ids in Hin as [].
  - apply taken_inv.
  - lia.
  - pose proof (checked_out_length w ids). unfold subs. lia.
  - by left.
Qed.

(** How a poll runs: nothing to poll, the loop returns by itself, or the loop
    finishes and the messages are received. *)
Lemma wp_poll timeout millis again errors (Qp : PollResult Q → W → Prop) E :
  (subs = [] → Qp (mkPoll pq_new millis again (checkout_errors w errors ids)) w) →
  (∀ m a e w', subs ≠ [] →
     poll_waits ids timeout millis again errors w = (Ok (Returned m a e), w') →
     loop_post ids subs good subs (effective_timeout w timeout) 0 again (Returned m a e) w' →
     Qp (mkPoll pq_new m a e) w') →
  (∀ m subs' e w', subs ≠ [] →
     poll_waits ids timeout millis again errors w = (Ok (Finished m subs' e), w') →
     loop_post ids subs good subs (effective_timeout w timeout) 0 again (Finished m subs' e) w' →
     wp (recvMessages sys subs' e) (λ r, Qp (mkPoll r.1 m again r.2)) E w') →
  (∀ e w', loop_exn_post ids subs good e w' → E e w') →
  wp (poll sys ids timeout millis again errors) Qp E w.
Proof.
  intros HN HR HF HE. unfold wp at 1. rewrite poll_split. fold (wp (x ← poll_waits ids timeout millis again errors; poll_receives again x) Qp E w).
  destruct (decide (subs = [])) as [Hnil|Hne].
  { wp_step. unfold wp at 1. unfold poll_waits. erewrite bind_Ok by by apply getSubscriptions_eq.
    fold subs. rewrite Hnil. apply wp_ret, HN, Hnil. }
  wp_step. eapply wp_mono; [| |apply wp_conj; [by apply wp_poll_waits|apply wp_run]].
  - intros [m a e|m subs' e] w' [Hpost Hrun]; cbn [poll_receives].
    + by apply wp_ret, HR.
    + wp_step. eapply wp_mono; [| |by apply HF]; [|done]. intros [q e'] w2 HQ. by apply wp_ret.
  - intros e w' [Hpost _]. by apply HE.
Qed.
End whole.
End safe.
