(* ===== verification/PubSubDeliver.v ===== *)
(** * What a poll hands out

    For subscriptions whose sockets hold publications, the messages a poll
    returns are exactly what the filters and projections make of them, every
    poll ends by returning or by one of two named exceptions, and a subscription
    whose messages are incomplete is reported. *)

From S2P Require Import Prelude Monad StdMap Bytes Oid Doubles Bson BsonBytes HostPort Zmq.
From S2P Require Import World PubSub PubSubInv PubSubPoll PubSubSafe.

(** The socket holds these publications and nothing else. *)
Definition sock_pubs (s : socket_t) (pubs : list publication) : Prop :=
  partial s = [] ∧ inbox s = pub_frames <$> pubs ∧ Forall pub_wf pubs.

(** Different publications are different on the wire. *)
Lemma pub_frames_inj p p' : pub_wf p → pub_wf p' → pub_frames p = pub_frames p' → p = p'.
Proof.
  intros (Hc & Ho & Ht) (Hc' & Ho' & Ht') He. destruct p as [c o t], p' as [c' o' t'].
  pose proof (f_equal (λ l, default "" (l !! 0%nat)) He) as Hce.
  pose proof (f_equal (λ l, default "" (l !! 1%nat)) He) as Hoe.
  pose proof (f_equal (λ l, default "" (l !! 2%nat)) He) as Hte.
  cbn [pub_frames lookup list_lookup default from_option id pub_channel pub_message pub_time] in *. f_equal.
  - assert (String.length c = String.length c') as Hl.
    { apply (f_equal String.length) in Hce. rewrite !appendStr_length in Hce. congruence. }
    rewrite <-(take_channel c), <-(take_channel c'). by rewrite Hce, Hl.
  - by apply objdata_inj.
  - apply (read_time t) in Ht. apply (read_time t') in Ht'. rewrite Hte in Ht. congruence.
Qed.

Lemma pub_frames_prefix old pubs : Forall pub_wf old → Forall pub_wf pubs →
  (pub_frames <$> old) `prefix_of` (pub_frames <$> pubs) → old `prefix_of` pubs.
Proof.
  intros Hold. revert pubs. induction Hold as [|p old Hp Hold IH]; intros pubs Hpubs Hpre; [apply prefix_nil|].
  destruct pubs as [|p' pubs]; [by apply prefix_nil_not in Hpre|].
  apply Forall_cons in Hpubs as [Hp' Hpubs]. rewrite !fmap_cons in Hpre.
  pose proof (prefix_cons_inv_1 _ _ _ _ Hpre) as He%pub_frames_inj; [|done|done]. subst p'.
  apply prefix_cons, IH; [done|]. by eapply prefix_cons_inv_2.
Qed.

Section deliver.
Context {Mt Pt Q : Type} `{MatcherOps Mt} `{ProjectionOps Pt} `{PriorityQueueLaws Q}.
Context (sys : System Mt Pt).
Abbreviation W := (World Mt Pt).
Implicit Types (w : W) (i : SubscriptionInfo Mt Pt) (l : nat).

(** What a subscription hands out of a list of publications. *)
Definition handed i (id : OID) (pubs : list publication) : list SubscriptionMessage :=
  omap (λ p, match receive i id p with Ok o => o | Throw _ => None end) pubs.

Lemma push_all_elems i id (q : Q) pubs :
  pq_elems (foldl (push_one i id) q pubs) ≡ₚ handed i id pubs ++ pq_elems q.
Proof.
  revert q. induction pubs as [|p pubs IH]; intros q; [done|]. simpl. rewrite IH.
  unfold push_one. destruct (receive i id p) as [[m|]|]; try done.
  rewrite pq_push_elems. simpl. by rewrite <-Permutation_middle.
Qed.

(** [s] is an open subscription that holds the publications [pubs]. *)
Definition holds w (s : OID * nat) (pubs : list publication) : Prop :=
  ∃ i, heap w !! s.2 = Some i ∧ isopen (sock i) = true ∧ sock_pubs (sock i) pubs.

Definition handed_at w (pubs : nat → list publication) (s : OID * nat) (k : nat) :
    list SubscriptionMessage :=
  match heap w !! s.2 with Some i => handed i s.1 (take k (pubs s.2)) | None => [] end.

(** Receiving for [s] can fail: a ZeroMQ call does. *)
Definition can_fail w (pubs : nat → list publication) (s : OID * nat) : Prop :=
  ∃ i what, heap w !! s.2 = Some i ∧ failed sys i s.1 (pubs s.2) what.

(** Every subscription either had all its publications read or is reported. *)
Definition complete w (pubs : nat → list publication) (errors : list (OID * string))
    (subs : list (OID * nat)) (ks : list nat) : Prop :=
  Forall2 (λ s k, k = length (pubs s.2) ∨ s.1 ∈ errors.*1 ∧ can_fail w pubs s) subs ks.

Lemma pending_enough s i pubs : sock i = s → sock_pubs s pubs → (length pubs < S (pending i))%nat.
Proof.
  intros <- (Hp & Hi & _). unfold pending. rewrite Hi, <-list_fmap_compose.
  enough (length pubs ≤ sum_list ((λ m : list string, 1 `max` length m)%nat ∘ pub_frames <$> pubs))%nat by lia.
  clear. induction pubs as [|p pubs IH]; [done|]. unfold fmap in *. simpl. lia.
Qed.

(** The subscription objects as [receive] sees them. *)
Lemma receive_flags i j id p :
  filter_ i = filter_ j → projection_ i = projection_ j → receive i id p = receive j id p.
Proof. unfold receive. by intros -> ->. Qed.

(** The loop body for one subscription. *)
Lemma wp_recv_sub pubs s i (q : Q) errors w :
  heap w !! s.2 = Some i → isopen (sock i) = true → sock_pubs (sock i) pubs →
  wp (recv_sub sys (q, errors) s)
    (λ r w', ∃ k, pq_elems r.1 ≡ₚ handed i s.1 (take k pubs) ++ pq_elems q ∧
       (k = length pubs ∧ r.2 = errors ∧ holds w' s [] ∨
        r.2 = map_insert s.1 "Error receiving messages from zmq socket." errors ∧
        ∃ what, failed sys i s.1 pubs what) ∧
       ∀ l, l ≠ s.2 → heap w' !! l = heap w !! l)
    (λ e w', ∃ p, p ∈ pubs ∧ receive i s.1 p = Throw e) w.
Proof.
  intros Hi Ho Hp. unfold recv_sub. do 2 wp_step. rewrite Hi. wp_step.
  pose proof Hp as (Hpa & Hib & Hpw).
  eapply wp_mono; [| |eapply (wp_recv_loop sys pubs _ s.1 s.2 i (sock i) q w);
    [done|done|done|done|done|done|by eapply pending_enough]].
  - intros [q' err] w1 (k & ib & pa & n & -> & Hq & Herr). cbv beta. wp_step.
    unfold wp at 1. rewrite checkinSocket_eq. wp_steps. simpl fst in *. simpl snd in *.
    exists k. split_and!.
    + by rewrite Hq, push_all_elems.
    + destruct err as [what|]; [right; eauto|left]. destruct Herr as (-> & -> & ->).
      split_and!; [done|done|]. unfold holds. simpl.
      rewrite !list_lookup_alter_eq, Hi. eexists. split_and!; [done|done|]. split_and!; [done|done|constructor].
    + intros l Hl. simpl. by rewrite !list_lookup_alter_ne.
  - intros e w' (p & ib & pa & n & _ & Hin & Hr). by exists p.
Qed.

Lemma wp_recv_subs pubs subs (q : Q) errors w0 w :
  NoDup subs.*2 → Forall (λ s, holds w s (pubs s.2)) subs →
  (∀ s, s ∈ subs → heap w0 !! s.2 = heap w !! s.2) →
  wp (foldM (recv_sub sys) (q, errors) subs)
    (λ r w', ∃ ks, pq_elems r.1 ≡ₚ concat (zip_with (handed_at w pubs) subs ks) ++ pq_elems q ∧
       complete w pubs r.2 subs ks ∧ errors.*1 ⊆ r.2.*1 ∧
       (∀ l, l ∉ subs.*2 → heap w' !! l = heap w0 !! l) ∧
       ((∀ s, s ∈ subs → ¬ can_fail w pubs s) → r.2 = errors ∧ ∀ s, s ∈ subs → holds w' s []))
    (λ e w', ∃ s i p, s ∈ subs ∧ heap w !! s.2 = Some i ∧ p ∈ pubs s.2 ∧ receive i s.1 p = Throw e) w0.
Proof.
  intros Hnd Hh. revert q errors w0.
  induction subs as [|s subs IH]; intros q errors w0 Hw0; cbn [foldM].
  { apply wp_ret. exists []. split_and!; [done|constructor|done|done|set_solver]. }
  apply Forall_cons in Hh as [(i & Hi & Ho & Hp) Hh]. apply NoDup_cons in Hnd as [Hs Hnd].
  wp_step. eapply wp_mono; [| |apply (wp_recv_sub (pubs s.2) s i);
    [rewrite Hw0 by apply list_elem_of_here; exact Hi|exact Ho|exact Hp]].
  - intros [q' errors'] w1 (k & Hq & Herr & Hw1). cbv beta. simpl in Hq, Herr.
    eapply wp_mono; [| |apply (IH Hnd Hh q' errors' w1)].
    + intros [q2 e2] w2 (ks & Hq2 & Hc & Hsub & Hrest & Hno). simpl in *.
      assert (errors.*1 ⊆ errors'.*1 ∧ (k = length (pubs s.2) ∨ s.1 ∈ errors'.*1 ∧ can_fail w pubs s))
        as [Hmono Hk].
      { destruct Herr as [(-> & -> & _)|(-> & what & Hf)]; [by auto|].
        split; [intros x; apply map_insert_keys_mono|right]. split; [apply map_insert_key|].
        by exists i, what. }
      exists (k :: ks). split_and!.
      * rewrite Hq2, Hq. cbn [zip_with concat]. unfold handed_at at 2. rewrite Hi.
        rewrite !(assoc_L (++)). f_equiv. apply Permutation_app_comm.
      * constructor; [|done]. destruct Hk as [?|[? ?]]; [by left|right; auto].
      * by etrans.
      * intros l Hl. apply not_elem_of_cons in Hl as [??]. rewrite Hrest by done. by apply Hw1.
      * intros Hn. destruct Hno as [-> Hno]; [intros s' Hs'; apply Hn; by right|].
        destruct Herr as [(_ & -> & He)|(_ & what & Hf)].
        -- split; [done|]. intros s' [->|Hs']%elem_of_cons; [|auto].
           destruct He as (j & Hj & He). exists j. by rewrite Hrest.
        -- destruct (Hn s); [by left|]. by exists i, what.
    + intros e w' (s' & i' & p & Hin & ?). exists s', i', p. split; [by right|done].
    + intros s' Hin. rewrite Hw1; [apply Hw0; by right|].
      intros Heq. apply Hs, list_elem_of_fmap. eauto.
  - intros e w' (p & Hin & Hr). exists s, i, p. split; [by left|done].
Qed.

(** What a poll reads: per subscription a prefix of its publications, all of
    them unless the subscription is reported. *)
Lemma wp_recvMessages pubs subs errors w :
  NoDup subs.*2 → Forall (λ s, holds w s (pubs s.2)) subs →
  wp (recvMessages (Q:=Q) sys subs errors)
    (λ r w', ∃ ks, pq_elems r.1 ≡ₚ concat (zip_with (handed_at w pubs) subs ks) ∧
       complete w pubs r.2 subs ks ∧ errors.*1 ⊆ r.2.*1 ∧
       ((∀ s, s ∈ subs → ¬ can_fail w pubs s) → r.2 = errors ∧ ∀ s, s ∈ subs → holds w' s []))
    (λ e w', ∃ s i p, s ∈ subs ∧ heap w !! s.2 = Some i ∧ p ∈ pubs s.2 ∧ receive i s.1 p = Throw e) w.
Proof.
  intros Hnd Hh. eapply wp_mono; [| |by apply (wp_recv_subs pubs subs pq_new errors w w)]; [|done].
  intros r w' (ks & Hq & Hc & Hsub & _ & Hno). exists ks.
  split; [|done]. by rewrite Hq, pq_new_elems, app_nil_r.
Qed.

(** ** A poll that does not wait *)

Lemma taken_lookup subs w l :
  heap (foldl take_one w subs) !! l
  = (if decide (l ∈ subs.*2) then set_inUse 1 else id) <$> heap w !! l.
Proof.
  revert w. induction subs as [|s subs IH]; intros w.
  { simpl. by destruct (heap w !! l). }
  cbn [foldl]. rewrite IH, fmap_cons. simpl (heap (take_one w s)).
  destruct (decide (l = s.2)) as [->|Hne].
  - rewrite list_lookup_alter_eq. destruct (heap w !! s.2); [|done].
    repeat case_decide; set_solver.
  - rewrite list_lookup_alter_ne by done. repeat case_decide; set_solver.
Qed.

Lemma holds_taken subs w s pubs : holds w s pubs → holds (foldl take_one w subs) s pubs.
Proof.
  intros (i & Hi & Ho & Hp). unfold holds. rewrite taken_lookup, Hi. simpl.
  eexists. split; [done|]. by case_match.
Qed.

Lemma handed_at_taken subs w pubs s k :
  handed_at (foldl take_one w subs) pubs s k = handed_at w pubs s k.
Proof.
  unfold handed_at. rewrite taken_lookup. destruct (heap w !! s.2); simpl; [|done]. by case_match.
Qed.

Lemma can_fail_taken subs w pubs s : can_fail (foldl take_one w subs) pubs s → can_fail w pubs s.
Proof.
  unfold can_fail. rewrite taken_lookup. destruct (heap w !! s.2) as [i|]; simpl; [|naive_solver].
  intros (i' & what & [= <-] & Hf). exists i, what. split; [done|]. by case_match.
Qed.

Lemma checked_out_locs w ids : world_wf w → NoDup ids → NoDup (checked_out w ids).*2.
Proof.
  intros Hw Hnd. pose proof (checked_out_NoDup w ids Hnd) as Hc.
  apply NoDup_fmap_2_strong; [|done]. intros s1 s2 H1' H2' Heq.
  apply checked_out_ids in H1' as [_ H1'], H2' as [_ H2'].
  apply checkout_live in H1' as [H1' _], H2' as [H2' _]; [|done|done].
  destruct s1 as [a la], s2 as [b lb]. simpl in *. subst. f_equal. by apply (find_inj w a b lb).
Qed.

(** With timeout 0 nothing is waited for: the poll is [getSubscriptions]
    followed by [recvMessages]. *)
Lemma poll_zero ids millis again errors w : world_wf w → NoDup ids → 0 ≤ maxTimeoutMillis w →
  checked_out w ids ≠ [] →
  poll (Q:=Q) sys ids 0 millis again errors w
  = ('(messages, errors) ← recvMessages sys (checked_out w ids) (checkout_errors w errors ids);
     mret (mkPoll messages 0 again errors)) (taken w ids).
Proof.
  intros Hw Hnd Hmax Hne. unfold poll. erewrite bind_Ok by by apply getSubscriptions_eq.
  cbv beta iota. rewrite length_fmap. destruct (length _ =? 0)%nat eqn:Hl.
  { by apply Nat.eqb_eq, nil_length_inv in Hl. }
  erewrite bind_Ok by done. cbv beta.
  destruct (take_all_facts (checked_out w ids) w Hw) as (_ & _ & _ & ->).
  rewrite (proj2 (Z.ltb_ge _ 0)) by lia. done.
Qed.

(** ** Polls that wait *)

(** [s] is in the table and holds publications only. *)
Definition waiting w (s : OID * nat) : Prop :=
  map_find s.1 (subscriptions w) = Some s.2 ∧ ∃ pubs, holds w s pubs.

(** What happens to a subscription object that stays: messages are added to its
    socket, its filter and its projection stay as they are. *)
Definition grown w v (s : OID * nat) : Prop :=
  ∀ i, heap w !! s.2 = Some i → ∃ j, heap v !! s.2 = Some j ∧
    filter_ j = filter_ i ∧ projection_ j = projection_ i ∧ inbox (sock i) `prefix_of` inbox (sock j).

(** Other threads may deliver publications to the polled subscriptions but do
    not remove them. *)
Definition polite (ids : list OID) : Prop :=
  ∀ n w s, s.1 ∈ ids → waiting w s → waiting (others sys n w) s ∧ grown w (others sys n w) s.

Lemma grown_same w v s : heap v !! s.2 = heap w !! s.2 → grown w v s.
Proof. intros He i Hi. exists i. by rewrite He. Qed.

Lemma grown_trans w v u s : grown w v s → grown v u s → grown w u s.
Proof.
  intros Hwv Hvu i Hi. destruct (Hwv i Hi) as (j & Hj & Hf & Hp & Hb).
  destruct (Hvu j Hj) as (k & Hk & Hf' & Hp' & Hb'). exists k.
  split_and!; [done|congruence|congruence|by etrans].
Qed.

(** [s] still waits, and is what it was in [w] apart from what arrived since. *)
Definition still_waiting w v (s : OID * nat) : Prop := waiting v s ∧ grown w v s.

Lemma still_waiting_others ids w n v s : polite ids → s.1 ∈ ids →
  still_waiting w v s → still_waiting w (others sys n v) s.
Proof. intros Hpol Hin [Hw Hg]. destruct (Hpol n v s Hin Hw). split; [done|by eapply grown_trans]. Qed.

Lemma waiting_remove w d s : world_wf w → waiting w d → waiting w s → d ≠ s →
  waiting (force_remove w d) s.
Proof.
  intros Hw [Hd _] [Hs (pubs & i & Hi & Hp)] Hne. unfold force_remove. rewrite Hd.
  assert (d.1 ≠ s.1) as Hne1 by (destruct d, s; simpl in *; congruence).
  assert (d.2 ≠ s.2) as Hne2.
  { intros Heq. rewrite <-Heq in Hs. by apply Hne1, (find_inj w _ _ d.2). }
  split; simpl.
  - rewrite map_find_erase_ne; [done|apply Hw|done].
  - exists pubs, i. split; [|done]. simpl. by rewrite list_lookup_alter_ne.
Qed.

Lemma waiting_taken w ids s : waiting w s → waiting (taken w ids) s.
Proof.
  intros [Hs (pubs & Hp)]. split; [|exists pubs; by apply holds_taken].
  assert (∀ subs (v : W), subscriptions (foldl take_one v subs) = subscriptions v) as Htab.
  { intros subs. induction subs as [|x subs IH]; intros v; [done|]. simpl. by rewrite IH. }
  unfold taken. by rewrite Htab.
Qed.

Lemma still_waiting_remove w v d s : world_wf v → still_waiting w v d → still_waiting w v s → d ≠ s →
  still_waiting w (force_remove v d) s.
Proof.
  intros Hv [Hd _] [Hs Hg] Hne. split; [by apply waiting_remove|]. eapply grown_trans; [done|].
  apply grown_same. unfold force_remove. destruct Hd as [Hd _], Hs as [Hs _]. rewrite Hd. simpl.
  rewrite list_lookup_alter_ne; [done|]. intros He. apply Hne. destruct d as [a la], s as [b lb]. simpl in *. subst.
  f_equal. by apply (find_inj v a b lb).
Qed.

Lemma still_waiting_taken w ids s : waiting w s → still_waiting w (taken w ids) s.
Proof.
  intros Hw. split; [by apply waiting_taken|]. intros i Hi. unfold taken. rewrite taken_lookup, Hi. simpl.
  eexists. split; [done|]. by case_match.
Qed.

(** The publications [pubs] are what [s] held in [w] and what arrived since. *)
Definition arrived w v (s : OID * nat) (pubs : list publication) : Prop :=
  holds v s pubs ∧ ∃ old, holds w s old ∧ old `prefix_of` pubs.

Lemma still_waiting_arrived w v s pubs : waiting w s → grown w v s → holds v s pubs → arrived w v s pubs.
Proof.
  intros [_ (old & i & Hi & Ho & Hs)] Hg Hv. split; [done|]. exists old. split; [by exists i|].
  destruct Hv as (j & Hj & _ & _ & Hjb & Hjw), Hs as (_ & Hib & Hiw).
  destruct (Hg i Hi) as (j' & Hj' & _ & _ & Hpre). assert (j' = j) as -> by congruence.
  rewrite Hib, Hjb in Hpre. by apply pub_frames_prefix.
Qed.

(** What is handed out does not depend on when one looks at the filters. *)
Lemma grown_receive w v s i j : grown w v s → heap w !! s.2 = Some i → heap v !! s.2 = Some j →
  ∀ p, receive j s.1 p = receive i s.1 p.
Proof.
  intros Hg Hi Hj p. destruct (Hg i Hi) as (j' & Hj' & Hf & Hp & _). assert (j' = j) as -> by congruence.
  by apply receive_flags.
Qed.

Lemma grown_handed w v pubs s k : is_Some (heap w !! s.2) → grown w v s → handed_at v pubs s k = handed_at w pubs s k.
Proof.
  intros [i Hi] Hg. destruct (Hg i Hi) as (j & Hj & _). unfold handed_at. rewrite Hi, Hj. unfold handed.
  apply list_omap_ext, Forall_Forall2_diag, Forall_forall. intros p _. by rewrite (grown_receive w v s i j).
Qed.

Lemma grown_can_fail w v pubs s : is_Some (heap w !! s.2) → grown w v s → can_fail v pubs s → can_fail w pubs s.
Proof.
  intros [i Hi] Hg (j & what & Hj & Hf). exists i, what. split; [done|].
  destruct Hf as [?|(p & Hp & Hr)]; [by left|right]. exists p. by rewrite <-(grown_receive w v s i j).
Qed.

Lemma grown_complete w v pubs errors subs ks :
  (∀ s, s ∈ subs → is_Some (heap w !! s.2) ∧ grown w v s) → complete v pubs errors subs ks →
  complete w pubs errors subs ks ∧
  concat (zip_with (handed_at v pubs) subs ks) = concat (zip_with (handed_at w pubs) subs ks).
Proof.
  intros Hs Hc. induction Hc as [|s k subs ks Hk _ IH]; [split; [constructor|done]|].
  destruct (Hs s (list_elem_of_here _ _)) as [Hi Hg].
  destruct IH as [IHc IHh]; [intros x Hx; apply Hs; by right|]. split.
  - constructor; [|done]. destruct Hk as [?|[? Hf]]; [by left|right]. split; [done|by eapply grown_can_fail].
  - cbn [zip_with concat]. by rewrite IHh, (grown_handed w v).
Qed.

Lemma waiting_open w s : waiting w s → item_open w s.2 = true.
Proof. intros [_ (pubs & i & Hi & Ho & _)]. unfold item_open. by rewrite Hi. Qed.

Lemma loop_inv_mono ids all (good good' : W → OID * nat → Prop) subs w : (∀ s, good w s → good' w s) →
  loop_inv ids all good subs w → loop_inv ids all good' subs w.
Proof.
  intros Himp (? & ? & ? & ? & Hg). split_and!; try done.
  eapply Forall_impl; [exact Hg|]. intros s [??]. auto.
Qed.

(** A finished loop leaves subscriptions that [recvMessages] can read. *)
Lemma finished_holds ids all subs w : loop_inv ids all waiting subs w →
  ∃ pubs, NoDup subs.*2 ∧ Forall (λ s, holds w s (pubs s.2)) subs.
Proof.
  intros (Hw & _ & _ & Hnd & Hg). rewrite Forall_forall in Hg.
  assert (NoDup subs.*2) as Hnd2.
  { apply NoDup_fmap_2_strong; [|done]. intros [a la] [b lb] Ha Hb Heq. simpl in Heq. subst.
    destruct (Hg _ Ha) as [_ [Ha' _]], (Hg _ Hb) as [_ [Hb' _]]. f_equal.
    by apply (find_inj w a b lb). }
  assert (∃ pubs : nat → list publication, Forall (λ s, holds w s (pubs s.2)) subs) as [pubs Hp];
    [|by exists pubs].
  clear Hw Hnd. induction subs as [|s subs IH]; [by exists (λ _, [])|].
  simpl in Hnd2. apply NoDup_cons in Hnd2 as [Hs Hnd2].
  destruct IH as [pubs Hp]; [intros; apply Hg; set_solver|done|].
  destruct (Hg s) as [_ [_ (ps & Hps)]]; [set_solver|].
  exists (λ l, if decide (l = s.2) then ps else pubs l). constructor.
  - by rewrite decide_True.
  - eapply Forall_impl; [apply Forall_and; split; [exact Hp|apply Forall_forall; intros x Hx; exact Hx]|].
    simpl. intros x [Hx Hin]. rewrite decide_False; [done|]. intros Heq. apply Hs, list_elem_of_fmap.
    by exists x.
Qed.
End deliver.
