(* ===== verification/PollSpec.v ===== *)
(** * What a poll promises

    The properties of [PubSub::poll] that its callers rely on, from the lemmas
    of PubSubPoll.v, PubSubSafe.v and PubSubDeliver.v. *)

From S2P Require Import Prelude Monad StdMap Bytes Oid Doubles Bson BsonBytes HostPort Zmq World.
From S2P Require Import PubSub PQueue PubSubInv Sample PubSubPoll PubSubSafe PubSubDeliver.

(** What a poll is called with: a set of identifiers that fits a [size_t], and a
    time limit that is not negative. *)
Record poll_pre {Mt Pt} (w : World Mt Pt) (ids : list OID) : Prop := {
  pre_wf : world_wf w;
  pre_ids : NoDup ids;
  pre_len : Z.of_nat (length ids) < size_t_mod;
  pre_max : 0 ≤ maxTimeoutMillis w
}.

Section spec.
Context {Mt Pt Q : Type} `{MatcherOps Mt} `{ProjectionOps Pt} `{PriorityQueueLaws Q}.
Context (sys : System Mt Pt).
Abbreviation W := (World Mt Pt).
Implicit Types (w : W) (i : SubscriptionInfo Mt Pt) (l : nat).

(** C1: Whatever other threads do while the poll waits and whichever ZeroMQ calls
    fail, when the poll ends each subscription it took is gone from the table or
    no longer in use.  The exceptions to this are an exception out of the receive
    phase, which only a filter, a projection or a malformed message raises, and
    the poll of a socket that another thread closed. *)
Theorem poll_settles ids timeout millis again errors w :
  poll_pre w ids → rely sys ids →
  wp (poll (Q:=Q) sys ids timeout millis again errors)
    (λ _ w', ∀ s, s ∈ checked_out w ids → settled w' s)
    (λ e w', (∀ s, s ∈ checked_out w ids → settled w' s) ∨
       (∃ subs errors' w0, recvMessages (Q:=Q) sys subs errors' w0 = (Throw e, w')) ∨
       e = UndefinedBehaviour "poll on a closed socket") w.
Proof.
  intros [Hw Hn Hl Hm] Hr.
  apply (wp_poll sys ids w Hw Hn Hl Hm Hr (λ _ _, True)); try done.
  - intros -> s ?%elem_of_nil. done.
  - by intros m a e w' _ _ (_ & _ & Hs).
  - intros m subs' e w' _ _ (_ & _ & (_ & _ & Hinv & _) & _).
    eapply wp_mono; [| |apply wp_conj; [apply (wp_recvMessages_settled sys (checked_out w ids))|apply wp_run]].
    + intros r w2 [Hs _]. exact Hs.
    + intros e' w2 [_ Hrun]. right. left. by eexists _, _, _.
    + intros s Hin. destruct (Hinv s Hin); [by left|right; by left].
  - intros e w' [(what & _ & _ & Hs)|[-> _]]; [by left|by right; right].
Qed.

(** The exceptions of a poll of subscriptions that nobody removes: 18547, for a
    ZeroMQ call that failed; or what the filter or the projection of a subscription
    throws on a publication that had arrived when the wait was over. *)
Definition poll_throws ids timeout millis again errors w (e : exn) : Prop :=
  (∃ what, e = UserException 18547 what ∧ failing sys what) ∨
  ∃ m subs errors' w0 s i pubs p,
    poll_waits sys ids timeout millis again errors w = (Ok (Finished m subs errors'), w0) ∧
    s ∈ subs ∧ heap w !! s.2 = Some i ∧ arrived w w0 s pubs ∧ p ∈ pubs ∧ receive i s.1 p = Throw e.

(** When and why a poll of some subscriptions returns [r]: [x] is how its wait
    ended, [w0] the state at that moment. *)
Definition poll_timing ids timeout millis again errors w (r : PollResult Q) : Prop :=
  0 ≤ pr_millisPolled r ≤ effective_timeout w timeout ∧
  ∃ x w0, poll_waits sys ids timeout millis again errors w = (Ok x, w0) ∧
  match x with
  | Returned m a _ => pr_millisPolled r = m ∧ pr_pollAgain r = a ∧
      (a = again ∧ (∀ s, s ∈ checked_out w ids → gone w0 s) ∨ a = true ∧ maxTimeoutMillis w0 ≤ m)
  | Finished m subs _ => pr_millisPolled r = m ∧ pr_pollAgain r = again ∧
      (m = effective_timeout w timeout ∧ (m = 0 ∨ m < maxTimeoutMillis w0) ∨
       ∃ s, s ∈ subs ∧ item_ready w0 s.2 = true)
  end.

(** What a poll hands out in [r].  Without receiving, nothing; that is so only if
    every subscription is gone or the limit is reached.  Otherwise [subs] are the
    subscriptions that are not gone, [pubs] what they held when the poll began and
    what arrived until the wait was over, and [ks] how much of it was read. *)
Definition poll_hands_out ids timeout millis again errors w (r : PollResult Q) : Prop :=
  ∃ x w0, poll_waits sys ids timeout millis again errors w = (Ok x, w0) ∧
  match x with
  | Returned m a _ => pq_elems (pr_messages r) = [] ∧
      ((∀ s, s ∈ checked_out w ids → gone w0 s) ∨ pr_pollAgain r = true ∧ maxTimeoutMillis w0 ≤ pr_millisPolled r)
  | Finished m subs _ => ∃ pubs ks,
      subs ⊆ checked_out w ids ∧ (∀ s, s ∈ checked_out w ids → s ∈ subs ∨ gone w0 s) ∧
      (∀ s, s ∈ subs → arrived w w0 s (pubs s.2)) ∧
      pq_elems (pr_messages r) ≡ₚ concat (zip_with (handed_at w pubs) subs ks) ∧
      complete sys w pubs (pr_errors r) subs ks
  end.

(** The subscriptions of a poll that nobody removes, seen from its beginning. *)
Section waits.
Context (ids : list OID) (w : W).
Hypothesis Hpre : poll_pre w ids.
Hypothesis Hrely : rely sys ids.
Hypothesis Hpol : polite sys ids.
Hypothesis Hwait : ∀ s, s ∈ checked_out w ids → waiting w s.

Lemma wp_poll_waiting timeout millis again errors (Qp : PollResult Q → W → Prop) E :
  (checked_out w ids = [] → Qp (mkPoll pq_new millis again (checkout_errors w errors ids)) w) →
  (∀ m a e w', checked_out w ids ≠ [] →
     poll_waits sys ids timeout millis again errors w = (Ok (Returned m a e), w') →
     loop_post ids (checked_out w ids) (still_waiting w) (checked_out w ids) (effective_timeout w timeout) 0 again
       (Returned m a e) w' → Qp (mkPoll pq_new m a e) w') →
  (∀ m subs' e w', checked_out w ids ≠ [] →
     poll_waits sys ids timeout millis again errors w = (Ok (Finished m subs' e), w') →
     loop_post ids (checked_out w ids) (still_waiting w) (checked_out w ids) (effective_timeout w timeout) 0 again
       (Finished m subs' e) w' →
     wp (recvMessages sys subs' e) (λ r, Qp (mkPoll r.1 m again r.2)) E w') →
  (∀ e w', (∃ what, e = UserException 18547 what ∧ failing sys what) → E e w') →
  wp (poll (Q:=Q) sys ids timeout millis again errors) Qp E w.
Proof.
  destruct Hpre as [Hw Hn Hl Hm]. intros HN HR HF HE. apply (wp_poll sys ids w Hw Hn Hl Hm Hrely (still_waiting w)); try done.
  - intros. by eapply still_waiting_others.
  - intros. by apply still_waiting_remove.
  - intros s Hs. by apply still_waiting_taken, Hwait.
  - intros e w' [(what & -> & Hf & _)|[-> (s & _ & [Hs _] & Ho)]]; [apply HE; eauto|].
    apply waiting_open in Hs. congruence.
Qed.

(** Receiving when the wait is over. *)
Lemma wp_receive_waiting timeout millis again errors m subs errors' w0 :
  poll_waits sys ids timeout millis again errors w = (Ok (Finished m subs errors'), w0) →
  loop_inv ids (checked_out w ids) (still_waiting w) subs w0 → subs ⊆ checked_out w ids →
  wp (recvMessages (Q:=Q) sys subs errors')
    (λ r _, ∃ pubs ks, (∀ s, s ∈ subs → arrived w w0 s (pubs s.2)) ∧
       pq_elems r.1 ≡ₚ concat (zip_with (handed_at w pubs) subs ks) ∧ complete sys w pubs r.2 subs ks)
    (λ e _, poll_throws ids timeout millis again errors w e) w0.
Proof.
  intros Hrun Hinv Hsub. pose proof Hinv as (_ & _ & _ & _ & Hg). rewrite Forall_forall in Hg.
  destruct (finished_holds ids (checked_out w ids) subs w0) as (pubs & Hnd & Hh).
  { eapply loop_inv_mono; [|exact Hinv]. by intros s []. }
  rewrite Forall_forall in Hh.
  assert (∀ s, s ∈ subs → is_Some (heap w !! s.2) ∧ grown w w0 s ∧ arrived w w0 s (pubs s.2)) as Harr.
  { intros s Hs. destruct (Hg s Hs) as [_ [_ Hgr]]. pose proof (Hwait s (Hsub s Hs)) as Hws.
    split_and!; [by destruct Hws as [_ (? & i & -> & _)]|done|by apply still_waiting_arrived; auto]. }
  eapply wp_mono; [| |apply (wp_recvMessages sys pubs); [done|by apply Forall_forall]].
  - intros r w2 (ks & Hq & Hc & _). apply (grown_complete sys w) in Hc as [Hc He]; [|intros s Hs; by destruct (Harr s Hs) as (? & ? & _)].
    exists pubs, ks. rewrite He in Hq. split_and!; [|done|done]. intros s Hs. by destruct (Harr s Hs) as (_ & _ & ?).
  - intros e w2 (s & j & p & Hs & Hj & Hp & Hr). right. destruct (Harr s Hs) as ([i Hi] & Hgr & Ha).
    exists m, subs, errors', w0, s, i, (pubs s.2), p.
    split_and!; [done|done|done|done|done|]. by rewrite <-(grown_receive w w0 s i j).
Qed.
End waits.

(** C7: A poll ends in time.  It returns, unless a ZeroMQ call fails or a filter or
    projection throws; if none of the identifiers can be polled, at once, with what
    it was called with.  Otherwise the milliseconds it reports lie between 0 and the
    timeout it was given, cut off at the server's limit.  They are all of that time
    unless there is a reason to return earlier: every subscription was removed, the
    server's limit was reached, or one of them had something to read.  It asks to be
    called again only if the limit was reached, and if the wait ended because the
    time was over, the limit was not reached or there was no time to wait. *)
Theorem poll_in_time ids timeout millis again errors w :
  poll_pre w ids → rely sys ids → polite sys ids →
  (∀ s, s ∈ checked_out w ids → waiting w s) →
  wp (poll (Q:=Q) sys ids timeout millis again errors)
    (λ r w',
       (checked_out w ids = [] ∧ w' = w ∧
          r = mkPoll pq_new millis again (checkout_errors w errors ids)) ∨
       (checked_out w ids ≠ [] ∧ poll_timing ids timeout millis again errors w r))
    (λ e _, poll_throws ids timeout millis again errors w e) w.
Proof.
  intros Hpre Hr Hpol Hwait. apply (wp_poll_waiting ids w Hpre Hr Hpol Hwait).
  - intros Hs. by left.
  - intros m a e w' Hne Hrun (Ht & Ha & _). right. split; [done|]. split; [simpl; lia|].
    by exists (Returned m a e), w'.
  - intros m subs' e w' Hne Hrun (Ht & Hend & Hinv & Hsub).
    eapply wp_mono; [| |eapply (wp_receive_waiting ids w Hwait _ _ _ _ _ _ _ _ Hrun Hinv)].
    + intros r w2 _. right. split; [done|]. split; [simpl; lia|]. by exists (Finished m subs' e), w'.
    + done.
    + intros s Hin. by eapply elem_of_sublist.
  - intros e w' He. by left.
Qed.

(** C6: A poll whose subscriptions stay in the table until it removes them hands
    out, for each subscription that is not gone when the wait is over, what the
    filter and projection it had when the poll began make of a prefix of the
    publications it held then and those that arrived during the wait; a prefix that
    is not all of them is reported in the errors.  It hands out nothing without
    receiving only if every subscription is gone or the time limit is reached.  The
    only exceptions are 18547, for a failed ZeroMQ call, and those of a filter or
    projection on a publication that had arrived. *)
Theorem poll_outcomes ids timeout millis again errors w :
  poll_pre w ids → rely sys ids → polite sys ids →
  (∀ s, s ∈ checked_out w ids → waiting w s) →
  wp (poll (Q:=Q) sys ids timeout millis again errors)
    (λ r _, poll_hands_out ids timeout millis again errors w r)
    (λ e _, poll_throws ids timeout millis again errors w e) w.
Proof.
  intros Hpre Hr Hpol Hwait. apply (wp_poll_waiting ids w Hpre Hr Hpol Hwait).
  - intros Hs. exists (Returned millis again (checkout_errors w errors ids)), w. split.
    + unfold poll_waits. destruct Hpre as [Hw Hn _ _]. erewrite bind_Ok by by apply getSubscriptions_eq.
      by rewrite Hs.
    + split; [apply pq_new_elems|]. left. rewrite Hs. by intros s ?%elem_of_nil.
  - intros m a e w' _ Hrun (_ & Ha & _). exists (Returned m a e), w'. split; [done|].
    split; [apply pq_new_elems|]. destruct Ha as [[_ ?]|[-> ?]]; auto.
  - intros m subs' e w' _ Hrun (_ & _ & Hinv & Hsub).
    assert (subs' ⊆ checked_out w ids) as Hin by (intros s Hs; by eapply elem_of_sublist).
    eapply wp_mono; [| |apply (wp_receive_waiting ids w Hwait _ _ _ _ _ _ _ _ Hrun Hinv Hin)]; [|done].
    intros r w2 (pubs & ks & Ha & Hq & Hc). exists (Finished m subs' e), w'. split; [done|].
    exists pubs, ks. by split_and!; [|apply Hinv|..].
  - intros e w' He. by left.
Qed.

(** What all the given subscriptions hand out of all they hold. *)
Definition all_handed w (pubs : nat → list publication) (subs : list (OID * nat)) :
    list SubscriptionMessage :=
  concat ((λ s, handed_at w pubs s (length (pubs s.2))) <$> subs).

Lemma complete_handed w ids pubs errors subs ks :
  (∀ s, s ∈ subs → ¬ can_fail sys (taken w ids) pubs s) →
  complete sys (taken w ids) pubs errors subs ks →
  concat (zip_with (handed_at (taken w ids) pubs) subs ks) ≡ₚ all_handed w pubs subs.
Proof.
  intros Hno Hc. unfold all_handed. induction Hc as [|s k subs ks Hk _ IH]; [done|].
  cbn [zip_with concat]. rewrite fmap_cons. cbn [concat]. f_equiv.
  - unfold taken. rewrite handed_at_taken.
    destruct Hk as [->|[_ Hf]]; [done|]. by destruct (Hno s (list_elem_of_here _ _)).
  - apply IH. intros s' Hin. apply Hno. by right.
Qed.

Lemma poll_now_run ids millis again errors w pubs :
  poll_pre w ids → (∀ n, zmq_fails sys n = None) → checked_out w ids ≠ [] →
  (∀ s, s ∈ checked_out w ids → holds w s (pubs s.2)) →
  (∀ s i p, s ∈ checked_out w ids → heap w !! s.2 = Some i → p ∈ pubs s.2 →
     is_Ok (receive i s.1 p) = true) →
  ∃ q w', poll (Q:=Q) sys ids 0 millis again errors w
          = (Ok (mkPoll q 0 again (checkout_errors w errors ids)), w') ∧
    pq_elems q ≡ₚ all_handed w pubs (checked_out w ids) ∧
    (∀ s, s ∈ checked_out w ids → holds w' s [] ∧ settled w' s).
Proof.
  intros [Hw Hn Hl Hm] Hz Hne Hh Hrec. rewrite poll_zero by done.
  set (subs := checked_out w ids) in *. set (w1 := taken w ids).
  assert (∀ s, s ∈ subs → ¬ can_fail sys w1 pubs s) as Hnofail.
  { intros s Hin (i & what & Hi & [[n Hf]|(p & Hp & Hf)])%can_fail_taken; [by rewrite Hz in Hf|].
    pose proof (Hrec s i p Hin Hi Hp) as Hx. by rewrite Hf in Hx. }
  destruct (wp_total (recvMessages (Q:=Q) sys subs (checkout_errors w errors ids))
    (λ r w', (pq_elems r.1 ≡ₚ all_handed w pubs subs ∧ r.2 = checkout_errors w errors ids
       ∧ ∀ s, s ∈ subs → holds w' s []) ∧ ∀ s, s ∈ subs → settled w' s) w1)
    as ([q e] & w' & Hrun & (Hq & He & Hempty) & Hs).
  2:{ exists q, w'. rewrite (bind_Ok _ _ _ _ _ Hrun). simpl in He. subst e. split_and!; [done|done|].
      intros s Hin. split; auto. }
  eapply wp_mono; [| |apply wp_conj;
    [apply (wp_recvMessages sys pubs)|apply (wp_recvMessages_settled sys subs); by left]].
  - intros r w' [(ks & Hq & Hc & _ & Hok) Hs]. destruct (Hok Hnofail) as [He Hempty].
    split_and!; [|done|done|done]. rewrite Hq. by apply (complete_handed w ids pubs r.2).
  - intros e w' [(s & i & p & Hin & Hi & Hp & Hthrow) _]. unfold w1, taken in Hi.
    rewrite taken_lookup in Hi. destruct (heap w !! s.2) as [j|] eqn:Hj; [|done]. injection Hi as <-.
    pose proof (Hrec s j p Hin Hj Hp) as Hx.
    rewrite (receive_flags _ j) in Hthrow by by case_match. by rewrite Hthrow in Hx.
  - by apply checked_out_locs.
  - apply Forall_forall. intros s Hin. by apply holds_taken, Hh.
Qed.

(** C3: A poll with timeout 0 over sockets that work returns at once with exactly
    the messages its subscriptions' filters and projections make of what had
    reached them, reports exactly the identifiers it could not take, and leaves
    the polled sockets empty: nothing is lost and nothing is handed out twice. *)
Theorem poll_now ids millis again errors w pubs :
  poll_pre w ids → (∀ n, zmq_fails sys n = None) → checked_out w ids ≠ [] →
  (∀ s, s ∈ checked_out w ids → holds w s (pubs s.2)) →
  (∀ s i p, s ∈ checked_out w ids → heap w !! s.2 = Some i → p ∈ pubs s.2 →
     is_Ok (receive i s.1 p) = true) →
  ∃ q w', poll (Q:=Q) sys ids 0 millis again errors w
          = (Ok (mkPoll q 0 again (checkout_errors w errors ids)), w') ∧
    pq_elems q ≡ₚ all_handed w pubs (checked_out w ids) ∧
    (∀ s, s ∈ checked_out w ids → holds w' s [] ∧ settled w' s).
Proof. apply poll_now_run. Qed.

(** The index loop of poll over the subscriptions it waits for, which erases
    while it counts and lets an unsigned index wrap around, is a filter: exactly
    the subscriptions marked for removal are closed, dropped from the table and
    reported, the others stay, in order, aligned with their poll items. *)
Theorem drop_unsubscribed_spec subs errors w :
  world_wf w → in_heap w subs → Z.of_nat (length subs) < size_t_mod →
  drop_unsubscribed (S (length subs)) 0 subs.*2 subs errors w
  = (Ok ((kept w subs).*2, kept w subs, foldl interrupted errors (dropped w subs)),
     foldl force_remove w (dropped w subs)).
Proof. apply drop_unsubscribed_filter. Qed.
End spec.

(** ** At a concrete process *)

Definition both : list OID := [oid_of 1; oid_of 2].

Definition sample_pubs (l : nat) : list publication :=
  match l with 0%nat => [pub_a] | _ => [pub_b1; pub_b2] end.

Lemma sample_pre : poll_pre two_subs both.
Proof. split; [apply two_subs_wf|apply (bool_decide_unpack _); by vm_compute|by vm_compute|by vm_compute]. Qed.

Lemma quiet_rely ids : rely quiet ids.
Proof. split; [by intros n w|intros n w; by simpl|by intros n w s]. Qed.

Lemma sample_holds s : s ∈ checked_out two_subs both → holds two_subs s (sample_pubs s.2).
Proof.
  change (checked_out two_subs both) with [(oid_of 1, 0%nat); (oid_of 2, 1%nat)].
  intros [->|[->|Hin%elem_of_nil]%elem_of_cons]%elem_of_cons; [| |done].
  all: eexists; split_and!; [done|done|]; split_and!; [done|done|];
    simpl; repeat apply Forall_cons_2; auto using Forall_nil_2, pub_a_wf, pub_b1_wf, pub_b2_wf.
Qed.

(** No filter of it throws on what it holds and one more publication. *)
Lemma sample_receives s i p : s ∈ checked_out two_subs both → heap two_subs !! s.2 = Some i →
  p ∈ mkPub "B" [("x", VInt 2)] 1000000 :: sample_pubs s.2 → is_Ok (receive i s.1 p) = true.
Proof.
  change (checked_out two_subs both) with [(oid_of 1, 0%nat); (oid_of 2, 1%nat)].
  intros Hs Hi Hp. repeat (apply elem_of_cons in Hs as [->|Hs]; [|]); [..|by apply elem_of_nil in Hs].
  all: injection Hi as <-; cbn [snd sample_pubs] in Hp.
  all: repeat (apply elem_of_cons in Hp as [->|Hp]; [by vm_compute|]); by apply elem_of_nil in Hp.
Qed.

Lemma sample_waiting s : s ∈ checked_out two_subs both → waiting two_subs s.
Proof.
  intros Hin. split; [|eexists; by apply sample_holds].
  apply checked_out_ids in Hin as [_ Hc]. by apply checkout_live in Hc as [Hf _]; [|apply two_subs_wf].
Qed.

Lemma poll_settles_witness :
  wp (poll (Q:=queue) quiet both 5000 0 false [])
    (λ _ w', ∀ s, s ∈ checked_out two_subs both → settled w' s)
    (λ e w', (∀ s, s ∈ checked_out two_subs both → settled w' s) ∨
       (∃ subs errors' w0, recvMessages (Q:=queue) quiet subs errors' w0 = (Throw e, w')) ∨
       e = UndefinedBehaviour "poll on a closed socket") two_subs.
Proof. apply (poll_settles quiet); [apply sample_pre|apply quiet_rely]. Defined.

Lemma quiet_polite ids : polite quiet ids.
Proof. intros n w s _ Hs. split; [exact Hs|]. by apply grown_same. Qed.

Lemma poll_in_time_witness :
  wp (poll (Q:=queue) quiet both 5000 0 false [])
    (λ r w',
       (checked_out two_subs both = [] ∧ w' = two_subs ∧
          r = mkPoll pq_new 0 false (checkout_errors two_subs [] both)) ∨
       (checked_out two_subs both ≠ [] ∧ poll_timing quiet both 5000 0 false [] two_subs r))
    (λ e _, poll_throws quiet both 5000 0 false [] two_subs e) two_subs.
Proof.
  apply (poll_in_time quiet); [apply sample_pre|apply quiet_rely|apply quiet_polite|apply sample_waiting].
Defined.

Lemma poll_outcomes_witness :
  wp (poll (Q:=queue) quiet both 5000 0 false [])
    (λ r _, poll_hands_out quiet both 5000 0 false [] two_subs r)
    (λ e _, poll_throws quiet both 5000 0 false [] two_subs e) two_subs.
Proof.
  apply (poll_outcomes quiet); [apply sample_pre|apply quiet_rely|apply quiet_polite|apply sample_waiting].
Defined.

Lemma poll_now_witness :
  ∃ (q : queue) w', poll quiet both 0 0 false [] two_subs
          = (Ok (mkPoll q 0 false (checkout_errors two_subs [] both)), w') ∧
    pq_elems q ≡ₚ all_handed two_subs sample_pubs (checked_out two_subs both) ∧
    (∀ s, s ∈ checked_out two_subs both → holds w' s [] ∧ settled w' s).
Proof.
  apply (poll_now quiet); [apply sample_pre|done|done|apply sample_holds|].
  intros s i p Hs Hi Hp. apply (sample_receives s i p Hs Hi). by right.
Defined.

(** The first of two polled subscriptions is marked for removal. *)
Definition one_marked : SWorld := upd_info 0 (set_shouldUnsub 1) two_subs.

Lemma drop_unsubscribed_spec_witness :
  let subs := [(oid_of 1, 0%nat); (oid_of 2, 1%nat)] in
  drop_unsubscribed 3 0 subs.*2 subs [] one_marked
  = (Ok ((kept one_marked subs).*2, kept one_marked subs, foldl interrupted [] (dropped one_marked subs)),
     foldl force_remove one_marked (dropped one_marked subs)).
Proof.
  apply (drop_unsubscribed_spec [(oid_of 1, 0%nat); (oid_of 2, 1%nat)]).
  - apply wf_upd_info; [apply info_ok_shouldUnsub|done|apply two_subs_wf].
  - repeat (constructor; [by vm_compute; lia|]). constructor.
  - done.
Defined.
