(* ===== verification/PollLive.v ===== *)
(** * A message that arrives ends the wait

    While a poll waits, a publication reaches one of its subscriptions: the poll
    comes back with a message within the interval in which that happens. *)

From S2P Require Import Prelude Monad StdMap Bytes Oid Doubles Bson BsonBytes HostPort Zmq World.
From S2P Require Import PubSub PQueue PubSubInv Sample PubSubPoll PubSubSafe PubSubDeliver PollSpec.

Section live.
Context {Mt Pt Q : Type} `{MatcherOps Mt} `{ProjectionOps Pt} `{PriorityQueueLaws Q}.
Context (sys : System Mt Pt).
Abbreviation W := (World Mt Pt).
Implicit Types (w : W) (i : SubscriptionInfo Mt Pt).

(** A subscription in the table that takes every message, and that nobody wants
    to remove. *)
Definition plain w (s : OID * nat) : Prop :=
  waiting w s ∧ ∀ i, heap w !! s.2 = Some i →
    filter_ i = None ∧ projection_ i = None ∧ flag (shouldUnsub i) = false.

(** While the polls of [ids] wait, other threads leave their subscriptions, the
    time limit and the count of calls alone, apart from delivering; and when the
    call [n0] or a later one waits, a publication reaches [s]. *)
Record arrival (ids : list OID) (s : OID * nat) (n0 : nat) : Prop := {
  ar_rely : rely sys ids;
  ar_calls n w : zmqCalls (others sys n w) = zmqCalls w;
  ar_max n w : maxTimeoutMillis (others sys n w) = maxTimeoutMillis w;
  ar_plain n w x : x.1 ∈ ids → plain w x → plain (others sys n w) x;
  ar_ready n w : (n0 ≤ n)%nat → plain w s → item_ready (others sys n w) s.2 = true
}.

Lemma plain_unflagged w s : plain w s → unsub_flag w s.2 = false.
Proof. intros [[_ (ps & i & Hi & _)] Hp]. unfold unsub_flag. rewrite Hi. apply Hp, Hi. Qed.

Lemma plain_calls n w s : plain w s → plain (set_zmqCalls n w) s.
Proof. done. Qed.

Lemma nothing_dropped w subs : Forall (plain w) subs → dropped w subs = [] ∧ kept w subs = subs.
Proof.
  intros Hp. unfold dropped, kept. induction Hp as [|s subs Hs _ [IHd IHk]]; [done|].
  rewrite !filter_cons. rewrite decide_False, decide_True by (by rewrite plain_unflagged). by rewrite IHd, IHk.
Qed.

Section loop.
Context (ids : list OID) (s : OID * nat) (n0 : nat) (subs : list (OID * nat)).
Hypothesis Harr : arrival ids s n0.
Hypothesis Hz : ∀ n, zmq_fails sys n = None.
Hypothesis Hids : ∀ x, x ∈ subs → x.1 ∈ ids.
Hypothesis Hs : s ∈ subs.
Hypothesis Hlen : Z.of_nat (length subs) < size_t_mod.

Definition awaits w : Prop := world_wf w ∧ Forall (plain w) subs.

(** The state after a wait. *)
Definition waited w : W := others sys (zmqCalls w) (set_zmqCalls (zmqCalls w + 1) w).

Lemma waited_awaits w : awaits w → awaits (waited w).
Proof.
  intros [Hw Hp]. split.
  - apply (rely_wf _ _ (ar_rely _ _ _ Harr)), (wf_same w); done.
  - rewrite Forall_forall in *. intros x Hx. apply (ar_plain _ _ _ Harr); [by apply Hids|by apply plain_calls, Hp].
Qed.

Lemma zmq_poll_run w : awaits w →
  zmq_poll sys subs.*2 w = (Ok (Z.of_nat (length (filter (λ l, item_ready (waited w) l = true) subs.*2))), waited w).
Proof.
  intros Hw. unfold zmq_poll, zcall, zmq_call, mbind, M_bind, gets, getS, modify. rewrite Hz.
  fold (waited w). destruct (waited_awaits w Hw) as [_ Hp].
  assert (forallb (item_open (waited w)) subs.*2 = true) as ->; [|done].
  apply forallb_forall. intros l (x & -> & Hx)%list_elem_of_In%list_elem_of_fmap.
  apply waiting_open. rewrite Forall_forall in Hp. by apply Hp.
Qed.

Lemma awaits_in_heap w : awaits w → in_heap w subs.
Proof.
  intros [_ Hp]. eapply Forall_impl; [exact Hp|]. intros x [[_ (ps & i & Hi & _)] _].
  by apply lookup_lt_Some in Hi.
Qed.

Lemma ready_cases w :
  (Z.of_nat (length (filter (λ l, item_ready w l = true) subs.*2)) =? 0) = false ∧
    (∃ x, x ∈ subs ∧ item_ready w x.2 = true) ∨
  (Z.of_nat (length (filter (λ l, item_ready w l = true) subs.*2)) =? 0) = true ∧
    (∀ x, x ∈ subs → item_ready w x.2 = false).
Proof.
  destruct (filter _ _) as [|l ls] eqn:Hf.
  - right. split; [done|]. intros x Hx. apply not_true_iff_false. intros Hr.
    assert (x.2 ∈ filter (λ l, item_ready w l = true) subs.*2) as Hin; [|by rewrite Hf in Hin; apply elem_of_nil in Hin].
    apply list_elem_of_filter. split; [done|]. apply list_elem_of_fmap. eauto.
  - left. split; [done|].
    assert (l ∈ filter (λ l, item_ready w l = true) subs.*2) as [Hr (x & -> & Hx)%list_elem_of_fmap]%list_elem_of_filter
      by (rewrite Hf; by left). eauto.
Qed.

(** The waits before the message comes change nothing but the time polled. *)
Lemma loop_wakes k : ∀ fuel errors t r again w,
  (k < fuel)%nat → awaits w → (n0 ≤ zmqCalls w + k)%nat →
  Z.of_nat k * maxPollInterval < t → r + Z.of_nat k * maxPollInterval < maxTimeoutMillis w →
  ∃ m w', poll_loop sys fuel subs.*2 subs errors t r (Z.min maxPollInterval t) again w
          = (Ok (Finished m subs errors), w') ∧
    r ≤ m ≤ r + Z.of_nat k * maxPollInterval ∧ awaits w' ∧ ∃ x, x ∈ subs ∧ item_ready w' x.2 = true.
Proof.
  induction k as [|k IH]; intros fuel errors t r again w Hf Hw Hn Ht Hmax;
    (destruct fuel as [|fuel]; [lia|]); cbn [poll_loop]; (rewrite (proj2 (Z.ltb_lt 0 t)) by (unfold maxPollInterval in *; lia));
    cbn [negb]; unfold try_zmq, mbind at 1, M_bind at 1; rewrite (zmq_poll_run w Hw); pose proof (waited_awaits w Hw) as Hw1.
  all: destruct (ready_cases (waited w)) as [[-> Hx]|[-> Hno]]; cbn [negb].
  1,3: exists r, (waited w); split; [done|]; split; [unfold maxPollInterval; lia|]; by split.
  - pose proof (ar_ready _ _ _ Harr (zmqCalls w) (set_zmqCalls (zmqCalls w + 1) w)) as Hr.
    fold (waited w) in Hr. rewrite Hno in Hr by done. destruct Hw as [_ Hp]. rewrite Forall_forall in Hp.
    discriminate Hr; [lia|]. by apply plain_calls, Hp.
  - destruct (nothing_dropped (waited w) subs) as [Hd Hk]; [apply Hw1|].
    assert (Z.min maxPollInterval t = maxPollInterval) as -> by (unfold maxPollInterval in *; lia).
    erewrite bind_Ok by (apply drop_unsubscribed_filter; [apply Hw1|by apply awaits_in_heap|done]).
    rewrite Hd, Hk. cbn [foldl]. cbv beta iota. rewrite length_fmap.
    assert ((length subs =? 0)%nat = false) as -> by (apply Nat.eqb_neq; destruct subs; [by apply elem_of_nil in Hs|done]).
    rewrite run_gets. assert (maxTimeoutMillis (waited w) = maxTimeoutMillis w) as Hm by (unfold waited; by rewrite (ar_max _ _ _ Harr)).
    assert (zmqCalls (waited w) = zmqCalls w + 1)%nat as Hc by (unfold waited; by rewrite (ar_calls _ _ _ Harr)).
    rewrite (proj2 (Z.leb_gt _ _)) by (rewrite Hm; unfold maxPollInterval in *; lia).
    destruct (IH fuel errors (t - maxPollInterval) (r + maxPollInterval) again (waited w)) as (m & w' & Hrun & Hmr & Hrest);
      [lia|done|lia|unfold maxPollInterval in *; lia|rewrite Hm; unfold maxPollInterval in *; lia|].
    exists m, w'. split; [exact Hrun|]. split; [unfold maxPollInterval in *; lia|exact Hrest].
Qed.
End loop.

(** A plain subscription with a message waiting hands one out. *)
Lemma plain_hands w x pubs : plain w x → holds w x (pubs x.2) → item_ready w x.2 = true →
  handed_at w pubs x (length (pubs x.2)) ≠ [].
Proof.
  intros [_ Hp] (i & Hi & _ & Hpa & Hib & _) Hr. unfold handed_at, item_ready, sock_ready in *. rewrite Hi in *.
  rewrite Hpa, Hib in Hr. destruct (Hp i eq_refl) as (Hf & Hpr & _).
  destruct (pubs x.2) as [|p ps]; [done|]. cbn [length take handed omap list_omap]. unfold handed.
  cbn [omap list_omap]. unfold receive at 1. by rewrite Hf, Hpr.
Qed.

Lemma plain_no_failure w pubs x : (∀ n, zmq_fails sys n = None) → plain w x → ¬ can_fail sys w pubs x.
Proof.
  intros Hz [_ Hp] (i & what & Hi & [[n Hn]|(p & _ & Hr)]); [by rewrite Hz in Hn|].
  destruct (Hp i Hi) as (Hf & Hpr & _). unfold receive in Hr. by rewrite Hf, Hpr in Hr.
Qed.

Lemma plain_taken w ids x : plain w x → plain (taken w ids) x.
Proof.
  intros [Hw Hp]. split; [by apply waiting_taken|]. intros i. unfold taken. rewrite taken_lookup.
  destruct (heap w !! x.2) as [j|] eqn:Hj; [|done]. intros [= <-]. destruct (Hp j eq_refl) as (? & ? & ?).
  by case_match.
Qed.

Lemma zmqCalls_taken w ids : zmqCalls (taken w ids) = zmqCalls w.
Proof.
  unfold taken. generalize (checked_out w ids). intros l. revert w. induction l as [|x l IH]; intros w; [done|].
  simpl. by rewrite IH.
Qed.

(** Receiving from plain subscriptions, one of which has a message. *)
Lemma recv_plain subs errors w x : (∀ n, zmq_fails sys n = None) → world_wf w → NoDup subs →
  Forall (plain w) subs → x ∈ subs → item_ready w x.2 = true →
  ∃ r w', recvMessages (Q:=Q) sys subs errors w = (Ok r, w') ∧ pq_elems r.1 ≠ [].
Proof.
  intros Hz Hw Hnd Hp Hx Hr.
  destruct (finished_holds subs.*1 [] subs w) as (pubs & Hnd2 & Hh).
  { split_and!; [done| |by intros s ?%elem_of_nil|done|].
    - eapply Forall_impl; [exact Hp|]. intros s [[_ (ps & i & Hi & _)] _]. by apply lookup_lt_Some in Hi.
    - rewrite Forall_forall in *. intros s Hin. split; [|by apply Hp]. apply list_elem_of_fmap. eauto. }
  assert (∀ s, s ∈ subs → ¬ can_fail sys w pubs s) as Hno
    by (intros s Hin; rewrite Forall_forall in Hp; by apply plain_no_failure, Hp).
  destruct (wp_total (recvMessages (Q:=Q) sys subs errors)
    (λ r w', ∃ ks, pq_elems r.1 ≡ₚ concat (zip_with (handed_at w pubs) subs ks) ∧
       complete sys w pubs r.2 subs ks) w) as (r & w' & Hrun & ks & Hq & Hc).
  - eapply wp_mono; [| |by apply (wp_recvMessages sys pubs)].
    + intros r w' (ks & Hq & Hc & _). eauto.
    + intros e w' (s & i & p & Hin & Hi & _ & Ht). rewrite Forall_forall in Hp.
      destruct (Hp s Hin) as [_ Hpl]. destruct (Hpl i Hi) as (Hf & Hpr & _).
      unfold receive in Ht. by rewrite Hf, Hpr in Ht.
  - exists r, w'. split; [done|]. intros Hnil. rewrite Hnil in Hq. symmetry in Hq. apply Permutation_nil_r in Hq.
    apply list_elem_of_lookup in Hx as [j Hj]. destruct (Forall2_lookup_l _ _ _ _ _ Hc Hj) as (k & Hk & Hkx).
    assert (x ∈ subs) as Hx by by eapply list_elem_of_lookup_2. rewrite Forall_forall in Hp, Hh.
    assert (k = length (pubs x.2)) as -> by (destruct Hkx as [|[_ Hf]]; [done|by destruct (Hno x Hx)]).
    apply (plain_hands w x pubs); [by apply Hp|by apply Hh|done|].
    apply concat_nil_Forall in Hq. eapply (Forall_lookup_1 _ _ j) in Hq; [exact Hq|].
    by rewrite lookup_zip_with, Hj, Hk.
Qed.

(** C8: A publication that reaches a polled subscription ends the wait: over
    working sockets and subscriptions without filters, a poll whose [k]th wait, or
    a later one, finds a message for one of them returns normally, after at most
    [k] intervals, with at least one message. *)
Theorem poll_wakes ids timeout millis again errors w s k :
  poll_pre w ids → (∀ n, zmq_fails sys n = None) → arrival ids s (zmqCalls w + k) →
  s ∈ checked_out w ids → (∀ x, x ∈ checked_out w ids → plain w x) →
  Z.of_nat k * maxPollInterval < effective_timeout w timeout →
  ∃ r w', poll (Q:=Q) sys ids timeout millis again errors w = (Ok r, w') ∧
    0 ≤ pr_millisPolled r ≤ Z.of_nat k * maxPollInterval ∧ pq_elems (pr_messages r) ≠ [].
Proof.
  intros [Hw Hn Hl Hm] Hz Harr Hs Hp Hk. set (subs := checked_out w ids) in *.
  destruct (take_all_facts subs w Hw) as (Hw1 & Ht1 & _ & Hm1).
  assert (0 ≤ Z.of_nat k * maxPollInterval) as Hk0 by (unfold maxPollInterval; lia).
  destruct (loop_wakes ids s (zmqCalls w + k) subs Harr Hz) with (k := k)
    (fuel := S (Z.to_nat (effective_timeout w timeout))) (errors := checkout_errors w errors ids)
    (t := effective_timeout w timeout) (r := 0) (again := again) (w := taken w ids)
    as (m & w' & Hrun & Hmr & [Hw' Hp'] & x & Hx & Hrx).
  - by intros y [Hy _]%checked_out_ids.
  - done.
  - pose proof (checked_out_length w ids). unfold subs. lia.
  - unfold maxPollInterval in Hk. lia.
  - split; [done|]. apply Forall_forall. intros y Hy. by apply plain_taken, Hp.
  - by rewrite zmqCalls_taken.
  - done.
  - unfold taken. fold subs. rewrite Hm1. unfold effective_timeout in Hk. case_match; lia.
  - destruct (recv_plain subs (checkout_errors w errors ids) w' x Hz Hw') as (r & w2 & Hrecv & Hne); try done.
    { by apply checked_out_NoDup. }
    exists (mkPoll r.1 m again r.2), w2. split; [|split; [simpl; lia|done]].
    { unfold poll. erewrite bind_Ok by by apply getSubscriptions_eq. fold subs. cbv beta iota. rewrite length_fmap.
      assert ((length subs =? 0)%nat = false) as -> by (apply Nat.eqb_neq; destruct subs; [by apply elem_of_nil in Hs|done]).
      rewrite run_gets, Hm1. fold (effective_timeout w timeout). rewrite (bind_Ok _ _ _ _ _ Hrun). cbv beta iota.
      rewrite (bind_Ok _ _ _ _ _ Hrecv). by destruct r. }
Qed.
End live.

(** ** At a concrete process *)

(** From its third call on, a publication reaches the first subscription when its
    socket is empty. *)
Definition arrive (i : SubscriptionInfo SMatcher SProjection) : SubscriptionInfo SMatcher SProjection :=
  match inbox (sock i) with
  | [] => set_sock (with_frames [pub_frames pub_a] (partial (sock i)) (sock i)) i
  | _ => i
  end.

Definition network : SSystem := {|
  params := sample_params; zmq_fails _ := None; push_full _ := false; isSelf _ := false;
  others n w := if (2 <=? n)%nat then upd_info 0 arrive w else w
|}.

Definition idle_world : SWorld := sample_world true [(oid_of 1, 0%nat)] [sample_info "A" [] None].

Lemma arrive_flags i : inUse (arrive i) = inUse i ∧ shouldUnsub (arrive i) = shouldUnsub i ∧
  polledRecently (arrive i) = polledRecently i ∧ filter_ (arrive i) = filter_ i ∧ projection_ (arrive i) = projection_ i
  ∧ isopen (sock (arrive i)) = isopen (sock i).
Proof. unfold arrive. by case_match. Qed.

Lemma network_plain n w x : plain w x → plain (others network n w) x.
Proof.
  cbn [others network]. destruct (2 <=? n)%nat; [|done]. intros [[Hf (ps & i & Hi & Ho & Hpa & Hib & Hps)] Hp].
  destruct (Hp i Hi) as (Hfi & Hpr & Hu). destruct (arrive_flags i) as (_ & Hu' & _ & Hf' & Hp' & Ho').
  unfold plain, waiting, holds. cbn [subscriptions heap upd_info set_heap].
  destruct (decide (x.2 = 0%nat)) as [Heq|Hne].
  - rewrite Heq in *. rewrite list_lookup_alter_eq, Hi. split; [split; [done|]|].
    + exists (match ps with [] => [pub_a] | _ => ps end), (arrive i). split_and!; [done|by rewrite Ho'|].
      unfold arrive. rewrite Hib. destruct ps; split_and!; try done. repeat constructor; apply pub_a_wf.
    + intros j [= <-]. by rewrite Hf', Hp', Hu'.
  - rewrite list_lookup_alter_ne by done. rewrite Hi. split; [split; [done|]|].
    + exists ps, i. by split_and!.
    + intros j [= <-]. done.
Qed.

Lemma network_arrival : arrival network [oid_of 1] (oid_of 1, 0%nat) 2.
Proof.
  split.
  - split.
    + intros n w Hw. cbn [others network]. case_match; [|done]. apply wf_upd_info; [| |done].
      * intros i Hi. destruct (arrive_flags i) as (Ha & Hb & Hc & _). unfold info_ok. by rewrite Ha, Hb, Hc.
      * intros i _ Ho. by destruct (arrive_flags i) as (_ & _ & _ & _ & _ & ->).
    + intros n w. cbn [others network]. case_match; [|done]. cbn. by rewrite length_alter.
    + intros n w s _ Hg. cbn [others network]. by case_match.
  - intros n w. cbn [others network]. by case_match.
  - intros n w. cbn [others network]. by case_match.
  - intros n w x _. apply network_plain.
  - intros n w Hn [[_ (ps & i & Hi & _ & Hpa & _)] _]. cbn [others network]. rewrite (proj2 (Nat.leb_le _ _) Hn).
    unfold item_ready. cbn [heap upd_info set_heap snd] in *. rewrite list_lookup_alter_eq, Hi. cbn.
    unfold sock_ready, arrive. destruct (inbox (sock i)) as [|f fs] eqn:Hib; cbn; [by rewrite Hpa|].
    by rewrite Hpa, Hib.
Qed.

Lemma idle_wf : world_wf idle_world.
Proof.
  split.
  - repeat constructor.
  - intros id l [= -> ->]%list_elem_of_singleton. by eexists.
  - apply NoDup_singleton.
  - repeat (constructor; [split_and!; (by left) || (by right)|]). constructor.
Qed.

Lemma poll_wakes_witness : ∃ r w',
  poll (Q:=queue) network [oid_of 1] 5000 0 false [] idle_world = (Ok r, w') ∧
  0 ≤ pr_millisPolled r ≤ 2 * maxPollInterval ∧ pq_elems (pr_messages r) ≠ [].
Proof.
  apply (poll_wakes network [oid_of 1] 5000 0 false [] idle_world (oid_of 1, 0%nat) 2).
  - split; [apply idle_wf|apply NoDup_singleton|by vm_compute|by vm_compute].
  - done.
  - exact network_arrival.
  - change (checked_out idle_world [oid_of 1]) with [(oid_of 1, 0%nat)]. by left.
  - change (checked_out idle_world [oid_of 1]) with [(oid_of 1, 0%nat)]. intros x ->%list_elem_of_singleton.
    split; [split; [done|exists []; eexists; split_and!; [done|done|]; split_and!; [done|done|constructor]]|].
    by intros i [= <-].
  - by vm_compute.
Defined.
