(* ===== verification/EndToEnd.v ===== *)
(** * From publish to poll

    The parts of the system together: a publication leaves one process as three
    frames, reaches the receiving socket of another, is handed by the proxy
    thread to the sockets of the subscriptions of its channel, and comes out of
    the next poll as the document that was published. *)

From S2P Require Import Prelude Monad StdMap Bytes Oid Doubles Bson BsonBytes HostPort Zmq World.
From S2P Require Import SendSock PubSub PQueue PubSubInv Sample PubSubPoll PubSubSafe PubSubDeliver PollSpec.

Section endtoend.
Context {Mt Pt Q : Type} `{MatcherOps Mt} `{ProjectionOps Pt} `{PriorityQueueLaws Q}.
Context (sys : System Mt Pt).
Abbreviation W := (World Mt Pt).
Implicit Types (w : W) (i : SubscriptionInfo Mt Pt) (l : nat).

(** What the subscription at [l] holds once [p] has passed the proxy. *)
Definition reached w (p : publication) (pubs : nat → list publication) (l : nat) : list publication :=
  match heap w !! l with
  | Some i => if accepts (sock i) (pub_frames p) then pubs l ++ [p] else pubs l
  | None => pubs l
  end.

(** The proxy moves the first message of the receiving socket to every
    subscription that accepts it. *)
Lemma proxy_step_run w s m rest : extRecvSocket w = Some s → inbox s = m :: rest →
  ∃ s', inbox s' = rest ∧
    proxy_step w = (Ok (), set_heap ((λ i, set_sock (deliver m (sock i)) i) <$> heap w)
                             (set_extRecvSocket (Some s') w)).
Proof.
  intros Hs Hi. eexists. split; [|unfold proxy_step].
  2:{ run. rewrite Hs, Hi. done. }
  done.
Qed.

Lemma holds_delivered w w1 p s pubs :
  heap w1 = (λ i, set_sock (deliver (pub_frames p) (sock i)) i) <$> heap w → pub_wf p →
  holds w s (pubs s.2) → holds w1 s (reached w p pubs s.2).
Proof.
  intros Hh Hp (i & Hi & Ho & Hpa & Hin & Hwf). unfold holds, reached. rewrite Hh, list_lookup_fmap, Hi.
  eexists. split; [done|]. unfold deliver. simpl. destruct (accepts (sock i) (pub_frames p)); [|done].
  split; [done|]. split_and!; [done| |].
  - simpl. by rewrite Hin, fmap_app.
  - apply Forall_app. split; [done|by apply Forall_singleton].
Qed.

(** Delivery changes nothing a checkout looks at. *)
Lemma checkout_delivered w w1 m id :
  heap w1 = (λ i, set_sock (deliver m (sock i)) i) <$> heap w → subscriptions w1 = subscriptions w →
  checkout w1 id = checkout w id.
Proof.
  intros Hh Hs. unfold checkout. rewrite Hs. destruct (map_find id (subscriptions w)); [|done].
  rewrite Hh, list_lookup_fmap. by destruct (heap w !! _).
Qed.

Lemma checked_out_ext w w1 ids errors : (∀ id, checkout w1 id = checkout w id) →
  checked_out w1 ids = checked_out w ids ∧
  checkout_errors w1 errors ids = checkout_errors w errors ids.
Proof.
  intros Hco. split; [unfold checked_out|unfold checkout_errors; revert errors];
    induction ids as [|id ids IH]; try done; simpl.
  - rewrite Hco. unfold omap in IH. by rewrite IH.
  - intros errors. by rewrite Hco, IH.
Qed.

Lemma handed_delivered w w1 m pubs s k :
  heap w1 = (λ i, set_sock (deliver m (sock i)) i) <$> heap w →
  handed_at w1 pubs s k = handed_at w pubs s k.
Proof. intros Hh. unfold handed_at. rewrite Hh, list_lookup_fmap. by destruct (heap w !! _). Qed.

(** The receiving process: one message at its door, publications waiting on the
    polled subscriptions, nothing failing. *)
Record receiver (w : W) (ids : list OID) (pubs : nat → list publication) (p : publication) : Prop := {
  rc_pre : poll_pre w ids;
  rc_calls n : zmq_fails sys n = None;
  rc_some : checked_out w ids ≠ [];
  rc_holds s : s ∈ checked_out w ids → holds w s (pubs s.2);
  rc_receive s i q : s ∈ checked_out w ids → heap w !! s.2 = Some i → q ∈ p :: pubs s.2 →
    is_Ok (receive i s.1 q) = true
}.

(** C2: When one process publishes a document and the message it sent is the
    next one on the receiving socket of another, then once the proxy has run, a
    poll there returns exactly what its subscriptions make of what they already
    held and, for those whose channel it matches, of that publication. *)
Theorem publish_to_poll sender c m ws ws' s s' w ids pubs r frames rest millis again errors :
  let p := mkPub c m (clockMicros ws) in
  pubsubEnabled ws = true → extSendSocket ws = Some s → idle s →
  (∀ d, dbEventSocket ws = Some d → idle d) →
  publish (Mt:=Mt) (Pt:=Pt) sender c m ws = (Ok true, ws') →
  extSendSocket ws' = Some s' → outbox s' = outbox s ++ [frames] →
  extRecvSocket w = Some r → inbox r = frames :: rest →
  pub_wf p → receiver w ids pubs p →
  ∃ w1 q w2, proxy_step w = (Ok (), w1) ∧
    poll (Q:=Q) sys ids 0 millis again errors w1
    = (Ok (mkPoll q 0 again (checkout_errors w errors ids)), w2) ∧
    pq_elems q ≡ₚ all_handed w (reached w p pubs) (checked_out w ids).
Proof.
  intros p Hen Hs Hidle Hd Hpub Hs' Hout Hr Hin Hwf [Hpre Hz Hne Hh Hrec].
  assert (frames = pub_frames p) as ->.
  { pose proof (wp_publish sender c m ws s Hen Hs Hidle Hd) as Hwp. unfold wp in Hwp.
    rewrite Hpub in Hwp. destruct Hwp as (_ & Hext & _). rewrite Hs, Hs' in Hext.
    injection Hext as ->. simpl in Hout. by simplify_list_eq. }
  destruct (proxy_step_run w r (pub_frames p) rest Hr Hin) as (r' & _ & Hproxy).
  set (w1 := set_heap _ _) in Hproxy.
  assert (heap w1 = (λ i, set_sock (deliver (pub_frames p) (sock i)) i) <$> heap w) as Hheap by done.
  assert (∀ id, checkout w1 id = checkout w id) as Hco by by intros; eapply checkout_delivered.
  destruct (checked_out_ext w w1 ids errors Hco) as [Hcs Hce].
  destruct (poll_now_run (Q:=Q) sys ids millis again errors w1 (reached w p pubs)) as (q & w2 & Hrun & Hq & _).
  - destruct Hpre. split; try done. pose proof (preserves_proxy_step w) as Hwp.
    unfold wp in Hwp. rewrite Hproxy in Hwp. auto.
  - done.
  - by rewrite Hcs.
  - rewrite Hcs. intros x Hx. eapply holds_delivered; [done|done|by apply Hh].
  - rewrite Hcs. intros x j q Hx Hj Hq. rewrite Hheap, list_lookup_fmap in Hj.
    destruct (heap w !! x.2) as [i|] eqn:Hi; [|done]. injection Hj as <-.
    apply (Hrec x i q Hx Hi). unfold reached in Hq. rewrite Hi in Hq. case_match; set_solver.
  - exists w1, q, w2. rewrite Hcs, Hce in *. split_and!; [done|done|]. rewrite Hq.
    unfold all_handed. apply eq_subrelation; [apply _|]. f_equal. apply list_fmap_ext. intros k x _. by eapply handed_delivered.
Qed.
End endtoend.

(** ** At a concrete process *)

Definition with_recv (m : list (list string)) (w : SWorld) : SWorld :=
  set_extRecvSocket (Some (mkSocket ZMQ_SUB true [""] kDefaultHwm kDefaultHwm [] [] m [] [] [])) w.

Lemma publish_to_poll_witness :
  let p := mkPub "B" [("x", VInt 2)] 1000000 in
  let w := with_recv [pub_frames p] two_subs in
  ∃ w1 (q : queue) w2, proxy_step w = (Ok (), w1) ∧
    poll quiet both 0 0 false [] w1
    = (Ok (mkPoll q 0 false (checkout_errors w [] both)), w2) ∧
    pq_elems q ≡ₚ all_handed w (reached w p sample_pubs) (checked_out w both).
Proof.
  eapply (publish_to_poll quiet quiet "B" [("x", VInt 2)] fresh_world); try done.
  - solve_wf.
  - split; [by destruct sample_pre; split; try done; apply (wf_same two_subs)|done|done|
      by apply sample_holds|].
    exact sample_receives.
Defined.
