(* ===== verification/FilteredPoll.v ===== *)
(** * Polling with filters and projections

    The delivery guarantee of [poll] for subscriptions whose filter and projection
    were made by the parsers of db/matcher/ and db/projection.cpp: what a poll
    returns is determined by the queries and the lists of fields the clients
    subscribed with.  And what happens when a filter throws. *)

From S2P Require Import Prelude Monad StdMap Bytes Oid Doubles Bson BsonBytes BsonCompare HostPort Zmq World.
From S2P Require Import MatchExpr MatchSpec MatchParser FilterSpec Projection ProjectionSpec FilterOps.
From S2P Require Import PubSub PQueue PubSubInv Sample PubSubPoll PubSubSafe PubSubDeliver PollSpec.

(** [picks P l l']: [l'] are the elements of [l] with [P], in order. *)
Inductive picks {A} (P : A → Prop) : list A → list A → Prop :=
| picks_nil : picks P [] []
| picks_yes x l l' : P x → picks P l l' → picks P (x :: l) (x :: l')
| picks_no x l l' : ¬ P x → picks P l l' → picks P (x :: l) l'.

Lemma picks_filter {A} (P : A → Prop) (f : A → bool) l :
  (∀ x, x ∈ l → f x = true ↔ P x) → picks P l (filter (λ x, f x = true) l).
Proof.
  induction l as [|x l IH]; intros Hf; [constructor|]. rewrite filter_cons.
  assert (picks P l (filter (λ x, f x = true) l)) as Hl by (apply IH; intros; apply Hf; by right).
  case_decide as Hx; rewrite (Hf x (list_elem_of_here _ _)) in Hx; [by apply picks_yes|by apply picks_no].
Qed.

Section filtered.
Context `{ParserLaws} {Q : Type} `{PriorityQueueLaws Q}.
Context (sys : System Matcher2 Projection).
Abbreviation W := (World Matcher2 Projection).
Implicit Types (w : W) (i : SubscriptionInfo Matcher2 Projection).

(** A message satisfies the query of a subscription, if there is one. *)
Definition wanted (query message : BSONObj) : Prop :=
  query = [] ∨ ∃ m, Matcher2_new query = Ok m ∧ sat (expression m) message.

(** The fields of it the subscription asked for. *)
Definition shown (spec message : BSONObj) : BSONObj := filter (λ e, stays spec (fieldName e) = true) message.

(** The subscription [i] was made with the given filter and list of fields. *)
Record made_with i (query spec : BSONObj) : Prop := {
  mw_filter : optional Matcher2_new query = Ok (filter_ i);
  mw_projection : optional Projection_init spec = Ok (projection_ i);
  mw_tame : tame (VObject query) = true;
  mw_simple : Forall (λ e, simple e = true) spec
}.

Lemma wf_no_eoo o : obj_wf o → Forall (λ e, eoo e = false) o.
Proof.
  intros [Ho _]. induction o as [|[n v] o IH]; [done|]. destruct Ho as (_ & Hv & Ho).
  constructor; [by destruct v|by apply IH].
Qed.

Lemma optional_inv {A} (mk : BSONObj → res A) d o : optional mk d = Ok o →
  d = [] ∧ o = None ∨ d ≠ [] ∧ ∃ a, mk d = Ok a ∧ o = Some a.
Proof.
  unfold optional. destruct d as [|e d]; [intros [= <-]; by left|]. cbn [isEmpty].
  destruct (mk (e :: d)) as [a|]; [|done]. intros [= <-]. right. split; [done|]. by exists a.
Qed.

(** The filter a subscription was made with decides. *)
Lemma filter_wanted i query spec message : made_with i query spec → tame (VObject message) = true →
  ∃ b, match filter_ i with Some m => matcher_matches m message | None => Ok true end = Ok b ∧
    (b = true ↔ wanted query message).
Proof.
  intros [Hf _ Ht _] Hm. destruct (optional_inv _ _ _ Hf) as [[-> ->]|(Hne & m & Hnew & ->)].
  - clear Hf. exists true. split; [done|]. split; [by left|done].
  - pose proof (matcher_decides query Ht) as Hd.
    rewrite Hnew in Hd. destruct (Hd message Hm) as (b & Hb & Hs). exists b. split; [exact Hb|].
    rewrite Hs. clear Hd Hf Hs. unfold wanted. split; [intros Hsat; right; exact (ex_intro _ m (conj Hnew Hsat))|].
    intros [Hq|(m' & Hm' & Hsat)]; [by destruct (Hne Hq)|]. rewrite Hnew in Hm'. injection Hm' as <-. exact Hsat.
Qed.

Lemma shown_all message : shown [] message = message.
Proof.
  unfold shown. induction message as [|e l IH]; [done|]. rewrite filter_cons, IH, decide_True; [done|].
  unfold stays. by case_match.
Qed.

Lemma projection_shown i query spec message : made_with i query spec → obj_wf message →
  match projection_ i with Some p => projection_transform p message | None => Ok message end
  = Ok (shown spec message).
Proof.
  intros [_ Hp _ Hs] Hm. destruct (optional_inv _ _ _ Hp) as [[-> ->]|(_ & p & Hnew & ->)].
  - by rewrite shown_all.
  - pose proof (projection_switches spec Hs) as Hd.
    rewrite Hnew in Hd. case_bool_decide; [done|]. destruct Hd as (p' & Hp' & Ht). injection Hp' as <-.
    by apply Ht, wf_no_eoo.
Qed.

Definition message_of (id : OID) (spec : BSONObj) (p : publication) : SubscriptionMessage :=
  mkMessage id (pub_channel p) (shown spec (pub_message p)) (pub_time p).

(** What a subscription makes of a publication, from what it was made with. *)
Lemma receive_made i query spec id p :
  made_with i query spec → pub_wf p → tame (VObject (pub_message p)) = true →
  ∃ b : bool, receive i id p = Ok (if b then Some (message_of id spec p) else None) ∧
    (b = true ↔ wanted query (pub_message p)).
Proof.
  intros Hi (_ & Hwf & _) Ht. destruct (filter_wanted i query spec _ Hi Ht) as (b & Hb & Hw).
  exists b. split; [|done]. unfold receive. rewrite Hb. cbn [mbind res_bind]. destruct b; [|done].
  cbn [negb]. by rewrite (projection_shown i query spec) by done.
Qed.

Definition taken_by i id (p : publication) : bool :=
  match receive i id p with Ok (Some _) => true | _ => false end.

Lemma handed_made i query spec id pubs : made_with i query spec → Forall pub_wf pubs →
  Forall (λ p, tame (VObject (pub_message p)) = true) pubs →
  picks (λ p, wanted query (pub_message p)) pubs (filter (λ p, taken_by i id p = true) pubs) ∧
  handed i id pubs = message_of id spec <$> filter (λ p, taken_by i id p = true) pubs.
Proof.
  intros Hi Hwf Ht. split.
  - apply picks_filter. intros p Hp. rewrite Forall_forall in Hwf, Ht.
    destruct (receive_made i query spec id p) as (b & Hr & Hb); auto.
    unfold taken_by. rewrite Hr. by destruct b.
  - unfold handed. induction pubs as [|p pubs IH]; [done|]. inv Hwf. inv Ht.
    cbn [omap list_omap]. rewrite IH, filter_cons by done.
    destruct (receive_made i query spec id p) as (b & Hr & _); auto.
    assert (taken_by i id p = b) as -> by (unfold taken_by; rewrite Hr; by destruct b).
    rewrite Hr. by destruct b.
Qed.

(** The publications a subscription of the process hands out. *)
Definition kept_at w (pubs : nat → list publication) (s : OID * nat) : list publication :=
  match heap w !! s.2 with Some i => filter (λ p, taken_by i s.1 p = true) (pubs s.2) | None => [] end.

Lemma handed_at_made w pubs s query spec :
  holds w s (pubs s.2) → (∀ i, heap w !! s.2 = Some i → made_with i query spec) →
  (∀ p, p ∈ pubs s.2 → tame (VObject (pub_message p)) = true) →
  picks (λ p, wanted query (pub_message p)) (pubs s.2) (kept_at w pubs s) ∧
  handed_at w pubs s (length (pubs s.2)) = message_of s.1 spec <$> kept_at w pubs s.
Proof.
  intros (i & Hi & _ & _ & _ & Hwf) Hm Ht. unfold kept_at, handed_at. rewrite Hi, firstn_all.
  apply handed_made; [by apply Hm|done|by apply Forall_forall].
Qed.

(** C4: A poll with timeout 0 over working sockets, for subscriptions made with
    filters and lists of top-level fields: it returns, and its messages are exactly
    these. For every subscription taken, the publications it holds that satisfy
    its query, each with the fields asked for. *)
Theorem filtered_poll ids millis again errors w pubs (query spec : nat → BSONObj) :
  poll_pre w ids → (∀ n, zmq_fails sys n = None) → checked_out w ids ≠ [] →
  (∀ s, s ∈ checked_out w ids → holds w s (pubs s.2)) →
  (∀ s i, s ∈ checked_out w ids → heap w !! s.2 = Some i → made_with i (query s.2) (spec s.2)) →
  (∀ s p, s ∈ checked_out w ids → p ∈ pubs s.2 → tame (VObject (pub_message p)) = true) →
  ∃ q w' kept, poll (Q:=Q) sys ids 0 millis again errors w
          = (Ok (mkPoll q 0 again (checkout_errors w errors ids)), w') ∧
    Forall2 (λ s l, picks (λ p, wanted (query s.2) (pub_message p)) (pubs s.2) l) (checked_out w ids) kept ∧
    pq_elems q ≡ₚ concat (zip_with (λ s l, message_of s.1 (spec s.2) <$> l) (checked_out w ids) kept).
Proof.
  intros Hpre Hz Hne Hh Hm Ht.
  assert (∀ s i p, s ∈ checked_out w ids → heap w !! s.2 = Some i → p ∈ pubs s.2 → pub_wf p) as Hwf.
  { intros s i p Hs Hi Hp. destruct (Hh s Hs) as (j & _ & _ & _ & _ & Hall). by eapply Forall_forall in Hall. }
  destruct (poll_now_run (Q:=Q) sys ids millis again errors w pubs Hpre Hz Hne Hh) as (q & w' & Hrun & Hq & _).
  { intros s i p Hs Hi Hp. destruct (receive_made i (query s.2) (spec s.2) s.1 p) as (b & -> & _); eauto. }
  exists q, w', (kept_at w pubs <$> checked_out w ids). split_and!; [exact Hrun| |].
  - apply Forall2_fmap_r, Forall_Forall2_diag, Forall_forall. intros s Hs.
    apply (handed_at_made w pubs s (query s.2) (spec s.2)); eauto.
  - rewrite Hq, zip_with_fmap_r, zip_with_diag. unfold all_handed. apply reflexive_eq. f_equal.
    apply list_fmap_ext. intros k s Hs%list_elem_of_lookup_2.
    apply (handed_at_made w pubs s (query s.2) (spec s.2)); eauto.
Qed.
End filtered.

(** ** When a filter throws *)

Section stranded.
Context {Mt Pt Q : Type} `{MatcherOps Mt} `{ProjectionOps Pt} `{PriorityQueueLaws Q}.
Context (sys : System Mt Pt).
Implicit Types (w : World Mt Pt) (i : SubscriptionInfo Mt Pt).

Lemma wp_throws {A} (m : M (World Mt Pt) A) (E : exn → World Mt Pt → Prop) w :
  wp m (λ _ _, False) E w → ∃ e w', m w = (Throw e, w') ∧ E e w'.
Proof. unfold wp. destruct (m w) as [[a|e] w']; [done|eauto]. Qed.

(** The first publication that makes the filter throw ends the receive loop with
    the subscription still in use. *)
Lemma recv_throws id l i p rest (q : Q) errors w e : (∀ n, zmq_fails sys n = None) →
  heap w !! l = Some i → isopen (sock i) = true → sock_pubs (sock i) (p :: rest) →
  receive i id p = Throw e → (∀ what, e ≠ ZmqError what) →
  ∃ n, recv_sub sys (q, errors) (id, l) w = (Throw e, reading l (sock i) (pub_frames <$> rest) [] n w).
Proof.
  intros Hz Hi Ho (Hpa & Hib & Hp) Hr He. apply Forall_cons in Hp as [Hp _].
  assert (∀ what, ¬ failing sys what) as Hnf by (intros what [n Hn]; by rewrite Hz in Hn).
  edestruct (wp_throws (recv_sub sys (q, errors) (id, l))
    (λ e' w', e' = e ∧ ∃ n, w' = reading l (sock i) (pub_frames <$> rest) [] n w) w)
    as (e' & w' & Hrun & -> & n & ->); [|by exists n].
  unfold recv_sub. do 2 wp_step. cbn [fst snd]. rewrite Hi. wp_step.
  eapply wp_recv_turn; [done..| | |].
  - intros n Hok. by rewrite Hr in Hok.
  - intros n e' Hr' _. rewrite Hr in Hr'. injection Hr' as <-. split; [done|by exists n].
  - intros n ib pa what [Hf|Hf]; [by destruct (Hnf what)|]. rewrite Hr in Hf. injection Hf as ->. by destruct (He what).
Qed.

(** A filter or a projection that throws on a message ends the poll with its
    exception, outside of the handlers, before the subscription is checked in: the
    message is gone from the socket and every later poll of that subscription
    answers that a poll is active. *)
Lemma filter_strands id l i p rest millis again w e :
  poll_pre w [id] → (∀ n, zmq_fails sys n = None) → checkout w id = inr l → heap w !! l = Some i →
  sock_pubs (sock i) (p :: rest) → receive i id p = Throw e → (∀ what, e ≠ ZmqError what) →
  ∃ w', poll (Q:=Q) sys [id] 0 millis again [] w = (Throw e, w') ∧ holds w' (id, l) rest ∧
    ∀ timeout millis again, poll (Q:=Q) sys [id] timeout millis again [] w'
      = (Ok (mkPoll pq_new millis again [(id, "Poll currently active.")]), w').
Proof.
  intros [Hw Hn Hl Hm] Hz Hc Hi Hp Hr He.
  destruct (checkout_live _ _ _ Hw Hc) as (Hf & i' & Hi' & Ho & _ & Hu).
  rewrite Hi in Hi'. injection Hi' as <-.
  assert (checked_out w [id] = [(id, l)]) as Hco by (unfold checked_out; cbn [omap list_omap]; by rewrite Hc).
  assert (heap (taken w [id]) !! l = Some (set_inUse 1 i)) as Hi1.
  { unfold taken. rewrite taken_lookup, Hco, Hi, decide_True by (simpl; set_solver). done. }
  destruct (recv_throws id l _ p rest (pq_new (Q:=Q)) (checkout_errors w [] [id]) (taken w [id]) e Hz Hi1)
    as [n Hrun]; [done|done|by rewrite (receive_flags _ i)|done|].
  set (w' := reading _ _ _ _ _ _) in Hrun.
  assert (recvMessages (Q:=Q) sys [(id, l)] (checkout_errors w [] [id]) (taken w [id]) = (Throw e, w')) as Hrec
    by exact (bind_Throw _ _ _ _ _ Hrun).
  assert (heap w' !! l = Some (set_sock (with_frames (pub_frames <$> rest) [] (sock i)) (set_inUse 1 i))) as Hi2
    by by apply reading_lookup.
  destruct (take_all_facts (checked_out w [id]) w Hw) as (Hw1 & Hs1 & _).
  exists w'. split_and!.
  - rewrite poll_zero by (done || by rewrite Hco). rewrite Hco. exact (bind_Throw _ _ _ _ _ Hrec).
  - eexists. split_and!; [exact Hi2|done|]. destruct Hp as (_ & _ & Hp).
    split_and!; [done|done|by apply Forall_cons in Hp as [_ Hp]].
  - assert (world_wf w') as Hw2.
    { pose proof (preserves_recvMessages (Q:=Q) sys [(id, l)] (checkout_errors w [] [id]) _ Hw1) as Hwp.
      unfold wp in Hwp. fold (taken w [id]) in Hwp. by rewrite Hrec in Hwp. }
    assert (checkout w' id = inl "Poll currently active.") as Hc2.
    { unfold checkout. change (subscriptions w') with (subscriptions (taken w [id])). unfold taken.
      rewrite Hs1, Hf, Hi2. cbn [shouldUnsub set_sock set_inUse]. by rewrite Hu. }
    intros timeout millis' again'. unfold poll. erewrite bind_Ok by by apply getSubscriptions_eq.
    unfold checked_out, checkout_errors. cbn [omap list_omap foldl]. by rewrite Hc2.
Qed.
End stranded.

(** ** At a concrete process *)

#[local] Existing Instance process_env.

Definition sample_queries (l : nat) : BSONObj := match l with 0%nat => [] | _ => [("x", VInt 2)] end.

Lemma sample_made s i : s ∈ checked_out two_subs both → heap two_subs !! s.2 = Some i →
  made_with i (sample_queries s.2) [].
Proof.
  change (checked_out two_subs both) with [(oid_of 1, 0%nat); (oid_of 2, 1%nat)].
  intros Hs Hi. repeat (apply elem_of_cons in Hs as [->|Hs]; [|]); [..|by apply elem_of_nil in Hs].
  all: injection Hi as <-; split; [vm_compute; reflexivity|reflexivity|reflexivity|constructor].
Qed.

Lemma filtered_poll_witness :
  ∃ (q : queue) w' kept, poll quiet both 0 0 false [] two_subs
          = (Ok (mkPoll q 0 false (checkout_errors two_subs [] both)), w') ∧
    Forall2 (λ s l, picks (λ p, wanted (sample_queries s.2) (pub_message p)) (sample_pubs s.2) l)
      (checked_out two_subs both) kept ∧
    pq_elems q ≡ₚ concat (zip_with (λ s l, message_of s.1 [] <$> l) (checked_out two_subs both) kept).
Proof.
  apply (filtered_poll quiet both 0 false [] two_subs sample_pubs sample_queries (λ _, []));
    [apply sample_pre|done|done|apply sample_holds|apply sample_made|].
  intros [id [|[]]] p _ Hp; cbn [snd sample_pubs] in Hp;
    repeat (apply elem_of_cons in Hp as [->|Hp]; [reflexivity|]); by apply elem_of_nil in Hp.
Defined.

(** A filter on a time stamp, and a message with a date in its place. *)
Definition filter_t : SMatcher :=
  mkMatcher2 [("t", VTimestamp 1)] (COMPARISON EQ "t" ("t", VTimestamp 1)).
Definition pub_t : publication := mkPub "A" [("t", VDate 1)] 10.
Definition time_world : SWorld :=
  sample_world true [(oid_of 1, 0%nat)] [sample_info "A" [pub_t] (Some filter_t)].

Lemma time_world_wf : world_wf time_world.
Proof.
  split.
  - repeat constructor.
  - intros id l [= -> ->]%list_elem_of_singleton. by eexists.
  - apply NoDup_singleton.
  - repeat (constructor; [split_and!; (by left) || (by right)|]). constructor.
Qed.

Lemma filter_strands_witness : ∃ w',
  poll (Q:=queue) quiet [oid_of 1] 0 0 false [] time_world = (Throw (MsgAssertionException 13111 "wrong type for field"), w') ∧
  holds w' (oid_of 1, 0%nat) [] ∧
  ∀ timeout millis again, poll (Q:=queue) quiet [oid_of 1] timeout millis again [] w'
    = (Ok (mkPoll pq_new millis again [(oid_of 1, "Poll currently active.")]), w').
Proof.
  apply (filter_strands quiet (oid_of 1) 0 (sample_info "A" [pub_t] (Some filter_t)) pub_t [] 0 false time_world);
    [split; [apply time_world_wf|apply NoDup_singleton|by vm_compute|by vm_compute]|done|by vm_compute|done| | |].
  - split_and!; [done|done|]. constructor; [solve_wf|constructor].
  - by vm_compute.
  - done.
Defined.
