(* ===== verification/PubSubConc.v ===== *)
(** * Interleavings: threads that poll, unsubscribe and clean up

    The functions of db/pubsub.cpp take [mapMutex] around their access to the
    table, so their locked regions are the atomic steps of a process with any
    number of threads; checking a socket in happens outside the lock, one store
    at a time.  The relation [step] is the union of these steps, a configuration
    also records which subscriptions each thread has checked out.  Shown for
    every reachable configuration: a subscription is checked out by at most one
    thread. *)

From S2P Require Import Prelude Monad StdMap Bytes Oid Doubles Bson BsonBytes HostPort Zmq.
From S2P Require Import World PubSub PQueue PubSubInv Sample PubSubPoll.

Section conc.
Context {Mt Pt : Type} `{MatcherOps Mt} `{ProjectionOps Pt}.
Context (sys : System Mt Pt).
Abbreviation W := (World Mt Pt).
Implicit Types (w : W) (i : SubscriptionInfo Mt Pt) (l : nat) (t : nat).

Record Conf := mkConf {
  world : W;
  held : nat → list (OID * nat)   (** per thread, what it has checked out *)
}.

Definition upd (h : nat → list (OID * nat)) t (v : list (OID * nat)) : nat → list (OID * nat) :=
  λ t', if decide (t' = t) then v else h t'.

(** The atomic steps. *)
Inductive step : Conf → Conf → Prop :=
| step_subscribe w h c f p id w' :
    subscribe sys c f p w = (Ok id, w') → step (mkConf w h) (mkConf w' h)
| step_checkout w h t id l w' :
    checkoutSocket id w = (Ok (inr l), w') →
    step (mkConf w h) (mkConf w' (upd h t ((id, l) :: h t)))
| step_checkout_fails w h id e w' :
    checkoutSocket id w = (Ok (inl e), w') → step (mkConf w h) (mkConf w' h)
| step_mark_polled w h t s :
    s ∈ h t → step (mkConf w h) (mkConf (upd_info s.2 (set_polledRecently 1) w) h)
| step_checkin w h t h1 s h2 :
    h t = h1 ++ s :: h2 →
    step (mkConf w h) (mkConf (upd_info s.2 (set_inUse 0) w) (upd h t (h1 ++ h2)))
| step_receive w h t s r w' :
    s ∈ h t → recv_dontwait sys s.2 w = (r, w') → step (mkConf w h) (mkConf w' h)
| step_interrupted w h t h1 s h2 errors r w' :
    h t = h1 ++ s :: h2 → unsub_flag w s.2 = true →
    unsubscribe s.1 errors true w = (r, w') →
    step (mkConf w h) (mkConf w' (upd h t (h1 ++ h2)))
| step_unsubscribe w h id errors r w' :
    unsubscribe id errors false w = (r, w') → step (mkConf w h) (mkConf w' h)
| step_cleanup w h r w' :
    subscriptionCleanup_pass w = (r, w') → step (mkConf w h) (mkConf w' h)
| step_proxy w h r w' :
    proxy_step w = (r, w') → step (mkConf w h) (mkConf w' h).

Definition initial (c : Conf) : Prop :=
  world_wf (world c) ∧ heap (world c) = [] ∧ ∀ t, held c t = [].

Definition reachable (c : Conf) : Prop := ∃ c0, initial c0 ∧ rtc step c0 c.

(** ** The invariant *)

Definition in_use w l : Prop := ∃ i, heap w !! l = Some i ∧ flag (inUse i) = true.

Record exclusive (c : Conf) : Prop := {
  ex_wf : world_wf (world c);
  ex_used t s : s ∈ held c t → in_use (world c) s.2;
  ex_nodup t : NoDup (held c t).*2;
  ex_disjoint t1 t2 l : t1 ≠ t2 → l ∈ (held c t1).*2 → l ∉ (held c t2).*2
}.

(** Steps that change neither who holds what nor any [inUse] bit. *)
Lemma exclusive_same w w' h :
  exclusive (mkConf w h) → world_wf w' → (∀ l, in_use w l → in_use w' l) →
  exclusive (mkConf w' h).
Proof. intros [Hw Hu Hn Hd] Hw' Huse. split; simpl in *; eauto. Qed.

Lemma in_use_upd l f w : (∀ i, flag (inUse i) = true → flag (inUse (f i)) = true) →
  ∀ l', in_use w l' → in_use (upd_info l f w) l'.
Proof.
  intros Hf l' (i & Hi & Hu). destruct (decide (l' = l)) as [->|Hne].
  - exists (f i). simpl. rewrite list_lookup_alter_eq, Hi. auto.
  - exists i. simpl. by rewrite list_lookup_alter_ne.
Qed.

(** [m] leaves every [inUse] bit set that was set. *)
Definition keeps_use {A} (m : M W A) : Prop := ∀ l, preserves (λ w : W, in_use w l) m.

Lemma keeps_use_run {A} (m : M W A) w r w' :
  keeps_use m → m w = (r, w') → ∀ l, in_use w l → in_use w' l.
Proof.
  intros Hk Hm l Hu. specialize (Hk l w Hu). unfold wp in Hk. rewrite Hm in Hk. by destruct r.
Qed.

Lemma wf_run {A} (m : M W A) w r w' : preserves world_wf m → m w = (r, w') → world_wf w → world_wf w'.
Proof. intros Hp Hm Hw. specialize (Hp w Hw). unfold wp in Hp. rewrite Hm in Hp. by destruct r. Qed.

Lemma exclusive_run {A} (m : M W A) w h r w' :
  preserves world_wf m → keeps_use m → m w = (r, w') →
  exclusive (mkConf w h) → exclusive (mkConf w' h).
Proof.
  intros Hp Hk Hm Hex. eapply exclusive_same; [done| |].
  - eapply wf_run; [done|done|]. apply Hex.
  - by eapply keeps_use_run.
Qed.

Lemma keeps_modify f : (∀ w l, in_use w l → in_use (f w) l) → keeps_use (modify f).
Proof. intros Hf l. apply preserves_modify. intros w. apply Hf. Qed.

Lemma keeps_zcall : keeps_use (zcall sys).
Proof. intros l w Hu. apply wp_zcall; done. Qed.

Lemma keeps_subscribe c f p : keeps_use (subscribe sys c f p).
Proof.
  intros l w (i & Hi & Hu). apply wp_subscribe; [|intros; by exists i].
  intros n mt pt _ _. exists i. split; [|done]. simpl. by apply lookup_app_l_Some.
Qed.

Lemma keeps_unsubscribe id errors force : keeps_use (unsubscribe (Mt:=Mt) (Pt:=Pt) id errors force).
Proof.
  intros l. unfold unsubscribe. preserves_auto; apply preserves_modify; intros w Hu;
    try (by apply in_use_upd; [intros []|]); done.
Qed.

Lemma keeps_recv l' : keeps_use (recv_dontwait sys l').
Proof.
  intros l. unfold recv_dontwait. pose proof (keeps_zcall l). preserves_auto.
  apply preserves_modify. intros w. apply in_use_upd. by intros [].
Qed.

Lemma keeps_cleanup : keeps_use (subscriptionCleanup_pass (Mt:=Mt) (Pt:=Pt)).
Proof.
  intros l. unfold subscriptionCleanup_pass. apply preserves_bind; [apply preserves_gets|].
  intros entries. induction entries as [|[id l'] entries IH]; cbn [cleanup_pass]; preserves_auto;
    apply preserves_modify; intros w Hu; try (by apply in_use_upd; [intros []|]); done.
Qed.

Lemma keeps_proxy : keeps_use (proxy_step (Mt:=Mt) (Pt:=Pt)).
Proof.
  intros l. unfold proxy_step.
  preserves_auto; apply preserves_modify; intros w (i & Hi & Hu).
  eexists. simpl. rewrite list_lookup_fmap, Hi. by split.
Qed.

Lemma keeps_checkout id : keeps_use (checkoutSocket (Mt:=Mt) (Pt:=Pt) id).
Proof.
  intros l. unfold checkoutSocket. preserves_auto. apply preserves_modify. intros w.
  apply in_use_upd. by intros [].
Qed.

Lemma checkout_took id w l w' : world_wf w → checkoutSocket id w = (Ok (inr l), w') →
  ¬ in_use w l ∧ w' = upd_info l (set_inUse 1) w ∧ (l < length (heap w))%nat.
Proof.
  intros Hw Hrun.
  assert (wp (checkoutSocket id) (λ r v, r = inr l → v = w' →
    ¬ in_use w l ∧ w' = upd_info l (set_inUse 1) w ∧ (l < length (heap w))%nat)
    (λ _ _, True) w) as Hwp.
  { apply wp_checkoutSocket; [done|done|]. intros l' i Hf Hi.
    repeat case_match; try done. intros [= ->] <-. split_and!; [|done|by eapply lookup_lt_Some].
    intros (i' & Hi' & Hu). congruence. }
  unfold wp in Hwp. rewrite Hrun in Hwp. auto.
Qed.

Lemma exclusive_checkout w h t id l w' : checkoutSocket id w = (Ok (inr l), w') →
  exclusive (mkConf w h) → exclusive (mkConf w' (upd h t ((id, l) :: h t))).
Proof.
  intros Hrun [Hw Hu Hn Hd]. simpl in *.
  destruct (checkout_took _ _ _ _ Hw Hrun) as (Hfree & -> & Hl).
  assert (∀ t', l ∉ (h t').*2) as Hnew.
  { intros t' (s & -> & Hs)%list_elem_of_fmap. by apply Hfree, (Hu t'). }
  split; simpl; [by eapply wf_run; [apply preserves_checkoutSocket| |]|..]; unfold upd.
  - intros t' s Hs. assert (s = (id, l) ∨ s ∈ h t') as [->|Hs'] by (case_decide; set_solver).
    + destruct (lookup_lt_is_Some_2 _ _ Hl) as [i Hi]. exists (set_inUse 1 i). simpl.
      by rewrite list_lookup_alter_eq, Hi.
    + apply in_use_upd; [by intros []|eauto].
  - intros t'. case_decide; [subst; apply NoDup_cons; auto|auto].
  - intros t1 t2 l' Hne. specialize (Hd t1 t2 l' Hne). pose proof (Hnew t1). pose proof (Hnew t2).
    repeat case_decide; subst; set_solver.
Qed.

(** Giving one subscription up keeps exclusion whatever happens to its bits. *)
Lemma exclusive_release w w' h t h1 s h2 : h t = h1 ++ s :: h2 → world_wf w' →
  (∀ l, l ≠ s.2 → in_use w l → in_use w' l) →
  exclusive (mkConf w h) → exclusive (mkConf w' (upd h t (h1 ++ h2))).
Proof.
  intros Ht Hw' Hk [Hw Hu Hn Hd]. simpl in *.
  assert (∀ t' s', s' ∈ upd h t (h1 ++ h2) t' → s' ∈ h t') as Hsub.
  { intros t' s'. unfold upd. case_decide; [subst; rewrite Ht; set_solver|done]. }
  pose proof (Hn t) as Hnt. rewrite Ht, fmap_app, fmap_cons in Hnt.
  split; simpl; [done|..].
  - intros t' s' Hs'. apply Hk; [|by eapply Hu, Hsub]. intros Heq.
    destruct (decide (t' = t)) as [->|Hne].
    + unfold upd in Hs'. rewrite decide_True in Hs' by done.
      apply NoDup_app in Hnt as (_ & H1 & [H2 _]%NoDup_cons).
      apply elem_of_app in Hs' as [Hs'|Hs']; apply (list_elem_of_fmap_2 snd) in Hs';
        rewrite Heq in Hs'; [|done]. apply (H1 _ Hs'). set_solver.
    + apply (Hd t' t s.2 Hne); [rewrite <- Heq|rewrite Ht];
        apply list_elem_of_fmap_2; [by apply Hsub|set_solver].
  - intros t'. unfold upd. case_decide; [subst|done]. rewrite fmap_app.
    eapply sublist_NoDup; [exact Hnt|]. apply sublist_app; [done|by constructor].
  - intros t1 t2 l Hne Hl1 Hl2. apply list_elem_of_fmap in Hl1 as (s1 & -> & Hs1).
    apply list_elem_of_fmap in Hl2 as (s2 & Heq & Hs2).
    apply (Hd t1 t2 s1.2 Hne); [|rewrite Heq]; apply list_elem_of_fmap_2; by apply Hsub.
Qed.

Lemma exclusive_step c c' : step c c' → exclusive c → exclusive c'.
Proof.
  destruct 1; intros Hex; pose proof (ex_wf _ Hex) as Hw; simpl in Hw.
  - eapply exclusive_run; [apply preserves_subscribe|apply keeps_subscribe|done|done].
  - by eapply exclusive_checkout.
  - eapply exclusive_run; [apply preserves_checkoutSocket| |done|done].
    apply keeps_checkout.
  - eapply exclusive_same; [done| |apply in_use_upd; by intros []].
    apply wf_upd_info; [apply info_ok_polledRecently|done|done].
  - eapply exclusive_release; [done| | |done].
    + apply wf_upd_info; [apply info_ok_inUse|done|done].
    + intros l Hne (i & Hi & Hu). exists i. simpl. by rewrite list_lookup_alter_ne.
  - eapply exclusive_run; [apply preserves_recv_dontwait|apply keeps_recv|done|done].
  - eapply exclusive_release; [done| | |done].
    + by eapply wf_run; [apply preserves_unsubscribe| |].
    + intros l _. by eapply keeps_use_run; [apply keeps_unsubscribe|].
  - eapply exclusive_run; [apply preserves_unsubscribe|apply keeps_unsubscribe|done|done].
  - eapply exclusive_run; [apply preserves_cleanup|apply keeps_cleanup|done|done].
  - eapply exclusive_run; [apply preserves_proxy_step|apply keeps_proxy|done|done].
Qed.

Lemma exclusive_initial c : initial c → exclusive c.
Proof.
  intros (Hw & Hh & Hn). split; [done|..].
  - intros t s Hs. rewrite Hn in Hs. by apply elem_of_nil in Hs.
  - intros t. rewrite Hn. constructor.
  - intros t1 t2 l _ Hl. rewrite Hn in Hl. by apply elem_of_nil in Hl.
Qed.

Lemma exclusive_reachable c : reachable c → exclusive c.
Proof.
  intros (c0 & Hc0 & Hsteps). apply exclusive_initial in Hc0.
  induction Hsteps as [|c1 c2 c3 Hs _ IH]; [done|]. by eapply IH, exclusive_step.
Qed.

(** C5: However the locked regions of any number of polls, unsubscriptions,
    cleanups and deliveries interleave, a subscription is checked out by at most
    one thread, at most once, and is marked in use as long as it is. *)
Theorem poll_exclusive c : reachable c → ∀ t1 t2 k1 k2 s1 s2,
  held c t1 !! k1 = Some s1 → held c t2 !! k2 = Some s2 → s1.2 = s2.2 →
  t1 = t2 ∧ k1 = k2 ∧ in_use (world c) s1.2.
Proof.
  intros [Hw Hu Hn Hd]%exclusive_reachable t1 t2 k1 k2 s1 s2 H1 H2 Heq.
  assert (t1 = t2) as ->.
  { destruct (decide (t1 = t2)) as [|Hne]; [done|]. destruct (Hd t1 t2 s1.2 Hne).
    - apply list_elem_of_fmap_2, list_elem_of_lookup. by exists k1.
    - rewrite Heq. apply list_elem_of_fmap_2, list_elem_of_lookup. by exists k2. }
  split_and!; [done| |].
  - eapply (NoDup_lookup _ _ _ s1.2 (Hn t2)); rewrite list_lookup_fmap; [by rewrite H1|].
    rewrite H2. simpl. by rewrite Heq.
  - apply (Hu t2), list_elem_of_lookup. by exists k1.
Qed.
End conc.

(** ** Schedules of a concrete process *)

Definition nobody (t : nat) : list (OID * nat) := [].

Definition conf0 : Conf := mkConf fresh_world nobody.

Definition run {A} (m : M SWorld A) (w : SWorld) : SWorld := (m w).2.

(** The identifier the first subscription gets. *)
Definition first_id : OID := (OID_init 1 sample_machine 100).1.

(** A client subscribes and polls. *)
Definition w_subscribed : SWorld := run (subscribe quiet "A" [] []) fresh_world.
Definition w_polling : SWorld := run (checkoutSocket first_id) w_subscribed.
Definition conf_polling : Conf := mkConf w_polling (upd nobody 0 [(first_id, 0%nat)]).

Lemma subscribed_step : step quiet conf0 (mkConf w_subscribed nobody).
Proof. apply (step_subscribe quiet fresh_world nobody "A" [] [] first_id w_subscribed). reflexivity. Qed.

Lemma conf_polling_reachable : reachable quiet conf_polling.
Proof.
  exists conf0. split; [split_and!; [apply fresh_wf|done|done]|].
  eapply rtc_l; [apply subscribed_step|].
  eapply rtc_l; [|apply rtc_refl].
  by apply (step_checkout quiet w_subscribed nobody 0 first_id 0 w_polling).
Qed.

Lemma poll_exclusive_witness : in_use (world conf_polling) 0.
Proof.
  apply (poll_exclusive quiet conf_polling conf_polling_reachable 0 0 0 0
    (first_id, 0%nat) (first_id, 0%nat)); reflexivity.
Defined.

(** The cleanup thread can close the socket of a subscription while a poll
    has it checked out: the mark that protects it is set when the poll gives the
    socket back, not when it takes it. *)
Lemma cleanup_closes_polled : ∃ c t s i,
  reachable quiet c ∧ s ∈ held c t ∧ heap (world c) !! s.2 = Some i ∧ isopen (sock i) = false.
Proof.
  set (w1 := run subscriptionCleanup_pass w_subscribed).
  set (w2 := run (checkoutSocket first_id) w1).
  set (w3 := run subscriptionCleanup_pass w2).
  exists (mkConf w3 (upd nobody 0 [(first_id, 0%nat)])), 0%nat, (first_id, 0%nat).
  eexists. split_and!; [|apply list_elem_of_here|done|done].
  exists conf0. split; [split_and!; [apply fresh_wf|done|done]|].
  eapply rtc_l; [apply subscribed_step|].
  eapply rtc_l; [by apply (step_cleanup quiet w_subscribed nobody (Ok ()) w1)|].
  eapply rtc_l; [by apply (step_checkout quiet w1 nobody 0 first_id 0 w2)|].
  eapply rtc_l; [|apply rtc_refl].
  by apply (step_cleanup quiet w2 _
    (Throw (UndefinedBehaviour "increment of an erased iterator")) w3).
Qed.

(** An unsubscription that is accepted while a poll is active can be lost:
    when the poll ends without looking at the flag again, the subscription stays
    in the table, in use by nobody, and can be neither polled nor delivered. *)
Lemma unsubscribe_lost : ∃ c id l i,
  reachable quiet c ∧ (∀ t, held c t = []) ∧
  map_find id (subscriptions (world c)) = Some l ∧ heap (world c) !! l = Some i ∧
  flag (shouldUnsub i) = true ∧ flag (inUse i) = false ∧
  checkoutSocket id (world c) = (Ok (inl "Subscription not found."), world c).
Proof.
  set (w1 := run (unsubscribe first_id [] false) w_polling).
  set (w2 := upd_info 0 (set_polledRecently 1) w1).
  exists (mkConf (upd_info 0 (set_inUse 0) w2) (upd (upd nobody 0 [(first_id, 0%nat)]) 0 [])),
    first_id, 0%nat. eexists.
  split_and!; [|intros t; unfold upd, held; by repeat case_decide|done|done|done|done|done].
  destruct conf_polling_reachable as (c0 & Hc0 & Hs). exists c0. split; [done|]. etrans; [done|].
  eapply rtc_l; [by apply (step_unsubscribe quiet w_polling _ first_id [] (Ok []) w1)|].
  eapply rtc_l; [by apply (step_mark_polled quiet w1 _ 0 (first_id, 0%nat)); left|].
  eapply rtc_l; [|apply rtc_refl].
  by apply (step_checkin quiet w2 _ 0 [] (first_id, 0%nat) []).
Qed.
