(* ===== verification/Auth.v ===== *)
(** * Who may run a command

    The resources a command names (db/commands.cpp,
    db/auth/resource_pattern.h) and the check of the session's users against them
    (db/auth/authorization_session.cpp, db/auth/action_set.cpp, db/auth/user.cpp). *)

From stdpp Require Import gmap strings.
From S2P Require Import Prelude StdMap Bytes Oid Bson Namespace.

(** ** Resources and actions *)

Inductive MatchType :=
  | matchNever | matchClusterResource | matchDatabaseName | matchCollectionName
  | matchExactNamespace | matchAnyNormalResource | matchAnyResource.

#[global] Instance MatchType_eq_dec : EqDecision MatchType.
Proof. solve_decision. Defined.

Record ResourcePattern := mkPattern { matchType : MatchType; rp_ns : NamespaceString }.

Definition forAnyResource : ResourcePattern := mkPattern matchAnyResource NamespaceString_default.
Definition forAnyNormalResource : ResourcePattern := mkPattern matchAnyNormalResource NamespaceString_default.
Definition forDatabaseName (dbName : string) : res ResourcePattern :=
  n ← NamespaceString_pair dbName ""; Ok (mkPattern matchDatabaseName n).
Definition forCollectionName (collectionName : string) : res ResourcePattern :=
  n ← NamespaceString_pair "" collectionName; Ok (mkPattern matchCollectionName n).
Definition forExactNamespace (ns : NamespaceString) : ResourcePattern := mkPattern matchExactNamespace ns.

Definition ResourcePattern_eqb (a b : ResourcePattern) : bool :=
  bool_decide (matchType a = matchType b) && String.eqb (ns_text (rp_ns a)) (ns_text (rp_ns b)).

Definition isExactNamespacePattern (p : ResourcePattern) : bool := bool_decide (matchType p = matchExactNamespace).
Definition isDatabasePattern (p : ResourcePattern) : bool := bool_decide (matchType p = matchDatabaseName).
Definition databaseToMatch (p : ResourcePattern) : string := ns_db (rp_ns p).

(** An [ActionType] is its name; [anyAction] stands for all of them. *)
Definition ActionSet : Type := gset string.
Definition anyAction : string := "anyAction".

Definition removeAllActionsFromSet (s other : ActionSet) : ActionSet :=
  let s := s ∖ other in
  if decide (other = ∅) then s else s ∖ {[anyAction]}.

Record Privilege := mkPrivilege { resource : ResourcePattern; actions : ActionSet }.

(** ** Users *)

(** [_privileges] is a hash table by resource, here the list of its entries;
    [schema24] and [probed] are the version of the user's document and the databases
    it was probed for. *)
Record User := mkUser {
  privileges : list Privilege;
  schema24 : bool;
  probed : list string
}.

Definition getActionsForResource (u : User) (r : ResourcePattern) : ActionSet :=
  match list_find (λ p, ResourcePattern_eqb (resource p) r = true) (privileges u) with
  | Some (_, p) => actions p
  | None => ∅
  end.

Definition hasProbedV1 (u : User) (db : string) : bool := bool_decide (db ∈ probed u).

(** What the session knows of its connection, and its authenticated users. *)
Record Session := mkSession {
  authEnabled : bool;
  isGod : bool;
  allowLocalhost : bool;
  isLocalHostConnection : bool;
  authenticatedUsers : list User
}.

Definition shouldIgnoreAuthChecks (s : Session) : bool :=
  isGod s || (negb (authEnabled s) || (allowLocalhost s && isLocalHostConnection s)).

Definition buildResourceSearchList (target : ResourcePattern) : res (list ResourcePattern) :=
  l ← (if isExactNamespacePattern target then
         l ← (if negb (ns_isSystem (rp_ns target)) then
                d ← forDatabaseName (ns_db (rp_ns target)); Ok [forAnyNormalResource; d]
              else Ok []);
         c ← forCollectionName (ns_coll (rp_ns target)); Ok (l ++ [c])
       else if isDatabasePattern target then Ok [forAnyNormalResource]
       else Ok []);
  Ok (forAnyResource :: l ++ [target]).

(** The inner loop: what one user leaves of the requirements, the rest of the list
    being skipped once nothing is left. *)
Fixpoint search_loop (u : User) (l : list ResourcePattern) (unmet : ActionSet) : ActionSet :=
  match l with
  | [] => unmet
  | r :: l =>
      let unmet := removeAllActionsFromSet unmet (getActionsForResource u r) in
      if decide (unmet = ∅) then unmet else search_loop u l unmet
  end.

Section authorization.
(** [acquireV1UserProbedForDb]: the user with what its document in a database says,
    unless that cannot be fetched. *)
Context (acquireV1 : User → string → option User).

Definition probe_user (target : ResourcePattern) (u : User) : User :=
  if schema24 u && (isDatabasePattern target || isExactNamespacePattern target)
     && negb (hasProbedV1 u (databaseToMatch target))
  then default u (acquireV1 u (databaseToMatch target))
  else u.

Fixpoint users_loop (target : ResourcePattern) (l : list ResourcePattern) (unmet : ActionSet)
    (users : list User) : bool * list User :=
  match users with
  | [] => (false, [])
  | u :: users =>
      let u := probe_user target u in
      let unmet := search_loop u l unmet in
      if decide (unmet = ∅) then (true, u :: users)
      else let '(ok, users) := users_loop target l unmet users in (ok, u :: users)
  end.

(** [_isAuthorizedForPrivilege]; the users of the session may get replaced. *)
Definition isAuthorizedForPrivilege (s : Session) (p : Privilege) : res (bool * Session) :=
  l ← buildResourceSearchList (resource p);
  let '(ok, users) := users_loop (resource p) l (actions p) (authenticatedUsers s) in
  Ok (ok, mkSession (authEnabled s) (isGod s) (allowLocalhost s) (isLocalHostConnection s) users).

Fixpoint privileges_loop (s : Session) (ps : list Privilege) : res (bool * Session) :=
  match ps with
  | [] => Ok (true, s)
  | p :: ps =>
      '(ok, s) ← isAuthorizedForPrivilege s p;
      if negb ok then Ok (false, s) else privileges_loop s ps
  end.

Definition isAuthorizedForPrivileges (s : Session) (ps : list Privilege) : res (bool * Session) :=
  if shouldIgnoreAuthChecks s then Ok (true, s) else privileges_loop s ps.
End authorization.

(** ** What a command needs *)

(** [parseNs]: the argument of the command as a collection, read up to a NUL. *)
Definition parseNs (dbname : string) (cmdObj : BSONObj) : string :=
  match (firstElement cmdObj).2 with
  | VString s => dbname +:+ String dot (c_string s)
  | _ => dbname
  end.

Definition parseResourcePattern (dbname : string) (cmdObj : BSONObj) : res ResourcePattern :=
  let ns := parseNs dbname cmdObj in
  match str_index dot ns with
  | None => forDatabaseName ns
  | Some _ => Ok (forExactNamespace (NamespaceString_of ns))
  end.

(** [addRequiredPrivileges] of each of the four commands. *)
Definition addRequiredPrivileges (dbname : string) (cmdObj : BSONObj) : res (list Privilege) :=
  r ← parseResourcePattern dbname cmdObj; Ok [mkPrivilege r {["find"]}].
