(* ===== verification/Commands.v ===== *)
(** * The client commands: db/commands/pubsub_commands.cpp

    [publish], [subscribe], [poll] and [unsubscribe]: argument checks in the
    order of the code, the call into [PubSub] or [PubSubSendSocket], and the
    result document. *)

From S2P Require Import Prelude Monad StdMap Bytes Oid Doubles Bson BsonBytes HostPort.
From S2P Require Import ParseNumber Zmq World SendSock PubSub.

(** ** Field names *)

Definition kSubscriptionId : string := "subscriptionId".
Definition kPublishField : string := "publish".
Definition kMessageField : string := "message".
Definition kSubscribeField : string := "subscribe".
Definition kFilterField : string := "filter".
Definition kProjectionField : string := "projection".
Definition kPollField : string := "poll".
Definition kTimeoutField : string := "timeout".
Definition kMillisPolledField : string := "millisPolled".
Definition kPollAgainField : string := "pollAgain".
Definition kMessagesField : string := "messages".
Definition kErrorField : string := "errors".
Definition kUnsubscribeField : string := "unsubscribe".

Definition typeName (t : BSONType) : string :=
  match t with
  | MinKey => "MinKey" | EOO => "EOO" | NumberDouble => "NumberDouble" | String_ => "String"
  | Object => "Object" | Array => "Array" | BinData => "BinaryData" | Undefined => "Undefined"
  | jstOID => "OID" | Bool => "Bool" | Date => "Date" | jstNULL => "NULL" | RegEx => "RegEx"
  | DBRef => "DBRef" | Code => "Code" | Symbol => "Symbol" | CodeWScope => "CodeWScope"
  | NumberInt => "NumberInt32" | Timestamp => "Timestamp" | NumberLong => "NumberLong64"
  | MaxKey => "MaxKey"
  end.

Definition quoted (s : string) : string := String (byte_of 34) (s +:+ String (byte_of 34) "").

(** ** Arguments *)

Fixpoint validate_elements (elements : list BSONElement) (oids : list OID) : res (list OID) :=
  match elements with
  | [] => Ok oids
  | it :: elements =>
      _ ← uassert 18544
            ("Each subscriptionId in the subscriptionId array must be an ObjectID but found a "
               +:+ typeName (type it)) (bool_decide (type it = jstOID));
      o ← as_OID it;
      validate_elements elements (set_insert o oids)
  end.

(** [validate]: a single identifier or an array of them, as a set. *)
Definition validate (element : BSONElement) (oids : list OID) : res (list OID) :=
  _ ← uassert 18543
        ("The subscriptionId argument must be an ObjectID or Array but was a "
           +:+ typeName (type element))
        (bool_decide (type element = jstOID) || bool_decide (type element = Array));
  if decide (type element = jstOID) then o ← as_OID element; Ok (set_insert o oids)
  else elements ← as_Array element; validate_elements elements oids.

(** The timeout argument; missing means not to wait. *)
Definition poll_timeout (timeoutElem : BSONElement) : res Z :=
  if eoo timeoutElem then Ok 0
  else
    _ ← uassert 18535
          ("The timeout argument must be an integer but was a " +:+ typeName (type timeoutElem))
          (isNumber timeoutElem);
    match type timeoutElem with
    | NumberDouble => double_floor_long (numberDouble timeoutElem)
    | NumberLong => numberLong timeoutElem
    | _ => numberInt timeoutElem
    end.

(** ** The result of poll *)

Section serialize.
Context {Q : Type} `{PriorityQueue Q}.

(** The messages of one channel: [sm] is the message on top of [q]. *)
Fixpoint array_loop (fuel : nat) (currId : OID) (currChannel : string) (sm : SubscriptionMessage)
    (q : Q) (arr : BSONObj) : res (SubscriptionMessage * Q * BSONObj) :=
  match fuel with
  | O => Throw OutOfFuel
  | S fuel =>
      if OID_eqb (subscriptionId sm) currId && StringData_eqb (channel sm) currChannel then
        let arr := arr_append arr (VObject (message sm)) in
        let q := pq_pop q in
        match pq_top q with
        | None => Ok (sm, q, arr)
        | Some sm => array_loop fuel currId currChannel sm q arr
        end
      else Ok (sm, q, arr)
  end.

(** The channels of one subscription. *)
Fixpoint channel_loop (fuel : nat) (currId : OID) (sm : SubscriptionMessage) (q : Q)
    (channelBuilder : BSONObj) : res (Q * BSONObj) :=
  match fuel with
  | O => Throw OutOfFuel
  | S fuel =>
      if bool_decide (is_Some (pq_top q)) && OID_eqb (subscriptionId sm) currId then
        let currChannel := channel sm in
        '(sm, q, arr) ← array_loop (S (length (pq_elems q))) currId currChannel sm q [];
        channel_loop fuel currId sm q (append channelBuilder currChannel (VArray arr))
      else Ok (q, channelBuilder)
  end.

Fixpoint messages_loop (fuel : nat) (q : Q) (messagesBuilder : BSONObj) : res BSONObj :=
  match fuel with
  | O => Throw OutOfFuel
  | S fuel =>
      match pq_top q with
      | None => Ok messagesBuilder
      | Some sm =>
          let currId := subscriptionId sm in
          '(q, channelBuilder) ← channel_loop (S (length (pq_elems q))) currId sm q [];
          messages_loop fuel q (append messagesBuilder (OID_toString currId) (VObject channelBuilder))
      end
  end.

Definition serialize_messages (q : Q) : res BSONObj :=
  messages_loop (S (length (pq_elems q))) q [].

Definition serialize_errors (errors : list (OID * string)) : BSONObj :=
  (λ e, (OID_toString e.1, VString e.2)) <$> errors.
End serialize.

(** ** Commands *)

Section commands.
Context {Mt Pt Q : Type} `{MatcherOps Mt} `{ProjectionOps Pt} `{PriorityQueue Q}.
Context (sys : System Mt Pt).
Abbreviation W := (World Mt Pt).

Definition PublishCommand_run (cmdObj : BSONObj) : M W BSONObj :=
  enabled ← gets pubsubEnabled;
  _ ← lift (uassert 18556 "PubSub is not enabled." enabled);
  let channelElem := getField cmdObj kPublishField in
  _ ← lift (uassert 18527
        ("The channel passed to the publish command must be a string but was a "
           +:+ typeName (type channelElem)) (bool_decide (type channelElem = String_)));
  channel ← lift (as_String channelElem);
  _ ← lift (uassert 18555
        ("The " +:+ quoted "$events" +:+ " channel is reserved fordatabase event notifications.")
        (negb (StringData_startsWith channel "$events")));
  _ ← lift (uassert 18552 "The publish command requires a message argument."
        (hasField cmdObj kMessageField));
  let messageElem := getField cmdObj kMessageField in
  _ ← lift (uassert 18528
        ("The message for the publish command must be a document but was a "
           +:+ typeName (type messageElem)) (bool_decide (type messageElem = Object)));
  message ← lift (embeddedObjectUserCheck messageElem);
  success ← publish sys channel message;
  _ ← lift (uassert 18538 "Failed to publish message." success);
  mret [].

(** An optional document argument. *)
Definition optional_object (cmdObj : BSONObj) (field : string) (code : Z) (msg : string) :
    res BSONObj :=
  if hasField cmdObj field then
    let e := getField cmdObj field in
    _ ← uassert code (msg +:+ typeName (type e)) (bool_decide (type e = Object));
    embeddedObjectUserCheck e
  else Ok [].

Definition SubscribeCommand_run (cmdObj : BSONObj) : M W BSONObj :=
  enabled ← gets pubsubEnabled;
  _ ← lift (uassert 18557 "PubSub is not enabled." enabled);
  let channelElem := getField cmdObj kSubscribeField in
  _ ← lift (uassert 18531
        ("The channel passed to the subscribe command must be a string but was a "
           +:+ typeName (type channelElem)) (bool_decide (type channelElem = String_)));
  channel ← lift (as_String channelElem);
  filter ← lift (optional_object cmdObj kFilterField 18553
        "The filter passed to the subscribe command must be an object but was a ");
  projection ← lift (optional_object cmdObj kProjectionField 18554
        "The projection passed to the subscribe command must be an object but was a ");
  oid ← subscribe sys channel filter projection;
  mret [(kSubscriptionId, VOID oid)].

Definition append_errors (errors : list (OID * string)) (result : BSONObj) : BSONObj :=
  match errors with
  | [] => result
  | _ => append result kErrorField (VObject (serialize_errors errors))
  end.

Definition PollCommand_run (cmdObj : BSONObj) : M W BSONObj :=
  enabled ← gets pubsubEnabled;
  _ ← lift (uassert 18558 "PubSub is not enabled." enabled);
  oids ← lift (validate (getField cmdObj kPollField) []);
  timeout ← lift (poll_timeout (getField cmdObj kTimeoutField));
  r ← poll (Q:=Q) sys oids timeout 0 false [];
  messages ← lift (serialize_messages (pr_messages r));
  let result := [(kMessagesField, VObject messages); (kMillisPolledField, VLong (pr_millisPolled r))] in
  let result := if pr_pollAgain r then append result kPollAgainField (VBool true) else result in
  mret (append_errors (pr_errors r) result).

Definition UnsubscribeCommand_run (cmdObj : BSONObj) : M W BSONObj :=
  enabled ← gets pubsubEnabled;
  _ ← lift (uassert 18559 "PubSub is not enabled." enabled);
  oids ← lift (validate (getField cmdObj kUnsubscribeField) []);
  errors ← foldM (λ errors oid, unsubscribe oid errors false) [] oids;
  mret (append_errors errors []).
End commands.
