(* ===== verification/Dispatch.v ===== *)
(** * From a request to a command

    How mongod runs a command (db/query/new_find.cpp, db/dbcommands.cpp and
    db/commands.cpp): finding it, checking who asks, its common options, running it
    and turning its outcome into the reply.  The commands are those of Commands.v;
    what another command does with a request is not modelled. *)

From S2P Require Import Prelude Monad StdMap Bytes Oid Doubles Bson Namespace HostPort.
From S2P Require Import ParseNumber Zmq World SendSock PubSub Auth Commands.

(** [Status]. *)
Record Status := mkStatus { code : Z; reason : string }.
Definition Status_OK : Status := mkStatus 0 "".
Definition isOK (s : Status) : bool := code s =? 0.

(** ** The reply *)

Definition appendCommandStatus (result : BSONObj) (ok : bool) (errmsg : string) : BSONObj :=
  let have_ok := hasField result "ok" in
  let have_errmsg := hasField result "errmsg" in
  let result := if negb have_ok then append result "ok" (VDouble (double_of_Z (if ok then 1 else 0))) else result in
  if negb ok && negb have_errmsg then append result "errmsg" (VString errmsg) else result.

Definition appendCommandStatus_Status (result : BSONObj) (status : Status) : BSONObj :=
  let result := appendCommandStatus result (isOK status) (reason status) in
  if negb (isOK status) && negb (hasField result "code") then append result "code" (VInt (code status)) else result.

Definition appendGLEHelperData (bob : BSONObj) (gle : option (Z * OID)) : BSONObj :=
  match gle with
  | None => bob
  | Some (opTime, oid) =>
      append bob "$gleStats" (VObject [("lastOpTime", VTimestamp opTime); ("electionId", VOID oid)])
  end.

(** ** [maxTimeMS] *)

Definition double_floor (d : Z) : Z :=
  match sf_floor (double_decode d) with Some n => double_of_Z n | None => d end.

Definition INT_MAX : Z := 2 ^ 31 - 1.

Definition parseMaxTimeMS (elt : BSONElement) : res (Status + Z) :=
  if negb (eoo elt) && negb (isNumber elt) then Ok (inl (mkStatus BadValue (fieldName elt +:+ " must be a number")))
  else
    n ← safeNumberLong elt;
    if (n <? 0) || (INT_MAX <? n) then Ok (inl (mkStatus BadValue (fieldName elt +:+ " is out of range")))
    else if bool_decide (type elt = NumberDouble) && negb (double_eqb (double_floor (numberDouble elt)) (numberDouble elt))
    then Ok (inl (mkStatus BadValue (fieldName elt +:+ " has non-integral value")))
    else Ok (inr n).

Definition parseMaxTimeMSCommand (cmdObj : BSONObj) : res (Status + Z) := parseMaxTimeMS (getField cmdObj "maxTimeMS").

(** ** The commands *)

Inductive PubSubCommand := PublishCommand | SubscribeCommand | PollCommand | UnsubscribeCommand.

#[global] Instance PubSubCommand_eq_dec : EqDecision PubSubCommand.
Proof. solve_decision. Defined.

Definition command_name (c : PubSubCommand) : string :=
  match c with
  | PublishCommand => "publish" | SubscribeCommand => "subscribe"
  | PollCommand => "poll" | UnsubscribeCommand => "unsubscribe"
  end.

Definition command_help (c : PubSubCommand) : string :=
  match c with
  | PublishCommand => "{ publish : <channel>, message : {} }"
  | SubscribeCommand => "{ subscribe : <channel>, filter : <BSONObj>, projection : <BSONObj> }"
  | PollCommand => "{ poll : <subscriptionId(s)>, timeout : <integer milliseconds> }"
  | UnsubscribeCommand => "{ unsubscribe : <subscriptionId(s)> }"
  end.

(** [findCommand], for the names of the four. *)
Definition findCommand (name : string) : option PubSubCommand :=
  snd <$> list_find (λ c, command_name c = name) [PublishCommand; SubscribeCommand; PollCommand; UnsubscribeCommand].

(** What a request finds: no command namespace, a command that is not one of the
    four, or the reply of one of them. *)
Inductive Dispatched := NotACommand | OtherCommand (name : string) | Reply (o : BSONObj).

Section dispatch.
Context {Mt Pt Q : Type} `{MatcherOps Mt} `{ProjectionOps Pt} `{PriorityQueue Q}.
Context (sys : System Mt Pt).
Context (acquireV1 : User → string → option User).
(** The text of a command in the message about a missing privilege. *)
Context (cmdText : BSONObj → string).
Abbreviation W := (World Mt Pt).

(** The server as a connection sees it: the pub/sub state, its session, the counter of
    commands, the time limit of the operation, and whether the operation is to be
    interrupted. *)
Record Conn := mkConn {
  world : W;
  session : Session;
  opCounter : Z;
  maxTimeMicros : Z;
  interrupt : option (Z * string);
  gleStats : option (Z * OID)
}.

Definition set_world (w : W) (c : Conn) : Conn :=
  mkConn w (session c) (opCounter c) (maxTimeMicros c) (interrupt c) (gleStats c).
Definition set_session (s : Session) (c : Conn) : Conn :=
  mkConn (world c) s (opCounter c) (maxTimeMicros c) (interrupt c) (gleStats c).
Definition gotCommand (c : Conn) : Conn :=
  mkConn (world c) (session c) (opCounter c + 1) (maxTimeMicros c) (interrupt c) (gleStats c).
Definition setMaxTimeMicros (n : Z) (c : Conn) : Conn :=
  mkConn (world c) (session c) (opCounter c) n (interrupt c) (gleStats c).

Definition in_world {A} (m : M W A) : M Conn A := λ c, let '(r, w) := m (world c) in (r, set_world w c).

Definition command_run (c : PubSubCommand) : BSONObj → M W BSONObj :=
  match c with
  | PublishCommand => PublishCommand_run sys
  | SubscribeCommand => SubscribeCommand_run sys
  | PollCommand => PollCommand_run (Q:=Q) sys
  | UnsubscribeCommand => UnsubscribeCommand_run
  end.

(** [_checkAuthorization]: none of the four is [adminOnly]. *)
Definition checkAuthorization (dbname : string) (cmdObj : BSONObj) : M Conn Status :=
  s ← gets session;
  if authEnabled s then
    ps ← lift (addRequiredPrivileges dbname cmdObj);
    '(ok, s) ← lift (isAuthorizedForPrivileges acquireV1 s ps);
    _ ← modify (set_session s);
    if ok : bool then mret Status_OK
    else mret (mkStatus Unauthorized ("not authorized on " +:+ dbname +:+ " to execute command " +:+ cmdText cmdObj))
  else mret Status_OK.

(** [_execCommand]: the result and whether the command succeeded; a [DBException]
    becomes the message and the code of the reply. *)
Definition _execCommand (c : PubSubCommand) (cmdObj : BSONObj) : M W (BSONObj * bool) := λ w,
  match command_run c cmdObj w with
  | (Ok result, w) => (Ok (result, true), w)
  | (Throw e, w) =>
      match assertion_of e with
      | Some (code, what) => (Ok ([("errmsg", VString ("exception: " +:+ what)); ("code", VInt code)], false), w)
      | None => (Throw e, w)
      end
  end.

(** [execCommand], of commands whose [locktype] is [NONE].  The parts that do
    nothing for the four commands are left out: the list of impersonated users, whose
    parser is a stub that finds none; the check for recovering members, as
    [maintenanceOk] holds; and [canRunHere], as [slaveOk] holds. *)
Definition execCommand (c : PubSubCommand) (cmdns : string) (cmdObj : BSONObj) : M Conn BSONObj :=
  dbname ← lift (nsToDatabase cmdns);
  if trueValue (getField cmdObj "help") then
    mret (appendCommandStatus
            [("help", VString ("help for: " +:+ command_name c +:+ " " +:+ command_help c)); ("lockType", VInt 0)]
            true "")
  else
    status ← checkAuthorization dbname cmdObj;
    if negb (isOK status) then mret (appendCommandStatus_Status [] status)
    else
      _ ← modify gotCommand;
      maxTimeMS ← lift (parseMaxTimeMSCommand cmdObj);
      match maxTimeMS with
      | inl status => mret (appendCommandStatus [] false (reason status))
      | inr ms =>
          if hasField cmdObj "$maxTimeMS" then
            mret (appendCommandStatus [] false "no such command option $maxTimeMS; use maxTimeMS instead")
          else
            _ ← modify (setMaxTimeMicros (ms * 1000));
            i ← gets interrupt;
            match i with
            | Some (code, what) => mret (appendCommandStatus_Status [] (mkStatus (convertExceptionCode code) what))
            | None =>
                '(result, retval) ← in_world (_execCommand c cmdObj);
                gle ← gets gleStats;
                mret (appendGLEHelperData (appendCommandStatus result retval "") gle)
            end
      end.

(** [_runCommands] and [runCommands] around it. *)
Definition is_query_object (cmdobj : BSONObj) : bool :=
  let e := firstElement cmdobj in
  bool_decide (type e = Object) && (String.eqb (fieldName e) "$query" || String.eqb (fieldName e) "query").

Definition command_object (cmdobj : BSONObj) : res BSONObj :=
  if is_query_object cmdobj then embeddedObject (firstElement cmdobj) else Ok cmdobj.

Definition _runCommands (ns : string) (cmdobj : BSONObj) : M Conn Dispatched :=
  _ ← lift (nsToDatabase ns);
  match str_index dot ns with
  | None => mret NotACommand
  | Some p =>
      if negb (String.eqb (str_drop p ns) ".$cmd") then mret NotACommand
      else
        jsobj ← lift (command_object cmdobj);
        if is_query_object cmdobj && hasField cmdobj "$maxTimeMS" then
          mret (Reply (appendCommandStatus [] false
            "cannot use $maxTimeMS query option with commands; use maxTimeMS command option instead"))
        else
          let e := firstElement jsobj in
          match (if eoo e then None else findCommand (fieldName e)) with
          | Some c => o ← execCommand c ns jsobj; mret (Reply o)
          | None => mret (OtherCommand (fieldName e))
          end
  end.

Definition runCommands (ns : string) (cmdobj : BSONObj) : M Conn Dispatched := λ c,
  match _runCommands ns cmdobj c with
  | (Throw e, c) =>
      match assertion_of e with
      | Some (code, what) => (Ok (Reply (appendCommandStatus_Status [] (mkStatus (convertExceptionCode code) what))), c)
      | None => (Throw e, c)
      end
  | r => r
  end.
End dispatch.
