(* ===== verification/PollResult.v ===== *)
(** * The result document of poll

    The three nested loops of [PollCommand::run] empty the queue and write every
    message once: grouped by subscription, then by channel, in the order of time.
    Proved for any queue that satisfies the interface. *)

From S2P Require Import Prelude Monad StdMap Bytes Oid Doubles Bson BsonBytes HostPort.
From S2P Require Import ParseNumber Zmq World SendSock PubSub PQueue Commands.

(** ** Groups *)

(** The messages of a subscription by channel, and of all subscriptions. *)
Abbreviation channels := (list (string * list SubscriptionMessage)).
Abbreviation groups := (list (OID * channels)).

Definition render_channel (c : string * list SubscriptionMessage) : BSONElement :=
  (c.1, VArray (arr_of ((λ m, VObject (message m)) <$> c.2))).
Definition render_group (g : OID * channels) : BSONElement :=
  (OID_toString g.1, VObject (render_channel <$> g.2)).
Definition render (gs : groups) : BSONObj := render_group <$> gs.

Definition channels_messages (cs : channels) : list SubscriptionMessage := mjoin cs.*2.
Definition groups_messages (gs : groups) : list SubscriptionMessage :=
  mjoin ((λ g, channels_messages g.2) <$> gs).

(** Messages in the order the queue gives them out. *)
Definition drained_order (l : list SubscriptionMessage) : Prop :=
  StronglySorted (λ x y, message_ltb x y = false) l.

Section drains.
Context {Q : Type} `{PriorityQueueLaws Q}.

(** [q] gives out [l], one [top] and [pop] after the other. *)
Inductive drains : Q → list SubscriptionMessage → Prop :=
| drains_nil q : pq_top q = None → drains q []
| drains_cons q m l : pq_top q = Some m → drains (pq_pop q) l → drains q (m :: l).

Lemma drains_exists q : ∃ l, drains q l ∧ l ≡ₚ pq_elems q ∧ drained_order l.
Proof.
  remember (length (pq_elems q)) as n eqn:Hn. revert q Hn.
  induction n as [|n IH]; intros q Hn; destruct (pq_top q) as [m|] eqn:Ht.
  - destruct (pq_top_Some q m Ht) as [Hp _]. rewrite Hp in Hn. done.
  - exists []. split_and!; [by constructor| |constructor]. by apply pq_top_None in Ht as ->.
  - destruct (pq_top_Some q m Ht) as [Hp Hm]. rewrite Hp in Hn. injection Hn as Hn.
    destruct (IH _ Hn) as (l & Hd & Hl & Hs). exists (m :: l). split_and!.
    + by constructor.
    + by rewrite Hp, Hl.
    + constructor; [done|]. apply Forall_forall. intros m' Hin. apply Hm. rewrite Hp.
      apply elem_of_cons. right. by rewrite <-Hl.
  - apply pq_top_None in Ht. by rewrite Ht in Hn.
Qed.

Lemma drains_perm q l : drains q l → l ≡ₚ pq_elems q.
Proof.
  induction 1 as [q Ht|q m l Ht _ IH]; [by apply pq_top_None in Ht as ->|].
  by rewrite (proj1 (pq_top_Some q m Ht)), IH.
Qed.

Lemma drains_top q l : drains q l → pq_top q = head l.
Proof. by destruct 1. Qed.

Lemma drains_pop q m l : drains q (m :: l) → drains (pq_pop q) l.
Proof. by inversion 1. Qed.

(** ** The loops *)

Definition same_key (id : OID) (ch : string) (m : SubscriptionMessage) : Prop :=
  subscriptionId m = id ∧ channel m = ch.

#[local] Instance same_key_dec id ch m : Decision (same_key id ch m).
Proof. unfold same_key. apply _. Defined.

Lemma key_test id ch m :
  OID_eqb (subscriptionId m) id && StringData_eqb (channel m) ch = bool_decide (same_key id ch m).
Proof.
  apply eq_true_iff_eq. rewrite andb_true_iff, OID_eqb_eq, StringData_eqb_eq, bool_decide_eq_true.
  done.
Qed.

(** The innermost loop takes the longest run with the key of its channel. *)
Lemma array_loop_spec fuel id ch sm q l arr :
  drains q (sm :: l) → (length (sm :: l) < fuel)%nat →
  ∃ same rest sm' q', sm :: l = same ++ rest ∧ Forall (same_key id ch) same ∧
    (∀ m, head rest = Some m → ¬ same_key id ch m) ∧ drains q' rest ∧
    (∀ m, head rest = Some m → sm' = m) ∧ (rest = [] → subscriptionId sm' = id) ∧
    array_loop fuel id ch sm q arr
    = Ok (sm', q', foldl arr_append arr ((λ m, VObject (message m)) <$> same)).
Proof.
  revert sm q l arr. induction fuel as [|fuel IH]; intros sm q l arr Hd Hf; [lia|].
  cbn [array_loop]. rewrite key_test. case_bool_decide as Hk.
  - pose proof (drains_pop _ _ _ Hd) as Hd'. rewrite (drains_top _ _ Hd').
    destruct l as [|m l]; simpl.
    + exists [sm], [], sm, (pq_pop q). split_and!; try done. { by constructor. } by destruct Hk.
    + destruct (IH m (pq_pop q) l (arr_append arr (VObject (message sm))) Hd') as
        (same & rest & sm' & q' & Heq & Hs & Hr & Hdr & Hh & He & ->); [simpl in *; lia|].
      exists (sm :: same), rest, sm', q'. split_and!; try done; [by rewrite Heq|by constructor].
  - exists [], (sm :: l), sm, q. split_and!; try done; naive_solver.
Qed.

(** A channel's block in the result: not empty, all of one key. *)
Definition channels_ok (id : OID) (cs : channels) : Prop :=
  Forall (λ c, c.2 ≠ [] ∧ Forall (same_key id c.1) c.2) cs.

(** Smaller or equal messages have a smaller or equal identifier. *)
Lemma not_lt_id x y : message_ltb x y = false →
  subscriptionId x = subscriptionId y ∨ (subscriptionId y <?k subscriptionId x) = true.
Proof.
  rewrite <-not_true_iff_false, message_ltb_lex. intros Hn.
  destruct (trichotomy (subscriptionId x) (subscriptionId y)) as [?|[?|?]]; naive_solver.
Qed.

Lemma not_lt_channel x y : message_ltb x y = false → subscriptionId x = subscriptionId y →
  channel x = channel y ∨ (channel y <?k channel x) = true.
Proof.
  rewrite <-not_true_iff_false, message_ltb_lex. intros Hn Hi.
  destruct (trichotomy (channel x) (channel y)) as [?|[?|?]]; naive_solver.
Qed.

Definition precedes (x : SubscriptionMessage) (l : list SubscriptionMessage) : Prop :=
  ∀ y, y ∈ l → message_ltb x y = false.

Lemma drained_cons m l : drained_order (m :: l) → drained_order l ∧ precedes m (m :: l).
Proof.
  intros [Hs Hm]%StronglySorted_inv. split; [done|].
  intros y [->|Hy]%elem_of_cons; [apply message_ltb_irrefl|]. by eapply Forall_forall in Hm.
Qed.

Lemma drained_app l1 l2 : drained_order (l1 ++ l2) → drained_order l2 ∧ (∀ x, x ∈ l1 → precedes x l2).
Proof.
  induction l1 as [|m l1 IH]; simpl.
  - intros Hs. split; [done|]. intros x ?%elem_of_nil. done.
  - intros [Hs Hm]%drained_cons. destruct (IH Hs) as [Hs2 Hp]. split; [done|].
    intros x [->|Hx]%elem_of_cons; [|by apply Hp]. intros y Hy. apply Hm. set_solver.
Qed.

(** Once the identifier changes it does not come back. *)
Lemma id_run_ends x m l : drained_order (m :: l) → precedes x (m :: l) →
  subscriptionId m ≠ subscriptionId x → ∀ y, y ∈ m :: l → subscriptionId y ≠ subscriptionId x.
Proof.
  intros Hs Hp Hne y Hy Heq. apply drained_cons in Hs as [_ Hm].
  destruct (not_lt_id x m) as [?|Hmx]; [apply Hp; set_solver|congruence|].
  destruct (not_lt_id m y) as [Hmy|Hym]; [by apply Hm|congruence|].
  rewrite Heq in Hym. pose proof (oplt_asym _ _ Hym). congruence.
Qed.

(** Within an identifier, once the channel changes it does not come back. *)
Lemma key_run_ends x m l : drained_order (m :: l) → precedes x (m :: l) →
  ¬ same_key (subscriptionId x) (channel x) m →
  ∀ y, y ∈ m :: l → ¬ same_key (subscriptionId x) (channel x) y.
Proof.
  intros Hs Hp Hne y Hy [Hi Hc]. destruct (decide (subscriptionId m = subscriptionId x)) as [Hm|Hm].
  - apply drained_cons in Hs as [_ Hpm].
    destruct (not_lt_channel x m) as [?|Hmx]; [apply Hp; set_solver|done| |].
    { apply Hne. by split. }
    destruct (not_lt_channel m y) as [Hmy|Hym]; [by apply Hpm|congruence| |].
    { rewrite Hmy, Hc, oplt_irrefl in Hmx. done. }
    rewrite Hc in Hym. pose proof (oplt_asym _ _ Hym). congruence.
  - by apply (id_run_ends x m l Hs Hp Hm y Hy).
Qed.

Lemma arr_of_foldl vs : foldl arr_append [] vs = arr_of vs.
Proof. done. Qed.

Lemma channel_loop_spec fuel id sm q l b x :
  drains q l → drained_order l → (∀ m, head l = Some m → sm = m) → (length l < fuel)%nat →
  subscriptionId x = id → precedes x l →
  ∃ cs rest q', l = channels_messages cs ++ rest ∧ channels_ok id cs ∧ NoDup cs.*1 ∧
    (∀ m, m ∈ rest → subscriptionId m ≠ id) ∧ drains q' rest ∧
    channel_loop fuel id sm q b = Ok (q', b ++ (render_channel <$> cs)).
Proof.
  revert sm q l b x. induction fuel as [|fuel IH]; intros sm q l b x Hd Hs Hsm Hf Hx Hp; [lia|].
  cbn [channel_loop]. rewrite (drains_top _ _ Hd).
  destruct l as [|m l].
  { exists [], [], q. split_and!; try done; [constructor|constructor|set_solver|by rewrite app_nil_r]. }
  rewrite (Hsm m eq_refl) in *. clear Hsm. rewrite bool_decide_true by (simpl; by eexists). simpl andb.
  destruct (OID_eqb (subscriptionId m) id) eqn:Hid.
  2:{ exists [], (m :: l), q. split_and!; try done; [constructor|constructor| |by rewrite app_nil_r].
      rewrite <-Hx. apply id_run_ends; [done|done|]. rewrite Hx. intros He%OID_eqb_eq. congruence. }
  apply OID_eqb_eq in Hid.
  change (head (m :: l)) with (Some m). cbv iota zeta. pose proof (drains_perm _ _ Hd) as Hperm.
  destruct (array_loop_spec (S (length (pq_elems q))) id (channel m) m q l [] Hd) as
    (same & rest & sm' & q' & Heq & Hsame & Hr & Hdr & Hh & He & ->); [rewrite Hperm; lia|].
  cbn [mbind res_bind]. rewrite arr_of_foldl.
  assert (∃ same', same = m :: same') as [same' Hsame'].
  { destruct same as [|y same]; simplify_eq/=; [|by eexists]. by destruct (Hr m eq_refl). }
  rewrite Heq in Hs. apply drained_app in Hs as [Hsr Hpr].
  assert (precedes m rest) as Hpm by (apply Hpr; rewrite Hsame'; set_solver).
  assert (length rest < fuel)%nat as Hfuel.
  { apply (f_equal length) in Heq. rewrite length_app, Hsame' in Heq. simpl in *. lia. }
  destruct (IH sm' q' rest (append b (channel m) (VArray (arr_of ((λ m, VObject (message m)) <$> same)))) m)
    as (cs & rest' & q2 & -> & Hok & Hnd & Hrest & Hd2 & ->); [done|done| |done|done|done|].
  { intros y Hy. by apply Hh. }
  exists ((channel m, same) :: cs), rest', q2. split_and!; [| | |done|done|].
  - rewrite Heq. unfold channels_messages. simpl. by rewrite <-app_assoc.
  - constructor; [|done]. simpl. split; [by rewrite Hsame'|done].
  - simpl. constructor; [|done]. intros ([ch ms] & Hch & Hin)%list_elem_of_fmap. simpl in Hch. subst ch.
    eapply Forall_forall in Hok as [Hne Hms]; [|done]. destruct ms as [|y ms]; [done|].
    apply Forall_cons in Hms as [[Hyi Hyc] _]. simpl in *.
    assert (y ∈ channels_messages cs ++ rest') as Hyin.
    { apply elem_of_app. left. unfold channels_messages. apply list_elem_of_join.
      exists (y :: ms). split; [set_solver|]. apply list_elem_of_fmap. by exists (channel m, y :: ms). }
    destruct (channels_messages cs ++ rest') as [|z l'] eqn:Hz; [set_solver|].
    apply (key_run_ends m z l' Hsr Hpm) with (y := y); [|done|split; congruence].
    rewrite Hid. by apply Hr.
  - f_equal. f_equal. unfold append. by rewrite <-app_assoc.
Qed.

Definition group_ok (g : OID * channels) : Prop :=
  g.2 ≠ [] ∧ channels_ok g.1 g.2 ∧ NoDup g.2.*1.

Lemma messages_loop_spec fuel q l b :
  drains q l → drained_order l → (length l < fuel)%nat →
  ∃ gs, l = groups_messages gs ∧ Forall group_ok gs ∧ NoDup gs.*1 ∧
    messages_loop fuel q b = Ok (b ++ render gs).
Proof.
  revert q l b. induction fuel as [|fuel IH]; intros q l b Hd Hs Hf; [lia|].
  cbn [messages_loop]. rewrite (drains_top _ _ Hd). destruct l as [|m l].
  { exists []. simpl. split_and!; [done|constructor|constructor|by rewrite app_nil_r]. }
  change (head (m :: l)) with (Some m). cbv iota zeta. pose proof (drains_perm _ _ Hd) as Hperm.
  destruct (channel_loop_spec (S (length (pq_elems q))) (subscriptionId m) m q (m :: l) [] m)
    as (cs & rest & q' & Heq & Hok & Hnd & Hrest & Hd' & ->);
    [done|done|by intros ? [= ->]|rewrite Hperm; lia|done|by apply drained_cons in Hs as []|].
  cbn [mbind res_bind app].
  assert (cs ≠ []) as Hcs.
  { intros ->. simpl in Heq. destruct (Hrest m); [rewrite <-Heq; set_solver|done]. }
  rewrite Heq in Hs. apply drained_app in Hs as [Hs' _].
  assert (length rest < fuel)%nat as Hfuel.
  { apply (f_equal length) in Heq. rewrite length_app in Heq. destruct cs as [|[c ms] cs]; [done|].
    apply Forall_cons in Hok as [[Hne _] _]. destruct ms; [done|].
    unfold channels_messages in Heq. simpl in *. lia. }
  destruct (IH q' rest (append b (OID_toString (subscriptionId m)) (VObject (render_channel <$> cs))) Hd' Hs' Hfuel)
    as (gs & -> & Hgs & Hgnd & ->).
  exists ((subscriptionId m, cs) :: gs). split_and!.
  - by rewrite Heq.
  - by constructor.
  - simpl. constructor; [|done]. intros ([id cs'] & Hi & Hin)%list_elem_of_fmap. simpl in Hi. subst id.
    eapply Forall_forall in Hgs as (Hne & Hok' & _); [|done]. destruct cs' as [|[c ms] cs']; [done|].
    apply Forall_cons in Hok' as [[Hne' Hms] _]. simpl in *. destruct ms as [|y ms]; [done|].
    apply Forall_cons in Hms as [[Hyi _] _]. apply (Hrest y); [|done].
    unfold groups_messages. apply list_elem_of_join. exists (channels_messages ((c, y :: ms) :: cs')).
    split; [apply list_elem_of_here|]. apply list_elem_of_fmap. by exists (subscriptionId m, (c, y :: ms) :: cs').
  - f_equal. unfold append. by rewrite <-app_assoc.
Qed.
End drains.
