(* ===== verification/CommandSpec.v ===== *)
(** * What the commands promise

    Argument checks, results and effects of the four client commands of
    db/commands/pubsub_commands.cpp. *)

From Stdlib Require Import SpecFloat.
From S2P Require Import Prelude Monad StdMap Bytes Oid Doubles Bson BsonBytes HostPort.
From S2P Require Import ParseNumber Zmq World SendSock PubSub PQueue PubSubInv Sample SendSpec PubSubPoll PubSubSafe.
From S2P Require Import PubSubDeliver PollSpec Commands PollResult.

(** ** Identifiers *)

Lemma validate_elements_oids es os acc : es.*2 = VOID <$> os → set_sorted acc →
  ∃ s, validate_elements es acc = Ok s ∧ set_sorted s ∧ ∀ o, o ∈ s ↔ o ∈ os ∨ o ∈ acc.
Proof.
  revert os acc. induction es as [|[n v] es IH]; intros [|o os] acc He Hacc; try done.
  { exists acc. split_and!; [done|done|set_solver]. }
  injection He as -> He.
  destruct (IH os (set_insert o acc) He) as (s & Hs & Hsort & Hin); [by apply set_insert_sorted|].
  exists s. split_and!; [done|done|]. intros x. rewrite Hin, elem_of_set_insert. set_solver.
Qed.

Definition bad_element (v : value) : exn := UserException 18544
  ("Each subscriptionId in the subscriptionId array must be an ObjectID but found a " +:+ typeName (vtype v)).

Lemma validate_elements_bad es os v rest acc :
  es.*2 = (VOID <$> os) ++ v :: rest → vtype v ≠ jstOID → validate_elements es acc = Throw (bad_element v).
Proof.
  revert os acc. induction es as [|[n x] es IH]; intros os acc He Hv; [by destruct os|].
  destruct os as [|o os]; injection He as -> He.
  - cbn [validate_elements]. unfold type. cbn [snd]. by rewrite bool_decide_false.
  - by apply (IH os).
Qed.

Lemma array_values vs : (arr_of vs).*2 = vs.
Proof.
  rewrite arr_of_elems. unfold array_elems. generalize 0. induction vs as [|v vs IH]; intros k; [done|].
  simpl. f_equal. rewrite <-(IH (k + 1)) at 2. f_equal. apply imap_ext. intros. simpl. do 2 f_equal. lia.
Qed.

(** What [validate] makes of the array that a driver builds from these values. *)
Definition validate_array (vs : list value) : res (list OID) :=
  validate ("", VArray (arr_of vs)) [].

(** An array of identifiers is accepted as the set of its members, without
    duplicates and in order. *)
Lemma validate_array_ids os : Z.of_nat (length os) ≤ 1000000 →
  ∃ s, validate_array (VOID <$> os) = Ok s ∧ set_sorted s ∧ ∀ o, o ∈ s ↔ o ∈ os.
Proof.
  intros Hlen. unfold validate_array, validate.
  rewrite as_Array_arr_of; [|by apply Forall_fmap, Forall_true|rewrite length_fmap; lia].
  destruct (validate_elements_oids (arr_of (VOID <$> os)) os []) as (s & Hs & Hsort & Hin);
    [apply array_values|constructor|]. exists s. split_and!; [done|done|set_solver].
Qed.

(** The first member that is not an identifier is reported with its type. *)
Lemma validate_array_bad os bad rest :
  Forall (λ v, vtype v ≠ EOO) (bad :: rest) → vtype bad ≠ jstOID →
  Z.of_nat (length os + S (length rest)) ≤ 1000000 →
  validate_array ((VOID <$> os) ++ bad :: rest) = Throw (bad_element bad).
Proof.
  intros Hx Hbad Hlen. unfold validate_array, validate.
  rewrite as_Array_arr_of; [| |rewrite length_app, length_fmap; simpl; lia].
  - by eapply (validate_elements_bad _ os bad rest); [apply array_values|].
  - apply Forall_app. split; [by apply Forall_fmap, Forall_true|done].
Qed.

(** An argument that is neither an identifier nor an array is rejected with
    its type, a single identifier stands for the set of itself. *)
Lemma validate_single name v oids :
  validate (name, v) oids =
  match v with
  | VOID o => Ok (set_insert o oids)
  | VArray a => elements ← as_Array (name, VArray a); validate_elements elements oids
  | _ => Throw (UserException 18543
      ("The subscriptionId argument must be an ObjectID or Array but was a " +:+ typeName (vtype v)))
  end.
Proof. by destruct v. Qed.

Lemma validate_sorted e s : validate e [] = Ok s → set_sorted s.
Proof.
  assert (∀ es acc s, set_sorted acc → validate_elements es acc = Ok s → set_sorted s) as Hes.
  { intros es. induction es as [|[n v] es IH]; intros acc s' Hacc Hr; [by injection Hr as <-|].
    destruct v; try done. eapply IH; [|exact Hr]. by apply set_insert_sorted. }
  destruct e as [n v]. rewrite validate_single. intros Hr. destruct v; try done.
  - destruct (as_Array _) as [es|]; [|done]. eapply Hes; [|exact Hr]. constructor.
  - injection Hr as <-. apply (set_insert_sorted _ []). constructor.
Qed.

Lemma set_sorted_NoDup (s : list OID) : set_sorted s → NoDup s.
Proof.
  intros Hs. assert (map_sorted ((λ o, (o, ())) <$> s)) as Hm.
  { apply map_sorted_fst. rewrite <-list_fmap_compose. by rewrite list_fmap_id. }
  apply map_sorted_NoDup in Hm. rewrite <-list_fmap_compose in Hm. by rewrite list_fmap_id in Hm.
Qed.

(** ** What the arguments of a poll mean *)

(** The identifiers an argument names, as the documentation of the commands says:
    one, or an array of them; or why it names none. *)
Inductive names_ids : value → res (list OID) → Prop :=
| names_one o : names_ids (VOID o) (Ok [o])
| names_many os : Z.of_nat (length os) ≤ 1000000 → names_ids (VArray (arr_of (VOID <$> os))) (Ok os)
| names_bad os bad rest :
    Forall (λ v, vtype v ≠ EOO) (bad :: rest) → vtype bad ≠ jstOID →
    Z.of_nat (length os + S (length rest)) ≤ 1000000 →
    names_ids (VArray (arr_of ((VOID <$> os) ++ bad :: rest))) (Throw (bad_element bad))
| names_none v : vtype v ≠ jstOID → vtype v ≠ Array →
    names_ids v (Throw (UserException 18543
      ("The subscriptionId argument must be an ObjectID or Array but was a " +:+ typeName (vtype v)))).

Lemma names_ids_validate name v r : names_ids v r →
  match r with
  | Ok os => ∃ ids, validate (name, v) [] = Ok ids ∧ set_sorted ids ∧ ∀ o, o ∈ ids ↔ o ∈ os
  | Throw e => validate (name, v) [] = Throw e
  end.
Proof.
  intros [o|os Hl|os bad rest Hx Hb Hl|v' Ho Ha].
  - exists [o]. split_and!; [done| |done]. apply (set_insert_sorted o []). constructor.
  - by apply validate_array_ids.
  - by apply validate_array_bad.
  - rewrite validate_single. by destruct v'.
Qed.

(** [t] is the greatest integer that is not above the double [d]. *)
Definition floor_of (d t : Z) : Prop :=
  match double_decode d with
  | S754_zero _ => t = 0
  | S754_finite s m e =>
      let a := if s then Zneg m else Zpos m in
      t * 2 ^ Z.max 0 (- e) ≤ a * 2 ^ Z.max 0 e < (t + 1) * 2 ^ Z.max 0 (- e)
  | _ => False
  end.

(** The milliseconds an argument asks for: a number, rounded down, and none when
    it is missing; or why there are none. *)
Inductive asks_millis : value → res Z → Prop :=
| asks_nothing : asks_millis VEOO (Ok 0)
| asks_int n : asks_millis (VInt n) (Ok n)
| asks_long n : asks_millis (VLong n) (Ok n)
| asks_double d t : floor_of d t → - 2 ^ 63 ≤ t < 2 ^ 63 → asks_millis (VDouble d) (Ok t)
| asks_unfit d : (∀ t, floor_of d t → ¬ - 2 ^ 63 ≤ t < 2 ^ 63) →
    asks_millis (VDouble d) (Throw (UndefinedBehaviour "double out of integer range"))
| asks_no_number v : vtype v ∉ [EOO; NumberInt; NumberLong; NumberDouble] →
    asks_millis v (Throw (UserException 18535
      ("The timeout argument must be an integer but was a " +:+ typeName (vtype v)))).

Lemma sf_floor_of d t : floor_of d t ↔ sf_floor (double_decode d) = Some t.
Proof.
  unfold floor_of, sf_floor. destruct (double_decode d) as [s|s| |s m e]; try (by split; [|intros [=]]).
  { split; [by intros ->|by intros [= <-]]. }
  cbv zeta. generalize (if s then Zneg m else Zpos m). intros a. destruct (Z.leb_spec 0 e) as [He|He].
  - rewrite (Z.max_l 0 (- e)), (Z.max_r 0 e), Z.pow_0_r, !Z.mul_1_r by lia.
    split; [intros Ht; f_equal; lia|intros [= <-]; lia].
  - rewrite (Z.max_r 0 (- e)), (Z.max_l 0 e), Z.pow_0_r, Z.mul_1_r by lia.
    assert (0 < 2 ^ (- e)) as Hp by (apply Z.pow_pos_nonneg; lia). split.
    + intros Ht. f_equal. symmetry. apply (Z.div_unique_pos a _ t (a - t * 2 ^ (- e))); lia.
    + intros [= <-]. pose proof (Z.div_mod a (2 ^ (- e))). pose proof (Z.mod_pos_bound a (2 ^ (- e))). lia.
Qed.

Lemma asks_millis_timeout name v r : asks_millis v r → poll_timeout (name, v) = r.
Proof.
  intros [|n|n|d t Hf Ht|d Hd|v' Hv]; try done.
  - apply sf_floor_of in Hf. unfold poll_timeout. cbn. unfold numberDouble, double_floor_long. cbn [snd].
    rewrite Hf. unfold cast_int. change (64 - 1) with 63.
    by rewrite (proj2 (Z.leb_le _ _)), (proj2 (Z.ltb_lt _ _)) by lia.
  - unfold poll_timeout. cbn. unfold numberDouble, double_floor_long, cast_int. cbn [snd].
    change (64 - 1) with 63. destruct (sf_floor _) as [t|] eqn:Hf; [|done].
    apply sf_floor_of, Hd in Hf. destruct (Z.leb_spec (- 2 ^ 63) t), (Z.ltb_spec t (2 ^ 63)); try done. lia.
  - destruct v'; try done; exfalso; apply Hv; simpl; set_solver.
Qed.

Section spec.
Context {Mt Pt Q : Type} `{MatcherOps Mt} `{ProjectionOps Pt} `{PriorityQueueLaws Q}.
Context (sys : System Mt Pt).
Abbreviation W := (World Mt Pt).
Implicit Types (w : W) (cmdObj : BSONObj).

(** ** The result document *)

Lemma serialize_groups (q : Q) :
  ∃ gs, serialize_messages q = Ok (render gs) ∧ groups_messages gs ≡ₚ pq_elems q ∧
    drained_order (groups_messages gs) ∧ Forall group_ok gs ∧ NoDup gs.*1.
Proof.
  destruct (drains_exists q) as (l & Hd & Hp & Hs).
  destruct (messages_loop_spec (S (length (pq_elems q))) q l [] Hd Hs) as (gs & -> & Hok & Hnd & Hr).
  { rewrite Hp. lia. }
  exists gs. split_and!; done.
Qed.

(** C26: The result of poll holds every message of the queue exactly once: one
    field per subscription, in it one array per channel, no subscription and no
    channel of one twice and none empty, the messages in the order in which the
    queue hands them out. *)
Theorem poll_result_groups (q : Q) :
  ∃ gs, serialize_messages q = Ok (render gs) ∧ groups_messages gs ≡ₚ pq_elems q ∧
    drained_order (groups_messages gs) ∧ Forall group_ok gs ∧ NoDup gs.*1.
Proof. apply serialize_groups. Qed.

Lemma serialize_total (q : Q) : ∃ o, serialize_messages q = Ok o.
Proof. destruct (serialize_groups q) as (gs & -> & _). eauto. Qed.

(** The document the command answers with. *)
Definition poll_answer (messages : BSONObj) (r : PollResult Q) : BSONObj :=
  [(kMessagesField, VObject messages); (kMillisPolledField, VLong (pr_millisPolled r))]
  ++ (if pr_pollAgain r then [(kPollAgainField, VBool true)] else [])
  ++ (if bool_decide (pr_errors r = []) then []
      else [(kErrorField, VObject (serialize_errors (pr_errors r)))]).

Lemma poll_command_run cmdObj w ids timeout :
  pubsubEnabled w = true → validate (getField cmdObj kPollField) [] = Ok ids →
  poll_timeout (getField cmdObj kTimeoutField) = Ok timeout →
  match poll (Q:=Q) sys ids timeout 0 false [] w with
  | (Ok r, w') => ∃ messages, serialize_messages (pr_messages r) = Ok messages ∧
      PollCommand_run (Q:=Q) sys cmdObj w = (Ok (poll_answer messages r), w')
  | (Throw e, w') => PollCommand_run (Q:=Q) sys cmdObj w = (Throw e, w')
  end.
Proof.
  intros Hen Hv Ht. destruct (poll sys ids timeout 0 false [] w) as [[r|e] w'] eqn:Hp.
  - destruct (serialize_total (pr_messages r)) as [messages Hm]. exists messages. split; [done|].
    unfold PollCommand_run. run. rewrite Hen. run. rewrite Hv. run. rewrite Ht. run.
    rewrite (bind_Ok _ _ _ _ _ Hp), Hm. run.
    unfold poll_answer, append_errors. by destruct (pr_pollAgain r), (pr_errors r).
  - unfold PollCommand_run. run. rewrite Hen. run. rewrite Hv. run. rewrite Ht. run.
    by rewrite (bind_Throw _ _ _ _ _ Hp).
Qed.

(** C27: The poll command reads the identifiers it polls from its argument, one
    ObjectId or an array of them, and the time it may wait from the timeout
    argument, a number rounded down, none meaning not to wait.  It polls the set of
    these identifiers, each once, for that time, and answers with the messages, the
    time, the request to poll again exactly if the poll made it, and the errors
    exactly if there are any; an exception of the poll is passed on.  An argument
    of another kind, the first member of the array that is no ObjectId, or a
    timeout that is no number, is reported and nothing is polled. *)
Theorem poll_command cmdObj w named asked :
  pubsubEnabled w = true →
  names_ids (getField cmdObj kPollField).2 named → asks_millis (getField cmdObj kTimeoutField).2 asked →
  match named, asked with
  | Throw e, _ | Ok _, Throw e => PollCommand_run (Q:=Q) sys cmdObj w = (Throw e, w)
  | Ok os, Ok timeout =>
      ∃ ids, NoDup ids ∧ (∀ o, o ∈ ids ↔ o ∈ os) ∧
      match poll (Q:=Q) sys ids timeout 0 false [] w with
      | (Ok r, w') => ∃ messages, serialize_messages (pr_messages r) = Ok messages ∧
          PollCommand_run (Q:=Q) sys cmdObj w = (Ok (poll_answer messages r), w')
      | (Throw e, w') => PollCommand_run (Q:=Q) sys cmdObj w = (Throw e, w')
      end
  end.
Proof.
  intros Hen Hn Ha.
  apply (names_ids_validate (getField cmdObj kPollField).1) in Hn. rewrite <-surjective_pairing in Hn.
  apply (asks_millis_timeout (getField cmdObj kTimeoutField).1) in Ha. rewrite <-surjective_pairing in Ha.
  destruct named as [os|e].
  - destruct Hn as (ids & Hv & Hs & Hin). destruct asked as [timeout|e].
    + exists ids. split_and!; [by apply set_sorted_NoDup|done|by apply poll_command_run].
    + unfold PollCommand_run. run. rewrite Hen. run. rewrite Hv. run. by rewrite Ha.
  - unfold PollCommand_run. run. rewrite Hen. run. by rewrite Hn.
Qed.

(** ** The other commands *)

(** While publish/subscribe is disabled every command fails with its code and
    changes nothing. *)
Lemma commands_disabled cmdObj w : pubsubEnabled w = false →
  PublishCommand_run sys cmdObj w = (Throw (UserException 18556 "PubSub is not enabled."), w) ∧
  SubscribeCommand_run sys cmdObj w = (Throw (UserException 18557 "PubSub is not enabled."), w) ∧
  PollCommand_run (Q:=Q) sys cmdObj w = (Throw (UserException 18558 "PubSub is not enabled."), w) ∧
  UnsubscribeCommand_run cmdObj w = (Throw (UserException 18559 "PubSub is not enabled."), w).
Proof.
  intros Hen. unfold PublishCommand_run, SubscribeCommand_run, PollCommand_run, UnsubscribeCommand_run.
  by split_and!; run; rewrite Hen.
Qed.

(** A publish command that succeeds named a channel that is a string and does
    not start with the reserved prefix, and a message that is a document, and the
    publication with these was sent; no client can publish on a channel that
    subscribers to database events listen to. *)
Lemma publish_command_guards cmdObj w r w' :
  PublishCommand_run sys cmdObj w = (Ok r, w') →
  ∃ channel message,
    (getField cmdObj kPublishField).2 = VString channel ∧
    StringData_startsWith channel kEventsChannel = false ∧
    (getField cmdObj kMessageField).2 = VObject message ∧
    publish sys channel message w = (Ok true, w').
Proof.
  unfold PublishCommand_run. run. destruct (pubsubEnabled w); run; [|done].
  destruct (getField cmdObj kPublishField) as [n1 v1]. destruct v1; try done.
  rewrite (bool_decide_true (type (n1, VString s) = String_)) by done. run.
  change (as_String (n1, VString s)) with (Ok s). run.
  destruct (StringData_startsWith s "$events") eqn:Hr; cbn [negb]; run; [done|].
  destruct (hasField cmdObj kMessageField); run; [|done].
  destruct (getField cmdObj kMessageField) as [n2 v2]. destruct v2; try done.
  rewrite (bool_decide_true (type (n2, VObject o) = Object)) by done. run.
  change (embeddedObjectUserCheck (n2, VObject o)) with (Ok o). run.
  destruct (publish sys s o w) as [[b|e] w1] eqn:Hp;
    [rewrite (bind_Ok _ _ _ _ _ Hp)|by rewrite (bind_Throw _ _ _ _ _ Hp)].
  destruct b; [|done]. run. intros [= <- <-]. eauto 10.
Qed.

(** The identifier and subscription of the entry just added. *)
Definition subscribed_as (id : OID) (channel : string) (mt : option Mt) (pt : option Pt) w w' : Prop :=
  map_find id (subscriptions w') = Some (length (heap w)) ∧
  heap w' = heap w ++ [new_info channel mt pt] ∧
  checkout w' id = inr (length (heap w)) ∧
  (∀ id', id' ≠ id → map_find id' (subscriptions w') = map_find id' (subscriptions w)).

(** C29: Subscribing to a channel with an optional filter and projection: when the
    fresh identifier is not in use, the answer is that identifier, which now
    stands for a subscription to that channel, not in use and ready to be polled,
    whose socket listens to it and whose filter and projection were built from
    the arguments; all others are untouched.  It fails only when ZeroMQ does or
    the filter or the projection is malformed, and then the table is unchanged. *)
Theorem subscribe_adds channel filter projection w :
  world_wf w → map_find (next_oid sys w) (subscriptions w) = None →
  wp (subscribe sys channel filter projection)
    (λ id w', id = next_oid sys w ∧ ∃ mt pt, optional matcher_new filter = Ok mt ∧
       optional projection_init projection = Ok pt ∧ subscribed_as id channel mt pt w w' ∧ world_wf w')
    (λ e w', subscriptions w' = subscriptions w ∧ heap w' = heap w ∧
       ((∃ what, e = UserException 18539 what) ∨ optional matcher_new filter = Throw e ∨
        optional projection_init projection = Throw e)) w.
Proof.
  intros Hw Hn. apply wp_subscribe; [|by intros].
  intros n mt pt Hmt Hpt w1. split; [done|]. exists mt, pt. split_and!; [done|done| |].
  - assert (map_find (next_oid sys w) (subscriptions (subscribed (next_oid sys w) (new_info channel mt pt) w1))
      = Some (length (heap w))) as Hf by by apply map_find_insert_None.
    split_and!; [done|done| |].
    + unfold checkout. rewrite Hf. simpl. rewrite list_lookup_middle by done. done.
    + intros id' Hne. simpl. by rewrite map_find_insert_ne by (done || apply Hw).
  - apply wf_subscribed; [apply new_info_ok|done|by apply (wf_same w)].
Qed.

(** C30: Unsubscribing an identifier, as the command does it and, forced, as the
    poll that finds its subscription marked does it: if it is not in the table
    this is reported; if a poll has it checked out and the removal is not forced,
    it is only marked, for that poll to remove it; otherwise its socket is closed
    and it is gone from the table, whether or not it is checked out.  Other
    identifiers keep their entries and other subscriptions are left alone. *)
Theorem unsubscribe_effect id errors force w : world_wf w →
  wp (unsubscribe id errors force)
    (λ errors' w',
       match map_find id (subscriptions w) ≫= λ l, (l,.) <$> heap w !! l with
       | None => errors' = map_insert id "Subscription not found." errors ∧ w' = w
       | Some (l, i) => errors' = errors ∧
           (if negb force && flag (inUse i) then w' = upd_info l (set_shouldUnsub 1) w
            else map_find id (subscriptions w') = None ∧
                 (∃ i', heap w' !! l = Some i' ∧ isopen (sock i') = false)) ∧
           (∀ l', l' ≠ l → heap w' !! l' = heap w !! l')
       end ∧ (∀ id', id' ≠ id → map_find id' (subscriptions w') = map_find id' (subscriptions w)))
    (λ _ _, False) w.
Proof.
  intros Hw. apply wp_unsubscribe; [done| |].
  - intros Hf. rewrite Hf. done.
  - intros l i Hf Hi. rewrite Hf. simpl. rewrite Hi. simpl. destruct (negb force && flag (inUse i)).
    + split_and!; [done|done| |done]. intros l' Hl. simpl. by rewrite list_lookup_alter_ne.
    + split_and!; [done| | | |].
      * apply map_find_erase_eq, Hw.
      * eexists. simpl. rewrite list_lookup_alter_eq, Hi. split; [done|]. apply sock_close_closed.
      * intros l' Hl. simpl. by rewrite list_lookup_alter_ne.
      * intros id' Hne. simpl. rewrite map_find_erase_ne; [done|apply Hw|done].
Qed.

(** C28: Every operation of the table keeps its invariant: sorted by identifier,
    every entry points to an existing subscription whose socket is open, no two
    entries to the same one, and the bit fields hold bits. *)
Theorem operations_keep_invariant : others_ok sys →
  (∀ c f p, preserves world_wf (subscribe sys c f p)) ∧
  (∀ id errors force, preserves world_wf (unsubscribe (Mt:=Mt) (Pt:=Pt) id errors force)) ∧
  (∀ ids t millis again errors, preserves world_wf (poll (Q:=Q) sys ids t millis again errors)) ∧
  preserves world_wf (subscriptionCleanup_pass (Mt:=Mt) (Pt:=Pt)) ∧
  preserves world_wf (proxy_step (Mt:=Mt) (Pt:=Pt)).
Proof.
  intros Ho. split_and!; intros;
    eauto using preserves_subscribe, preserves_unsubscribe, preserves_poll, preserves_cleanup,
      preserves_proxy_step.
Qed.
End spec.

(** ** At a concrete process *)

Definition poll_both : BSONObj :=
  [(kPollField, VArray (arr_of [VOID (oid_of 1); VOID (oid_of 2); VOID (oid_of 1)]));
   (kTimeoutField, VInt 500)].

Definition publish_cmd : BSONObj :=
  [(kPublishField, VString "A"); (kMessageField, VObject [("x", VInt 1)])].

Lemma poll_result_groups_witness :
  let q := pq_push (mkMessage (oid_of 1) "A" [] 2) (pq_push (mkMessage (oid_of 1) "A" [] 1) (pq_new (Q:=queue))) in
  ∃ gs, serialize_messages q = Ok (render gs) ∧ groups_messages gs ≡ₚ pq_elems q ∧
    drained_order (groups_messages gs) ∧ Forall group_ok gs ∧ NoDup gs.*1.
Proof. apply poll_result_groups. Defined.

Lemma poll_command_witness :
  ∃ ids, NoDup ids ∧ (∀ o, o ∈ ids ↔ o ∈ [oid_of 1; oid_of 2; oid_of 1]) ∧
  match poll (Q:=queue) quiet ids 500 0 false [] two_subs with
  | (Ok r, w') => ∃ messages, serialize_messages (pr_messages r) = Ok messages ∧
      PollCommand_run (Q:=queue) quiet poll_both two_subs = (Ok (poll_answer messages r), w')
  | (Throw e, w') => PollCommand_run (Q:=queue) quiet poll_both two_subs = (Throw e, w')
  end.
Proof.
  apply (poll_command quiet poll_both two_subs (Ok [oid_of 1; oid_of 2; oid_of 1]) (Ok 500)); [done| |].
  - apply (names_many [oid_of 1; oid_of 2; oid_of 1]). done.
  - exact (asks_int 500).
Defined.

Lemma commands_disabled_witness :
  let w := sample_world false [] [] in
  PublishCommand_run quiet publish_cmd w = (Throw (UserException 18556 "PubSub is not enabled."), w) ∧
  SubscribeCommand_run quiet publish_cmd w = (Throw (UserException 18557 "PubSub is not enabled."), w) ∧
  PollCommand_run (Q:=queue) quiet publish_cmd w
    = (Throw (UserException 18558 "PubSub is not enabled."), w) ∧
  UnsubscribeCommand_run publish_cmd w = (Throw (UserException 18559 "PubSub is not enabled."), w).
Proof. apply (commands_disabled quiet publish_cmd (sample_world false [] [])). done. Defined.

Lemma publish_command_guards_witness :
  ∃ channel message,
    (getField publish_cmd kPublishField).2 = VString channel ∧
    StringData_startsWith channel kEventsChannel = false ∧
    (getField publish_cmd kMessageField).2 = VObject message ∧
    publish quiet channel message fresh_world
    = (Ok true, (PublishCommand_run quiet publish_cmd fresh_world).2).
Proof. apply (publish_command_guards quiet publish_cmd fresh_world []). done. Defined.

Lemma subscribe_adds_witness :
  wp (subscribe quiet "A" [("x", VInt 1)] [])
    (λ id w', id = next_oid quiet fresh_world ∧ ∃ mt pt, optional matcher_new [("x", VInt 1)] = Ok mt ∧
       optional projection_init [] = Ok pt ∧ subscribed_as id "A" mt pt fresh_world w' ∧ world_wf w')
    (λ e w', subscriptions w' = [] ∧ heap w' = [] ∧
       ((∃ what, e = UserException 18539 what) ∨ optional matcher_new [("x", VInt 1)] = Throw e ∨
        optional projection_init [] = Throw e)) fresh_world.
Proof. apply (subscribe_adds quiet); [apply fresh_wf|done]. Defined.

(** A poll has the subscription checked out: the command marks it, the poll
    removes it. *)
Lemma one_in_use_wf : world_wf one_in_use.
Proof. apply wf_upd_info; [apply info_ok_inUse|done|apply two_subs_wf]. Qed.

Lemma unsubscribe_effect_witness :
  wp (unsubscribe (oid_of 1) [] false) (λ _ w', w' = upd_info 0%nat (set_shouldUnsub 1) one_in_use) (λ _ _, False) one_in_use ∧
  wp (unsubscribe (oid_of 1) [] true) (λ _ w', map_find (oid_of 1) (subscriptions w') = None) (λ _ _, False) one_in_use.
Proof.
  split.
  - eapply wp_mono; [| |apply (unsubscribe_effect (oid_of 1) [] false one_in_use one_in_use_wf)]; [|done].
    intros errors w' [(_ & H & _) _]. exact H.
  - eapply wp_mono; [| |apply (unsubscribe_effect (oid_of 1) [] true one_in_use one_in_use_wf)]; [|done].
    intros errors w' [(_ & [H _] & _) _]. exact H.
Defined.

Lemma operations_keep_invariant_witness :
  (∀ c f p, preserves world_wf (subscribe quiet c f p)) ∧
  (∀ id errors force, preserves world_wf (unsubscribe (Mt:=SMatcher) (Pt:=SProjection) id errors force)) ∧
  (∀ ids t millis again errors, preserves world_wf (poll (Q:=queue) quiet ids t millis again errors)) ∧
  preserves world_wf (subscriptionCleanup_pass (Mt:=SMatcher) (Pt:=SProjection)) ∧
  preserves world_wf (proxy_step (Mt:=SMatcher) (Pt:=SProjection)).
Proof. apply operations_keep_invariant. by intros n w. Defined.
