(* ===== verification/DispatchSpec.v ===== *)
(** * Who gets a command run, and what the reply says

    The check of Auth.v decided for the four commands, and [runCommands] as a whole:
    a request without the privilege changes nothing, any other one is the run of the
    command. *)

From S2P Require Import Prelude Monad StdMap Bytes Oid Doubles Bson Namespace BsonBytes HostPort.
From S2P Require Import ParseNumber Zmq World SendSock PubSub PQueue Sample Auth Commands Dispatch.

(** ** Names *)

Definition lacks (c : ascii) (s : string) : Prop := str_index c s = None.

Lemma str_index_app c a b : lacks c a → str_index c (a +:+ b) = (λ i, (String.length a + i)%nat) <$> str_index c b.
Proof.
  unfold lacks. induction a as [|x a IH]; cbn; intros Ha; [by destruct (str_index c b)|].
  destruct (x =? c)%char; [done|]. apply fmap_None in Ha. rewrite (IH Ha). by destruct (str_index c b).
Qed.

Lemma lacks_app c a b : lacks c a → lacks c b → lacks c (a +:+ b).
Proof. intros Ha Hb. unfold lacks. by rewrite str_index_app, Hb. Qed.

Lemma c_string_id s : lacks NUL s → c_string s = s.
Proof.
  unfold lacks. induction s as [|x s IH]; cbn; [done|]. destruct (x =? NUL)%char; [done|].
  intros H%fmap_None. by rewrite IH.
Qed.

Definition ns_pair (db c : string) : NamespaceString := mkNs (db +:+ String dot c) (Some (String.length db)).

Lemma dot_at db c : lacks dot db → str_index dot (db +:+ String dot c) = Some (String.length db).
Proof. intros H. rewrite str_index_app by done. cbn. by rewrite Nat.add_0_r. Qed.

Lemma ns_split db c : lacks dot db → NamespaceString_of (db +:+ String dot c) = ns_pair db c.
Proof. intros H. unfold NamespaceString_of. by rewrite dot_at. Qed.

Lemma ns_db_split db c : ns_db (ns_pair db c) = db.
Proof. apply str_take_app. Qed.
Lemma ns_coll_split db c : ns_coll (ns_pair db c) = c.
Proof. apply str_drop_app_S. Qed.

(** ** What has to be granted *)

(** The resources of which one has to be granted, by the argument of the command: for
    a channel as if it was a collection of the database. *)
Definition required_resources (db : string) (v : value) : list ResourcePattern :=
  match v with
  | VString c =>
      forAnyResource ::
      (if StringData_startsWith c "system." then []
       else [forAnyNormalResource; mkPattern matchDatabaseName (ns_pair db "")]) ++
      [mkPattern matchCollectionName (ns_pair "" c); forExactNamespace (ns_pair db c)]
  | _ => [forAnyResource; forAnyNormalResource; mkPattern matchDatabaseName (ns_pair db "")]
  end.

Definition required_target (db : string) (v : value) : ResourcePattern :=
  match v with
  | VString c => forExactNamespace (ns_pair db c)
  | _ => mkPattern matchDatabaseName (ns_pair db "")
  end.

(** A channel that can be the name of a collection. *)
Definition plain_argument (v : value) : Prop :=
  match v with
  | VString c => lacks NUL c ∧ str_at c 0 ≠ Some dot
  | VEOO => False
  | _ => True
  end.

Definition plain_db (db : string) : Prop :=
  lacks dot db ∧ lacks NUL db ∧ (String.length db < MaxDatabaseNameLen)%nat.

Lemma pair_ok db c : lacks dot db → lacks NUL db → lacks NUL c → str_at c 0 ≠ Some dot →
  NamespaceString_pair db c = Ok (ns_pair db c).
Proof.
  intros Hd Hn Hc H0. assert (lacks NUL (db +:+ String dot c)) as Hl.
  { apply lacks_app; [done|]. unfold lacks. cbn. by rewrite Hc. }
  unfold NamespaceString_pair. by rewrite (bool_decide_eq_true_2 _ Hd), (bool_decide_eq_true_2 _ H0), (bool_decide_eq_true_2 _ Hl).
Qed.

Lemma required_ok db name v rest : plain_db db → plain_argument v →
  addRequiredPrivileges db ((name, v) :: rest) = Ok [mkPrivilege (required_target db v) {["find"]}] ∧
  buildResourceSearchList (required_target db v) = Ok (required_resources db v).
Proof.
  intros (Hd & Hn & _) Hv. unfold addRequiredPrivileges, parseResourcePattern, parseNs. cbn [firstElement snd].
  assert (forDatabaseName db = Ok (mkPattern matchDatabaseName (ns_pair db ""))) as Hdb.
  { unfold forDatabaseName. by rewrite pair_ok. }
  destruct v; cbn [plain_argument] in Hv; try done; try by rewrite Hd, Hdb.
  destruct Hv as [Hc H0]. rewrite c_string_id by done. rewrite dot_at by done.
  split; [by rewrite ns_split|]. unfold buildResourceSearchList, required_target, isExactNamespacePattern, forExactNamespace.
  cbn [matchType rp_ns]. rewrite bool_decide_eq_true_2 by done. unfold ns_isSystem.
  rewrite ns_db_split, ns_coll_split, Hdb. unfold forCollectionName. rewrite pair_ok by done.
  unfold required_resources. by destruct (StringData_startsWith _ _).
Qed.

(** ** What the users grant *)

Section grants.
Context (acquireV1 : User → string → option User).

Definition grants_find (l : list ResourcePattern) (u : User) : Prop :=
  Exists (λ r, "find" ∈ getActionsForResource u r) l.

#[global] Instance grants_find_dec l u : Decision (grants_find l u).
Proof. apply _. Defined.

Lemma remove_find acts :
  removeAllActionsFromSet {["find"]} acts = if decide ("find" ∈ acts) then ∅ else {["find"]}.
Proof.
  unfold removeAllActionsFromSet. assert ("find" ≠ anyAction) by done.
  destruct (decide ("find" ∈ acts)); destruct (decide (acts = ∅)); set_solver.
Qed.

Lemma search_find u l : search_loop u l {["find"]} = if decide (grants_find l u) then ∅ else {["find"]}.
Proof.
  induction l as [|r l IH]; cbn [search_loop].
  - rewrite decide_False; [done|]. by intros ?%Exists_nil.
  - rewrite remove_find. destruct (decide ("find" ∈ _)) as [Hr|Hr].
    + rewrite decide_True by done. rewrite decide_True; [done|]. by left.
    + rewrite decide_False by set_solver. rewrite IH. apply decide_ext. unfold grants_find.
      rewrite Exists_cons. tauto.
Qed.

Lemma users_find target l users :
  (users_loop acquireV1 target l {["find"]} users).1 = true ↔
  Exists (λ u, grants_find l (probe_user acquireV1 target u)) users.
Proof.
  induction users as [|u users IH]; cbn [users_loop]; [by rewrite Exists_nil|].
  rewrite search_find, Exists_cons. destruct (decide (grants_find _ _)) as [Hg|Hg].
  - rewrite decide_True by done. cbn. tauto.
  - rewrite decide_False by set_solver. destruct (users_loop _ _ _ _ _) as [ok us]. cbn [fst] in *. tauto.
Qed.
End grants.

(** ** The whole request *)

Section requests.
Context {Mt Pt Q : Type} `{MatcherOps Mt} `{ProjectionOps Pt} `{PriorityQueue Q}.
Context (sys : System Mt Pt) (acquireV1 : User → string → option User) (cmdText : BSONObj → string).
Implicit Types (conn : Conn (Mt:=Mt) (Pt:=Pt)) (c : PubSubCommand).

Definition authorized (db : string) (v : value) (s : Session) : Prop :=
  shouldIgnoreAuthChecks s = true ∨
  Exists (λ u, grants_find (required_resources db v) (probe_user acquireV1 (required_target db v) u))
    (authenticatedUsers s).

#[global] Instance authorized_dec db v s : Decision (authorized db v s).
Proof. apply _. Defined.

Definition denied (db : string) (cmd : BSONObj) : BSONObj :=
  [("ok", VDouble 0); ("errmsg", VString ("not authorized on " +:+ db +:+ " to execute command " +:+ cmdText cmd));
   ("code", VInt 13)].

Lemma privileges_find s p l : buildResourceSearchList p = Ok l →
  ∃ s', privileges_loop acquireV1 s [mkPrivilege p {["find"]}] =
    Ok (bool_decide (Exists (λ u, grants_find l (probe_user acquireV1 p u)) (authenticatedUsers s)), s').
Proof.
  intros Hl. cbn [privileges_loop]. unfold isAuthorizedForPrivilege. cbn [resource actions]. rewrite Hl. cbn [mbind res_bind].
  pose proof (users_find acquireV1 p l (authenticatedUsers s)) as Hu. destruct (users_loop _ _ _ _ _) as [ok us].
  cbn [fst] in Hu. eexists. rewrite <-(bool_decide_ext _ _ Hu). by destruct ok.
Qed.

Lemma check_spec db name v rest conn : plain_db db → plain_argument v →
  ∃ s, checkAuthorization acquireV1 cmdText db ((name, v) :: rest) conn =
    (Ok (if decide (authorized db v (session conn)) then Status_OK
         else mkStatus Unauthorized ("not authorized on " +:+ db +:+ " to execute command " +:+ cmdText ((name, v) :: rest))),
     set_session s conn).
Proof.
  intros Hdb Hv. destruct (required_ok db name v rest Hdb Hv) as [Hp Hl].
  unfold checkAuthorization. rewrite run_gets. destruct (authEnabled (session conn)) eqn:Ha.
  - rewrite Hp, run_lift_Ok. unfold isAuthorizedForPrivileges. destruct (shouldIgnoreAuthChecks (session conn)) eqn:Hi.
    + exists (session conn). rewrite run_lift_Ok, run_modify. rewrite decide_True by by left. done.
    + destruct (privileges_find (session conn) _ _ Hl) as [s Hs]. exists s. rewrite Hs, run_lift_Ok, run_modify.
      unfold authorized. destruct (bool_decide _) eqn:Hb.
      * apply bool_decide_eq_true in Hb. rewrite decide_True by by right. done.
      * apply bool_decide_eq_false in Hb. rewrite decide_False by (intros [?|?]; congruence). done.
  - exists (session conn). rewrite decide_True; [by destruct conn|]. left. unfold shouldIgnoreAuthChecks. rewrite Ha.
    by rewrite orb_true_r.
Qed.

Lemma findCommand_name c : findCommand (command_name c) = Some c.
Proof. by destruct c. Qed.

Lemma db_of_ns db : plain_db db → nsToDatabase (db +:+ ".$cmd") = Ok db.
Proof.
  intros (Hd & _ & Hl). change ".$cmd" with (String dot "$cmd"). unfold nsToDatabase. rewrite dot_at by done.
  rewrite (proj2 (Nat.ltb_lt _ _)) by done. cbn [massert mbind res_bind]. unfold StringData_substr.
  rewrite (proj2 (Nat.ltb_ge _ _)) by lia. rewrite str_app_length, (proj2 (Nat.ltb_ge _ _)) by (simpl; lia).
  do 2 f_equal. apply str_take_app.
Qed.

Lemma runs_command c db v rest conn : plain_db db → vtype v ≠ EOO →
  let cmd := (command_name c, v) :: rest in
  _runCommands (Q:=Q) sys acquireV1 cmdText (db +:+ ".$cmd") cmd conn =
  (o ← execCommand (Q:=Q) sys acquireV1 cmdText c (db +:+ ".$cmd") cmd; mret (Reply o)) conn.
Proof.
  intros Hdb Hv cmd. unfold _runCommands. rewrite (db_of_ns _ Hdb), run_lift_Ok. change ".$cmd" with (String dot "$cmd") at 1 2.
  rewrite (dot_at db _ (proj1 Hdb)), str_drop_app. change (String.eqb (String dot "$cmd") ".$cmd") with true. cbn [negb].
  assert (eoo (firstElement cmd) = false) as He by (by apply bool_decide_eq_false).
  assert (fieldName (firstElement cmd) = command_name c) as Hn by (unfold fieldName; by rewrite He).
  assert (is_query_object cmd = false) as Hq.
  { unfold is_query_object. rewrite Hn. apply andb_false_intro2. by destruct c. }
  unfold command_object. rewrite Hq, run_lift_Ok. cbn [andb]. by rewrite He, Hn, findCommand_name.
Qed.

(** The reply of a request that is let through. *)
Definition run_reply (gle : option (Z * OID)) (r : res BSONObj) : res BSONObj :=
  match r with
  | Ok o => Ok (appendGLEHelperData (appendCommandStatus o true "") gle)
  | Throw e =>
      match assertion_of e with
      | Some (code, what) => Ok (appendGLEHelperData
          [("errmsg", VString ("exception: " +:+ what)); ("code", VInt code); ("ok", VDouble 0)] gle)
      | None => Throw e
      end
  end.

Lemma exec_run c cmd conn :
  (in_world (_execCommand (Q:=Q) sys c cmd) ≫= (λ '(result, retval),
     gle ← gets gleStats; mret (appendGLEHelperData (appendCommandStatus result retval "") gle))) conn =
  let '(r, w) := command_run (Q:=Q) sys c cmd (world conn) in (run_reply (gleStats conn) r, set_world w conn).
Proof.
  unfold in_world, _execCommand, mbind, M_bind. destruct (command_run _ _ _ _) as [[o|e] w]; [done|]. by destruct e.
Qed.

Lemma no_time_limit cmd : hasField cmd "maxTimeMS" = false → parseMaxTimeMSCommand cmd = Ok (inr 0).
Proof.
  intros Hf%negb_false_iff. unfold parseMaxTimeMSCommand, parseMaxTimeMS. rewrite Hf. cbn [negb andb].
  apply bool_decide_eq_true in Hf. destruct (getField cmd "maxTimeMS") as [n []]; done.
Qed.

(** A command with none of the options every command has. *)
Definition no_options (cmd : BSONObj) : Prop :=
  trueValue (getField cmd "help") = false ∧ hasField cmd "maxTimeMS" = false ∧ hasField cmd "$maxTimeMS" = false.

(** A request once its authorization is known. *)
Lemma request_run c db v rest conn status s :
  let cmd := (command_name c, v) :: rest in
  plain_db db → vtype v ≠ EOO → no_options cmd → interrupt conn = None →
  checkAuthorization acquireV1 cmdText db cmd conn = (Ok status, set_session s conn) →
  runCommands (Q:=Q) sys acquireV1 cmdText (db +:+ ".$cmd") cmd conn =
    if isOK status then
      let '(r, w) := command_run (Q:=Q) sys c cmd (world conn) in
      (Reply <$> run_reply (gleStats conn) r, mkConn w s (opCounter conn + 1) 0 None (gleStats conn))
    else (Ok (Reply (appendCommandStatus_Status [] status)), set_session s conn).
Proof.
  intros cmd Hdb Hv (Hhelp & Hmax & Hmax') Hi Hs.
  assert (Hr := runs_command c db v rest conn Hdb Hv). cbn zeta in Hr. fold cmd in Hr.
  unfold runCommands. rewrite Hr. clear Hr.
  unfold execCommand. rewrite (db_of_ns _ Hdb). unfold mbind at 1, M_bind at 1. rewrite run_lift_Ok, Hhelp.
  rewrite (bind_Ok _ _ _ _ _ Hs). destruct (isOK status); [|done]. cbn [negb]. rewrite run_modify, no_time_limit by done.
  rewrite run_lift_Ok, Hmax'. rewrite run_modify, run_gets. cbn [interrupt setMaxTimeMicros gotCommand set_session]. rewrite Hi.
  rewrite exec_run. cbn [world setMaxTimeMicros gotCommand set_session gleStats].
  destruct (command_run _ _ _ _) as [[o|e] w]; unfold set_world; cbn; rewrite ?Hi; [done|by destruct e].
Qed.

(** On a server that does not check. *)
Lemma request_open c db v rest conn :
  let cmd := (command_name c, v) :: rest in
  plain_db db → vtype v ≠ EOO → no_options cmd → interrupt conn = None → authEnabled (session conn) = false →
  runCommands (Q:=Q) sys acquireV1 cmdText (db +:+ ".$cmd") cmd conn =
    let '(r, w) := command_run (Q:=Q) sys c cmd (world conn) in
    (Reply <$> run_reply (gleStats conn) r, mkConn w (session conn) (opCounter conn + 1) 0 None (gleStats conn)).
Proof.
  intros cmd Hdb Hv Ho Hi Ha. apply (request_run c db v rest conn Status_OK); try done.
  unfold checkAuthorization. rewrite run_gets, Ha. by destruct conn.
Qed.

(** C22: A request for one of the commands, with none of the options every command
    takes and not to be interrupted, on a database and with a channel that can be
    names of a database and of a collection, is the run of that command on the pub/sub
    state, with its result or its error as the reply, if and only if the session is not
    subject to authorization, because it is off or because of the exception for
    localhost, or one of its users is granted [find] on one of the resources its
    argument names: the channel as if it was a collection of the database the request
    is sent to, or that database for the commands that take subscriptions.  Without
    that the reply has code 13 and nothing but the session's cache of users has
    changed. *)
Theorem request_authorized c db v rest conn :
  let cmd := (command_name c, v) :: rest in
  plain_db db → plain_argument v →
  no_options cmd → interrupt conn = None →
  ∃ s, runCommands (Q:=Q) sys acquireV1 cmdText (db +:+ ".$cmd") cmd conn =
    if decide (authorized db v (session conn)) then
      let '(r, w) := command_run (Q:=Q) sys c cmd (world conn) in
      (Reply <$> run_reply (gleStats conn) r, mkConn w s (opCounter conn + 1) 0 None (gleStats conn))
    else (Ok (Reply (denied db cmd)), set_session s conn).
Proof.
  intros cmd Hdb Hv Ho Hi. destruct (check_spec db (command_name c) v rest conn Hdb Hv) as [s Hs].
  assert (vtype v ≠ EOO) as He by (by destruct v).
  exists s. unfold cmd. rewrite (request_run _ _ _ _ _ _ _ Hdb He Ho Hi Hs).
  by destruct (decide (authorized db v (session conn))).
Qed.
End requests.

(** ** A reader of one database *)

(** Its only privilege is to read the database "mine". *)
Definition reader : User := mkUser [mkPrivilege (mkPattern matchDatabaseName (ns_pair "mine" "")) {["find"]}] false [].

Definition reader_conn : Conn (Mt:=SMatcher) (Pt:=SProjection) :=
  mkConn fresh_world (mkSession true false false false [reader]) 0 0 None None.

(** The events of every database go over channels that start with "$events". *)
Definition all_events : BSONObj := [("subscribe", VString "$events")].

Lemma request_authorized_witness :
  ∃ s, runCommands (Q:=queue) quiet (λ _ _, None) (λ _, "") "mine.$cmd" all_events reader_conn =
    let '(r, w) := SubscribeCommand_run quiet all_events fresh_world in
    (Reply <$> run_reply None r, mkConn w s 1 0 None None).
Proof.
  destruct (request_authorized (Q:=queue) quiet (λ _ _, None) (λ _, "") SubscribeCommand "mine" (VString "$events") [] reader_conn)
    as [s Hs]; [by repeat split; vm_compute; lia|by split|by repeat split|done|].
  exists s. rewrite decide_True in Hs; [exact Hs|].
  right. left. right. right. left. by vm_compute.
Defined.
