(* ===== verification/Shell.v ===== *)
(** * The shell: shell/pubsub.js

    The [PS] and [Subscription] objects of the mongo shell, on top of JavaScript
    values and their conversion to and from BSON (scripting/engine_v8.cpp).  A command
    goes to the server through [DB.prototype.runCommand] (shell/db.js) and
    [DBCollection.prototype.findOne] (shell/collection.js).  A JavaScript exception is
    [Throw]; the ones the scripts throw themselves have code 0. *)

From S2P Require Import Prelude Monad StdMap Bytes Oid Doubles Bson BsonBytes HostPort.
From S2P Require Import ParseNumber Zmq World SendSock PubSub Auth Commands Dispatch.

(** ** JavaScript values *)

(** The values the engine can convert; [JBson] is a document that came from the server
    and was not changed, [JObjectId] the object with its [str]. *)
Inductive js :=
  | JUndefined
  | JNull
  | JBool (b : bool)
  | JNumber (bits : Z)
  | JString (s : string)
  | JFunction (native : bool) (code : string)
  | JArray (l : list js)
  | JObject (fields : list (string * js))
  | JBson (o : BSONObj)
  | JDate (bits : Z)
  | JRegExp (pattern flags : string)
  | JObjectId (str : string)
  | JNumberLong (n : Z)
  | JNumberInt (n : Z)
  | JDBPointer (ns id : string)
  | JBinData (t : Z) (data : string)
  | JTimestamp (t i : Z)
  | JMinKey
  | JMaxKey.

Definition typeof (v : js) : string :=
  match v with
  | JUndefined => "undefined"
  | JBool _ => "boolean"
  | JNumber _ => "number"
  | JString _ => "string"
  | JFunction _ _ => "function"
  | _ => "object"
  end.

(** [if (v)]. *)
Definition truthy (v : js) : bool :=
  match v with
  | JUndefined | JNull => false
  | JBool b => b
  | JNumber d => negb (isNaN d || double_eqb d 0)
  | JString s => negb (String.eqb s "")
  | _ => true
  end.

(** ** To BSON *)

Definition objectDepthLimit : Z := 150.

Definition isxdigit (c : ascii) : bool :=
  let n := byte_val c in
  isdigit c || (65 <=? n) && (n <=? 70) || (97 <=? n) && (n <=? 102).

Definition v8ToMongoObjectID (hexStr : string) : res OID :=
  _ ← uassert 16864 "ObjectID.str must be exactly 24 chars long" (String.length hexStr =? 24)%nat;
  _ ← uassert 16865 "ObjectID.str must only have hex characters [0-1a-fA-F]"
        (length (filter (λ c, isxdigit c = true) (String.list_ascii_of_string hexStr)) =? 24)%nat;
  OID_init_string hexStr.

(** The checks [v8ToMongoElement] starts with. *)
Definition element_checks (sname : string) (depth : Z) : res unit :=
  _ ← uassert 17279 "Exceeded depth limit of 150 when converting js object to BSON. Do you have a cycle?"
        (depth <? objectDepthLimit);
  uassert 16985 "JavaScript property (name) contains a null char which is not allowed in BSON. "
        (bool_decide (str_index NUL sname = None)).

Definition size_check (o : BSONObj) : res BSONObj :=
  _ ← uassert 17260 "Converting from JavaScript to BSON failed: Object size exceeds limit"
        (Z.of_nat (String.length (objdata o)) <=? BSONObjMaxInternalSize);
  Ok o.

(** The elements of an array, named by their index from [i] on, and the properties of
    an object. *)
Definition js_elements (conv : js → res value) (depth : Z) : Z → list js → res BSONObj :=
  fix go i l :=
    match l with
    | [] => Ok []
    | x :: l =>
        _ ← element_checks (numStr i) depth; v ← conv x; rest ← go (i + 1) l; Ok ((numStr i, v) :: rest)
    end.

Definition js_fields (keep : string → bool) (conv : js → res value) (depth : Z) : list (string * js) → res BSONObj :=
  fix go fs :=
    match fs with
    | [] => Ok []
    | (name, x) :: fs =>
        if keep name then _ ← element_checks name depth; v ← conv x; rest ← go fs; Ok ((name, v) :: rest)
        else go fs
    end.

(** [_id] goes first in an object at the top. *)
Definition is_id (depth : Z) (name : string) : bool := (depth =? 0) && String.eqb name "_id".

(** [v8ToMongoElement], [v8ToMongoObject] and [v8ToMongo] behind the checks; a number is a double,
    since no object that came from the server is rebuilt. *)
Fixpoint v8ToMongoElement (value : js) (depth : Z) : res Bson.value :=
  match value with
  | JString s => Ok (VString s)
  | JFunction native code =>
      _ ← uassert 16716 "cannot convert native function to BSON" (negb native); Ok (VCode code)
  | JNumber d => Ok (VDouble d)
  | JArray l => o ← js_elements (λ x, v8ToMongoElement x (depth + 1)) (depth + 1) 0 l; Ok (VArray o)
  | JDate d => n ← double_to_long d; Ok (VDate (to_unsigned 64 n))
  | JRegExp p f => Ok (VRegEx p f)
  | JObjectId s => o ← v8ToMongoObjectID s; Ok (VOID o)
  | JNumberLong n => Ok (VLong n)
  | JNumberInt n => Ok (VInt n)
  | JDBPointer ns id => o ← v8ToMongoObjectID id; Ok (VDBRef ns o)
  | JBinData t d => Ok (VBinData t d)
  | JTimestamp t i => Ok (VTimestamp (to_unsigned 32 t * 2 ^ 32 + to_unsigned 32 i))
  | JMinKey => Ok VMinKey
  | JMaxKey => Ok VMaxKey
  | JObject fs =>
      id ← js_fields (is_id depth) (λ x, v8ToMongoElement x 0) 0 fs;
      rest ← js_fields (λ n, negb (is_id depth n)) (λ x, v8ToMongoElement x (depth + 1)) (depth + 1) fs;
      o ← size_check (id ++ rest); Ok (VObject o)
  | JBson o => Ok (VObject o)
  | JBool b => Ok (VBool b)
  | JUndefined => Ok VUndefined
  | JNull => Ok VNull
  end.

(** The document of a command. *)
Definition v8ToMongo (o : js) : res BSONObj :=
  v ← v8ToMongoElement o 0;
  match v with VObject o => Ok o | _ => Throw (VerifyFailed "value->IsObject()") end.

(** ** From BSON *)

Section engine.
(** [newFunction]: a function from its source text. *)
Context (newFunction : string → res js).

(** [mongoToLZV8] makes an object that reads its document, or a [DBRef]. *)
Definition js_array (conv : BSONElement → res js) : BSONObj → res (list js) :=
  fix go o := match o with [] => Ok [] | e :: o => x ← conv e; rest ← go o; Ok (x :: rest) end.

Definition js_dbref (conv : BSONElement → res js) : BSONObj → res (list (string * js)) :=
  fix go o := match o with [] => Ok [] | e :: o => x ← conv e; rest ← go o; Ok ((fieldName e, x) :: rest) end.

Definition is_dbref (m : BSONObj) : bool :=
  match m with
  | ref :: id :: _ =>
      bool_decide (type ref = String_) && String.eqb (fieldName ref) "$ref" && ok id && String.eqb (fieldName id) "$id"
  | _ => false
  end.

Fixpoint mongoToV8 (v : value) : res js :=
  match v with
  | VCode s => newFunction s
  | VCodeWScope c _ => newFunction c
  | VSymbol s | VString s => Ok (JString s)
  | VOID o => Ok (JObjectId (OID_toString o))
  | VDouble d => Ok (JNumber d)
  | VInt n => Ok (JNumber (double_of_Z n))
  | VArray o => l ← js_array (λ e, mongoToV8 e.2) o; Ok (JArray l)
  | VObject o => if is_dbref o then fs ← js_dbref (λ e, mongoToV8 e.2) o; Ok (JObject fs) else Ok (JBson o)
  | VDate m => Ok (JDate (double_of_Z (to_signed 64 m)))
  | VBool b => Ok (JBool b)
  | VEOO | VNull | VUndefined => Ok JNull
  | VRegEx p f => Ok (JRegExp p f)
  | VBinData t d => Ok (JBinData t d)
  | VTimestamp t => Ok (JTimestamp (t / 2 ^ 32) (t mod 2 ^ 32))
  | VLong n => Ok (JNumberLong n)
  | VMinKey => Ok JMinKey
  | VMaxKey => Ok JMaxKey
  | VDBRef ns o => Ok (JDBPointer ns (OID_toString o))
  end.

(** [namedGet]: a property of a document. *)
Definition namedGet (o : BSONObj) (key : string) : res js :=
  let elmt := getField o key in
  if eoo elmt then Ok JUndefined else mongoToV8 elmt.2.

(** What the scripts here do not do with a value. *)
Definition unused_on (v : js) : exn := UndefinedBehaviour ("not modelled for " +:+ typeof v).

(** [v.name]. *)
Definition js_get (v : js) (name : string) : res js :=
  match v with
  | JBson o => namedGet o name
  | JObject fs => Ok (from_option (snd ∘ snd) JUndefined (list_find (λ f, f.1 = name) fs))
  | JObjectId s => Ok (if String.eqb name "str" then JString s else JUndefined)
  | JUndefined | JNull => Throw (UserException 0 "TypeError")
  | _ => Throw (unused_on v)
  end.

(** [v[k]] for a string. *)
Definition js_index (v k : js) : res js :=
  match k with JString k => js_get v k | _ => Throw (unused_on k) end.

(** [Object.keys(v)]. *)
Definition Object_keys (v : js) : res (list string) :=
  match v with
  | JBson o => Ok (fieldName <$> o)
  | JObject fs => Ok fs.*1
  | JUndefined | JNull => Throw (UserException 0 "TypeError")
  | _ => Throw (unused_on v)
  end.

(** [v == 1]. *)
Definition equals_one (v : js) : res bool :=
  match v with
  | JNumber d => Ok (double_eqb d (double_of_Z 1))
  | JBool b => Ok b
  | JUndefined | JNull => Ok false
  | _ => Throw (unused_on v)
  end.

(** ** The scripts *)

Section shell.
Context {Mt Pt Q : Type} `{MatcherOps Mt} `{ProjectionOps Pt} `{PriorityQueue Q}.
Context (sys : System Mt Pt) (acquireV1 : User → string → option User) (cmdText : BSONObj → string).
(** [tojson], for the texts of exceptions. *)
Context (tojson : js → string).
Abbreviation C := (Conn (Mt:=Mt) (Pt:=Pt)).

Definition throwError {A} (msg : string) : M C A := throw (UserException 0 msg).

(** [DB.prototype.runCommand] and [findOne]: the reply of the server to the command in
    the [$cmd] collection of the database. *)
Definition runCommand (db : string) (cmdObj : js) : M C js :=
  o ← lift (v8ToMongo cmdObj);
  r ← runCommands (Q:=Q) sys acquireV1 cmdText (db +:+ ".$cmd") o;
  match r with
  | Reply ret =>
      err ← lift (js_get (JBson ret) "$err");
      if truthy err then throwError ("error " +:+ tojson (JBson ret)) else mret (JBson ret)
  | _ => throw (unused_on cmdObj)
  end.

Definition commandWorked (res : js) : M C unit :=
  ok ← lift (js_get res "ok");
  b ← lift (equals_one ok);
  if b : bool then mret () else throwError ("command failed: " +:+ tojson res +:+ " : undefined").

(** A [PS] object holds its database. *)
Record PS := mkPS { ps_db : string }.

Definition PS_publish (ps : PS) (channel message : js) : M C js :=
  if negb (String.eqb (typeof channel) "string") then
    throwError ("The channel argument to the publish command must be a string but was a " +:+ typeof channel)
  else if negb (String.eqb (typeof message) "object") then
    throwError ("The message argument to the publish command must be a document but was a " +:+ typeof message)
  else
    res ← runCommand (ps_db ps) (JObject [("publish", channel); ("message", message)]);
    _ ← commandWorked res;
    mret res.

(** A [Subscription] object. *)
Record Subscription := mkSubscription { sub_id : js; sub_ps : PS }.

Definition Subscription_new (id : js) (ps : PS) : M C Subscription :=
  match id with
  | JUndefined => throwError "The Subscription constructor takes an id"
  | _ => mret (mkSubscription id ps)
  end.

(** Neither undefined nor an object. *)
Definition not_an_object (v : js) : bool :=
  negb (String.eqb (typeof v) "undefined") && negb (String.eqb (typeof v) "object").

Definition subscribe_object (channel filter projection : js) : js :=
  JObject ([("subscribe", channel)] ++ (if truthy filter then [("filter", filter)] else [])
             ++ (if truthy projection then [("projection", projection)] else [])).

Definition PS_subscribe (ps : PS) (channel filter projection : js) : M C Subscription :=
  if negb (String.eqb (typeof channel) "string") then
    throwError ("The channel argument to the subscribe command must be a string but was a " +:+ typeof channel)
  else if not_an_object filter then
    throwError ("The filter argument to the subscribe command must be an object but was a " +:+ typeof filter)
  else if not_an_object projection then
    throwError ("The projection argument to the subscribe command must be an object but was a " +:+ typeof projection)
  else
    res ← runCommand (ps_db ps) (subscribe_object channel filter projection);
    _ ← commandWorked res;
    id ← lift (js_get res "subscriptionId");
    Subscription_new id ps.

Definition poll_object (id timeout : js) : js :=
  JObject ([("poll", id)] ++ if truthy timeout then [("timeout", timeout)] else []).

Definition PS_poll (ps : PS) (id timeout : js) : M C js :=
  if negb (String.eqb (typeof timeout) "undefined") && negb (String.eqb (typeof timeout) "number") then
    throwError ("The timeout argument to the poll command must be a number but was a " +:+ typeof timeout)
  else
    res ← runCommand (ps_db ps) (poll_object id timeout);
    _ ← commandWorked res;
    mret res.

Definition PS_unsubscribe (ps : PS) (id : js) : M C js :=
  if negb (String.eqb (typeof id) "object") && negb (String.eqb (typeof id) "array") then
    throwError ("The subscriptionId argument to the unsubscribe command must be an object or array but was a "
      +:+ typeof id)
  else
    res ← runCommand (ps_db ps) (JObject [("unsubscribe", id)]);
    _ ← commandWorked res;
    mret res.

Definition Subscription_poll (s : Subscription) (timeout : js) : M C js := PS_poll (sub_ps s) (sub_id s) timeout.
Definition Subscription_getId (s : Subscription) : js := sub_id s.
Definition Subscription_unsubscribe (s : Subscription) : M C js := PS_unsubscribe (sub_ps s) (sub_id s).

(** One round of [forEach]: what the callback is called with, if it is. *)
Definition forEach_round (s : Subscription) : M C (option js) :=
  res ← Subscription_poll s (JNumber (double_of_Z 10000));
  messages ← lift (js_get res "messages");
  keys ← lift (Object_keys messages);
  if negb (length keys =? 0)%nat then
    str ← lift (js_get (sub_id s) "str");
    arg ← lift (js_index messages str);
    mret (Some arg)
  else mret None.

(** The first rounds of the endless loop: the arguments of the calls. *)
Fixpoint forEach (rounds : nat) (s : Subscription) : M C (list js) :=
  match rounds with
  | O => mret []
  | S rounds =>
      call ← forEach_round s;
      calls ← forEach rounds s;
      mret (option_list call ++ calls)
  end.
End shell.
End engine.
