(* ===== verification/ShellSpec.v ===== *)
(** * What the shell's calls do

    The calls of Shell.v down to the pub/sub state of a server that does not check
    privileges: [publish] returns exactly if the message was published, a subscription
    hands its callback the messages of each poll, and what happens to it when the
    server no longer knows the subscription. *)

From S2P Require Import Prelude Monad StdMap Bytes Oid Doubles Bson BsonBytes HostPort.
From S2P Require Import ParseNumber Zmq World SendSock PubSub PQueue PubSubInv Sample PubSubPoll PubSubSafe.
From S2P Require Import Auth Commands PollResult CommandSpec Dispatch DispatchSpec Shell.

(** ** Results of a computation, whatever the state *)

Definition yields {S A} (m : M S A) (R : A → Prop) : Prop := ∀ s a s', m s = (Ok a, s') → R a.

Lemma yields_any {S A} (m : M S A) : yields m (λ _, True).
Proof. done. Qed.

Lemma yields_ret {S A} (a : A) (R : A → Prop) : R a → yields (S:=S) (mret a) R.
Proof. intros HR s b s' [= <- _]. done. Qed.

Lemma yields_throw {S A} e (R : A → Prop) : yields (S:=S) (throw e) R.
Proof. by intros s a s'. Qed.

Lemma yields_bind {S A B} (m : M S A) (f : A → M S B) P R :
  yields m P → (∀ a, P a → yields (f a) R) → yields (m ≫= f) R.
Proof.
  intros Hm Hf s b s'. unfold mbind, M_bind. destruct (m s) as [[a|e] s1] eqn:E; [|done]. apply Hf. by eapply Hm.
Qed.

Lemma yields_bind_any {S A B} (m : M S A) (f : A → M S B) R : (∀ a, yields (f a) R) → yields (m ≫= f) R.
Proof. intros Hf. eapply yields_bind; [apply yields_any|]. auto. Qed.

Lemma yields_try {S A} (m : M S A) h R : yields m R → (∀ w, yields (h w) R) → yields (try_zmq m h) R.
Proof.
  intros Hm Hh s a s'. unfold try_zmq. destruct (m s) as [[b|e] s1] eqn:E.
  - intros [= <- _]. by eapply Hm.
  - destruct e; try done. apply Hh.
Qed.

Lemma yields_foldM {S A B} (f : B → A → M S B) (R : B → Prop) l b :
  R b → (∀ b a, a ∈ l → R b → yields (f b a) R) → yields (foldM f b l) R.
Proof.
  revert b. induction l as [|a l IH]; intros b Hb Hf; cbn [foldM]; [by apply yields_ret|].
  eapply yields_bind; [apply Hf; [set_solver|done]|]. intros b' Hb'. apply IH; [done|]. intros. apply Hf; set_solver.
Qed.

Ltac yields_step :=
  lazymatch goal with
  | |- yields (mret _) _ => apply yields_ret
  | |- yields (throw _) _ => apply yields_throw
  | |- yields (_ ≫= _) _ => apply yields_bind_any; intros ?
  | |- yields (match ?x with _ => _ end) _ => destruct x
  end.

(** ** The messages of a poll are of the subscriptions asked for *)

Section own.
Context {Mt Pt Q : Type} `{MatcherOps Mt} `{ProjectionOps Pt} `{PriorityQueueLaws Q}.
Context (sys : System Mt Pt).
Implicit Types (subs : list (OID * nat)) (ids : list OID).

Definition from (ids : list OID) (q : Q) : Prop := ∀ m, m ∈ pq_elems q → subscriptionId m ∈ ids.

Lemma getSubscriptions_own ids errors :
  yields (getSubscriptions (Mt:=Mt) (Pt:=Pt) ids errors) (λ x, x.1.2.*1 ⊆ ids).
Proof.
  unfold getSubscriptions. apply yields_foldM; [set_solver|]. intros [[items subs] es] id Hid Hs.
  repeat yields_step; cbn [fst snd] in *; [done|]. rewrite fmap_app. set_solver.
Qed.

Lemma drop_own fuel i items subs errors :
  yields (drop_unsubscribed (Mt:=Mt) (Pt:=Pt) fuel i items subs errors) (λ x, x.1.2.*1 ⊆ subs.*1).
Proof.
  revert i items subs errors. induction fuel as [|fuel IH]; intros i items subs errors; cbn [drop_unsubscribed]; [yields_step|].
  destruct (subs !! Z.to_nat i) as [[id l]|]; [|by yields_step]. repeat yields_step.
  - intros w x w' Hx. etrans; [by eapply IH|]. unfold erase_at. rewrite fmap_app, fmap_take, fmap_drop.
    intros y [Hy|Hy]%elem_of_app; [by eapply subseteq_take|by eapply subseteq_drop].
  - apply IH.
Qed.

Lemma poll_loop_own fuel items subs errors t r c again :
  yields (poll_loop sys fuel items subs errors t r c again)
    (λ x, match x with Finished _ subs' _ => subs'.*1 ⊆ subs.*1 | _ => True end).
Proof.
  revert items subs errors t r c again.
  induction fuel as [|fuel IH]; intros items subs errors t r c again; cbn [poll_loop]; [yields_step|].
  destruct (negb _); [by yields_step|]. apply yields_bind_any. intros n. destruct (negb _); [by yields_step|].
  eapply yields_bind; [apply drop_own|]. intros [[items' subs'] errors'] Hs. cbn [fst snd] in Hs.
  repeat yields_step; try done. intros w x w' Hx. apply IH in Hx. destruct x; [done|]. by etrans.
Qed.

Lemma recv_loop_own fuel id l (q : Q) ids : id ∈ ids → from ids q →
  yields (recv_loop sys fuel id l q) (λ x, from ids x.1).
Proof.
  intros Hid. revert q. induction fuel as [|fuel IH]; intros q Hq; cbn [recv_loop]; [yields_step|].
  eapply yields_bind with (P := λ r : option (string + option SubscriptionMessage),
    match r with Some (inr (Some m)) => subscriptionId m = id | _ => True end).
  - apply yields_try; [|intros; by yields_step]. yields_step. yields_step; [|by yields_step].
    eapply yields_bind with (P := λ o, match o with Some m => subscriptionId m = id | _ => True end).
    + unfold recv_rest. repeat yields_step; done.
    + intros [m|] Hm; by yields_step.
  - intros [[what|[m|]]|] Hm; [by yields_step| |by apply IH|by yields_step].
    apply IH. intros m'. rewrite pq_push_elems. intros [->|?]%elem_of_cons; [by rewrite Hm|by apply Hq].
Qed.

Lemma poll_own ids t millis again errors :
  yields (poll (Q:=Q) sys ids t millis again errors) (λ r, from ids (pr_messages r)).
Proof.
  assert (from ids (pq_new (Q:=Q))) as Hnew by (intros m; rewrite pq_new_elems; set_solver).
  unfold poll. eapply yields_bind; [apply getSubscriptions_own|]. intros [[items subs] es] Hs. cbn [fst snd] in Hs.
  yields_step; [by yields_step|]. yields_step. eapply yields_bind; [apply poll_loop_own|].
  intros [? ? ?|? subs' ?] Hx; [by yields_step|]. eapply yields_bind with (P := λ x, from ids x.1).
  - unfold recvMessages. apply yields_foldM; [done|]. intros [q e'] [id l] Hin Hq. unfold recv_sub. yields_step.
    eapply yields_bind; [apply (recv_loop_own _ _ _ _ ids); [|done]|].
    + apply Hs, Hx, list_elem_of_fmap. by exists (id, l).
    + intros x Hx'. by repeat yields_step.
  - intros [q e'] Hq. by yields_step.
Qed.
End own.

(** ** Identifiers *)

Lemma hex_digits str : Forall (λ x, isxdigit x = true) (String.list_ascii_of_string (toHexLower str)).
Proof.
  induction str as [|x str IH]; [constructor|]. cbn [toHexLower String.list_ascii_of_string].
  do 2 (constructor; [by destruct x as [[] [] [] [] [] [] [] []]|]). done.
Qed.

Lemma filter_all {A} (P : A → Prop) `{∀ x, Decision (P x)} l : Forall P l → filter P l = l.
Proof. induction 1 as [|x l Hx _ IH]; [done|]. by rewrite filter_cons_True, IH. Qed.

Lemma list_ascii_length str : length (String.list_ascii_of_string str) = String.length str.
Proof. induction str as [|x str IH]; [done|]. cbn. by rewrite IH. Qed.

(** The object the shell has for an identifier stands for that identifier. *)
Lemma id_roundtrip id : v8ToMongoObjectID (OID_toString id) = Ok id.
Proof.
  unfold v8ToMongoObjectID. assert (String.length (OID_toString id) = 24%nat) as Hl
    by (unfold OID_toString; by rewrite toHexLower_length, oid_length).
  rewrite (filter_all _ _ (hex_digits (oid_data id))), list_ascii_length. fold (OID_toString id). rewrite Hl. apply OID_string_roundtrip.
Qed.

(** ** A call and its reply *)

Lemma getField_snoc o e k : fieldName e ≠ k → getField (o ++ [e]) k = getField o k.
Proof. intros Hn. induction o as [|x o IH]; cbn [app]; [by rewrite getField_skip|]. cbn [getField]. by rewrite IH. Qed.

Lemma getField_absent o o' k : k ≠ "" → hasField o k = false → getField (o ++ o') k = getField o' k.
Proof.
  intros Hk Hf. apply getField_app_None. intros e He Hn. induction o as [|x o IH]; [set_solver|].
  unfold hasField in *. destruct (decide (fieldName x = k)) as [Hx|Hx].
  - rewrite getField_head in Hf by done. apply negb_false_iff in Hf. revert Hx. unfold fieldName. by rewrite Hf.
  - rewrite getField_skip in Hf by done. apply elem_of_cons in He as [->|He]; [done|auto].
Qed.

Lemma hasField_snoc o e k : fieldName e ≠ k → hasField (o ++ [e]) k = hasField o k.
Proof. intros Hn. unfold hasField. by rewrite getField_snoc. Qed.

Lemma not_eoo n v : vtype v ≠ EOO → eoo (n, v) = false.
Proof. intros Hv. by apply bool_decide_eq_false_2. Qed.

Lemma fieldName_plain n v : vtype v ≠ EOO → fieldName (n, v) = n.
Proof. intros Hv. unfold fieldName. by rewrite not_eoo. Qed.

Section calls.
Context {Mt Pt Q : Type} `{MatcherOps Mt} `{ProjectionOps Pt} `{PriorityQueueLaws Q}.
Context (newFunction : string → res js) (sys : System Mt Pt).
Context (acquireV1 : User → string → option User) (cmdText : BSONObj → string) (tojson : js → string).
Implicit Types (conn : Conn (Mt:=Mt) (Pt:=Pt)) (c : PubSubCommand).
Abbreviation runCommand := (runCommand (Q:=Q) newFunction sys acquireV1 cmdText tojson).
Abbreviation commandWorked := (commandWorked newFunction tojson).

(** A server that checks no privileges, and an operation nobody interrupts. *)
Definition open_conn conn : Prop := authEnabled (session conn) = false ∧ interrupt conn = None.

Definition ran (w : World Mt Pt) conn : Conn := mkConn w (session conn) (opCounter conn + 1) 0 None (gleStats conn).

Lemma ran_open w conn : open_conn conn → open_conn (ran w conn).
Proof. by intros [? _]. Qed.

(** The document a successful command is answered with. *)
Definition answer (gle : option (Z * OID)) (o : BSONObj) : BSONObj :=
  appendGLEHelperData (o ++ [("ok", VDouble (double_of_Z 1))]) gle.

Lemma answer_field gle o k : k ≠ "ok" → k ≠ "$gleStats" → getField (answer gle o) k = getField o k.
Proof.
  intros Hk Hg. unfold answer, appendGLEHelperData, append. destruct gle as [[t i]|].
  - rewrite getField_snoc by exact (not_eq_sym Hg). apply getField_snoc, (not_eq_sym Hk).
  - apply getField_snoc, (not_eq_sym Hk).
Qed.

Lemma answer_ok gle o : hasField o "ok" = false → getField (answer gle o) "ok" = ("ok", VDouble (double_of_Z 1)).
Proof.
  intros Hk. unfold answer, appendGLEHelperData, append. destruct gle as [[t i]|].
  - by rewrite getField_snoc, getField_absent.
  - by rewrite getField_absent.
Qed.

Lemma namedGet_absent o k : hasField o k = false → js_get newFunction (JBson o) k = Ok JUndefined.
Proof. intros Hf%negb_false_iff. cbn [js_get]. unfold namedGet. by rewrite Hf. Qed.

Lemma runCommand_reply db obj cmd ret conn conn' :
  v8ToMongo obj = Ok cmd → hasField ret "$err" = false →
  runCommands (Q:=Q) sys acquireV1 cmdText (db +:+ ".$cmd") cmd conn = (Ok (Reply ret), conn') →
  runCommand db obj conn = (Ok (JBson ret), conn').
Proof.
  intros Ho He Hr. unfold Shell.runCommand. rewrite Ho, run_lift_Ok, (bind_Ok _ _ _ _ _ Hr).
  by rewrite namedGet_absent, run_lift_Ok.
Qed.

Lemma runCommand_throw db obj cmd e conn conn' : v8ToMongo obj = Ok cmd →
  runCommands (Q:=Q) sys acquireV1 cmdText (db +:+ ".$cmd") cmd conn = (Throw e, conn') →
  runCommand db obj conn = (Throw e, conn').
Proof. intros Ho Hr. unfold Shell.runCommand. by rewrite Ho, run_lift_Ok, (bind_Throw _ _ _ _ _ Hr). Qed.

Lemma worked ret n conn : getField ret "ok" = ("ok", VDouble (double_of_Z n)) →
  commandWorked (JBson ret) conn =
    if double_eqb (double_of_Z n) (double_of_Z 1) then (Ok (), conn)
    else (Throw (UserException 0 ("command failed: " +:+ tojson (JBson ret) +:+ " : undefined")), conn).
Proof.
  intros Hg. unfold Shell.commandWorked. cbn [js_get]. unfold namedGet. rewrite Hg.
  change (eoo ("ok", VDouble (double_of_Z n))) with false. cbn [mongoToV8 snd]. rewrite run_lift_Ok.
  cbn [equals_one]. rewrite run_lift_Ok. by destruct (double_eqb _ _).
Qed.

Lemma runCommand_unconverted {A} db obj e conn (k : js → M _ A) : v8ToMongo obj = Throw e →
  (runCommand db obj ≫= k) conn = (Throw e, conn).
Proof. intros Ho. apply bind_Throw. unfold Shell.runCommand. by rewrite Ho. Qed.

(** The reply to a failed command. *)
Lemma failed_reply gle e o : run_reply gle (Throw e) = Ok o →
  hasField o "$err" = false ∧ getField o "ok" = ("ok", VDouble (double_of_Z 0)).
Proof. destruct e, gle as [[t i]|]; cbn [run_reply]; intros [= <-]; done. Qed.

(** A call: the command is run, and what follows gets the answer unless the command
    fails. *)
Lemma call_run c db obj v rest conn {A} (k : js → M _ A) :
  let cmd := (command_name c, v) :: rest in
  open_conn conn → plain_db db → v8ToMongo obj = Ok cmd → vtype v ≠ EOO → no_options cmd →
  (∀ o w, command_run (Q:=Q) sys c cmd (world conn) = (Ok o, w) → hasField o "$err" = false ∧ hasField o "ok" = false) →
  match command_run (Q:=Q) sys c cmd (world conn) with
  | (Ok o, w) => (res ← runCommand db obj; _ ← commandWorked res; k res) conn = k (JBson (answer (gleStats conn) o)) (ran w conn)
  | (Throw _, w) => ∃ e, (res ← runCommand db obj; _ ← commandWorked res; k res) conn = (Throw e, ran w conn)
  end.
Proof.
  intros cmd [Ha Hi] Hdb Hobj Hv Ho Hf.
  assert (Hr := request_open (Q:=Q) sys acquireV1 cmdText c db v rest conn Hdb Hv Ho Hi Ha). fold cmd in Hr.
  destruct (command_run sys c cmd (world conn)) as [[o|e] w] eqn:E.
  - destruct (Hf o w eq_refl) as [He Hok].
    assert (run_reply (gleStats conn) (Ok o) = Ok (answer (gleStats conn) o)) as Hrep.
    { unfold run_reply, answer, appendCommandStatus. by rewrite Hok. }
    rewrite Hrep in Hr.
    rewrite (bind_Ok _ _ _ _ _ (runCommand_reply db obj cmd _ _ _ Hobj ltac:(by unfold hasField; rewrite answer_field) Hr)).
    by rewrite (bind_Ok _ _ _ () (ran w conn)) by (rewrite (worked _ 1) by (by rewrite answer_ok); done).
  - destruct (run_reply (gleStats conn) (Throw e)) as [o|e'] eqn:Hrep.
    + destruct (failed_reply _ _ _ Hrep) as [He Hok]. eexists.
      rewrite (bind_Ok _ _ _ _ _ (runCommand_reply db obj cmd _ _ _ Hobj He Hr)).
      erewrite bind_Throw; [done|]. by rewrite (worked _ 0).
    + exists e'. by rewrite (bind_Throw _ _ _ _ _ (runCommand_throw db obj cmd _ _ _ Hobj Hr)).
Qed.

(** ** Publishing *)

Definition publish_cmd_of (ch : string) (v : value) : BSONObj := [("publish", VString ch); ("message", v)].

Lemma plain_name name : str_index NUL name = None → element_checks name 1 = Ok ().
Proof. intros Hn. unfold element_checks. cbn. by rewrite bool_decide_eq_true_2. Qed.

Lemma size_check_cases o : size_check o = Ok o ∨ ∃ e, size_check o = Throw e.
Proof. unfold size_check, uassert. destruct (_ <=? _); [by left|right; by eexists]. Qed.

Lemma js_fields_keep (k1 k2 : string → bool) conv d fs : Forall (λ f, k1 f.1 = k2 f.1) fs →
  js_fields k1 conv d fs = js_fields k2 conv d fs.
Proof. induction 1 as [|[n x] fs Hn _ IH]; [done|]. cbn [js_fields fst] in *. by rewrite Hn, IH. Qed.

Lemma js_fields_none conv d fs : js_fields (λ _, false) conv d fs = Ok [].
Proof. induction fs as [|[n x] fs IH]; [done|]. apply IH. Qed.

Lemma v8_object_eq fs d : v8ToMongoElement (JObject fs) d =
  (id ← js_fields (is_id d) (λ x, v8ToMongoElement x 0) 0 fs;
   rest ← js_fields (λ n, negb (is_id d n)) (λ x, v8ToMongoElement x (d + 1)) (d + 1) fs;
   o ← size_check (id ++ rest); Ok (VObject o)).
Proof. done. Qed.

(** Stated for any check, so that conversion does not look into the sizes. *)
Lemma wrapped_object (check : BSONObj → res BSONObj) r : (∀ o, check o = Ok o ∨ ∃ e, check o = Throw e) →
  (r ≫= λ o, check o ≫= λ o, Ok (VObject o))
    ≫= (λ v, match v with VObject o => Ok o | _ => Throw (VerifyFailed "value->IsObject()") end)
  = r ≫= check.
Proof. intros Hc. destruct r as [o|e]; [|done]. cbn [mbind res_bind]. by destruct (Hc o) as [->|[e ->]]. Qed.

(** The document of a command object, which has no [_id]. *)
Lemma object_fields fs : Forall (λ f, f.1 ≠ "_id") fs →
  v8ToMongo (JObject fs) = js_fields (λ _, true) (λ x, v8ToMongoElement x 1) 1 fs ≫= size_check.
Proof.
  intros Hfs.
  assert (Forall (λ f, is_id 0 f.1 = false) fs) as Hid.
  { eapply Forall_impl; [exact Hfs|]. intros f Hf%String.eqb_neq. exact Hf. }
  unfold v8ToMongo. rewrite v8_object_eq, Z.add_0_l.
  rewrite (js_fields_keep (is_id 0) (λ _, false)), js_fields_none by done.
  rewrite (js_fields_keep (λ n, negb (is_id 0 n)) (λ _, true)); [apply wrapped_object, size_check_cases|].
  eapply Forall_impl; [exact Hid|]. intros f Hf. cbv beta. by rewrite Hf.
Qed.

Lemma js_fields_cons conv name x fs : str_index NUL name = None →
  js_fields (λ _, true) conv 1 ((name, x) :: fs) =
  (v ← conv x; rest ← js_fields (λ _, true) conv 1 fs; Ok ((name, v) :: rest)).
Proof. intros Hn. cbn [js_fields]. by rewrite plain_name. Qed.

Lemma publish_object ch message :
  v8ToMongo (JObject [("publish", JString ch); ("message", message)]) =
  (v ← v8ToMongoElement message 1; Ok (publish_cmd_of ch v)) ≫= size_check.
Proof.
  rewrite object_fields by (by repeat constructor). f_equal. rewrite !js_fields_cons by done.
  by destruct (v8ToMongoElement message 1).
Qed.

Lemma res_bind_Ok {A B} (a : A) (f : A → res B) : (Ok a ≫= f) = f a.
Proof. done. Qed.

(** The command object of a call, and when there is none. *)
Lemma publish_converted ch message v : v8ToMongoElement message 1 = Ok v →
  v8ToMongo (JObject [("publish", JString ch); ("message", message)]) = size_check (publish_cmd_of ch v).
Proof. intros Hv. by rewrite publish_object, Hv, !res_bind_Ok. Qed.

Lemma publish_unconverted ch message e : v8ToMongoElement message 1 = Throw e →
  v8ToMongo (JObject [("publish", JString ch); ("message", message)]) = Throw e.
Proof. intros Hv. by rewrite publish_object, Hv. Qed.

Lemma res_bind_inv {A B} (r : res A) (f : A → res B) b : (r ≫= f) = Ok b → ∃ a, r = Ok a ∧ f a = Ok b.
Proof. destruct r; [eauto|done]. Qed.

Lemma v8_kind x d v : v8ToMongoElement x d = Ok v →
  vtype v ≠ EOO ∧ (vtype v = Object → typeof x = "object").
Proof.
  destruct x; cbn [v8ToMongoElement]; intros Hx;
    repeat match goal with H : (_ ≫= _) = Ok _ |- _ => apply res_bind_inv in H as (? & _ & H) end;
    injection Hx as <-; done.
Qed.

Lemma publish_message ch v : vtype v ≠ EOO → getField (publish_cmd_of ch v) kMessageField = ("message", v).
Proof. intros Hv. exact (getField_head ("message", v) [] "message" (fieldName_plain "message" v Hv)). Qed.

(** What the command makes of the document the shell sends: it publishes or fails. *)
Lemma publish_run ch m w : pubsubEnabled w = true → StringData_startsWith ch "$events" = false →
  PublishCommand_run sys (publish_cmd_of ch (VObject m)) w =
  match publish sys ch m w with
  | (Ok true, w') => (Ok [], w')
  | (Ok false, w') => (Throw (UserException 18538 "Failed to publish message."), w')
  | (Throw e, w') => (Throw e, w')
  end.
Proof.
  intros He Hs. unfold PublishCommand_run. run. rewrite He. run.
  change (as_String (getField (publish_cmd_of ch (VObject m)) kPublishField)) with (Ok ch). run. rewrite Hs. run. rewrite publish_message by done. cbn [embeddedObjectUserCheck snd]. run.
  destruct (publish sys ch m w) as [[[]|e] w'] eqn:E.
  - by rewrite (bind_Ok _ _ _ _ _ E).
  - by rewrite (bind_Ok _ _ _ _ _ E).
  - by rewrite (bind_Throw _ _ _ _ _ E).
Qed.

Lemma publish_refused ch v w : vtype v ≠ EOO →
  pubsubEnabled w = false ∨ StringData_startsWith ch "$events" = true ∨ vtype v ≠ Object →
  ∃ e, PublishCommand_run sys (publish_cmd_of ch v) w = (Throw e, w).
Proof.
  intros Hv Hor. unfold PublishCommand_run. run. destruct (pubsubEnabled w); run; [|by eexists].
  change (as_String (getField (publish_cmd_of ch v) kPublishField)) with (Ok ch). run.
  destruct (StringData_startsWith ch "$events"); run; [by eexists|]. destruct Hor as [?|[?|Ho]]; [done|done|].
  unfold hasField. rewrite publish_message, not_eoo by done. run.
  rewrite (bool_decide_eq_false_2 _ Ho). run. by eexists.
Qed.

(** The arguments of a call that the server can publish. *)
Definition publishable (channel message : js) (w : World Mt Pt) (ch : string) (m : BSONObj) : Prop :=
  channel = JString ch ∧ v8ToMongoElement message 1 = Ok (VObject m) ∧
  (∃ o, size_check (publish_cmd_of ch (VObject m)) = Ok o) ∧
  pubsubEnabled w = true ∧ StringData_startsWith ch "$events" = false.

Lemma publish_no_options ch v : vtype v ≠ EOO → no_options (publish_cmd_of ch v).
Proof.
  intros Hv. assert (∀ k, k ≠ "publish" → k ≠ "message" → getField (publish_cmd_of ch v) k = eooElement) as Hk.
  { intros k H1' H2'. apply getField_missing. intros e [->|[->|?%elem_of_nil]%elem_of_cons]%elem_of_cons; [by apply not_eq_sym| |done].
    rewrite fieldName_plain by done. by apply not_eq_sym. }
  unfold no_options, hasField. by rewrite !Hk.
Qed.

(** C25: A call of [publish] in the shell returns exactly if the server has published
    the message on the channel: the channel is a string that is not reserved for events,
    the message an object that can be converted, and every frame was taken by the
    sockets.  In every other case it throws, or waits while a PUSH socket of the server
    has no room, and if the message could not be published at all nothing has changed on
    the server. *)
Theorem shell_publish ps channel message conn : plain_db (ps_db ps) → open_conn conn →
  match PS_publish (Q:=Q) newFunction sys acquireV1 cmdText tojson ps channel message conn with
  | (Ok _, conn') => ∃ ch m, publishable channel message (world conn) ch m ∧
      publish sys ch m (world conn) = (Ok true, world conn')
  | (Throw _, conn') =>
      (∃ ch m, publishable channel message (world conn) ch m ∧
         (publish sys ch m (world conn)).1 ≠ Ok true ∧ (publish sys ch m (world conn)).2 = world conn')
      ∨ (∀ ch m, ¬ publishable channel message (world conn) ch m) ∧ world conn' = world conn
  end.
Proof.
  intros Hdb Hc. unfold PS_publish. destruct (String.eqb (typeof channel) "string") eqn:Hch; cbn [negb].
  2: { right. split; [|done]. intros ch m (-> & _). done. }
  destruct channel as [| | | |ch| | | | | | | | | | | | | |]; try done.
  destruct (String.eqb (typeof message) "object") eqn:Hm; cbn [negb].
  2: { right. split; [|done]. intros ch' m (_ & Hv & _). apply v8_kind in Hv as [_ Ho].
       rewrite (Ho eq_refl) in Hm. done. }
  destruct (v8ToMongoElement message 1) as [v|e] eqn:Hv.
  2: { rewrite (runCommand_unconverted _ _ _ _ _ (publish_unconverted _ _ _ Hv)). right. split; [|done].
       intros ch' m (_ & Hv' & _). congruence. }
  pose proof (publish_converted ch _ _ Hv) as Hob.
  destruct (size_check_cases (publish_cmd_of ch v)) as [Hs|[e Hs]]; rewrite Hs in Hob.
  2: { rewrite (runCommand_unconverted _ _ _ _ _ Hob). right. split; [|done].
       intros ch' m ([= <-] & Hv' & [o Ho] & _). rewrite Hv' in Hv. injection Hv as <-. congruence. }
  apply v8_kind in Hv as Hk. destruct Hk as [Hk _].
  assert (Hcall := call_run PublishCommand (ps_db ps) _ (VString ch) [("message", v)] conn (λ res, mret res) Hc Hdb Hob ltac:(done)
    (publish_no_options ch v Hk)). cbv beta in Hcall.
  change (command_run sys PublishCommand _ (world conn)) with (PublishCommand_run sys (publish_cmd_of ch v) (world conn)) in Hcall.
  destruct (decide (pubsubEnabled (world conn) = true ∧ StringData_startsWith ch "$events" = false ∧ vtype v = Object))
    as [(He & Hs' & Hty)|Hno].
  - destruct v; try done. rewrite publish_run in Hcall by done.
    assert (publishable (JString ch) message (world conn) ch o) as Hp by (split_and!; eauto).
    destruct (publish sys ch o (world conn)) as [[[]|e] w'] eqn:E; cbn beta iota in Hcall.
    + rewrite Hcall by (intros ? ? [= <- <-]; done). exists ch, o. by rewrite E.
    + destruct Hcall as [e ->]; [done|]. left. exists ch, o. by rewrite E.
    + destruct Hcall as [e' ->]; [done|]. left. exists ch, o. by rewrite E.
  - destruct (publish_refused ch v (world conn) Hk) as [e He].
    { destruct (pubsubEnabled _); [|by left]. destruct (StringData_startsWith _ _); [right; by left|].
      right. right. intros Ho. by apply Hno. }
    rewrite He in Hcall. destruct Hcall as [e' ->]; [done|]. right. split; [|done].
    intros ch' m ([= <-] & Hv' & _ & ? & ?). apply Hno. rewrite Hv' in Hv. injection Hv as <-. done.
Qed.

(** ** Polling a subscription *)

Definition id_object (id : OID) : js := JObjectId (OID_toString id).
Definition poll_cmd_of (id : OID) : BSONObj := [("poll", VOID id); ("timeout", VDouble (double_of_Z 10000))].

Lemma poll_size id : size_check (poll_cmd_of id) = Ok (poll_cmd_of id).
Proof.
  unfold size_check. assert (String.length (objdata (poll_cmd_of id)) = 40%nat) as ->; [|done].
  unfold objdata, poll_cmd_of, enc_body. cbn [enc_elems enc_value]. repeat (progress enc_length). done.
Qed.

Lemma poll_converted id : v8ToMongo (poll_object (id_object id) (JNumber (double_of_Z 10000))) = Ok (poll_cmd_of id).
Proof.
  assert (poll_object (id_object id) (JNumber (double_of_Z 10000)) =
    JObject [("poll", id_object id); ("timeout", JNumber (double_of_Z 10000))]) as -> by done.
  rewrite object_fields by (by repeat constructor). rewrite !js_fields_cons by done. unfold id_object.
  cbn [v8ToMongoElement]. rewrite id_roundtrip. rewrite !res_bind_Ok. cbn [js_fields]. rewrite !res_bind_Ok. apply poll_size.
Qed.

(** All groups of a poll of one subscription are of that subscription. *)
Lemma one_group id gs : Forall group_ok gs → NoDup gs.*1 →
  (∀ m, m ∈ groups_messages gs → subscriptionId m = id) →
  gs = [] ∨ ∃ cs, gs = [(id, cs)] ∧ cs ≠ [] ∧ channels_ok id cs ∧ NoDup cs.*1.
Proof.
  intros Hok Hnd Hid.
  assert (∀ g, g ∈ gs → g.1 = id) as Hg.
  { intros [i cs] Hin. assert (group_ok (i, cs)) as (Hne & Hcs & _) by (by eapply Forall_forall in Hok).
    destruct cs as [|[ch ms] cs]; [done|]. apply Forall_cons in Hcs as [[Hms Hf] _]. cbn [fst snd] in *.
    destruct ms as [|m ms]; [done|]. apply Forall_cons in Hf as [[<- _] _]. apply Hid.
    unfold groups_messages. apply list_elem_of_join. exists (channels_messages ((ch, m :: ms) :: cs)).
    split; [apply list_elem_of_here|]. apply list_elem_of_fmap. by exists (subscriptionId m, (ch, m :: ms) :: cs). }
  destruct gs as [|[i cs] [|[j ds] gs]]; [by left|right|exfalso].
  - pose proof (Hg _ (list_elem_of_here _ _)) as Hi. cbn in Hi. subst i. apply Forall_cons in Hok as [(? & ? & ?) _]. eauto.
  - apply NoDup_cons in Hnd as [Hni _]. apply Hni.
    assert (Hi := Hg (i, cs) ltac:(set_solver)). assert (Hj := Hg (j, ds) ltac:(set_solver)). cbn in *. subst. set_solver.
Qed.

(** What the callback gets of the messages of a poll. *)
Definition call_with (cs : list (string * list SubscriptionMessage)) : option js :=
  match cs with [] => None | _ => Some (JBson (render_channel <$> cs)) end.

(** The reply as the shell reads it. *)
Lemma get_messages gle messages r : is_dbref messages = false →
  js_get newFunction (JBson (answer gle (poll_answer (Q:=Q) messages r))) "messages" = Ok (JBson messages).
Proof.
  intros Hd. cbn [js_get]. unfold namedGet. rewrite answer_field by done.
  change (getField (poll_answer messages r) "messages") with ("messages", VObject messages).
  change (eoo ("messages", VObject messages)) with false. cbn [mongoToV8 snd]. by rewrite Hd.
Qed.

Lemma poll_answer_plain messages r :
  hasField (poll_answer (Q:=Q) messages r) "$err" = false ∧ hasField (poll_answer (Q:=Q) messages r) "ok" = false.
Proof. unfold poll_answer. by destruct (pr_pollAgain r), (bool_decide _). Qed.

Lemma get_group id cs :
  js_get newFunction (JBson (render [(id, cs)])) (OID_toString id) = Ok (JBson (render_channel <$> cs)).
Proof.
  cbn [js_get]. unfold namedGet.
  assert (getField (render [(id, cs)]) (OID_toString id) = render_group (id, cs)) as ->.
  { apply (getField_head (render_group (id, cs)) []). done. }
  change (eoo (render_group (id, cs))) with false. cbn [mongoToV8 snd render_group].
  assert (is_dbref (render_channel <$> cs) = false) as ->; [|done]. by destruct cs as [|? [|? ?]].
Qed.

(** The poll of a round. *)
Lemma round_poll id ps conn : plain_db (ps_db ps) → open_conn conn → pubsubEnabled (world conn) = true →
  match poll (Q:=Q) sys [id] 10000 0 false [] (world conn) with
  | (Ok r, w) => ∃ messages, serialize_messages (pr_messages r) = Ok messages ∧
      PS_poll (Q:=Q) newFunction sys acquireV1 cmdText tojson ps (id_object id) (JNumber (double_of_Z 10000)) conn
        = (Ok (JBson (answer (gleStats conn) (poll_answer messages r))), ran w conn)
  | (Throw _, w) => ∃ e,
      PS_poll (Q:=Q) newFunction sys acquireV1 cmdText tojson ps (id_object id) (JNumber (double_of_Z 10000)) conn
        = (Throw e, ran w conn)
  end.
Proof.
  intros Hdb Hc Hen.
  assert (poll_timeout (getField (poll_cmd_of id) kTimeoutField) = Ok 10000) as Ht by (by vm_compute).
  assert (validate (getField (poll_cmd_of id) kPollField) [] = Ok [id]) as Hv by done.
  pose proof (poll_command_run (Q:=Q) sys (poll_cmd_of id) (world conn) [id] 10000 Hen Hv Ht) as Hp.
  assert (no_options (poll_cmd_of id)) as Hno by (by repeat split).
  pose proof (call_run PollCommand (ps_db ps) _ (VOID id) [("timeout", VDouble (double_of_Z 10000))] conn (λ res, mret res) Hc Hdb
    (poll_converted id) ltac:(done) Hno) as Hcall.
  change (command_run sys PollCommand _ (world conn)) with (PollCommand_run (Q:=Q) sys (poll_cmd_of id) (world conn)) in Hcall.
  destruct (poll sys [id] 10000 0 false [] (world conn)) as [[r|e] w].
  - destruct Hp as (messages & Hm & Hp). exists messages. split; [done|]. rewrite Hp in Hcall.
    apply Hcall. intros o w' [= <- <-]. apply poll_answer_plain.
  - rewrite Hp in Hcall. by apply Hcall.
Qed.

Lemma round_calls id ps conn : plain_db (ps_db ps) → open_conn conn → pubsubEnabled (world conn) = true →
  match poll (Q:=Q) sys [id] 10000 0 false [] (world conn) with
  | (Ok r, w) => ∃ cs,
      channels_messages cs ≡ₚ pq_elems (pr_messages r) ∧ drained_order (channels_messages cs) ∧
      channels_ok id cs ∧ NoDup cs.*1 ∧
      forEach_round (Q:=Q) newFunction sys acquireV1 cmdText tojson (mkSubscription (id_object id) ps) conn
        = (Ok (call_with cs), ran w conn)
  | (Throw _, w) => ∃ e,
      forEach_round (Q:=Q) newFunction sys acquireV1 cmdText tojson (mkSubscription (id_object id) ps) conn
        = (Throw e, ran w conn)
  end.
Proof.
  intros Hdb Hc Hen. pose proof (round_poll id ps conn Hdb Hc Hen) as Hp.
  pose proof (poll_own (Q:=Q) sys [id] 10000 0 false [] (world conn)) as Hown.
  unfold forEach_round, Subscription_poll. cbn [sub_ps sub_id].
  destruct (poll sys [id] 10000 0 false [] (world conn)) as [[r|e] w].
  2: { destruct Hp as [e' Hp]. exists e'. by apply bind_Throw. }
  destruct Hp as (messages & Hm & Hp). rewrite (bind_Ok _ _ _ _ _ Hp).
  destruct (serialize_groups (pr_messages r)) as (gs & Hgs & Hperm & Hord & Hok & Hnd).
  rewrite Hgs in Hm. injection Hm as <-.
  assert (is_dbref (render gs) = false) as Hd by (by destruct gs as [|? [|? ?]]).
  rewrite get_messages, run_lift_Ok by done. cbn [Object_keys]. rewrite run_lift_Ok, length_fmap. unfold render at 1. rewrite length_fmap.
  destruct (one_group id gs Hok Hnd) as [->|(cs & -> & Hne & Hcs & Hnc)].
  - intros m Hin. rewrite Hperm in Hin. specialize (Hown _ _ eq_refl m Hin). set_solver.
  - exists []. split_and!; try done; [constructor|constructor].
  - exists cs. unfold groups_messages in Hperm, Hord. cbn [fmap list_fmap mjoin list_join snd] in Hperm, Hord. rewrite app_nil_r in Hperm, Hord.
    split_and!; try done. cbn [length Nat.eqb negb]. cbn [js_get id_object]. rewrite run_lift_Ok. cbn [String.eqb Ascii.eqb Bool.eqb js_index].
    rewrite get_group, run_lift_Ok. by destruct cs.
Qed.

(** C24: Each round of [forEach] on a subscription polls that subscription for ten
    seconds and calls the callback exactly if messages have arrived, with all of them:
    a document with one field per channel, its messages in the order they were published.
    The identifier the shell keeps as an object is the one the server gave out. *)
Theorem for_each_round id ps conn : plain_db (ps_db ps) → open_conn conn → pubsubEnabled (world conn) = true →
  match poll (Q:=Q) sys [id] 10000 0 false [] (world conn) with
  | (Ok r, w) => ∃ cs,
      channels_messages cs ≡ₚ pq_elems (pr_messages r) ∧ drained_order (channels_messages cs) ∧
      channels_ok id cs ∧ NoDup cs.*1 ∧
      forEach_round (Q:=Q) newFunction sys acquireV1 cmdText tojson (mkSubscription (id_object id) ps) conn
        = (Ok (call_with cs), ran w conn)
  | (Throw _, w) => ∃ e,
      forEach_round (Q:=Q) newFunction sys acquireV1 cmdText tojson (mkSubscription (id_object id) ps) conn
        = (Throw e, ran w conn)
  end.
Proof. apply round_calls. Qed.

(** C40: When the server does not have the subscription any more, [forEach] goes on
    for ever without calling its callback: every poll is answered at once with an error
    that the loop does not look at.  Nothing on the server changes, and no round waits. *)
Theorem for_each_deaf rounds id ps conn :
  plain_db (ps_db ps) → open_conn conn → pubsubEnabled (world conn) = true → world_wf (world conn) →
  map_find id (subscriptions (world conn)) = None →
  ∃ conn', world conn' = world conn ∧
    forEach (Q:=Q) newFunction sys acquireV1 cmdText tojson rounds (mkSubscription (id_object id) ps) conn = (Ok [], conn').
Proof.
  intros Hdb Hc Hen Hwf Hid. revert conn Hc Hen Hwf Hid. induction rounds as [|rounds IH]; intros conn Hc Hen Hwf Hid; [by exists conn|].
  pose proof (round_calls id ps conn Hdb Hc Hen) as Hr.
  assert (checked_out (world conn) [id] = []) as Hco by (unfold checked_out, checkout; cbn; by rewrite Hid).
  assert (poll (Q:=Q) sys [id] 10000 0 false [] (world conn) =
    (Ok (mkPoll pq_new 0 false (checkout_errors (world conn) [] [id])), world conn)) as Hp.
  { unfold poll. rewrite (bind_Ok _ _ _ _ _ (getSubscriptions_eq [id] [] (world conn) Hwf (NoDup_singleton id))). by rewrite Hco. }
  rewrite Hp in Hr. destruct Hr as (cs & Hperm & _ & Hok & _ & Hr). cbn [pr_messages] in Hperm. rewrite pq_new_elems in Hperm.
  assert (cs = []) as ->.
  { destruct cs as [|[ch [|m ms]] cs]; [done| |]; apply Forall_cons in Hok as [[Hne _] _]; [done|].
    by apply Permutation_nil_r in Hperm. }
  destruct (IH (ran (world conn) conn)) as (conn' & Hw & Hf); [by apply ran_open|done..|].
  exists conn'. split; [done|]. cbn [forEach]. rewrite (bind_Ok _ _ _ _ _ Hr), (bind_Ok _ _ _ _ _ Hf). done.
Qed.

(** ** Subscribing *)

(** An optional argument of the shell and the document it stands for. *)
Definition argument (x : js) (o : BSONObj) : Prop :=
  (truthy x = false ∧ not_an_object x = false ∧ o = []) ∨ v8ToMongoElement x 1 = Ok (VObject o).

Definition optional_field (name : string) (x : js) (o : BSONObj) : BSONObj :=
  if truthy x then [(name, VObject o)] else [].

Definition subscribe_cmd_of (ch : string) (filter projection : js) (f p : BSONObj) : BSONObj :=
  ("subscribe", VString ch) :: optional_field "filter" filter f ++ optional_field "projection" projection p.

Lemma argument_cases x o : argument x o →
  not_an_object x = false ∧ ((truthy x = false ∧ o = []) ∨ (truthy x = true ∧ v8ToMongoElement x 1 = Ok (VObject o))).
Proof.
  intros [(Ht & Hn & ->)|Hv]; [auto|]. destruct (v8_kind _ _ _ Hv) as [_ Ho].
  split; [unfold not_an_object; by rewrite (Ho eq_refl)|right]. split; [|done].
  destruct x; try done; cbn in Hv; discriminate Hv.
Qed.

Lemma subscribe_converted ch filter projection f p : argument filter f → argument projection p →
  v8ToMongo (subscribe_object (JString ch) filter projection) = size_check (subscribe_cmd_of ch filter projection f p).
Proof.
  intros (_ & Hf)%argument_cases (_ & Hp)%argument_cases. unfold subscribe_object, subscribe_cmd_of, optional_field.
  destruct Hf as [[-> ->]|[-> Hf]], Hp as [[-> ->]|[-> Hp]]; cbn [app];
    (rewrite object_fields by (by repeat constructor)); rewrite !js_fields_cons by done;
    rewrite ?Hf, ?Hp, ?res_bind_Ok; done.
Qed.

Lemma subscribe_run ch filter projection f p w : argument filter f → argument projection p → pubsubEnabled w = true →
  SubscribeCommand_run sys (subscribe_cmd_of ch filter projection f p) w =
  match subscribe sys ch f p w with
  | (Ok id, w') => (Ok [(kSubscriptionId, VOID id)], w')
  | (Throw e, w') => (Throw e, w')
  end.
Proof.
  intros (_ & Hf)%argument_cases (_ & Hp)%argument_cases Hen. unfold SubscribeCommand_run. run. rewrite Hen. run.
  change (as_String (getField (subscribe_cmd_of ch filter projection f p) kSubscribeField)) with (Ok ch). run.
  assert (optional_object (subscribe_cmd_of ch filter projection f p) kFilterField 18553
    "The filter passed to the subscribe command must be an object but was a " = Ok f) as ->.
  { unfold subscribe_cmd_of, optional_field. by destruct Hf as [[-> ->]|[-> _]], Hp as [[-> ->]|[-> _]]. }
  run. assert (optional_object (subscribe_cmd_of ch filter projection f p) kProjectionField 18554
    "The projection passed to the subscribe command must be an object but was a " = Ok p) as ->.
  { unfold subscribe_cmd_of, optional_field. by destruct Hf as [[-> ->]|[-> _]], Hp as [[-> ->]|[-> _]]. }
  run. destruct (subscribe sys ch f p w) as [[id|e] w'] eqn:E.
  - by rewrite (bind_Ok _ _ _ _ _ E).
  - by rewrite (bind_Throw _ _ _ _ _ E).
Qed.

(** A call of [subscribe] gives the object of the subscription the server has made. *)
Lemma shell_subscribe ps ch filter projection f p conn o :
  plain_db (ps_db ps) → open_conn conn → pubsubEnabled (world conn) = true →
  argument filter f → argument projection p → size_check (subscribe_cmd_of ch filter projection f p) = Ok o →
  match subscribe sys ch f p (world conn) with
  | (Ok id, w) =>
      PS_subscribe (Q:=Q) newFunction sys acquireV1 cmdText tojson ps (JString ch) filter projection conn
        = (Ok (mkSubscription (id_object id) ps), ran w conn)
  | (Throw _, w) => ∃ e,
      PS_subscribe (Q:=Q) newFunction sys acquireV1 cmdText tojson ps (JString ch) filter projection conn
        = (Throw e, ran w conn)
  end.
Proof.
  intros Hdb Hc Hen Hf Hp Hs. assert (o = subscribe_cmd_of ch filter projection f p) as ->.
  { destruct (size_check_cases (subscribe_cmd_of ch filter projection f p)) as [E|[e E]]; congruence. }
  pose proof (subscribe_converted ch _ _ _ _ Hf Hp) as Hob. rewrite Hs in Hob.
  pose proof (subscribe_run ch _ _ _ _ (world conn) Hf Hp Hen) as Hr.
  destruct (argument_cases _ _ Hf) as [Hnf Hf']. destruct (argument_cases _ _ Hp) as [Hnp Hp'].
  assert (no_options (subscribe_cmd_of ch filter projection f p)) as Hno.
  { unfold subscribe_cmd_of, optional_field. by destruct (truthy filter), (truthy projection). }
  unfold PS_subscribe. rewrite Hnf, Hnp. cbn [typeof String.eqb Ascii.eqb Bool.eqb negb].
  pose proof (call_run SubscribeCommand (ps_db ps) _ (VString ch) _ conn
    (λ res, id ← lift (js_get newFunction res "subscriptionId"); Subscription_new id ps) Hc Hdb Hob ltac:(done) Hno) as Hcall.
  change (command_run sys SubscribeCommand _ (world conn))
    with (SubscribeCommand_run sys (subscribe_cmd_of ch filter projection f p) (world conn)) in Hcall.
  rewrite Hr in Hcall. destruct (subscribe sys ch f p (world conn)) as [[id|e] w]; [|by apply Hcall].
  rewrite Hcall by (intros ? ? [= <- <-]; done). cbn [js_get]. unfold namedGet. by rewrite answer_field.
Qed.
End calls.

(** ** A shell connected to a small process *)

Definition sample_conn : Conn (Mt:=SMatcher) (Pt:=SProjection) :=
  mkConn two_subs (mkSession false false false false []) 0 0 None None.
Definition sample_ps : PS := mkPS "test".
Definition no_functions (code : string) : res js := Throw (UserException 0 code).

Lemma sample_db : plain_db (ps_db sample_ps).
Proof. repeat split; vm_compute; lia. Qed.

Lemma shell_publish_witness :
  match PS_publish (Q:=queue) no_functions quiet (λ _ _, None) (λ _, "") (λ _, "") sample_ps
          (JString "A") (JObject [("x", JNumber 0)]) sample_conn with
  | (Ok _, conn') => ∃ ch m, publishable (JString "A") (JObject [("x", JNumber 0)]) two_subs ch m ∧
      publish quiet ch m two_subs = (Ok true, world conn')
  | (Throw _, conn') =>
      (∃ ch m, publishable (JString "A") (JObject [("x", JNumber 0)]) two_subs ch m ∧
         (publish quiet ch m two_subs).1 ≠ Ok true ∧ (publish quiet ch m two_subs).2 = world conn')
      ∨ (∀ ch m, ¬ publishable (JString "A") (JObject [("x", JNumber 0)]) two_subs ch m) ∧ world conn' = two_subs
  end.
Proof.
  apply (shell_publish (Q:=queue) no_functions quiet (λ _ _, None) (λ _, "") (λ _, "") sample_ps
    (JString "A") (JObject [("x", JNumber 0)]) sample_conn sample_db). done.
Defined.

Lemma for_each_round_witness :
  match poll (Q:=queue) quiet [oid_of 1] 10000 0 false [] two_subs with
  | (Ok r, w) => ∃ cs,
      channels_messages cs ≡ₚ pq_elems (pr_messages r) ∧ drained_order (channels_messages cs) ∧
      channels_ok (oid_of 1) cs ∧ NoDup cs.*1 ∧
      forEach_round (Q:=queue) no_functions quiet (λ _ _, None) (λ _, "") (λ _, "")
        (mkSubscription (id_object (oid_of 1)) sample_ps) sample_conn = (Ok (call_with cs), ran w sample_conn)
  | (Throw _, w) => ∃ e,
      forEach_round (Q:=queue) no_functions quiet (λ _ _, None) (λ _, "") (λ _, "")
        (mkSubscription (id_object (oid_of 1)) sample_ps) sample_conn = (Throw e, ran w sample_conn)
  end.
Proof.
  apply (for_each_round (Q:=queue) no_functions quiet (λ _ _, None) (λ _, "") (λ _, "")
    (oid_of 1) sample_ps sample_conn sample_db); done.
Defined.

Lemma for_each_deaf_witness :
  ∃ conn', world conn' = two_subs ∧
    forEach (Q:=queue) no_functions quiet (λ _ _, None) (λ _, "") (λ _, "") 1000
      (mkSubscription (id_object (oid_of 9)) sample_ps) sample_conn = (Ok [], conn').
Proof.
  apply (for_each_deaf (Q:=queue) no_functions quiet (λ _ _, None) (λ _, "") (λ _, "")
    1000 (oid_of 9) sample_ps sample_conn sample_db); [done|done|exact two_subs_wf|done].
Defined.
